(* ===== verification/_CoqProject ===== *)
-Q . S2P
Prelude.v
Errors.v
GoStrings.v
GoPath.v
GoFilepath.v
GoRegexp.v
Domain.v
Steps.v
Manifest.v
Runtime.v
DepTree.v
Channels.v
Versioning.v
Targets.v
Trace.v
Graph.v
Prog.v
Brackets.v
Lifecycle.v
LifecycleProtocol.v
LifecycleDeps.v
LifecycleRaces.v
LifecycleRows.v
LifecycleRuns.v
RuntimeDrain.v
RuntimeRepo.v
Assembler.v
Catalog.v
CatalogRuns.v
CatalogInstalls.v
CatalogTable.v
Netbridge.v
VaultPaths.v
VaultIndex.v
Vault.v
Ruleset.v
RulesetRefs.v
RulesetFacts.v
Unpack.v
UnpackFacts.v
UnpackLinks.v
Auth.v
Logring.v
Cascade.v
Shutdown.v
Wizard.v
WizardRuns.v
WizardProbes.v
Translator.v
