(* ===== verification/Prelude.v ===== *)
(** * A verification development for quiver.core

    Quiver is a daemon that installs and runs arrows: applications published as a
    manifest in a Git repository, named by a namespace such as
    [github.com/user/app@v1].  The manifold (internal/engine/manifold) reads a
    repository's tags and manifest: it sorts the tags into release channels,
    decides what a selector resolves to and whether an installed arrow has drifted,
    and compiles a manifest to one target per operating system.  The dependency
    tree (internal/engine/deptree) orders what an install needs.  The runtime
    repository (internal/app/repositories/runtime) keeps one aggregate per arrow,
    written only by commands through a third-party event store (asynx); it begins
    runs, drains the events the wizard (the supervisor of processes) delivers, and
    recovers the aggregates after a crash.

    ** How the code is modelled

    A Go function is a Gallina function on the same data.  A struct is a record, a
    string type with named constants an inductive type with one more constructor
    for any other string, a map a [gmap] (or the list of its entries where a loop
    ranges over it, since Go fixes no order), a nil-able pointer or slice an
    [option] where the code tells nil from empty.  [(T, error)] is [result E T].
    A panic is a value ([None], or [Panicked] in [Runtime]).  Recursion that is not
    structural takes fuel, and running out of it is a value of its own; each such
    function comes with a theorem that says how much is enough.  Calls that leave
    the modelled code (the store, the wizard, the network, the clock) are arguments:
    functions, or classes with laws where a theorem needs some.

    ** The files

    - [Prelude]: [result], its notation, comparison functions as orders, Go's
      [slices.SortFunc] as insertion sort with the lemmas that make its result
      unique, and the tactics shared by the files.
    - [GoStrings], [GoPath], [GoFilepath], [GoRegexp]: the parts of the standard
      library the program computes with: [strings] and [strconv]; [path.Match], chunk
      by chunk as the library does it, with fuel [path_match_total] bounds by the
      pattern's length; [filepath.Clean] and [Join] on slash-separated paths; a
      backtracking matcher for the patterns tags and references are split with.
    - [Domain]: internal/domain: namespaces, selector kinds, snapshots of refs,
      operating systems, the arrow states and their transition table.
    - [Steps]: internal/domain and internal/domain/runtime/step: values that vary
      by platform, steps, methods, targets, dependency edges.
    - [Manifest]: the arrow record of internal/domain, its declared variables and
      ports (variable.go, netbridge/) with their validation, the reserved names.
    - [Runtime]: internal/domain/runtime and the commands of the runtime
      repository (internal/commands): [Validate] and [EmitEvent] of each command,
      applied to the aggregates ([run_write]); [wf_runtime] is the invariant of one
      aggregate, and [Lifecycle.next] the abstract state machine of an arrow.
    - [DepTree]: internal/engine/deptree: the traversal with its states, stack and
      order.
    - [Channels]: internal/engine/manifold/resolver/resolvers (channel.go,
      constraint.go, newest_first.go): classification of tags, the order of a
      channel, the comparison of two tags out of their set, glob constraints.
    - [Versioning]: internal/engine/manifold/versioning: selectors and their
      targets, drift, admission of a ref, the cache of snapshots.
    - [Targets]: internal/engine/manifold (translator/arrow/v0/selector.go,
      compiler/compiler.go): the key an operating system gets, the chain of bases,
      the values of a platform, the compiled targets.
    - [Graph]: internal/app/repositories/graph: the plan of an install over the
      dependency tree, the table of edges with its primary key, the difference
      between two manifests.
    - [Prog], [Trace]: a program as the tree of the calls it makes, the protocols
      it can be held to and what came before a call; predicates on the actions a
      function writes down.
    - [Brackets], [Lifecycle]: internal/app/repositories/lifecycle.  [Brackets] is
      the state its goroutines share (bracket/targets.go, commits/commits.go,
      settle/holds.go), each operation what the code does under one lock.
      [Lifecycle] has the verbs, the settling and the cascades (deps/, bracket/,
      settle/settler.go) as programs of calls on the catalog, the runtime
      repository, the graph and that state; an error is the list of the sentinels
      it wraps.
    - [LifecycleProtocol]: two automata a goroutine keeps to: what the brackets let it
      call, and what it owes before it lets one go;
      [LifecycleDeps]: what was called before an install and an uninstall;
      [LifecycleRaces], [LifecycleRows], [LifecycleRuns]: any number of goroutines
      over one shared state, a call at a time, the invariant of that machine row by
      row, and the theorems about every configuration it reaches.
    - [RuntimeDrain]: hooks.go, drain_report.go, send_retry.go, retry.go,
      surface_probe.go and reactions.go of the runtime repository: functions that
      write down what they do, in order, against an environment [Env] that may
      answer anything at each call.
    - [RuntimeRepo]: runtime.go, set_version_outdated.go,
      reconcile_version_badge.go and recovery.go: the operations over any store
      that satisfies the class [AsynxLaws]; the aggregates of [Runtime] are one.
    - [Assembler]: runtime/internal/assembler and the wizard's expansion of a step
      (wizard/internal/step/expand.go): the steps of a method, the variables a run
      is given, layer by layer, and the references its steps make; the assembler the
      repository uses ([plannedAssembler] of runtime.go), which has the wizard plan the
      steps that expose an arrow around them (wizard/internal/step/expose/plan.go).
    - [Errors]: internal/app/errors and the sentinels of the engines; an error is the
      list of the sentinels it wraps.
    - [Catalog]: internal/app/repositories/arrow: the commands of the aggregate of a
      catalogued arrow, how an install is resolved and its manifest read (store/),
      how a row is advanced, adopted and checked (advance/), the verbs.
      [CatalogRuns]: any number of these programs at once over one store, a call at a
      time; [CatalogInstalls]: one run with the answers it got; [CatalogTable]: the
      SQL tables of the read model, the projector that keeps them, the reads.
    - [Netbridge]: internal/engine/netbridge: the allocations of ports, the search for
      a free one, the router's strategies; operations as programs over a store, a read
      model and the events not projected yet, which may be lost.
    - [VaultPaths], [VaultIndex], [Vault]: internal/engine/vault: the names and the
      directories of namespaces (pathsafe.go); the search index, its writes and its
      query (index.go, index_query.go); the cache of manifests and the workdirs
      (store.go, manifest.go, sweep.go) as programs over a file system.
    - [Ruleset]: internal/engine/manifold/ruleset: each rule on a manifest, before and
      after it is compiled, as the list of what it finds.  [RulesetRefs]: the rule on
      references against the assembler; [RulesetFacts]: what is accepted.
    - [Unpack]: internal/engine/wizard/internal/unpack (guard, archive) and workfs: the
      guard every entry of an archive goes through, and the formats that feed it entries,
      as operations on a guard that call the directory and the reader.  [UnpackFacts]:
      its limits and folded names; [UnpackLinks]: where the links lead that it leaves.
    - [Auth]: internal/domain/auth, the repositories of pairing codes and of devices, and the
      use case over both (auth.go): the commands of the two aggregates, the table of devices
      and its projector, the requests as programs.
    - [Cascade]: internal/app/repositories/cascade: the removals whose runtime is still to be
      forgotten, the drains of them, any number at once, and the gate they stop at.
    - [Logring]: internal/core/logring and the console's session of it: the fields a record is
      kept with, the ring, the streams that replay and follow it.
    - [Shutdown]: internal/core/shutdown: phases under budgets of their own, and the sequences
      of the daemon and of its containers.
    - [Wizard]: internal/engine/wizard: the channel of an execution, the loop over its steps
      and the handlers that run, signal and expose, as programs of calls; [WizardRuns]: any
      number of executions, probes, shutdowns and readers of events at once over the wizard's
      flag and group; [WizardProbes]: the answer of a probe, and the block of exposed entries.
    - [Translator]: internal/engine/manifold/translator: the fenced block of an ARROW.md and
      the prose around it, the schema a manifest names, and the mapper from what the YAML
      library decoded to the manifest and its targets.

    ** What the theorems show

    - The aggregate: an invariant of every store the commands can produce, the
      exact set of moves between states (an equivalence with the abstract machine),
      that no accepted command panics, that late reports of a superseded run change
      nothing, what an end records, and when a pending dependency sync can be lost.
    - The repository: every request does what its command does and names the state
      it was refused in; a stop that is sent again never starts twice; recovery
      settles each aggregate as its state calls for, and never another; the badge of
      an available version is a projection of the catalog.
    - Draining: whatever other goroutines do, a run sends only commands with its own
      id, falls silent once superseded, retries only lost races and at most five
      times, ends once and stamps the catalog only on success.
    - Assembly: a run that begins has the steps of its method, in their order, with the
      steps that expose the arrow around them, and was given every variable they reference;
      the built-in values stay what the daemon computed whatever the user passes or
      an earlier run left, unless the manifest itself declares the name; and the
      pattern that collects references agrees with the wizard's expansion.
    - Dependencies: a successful resolution is an install order of what is
      reachable; it always ends, and reports a cycle exactly when there is one.
      The plan of an install is exactly what its manifests declare; recording the
      edges of an arrow replaces its rows and keeps the table's key.
    - Lifecycle: whatever is answered, a goroutine keeps to the brackets and leaves
      none open, puts the installed manifest back where a target it staged came to
      nothing, installs dependencies before what needs them, and uninstalls only
      what it read as unneeded, unless a client executes [_uninstall] by name.  However goroutines interleave, a row has one update
      between the moment its target is remembered and the moment it is settled, and
      [Settling] sees it; a version check held meanwhile is not lost; and a drain
      that found or waited for no commit leaves none running and lets none start.
    - Channels and versioning: grouping is a partition that does not depend on the
      order of the tags; a constraint picks the best match; a selector that
      classifies resolves and is admitted back; drift settles once applied, and
      offers a channel's newest release where no tag is dated.  Where tags are
      dated two theorems show that pairwise comparison disagrees with the channel.
    - The catalog: a row only ever offers an available version some check judged to be
      ahead of what the row is at; an install records what its selector points at in
      the list it read, and leaves the manifest of a catalogued row alone; adopting
      the same state twice writes once; and the read model holds one row per arrow,
      in step with the aggregates whenever every event was projected and no version was
      written between the two transactions of a forget ([CatalogTable.forget_loses_version]).
    - Ports: a port is granted to one owner at a time and released only for them,
      whatever fails and across restarts; it was seen unlisted and was bound before it
      is recorded; and where nothing fails it is the first vacant one.
    - The vault: distinct namespaces, none with a dot for a segment, have distinct
      workdirs, inside one another only where a repository holds the arrows it hosts;
      deleting one removes nothing outside the root and no parent that is not empty; where
      nothing fails the cache behaves as a map; a search finds
      exactly the rows that match, and the index keeps its tables together.
    - Rules: a manifest whose bases are accepted compiles unless two keys tie; the steps a
      platform gets have their values there, where the rule looks; every plain reference
      of a run assembled from an accepted manifest has a value, with the exceptions listed.
    - Unpacking: no name leaves the destination; an extraction ends, within its bytes and
      entries; names that fold alike are the same; the verification removes only links that
      lead out, and no link it leaves at a place reached by no other link does, on a
      small-step semantics of the kernel's way along a path.
    - Pairing: however requests interleave, a code is redeemed at most once; a token is
      accepted only for a device that was paired with it; and a revocation holds from where
      it was projected, and may be overtaken before that ([Auth.lost_revocation]).
    - Removals, the log, the shutdown: a removal keeps its row until its runtime was forgotten,
      unless another was about to clear it ([Cascade.overtaken_removal]); a stream of the log
      has no gap, a client that comes back goes on where it was, and no value under a telling
      key is kept; a shutdown ends whatever its parts do, and none of them spends another's
      time, except the updates that of the repositories ([Shutdown.updates_starve_repositories]).
    - Executions: steps go in order, each with its own work and its own verdict, and the
      outcome says how far they came, is final once the channels are closed; an event that is
      read was emitted, once and in order, and one that is not is lost only past the sixteen
      the channel holds, whatever its kind ([Wizard.pid_lost]); no goroutine sends on a closed
      channel; and a probe's yes is the success of every step that asks something.
    - Targets: the most specific key wins or the tie is an error, a chain of bases
      always ends with the right verdict and the nearest declaration wins, and a
      compiled manifest has its values settled on every platform.

    ** Bounds and fuel

    [DepTree.dfs] needs one more call than there are reachable arrows,
    [Targets.chain_fuel] one more than there are targets, the loops of [GoPath] the
    length of the pattern, [RuntimeRepo.stop_attempts] and
    [RuntimeDrain.send_attempts] the five attempts of the code.  The loop of
    [Lifecycle.releaseSettled] goes on as long as checks are held during it; it
    takes fuel, and running out is a call nothing answers, so the theorems about
    goroutines hold for every fuel.
    [Unpack.Copy] takes one round per megabyte of its limit, [Unpack.resolveExisting] one per
    byte of a path, both shown enough by [extraction_within_limits]; [Unpack.resolve] follows
    the forty links of the code, and a greater depth changes nothing ([UnpackLinks.resolve_depth]).
    [Netbridge.Allocate] makes the 64 attempts of the code; [allocates_first_vacant] says
    when they are enough.  [Assembler.Expand] takes one round per byte and one more ([Expand_total]).  The
    probe of a surface has no deadline in the code; [RuntimeDrain.probe_loop] takes fuel and
    reports when it ran out.  Integers the program computes with are read from tags
    ([GoStrings.atoi], kept in 64 bits) or count steps, and stay in [Z].

    ** What is not modelled

    Encodings (YAML, JSON, SQL), the HTTP and WebSocket interface, the command line
    client, the processes, desktop files and PATH of the host, and the clients of
    remote forges: input and output around the logic.  In the lifecycle, contexts
    are answers ([ContextEnded], [WaitEnded]) and the text of errors is left out; a
    call takes effect at one instant.  Of the catalog, its wiring, the watch on it,
    the views of the API, the full-text search and the JSON of its columns are left
    out.  The updates that begin without a remembered
    target ([BeginExecution] in [updateHeld], when the state it read has changed
    since), a reset, and an update judged not begun that had begun, mark their row
    as adrift, and the theorems on rows exclude it.  Of the vault, the
    collections beside the manifests, the database and the timer are left out; the SHA-256
    digest, LIKE and the rank of a text are arguments, and a claim about long names assumes
    that two of them do not share a digest.  Of the rules, the text of messages is left
    out.  Of unpacking, mounted trees, AppImages, disk images and installers, and the modes
    of files.  Of pairing, the wiring and the transport; the digest of a token is an
    argument, and a time is a number of nanoseconds.  Of the log, floating point values, which
    are kept as they are; a stream is followed for fewer records than 64 bits can count.  A
    phase of a shutdown is known by when it ends and what it starts, and its context ends only
    by its deadline.  Of the
    mapper of manifests, the libraries that decode YAML and check its schema are arguments,
    and collections are left out.  Of an execution,
    the handlers that download and unpack, durations and the processes are answers, the
    event of an end carries no outcome, and signals are those of Unix.
    Case folding is that of ASCII, and tags are ASCII. *)

From stdpp Require Export base list gmap strings sorting pretty.
From Stdlib Require Export ZArith Lia.

(** ** Fallible code

    Go functions that return [(T, error)] are modelled by [result E T]. *)

Inductive result (E A : Type) : Type :=
| Ok (a : A)
| Err (e : E).
Arguments Ok {E A} a.
Arguments Err {E A} e.

#[export] Instance result_eq_dec {E A} `{EqDecision E, EqDecision A} : EqDecision (result E A).
Proof. solve_decision. Defined.

Definition rbind {E A B} (r : result E A) (k : A → result E B) : result E B :=
  match r with
  | Ok a => k a
  | Err e => Err e
  end.

Definition rmap_err {E F A} (f : E → F) (r : result E A) : result F A :=
  match r with
  | Ok a => Ok a
  | Err e => Err (f e)
  end.

Definition is_ok {E A} (r : result E A) : bool :=
  match r with Ok _ => true | Err _ => false end.

Create HintDb quiver.

Declare Scope quiver_scope.
Delimit Scope quiver_scope with quiver.
Notation "'let?' x ':=' r 'in' k" := (rbind r (λ x, k))
  (at level 10, x name, r at level 100, k at level 200,
   format "'[v' 'let?'  x  ':='  r  'in'  '/' k ']'") : quiver_scope.
Notation "'let?' ' p ':=' r 'in' k" := (rbind r (λ x, match x with p => k end))
  (at level 10, p strict pattern, r at level 100, k at level 200) : quiver_scope.
#[global] Open Scope quiver_scope.

(** ** Tactics *)

(** Case on the match or [if] that blocks the goal or a hypothesis. *)
Ltac case_hyp H :=
  match type of H with
  | context [match ?x with _ => _ end] => destruct x eqn:?; simplify_eq/=
  end.

Ltac case_goal :=
  match goal with
  | |- context [match ?x with _ => _ end] => destruct x eqn:?; simplify_eq/=
  end.

(** [x != a && x != b] in a guard that did not fire *)
Lemma neither_false (P Q : Prop) `{Decision P, Decision Q} :
  negb (bool_decide P) && negb (bool_decide Q) = false ↔ P ∨ Q.
Proof. do 2 case_bool_decide; naive_solver. Qed.

(** Split every boolean connective in the context into propositions. *)
Ltac bool_simpl :=
  repeat match goal with
  | H : (_ && _) = true |- _ => apply andb_true_iff in H as [? ?]
  | H : (_ || _) = false |- _ => apply orb_false_iff in H as [? ?]
  | H : negb (bool_decide _) && negb (bool_decide _) = false |- _ =>
    apply neither_false in H; destruct H
  | H : negb _ = true |- _ => apply negb_true_iff in H
  | H : negb _ = false |- _ => apply negb_false_iff in H
  | H : bool_decide _ = true |- _ => apply bool_decide_eq_true in H
  | H : bool_decide _ = false |- _ => apply bool_decide_eq_false in H
  end; simplify_eq/=.

(** Invert [rbind _ _ = Ok _]. *)
Lemma rbind_ok {E A B} (r : result E A) (k : A → result E B) b :
  rbind r k = Ok b ↔ ∃ a, r = Ok a ∧ k a = Ok b.
Proof. destruct r; split; naive_solver. Qed.

Lemma rbind_err {E A B} (r : result E A) (k : A → result E B) e :
  rbind r k = Err e ↔ r = Err e ∨ ∃ a, r = Ok a ∧ k a = Err e.
Proof. destruct r; split; naive_solver. Qed.

Ltac inv_bind H :=
  apply rbind_ok in H; destruct H as (? & ? & H).

(** ** Three-way comparison

    Go's [cmp.Compare], [strings.Compare] and the comparison functions passed
    to [slices.SortFunc] return a negative, zero or positive [int]; we use
    [comparison] for the sign. *)

Class TotalCmp {A} (cmp : A → A → comparison) : Prop := {
  cmp_antisym x y : cmp y x = CompOpp (cmp x y);
  cmp_trans x y z : cmp x y ≠ Gt → cmp y z ≠ Gt → cmp x z ≠ Gt;
}.

Arguments cmp_antisym {A} cmp {_} x y.
Arguments cmp_trans {A} cmp {_} x y z _ _.

(** A comparison that only calls equal elements equal: a total order. *)
Class StrictCmp {A} (cmp : A → A → comparison) : Prop := {
  strict_total :: TotalCmp cmp;
  cmp_eq x y : cmp x y = Eq → x = y;
}.

Arguments cmp_eq {A} cmp {_} x y _.

(** [if c := f; c != 0 { return c }; return g] *)
Definition cmp_then (c d : comparison) : comparison :=
  match c with Eq => d | _ => c end.

Definition cmp_le {A} (cmp : A → A → comparison) : relation A := λ x y, cmp x y ≠ Gt.

#[export] Instance cmp_le_dec {A} (cmp : A → A → comparison) x y : Decision (cmp_le cmp x y).
Proof. unfold cmp_le. destruct (cmp x y); solve_decision. Defined.

Section total_cmp.
Context {A : Type} (cmp : A → A → comparison) `{!TotalCmp cmp}.

Lemma cmp_refl x : cmp x x = Eq.
Proof. pose proof (cmp_antisym cmp x x) as H. by destruct (cmp x x). Qed.

Lemma cmp_le_refl x : cmp_le cmp x x.
Proof. unfold cmp_le. by rewrite cmp_refl. Qed.

Lemma cmp_lt_gt x y : cmp x y = Lt ↔ cmp y x = Gt.
Proof. rewrite (cmp_antisym cmp x y). by destruct (cmp x y). Qed.

Lemma cmp_eq_sym x y : cmp x y = Eq → cmp y x = Eq.
Proof. intros H. by rewrite (cmp_antisym cmp x y), H. Qed.

Lemma cmp_not_gt x y : cmp x y ≠ Gt ↔ cmp y x ≠ Lt.
Proof. rewrite (cmp_antisym cmp x y). by destruct (cmp x y). Qed.

Lemma cmp_lt_le_trans x y z : cmp x y = Lt → cmp y z ≠ Gt → cmp x z = Lt.
Proof.
  intros Hxy Hyz. destruct (cmp x z) eqn:Hxz; [|done|].
  - assert (cmp y x ≠ Gt) as Hyx.
    { apply (cmp_trans _ _ z); [done|]. by rewrite (cmp_eq_sym x z). }
    by rewrite (cmp_antisym cmp x y), Hxy in Hyx.
  - exfalso. apply (cmp_trans cmp x y z); [by rewrite Hxy|done|done].
Qed.

Lemma cmp_le_lt_trans x y z : cmp x y ≠ Gt → cmp y z = Lt → cmp x z = Lt.
Proof.
  intros Hxy Hyz. apply cmp_lt_gt. apply cmp_lt_gt in Hyz.
  assert (cmp y x ≠ Lt) as Hyx by by apply cmp_not_gt.
  destruct (cmp z x) eqn:Hzx; [| |done]; exfalso.
  - assert (cmp z y ≠ Gt); [|congruence].
    apply (cmp_trans _ _ x); congruence.
  - assert (cmp z y ≠ Gt); [|congruence].
    apply (cmp_trans _ _ x); congruence.
Qed.

Lemma cmp_eq_trans x y z : cmp x y = Eq → cmp y z = Eq → cmp x z = Eq.
Proof.
  intros Hxy Hyz. destruct (cmp x z) eqn:Hxz; [done| |]; exfalso.
  - apply cmp_lt_gt in Hxz. apply (cmp_trans cmp z y x); [|  |done].
    + by rewrite (cmp_eq_sym y z).
    + by rewrite (cmp_eq_sym x y).
  - apply (cmp_trans cmp x y z); congruence.
Qed.

#[export] Instance cmp_le_transitive : Transitive (cmp_le cmp).
Proof. intros x y z. exact (cmp_trans cmp x y z). Qed.

#[export] Instance cmp_le_total : Total (cmp_le cmp).
Proof.
  intros x y. unfold cmp_le. rewrite (cmp_antisym cmp x y).
  destruct (cmp x y); naive_solver.
Qed.
End total_cmp.

#[export] Instance total_cmp_flip {A} (cmp : A → A → comparison) :
  TotalCmp cmp → TotalCmp (λ x y, cmp y x).
Proof.
  intros ?. split.
  - intros x y. apply (cmp_antisym cmp).
  - intros x y z Hxy Hyz. by apply (cmp_trans cmp z y x).
Qed.

#[export] Instance total_cmp_on {A B} (f : A → B) (cmp : B → B → comparison) :
  TotalCmp cmp → TotalCmp (λ x y, cmp (f x) (f y)) | 10.
Proof.
  intros ?. split.
  - intros x y. apply (cmp_antisym cmp).
  - intros x y z. exact (cmp_trans cmp (f x) (f y) (f z)).
Qed.

#[export] Instance total_cmp_then {A} (c d : A → A → comparison) :
  TotalCmp c → TotalCmp d → TotalCmp (λ x y, cmp_then (c x y) (d x y)).
Proof.
  intros Hc Hd. split.
  - intros x y. rewrite (cmp_antisym c x y), (cmp_antisym d x y).
    by destruct (c x y), (d x y).
  - intros x y z Hxy Hyz.
    destruct (c x y) eqn:Cxy; simpl in Hxy; [| |done].
    + destruct (c y z) eqn:Cyz; simpl in Hyz; [| |done].
      * rewrite (cmp_eq_trans c x y z Cxy Cyz). simpl. by apply (cmp_trans _ _ y).
      * rewrite (cmp_le_lt_trans c x y z); [done|congruence|done].
    + rewrite (cmp_lt_le_trans c x y z); [done|done|].
      by destruct (c y z).
Qed.

#[export] Instance total_cmp_Z : TotalCmp Z.compare.
Proof.
  split.
  - intros x y. apply Z.compare_antisym.
  - intros x y z. rewrite !Z.compare_ngt_iff. lia.
Qed.

(** [strings.Compare] compares bytes; so does [String.compare]. *)
Lemma ascii_compare_trans a b c :
  Ascii.compare a b ≠ Gt → Ascii.compare b c ≠ Gt → Ascii.compare a c ≠ Gt.
Proof. unfold Ascii.compare. rewrite !N.compare_ngt_iff. lia. Qed.

Lemma ascii_compare_eq a b : Ascii.compare a b = Eq → a = b.
Proof. by apply Ascii.compare_eq_iff. Qed.

#[export] Instance total_cmp_ascii : TotalCmp Ascii.compare.
Proof. split; [intros; apply Ascii.compare_antisym|apply ascii_compare_trans]. Qed.

Lemma string_compare_cons a s b t :
  String.compare (String a s) (String b t) = cmp_then (Ascii.compare a b) (String.compare s t).
Proof. simpl. by destruct (Ascii.compare a b). Qed.

#[export] Instance strict_cmp_string : StrictCmp String.compare.
Proof.
  split; [split|].
  - intros s t. apply String.compare_antisym.
  - intros s. induction s as [|a s IH]; intros [|b t] [|c u]; try done.
    rewrite !string_compare_cons. intros H1 H2.
    destruct (Ascii.compare a b) eqn:Hab; simpl in H1; [| |done].
    + apply ascii_compare_eq in Hab as ->.
      destruct (Ascii.compare b c); simpl in *; [by apply (IH t)|done|done].
    + destruct (Ascii.compare b c) eqn:Hbc; simpl in H2; [| |done].
      * apply ascii_compare_eq in Hbc as ->. by rewrite Hab.
      * rewrite (cmp_lt_le_trans Ascii.compare a b c); [done|done|congruence].
  - intros s t. apply String.compare_eq_iff.
Qed.

(** ** Sorting

    [slices.SortFunc] sorts by a comparison function.  We model it by a stable
    insertion sort; [sort_func_unique] justifies the choice: under a comparison
    that separates distinct elements every sorting algorithm, stable or not,
    returns the same list.  [slices.SortedStableFunc] is stable, as this is. *)

Section sort_func.
Context {A : Type} (cmp : A → A → comparison).

Fixpoint insert_func (x : A) (l : list A) : list A :=
  match l with
  | [] => [x]
  | y :: l' =>
    match cmp x y with
    | Gt => y :: insert_func x l'
    | _ => x :: l
    end
  end.

Definition sort_func (l : list A) : list A := foldr insert_func [] l.

Lemma insert_func_perm x l : insert_func x l ≡ₚ x :: l.
Proof.
  induction l as [|y l IH]; simpl; [done|].
  destruct (cmp x y); [done|done|]. rewrite IH. apply Permutation_swap.
Qed.

Lemma sort_func_perm l : sort_func l ≡ₚ l.
Proof. induction l as [|x l IH]; simpl; [done|]. by rewrite insert_func_perm, IH. Qed.

Lemma sort_func_length l : length (sort_func l) = length l.
Proof. by rewrite sort_func_perm. Qed.

Lemma elem_of_sort_func x l : x ∈ sort_func l ↔ x ∈ l.
Proof. by rewrite sort_func_perm. Qed.

Context `{!TotalCmp cmp}.

Lemma insert_func_sorted x l :
  StronglySorted (cmp_le cmp) l → StronglySorted (cmp_le cmp) (insert_func x l).
Proof.
  intros Hl. induction Hl as [|y l Hl IH Hy]; simpl; [by repeat constructor|].
  destruct (cmp x y) eqn:Hxy.
  1,2: constructor; [by constructor|]; constructor; [unfold cmp_le; congruence|];
    eapply Forall_impl; [exact Hy|]; simpl; intros z Hz;
    apply (cmp_trans cmp x y z); [congruence|done].
  constructor; [done|]. rewrite insert_func_perm. constructor; [|done].
  unfold cmp_le. apply (cmp_lt_gt cmp) in Hxy. congruence.
Qed.

Lemma sort_func_sorted l : StronglySorted (cmp_le cmp) (sort_func l).
Proof. induction l; simpl; [constructor|]. by apply insert_func_sorted. Qed.

(** The first element of a sorted list precedes every other. *)
Lemma sort_func_head l x l' :
  sort_func l = x :: l' → ∀ y, y ∈ l → cmp x y ≠ Gt.
Proof.
  intros Hs y Hy. pose proof (sort_func_sorted l) as Hsort.
  rewrite <-(elem_of_sort_func y l), Hs in Hy. rewrite Hs in Hsort.
  apply elem_of_cons in Hy as [->|Hy]; [by rewrite (cmp_refl cmp)|].
  inversion Hsort as [|?? _ Hall]; subst.
  rewrite Forall_forall in Hall. by apply Hall.
Qed.

Lemma sort_func_nil l : sort_func l = [] ↔ l = [].
Proof.
  split; [|by intros ->]. intros H. apply length_zero_iff_nil.
  by rewrite <-sort_func_length, H.
Qed.
End sort_func.

(** On a list with no duplicates under a strict comparison, the sorted
    permutation is unique. *)
Lemma sort_func_unique {A} (cmp : A → A → comparison) `{!StrictCmp cmp} (l l' : list A) :
  l' ≡ₚ l → StronglySorted (cmp_le cmp) l' → l' = sort_func cmp l.
Proof.
  intros Hp Hs. assert (AntiSymm (=) (cmp_le cmp)) as Hanti.
  { intros x y Hxy Hyx. apply (cmp_eq cmp). unfold cmp_le in *.
    rewrite (cmp_antisym cmp x y) in Hyx. by destruct (cmp x y). }
  apply (StronglySorted_unique (cmp_le cmp)); [done|apply sort_func_sorted, _|].
  by rewrite sort_func_perm.
Qed.

(** Two permutations of one list are sorted alike. *)
Lemma sort_func_permutation {A} (cmp : A → A → comparison) `{!StrictCmp cmp} (l l' : list A) :
  l ≡ₚ l' → sort_func cmp l = sort_func cmp l'.
Proof.
  intros Hp. apply (sort_func_unique cmp); [|apply sort_func_sorted, _].
  by rewrite sort_func_perm.
Qed.

(** The same where the comparison only separates the elements of the list. *)
Lemma sort_func_permutation_on {A} (cmp : A → A → comparison) `{!TotalCmp cmp} (l l' : list A) :
  (∀ x y, x ∈ l → y ∈ l → cmp x y = Eq → x = y) →
  l ≡ₚ l' → sort_func cmp l = sort_func cmp l'.
Proof.
  intros Heq Hp. apply (StronglySorted_unique_strong (cmp_le cmp)).
  - intros x y Hx Hy Hxy Hyx. apply Heq.
    + by rewrite elem_of_sort_func in Hx.
    + rewrite Hp. by rewrite elem_of_sort_func in Hy.
    + unfold cmp_le in *. rewrite (cmp_antisym cmp x y) in Hyx. by destruct (cmp x y).
  - apply sort_func_sorted, _.
  - apply sort_func_sorted, _.
  - by rewrite !sort_func_perm.
Qed.

Lemma filter_all {A} (P : A → Prop) `{∀ x, Decision (P x)} (l : list A) :
  (∀ x, x ∈ l → P x) → filter P l = l.
Proof.
  induction l as [|x l IH]; intros Hl; [done|].
  rewrite filter_cons_True by (apply Hl; set_solver). f_equal. apply IH. set_solver.
Qed.

(** ** First occurrences

    A loop that keeps the first of each value, by a map of those it has seen *)

Fixpoint dedupe_from (seen : gset string) (values : list string) : list string :=
  match values with
  | [] => []
  | v :: values' =>
    if bool_decide (v ∈ seen) then dedupe_from seen values'
    else v :: dedupe_from ({[v]} ∪ seen) values'
  end.

(** The values of a list, each once, in the order they come *)
Definition dedupe : list string → list string := dedupe_from ∅.

Lemma elem_of_dedupe_from seen values v :
  v ∈ dedupe_from seen values ↔ v ∉ seen ∧ v ∈ values.
Proof.
  revert seen. induction values as [|w values IH]; intros seen; simpl; [set_solver|].
  case_bool_decide; [rewrite IH; set_solver|].
  rewrite elem_of_cons, IH. destruct (decide (v = w)) as [->|]; set_solver.
Qed.

Lemma elem_of_dedupe values v : v ∈ dedupe values ↔ v ∈ values.
Proof. unfold dedupe. rewrite elem_of_dedupe_from. set_solver. Qed.

Lemma NoDup_dedupe_from seen values : NoDup (dedupe_from seen values).
Proof.
  revert seen. induction values as [|v values IH]; intros seen; simpl; [constructor|].
  case_bool_decide; [apply IH|]. constructor; [|apply IH]. rewrite elem_of_dedupe_from. set_solver.
Qed.

Lemma NoDup_dedupe values : NoDup (dedupe values).
Proof. apply NoDup_dedupe_from. Qed.

(** In a strongly sorted list an earlier element is related to a later one. *)
Lemma StronglySorted_lookup {A} (R : relation A) (l : list A) i j x y :
  StronglySorted R l → i < j → l !! i = Some x → l !! j = Some y → R x y.
Proof.
  intros Hl. revert i j. induction Hl as [|z l Hl IH Hz]; intros i j Hij Hx Hy; [done|].
  destruct j as [|j]; [lia|]. destruct i as [|i]; simplify_eq/=.
  - rewrite Forall_forall in Hz. by eapply Hz, list_elem_of_lookup_2.
  - apply (IH i j); [lia|done|done].
Qed.

(** Sorted without duplicates under a strict comparison: strictly sorted. *)
Lemma StronglySorted_strict {A} (cmp : A → A → comparison) `{!StrictCmp cmp} (l : list A) :
  StronglySorted (cmp_le cmp) l → NoDup l → StronglySorted (λ x y, cmp x y = Lt) l.
Proof.
  induction 1 as [|x l Hl IH Hx]; intros Hn; constructor; apply NoDup_cons in Hn as [Hnin Hn].
  - by apply IH.
  - eapply Forall_impl; [by apply Forall_and, conj, (proj2 (Forall_forall (.∈ l) l))|].
    simpl. intros y [Hy Hin]. unfold cmp_le in Hy.
    destruct (cmp x y) eqn:Hxy; [|done|done]. by apply (cmp_eq cmp) in Hxy as ->.
Qed.

(** ** Counting *)

Lemma sum_list_with_insert {A} (f : A → nat) l i x y :
  l !! i = Some x → sum_list_with f (<[i := y]> l) + f x = sum_list_with f l + f y.
Proof.
  revert i. induction l as [|z l IH]; intros [|i] Hi; cbn in *; [done..|simplify_eq; lia|].
  rewrite <- !Nat.add_assoc. f_equal. exact (IH i Hi).
Qed.

Lemma sum_list_with_ge {A} (f : A → nat) l i x : l !! i = Some x → f x ≤ sum_list_with f l.
Proof. revert i. induction l as [|z l IH]; intros [|i] Hi; cbn in *; simplify_eq; [lia|]. specialize (IH i Hi). lia. Qed.
