(* ===== verification/Errors.v ===== *)
(** * Errors (internal/app/errors and the sentinels of the engines)

    An error is the list of the sentinels it wraps, which is what [errors.Is] looks
    at; its text is left out.  [fmt.Errorf] with two [%w] joins two lists, and with
    none is the empty one. *)

From S2P Require Import Prelude.

Inductive sentinel :=
(* internal/app/errors *)
| ErrNotFound | ErrAlreadyExists | ErrStateViolation | ErrMethodNotFound | ErrFetchFailed
| ErrInvalidNamespace | ErrDependentsExist | ErrInvalidManifest | ErrPlatformNotSupported
| ErrMissingVariable | ErrReservedVariable | ErrInvalidConfig
(* deptree, and the ends of a context *)
| ErrCyclicDependency | ErrContextEnded
(* the store of aggregates (asynx) *)
| ErrAxNotFound | ErrAxValidation | ErrAxPipelineFailed
(* the manifold: its resolver, its ruleset, itself and its versioning *)
| ErrResolverNotFound | ErrResolverFetchFailed | ErrRulesetInvalidManifest
| ErrNoSupportedPlatform | ErrManifoldInvalidManifest | ErrArrowNotInCollection
| ErrUnknownSelector | ErrNotAdmitted
(* the vault *)
| ErrStale | ErrNotCached | ErrConfirmedAbsent | ErrWorkDirCollision | ErrOSNotExist
(* the netbridge *)
| ErrNoPortAvailable | ErrPortOutOfRange | ErrBuildFailed | ErrNoIGD
(* the unpacking of archives *)
| ErrEscape | ErrTooLarge | ErrTooMany | ErrReservedName | ErrNameCollision
| ErrUnknownFormat
(* pairing *)
| ErrInvalidPairingCode | ErrUnauthorized.

#[export] Instance sentinel_eq_dec : EqDecision sentinel.
Proof. solve_decision. Defined.

Definition error : Type := list sentinel.

Definition errors_Is (e : error) (s : sentinel) : bool := bool_decide (s ∈ e).

Lemma errors_Is_true e s : errors_Is e s = true ↔ s ∈ e.
Proof. apply bool_decide_eq_true. Qed.

Lemma errors_Is_false e s : errors_Is e s = false ↔ s ∉ e.
Proof. apply bool_decide_eq_false. Qed.

Lemma errors_Is_cons s e : errors_Is (s :: e) s = true.
Proof. apply errors_Is_true, list_elem_of_here. Qed.
