(* ===== verification/GoStrings.v ===== *)
(** * The parts of Go's [strings] and [strconv] packages the program uses

    A Go [string] is a sequence of bytes, modelled by [String.string].
    Case folding ([ToLower], [EqualFold]) is that of ASCII letters: ref names,
    namespaces and channel words are ASCII in practice, and a letter outside
    ASCII is left as it is. *)

From S2P Require Import Prelude.
From Stdlib Require Export Ascii.
From Stdlib Require String.
Export String.StringSyntax.
#[global] Open Scope string_scope.
#[global] Open Scope nat_scope.
#[global] Open Scope list_scope.
#[global] Arguments String.append : simpl nomatch.

Definition is_empty (s : string) : bool := match s with "" => true | _ => false end.

(** ** Bytes *)

Definition byte_in (lo hi c : ascii) : bool :=
  (N_of_ascii lo <=? N_of_ascii c)%N && (N_of_ascii c <=? N_of_ascii hi)%N.

Definition is_digit (c : ascii) : bool := byte_in "0" "9" c.
Definition is_alpha (c : ascii) : bool := byte_in "A" "Z" c || byte_in "a" "z" c.

Definition lower_byte (c : ascii) : ascii :=
  if byte_in "A" "Z" c then ascii_of_N (N_of_ascii c + 32) else c.

Definition upper_byte (c : ascii) : ascii :=
  if byte_in "a" "z" c then ascii_of_N (N_of_ascii c - 32) else c.

Fixpoint map_bytes (f : ascii → ascii) (s : string) : string :=
  match s with
  | "" => ""
  | String c s' => String (f c) (map_bytes f s')
  end.

(** [strings.ToLower], [strings.ToUpper], [strings.EqualFold] *)
Definition to_lower : string → string := map_bytes lower_byte.
Definition to_upper : string → string := map_bytes upper_byte.
Definition equal_fold (s t : string) : bool := String.eqb (to_lower s) (to_lower t).

(** ** Searching *)

(** [strings.IndexByte(s, c)] with the two sides of the cut: [s[:i]] and
    [s[i+1:]]. *)
Fixpoint cut_byte (c : ascii) (s : string) : option (string * string) :=
  match s with
  | "" => None
  | String d s' =>
    if Ascii.eqb d c then Some ("", s')
    else match cut_byte c s' with
         | Some (l, r) => Some (String d l, r)
         | None => None
         end
  end.

(** [strings.ContainsAny(s, set)] *)
Fixpoint exists_byte (f : ascii → bool) (s : string) : bool :=
  match s with
  | "" => false
  | String c s' => f c || exists_byte f s'
  end.

Definition contains_byte (c : ascii) : string → bool := exists_byte (Ascii.eqb c).

(** [strings.Contains(s, sub)] *)
Fixpoint contains (s sub : string) : bool :=
  String.prefix sub s ||
  match s with
  | "" => false
  | String _ s' => contains s' sub
  end.

(** [strings.CutPrefix(s, p)]; [strings.HasPrefix] is [String.prefix]. *)
Fixpoint cut_prefix (p s : string) : option string :=
  match p, s with
  | "", _ => Some s
  | String a p', String b s' => if Ascii.eqb a b then cut_prefix p' s' else None
  | String _ _, "" => None
  end.

Definition trim_prefix (s p : string) : string := default s (cut_prefix p s).

(** [strings.Index(s, sep)] with the text on both sides of the first [sep], as
    [strings.Cut] returns it; [None] when there is none *)
Fixpoint cut_string (sep s : string) : option (string * string) :=
  match cut_prefix sep s with
  | Some after => Some ("", after)
  | None =>
    match s with
    | "" => None
    | String c s' =>
      match cut_string sep s' with
      | Some (before, after) => Some (String c before, after)
      | None => None
      end
    end
  end.

(** [strings.CutSuffix(s, p)] and [strings.HasSuffix(s, p)] *)
Fixpoint cut_suffix (s p : string) : option string :=
  if String.eqb s p then Some ""
  else match s with
       | "" => None
       | String c s' =>
         match cut_suffix s' p with
         | Some l => Some (String c l)
         | None => None
         end
       end.

Definition has_suffix (s p : string) : bool := bool_decide (is_Some (cut_suffix s p)).

Definition trim_suffix (s p : string) : string := default s (cut_suffix s p).

(** [strings.Count(s, c)] for a one-byte [c] *)
Fixpoint count_byte (c : ascii) (s : string) : nat :=
  match s with
  | "" => 0
  | String d s' => (if Ascii.eqb d c then 1 else 0) + count_byte c s'
  end.

(** ** Trimming *)

(** [strings.TrimLeft(s, set)] and [strings.TrimRight(s, set)] *)
Fixpoint trim_left (f : ascii → bool) (s : string) : string :=
  match s with
  | "" => ""
  | String c s' => if f c then trim_left f s' else s
  end.

Fixpoint trim_right (f : ascii → bool) (s : string) : string :=
  match s with
  | "" => ""
  | String c s' =>
    match trim_right f s' with
    | "" => if f c then "" else String c ""
    | t => String c t
    end
  end.

(** [strings.TrimSpace], of the ASCII spaces *)
Definition is_space (c : ascii) : bool :=
  byte_in "009" "013" c || Ascii.eqb c " ".

Definition trim_space (s : string) : string := trim_right is_space (trim_left is_space s).

(** ** Splitting *)

(** [strings.Split(s, sep)] for a one-byte [sep] *)
Fixpoint split_byte (sep : ascii) (s : string) : list string :=
  match s with
  | "" => [""]
  | String c s' =>
    if Ascii.eqb c sep then "" :: split_byte sep s'
    else match split_byte sep s' with
         | p :: ps => String c p :: ps
         | [] => [String c ""]
         end
  end.

(** [strings.Join(parts, sep)] *)
Definition join (sep : string) (parts : list string) : string := String.concat sep parts.

(** ** [strconv.Atoi]

    The value Go returns along with the error is part of the model: callers
    that drop the error ([n, _ := strconv.Atoi(s)]) use it.  It is 0 for a
    syntax error and the nearest [int] for a number out of range. *)

Inductive num_error := ErrSyntax | ErrRange.

#[export] Instance num_error_eq_dec : EqDecision num_error.
Proof. solve_decision. Defined.

Definition digit_val (c : ascii) : Z := Z.of_N (N_of_ascii c) - 48.

Definition max_uint64 : Z := 2 ^ 64 - 1.
Definition max_int64 : Z := 2 ^ 63 - 1.
Definition min_int64 : Z := - 2 ^ 63.

Fixpoint parse_uint_loop (s : string) (n : Z) : result num_error Z :=
  match s with
  | "" => Ok n
  | String c s' =>
    if is_digit c then
      let n' := (n * 10 + digit_val c)%Z in
      if Z.ltb max_uint64 n' then Err ErrRange else parse_uint_loop s' n'
    else Err ErrSyntax
  end.

Definition parse_uint (s : string) : result num_error Z :=
  match s with "" => Err ErrSyntax | _ => parse_uint_loop s 0 end.

Definition atoi (s : string) : Z * option num_error :=
  let '(neg, digits) :=
    match s with
    | String "-" s' => (true, s')
    | String "+" s' => (false, s')
    | _ => (false, s)
    end in
  match parse_uint digits with
  | Err ErrSyntax => (0%Z, Some ErrSyntax)
  | Err ErrRange => (if neg : bool then min_int64 else max_int64, Some ErrRange)
  | Ok un =>
    if neg then
      if Z.ltb (- min_int64) un then (min_int64, Some ErrRange) else ((- un)%Z, None)
    else
      if Z.ltb max_int64 un then (max_int64, Some ErrRange) else (un, None)
  end.

(** [strconv.Itoa] of a natural number *)
Definition itoa (n : Z) : string := pretty n.

(** [s[:n]], for [n] at most the length *)
Fixpoint take_bytes (n : nat) (s : string) : string :=
  match n, s with
  | S n, String c s' => String c (take_bytes n s')
  | _, _ => ""
  end.

(** ** Lemmas *)

Lemma take_bytes_length n s : String.length (take_bytes n s) = Nat.min n (String.length s).
Proof. revert s. induction n as [|n IH]; intros [|c s]; simpl; [done..|]. by rewrite IH. Qed.

Lemma cut_byte_some c s l r :
  cut_byte c s = Some (l, r) ↔ s = (l +:+ String c r) ∧ contains_byte c l = false.
Proof.
  unfold contains_byte. revert l r. induction s as [|d s IH]; intros l r; simpl.
  - split; [done|]. by intros [H _]; destruct l.
  - destruct (Ascii.eqb_spec d c) as [->|Hd].
    + split; [by intros [= <- <-]|].
      destruct l as [|e l]; simpl; [by intros [[= ->] _]|].
      intros [[= -> ->] H]. by rewrite Ascii.eqb_refl in H.
    + assert (Ascii.eqb c d = false) as Hcd by (apply Ascii.eqb_neq; congruence).
      destruct (cut_byte c s) as [[l' r']|]; split.
      * intros [= <- <-]. destruct (IH l' r') as [[-> Hl'] _]; [done|]. simpl.
        split; [done|]. simpl. by rewrite Hcd.
      * intros [Hs Hl]. destruct l as [|e l]; simpl in Hs; [by injection Hs|].
        injection Hs as -> ->. simpl in Hl.
        rewrite Hcd in Hl. destruct (IH l r) as [_ H].
        specialize (H (conj eq_refl Hl)). naive_solver.
      * done.
      * intros [Hs Hl]. destruct l as [|e l]; simpl in Hs; [by injection Hs|].
        injection Hs as -> ->. simpl in Hl.
        rewrite Hcd in Hl. destruct (IH l r) as [_ H].
        specialize (H (conj eq_refl Hl)). naive_solver.
Qed.

Lemma cut_byte_none c s : cut_byte c s = None ↔ contains_byte c s = false.
Proof.
  unfold contains_byte. induction s as [|d s IH]; simpl; [done|].
  rewrite (Ascii.eqb_sym d c). destruct (Ascii.eqb c d); simpl; [done|].
  destruct (cut_byte c s) as [[]|]; naive_solver.
Qed.

Lemma cut_prefix_some p s r : cut_prefix p s = Some r ↔ s = p +:+ r.
Proof.
  revert s. induction p as [|a p IH]; intros [|b s]; simpl; try (split; congruence).
  destruct (Ascii.eqb_spec a b) as [->|H]; [rewrite IH|]; split; congruence.
Qed.

Lemma cut_string_some sep s before after :
  cut_string sep s = Some (before, after) → s = before +:+ sep +:+ after.
Proof.
  revert before after. induction s as [|c s IH]; intros before after; simpl.
  - destruct (cut_prefix sep "") as [r|] eqn:Hp; [|done]. intros [= <- <-].
    by apply cut_prefix_some in Hp.
  - destruct (cut_prefix sep (String c s)) as [r|] eqn:Hp.
    + intros [= <- <-]. by apply cut_prefix_some in Hp.
    + destruct (cut_string sep s) as [[b a]|]; [|done]. intros [= <- <-]. simpl. f_equal.
      by apply IH.
Qed.

Lemma string_length_app a b : String.length (a +:+ b) = String.length a + String.length b.
Proof. induction a as [|c a IH]; simpl; [done|]. by rewrite IH. Qed.

Lemma cut_prefix_app p r : cut_prefix p (p +:+ r) = Some r.
Proof. by apply cut_prefix_some. Qed.

Lemma split_byte_not_nil sep s : split_byte sep s ≠ [].
Proof. destruct s as [|c s]; simpl; [done|]. repeat case_match; done. Qed.

Lemma join_cons sep p q ps : join sep (p :: q :: ps) = p +:+ sep +:+ join sep (q :: ps).
Proof. done. Qed.

(** Splitting and joining again gives the string back. *)
Lemma join_split sep s : join (String sep "") (split_byte sep s) = s.
Proof.
  induction s as [|c s IH]; simpl; [done|].
  destruct (Ascii.eqb_spec c sep) as [->|Hc].
  - pose proof (split_byte_not_nil sep s) as Hn.
    destruct (split_byte sep s) as [|p ps]; [done|]. rewrite join_cons, IH. done.
  - pose proof (split_byte_not_nil sep s) as Hn.
    destruct (split_byte sep s) as [|p ps]; [done|].
    destruct ps as [|q ps].
    + simpl in *. by rewrite IH.
    + rewrite join_cons in IH |- *. simpl. by rewrite <-IH.
Qed.

(** No piece of a split contains the separator. *)
Lemma split_byte_no_sep sep s : Forall (λ p, contains_byte sep p = false) (split_byte sep s).
Proof.
  induction s as [|c s IH]; simpl; [by repeat constructor|].
  destruct (Ascii.eqb_spec c sep) as [->|Hc]; [by constructor|].
  destruct (split_byte sep s) as [|p ps].
  - repeat constructor. unfold contains_byte. simpl. rewrite orb_false_r.
    apply Ascii.eqb_neq. congruence.
  - inversion IH as [|?? Hp Hps]; subst. constructor; [|done].
    unfold contains_byte in *. simpl. rewrite Hp, orb_false_r.
    apply Ascii.eqb_neq. congruence.
Qed.

Lemma exists_byte_app f s t : exists_byte f (s +:+ t) = exists_byte f s || exists_byte f t.
Proof. induction s as [|c s IH]; simpl; [done|]. by rewrite IH, orb_assoc. Qed.

Lemma split_byte_app sep p s :
  contains_byte sep p = false →
  split_byte sep (p +:+ String sep s) = p :: split_byte sep s.
Proof.
  unfold contains_byte. induction p as [|c p IH]; simpl.
  - by rewrite Ascii.eqb_refl.
  - intros H. apply orb_false_iff in H as [Hc Hp]. rewrite Ascii.eqb_sym, Hc.
    by rewrite IH.
Qed.

Lemma split_byte_single sep p : contains_byte sep p = false → split_byte sep p = [p].
Proof.
  unfold contains_byte. induction p as [|c p IH]; simpl; [done|].
  intros H. apply orb_false_iff in H as [Hc Hp]. rewrite Ascii.eqb_sym, Hc. by rewrite IH.
Qed.

Lemma split_join sep ps :
  ps ≠ [] → Forall (λ p, contains_byte sep p = false) ps →
  split_byte sep (join (String sep "") ps) = ps.
Proof.
  intros Hn Hps. induction Hps as [|p ps Hp Hps IH]; [done|].
  destruct ps as [|q ps]; [by apply split_byte_single|].
  rewrite join_cons. change (String sep "" +:+ ?x) with (String sep x).
  rewrite split_byte_app by done. by rewrite IH.
Qed.

Lemma string_app_nil_r s : s +:+ "" = s.
Proof. induction s as [|c s IH]; simpl; [done|]. by rewrite IH. Qed.

Lemma string_app_assoc s t u : (s +:+ t) +:+ u = s +:+ (t +:+ u).
Proof. induction s as [|c s IH]; simpl; [done|]. by rewrite IH. Qed.

Lemma equal_fold_refl s : equal_fold s s = true.
Proof. apply String.eqb_refl. Qed.

Lemma prefix_refl s : String.prefix s s = true.
Proof. induction s as [|c s IH]; simpl; [done|]. by destruct (ascii_dec c c). Qed.

Lemma is_digit_val c : is_digit c = true → (0 <= digit_val c <= 9)%Z.
Proof.
  unfold is_digit, byte_in, digit_val. rewrite andb_true_iff, !N.leb_le.
  change (N_of_ascii "0") with 48%N. change (N_of_ascii "9") with 57%N. lia.
Qed.

Lemma parse_uint_loop_bounds s n m :
  (0 <= n)%Z → parse_uint_loop s n = Ok m → (0 <= m)%Z.
Proof.
  revert n. induction s as [|c s IH]; intros n Hn; simpl; [naive_solver|].
  destruct (is_digit c) eqn:Hc; [|done]. apply is_digit_val in Hc.
  case_match; [done|]. intros Hm. eapply (IH _ _ Hm). Unshelve. lia.
Qed.

(** [Atoi] never leaves the range of a 64-bit [int], error or not. *)
Lemma atoi_bounds s : (min_int64 <= fst (atoi s) <= max_int64)%Z.
Proof.
  unfold atoi. destruct (match s with String "-" _ => _ | _ => _ end) as [neg ds].
  unfold min_int64, max_int64.
  destruct (parse_uint ds) as [un|[]] eqn:Hu; simpl; [|lia|destruct neg; simpl; lia].
  assert (0 <= un)%Z.
  { unfold parse_uint in Hu. destruct ds; [done|]. by eapply parse_uint_loop_bounds; [|exact Hu]. }
  destruct neg; case_match eqn:Hle; simpl; try lia.
  all: apply Z.ltb_ge in Hle; lia.
Qed.

Create Rewrite HintDb gostrings.
#[export] Hint Rewrite string_app_nil_r string_app_assoc cut_prefix_app
  String.eqb_refl equal_fold_refl prefix_refl : gostrings.
