(* ===== verification/GoPath.v ===== *)
(** * [path.Match] of Go's standard library

    The program matches target keys ([linux/*]) and version constraints
    ([v1.*]) with [path.Match].  The functions below follow the library's
    own: a pattern is read as chunks separated by [*]; [matchChunk] matches one
    chunk at the front of a name; a star tries every position up to a [/].
    The loops over a pattern run on fuel equal to its length, which
    [path_match_total] shows is enough.  A byte stands for a rune, as it does
    in ASCII. *)

From S2P Require Import Prelude GoStrings.

(** [path.ErrBadPattern] *)
Inductive bad_pattern := ErrBadPattern.

#[export] Instance bad_pattern_eq_dec : EqDecision bad_pattern.
Proof. solve_decision. Defined.

(** The pieces of a pattern: whether it starts with a star, the chunk up to
    the next star outside a class, and the rest. *)
Fixpoint scan_chunk_body (inrange : bool) (p : string) : string * string :=
  match p with
  | "" => ("", "")
  | String "\" (String c p') =>
    let '(chunk, rest) := scan_chunk_body inrange p' in (String "\" (String c chunk), rest)
  | String c p' =>
    if Ascii.eqb c "*" && negb inrange then ("", p)
    else
      let inrange' :=
        if Ascii.eqb c "[" then true else if Ascii.eqb c "]" then false else inrange in
      let '(chunk, rest) := scan_chunk_body inrange' p' in (String c chunk, rest)
  end.

Definition scan_chunk (p : string) : bool * string * string :=
  let p' := trim_left (Ascii.eqb "*") p in
  let star := negb (String.eqb p p') in
  let '(chunk, rest) := scan_chunk_body false p' in (star, chunk, rest).

(** [getEsc]: one possibly escaped byte of a character class. *)
Definition get_esc (chunk : string) : result bad_pattern (ascii * string) :=
  let after c rest :=
    match rest with "" => Err ErrBadPattern | _ => Ok (c, rest) end in
  match chunk with
  | "" => Err ErrBadPattern
  | String "-" _ | String "]" _ => Err ErrBadPattern
  | String "\" "" => Err ErrBadPattern
  | String "\" (String c rest) => after c rest
  | String c rest => after c rest
  end.

(** The ranges of a character class, up to its closing bracket: whether one of
    them holds [r], and the chunk after the bracket. *)
Fixpoint match_ranges (fuel : nat) (r : ascii) (first : bool) (matched : bool) (chunk : string)
  : option (result bad_pattern (bool * string)) :=
  match fuel with
  | 0 => None
  | S fuel' =>
    match chunk, first with
    | String "]" chunk', false => Some (Ok (matched, chunk'))
    | _, _ =>
      match get_esc chunk with
      | Err e => Some (Err e)
      | Ok (lo, chunk1) =>
        let range :=
          match chunk1 with
          | String "-" chunk2 => get_esc chunk2
          | _ => Ok (lo, chunk1)
          end in
        match range with
        | Err e => Some (Err e)
        | Ok (hi, chunk2) =>
          match_ranges fuel' r false (matched || byte_in lo hi r) chunk2
        end
      end
    end
  end.

(** The byte a class or [?] reads; nothing is read once the match failed, and
    the zero rune then stands for it. *)
Definition head_byte (failed : bool) (s : string) : ascii * string :=
  match s with
  | String c s' => if failed then ("000"%char, s) else (c, s')
  | "" => ("000"%char, "")
  end.

(** [matchChunk]: [None] when the fuel ran out. *)
Fixpoint match_chunk_loop (fuel : nat) (failed : bool) (chunk s : string)
  : option (result bad_pattern (option string)) :=
  match fuel with
  | 0 => None
  | S fuel' =>
    match chunk with
    | "" => Some (Ok (if failed then None else Some s))
    | String "[" chunk1 =>
      let failed1 := failed || String.eqb s "" in
      let '(r, s1) := head_byte failed1 s in
      let '(negated, chunk2) :=
        match chunk1 with
        | String "^" chunk2 => (true, chunk2)
        | _ => (false, chunk1)
        end in
      match match_ranges fuel' r true false chunk2 with
      | None => None
      | Some (Err e) => Some (Err e)
      | Some (Ok (matched, chunk3)) =>
        match_chunk_loop fuel' (failed1 || Bool.eqb matched negated) chunk3 s1
      end
    | String "?" chunk1 =>
      let failed1 := failed || String.eqb s "" in
      let '(r, s1) := head_byte failed1 s in
      match_chunk_loop fuel' (failed1 || Ascii.eqb r "/") chunk1 s1
    | String "\" "" => Some (Err ErrBadPattern)
    | String "\" (String c chunk1) | String c chunk1 =>
      let failed1 := failed || String.eqb s "" in
      let '(r, s1) := head_byte failed1 s in
      match_chunk_loop fuel' (failed1 || negb (Ascii.eqb c r)) chunk1 s1
    end
  end.

Definition match_chunk (chunk s : string) : option (result bad_pattern (option string)) :=
  match_chunk_loop (S (String.length chunk)) false chunk s.

(** The loop that skips name bytes after a star, up to a slash: the first
    position where the chunk matches, and the whole name when it is the last. *)
Fixpoint match_star (last : bool) (chunk name : string)
  : option (result bad_pattern (option string)) :=
  match name with
  | "" => Some (Ok None)
  | String c name' =>
    if Ascii.eqb c "/" then Some (Ok None)
    else
      match match_chunk chunk name' with
      | None => None
      | Some (Err e) => Some (Err e)
      | Some (Ok (Some t)) =>
        if last && negb (String.eqb t "") then match_star last chunk name'
        else Some (Ok (Some t))
      | Some (Ok None) => match_star last chunk name'
      end
  end.

(** Before a match fails, the remainder of the pattern is checked. *)
Fixpoint check_rest (fuel : nat) (p : string) : option (result bad_pattern bool) :=
  match fuel with
  | 0 => None
  | S fuel' =>
    match p with
    | "" => Some (Ok false)
    | _ =>
      let '(_, chunk, rest) := scan_chunk p in
      match match_chunk chunk "" with
      | None => None
      | Some (Err e) => Some (Err e)
      | Some (Ok _) => check_rest fuel' rest
      end
    end
  end.

Fixpoint match_loop (fuel : nat) (p name : string) : option (result bad_pattern bool) :=
  match fuel with
  | 0 => None
  | S fuel' =>
    match p with
    | "" => Some (Ok (String.eqb name ""))
    | _ =>
      let '(star, chunk, rest) := scan_chunk p in
      if star && String.eqb chunk "" then Some (Ok (negb (contains_byte "/" name)))
      else
        match match_chunk chunk name with
        | None => None
        | Some first =>
          match first with
          | Ok (Some t) =>
            if String.eqb t "" || negb (String.eqb rest "") then match_loop fuel' rest t
            else if star then
              match match_star (String.eqb rest "") chunk name with
              | None => None
              | Some (Err e) => Some (Err e)
              | Some (Ok (Some t')) => match_loop fuel' rest t'
              | Some (Ok None) => check_rest fuel' rest
              end
            else check_rest fuel' rest
          | Err e => Some (Err e)
          | Ok None =>
            if star then
              match match_star (String.eqb rest "") chunk name with
              | None => None
              | Some (Err e) => Some (Err e)
              | Some (Ok (Some t')) => match_loop fuel' rest t'
              | Some (Ok None) => check_rest fuel' rest
              end
            else check_rest fuel' rest
          end
        end
    end
  end.

Definition path_match (p name : string) : result bad_pattern bool :=
  default (Err ErrBadPattern) (match_loop (S (String.length p)) p name).

(** [matched, err := path.Match(p, name); err == nil && matched] *)
Definition path_matches (p name : string) : bool :=
  match path_match p name with Ok b => b | Err _ => false end.

Example path_match_ex1 : path_match "linux/*" "linux/amd64" = Ok true.
Proof. reflexivity. Qed.
Example path_match_ex2 : path_match "*" "linux/amd64" = Ok false.
Proof. reflexivity. Qed.
Example path_match_ex3 : path_match "*/amd6[0-9]" "linux/amd64" = Ok true.
Proof. reflexivity. Qed.
Example path_match_ex4 : path_match "v1.*" "v1.9.0" = Ok true.
Proof. reflexivity. Qed.
Example path_match_ex5 : path_match "v[" "v" = Err ErrBadPattern.
Proof. reflexivity. Qed.
Example path_match_ex6 : path_match "a*b?\*" "axxbc*" = Ok true.
Proof. reflexivity. Qed.

(** ** The fuel is enough *)

Lemma get_esc_length chunk c rest :
  get_esc chunk = Ok (c, rest) → String.length rest < String.length chunk.
Proof.
  unfold get_esc. intros H.
  repeat case_hyp H; simplify_eq/=; lia.
Qed.

Lemma match_ranges_total fuel r first m chunk :
  String.length chunk < fuel →
  ∃ res, match_ranges fuel r first m chunk = Some res ∧
    ∀ m' rest, res = Ok (m', rest) → String.length rest ≤ String.length chunk.
Proof.
  revert first m chunk. induction fuel as [|fuel IH]; intros first m chunk Hl; [lia|].
  assert (∀ chunk1, String.length chunk1 < String.length chunk → ∀ m1,
    ∃ res, match_ranges fuel r false m1 chunk1 = Some res ∧
      ∀ m' rest, res = Ok (m', rest) → String.length rest ≤ String.length chunk) as Hrec.
  { intros chunk1 H1 m1. destruct (IH false m1 chunk1) as (res & -> & Hres); [lia|].
    exists res. split; [done|]. intros m' rest ->. specialize (Hres _ _ eq_refl). lia. }
  assert (∃ res, match get_esc chunk with
      | Err e => Some (Err e)
      | Ok (lo, chunk1) =>
        match (match chunk1 with
          | String "-" chunk2 => get_esc chunk2
          | _ => Ok (lo, chunk1)
          end) with
        | Err e => Some (Err e)
        | Ok (hi, chunk2) => match_ranges fuel r false (m || byte_in lo hi r) chunk2
        end
      end = Some res ∧
      ∀ m' rest, res = Ok (m', rest) → String.length rest ≤ String.length chunk) as Hgen.
  { destruct (get_esc chunk) as [[lo chunk1]|e] eqn:He; [|eexists; split; [done|naive_solver]].
    apply get_esc_length in He.
    match goal with |- context [match ?x with Ok _ => _ | Err _ => _ end] =>
      destruct x as [[hi chunk2]|e'] eqn:Hr end; [|eexists; split; [done|naive_solver]].
    apply Hrec. enough (String.length chunk2 ≤ String.length chunk1) by lia.
    repeat case_hyp Hr; try done; apply get_esc_length in Hr; lia. }
  simpl. destruct chunk as [|c chunk'].
  - destruct first; exact Hgen.
  - destruct (decide (c = "]"%char)) as [->|Hc].
    + destruct first; [exact Hgen|]. eexists; split; [done|].
      intros m' rest [= <- <-]. simpl. lia.
    + destruct first; revert Hgen; generalize (get_esc (String c chunk'));
        intros g Hg; destruct c as [[] [] [] [] [] [] [] []]; try exact Hg; done.
Qed.

Lemma head_byte_any failed s : ∃ r s', head_byte failed s = (r, s').
Proof. destruct (head_byte failed s); eauto. Qed.

Lemma match_chunk_loop_total fuel failed chunk s :
  String.length chunk < fuel → match_chunk_loop fuel failed chunk s ≠ None.
Proof.
  revert failed chunk s. induction fuel as [|fuel IH]; intros failed chunk s Hl; [lia|].
  assert (∀ f c t, String.length c < String.length chunk → match_chunk_loop fuel f c t ≠ None)
    as Hrec by (intros; apply IH; lia).
  simpl. destruct chunk as [|c chunk]; [done|]. simpl in *.
  destruct (head_byte (failed || String.eqb s "") s) as [r s1].
  repeat case_match; simplify_eq/=; try done; try (apply Hrec; simpl; lia).
  all: match goal with
    | H : match_ranges ?f ?r ?b ?m ?c = _ |- _ =>
      destruct (match_ranges_total f r b m c) as (res & Hres & Hlen);
        [simpl in *; lia|rewrite H in Hres; simplify_eq]
    end.
  all: apply Hrec; specialize (Hlen _ _ eq_refl); simpl in *; lia.
Qed.

Lemma match_chunk_total chunk s : match_chunk chunk s ≠ None.
Proof. apply match_chunk_loop_total. lia. Qed.

Lemma match_star_total last chunk name : match_star last chunk name ≠ None.
Proof.
  induction name as [|c name IH]; simpl; [done|].
  pose proof (match_chunk_total chunk name). repeat case_match; done.
Qed.

Lemma trim_left_length f s : String.length (trim_left f s) ≤ String.length s.
Proof. induction s as [|c s IH]; simpl; [done|]. case_match; simpl; lia. Qed.

Lemma scan_chunk_body_length b p chunk rest :
  scan_chunk_body b p = (chunk, rest) →
  String.length chunk + String.length rest = String.length p.
Proof.
  enough (∀ n b p chunk rest, String.length p ≤ n → scan_chunk_body b p = (chunk, rest) →
    String.length chunk + String.length rest = String.length p) as H by eauto.
  clear. intros n. induction n as [|n IH]; intros b p chunk rest Hn H.
  { destruct p; simpl in *; [by simplify_eq|lia]. }
  destruct p as [|c p]; simpl in *; [by simplify_eq|].
  repeat case_match; simplify_eq/=; try done.
  all: match goal with
    | H : scan_chunk_body _ _ = (_, _) |- _ => apply IH in H; simpl in *; lia
    end.
Qed.

Lemma scan_chunk_rest_length p star chunk rest :
  p ≠ "" → scan_chunk p = (star, chunk, rest) → String.length rest < String.length p.
Proof.
  unfold scan_chunk. intros Hp H.
  destruct (scan_chunk_body false (trim_left (Ascii.eqb "*") p)) as [ch r] eqn:Hs.
  simplify_eq. pose proof (scan_chunk_body_length _ _ _ _ Hs) as Hl.
  pose proof (trim_left_length (Ascii.eqb "*") p) as Ht.
  destruct p as [|c p]; [done|]. clear Hp. simpl trim_left in *.
  destruct (Ascii.eqb_spec "*" c) as [<-|Hc].
  - pose proof (trim_left_length (Ascii.eqb "*") p). simpl in *. lia.
  - assert (chunk ≠ "") as Hch.
    { intros ->. destruct c as [[] [] [] [] [] [] [] []]; try done;
        simpl in Hs; repeat case_match; simplify_eq. }
    destruct chunk; [done|]. simpl in *. lia.
Qed.

Lemma check_rest_total fuel p : String.length p < fuel → check_rest fuel p ≠ None.
Proof.
  revert p. induction fuel as [|fuel IH]; intros p Hl; [lia|]. simpl.
  destruct p as [|c p'] eqn:Hp; [done|]. rewrite <-Hp in *.
  destruct (scan_chunk p) as [[star chunk] rest] eqn:Hs.
  pose proof (match_chunk_total chunk "").
  repeat case_match; try done. apply IH.
  apply scan_chunk_rest_length in Hs; [lia|by rewrite Hp].
Qed.

Lemma match_loop_total fuel p name : String.length p < fuel → match_loop fuel p name ≠ None.
Proof.
  revert p name. induction fuel as [|fuel IH]; intros p name Hl; [lia|]. simpl.
  destruct p as [|c p'] eqn:Hp; [done|]. rewrite <-Hp in *.
  destruct (scan_chunk p) as [[star chunk] rest] eqn:Hs.
  apply scan_chunk_rest_length in Hs; [|by rewrite Hp].
  pose proof (match_chunk_total chunk name).
  pose proof (match_star_total (String.eqb rest "") chunk name).
  repeat case_match; try done; first [apply IH; lia|apply check_rest_total; lia].
Qed.

(** [path.Match] always answers: the default of [path_match] is never taken. *)
Lemma path_match_total p name :
  ∃ res, match_loop (S (String.length p)) p name = Some res ∧ path_match p name = res.
Proof.
  unfold path_match. pose proof (match_loop_total (S (String.length p)) p name) as H.
  destruct (match_loop _ p name) as [res|]; [|exfalso; apply H; [lia|done]].
  by exists res.
Qed.
