(* ===== verification/GoFilepath.v ===== *)
(** * Paths, as path/filepath handles them on Unix

    [Clean], [Join] and [IsLocal] work on the text alone.  The library edits a
    buffer in place; here the path is cut at its slashes and its components go
    through the same cases: an empty component and a dot are dropped, a double dot
    takes the one before it away unless there is none left to take. *)

From S2P Require Import Prelude GoStrings.

Definition Separator : ascii := "/".

Definition IsAbs (path : string) : bool := String.prefix "/" path.

(** One component on the components kept so far, the last first *)
Definition clean_step (rooted : bool) (kept : list string) (part : string) : list string :=
  if String.eqb part "" || String.eqb part "." then kept
  else if String.eqb part ".." then
    match kept with
    | last :: kept' => if String.eqb last ".." then part :: kept else kept'
    | [] => if rooted then [] else [part]
    end
  else part :: kept.

Definition clean_parts (rooted : bool) (path : string) : list string :=
  rev (foldl (clean_step rooted) [] (split_byte Separator path)).

(** [filepath.Clean] *)
Definition Clean (path : string) : string :=
  let rooted := IsAbs path in
  let s := join "/" (clean_parts rooted path) in
  if rooted then "/" +:+ s else if String.eqb s "" then "." else s.

(** [filepath.Join]: the empty elements before the first that is not are dropped. *)
Fixpoint Join (elem : list string) : string :=
  match elem with
  | [] => ""
  | e :: elem' => if String.eqb e "" then Join elem' else Clean (join "/" elem)
  end.

Definition has_dots (path : string) : bool :=
  existsb (λ part, String.eqb part "." || String.eqb part "..") (split_byte Separator path).

(** [filepath.IsLocal] *)
Definition IsLocal (path : string) : bool :=
  if IsAbs path || String.eqb path "" then false
  else
    let path := if has_dots path then Clean path else path in
    negb (String.eqb path ".." || String.prefix "../" path).

Example clean_ex1 : Clean "a//b/./c/../d/" = "a/b/d". Proof. reflexivity. Qed.
Example clean_ex2 : Clean "/../a" = "/a". Proof. reflexivity. Qed.
Example clean_ex3 : Clean "a/../../b" = "../b". Proof. reflexivity. Qed.
Example clean_ex4 : Clean "" = "." ∧ Clean "a/.." = "." ∧ Clean "/" = "/". Proof. done. Qed.
Example join_ex : Join [""; "/data/x"; "./bin/app"] = "/data/x/bin/app". Proof. reflexivity. Qed.
Example local_ex : IsLocal "a/../b" = true ∧ IsLocal "a/../../b" = false ∧ IsLocal "" = false.
Proof. done. Qed.

(** ** Clean paths *)

(** A component [Clean] keeps *)
Definition normal (part : string) : Prop :=
  part ≠ "" ∧ part ≠ "." ∧ part ≠ ".." ∧ contains_byte Separator part = false.

Lemma clean_step_normal rooted kept part :
  normal part → clean_step rooted kept part = part :: kept.
Proof.
  intros (H1 & H2 & H3 & _). unfold clean_step.
  by rewrite (proj2 (String.eqb_neq _ _) H1), (proj2 (String.eqb_neq _ _) H2),
    (proj2 (String.eqb_neq _ _) H3).
Qed.

Lemma clean_fold_normal rooted kept parts :
  Forall normal parts → foldl (clean_step rooted) kept parts = rev parts ++ kept.
Proof.
  intros Hp. revert kept. induction Hp as [|p parts Hp _ IH]; intros kept; [done|].
  simpl. rewrite clean_step_normal by done. by rewrite IH, <- app_assoc.
Qed.

(** From the root no double dot is left. *)
Lemma clean_step_rooted kept part :
  Forall normal kept → contains_byte Separator part = false →
  Forall normal (clean_step true kept part).
Proof.
  intros Hk Hp. unfold clean_step.
  destruct (String.eqb_spec part "") as [|H1]; [done|].
  destruct (String.eqb_spec part ".") as [|H2]; [done|].
  destruct (String.eqb_spec part "..") as [|H3]; simpl; [|by repeat constructor].
  destruct Hk as [|k kept (_ & _ & H & _) Hk]; [done|].
  by rewrite (proj2 (String.eqb_neq _ _) H).
Qed.

Lemma clean_fold_rooted kept parts :
  Forall normal kept → Forall (λ p, contains_byte Separator p = false) parts →
  Forall normal (foldl (clean_step true) kept parts).
Proof.
  intros Hk Hp. revert kept Hk. induction Hp as [|p parts Hp _ IH]; intros kept Hk; [done|].
  simpl. apply IH. by apply clean_step_rooted.
Qed.

(** The path of components, from the root *)
Definition rooted_path (parts : list string) : string := "/" +:+ join "/" parts.

Lemma normal_no_sep parts :
  Forall normal parts → Forall (λ p, contains_byte Separator p = false) parts.
Proof. intros H. eapply Forall_impl; [exact H|]. by intros p (_ & _ & _ & ?). Qed.

Lemma split_rooted parts s :
  parts ≠ [] → Forall normal parts →
  split_byte Separator (rooted_path parts +:+ String Separator s) =
    "" :: parts ++ split_byte Separator s.
Proof.
  intros Hn Hp. unfold rooted_path. rewrite string_app_assoc.
  change ("/" +:+ ?x) with ("" +:+ String Separator x). rewrite split_byte_app by done. f_equal.
  apply normal_no_sep in Hp. destruct parts as [|p parts]; [done|]. clear Hn.
  revert p Hp. induction parts as [|q parts IH]; intros p [Hp Hps]%Forall_cons.
  - cbn [join String.concat]. by apply split_byte_app.
  - rewrite join_cons, string_app_assoc. change ("/" +:+ ?x) with (String Separator x).
    change (String Separator ?x +:+ ?y) with (String Separator (x +:+ y)).
    rewrite split_byte_app by done. by rewrite IH.
Qed.

Lemma split_rooted_all parts :
  parts ≠ [] → Forall normal parts → split_byte Separator (rooted_path parts) = "" :: parts.
Proof.
  intros Hn Hp. unfold rooted_path. change ("/" +:+ ?x) with ("" +:+ String Separator x).
  rewrite split_byte_app by done. f_equal. apply split_join; [done|]. by apply normal_no_sep.
Qed.

Lemma Clean_rooted path :
  IsAbs path = true → Clean path = rooted_path (clean_parts true path) ∧ Forall normal (clean_parts true path).
Proof.
  intros Ha. unfold Clean. rewrite Ha. split; [done|]. apply Forall_rev, clean_fold_rooted; [done|].
  apply split_byte_no_sep.
Qed.

(** A path under a clean one *)
Lemma Join_rooted parts rel :
  parts ≠ [] → Forall normal parts →
  Join [rooted_path parts; rel] =
    rooted_path (rev (foldl (clean_step true) (rev parts) (split_byte Separator rel))).
Proof.
  intros Hn Hp. cbn [Join]. rewrite (proj2 (String.eqb_neq (rooted_path parts) "")) by done.
  change (join "/" [rooted_path parts; rel]) with (rooted_path parts +:+ String Separator rel).
  assert (∀ s, IsAbs (rooted_path parts +:+ s) = true) as Ha.
  { intros s. unfold rooted_path. rewrite string_app_assoc. unfold IsAbs.
    by destruct (join "/" parts +:+ s)%string. }
  unfold Clean. rewrite Ha. unfold rooted_path at 2. do 2 f_equal. unfold clean_parts.
  rewrite split_rooted by done. f_equal. cbn [foldl].
  change (clean_step true [] "") with (@nil string).
  rewrite foldl_app, (clean_fold_normal true [] parts) by done. by rewrite app_nil_r.
Qed.

Lemma Join_rooted_normal parts rel :
  parts ≠ [] → Forall normal parts → Forall normal (split_byte Separator rel) →
  Join [rooted_path parts; rel] = rooted_path (parts ++ split_byte Separator rel).
Proof.
  intros Hn Hp Hr. rewrite Join_rooted by done. rewrite clean_fold_normal by done.
  by rewrite rev_app_distr, !rev_involutive.
Qed.

(** ** The directory of a path, and its last element *)

(** [path.Split]: what comes up to and with the last slash, and the rest *)
Fixpoint path_Split (s : string) : string * string :=
  match s with
  | "" => ("", "")
  | String c s' =>
    let '(dir, file) := path_Split s' in
    if is_empty dir then
      if Ascii.eqb c "/" then ("/", file) else ("", String c file)
    else (String c dir, file)
  end.

(** [filepath.Dir] and [filepath.Base] *)
Definition Dir (path : string) : string := Clean (path_Split path).1.

Definition Base (path : string) : string :=
  if is_empty path then "."
  else
    let path := trim_right (Ascii.eqb Separator) path in
    if is_empty path then "/" else (path_Split path).2.

(** [filepath.Ext] *)
Fixpoint Ext (path : string) : string :=
  match path with
  | "" => ""
  | String c path' =>
    let e := Ext path' in
    if negb (is_empty e) then e
    else if Ascii.eqb c "." && negb (contains_byte Separator path') then path
    else ""
  end.

(** What two paths share is dropped, component by component. *)
Fixpoint differing (base targ : list string) : list string * list string :=
  match base, targ with
  | b :: base', t :: targ' => if String.eqb b t then differing base' targ' else (base, targ)
  | _, _ => (base, targ)
  end.

(** [filepath.Rel]: up for each component left of [base], then down *)
Definition Rel (base targ : string) : option string :=
  let rooted := IsAbs base in
  if String.eqb (Clean base) (Clean targ) then Some "."
  else if negb (Bool.eqb rooted (IsAbs targ)) then None
  else
    let targ_parts := match rooted, clean_parts rooted targ with false, [] => ["."] | _, ps => ps end in
    let '(up, down) := differing (clean_parts rooted base) targ_parts in
    match up, down with
    | ".." :: _, _ :: _ => None
    | _, _ => Some (join "/" (map (λ _, "..") up ++ down))
    end.

Example base_ex : Base "/a/b/" = "b" ∧ Base "/" = "/" ∧ Base "" = "." ∧ Base "x" = "x". Proof. done. Qed.
Example ext_ex : Ext "/a.b/c" = "" ∧ Ext "x.tar.gz" = ".gz" ∧ Ext "x." = ".". Proof. done. Qed.
Example rel_ex1 : Rel "/a/b" "/a/b/c/../d" = Some "d" ∧ Rel "/a/b" "/a/c" = Some "../c" ∧ Rel "/a/b" "/" = Some "../..".
Proof. done. Qed.
Example rel_ex2 : Rel "/" "/a" = Some "a" ∧ Rel "a" "/a" = None ∧ Rel "../a" "b" = None ∧ Rel "a/b" "a/b" = Some ".".
Proof. done. Qed.

Lemma path_Split_single p : contains_byte "/" p = false → path_Split p = ("", p).
Proof.
  unfold contains_byte. induction p as [|c p IH]; [done|]. cbn [exists_byte].
  intros [Hc Hp]%orb_false_iff. cbn [path_Split]. rewrite IH by done.
  cbn [is_empty]. by rewrite Ascii.eqb_sym, Hc.
Qed.

Lemma path_Split_app a s :
  path_Split (a +:+ String "/" s) = ((a +:+ String "/" (path_Split s).1)%string, (path_Split s).2).
Proof.
  induction a as [|c a IH]; cbn [String.append path_Split].
  - destruct (path_Split s) as [d f] eqn:Hs. simpl. destruct (is_empty d) eqn:Hd; [|done].
    by destruct d.
  - rewrite IH. by destruct a.
Qed.

Lemma path_Split_join ps p q :
  Forall (λ p, contains_byte "/" p = false) (ps ++ [p]) →
  (path_Split (join "/" (ps ++ [p]))).2 = p ∧
  ((path_Split (join "/" (ps ++ [p]))).1 +:+ q)%string = join "/" (ps ++ [q]).
Proof.
  induction ps as [|a ps IH]; intros Hf.
  - apply Forall_cons in Hf as [Hp _]. cbn [app]. change (join "/" [p]) with p.
    by rewrite path_Split_single.
  - apply Forall_cons in Hf as [_ Hf]. destruct (IH Hf) as [H1 H2].
    assert (∀ x, join "/" ((a :: ps) ++ [x]) = a +:+ String "/" (join "/" (ps ++ [x]))) as Hj.
    { intros x. by destruct ps. }
    rewrite !Hj, path_Split_app. cbn [fst snd]. split; [done|].
    rewrite string_app_assoc. f_equal.
    change (String "/" ?d +:+ q) with (String "/" (d +:+ q)). by rewrite H2.
Qed.

Lemma Dir_rooted parts part :
  Forall normal parts → normal part → Dir (rooted_path (parts ++ [part])) = rooted_path parts.
Proof.
  intros Hp Hpart. unfold Dir, rooted_path at 1.
  change ("/" +:+ ?x) with ("" +:+ String "/" x). rewrite path_Split_app. cbn [fst].
  destruct (path_Split_join parts part "") as [_ E].
  { apply Forall_app. split; [by apply normal_no_sep|]. constructor; [by destruct Hpart as (_ & _ & _ & ?)|done]. }
  rewrite string_app_nil_r in E. rewrite E. clear E.
  change ("" +:+ String "/" ?x) with (rooted_path (parts ++ [""])).
  destruct parts as [|p parts]; [done|].
  assert (rooted_path ((p :: parts) ++ [""]) = rooted_path (p :: parts) +:+ String Separator "") as E.
  { unfold rooted_path. rewrite string_app_assoc. f_equal. clear. revert p.
    induction parts as [|q parts IH]; intros p; [done|]. cbn [app]. rewrite !join_cons.
    cbn [app] in IH. rewrite IH, string_app_assoc. done. }
  destruct (Clean_rooted (rooted_path ((p :: parts) ++ [""]))) as [-> _].
  { unfold IsAbs, rooted_path. by destruct (join "/" _). }
  f_equal. unfold clean_parts. rewrite E, split_rooted by done.
  change ("" :: (p :: parts) ++ split_byte Separator "") with ([""] ++ (p :: parts) ++ [""]).
  rewrite foldl_app. change (foldl (clean_step true) [] [""]) with (@nil string).
  rewrite foldl_app, (clean_fold_normal true [] (p :: parts)) by done. rewrite app_nil_r.
  change (foldl (clean_step true) (rev (p :: parts)) [""]) with (rev (p :: parts)).
  apply rev_involutive.
Qed.

Lemma rooted_path_length parts : Forall normal parts → length parts ≤ String.length (rooted_path parts).
Proof.
  intros Hp. unfold rooted_path. rewrite string_length_app. change (String.length "/") with 1.
  induction Hp as [|p parts [Hne _] _ IH]; [simpl; lia|]. destruct parts as [|q parts].
  - destruct p; [done|]. cbn. lia.
  - rewrite join_cons, !string_length_app. change (String.length "/") with 1. simpl length in *. lia.
Qed.

Lemma Clean_rooted_normal parts : Forall normal parts → Clean (rooted_path parts) = rooted_path parts ∧
  clean_parts true (rooted_path parts) = parts.
Proof.
  intros Hp. assert (clean_parts true (rooted_path parts) = parts) as E.
  { destruct parts as [|p parts]; [done|]. unfold clean_parts. rewrite split_rooted_all by done.
    change (foldl (clean_step true) [] ("" :: p :: parts)) with (foldl (clean_step true) [] (p :: parts)).
    rewrite clean_fold_normal by done. by rewrite app_nil_r, rev_involutive. }
  split; [|done]. destruct (Clean_rooted (rooted_path parts)) as [-> _].
  - unfold IsAbs, rooted_path. by destruct (join "/" parts).
  - by rewrite E.
Qed.

Lemma IsAbs_rooted parts : IsAbs (rooted_path parts) = true.
Proof. unfold IsAbs, rooted_path. by destruct (join "/" parts). Qed.

Lemma rooted_path_inj ps qs : Forall normal ps → Forall normal qs → rooted_path ps = rooted_path qs → ps = qs.
Proof.
  intros Hp Hq E. destruct (Clean_rooted_normal ps Hp) as [_ <-], (Clean_rooted_normal qs Hq) as [_ <-].
  by rewrite E.
Qed.

Lemma differing_below base targ : (differing base targ).1 = [] ↔ base `prefix_of` targ.
Proof.
  revert targ. induction base as [|b base IH]; intros targ.
  - split; [intros _; apply prefix_nil|]. by destruct targ.
  - destruct targ as [|t targ]; [split; [done|]; intros [k Hk]; by destruct k|]. simpl.
    destruct (String.eqb_spec b t) as [->|Hbt].
    + rewrite IH. split; [apply prefix_cons|apply prefix_cons_inv_2].
    + split; [done|]. intros H. by apply prefix_cons_inv_1 in H.
Qed.

Lemma differing_rest base rest : differing base (base ++ rest) = ([], rest).
Proof. induction base as [|b base IH]; simpl; [by destruct rest|]. by rewrite String.eqb_refl. Qed.

(** ** Relative paths, cleaned *)

(** Without a root, what is left of a path goes up first and then down. *)
Definition up_then_down (kept : list string) : Prop :=
  ∃ up down, kept = down ++ up ∧ Forall (eq "..") up ∧ Forall normal down.

Lemma clean_step_relative kept part :
  up_then_down kept → contains_byte Separator part = false → up_then_down (clean_step false kept part).
Proof.
  intros (up & down & -> & Hu & Hd) Hp. unfold clean_step.
  destruct (String.eqb_spec part "") as [|H1]; [by exists up, down|].
  destruct (String.eqb_spec part ".") as [|H2]; [by exists up, down|]. simpl.
  destruct (String.eqb_spec part "..") as [->|H3].
  - destruct Hd as [|d down (_ & _ & Hd & _) Hd']; simpl.
    + exists (".." :: up), []. split_and!; [|by constructor|done].
      destruct Hu as [|u up <- Hu]; [done|]. by rewrite String.eqb_refl.
    + rewrite (proj2 (String.eqb_neq _ _) Hd). by exists up, down.
  - exists up, (part :: down). split_and!; [done|done|]. by constructor.
Qed.

Lemma clean_fold_relative kept parts :
  up_then_down kept → Forall (λ p, contains_byte Separator p = false) parts →
  up_then_down (foldl (clean_step false) kept parts).
Proof.
  intros Hk Hp. revert kept Hk. induction Hp as [|p parts Hp _ IH]; intros kept Hk; [done|].
  simpl. apply IH. by apply clean_step_relative.
Qed.

Lemma clean_parts_relative path :
  ∃ up down, clean_parts false path = up ++ down ∧ Forall (eq "..") up ∧ Forall normal down.
Proof.
  destruct (clean_fold_relative [] (split_byte Separator path)) as (up & down & E & Hu & Hd).
  { by exists [], []. } { apply split_byte_no_sep. }
  exists (rev up), (rev down). unfold clean_parts. rewrite E, rev_app_distr.
  split_and!; [done|by apply Forall_rev|by apply Forall_rev].
Qed.

Lemma clean_parts_no_sep rooted path : Forall (λ p, contains_byte Separator p = false) (clean_parts rooted path).
Proof.
  destruct rooted.
  - apply normal_no_sep. apply Forall_rev, clean_fold_rooted; [done|]. apply split_byte_no_sep.
  - destruct (clean_parts_relative path) as (up & down & -> & Hu & Hd). apply Forall_app. split.
    + eapply Forall_impl; [exact Hu|]. by intros ? <-.
    + by apply normal_no_sep.
Qed.

Lemma IsAbs_join p ps : normal p → IsAbs (join "/" (p :: ps)) = false.
Proof.
  intros (Hp & _ & _ & Hs). destruct p as [|c p]; [done|]. unfold contains_byte in Hs. cbn [exists_byte] in Hs.
  apply orb_false_iff in Hs as [Hc _]. unfold IsAbs, Separator in *.
  assert (∃ r, join "/" (String c p :: ps) = String c r) as [r ->].
  { destruct ps; eexists; reflexivity. }
  cbn [String.prefix]. destruct (ascii_dec "/" c) as [<-|]; [done|done].
Qed.

Lemma clean_parts_join ps :
  ps ≠ [] → Forall normal ps → ∀ s, s = [] ∨ s = [""] → clean_parts false (join "/" (ps ++ s)) = ps.
Proof.
  intros Hn Hp s Hs. unfold clean_parts. change "/" with (String Separator ""). rewrite split_join.
  - rewrite foldl_app, (clean_fold_normal false [] ps), app_nil_r by done.
    destruct Hs as [->| ->]; exact (rev_involutive ps).
  - by destruct ps.
  - apply Forall_app. split; [by apply normal_no_sep|]. destruct Hs as [->| ->]; by repeat constructor.
Qed.

Lemma Dir_relative ps p :
  Forall normal ps → normal p → Dir (join "/" (ps ++ [p])) = if decide (ps = []) then "." else join "/" ps.
Proof.
  intros Hps Hp. unfold Dir. destruct (path_Split_join ps p "") as [_ E].
  { apply Forall_app. split; [by apply normal_no_sep|]. apply Forall_singleton. by destruct Hp as (_ & _ & _ & ?). }
  rewrite string_app_nil_r in E. rewrite E. case_decide as Hn; [by subst|].
  unfold Clean. destruct ps as [|q ps]; [done|]. change ((q :: ps) ++ [""]) with (q :: (ps ++ [""])).
  rewrite IsAbs_join by by inversion Hps.
  change (q :: (ps ++ [""])) with ((q :: ps) ++ [""]). rewrite clean_parts_join; [|done|done|by right].
  destruct (String.eqb_spec (join "/" (q :: ps)) "") as [E'|]; [|done].
  inversion Hps as [|? ? (Hq & _)]; subst. by destruct q, ps.
Qed.

Lemma join_nonempty ps : ps ≠ [] → Forall normal ps → join "/" ps ≠ "".
Proof. intros Hn Hp. destruct Hp as [|p ps (Hp & _) _]; [done|]. by destruct p, ps. Qed.

Lemma Clean_join ps : ps ≠ [] → Forall normal ps → Clean (join "/" ps) = join "/" ps.
Proof.
  intros Hn Hp. unfold Clean. destruct ps as [|p ps]; [done|]. rewrite IsAbs_join by by inversion Hp.
  assert (clean_parts false (join "/" (p :: ps)) = p :: ps) as ->.
  { rewrite <- (app_nil_r (p :: ps)) at 1. apply clean_parts_join; [done|done|by left]. }
  by rewrite (proj2 (String.eqb_neq _ _) (join_nonempty _ Hn Hp)).
Qed.

Lemma join_snoc sep ps p : ps ≠ [] → join sep (ps ++ [p]) = join sep ps +:+ sep +:+ p.
Proof.
  induction ps as [|q ps IH]; [done|]. intros _. destruct ps as [|r ps]; [done|].
  change ((q :: r :: ps) ++ [p]) with (q :: r :: (ps ++ [p])). rewrite !join_cons.
  change (r :: (ps ++ [p])) with ((r :: ps) ++ [p]). rewrite IH by done. by rewrite !string_app_assoc.
Qed.

Lemma Join_names kept x : Forall normal kept → normal x → Join [join "/" kept; x] = join "/" (kept ++ [x]).
Proof.
  intros Hk Hx. assert (Forall normal (kept ++ [x])) as Ha by by (apply Forall_app; split; [|constructor]).
  destruct (decide (kept = [])) as [->|Hn].
  - cbn [Join]. destruct Hx as (Hx & _). rewrite (proj2 (String.eqb_neq _ _) Hx). by apply Clean_join.
  - cbn [Join]. rewrite (proj2 (String.eqb_neq _ _) (join_nonempty _ Hn Hk)).
    rewrite join_snoc by done. change (join "/" [join "/" kept; x]) with (join "/" kept +:+ "/" +:+ x).
    rewrite <- join_snoc by done. apply Clean_join; [by destruct kept|done].
Qed.
