(* ===== verification/GoRegexp.v ===== *)
(** * A backtracking matcher for the regular expressions the program compiles

    Go's [regexp] returns, of all matches at the leftmost position, the one a
    backtracking engine finds first: a greedy operator tries one more copy
    before going on, a lazy one goes on first, and an alternation tries its
    left side first.  [rmatch] is that engine, written in continuation-passing
    style.  The patterns of the program start with [^] and end with [$], so
    matching starts at the first byte and must end at the last. *)

From S2P Require Import Prelude GoStrings.

Inductive re : Type :=
| REps
| RByte (f : ascii → bool)
| RSeq (r1 r2 : re)
| RAlt (r1 r2 : re)
| RStar (greedy : bool) (r : re)
| ROpt (r : re)
| RGroup (i : nat) (r : re).

(** [r+] *)
Definition RPlus (r : re) : re := RSeq r (RStar true r).
Definition RChar (c : ascii) : re := RByte (Ascii.eqb c).
Definition RDigit : re := RByte is_digit.
(** [.]: any byte but a newline *)
Definition RAny : re := RByte (λ c, negb (Ascii.eqb c "010")).

Fixpoint RRepeat (n : nat) (r : re) : re :=
  match n with
  | 0 => REps
  | 1 => r
  | S n' => RSeq r (RRepeat n' r)
  end.

(** The text of each group; a group that took no part in the match is "". *)
Abbreviation captures := (gmap nat string).

Definition group (i : nat) (caps : captures) : string := default "" (caps !! i).

Definition orelse {A} (a b : option A) : option A :=
  match a with Some _ => a | None => b end.

Definition substring_to (s s' : string) : string :=
  String.substring 0 (String.length s - String.length s') s.

(** One pass of a star consumes at least a byte, so as many passes as there
    are bytes left is every pass there can be. *)
Fixpoint star_loop (body : (string → captures → option captures) → string → captures → option captures)
  (greedy : bool) (n : nat) (k : string → captures → option captures)
  (s : string) (caps : captures) : option captures :=
  match n with
  | 0 => k s caps
  | S n' =>
    let again :=
      body (λ s' caps',
        if (String.length s' <? String.length s)%nat
        then star_loop body greedy n' k s' caps' else None) s caps in
    if greedy then orelse again (k s caps) else orelse (k s caps) again
  end.

Fixpoint rmatch (r : re) (k : string → captures → option captures)
  (s : string) (caps : captures) : option captures :=
  match r with
  | REps => k s caps
  | RByte f =>
    match s with
    | String c s' => if f c then k s' caps else None
    | "" => None
    end
  | RSeq r1 r2 => rmatch r1 (rmatch r2 k) s caps
  | RAlt r1 r2 => orelse (rmatch r1 k s caps) (rmatch r2 k s caps)
  | RStar greedy r1 => star_loop (rmatch r1) greedy (String.length s) k s caps
  | ROpt r1 => orelse (rmatch r1 k s caps) (k s caps)
  | RGroup i r1 => rmatch r1 (λ s' caps', k s' (<[i := substring_to s s']> caps')) s caps
  end.

(** [FindAllStringSubmatch(s, -1)] of a pattern that matches no empty text: the
    groups of every match, group 0 the whole of it; the search goes on after each.
    [skip] is what is left of the match before. *)
Definition whole_match (s rest : string) (caps : captures) : option captures :=
  Some (<[0 := substring_to s rest]> caps).

Fixpoint find_all_from (r : re) (skip : nat) (s : string) : list captures :=
  match s with
  | "" => []
  | String _ s' =>
    match skip with
    | S skip' => find_all_from r skip' s'
    | 0 =>
      match rmatch r (whole_match s) s ∅ with
      | Some caps => caps :: find_all_from r (String.length (group 0 caps) - 1) s'
      | None => find_all_from r 0 s'
      end
    end
  end.

Definition find_all (r : re) (s : string) : list captures := find_all_from r 0 s.

(** [$] without the [m] flag: the end of the text. *)
Definition at_end (s : string) (caps : captures) : option captures :=
  match s with "" => Some caps | _ => None end.

(** [FindStringSubmatch] for a pattern anchored at both ends *)
Definition full_match (r : re) (s : string) : option captures := rmatch r at_end s ∅.

(** A match needs the continuation to accept: whatever [rmatch] returns was
    returned by the continuation at some point reached by consuming bytes. *)
Lemma rmatch_cont (r : re) k s caps res :
  rmatch r k s caps = Some res →
  ∃ s' caps', k s' caps' = Some res ∧ String.length s' ≤ String.length s.
Proof.
  revert k s caps res. induction r as [|f|r1 IH1 r2 IH2|r1 IH1 r2 IH2|g r1 IH1|r1 IH1|i r1 IH1];
    intros k s caps res H; simpl in H.
  - eauto.
  - destruct s as [|c s]; [done|]. destruct (f c); [|done]. exists s, caps. simpl. eauto with lia.
  - apply IH1 in H as (s1 & c1 & H & Hl1). apply IH2 in H as (s2 & c2 & H & Hl2).
    exists s2, c2. split; [done|lia].
  - unfold orelse in H. destruct (rmatch r1 k s caps) eqn:H1; [|eauto].
    simplify_eq. eauto.
  - revert H. generalize (String.length s) at 1. intros n.
    revert s caps res. induction n as [|n IHn]; intros s caps res H; simpl in H; [eauto|].
    assert (∀ x, rmatch r1 (λ s' caps', if (String.length s' <? String.length s)%nat
        then star_loop (rmatch r1) g n k s' caps' else None) s caps = Some x →
      ∃ s' caps', k s' caps' = Some x ∧ String.length s' ≤ String.length s) as Hagain.
    { intros x Hx. apply IH1 in Hx as (s1 & c1 & Hx & Hl1).
      destruct (Nat.ltb_spec (String.length s1) (String.length s)); [|done].
      apply IHn in Hx as (s2 & c2 & Hx & Hl2). exists s2, c2. split; [done|lia]. }
    unfold orelse in H. destruct g; case_hyp H; eauto.
  - unfold orelse in H. destruct (rmatch r1 k s caps) eqn:H1; [|eauto].
    simplify_eq. eauto.
  - apply IH1 in H as (s1 & c1 & H & Hl1). eauto.
Qed.
