(* ===== verification/Domain.v ===== *)
(** * Domain types (internal/domain)

    Namespaces, selectors, ref snapshots, operating systems, the arrow
    lifecycle states and the manifest data the other components work on.  A Go
    string type with named constants is an inductive type with one constructor
    per constant and one for any other string. *)

From S2P Require Import Prelude GoStrings.

(** ** Namespaces (namespace.go) *)

Abbreviation Namespace := string.

Definition NamespaceSeparator : ascii := "/".

Definition BareNamespace (n : Namespace) : Namespace :=
  match cut_byte "@" n with
  | Some (bare, _) => bare
  | None => n
  end.

Definition Ref (n : Namespace) : string :=
  match cut_byte "@" n with
  | Some (_, ref) => ref
  | None => ""
  end.

Definition IsGlob (n : Namespace) : bool := contains (Ref n) "*".

Definition segments (n : Namespace) : list string :=
  split_byte NamespaceSeparator (BareNamespace n).

Inductive namespace_error :=
| NamespaceEmpty
| NamespaceFormat (got : Namespace)
| NamespaceSegmentEmpty (i : nat).

(** The index of the first empty segment, counting from [i]. *)
Fixpoint first_empty (i : nat) (parts : list string) : option nat :=
  match parts with
  | [] => None
  | part :: parts' => if String.eqb part "" then Some i else first_empty (S i) parts'
  end.

(** [Namespace.Validate] *)
Definition ValidateNamespace (n : Namespace) : option namespace_error :=
  if String.eqb n "" then Some NamespaceEmpty
  else
    let parts := segments n in
    if negb (length parts =? 3) && negb (length parts =? 4) then Some (NamespaceFormat n)
    else NamespaceSegmentEmpty <$> first_empty 0 parts.

Definition GetQUID (n : Namespace) : string :=
  let parts := segments n in
  if 3 <=? length parts then join "/" (take 3 parts) else BareNamespace n.

Definition GetAUID (n : Namespace) : string :=
  let parts := segments n in
  if 4 <=? length parts then default "" (parts !! 3) else "".

Definition IsQuiverHosted (n : Namespace) : bool := length (segments n) =? 4.

Definition WithRef (n : Namespace) (ref : string) : Namespace :=
  let bare := BareNamespace n in
  if String.eqb ref "" then bare else bare +:+ "@" +:+ ref.

Definition DomainOf (n : Namespace) : string :=
  match cut_byte NamespaceSeparator (BareNamespace n) with
  | Some (d, _) => d
  | None => BareNamespace n
  end.

Definition CloneURL (n : Namespace) : string :=
  match segments n with
  | p0 :: p1 :: p2 :: _ => "https://" +:+ p0 +:+ "/" +:+ p1 +:+ "/" +:+ p2
  | _ => ""
  end.

(** ** Selectors and ref snapshots (selector.go) *)

Inductive SelectorKind :=
| SelectorPin
| SelectorTagPin
| SelectorBranchPin
| SelectorChannel
| SelectorOrderedChannel
| SelectorPointerChannel
| SelectorBranchChannel
| SelectorConstraint
| SelectorCommit
| SelectorUnknown (s : string).

#[export] Instance SelectorKind_eq_dec : EqDecision SelectorKind.
Proof. solve_decision. Defined.

(** [SelectorKind.Valid] *)
Definition ValidKind (k : SelectorKind) : bool :=
  match k with
  | SelectorPin | SelectorTagPin | SelectorBranchPin
  | SelectorChannel | SelectorOrderedChannel | SelectorPointerChannel | SelectorBranchChannel
  | SelectorConstraint | SelectorCommit => true
  | SelectorUnknown _ => false
  end.

Definition Family (k : SelectorKind) : SelectorKind :=
  match k with
  | SelectorPin | SelectorTagPin | SelectorBranchPin => SelectorPin
  | SelectorChannel | SelectorOrderedChannel | SelectorPointerChannel | SelectorBranchChannel =>
    SelectorChannel
  | SelectorConstraint | SelectorCommit => k
  | SelectorUnknown _ => k
  end.

Record Resolved := mkResolved {
  resolved_ref : string;
  resolved_commit : string;
  resolved_fingerprint : string;
}.

#[export] Instance Resolved_eq_dec : EqDecision Resolved.
Proof. solve_decision. Defined.

Definition RefOr (r : Resolved) (fallback : string) : string :=
  if String.eqb (resolved_ref r) "" then fallback else resolved_ref r.

Record Available := mkAvailable {
  available_ref : string;
  available_commit : string;
}.

#[export] Instance Available_eq_dec : EqDecision Available.
Proof. solve_decision. Defined.

Record RefSnapshot := mkSnapshot {
  Tags : gmap string string;
  Branches : gmap string string;
  Head : string;
}.

(** [RefSnapshot.Commit]: tags before branches. *)
Definition Commit (s : RefSnapshot) (ref : string) : option string :=
  match Tags s !! ref with
  | Some commit => Some commit
  | None => Branches s !! ref
  end.

(** ** Operating systems (os.go) *)

Inductive OS :=
| OSLinuxAMD64 | OSLinuxARM64
| OSWindowsAMD64 | OSWindowsARM64
| OSDarwinAMD64 | OSDarwinARM64
| OSOther (s : string).

#[export] Instance OS_eq_dec : EqDecision OS.
Proof. solve_decision. Defined.

Definition os_string (o : OS) : string :=
  match o with
  | OSLinuxAMD64 => "linux/amd64"
  | OSLinuxARM64 => "linux/arm64"
  | OSWindowsAMD64 => "windows/amd64"
  | OSWindowsARM64 => "windows/arm64"
  | OSDarwinAMD64 => "darwin/amd64"
  | OSDarwinARM64 => "darwin/arm64"
  | OSOther s => s
  end.

Definition IsWindows (o : OS) : bool :=
  bool_decide (o = OSWindowsAMD64) || bool_decide (o = OSWindowsARM64).

Definition AllOS : list OS :=
  [OSLinuxAMD64; OSLinuxARM64; OSWindowsAMD64; OSWindowsARM64; OSDarwinAMD64; OSDarwinARM64].

(** ** Lifecycle states (arrow.go) *)

Inductive ArrowState :=
| ArrowStateAbsent
| ArrowStateInstalling
| ArrowStateUpdating
| ArrowStateReady
| ArrowStateRunning
| ArrowStateStopping
| ArrowStateDraining
| ArrowStateDetached
| ArrowStateUninstalling
| ArrowStateRemoved
| ArrowStateOutdated
| ArrowStateOther (s : string).

#[export] Instance ArrowState_eq_dec : EqDecision ArrowState.
Proof. solve_decision. Defined.

Definition transitions (s : ArrowState) : list ArrowState :=
  match s with
  | ArrowStateAbsent => [ArrowStateReady]
  | ArrowStateReady =>
    [ArrowStateRunning; ArrowStateInstalling; ArrowStateUninstalling; ArrowStateUpdating;
     ArrowStateOutdated]
  | ArrowStateRunning => [ArrowStateStopping; ArrowStateDetached]
  | ArrowStateStopping => [ArrowStateReady; ArrowStateDraining]
  | ArrowStateDraining => [ArrowStateReady]
  | ArrowStateDetached => [ArrowStateReady; ArrowStateStopping; ArrowStateRunning]
  | ArrowStateInstalling => [ArrowStateReady; ArrowStateAbsent]
  | ArrowStateUninstalling => [ArrowStateAbsent; ArrowStateReady]
  | ArrowStateUpdating => [ArrowStateReady; ArrowStateAbsent]
  | ArrowStateRemoved => []
  | ArrowStateOutdated => [ArrowStateReady; ArrowStateRunning; ArrowStateUninstalling]
  | ArrowStateOther _ => []
  end.

Fixpoint CanTransitionTo_loop (allowed : list ArrowState) (target : ArrowState) : bool :=
  match allowed with
  | [] => false
  | a :: allowed' => if bool_decide (a = target) then true else CanTransitionTo_loop allowed' target
  end.

Definition CanTransitionTo (s target : ArrowState) : bool :=
  CanTransitionTo_loop (transitions s) target.

Definition IsActive (s : ArrowState) : bool :=
  match s with
  | ArrowStateRunning | ArrowStateStopping | ArrowStateDraining
  | ArrowStateInstalling | ArrowStateUpdating => true
  | _ => false
  end.

Lemma CanTransitionTo_elem s target : CanTransitionTo s target = true ↔ target ∈ transitions s.
Proof.
  unfold CanTransitionTo. induction (transitions s) as [|a l IH]; simpl.
  - split; [done|]. by intros ?%elem_of_nil.
  - rewrite elem_of_cons. case_bool_decide; naive_solver.
Qed.

(** Methods of the lifecycle (arrow.go) *)
Definition MethodInstall := "_install".
Definition MethodUninstall := "_uninstall".
Definition MethodUpdate := "_update".
Definition MethodExecute := "_execute".
Definition MethodStop := "_stop".

(** ** Facts about namespaces *)

Lemma BareNamespace_no_at n : contains_byte "@" (BareNamespace n) = false.
Proof.
  unfold BareNamespace. destruct (cut_byte "@" n) as [[l r]|] eqn:H.
  - by apply cut_byte_some in H as [_ H].
  - by apply cut_byte_none in H.
Qed.

Lemma cut_byte_no_sep c l r :
  contains_byte c l = false → cut_byte c (l +:+ String c r) = Some (l, r).
Proof. intros H. by apply cut_byte_some. Qed.

Lemma BareNamespace_idemp n : BareNamespace (BareNamespace n) = BareNamespace n.
Proof.
  pose proof (BareNamespace_no_at n) as H. apply cut_byte_none in H.
  unfold BareNamespace at 1. by rewrite H.
Qed.

Lemma WithRef_nonempty n ref : ref ≠ "" → WithRef n ref = BareNamespace n +:+ String "@" ref.
Proof. unfold WithRef. intros H. by rewrite (proj2 (String.eqb_neq ref "") H). Qed.

Lemma first_empty_none i parts : first_empty i parts = None ↔ Forall (λ p, p ≠ "") parts.
Proof.
  revert i. induction parts as [|p parts IH]; intros i; simpl; [by split|].
  rewrite Forall_cons. destruct (String.eqb_spec p ""); [naive_solver|].
  rewrite IH. naive_solver.
Qed.

Lemma segments_join n : join "/" (segments n) = BareNamespace n.
Proof. apply join_split. Qed.

Lemma ValidateNamespace_ok n :
  ValidateNamespace n = None ↔
  n ≠ "" ∧ (length (segments n) = 3 ∨ length (segments n) = 4) ∧
  Forall (λ p, p ≠ "") (segments n).
Proof.
  unfold ValidateNamespace. destruct (String.eqb_spec n "") as [->|Hn]; [naive_solver|].
  destruct (Nat.eqb_spec (length (segments n)) 3), (Nat.eqb_spec (length (segments n)) 4); simpl;
    try lia; rewrite ?fmap_None, ?first_empty_none; naive_solver.
Qed.

Lemma BareNamespace_WithRef n ref : BareNamespace (WithRef n ref) = BareNamespace n.
Proof.
  destruct (decide (ref = "")) as [->|Hr]; [apply BareNamespace_idemp|].
  rewrite WithRef_nonempty by done. unfold BareNamespace at 1.
  by rewrite cut_byte_no_sep by apply BareNamespace_no_at.
Qed.

Lemma Ref_WithRef n ref : Ref (WithRef n ref) = ref.
Proof.
  pose proof (BareNamespace_no_at n) as Hat. destruct (decide (ref = "")) as [->|Hr].
  - unfold WithRef, Ref. simpl. apply cut_byte_none in Hat. by rewrite Hat.
  - rewrite WithRef_nonempty by done. unfold Ref. by rewrite cut_byte_no_sep.
Qed.

Lemma WithRef_Ref n : Ref n ≠ "" → WithRef n (Ref n) = n.
Proof.
  intros Hr. rewrite WithRef_nonempty by done. unfold Ref, BareNamespace in *.
  destruct (cut_byte "@" n) as [[l r]|] eqn:H; [|done].
  by apply cut_byte_some in H as [-> _].
Qed.

(** A namespace and a ref never mix: setting a ref keeps the bare
    namespace, reading it back gives that ref, and a namespace is its bare part
    with its ref set (the reading of a trailing "@" apart). *)
Lemma namespace_ref_roundtrip n ref :
  BareNamespace (WithRef n ref) = BareNamespace n ∧
  Ref (WithRef n ref) = ref ∧
  (Ref n ≠ "" → WithRef n (Ref n) = n) ∧
  WithRef (WithRef n ref) "" = BareNamespace n.
Proof.
  split_and!; [apply BareNamespace_WithRef|apply Ref_WithRef|apply WithRef_Ref|].
  unfold WithRef at 1. simpl. apply BareNamespace_WithRef.
Qed.

Lemma namespace_ref_roundtrip_witness :
  Ref "github.com/valve/steamcmd@v1.4.2" ≠ "" ∧
  WithRef "github.com/valve/steamcmd@v1.4.2" "v1.4.2" = "github.com/valve/steamcmd@v1.4.2".
Proof.
  assert (Ref "github.com/valve/steamcmd@v1.4.2" ≠ "") as H by (vm_compute; discriminate).
  split; [exact H|].
  exact (proj1 (proj2 (proj2 (namespace_ref_roundtrip "github.com/valve/steamcmd@v1.4.2" ""))) H).
Defined.

(** A namespace that validates names a repository: its bare part is the
    repository, followed by the arrow id exactly when a collection hosts it; the
    clone URL is the repository under https, and the first segment is the
    domain. *)
Lemma namespace_valid_decomposes n :
  ValidateNamespace n = None →
  CloneURL n = "https://" +:+ GetQUID n ∧
  BareNamespace n = GetQUID n +:+ (if IsQuiverHosted n then "/" +:+ GetAUID n else "") ∧
  (IsQuiverHosted n = true ↔ GetAUID n ≠ "") ∧
  segments n !! 0 = Some (DomainOf n) ∧ DomainOf n ≠ "".
Proof.
  intros (_ & Hlen & Hne)%ValidateNamespace_ok.
  pose proof (segments_join n) as Hj.
  pose proof (split_byte_no_sep NamespaceSeparator (BareNamespace n)) as Hsep.
  fold (segments n) in Hsep.
  unfold CloneURL, GetQUID, IsQuiverHosted, GetAUID, DomainOf.
  destruct (segments n) as [|a [|b [|c [|d [|e ?]]]]]; simpl in Hlen; try lia;
    rewrite <-Hj; clear Hj Hlen; decompose_Forall_hyps;
    rewrite !(cut_byte_no_sep NamespaceSeparator a) by done;
    rewrite ?string_app_nil_r, ?string_app_assoc; simpl; rewrite ?string_app_assoc.
  - repeat split; try done; by rewrite ?string_app_assoc.
  - repeat split; try done; by rewrite ?string_app_assoc.
Qed.

Lemma namespace_valid_decomposes_witness :
  ValidateNamespace "github.com/char2cs/gaming.quiver/cs2@v1" = None ∧
  segments "github.com/char2cs/gaming.quiver/cs2@v1" !! 0 = Some "github.com".
Proof.
  assert (ValidateNamespace "github.com/char2cs/gaming.quiver/cs2@v1" = None) as H by reflexivity.
  split; [exact H|].
  exact (proj1 (proj2 (proj2 (proj2 (namespace_valid_decomposes _ H))))).
Defined.
