(* ===== verification/Steps.v ===== *)
(** * Manifest data (internal/domain, internal/domain/runtime/step)

    Steps with values that vary by platform, step lists, methods, targets and
    the requirements, exposures and dependencies a target carries.  A nil Go
    slice and an empty one differ where a manifest is merged, so a [StepList] is
    an [option (list Step)]; [None] is nil. *)

From S2P Require Import Prelude GoStrings Domain.

(** ** Overrideable values (step/overrideable.go) *)

Record Overrideable (T : Type) := mkOverrideable {
  Default : T;
  OSArch : gmap string T;
}.
Arguments mkOverrideable {T} _ _.
Arguments Default {T} _.
Arguments OSArch {T} _.

(** [Overrideable[T]{Default: v}] *)
Definition flat {T} (v : T) : Overrideable T := mkOverrideable v ∅.

(** [Overrideable.Resolve]: an exact lookup. *)
Definition Resolve_over {T} (o : Overrideable T) (osArch : string) : T :=
  match OSArch o !! osArch with
  | Some v => v
  | None => Default o
  end.

(** [Overrideable.fromMap]; [zero] is the zero value of the Go type. *)
Definition fromMap {T} (zero : T) (o : Overrideable T) (m : gmap string T) : Overrideable T :=
  mkOverrideable (default zero (m !! "default")) (delete "default" m ∪ OSArch o).

(** The map [Overrideable.MarshalJSON] writes when there are overrides. *)
Definition toMap {T} (o : Overrideable T) : gmap string T :=
  OSArch o ∪ {[ "default" := Default o ]}.

(** ** Steps *)

Record BasicStep := mkBasicStep {
  title : string;
  exitOnFailure : bool;
}.

Record UIOptions := mkUIOptions {
  ui_title : string;
  ui_path : string;
  ui_listen : list string;
  ui_static : string;
}.

Definition Listens (o : UIOptions) : bool := String.eqb (ui_static o) "".

Inductive Step :=
| RunStep (b : BasicStep) (Command : Overrideable string) (Elevated : Overrideable bool)
    (Timeout : Overrideable string) (UI : option UIOptions)
| FetchStep (b : BasicStep) (URL To Checksum Timeout : Overrideable string)
| ExtractStep (b : BasicStep) (From To Timeout : Overrideable string)
| PortableStep (b : BasicStep) (From To Timeout : Overrideable string) (Name : string)
| SignalStep (b : BasicStep) (Signal : Overrideable string) (Timeout : Overrideable string)
| DependenciesStep (b : BasicStep)
| ExposeStep (b : BasicStep) (Kind Name Path Icon : string) (Categories : list string)
    (MediaIcon : string)
| UnexposeStep (b : BasicStep).

Abbreviation StepList := (option (list Step)).

(** [len] of a step list: nil has none. *)
Definition steps_of (l : StepList) : list Step := default [] l.

(** The [Resolve] method of every step type *)
Definition Resolve (s : Step) (os : string) : Step :=
  match s with
  | RunStep b c e t ui =>
    RunStep b (flat (Resolve_over c os)) (flat (Resolve_over e os)) (flat (Resolve_over t os)) ui
  | FetchStep b u to c t =>
    FetchStep b (flat (Resolve_over u os)) (flat (Resolve_over to os))
      (flat (Resolve_over c os)) (flat (Resolve_over t os))
  | ExtractStep b f to t =>
    ExtractStep b (flat (Resolve_over f os)) (flat (Resolve_over to os)) (flat (Resolve_over t os))
  | PortableStep b f to t n =>
    PortableStep b (flat (Resolve_over f os)) (flat (Resolve_over to os))
      (flat (Resolve_over t os)) n
  | SignalStep b s t => SignalStep b (flat (Resolve_over s os)) (flat (Resolve_over t os))
  | DependenciesStep _ | ExposeStep _ _ _ _ _ _ _ | UnexposeStep _ => s
  end.

(** [NewRunStep] and [NewSignalStep] *)
Definition NewRunStep (ttl command : string) (elevated : bool) (timeout : string)
  (exit : bool) : Step :=
  RunStep (mkBasicStep ttl exit) (flat command) (flat elevated) (flat timeout) None.

Definition SignalKindGraceful := "graceful".

Definition NewSignalStep (ttl signal timeout : string) (exit : bool) : Step :=
  SignalStep (mkBasicStep ttl exit) (flat signal) (flat timeout).

(** ** Targets *)

Record Requirement := mkRequirement {
  CpuCores : Z;
  MemoryGB : Z;
  DiskGB : Z;
}.

Inductive requirement_error := CpuTooLow (got : Z) | MemoryTooLow (got : Z) | DiskTooLow (got : Z).

(** [Requirement.IsValid] and [Requirement.Validate] *)
Definition IsValidRequirement (r : Requirement) : bool :=
  Z.leb 1 (CpuCores r) && Z.leb 1 (MemoryGB r) && Z.leb 1 (DiskGB r).

Definition ValidateRequirement (r : Requirement) : option requirement_error :=
  if Z.ltb (CpuCores r) 1 then Some (CpuTooLow (CpuCores r))
  else if Z.ltb (MemoryGB r) 1 then Some (MemoryTooLow (MemoryGB r))
  else if Z.ltb (DiskGB r) 1 then Some (DiskTooLow (DiskGB r))
  else None.

Record ExposeEntry := mkExposeEntry {
  entry_name : string;
  entry_path : string;
  entry_icon : string;
  entry_categories : list string;
}.

(** nil and empty entry lists differ where targets are merged. *)
Record Expose := mkExpose {
  CLI : option (list ExposeEntry);
  Desktop : option (list ExposeEntry);
}.

Inductive DepType := ToolDep | ServiceDep.

Record DependencyEdge := mkDependencyEdge {
  edge_namespace : Namespace;
  edge_constraint : string;
  edge_type : DepType;
}.

Record Method := mkMethod {
  AvailableIn : list ArrowState;
  method_steps : StepList;
}.

Record TargetLifecycle := mkTargetLifecycle {
  Install : StepList;
  Update : StepList;
  Execute : StepList;
  Stop : StepList;
  Uninstall : StepList;
  Preinstalled : StepList;
}.

Record Target := mkTarget {
  Requirements : Requirement;
  Tools : list DependencyEdge;
  Services : list DependencyEdge;
  Exports : gmap string string;
  Lifecycle : TargetLifecycle;
  Methods : gmap string Method;
  TargetExpose : Expose;
}.

(** ** Facts *)

(** The two ways to check a requirement agree. *)
Lemma ValidateRequirement_valid r : ValidateRequirement r = None ↔ IsValidRequirement r = true.
Proof.
  unfold ValidateRequirement, IsValidRequirement. rewrite !andb_true_iff, !Z.leb_le.
  repeat case_match; rewrite ?Z.ltb_lt, ?Z.ltb_ge in *; split; try done; lia.
Qed.

(** What [MarshalJSON] writes, [fromMap] reads back, as long as no override is
    filed under the reserved key. *)
Lemma fromMap_toMap {T} (zero : T) (o : Overrideable T) :
  OSArch o !! "default" = None → fromMap zero (mkOverrideable zero ∅) (toMap o) = o.
Proof.
  destruct o as [d m]. unfold fromMap, toMap. simpl. intros Hd. f_equal.
  - rewrite lookup_union_r by done. by rewrite lookup_singleton_eq.
  - rewrite map_union_empty. rewrite delete_union, delete_singleton_eq, map_union_empty.
    by apply delete_id.
Qed.
