(* ===== verification/Manifest.v ===== *)
(** * Manifests and the rows they are catalogued in (internal/domain: arrow.go,
    variable.go, variable_type.go, credit.go, arrow_generator.go, selector.go;
    internal/domain/netbridge)

    What an arrow declares: its variables, the ports it asks for, its targets; and
    the row the catalog keeps of it, with what is installed and what is ahead. *)

From S2P Require Import Prelude GoStrings Domain Steps.

(** ** Variables (variable.go, variable_type.go) *)

Inductive VariableType :=
| VariableTypeString | VariableTypeNumber | VariableTypeBoolean | VariableTypeSelect
| VariableTypeOther (s : string).

Definition IsValidVariableType (t : VariableType) : bool :=
  match t with VariableTypeOther _ => false | _ => true end.

(** [var_values] is nil-able, but only its length and members are read. *)
Record DeclaredVariable := mkVariable {
  var_name : string;
  var_description : string;
  var_default : string;
  var_values : list string;
  var_min : Z;
  var_max : Z;
  var_sensitive : bool;
  var_type : VariableType;
}.

Definition MaxVariableNameLength : nat := 255.

Inductive variable_error :=
| VariableNameEmpty
| VariableNameTooLong
| VariableMinOverMax (min max : Z)
| VariableDefaultNotAllowed (default : string).

(** [Variable.Validate]; [None] is no error. *)
Definition ValidateVariable (v : DeclaredVariable) : option variable_error :=
  if String.eqb (var_name v) "" then Some VariableNameEmpty
  else if Nat.ltb MaxVariableNameLength (String.length (var_name v)) then Some VariableNameTooLong
  else if Z.ltb 0 (var_max v) && Z.ltb (var_max v) (var_min v)
  then Some (VariableMinOverMax (var_min v) (var_max v))
  else if Nat.ltb 0 (length (var_values v)) && negb (String.eqb (var_default v) "") &&
          negb (bool_decide (var_default v ∈ var_values v))
  then Some (VariableDefaultNotAllowed (var_default v))
  else None.

(** *** The built-in names *)

Definition VarWorkdir := "WORKDIR".
Definition VarInstallPath := "INSTALL_PATH".
Definition VarArrowNamespace := "ARROW_NAMESPACE".
Definition VarPlatform := "PLATFORM".
Definition VarRef := "REF".
Definition VarArrowUIListen := "ARROW_UI_LISTEN".
Definition VarArrowApp := "ARROW_APP".

Definition ReservedVariableNames : list string :=
  [VarWorkdir; VarInstallPath; VarArrowNamespace; VarPlatform; VarRef; VarArrowUIListen;
   VarArrowApp].

Definition IsReservedVariable (name : string) : bool :=
  bool_decide (name ∈ ReservedVariableNames).

(** ** Ports (netbridge/port_def.go, protocol.go) *)

Inductive Protocol := ProtocolTCP | ProtocolUDP | ProtocolTCPUDP | ProtocolOther (s : string).

#[export] Instance Protocol_eq_dec : EqDecision Protocol.
Proof. solve_decision. Defined.

Definition IsValidProtocol (p : Protocol) : bool :=
  match p with ProtocolOther _ => false | _ => true end.

Record PortDef := mkPortDef {
  port_name : string;
  port_protocol : Protocol;
  port_default : Z;
  port_required : bool;
}.

Definition MinPort : Z := 1.
Definition MaxPort : Z := 65535.

Inductive port_error := PortNameEmpty | PortOutOfRange (default : Z) | PortBadProtocol.

(** [PortDef.Validate] *)
Definition ValidatePort (p : PortDef) : option port_error :=
  if String.eqb (port_name p) "" then Some PortNameEmpty
  else if negb (Z.eqb (port_default p) 0) &&
          (Z.ltb (port_default p) MinPort || Z.ltb MaxPort (port_default p))
  then Some (PortOutOfRange (port_default p))
  else if negb (IsValidProtocol (port_protocol p)) then Some PortBadProtocol
  else None.

(** ** The arrow (arrow.go, credit.go, arrow_generator.go) *)

Record Credit := mkCredit { credit_name : string; credit_email : string; credit_url : string }.

Record ArrowMedia := mkArrowMedia { Icon : string; Banner : string }.

Record ArrowGenerator := mkArrowGenerator {
  generator_name : string;
  generator_confidence : string;
  generator_warnings : list string;
}.

Record ArrowMeta := mkArrowMeta {
  Name : string;
  Description : string;
  License : string;
  URL : string;
  Maintainers : list Credit;
  Credits : list Credit;
  Tags : list string;
  Media : ArrowMedia;
  Generator : option ArrowGenerator;
}.

Definition no_meta : ArrowMeta := mkArrowMeta "" "" "" "" [] [] [] (mkArrowMedia "" "") None.

(** Times are nanoseconds; the zero time is [None]. *)
Record Arrow := mkArrow {
  arrow_namespace : Namespace;
  arrow_meta : ArrowMeta;
  arrow_variables : list DeclaredVariable;
  arrow_netbridge : list PortDef;
  arrow_targets : list (OS * Target);
  arrow_readme : string;
  InstalledAt : option Z;
  UserInstalled : bool;
  LastUsedAt : option Z;
  arrow_kind : SelectorKind;
  arrow_resolved : Resolved;
  arrow_available : option Available;
}.

Definition ArrowOriginDeclared := "declared".
Definition ArrowOriginInferred := "inferred".

(** [Arrow.Origin] and [Arrow.Confidence] *)
Definition Origin (a : Arrow) : string :=
  match Generator (arrow_meta a) with
  | None => ArrowOriginDeclared
  | Some g => if String.eqb (generator_name g) "" then ArrowOriginDeclared else ArrowOriginInferred
  end.

Definition Confidence (a : Arrow) : string :=
  if String.eqb (Origin a) ArrowOriginDeclared then ""
  else match Generator (arrow_meta a) with Some g => generator_confidence g | None => "" end.

(** [targets[os]] *)
Fixpoint target_in (targets : list (OS * Target)) (os : OS) : option Target :=
  match targets with
  | [] => None
  | (o, t) :: targets' => if decide (o = os) then Some t else target_in targets' os
  end.

Definition target_of (a : Arrow) (os : OS) : option Target := target_in (arrow_targets a) os.

(** ** Facts *)

(** A valid variable has a name the size a name may have, a default among its
    values, and bounds in order when it has an upper one. *)
Lemma ValidateVariable_ok v :
  ValidateVariable v = None ↔
  var_name v ≠ "" ∧ String.length (var_name v) ≤ MaxVariableNameLength ∧
  ((0 < var_max v)%Z → (var_min v ≤ var_max v)%Z) ∧
  (var_values v = [] ∨ var_default v = "" ∨ var_default v ∈ var_values v).
Proof.
  unfold ValidateVariable. destruct (String.eqb_spec (var_name v) "") as [->|Hn].
  { split; [done|]. by intros []. }
  destruct (Nat.ltb_spec MaxVariableNameLength (String.length (var_name v))) as [Hl|Hl].
  { split; [done|]. intros (_ & ? & _). lia. }
  destruct (Z.ltb_spec 0 (var_max v)) as [H0|H0];
    destruct (Z.ltb_spec (var_max v) (var_min v)) as [Hm|Hm]; simpl.
  { split; [done|]. intros (_ & _ & H & _). specialize (H H0). lia. }
  all: destruct (var_values v) as [|x l] eqn:Hv; simpl;
    [split; [intros _; split_and!; auto; lia|done]|].
  all: destruct (String.eqb_spec (var_default v) "") as [Hd|Hd]; simpl;
    [split; [intros _; split_and!; auto; lia|done]|].
  all: case_bool_decide as Hin; simpl; split; try done; intros H.
  all: try (split_and!; auto; lia).
  all: destruct H as (_ & _ & _ & [?|[?|?]]); done.
Qed.

(** A port that declares a number declares one of the 65535. *)
Lemma ValidatePort_range p :
  ValidatePort p = None → port_default p ≠ 0%Z → (MinPort ≤ port_default p ≤ MaxPort)%Z.
Proof.
  unfold ValidatePort. destruct (String.eqb _ _); [done|].
  destruct (Z.eqb_spec (port_default p) 0); [done|]. simpl.
  destruct (Z.ltb_spec (port_default p) MinPort); [done|].
  destruct (Z.ltb_spec MaxPort (port_default p)); [done|]. lia.
Qed.
