(* ===== verification/Runtime.v ===== *)
(** * The runtime aggregate and its commands
    (internal/domain/runtime, internal/app/repositories/runtime/internal/commands)

    The state of one arrow, [ArrowRuntime], and the seventeen commands that are
    the only writers of it.  A command is validated against the current
    aggregate ([nil] when the arrow has none) and then emits the next one.  A
    dereference of a nil pointer or an index out of range in [EmitEvent] is the
    value [None]; a validated command never has it. *)

From S2P Require Import Prelude GoStrings Domain Steps.

(** ** Data *)

Inductive ExecutionOutcome := OutcomeSuccess | OutcomeFailed | OutcomeCancelled.

#[export] Instance ExecutionOutcome_eq_dec : EqDecision ExecutionOutcome.
Proof. solve_decision. Defined.

Inductive StepStatus :=
| StepStatusPending | StepStatusRunning | StepStatusCompleted | StepStatusFailed.

#[export] Instance StepStatus_eq_dec : EqDecision StepStatus.
Proof. solve_decision. Defined.

Record StepProgress := mkStepProgress {
  Index : nat;
  Status : StepStatus;
  Error : option string;
  Note : option string;
  progress_step : Step;
}.

Inductive SurfaceMode := SurfaceModeListen | SurfaceModeStatic.

#[export] Instance SurfaceMode_eq_dec : EqDecision SurfaceMode.
Proof. solve_decision. Defined.

Record Surface := mkSurface {
  Title : string;
  Mode : SurfaceMode;
  Path : string;
  Dir : string;
  SurfaceReady : bool;
}.

#[export] Instance Surface_eq_dec : EqDecision Surface.
Proof. solve_decision. Defined.

Record Execution := mkExecution {
  ID : string;
  Exec_Method : string;
  Steps : list StepProgress;
  Variables : gmap string string;
  PID : Z;
  WorkDir : string;
  Exec_Surface : option Surface;
}.

Record Return := mkReturn {
  ReturnID : string;
  ReturnMethod : string;
  Outcome : ExecutionOutcome;
  ReturnSteps : list StepProgress;
  ReturnVariables : gmap string string;
}.

Record DepSyncInfo := mkDepSync {
  AddedDeps : list Namespace;
  RemovedDeps : list Namespace;
}.

Record ArrowRuntime := mkRuntime {
  RuntimeRef : Namespace;
  State : ArrowState;
  Exec : option Execution;
  LastReturn : option Return;
  PendingDepSync : option DepSyncInfo;
}.

(** ** Commands *)

(** The arguments the four lifecycle [Begin*] commands share. *)
Record BeginArgs := mkBeginArgs {
  begin_ns : Namespace;
  begin_id : string;
  begin_steps : list Step;
  begin_vars : gmap string string;
  begin_workdir : string;
}.

Inductive Command :=
| AdvanceStep (ns : Namespace) (id : string) (StepIndex : Z) (ToStatus : StepStatus)
    (err note : option string)
| BeginExecution (args : BeginArgs) (Method : string) (AvailableIn : list ArrowState)
| BeginInstall (args : BeginArgs)
| BeginStop (args : BeginArgs)
| BeginUninstall (args : BeginArgs)
| BeginUpdate (args : BeginArgs)
| ClearSurface (ns : Namespace) (id : string)
| ClearVersionOutdated (ns : Namespace)
| EndExecution (ns : Namespace) (id : string) (outcome : ExecutionOutcome)
| MarkOutdated (ns : Namespace) (AddedDeps RemovedDeps : list Namespace)
| MarkVersionOutdated (ns : Namespace)
| RecordDetached (ns : Namespace)
| RecordPID (ns : Namespace) (id : string) (pid : Z)
| RecordPreinstalled (ns : Namespace)
| RecoverInterrupted (ns : Namespace)
| RestartExecution (ns : Namespace) (id : string) (steps : list Step)
| SetSurface (ns : Namespace) (id : string) (surface : Surface).

Definition AggregateID (c : Command) : Namespace :=
  match c with
  | BeginExecution args _ _ | BeginInstall args | BeginStop args | BeginUninstall args
  | BeginUpdate args => begin_ns args
  | AdvanceStep ns _ _ _ _ _ | ClearSurface ns _ | ClearVersionOutdated ns
  | EndExecution ns _ _ | MarkOutdated ns _ _ | MarkVersionOutdated ns | RecordDetached ns
  | RecordPID ns _ _ | RecordPreinstalled ns | RecoverInterrupted ns
  | RestartExecution ns _ _ | SetSurface ns _ _ => ns
  end.

(** The topic an accepted command is published on, less the namespace. *)
Definition EventTopic (c : Command) : string :=
  match c with
  | AdvanceStep _ _ _ _ _ _ | RestartExecution _ _ _ => "runtime.step_advanced."
  | BeginExecution _ _ _ | BeginInstall _ | BeginStop _ | BeginUninstall _ | BeginUpdate _ =>
    "runtime.begun."
  | ClearSurface _ _ => "runtime.surface_cleared."
  | ClearVersionOutdated _ => "runtime.outdated_cleared."
  | EndExecution _ _ _ => "runtime.ended."
  | MarkOutdated _ _ _ | MarkVersionOutdated _ => "runtime.outdated."
  | RecordDetached _ => "runtime.detached."
  | RecordPID _ _ _ => "runtime.pid_recorded."
  | RecordPreinstalled _ => "runtime.preinstalled."
  | RecoverInterrupted _ => "runtime.recovered."
  | SetSurface _ _ _ => "runtime.surface_set."
  end.

Definition EventName (c : Command) : string := EventTopic c +:+ AggregateID c.

(** [ErrValidation], alone or joined with [ErrExecutionSuperseded] *)
Inductive cmd_error := ErrValidation | ErrExecutionSuperseded.

#[export] Instance cmd_error_eq_dec : EqDecision cmd_error.
Proof. solve_decision. Defined.

(** [current == nil || current.Ref == ""] *)
Definition no_aggregate (current : option ArrowRuntime) : bool :=
  match current with
  | None => true
  | Some rt => String.eqb (RuntimeRef rt) ""
  end.

Definition requireCurrentExecution (current : option ArrowRuntime) (executionID : string)
  : option cmd_error :=
  match current with
  | None => Some ErrValidation
  | Some rt =>
    if String.eqb (RuntimeRef rt) "" then Some ErrValidation
    else match Exec rt with
         | None => Some ErrValidation
         | Some exec =>
           if String.eqb (ID exec) executionID then None else Some ErrExecutionSuperseded
         end
  end.

Definition isVersionDriftOutdated (current : ArrowRuntime) : bool :=
  bool_decide (State current = ArrowStateOutdated) &&
  match PendingDepSync current with None => true | Some _ => false end.

(** The loop of [BeginExecution.Validate] over [AvailableIn] *)
Fixpoint availableIn_admits (states : list ArrowState) (current : ArrowRuntime) : bool :=
  match states with
  | [] => false
  | s :: states' =>
    if bool_decide (s = State current) then true
    else if bool_decide (s = ArrowStateReady) && isVersionDriftOutdated current then true
    else availableIn_admits states' current
  end.

Definition BeginExecution_Validate (AvailableIn : list ArrowState)
  (current : option ArrowRuntime) : option cmd_error :=
  match current with
  | None => Some ErrValidation
  | Some rt =>
    if String.eqb (RuntimeRef rt) "" then Some ErrValidation
    else match Exec rt with
         | Some _ => Some ErrValidation
         | None =>
           match AvailableIn with
           | [] =>
             if negb (bool_decide (State rt = ArrowStateReady)) && negb (isVersionDriftOutdated rt)
             then Some ErrValidation else None
           | _ => if availableIn_admits AvailableIn rt then None else Some ErrValidation
           end
         end
  end.

Definition BeginInstall_Validate (current : option ArrowRuntime) : option cmd_error :=
  if no_aggregate current then None
  else match current with
       | None => None
       | Some rt =>
         match Exec rt with
         | Some _ => Some ErrValidation
         | None =>
           match State rt with
           | ArrowStateAbsent | ArrowStateRemoved => None
           | _ => Some ErrValidation
           end
         end
       end.

Definition BeginStop_Validate (current : option ArrowRuntime) : option cmd_error :=
  match current with
  | None => Some ErrValidation
  | Some rt =>
    if String.eqb (RuntimeRef rt) "" then Some ErrValidation
    else
      let stopping :=
        match Exec rt with Some e => String.eqb (Exec_Method e) MethodStop | None => false end in
      if stopping then Some ErrValidation
      else match State rt with
           | ArrowStateRunning | ArrowStateDetached => None
           | _ => Some ErrValidation
           end
  end.

Definition BeginUninstall_Validate (current : option ArrowRuntime) : option cmd_error :=
  match current with
  | None => Some ErrValidation
  | Some rt =>
    if String.eqb (RuntimeRef rt) "" then Some ErrValidation
    else if negb (bool_decide (State rt = ArrowStateReady)) &&
            negb (bool_decide (State rt = ArrowStateOutdated)) then Some ErrValidation
    else match Exec rt with Some _ => Some ErrValidation | None => None end
  end.

Definition BeginUpdate_Validate (current : option ArrowRuntime) : option cmd_error :=
  match current with
  | None => Some ErrValidation
  | Some rt =>
    if String.eqb (RuntimeRef rt) "" then Some ErrValidation
    else if negb (bool_decide (State rt = ArrowStateOutdated)) &&
            negb (bool_decide (State rt = ArrowStateReady)) then Some ErrValidation
    else None
  end.

Definition AdvanceStep_Validate (id : string) (StepIndex : Z) (current : option ArrowRuntime)
  : option cmd_error :=
  match requireCurrentExecution current id with
  | Some e => Some e
  | None =>
    match current ≫= Exec with
    | None => None
    | Some exec =>
      if Z.ltb StepIndex 0 || Z.leb (Z.of_nat (length (Steps exec))) StepIndex
      then Some ErrValidation else None
    end
  end.

Definition ClearVersionOutdated_Validate (current : option ArrowRuntime) : option cmd_error :=
  match current with
  | None => Some ErrValidation
  | Some rt =>
    if String.eqb (RuntimeRef rt) "" then Some ErrValidation
    else match Exec rt with
         | Some _ => Some ErrValidation
         | None =>
           if negb (bool_decide (State rt = ArrowStateOutdated)) then Some ErrValidation
           else match PendingDepSync rt with Some _ => Some ErrValidation | None => None end
         end
  end.

Definition MarkOutdated_Validate (current : option ArrowRuntime) : option cmd_error :=
  match current with
  | None => None
  | Some rt =>
    if negb (bool_decide (State rt = ArrowStateReady)) &&
       negb (bool_decide (State rt = ArrowStateOutdated)) then Some ErrValidation else None
  end.

Definition MarkVersionOutdated_Validate (current : option ArrowRuntime) : option cmd_error :=
  match current with
  | None => Some ErrValidation
  | Some rt =>
    if String.eqb (RuntimeRef rt) "" then Some ErrValidation
    else match Exec rt with
         | Some _ => Some ErrValidation
         | None =>
           if negb (bool_decide (State rt = ArrowStateReady)) &&
              negb (bool_decide (State rt = ArrowStateOutdated)) then Some ErrValidation else None
         end
  end.

Definition RecordDetached_Validate (current : option ArrowRuntime) : option cmd_error :=
  match current with
  | None => Some ErrValidation
  | Some rt =>
    if String.eqb (RuntimeRef rt) "" then Some ErrValidation
    else if negb (CanTransitionTo (State rt) ArrowStateDetached) then Some ErrValidation
    else None
  end.

Definition RecordPreinstalled_Validate (current : option ArrowRuntime) : option cmd_error :=
  if no_aggregate current then None
  else match current with
       | None => None
       | Some rt =>
         match Exec rt with
         | Some _ => Some ErrValidation
         | None =>
           if negb (bool_decide (State rt = ArrowStateAbsent)) &&
              negb (bool_decide (State rt = ArrowStateReady)) then Some ErrValidation else None
         end
       end.

Definition RecoverInterrupted_Validate (current : option ArrowRuntime) : option cmd_error :=
  match current with
  | None => Some ErrValidation
  | Some rt =>
    if String.eqb (RuntimeRef rt) "" then Some ErrValidation
    else match State rt with
         | ArrowStateInstalling | ArrowStateUninstalling | ArrowStateUpdating
         | ArrowStateRunning | ArrowStateStopping | ArrowStateDraining => None
         | _ => Some ErrValidation
         end
  end.

(** [Command.Validate] *)
Definition Validate (c : Command) (current : option ArrowRuntime) : option cmd_error :=
  match c with
  | AdvanceStep _ id i _ _ _ => AdvanceStep_Validate id i current
  | BeginExecution _ _ states => BeginExecution_Validate states current
  | BeginInstall _ => BeginInstall_Validate current
  | BeginStop _ => BeginStop_Validate current
  | BeginUninstall _ => BeginUninstall_Validate current
  | BeginUpdate _ => BeginUpdate_Validate current
  | ClearVersionOutdated _ => ClearVersionOutdated_Validate current
  | MarkOutdated _ _ _ => MarkOutdated_Validate current
  | MarkVersionOutdated _ => MarkVersionOutdated_Validate current
  | RecordDetached _ => RecordDetached_Validate current
  | RecordPreinstalled _ => RecordPreinstalled_Validate current
  | RecoverInterrupted _ => RecoverInterrupted_Validate current
  | ClearSurface _ id | EndExecution _ id _ | RecordPID _ id _ | RestartExecution _ id _
  | SetSurface _ id _ => requireCurrentExecution current id
  end.

(** ** Events *)

Fixpoint initialSteps_from (i : nat) (steps : list Step) : list StepProgress :=
  match steps with
  | [] => []
  | s :: steps' => mkStepProgress i StepStatusPending None None s :: initialSteps_from (S i) steps'
  end.

Definition initialSteps (steps : list Step) : list StepProgress := initialSteps_from 0 steps.

Definition preserveLastReturn (current : option ArrowRuntime) : option Return :=
  current ≫= LastReturn.

Definition preservePendingDepSync (current : option ArrowRuntime) : option DepSyncInfo :=
  current ≫= PendingDepSync.

Definition stateAfterEnd (method : string) (outcome : ExecutionOutcome) : ArrowState :=
  if String.eqb method MethodInstall then
    match outcome with OutcomeSuccess => ArrowStateReady | _ => ArrowStateAbsent end
  else if String.eqb method MethodUninstall then
    match outcome with OutcomeSuccess => ArrowStateAbsent | _ => ArrowStateReady end
  else ArrowStateReady.

Definition stableStateFor (s : ArrowState) : ArrowState :=
  match s with
  | ArrowStateInstalling | ArrowStateUninstalling | ArrowStateUpdating => ArrowStateAbsent
  | _ => ArrowStateReady
  end.

(** [&domainRuntime.Execution{...}] as the [Begin*] commands build it *)
Definition new_execution (args : BeginArgs) (method : string) (pid : Z) : Execution :=
  mkExecution (begin_id args) method (initialSteps (begin_steps args)) (begin_vars args) pid
    (begin_workdir args) None.

(** [exec := *current.Execution; ...; exec.F = v]: the other fields stay. *)
Definition set_steps (e : Execution) (steps : list StepProgress) : Execution :=
  mkExecution (ID e) (Exec_Method e) steps (Variables e) (PID e) (WorkDir e) (Exec_Surface e).
Definition set_pid (e : Execution) (pid : Z) : Execution :=
  mkExecution (ID e) (Exec_Method e) (Steps e) (Variables e) pid (WorkDir e) (Exec_Surface e).
Definition set_surface (e : Execution) (s : option Surface) : Execution :=
  mkExecution (ID e) (Exec_Method e) (Steps e) (Variables e) (PID e) (WorkDir e) s.

(** The aggregate with another execution, everything else kept *)
Definition with_exec (rt : ArrowRuntime) (e : option Execution) : ArrowRuntime :=
  mkRuntime (RuntimeRef rt) (State rt) e (LastReturn rt) (PendingDepSync rt).

Definition set_progress (p : StepProgress) (status : StepStatus) (err note : option string)
  : StepProgress :=
  mkStepProgress (Index p) status err note (progress_step p).

(** [AdvanceStep.EmitEvent]; an index out of range panics. *)
Definition AdvanceStep_Emit (i : Z) (status : StepStatus) (err note : option string)
  (rt : ArrowRuntime) : option ArrowRuntime :=
  exec ← Exec rt;
  if Z.ltb i 0 then None
  else
    p ← Steps exec !! Z.to_nat i;
    Some (with_exec rt (Some (set_steps exec
      (<[Z.to_nat i := set_progress p status err note]> (Steps exec))))).

Definition EndExecution_Emit (ns : Namespace) (outcome : ExecutionOutcome) (rt : ArrowRuntime)
  : option ArrowRuntime :=
  exec ← Exec rt;
  Some (mkRuntime ns (stateAfterEnd (Exec_Method exec) outcome) None
    (Some (mkReturn (ID exec) (Exec_Method exec) outcome (Steps exec) (Variables exec)))
    (PendingDepSync rt)).

Definition RestartExecution_Emit (steps : list Step) (rt : ArrowRuntime) : option ArrowRuntime :=
  exec ← Exec rt;
  Some (with_exec rt (Some (mkExecution (ID exec) (Exec_Method exec) (initialSteps steps)
    (Variables exec) 0 (WorkDir exec) None))).

Definition begin_runtime (args : BeginArgs) (method : string) (pid : Z) (state : ArrowState)
  (ret : option Return) : ArrowRuntime :=
  mkRuntime (begin_ns args) state (Some (new_execution args method pid)) ret None.

Definition BeginExecution_Emit (args : BeginArgs) (method : string)
  (current : option ArrowRuntime) : ArrowRuntime :=
  begin_runtime args method 0 ArrowStateRunning (preserveLastReturn current).

Definition BeginInstall_Emit (args : BeginArgs) : ArrowRuntime :=
  begin_runtime args MethodInstall 0 ArrowStateInstalling None.

Definition BeginStop_Emit (args : BeginArgs) (current : option ArrowRuntime) : ArrowRuntime :=
  let pid := match current ≫= Exec with Some e => PID e | None => 0%Z end in
  begin_runtime args MethodStop pid ArrowStateStopping (preserveLastReturn current).

Definition BeginUninstall_Emit (args : BeginArgs) (current : option ArrowRuntime) : ArrowRuntime :=
  begin_runtime args MethodUninstall 0 ArrowStateUninstalling (preserveLastReturn current).

Definition BeginUpdate_Emit (args : BeginArgs) (current : option ArrowRuntime) : ArrowRuntime :=
  begin_runtime args MethodUpdate 0 ArrowStateUpdating (preserveLastReturn current).

Definition ClearVersionOutdated_Emit (ns : Namespace) (current : option ArrowRuntime)
  : ArrowRuntime :=
  mkRuntime ns ArrowStateReady None (preserveLastReturn current) None.

Definition MarkOutdated_Emit (ns : Namespace) (added removed : list Namespace)
  (current : option ArrowRuntime) : ArrowRuntime :=
  mkRuntime ns ArrowStateOutdated None (current ≫= LastReturn) (Some (mkDepSync added removed)).

Definition MarkVersionOutdated_Emit (ns : Namespace) (current : option ArrowRuntime)
  : ArrowRuntime :=
  mkRuntime ns ArrowStateOutdated None (preserveLastReturn current) (preservePendingDepSync current).

Definition RecordPreinstalled_Emit (ns : Namespace) (current : option ArrowRuntime)
  : ArrowRuntime :=
  mkRuntime ns ArrowStateReady None (current ≫= LastReturn) (current ≫= PendingDepSync).

Definition ClearSurface_Emit (rt : ArrowRuntime) : option ArrowRuntime :=
  exec ← Exec rt;
  Some (with_exec rt (Some (set_surface exec None))).

Definition RecordPID_Emit (pid : Z) (rt : ArrowRuntime) : ArrowRuntime :=
  with_exec rt ((λ e, set_pid e pid) <$> Exec rt).

Definition SetSurface_Emit (s : Surface) (rt : ArrowRuntime) : ArrowRuntime :=
  with_exec rt ((λ e, set_surface e (Some s)) <$> Exec rt).

Definition RecordDetached_Emit (rt : ArrowRuntime) : ArrowRuntime :=
  mkRuntime (RuntimeRef rt) ArrowStateDetached None (LastReturn rt) None.

Definition RecoverInterrupted_Emit (ns : Namespace) (rt : ArrowRuntime) : ArrowRuntime :=
  mkRuntime ns (stableStateFor (State rt)) None (LastReturn rt) None.

Arguments BeginExecution_Emit /. Arguments BeginInstall_Emit /. Arguments BeginStop_Emit /.
Arguments BeginUninstall_Emit /. Arguments BeginUpdate_Emit /. Arguments RecordPID_Emit /.
Arguments ClearVersionOutdated_Emit /. Arguments MarkOutdated_Emit /.
Arguments MarkVersionOutdated_Emit /. Arguments RecordPreinstalled_Emit /.
Arguments ClearSurface_Emit /. Arguments SetSurface_Emit /. Arguments RecordDetached_Emit /.
Arguments RecoverInterrupted_Emit /.

(** [Command.EmitEvent]; [None] is a panic: the commands that dereference
    [current] without a test panic on [nil]. *)
Definition EmitEvent (c : Command) (current : option ArrowRuntime) : option ArrowRuntime :=
  match c with
  | BeginExecution args method _ => Some (BeginExecution_Emit args method current)
  | BeginInstall args => Some (BeginInstall_Emit args)
  | BeginStop args => Some (BeginStop_Emit args current)
  | BeginUninstall args => Some (BeginUninstall_Emit args current)
  | BeginUpdate args => Some (BeginUpdate_Emit args current)
  | ClearVersionOutdated ns => Some (ClearVersionOutdated_Emit ns current)
  | MarkOutdated ns added removed => Some (MarkOutdated_Emit ns added removed current)
  | MarkVersionOutdated ns => Some (MarkVersionOutdated_Emit ns current)
  | RecordPreinstalled ns => Some (RecordPreinstalled_Emit ns current)
  | AdvanceStep _ _ i status err note => current ≫= AdvanceStep_Emit i status err note
  | EndExecution ns _ outcome => current ≫= EndExecution_Emit ns outcome
  | RestartExecution _ _ steps => current ≫= RestartExecution_Emit steps
  | ClearSurface _ _ => current ≫= ClearSurface_Emit
  | RecordPID _ _ pid => RecordPID_Emit pid <$> current
  | SetSurface _ _ s => SetSurface_Emit s <$> current
  | RecordDetached _ => RecordDetached_Emit <$> current
  | RecoverInterrupted ns => RecoverInterrupted_Emit ns <$> current
  end.

(** ** The command pipeline

    Sending a command: validate it against the current aggregate, and commit
    what it emits. *)

Inductive apply_result :=
| Committed (rt : ArrowRuntime)
| Rejected (e : cmd_error)
| Panicked.

Definition Apply (c : Command) (current : option ArrowRuntime) : apply_result :=
  match Validate c current with
  | Some e => Rejected e
  | None => match EmitEvent c current with Some rt => Committed rt | None => Panicked end
  end.

Abbreviation Store := (gmap Namespace ArrowRuntime).

(** One write to the store of aggregates: an accepted command, or
    [asynx.Forget], which removes an aggregate. *)
Inductive write :=
| Send (c : Command)
| Forget (ns : Namespace).

Definition run_write (w : write) (st : Store) : Store :=
  match w with
  | Send c =>
    match Apply c (st !! AggregateID c) with
    | Committed rt => <[AggregateID c := rt]> st
    | Rejected _ | Panicked => st
    end
  | Forget ns => delete ns st
  end.

Definition run_writes (ws : list write) (st : Store) : Store := foldl (λ st w, run_write w st) st ws.

(** ** Well-formed aggregates *)

(** The states in which the arrow performs a run, and the method it runs: any
    method while running, and the lifecycle method of each transient state. *)
Definition runs_method (s : ArrowState) (method : string) : bool :=
  match s with
  | ArrowStateInstalling => String.eqb method MethodInstall
  | ArrowStateUpdating => String.eqb method MethodUpdate
  | ArrowStateUninstalling => String.eqb method MethodUninstall
  | ArrowStateStopping => String.eqb method MethodStop
  | ArrowStateRunning => true
  | _ => false
  end.

Definition busy (s : ArrowState) : bool :=
  match s with
  | ArrowStateInstalling | ArrowStateUpdating | ArrowStateUninstalling | ArrowStateStopping
  | ArrowStateRunning => true
  | _ => false
  end.

(** States no command produces *)
Definition never_entered (s : ArrowState) : bool :=
  match s with
  | ArrowStateDraining | ArrowStateRemoved | ArrowStateOther _ => true
  | _ => false
  end.

Definition indexed (steps : list StepProgress) : Prop :=
  ∀ i p, steps !! i = Some p → Index p = i.

Record wf_runtime (ns : Namespace) (rt : ArrowRuntime) : Prop := {
  wf_ref : RuntimeRef rt = ns;
  wf_entered : never_entered (State rt) = false;
  wf_busy : busy (State rt) = true ↔ is_Some (Exec rt);
  wf_method : ∀ e, Exec rt = Some e → runs_method (State rt) (Exec_Method e) = true;
  wf_steps : ∀ e, Exec rt = Some e → indexed (Steps e);
  wf_depsync : is_Some (PendingDepSync rt) → State rt = ArrowStateOutdated;
}.

Definition wf_store (st : Store) : Prop := map_Forall wf_runtime st.

(** ** Lemmas *)

Lemma requireCurrentExecution_none current id :
  requireCurrentExecution current id = None ↔
  ∃ rt e, current = Some rt ∧ RuntimeRef rt ≠ "" ∧ Exec rt = Some e ∧ ID e = id.
Proof.
  unfold requireCurrentExecution. destruct current as [rt|]; [|naive_solver].
  destruct (String.eqb_spec (RuntimeRef rt) ""); [naive_solver|].
  destruct (Exec rt) as [e|] eqn:He; [|naive_solver].
  destruct (String.eqb_spec (ID e) id); naive_solver.
Qed.

Lemma requireCurrentExecution_superseded current id :
  requireCurrentExecution current id = Some ErrExecutionSuperseded ↔
  ∃ rt e, current = Some rt ∧ RuntimeRef rt ≠ "" ∧ Exec rt = Some e ∧ ID e ≠ id.
Proof.
  unfold requireCurrentExecution. destruct current as [rt|]; [|naive_solver].
  destruct (String.eqb_spec (RuntimeRef rt) ""); [naive_solver|].
  destruct (Exec rt) as [e|] eqn:He; [|naive_solver].
  destruct (String.eqb_spec (ID e) id); naive_solver.
Qed.

Lemma initialSteps_from_lookup k steps i :
  initialSteps_from k steps !! i =
  (λ s, mkStepProgress (k + i) StepStatusPending None None s) <$> steps !! i.
Proof.
  revert k i. induction steps as [|s steps IH]; intros k i; [done|].
  destruct i as [|i]; simpl; [by rewrite Nat.add_0_r|].
  rewrite IH. by replace (k + S i) with (S k + i) by lia.
Qed.

Lemma initialSteps_indexed steps : indexed (initialSteps steps).
Proof.
  intros i p. unfold initialSteps. rewrite initialSteps_from_lookup.
  by intros (s & _ & ->)%fmap_Some.
Qed.

Lemma indexed_insert steps i p q :
  indexed steps → steps !! i = Some p → Index q = Index p → indexed (<[i := q]> steps).
Proof.
  intros Hi Hp Hq j r. destruct (decide (i = j)) as [<-|Hne].
  - rewrite list_lookup_insert_eq by (by eapply lookup_lt_Some).
    intros [= <-]. rewrite Hq. by apply Hi.
  - rewrite list_lookup_insert_ne by done. apply Hi.
Qed.

#[export] Hint Resolve initialSteps_indexed : quiver.

(** An accepted command, seen through the errors it did not raise. *)
Ltac inv_validate H :=
  unfold BeginExecution_Validate, BeginInstall_Validate, BeginStop_Validate,
    BeginUninstall_Validate, BeginUpdate_Validate, AdvanceStep_Validate,
    ClearVersionOutdated_Validate, MarkOutdated_Validate, MarkVersionOutdated_Validate,
    RecordDetached_Validate, RecordPreinstalled_Validate, RecoverInterrupted_Validate in H;
  repeat case_hyp H; try done; bool_simpl.

Ltac inv_current H :=
  apply requireCurrentExecution_none in H as (? & ? & -> & ? & ? & ?); simplify_eq/=.

(** What each command does to a well-formed aggregate *)
Section preservation.
Context (ns : Namespace).

Definition wf_current (current : option ArrowRuntime) : Prop :=
  ∀ rt, current = Some rt → wf_runtime ns rt.

Lemma wf_idle s ret dep :
  busy s = false → never_entered s = false →
  (is_Some dep → s = ArrowStateOutdated) →
  wf_runtime ns (mkRuntime ns s None ret dep).
Proof. intros Hb ? ?. split; simpl; try done. rewrite Hb. by split; [|intros []]. Qed.

Lemma wf_begun args method pid s ret :
  begin_ns args = ns → busy s = true → runs_method s method = true →
  wf_runtime ns (begin_runtime args method pid s ret).
Proof.
  intros Hns Hb Hm. split; simpl; [done|by destruct s|by rewrite Hb; split; eauto| | |].
  - by intros e [= <-].
  - intros e [= <-]. apply initialSteps_indexed.
  - by intros [].
Qed.

(** Progress of the current run touches nothing but its execution. *)
Lemma wf_with_exec rt e e' :
  wf_runtime ns rt → Exec rt = Some e → Exec_Method e' = Exec_Method e → indexed (Steps e') →
  wf_runtime ns (with_exec rt (Some e')).
Proof.
  intros [Href Hent Hbusy Hm Hs Hd] He Hmeth Hidx. split; simpl; [done|done| | | |done].
  - rewrite Hbusy, He. by split.
  - intros ? [= <-]. rewrite Hmeth. by apply Hm.
  - by intros ? [= <-].
Qed.

Lemma wf_not_busy rt : wf_runtime ns rt → busy (State rt) = false → Exec rt = None.
Proof.
  intros Hwf Hb. destruct (Exec rt) eqn:He; [|done].
  assert (busy (State rt) = true) by (apply (wf_busy _ _ Hwf); eauto). congruence.
Qed.

Lemma wf_no_depsync rt : wf_runtime ns rt → State rt ≠ ArrowStateOutdated → PendingDepSync rt = None.
Proof.
  intros Hwf Hs. destruct (PendingDepSync rt) eqn:Hd; [|done].
  destruct Hs. apply (wf_depsync _ _ Hwf). eauto.
Qed.
End preservation.

Lemma AdvanceStep_validate_in_range id i current :
  AdvanceStep_Validate id i current = None →
  ∃ rt e p, current = Some rt ∧ RuntimeRef rt ≠ "" ∧ Exec rt = Some e ∧ ID e = id ∧
    (0 <= i)%Z ∧ Steps e !! Z.to_nat i = Some p.
Proof.
  unfold AdvanceStep_Validate. intros H.
  destruct (requireCurrentExecution current id) eqn:Hr; [done|].
  apply requireCurrentExecution_none in Hr as (rt & e & -> & Href & He & Hid).
  simpl in H. rewrite He in H. case_match eqn:Hb; [done|].
  apply orb_false_iff in Hb as [Hb1 Hb2]. apply Z.ltb_ge in Hb1. apply Z.leb_gt in Hb2.
  destruct (lookup_lt_is_Some_2 (Steps e) (Z.to_nat i)) as [p Hp]; [lia|].
  naive_solver.
Qed.

(** What validation accepts, the command can emit. *)
Lemma validated_emits c current : Validate c current = None → is_Some (EmitEvent c current).
Proof.
  intros Hv. destruct c; simpl in *; eauto.
  all: try (apply requireCurrentExecution_none in Hv as (rt & e & -> & _ & He & _);
    simpl; unfold EndExecution_Emit, RestartExecution_Emit; rewrite ?He; simpl; by eauto).
  - apply AdvanceStep_validate_in_range in Hv as (rt & e & p & -> & _ & He & _ & Hi & Hp).
    simpl. unfold AdvanceStep_Emit. rewrite He. simpl.
    rewrite (proj2 (Z.ltb_ge _ _) Hi), Hp. simpl. eauto.
  - inv_validate Hv; eauto.
  - inv_validate Hv; eauto.
Qed.

(** Applying is committing what is emitted, unless validation refuses. *)
Lemma Apply_cases c current :
  (∃ e, Validate c current = Some e ∧ Apply c current = Rejected e) ∨
  (∃ rt, Validate c current = None ∧ EmitEvent c current = Some rt ∧ Apply c current = Committed rt).
Proof.
  unfold Apply. destruct (Validate c current) eqn:Hv; [eauto|].
  destruct (validated_emits _ _ Hv) as [rt Hrt]. rewrite Hrt. eauto.
Qed.

(** C13. A command its validation accepts never dereferences a nil pointer or
    indexes past its steps: whatever the aggregate, applying a command commits
    or rejects, and a rejection names why. *)
Theorem commands_never_panic c current : Apply c current ≠ Panicked.
Proof.
  by destruct (Apply_cases c current) as [(e & _ & ->)|(rt & _ & _ & ->)].
Qed.

(** Every accepted command keeps the aggregate well formed. *)
Lemma emit_wf c current rt' :
  AggregateID c ≠ "" → wf_current (AggregateID c) current →
  Validate c current = None → EmitEvent c current = Some rt' →
  wf_runtime (AggregateID c) rt'.
Proof.
  intros Hns Hwf Hv He.
  destruct c; simpl in *;
    try (apply requireCurrentExecution_none in Hv as (rt & e & -> & _ & Hx & _);
      specialize (Hwf rt eq_refl); simpl in He;
      unfold EndExecution_Emit, RestartExecution_Emit in He; rewrite Hx in He);
    simplify_eq/=;
    try (by apply wf_begun); try (by apply wf_idle);
    try (eapply wf_with_exec; [exact Hwf|exact Hx|done|];
      first [apply initialSteps_indexed|exact (wf_steps _ _ Hwf _ Hx)]).
  - apply AdvanceStep_validate_in_range in Hv as (rt & e & p & -> & _ & Hx & _ & Hi & Hp).
    simpl in He. unfold AdvanceStep_Emit in He. rewrite Hx in He. simpl in He.
    rewrite (proj2 (Z.ltb_ge _ _) Hi), Hp in He. simplify_eq/=.
    specialize (Hwf rt eq_refl). eapply wf_with_exec; [done|done|done|]. simpl.
    eapply indexed_insert; [by eapply (wf_steps _ _ Hwf)|done|done].
  - apply wf_idle; unfold stateAfterEnd; try (by repeat case_match).
    intros Hd. exfalso. assert (busy (State rt) = true) as Hb by (apply (wf_busy _ _ Hwf); eauto).
    by rewrite (wf_depsync _ _ Hwf Hd) in Hb.
  - inv_validate Hv. specialize (Hwf _ eq_refl). rewrite (wf_ref _ _ Hwf). by apply wf_idle.
  - apply wf_idle; try done. destruct current as [rt|]; [|by intros []]. simpl.
    specialize (Hwf rt eq_refl). intros Hd. exfalso.
    unfold RecordPreinstalled_Validate, no_aggregate in Hv.
    rewrite (wf_ref _ _ Hwf), (wf_depsync _ _ Hwf Hd) in Hv.
    apply String.eqb_neq in Hns. rewrite Hns in Hv. by repeat case_match.
  - inv_validate Hv; by apply wf_idle.
Qed.

Definition write_ns (w : write) : Namespace :=
  match w with Send c => AggregateID c | Forget ns => ns end.

Lemma run_write_wf w st : write_ns w ≠ "" → wf_store st → wf_store (run_write w st).
Proof.
  intros Hns Hwf. destruct w as [c|ns]; simpl in *.
  - unfold Apply. destruct (Validate c _) eqn:Hv; [done|].
    destruct (EmitEvent c _) as [rt|] eqn:He; [|done].
    apply map_Forall_insert_2; [|done].
    eapply emit_wf; [done| |done|done].
    intros rt0 Hrt0. by apply (Hwf _ _ Hrt0).
  - by apply map_Forall_delete.
Qed.

Lemma runtime_writes_wf ws :
  Forall (λ w, write_ns w ≠ "") ws → wf_store (run_writes ws ∅).
Proof.
  intros Hws. assert (wf_store ∅) as H0 by apply map_Forall_empty.
  revert H0. generalize (∅ : Store). unfold run_writes.
  induction Hws as [|w ws Hw Hws IH]; intros st Hst; simpl; [done|].
  apply IH. by apply run_write_wf.
Qed.

(** C1. From an empty store, whatever sequence of commands and removals is
    issued for namespaces that have a name, every aggregate stays well formed:
    it carries its own namespace; it has an execution exactly while it is
    installing, updating, uninstalling, stopping or running, and that execution
    runs that state's method; steps are numbered by position; a pending
    dependency sync exists only on an outdated arrow; and no aggregate is ever
    draining or removed. *)
Theorem runtime_invariant ws :
  Forall (λ w, write_ns w ≠ "") ws → wf_store (run_writes ws ∅).
Proof. apply runtime_writes_wf. Qed.

Lemma runtime_invariant_witness :
  let ns := "github.com/user/app@v1" : Namespace in
  let args := mkBeginArgs ns "run-1" [DependenciesStep (mkBasicStep "deps" true)] ∅ "/srv/app" in
  let ws := [Send (BeginInstall args); Send (EndExecution ns "run-1" OutcomeSuccess);
             Send (MarkOutdated ns [ns] []); Send (BeginUpdate args);
             Send (RecoverInterrupted ns)] in
  State <$> run_writes ws ∅ !! ns = Some ArrowStateAbsent ∧ wf_store (run_writes ws ∅).
Proof.
  intros ns args ws. split; [reflexivity|].
  apply runtime_invariant. repeat constructor; discriminate.
Defined.

(** Every aggregate of a well-formed store is a well-formed current one. *)
Lemma wf_store_current st ns : wf_store st → wf_current ns (st !! ns).
Proof. intros Hst rt Hrt. exact (Hst _ _ Hrt). Qed.

Lemma wf_not_empty_ref ns rt : ns ≠ "" → wf_runtime ns rt → String.eqb (RuntimeRef rt) "" = false.
Proof. intros Hns Hwf. rewrite (wf_ref _ _ Hwf). by apply String.eqb_neq. Qed.

(** ** The lifecycle the commands implement

    The abstract machine: the states an arrow can be in ([None] when nothing is
    known of it) and the states it can be in after one more command. *)

Module Lifecycle.
Definition next (s : option ArrowState) : list ArrowState :=
  match s with
  | None => [ArrowStateInstalling; ArrowStateOutdated; ArrowStateReady]
  | Some ArrowStateAbsent => [ArrowStateInstalling; ArrowStateReady]
  | Some ArrowStateInstalling => [ArrowStateInstalling; ArrowStateReady; ArrowStateAbsent]
  | Some ArrowStateReady =>
    [ArrowStateReady; ArrowStateRunning; ArrowStateUninstalling; ArrowStateUpdating;
     ArrowStateOutdated]
  | Some ArrowStateRunning =>
    [ArrowStateRunning; ArrowStateReady; ArrowStateStopping; ArrowStateDetached; ArrowStateAbsent]
  | Some ArrowStateStopping => [ArrowStateStopping; ArrowStateReady]
  | Some ArrowStateDetached => [ArrowStateStopping]
  | Some ArrowStateUninstalling => [ArrowStateUninstalling; ArrowStateAbsent; ArrowStateReady]
  | Some ArrowStateUpdating => [ArrowStateUpdating; ArrowStateReady; ArrowStateAbsent]
  | Some ArrowStateOutdated =>
    [ArrowStateOutdated; ArrowStateReady; ArrowStateRunning; ArrowStateUninstalling;
     ArrowStateUpdating]
  | Some ArrowStateDraining | Some ArrowStateRemoved | Some (ArrowStateOther _) => []
  end.

(** The states a manifest may gate a method on (ruleset method_states) *)
Definition gated (states : list ArrowState) : Prop :=
  Forall (λ s, s = ArrowStateReady ∨ s = ArrowStateRunning) states.

(** A command as the application issues it: a method is gated the way the manifest rules
    allow, and may be any, the names of an install and an uninstall included. *)
Definition ordinary (c : Command) : Prop :=
  match c with
  | BeginExecution _ _ states => gated states
  | _ => True
  end.
End Lifecycle.
Import Lifecycle.

Lemma isVersionDriftOutdated_true rt :
  isVersionDriftOutdated rt = true ↔ State rt = ArrowStateOutdated ∧ PendingDepSync rt = None.
Proof.
  unfold isVersionDriftOutdated. rewrite andb_true_iff, bool_decide_eq_true.
  case_match; naive_solver.
Qed.

Lemma gated_admits states rt :
  gated states → availableIn_admits states rt = true →
  State rt = ArrowStateReady ∨ State rt = ArrowStateRunning ∨
  (State rt = ArrowStateOutdated ∧ PendingDepSync rt = None).
Proof.
  intros Hg. induction Hg as [|s states Hs Hg IH]; simpl; [done|].
  case_bool_decide; [naive_solver|].
  destruct (bool_decide (s = ArrowStateReady) && isVersionDriftOutdated rt) eqn:Hd; [|done].
  unfold isVersionDriftOutdated in Hd. bool_simpl. intros _. right. right. by case_match.
Qed.

(** What the guard of [BeginExecution] comes to for a gated method *)
Lemma BeginExecution_from states rt :
  gated states → BeginExecution_Validate states (Some rt) = None →
  Exec rt = None ∧ (State rt = ArrowStateReady ∨ State rt = ArrowStateRunning ∨
    (State rt = ArrowStateOutdated ∧ PendingDepSync rt = None)).
Proof.
  intros Hg Hv. unfold BeginExecution_Validate in Hv.
  destruct (String.eqb _ _); [done|]. destruct (Exec rt) eqn:He; [done|]. split; [done|].
  destruct states as [|s states].
  - destruct (decide (State rt = ArrowStateReady)); [naive_solver|].
    rewrite bool_decide_eq_false_2 in Hv by done. simpl in Hv.
    destruct (isVersionDriftOutdated rt) eqn:Hd; [|done].
    apply isVersionDriftOutdated_true in Hd. naive_solver.
  - destruct (availableIn_admits (s :: states) rt) eqn:Ha; [|done].
    by eapply gated_admits.
Qed.

(** The method of a transient state decides where its end leads. *)
Lemma end_next ns rt e outcome :
  wf_runtime ns rt → Exec rt = Some e →
  stateAfterEnd (Exec_Method e) outcome ∈ next (Some (State rt)).
Proof.
  intros Hwf He. pose proof (wf_method _ _ Hwf e He) as Hm. unfold stateAfterEnd in *.
  destruct (State rt); simpl in *; try done;
    try (apply String.eqb_eq in Hm; rewrite Hm; destruct outcome; simpl; set_solver).
  repeat case_match; set_solver.
Qed.

(** Commands that report progress of the current run *)
Definition progress (c : Command) : bool :=
  match c with
  | AdvanceStep _ _ _ _ _ _ | ClearSurface _ _ | RecordPID _ _ _ | RestartExecution _ _ _
  | SetSurface _ _ _ => true
  | _ => false
  end.

Definition progress_id (c : Command) : option string :=
  match c with
  | AdvanceStep _ id _ _ _ _ | ClearSurface _ id | RecordPID _ id _ | RestartExecution _ id _
  | SetSurface _ id _ | EndExecution _ id _ => Some id
  | _ => None
  end.

(** They are accepted only while that run is current, and change nothing but
    its execution. *)
Lemma progress_emit c current rt' :
  progress c = true → Validate c current = None → EmitEvent c current = Some rt' →
  ∃ rt e e', current = Some rt ∧ Exec rt = Some e ∧ progress_id c = Some (ID e) ∧
    rt' = with_exec rt (Some e') ∧ ID e' = ID e ∧ Exec_Method e' = Exec_Method e ∧
    Variables e' = Variables e ∧ WorkDir e' = WorkDir e.
Proof.
  intros Hp Hv He. destruct c; simpl in *; try done.
  1: { apply AdvanceStep_validate_in_range in Hv as (rt & e & p & -> & _ & Hx & <- & Hi & Hl).
    simpl in He. unfold AdvanceStep_Emit in He. rewrite Hx in He. simpl in He.
    rewrite (proj2 (Z.ltb_ge _ _) Hi), Hl in He. simplify_eq/=. naive_solver. }
  all: apply requireCurrentExecution_none in Hv as (rt & e & -> & _ & Hx & <-);
    simpl in He; unfold RestartExecution_Emit in He; rewrite Hx in He; simplify_eq/=;
    eexists _, _, _; by repeat split.
Qed.

Lemma busy_stays s : busy s = true → s ∈ next (Some s).
Proof. destruct s; simpl; try done; set_solver. Qed.

Lemma lifecycle_sound c current rt' :
  AggregateID c ≠ "" → wf_current (AggregateID c) current →
  ordinary c → Apply c current = Committed rt' → State rt' ∈ next (State <$> current).
Proof.
  unfold Apply. intros Hns Hwf Hc H.
  destruct (Validate c current) eqn:Hv; [done|].
  destruct (EmitEvent c current) as [rt''|] eqn:He; simplify_eq.
  destruct (progress c) eqn:Hp.
  { destruct (progress_emit _ _ _ Hp Hv He) as (rt & e & e' & -> & Hx & _ & -> & _).
    apply busy_stays. apply (wf_busy _ _ (Hwf rt eq_refl)). eauto. }
  destruct current as [rt|]; last first.
  { destruct c; simpl in *; simplify_eq/=; try done; set_solver. }
  specialize (Hwf rt eq_refl).
  assert (busy (State rt) = false → Exec rt = None) as Hidle by by apply (wf_not_busy (AggregateID c)).
  pose proof (wf_not_empty_ref _ _ Hns Hwf) as Href.
  pose proof (wf_entered _ _ Hwf) as Hent.
  change (State <$> Some rt) with (Some (State rt)).
  destruct c; try done; cbn [Validate EmitEvent mbind option_bind fmap option_fmap option_map] in Hv, He;
    simplify_eq; cbn [begin_runtime State BeginExecution_Emit BeginInstall_Emit BeginStop_Emit
      BeginUninstall_Emit BeginUpdate_Emit ClearVersionOutdated_Emit MarkOutdated_Emit
      MarkVersionOutdated_Emit RecordPreinstalled_Emit RecordDetached_Emit
      RecoverInterrupted_Emit].
  - apply BeginExecution_from in Hv as [Hx Hs]; [|done].
    destruct Hs as [->|[Hs|[-> _]]]; [set_solver| |set_solver].
    assert (is_Some (Exec rt)) as [? ?]; [|congruence].
    apply (wf_busy _ _ Hwf). by rewrite Hs.
  - unfold BeginInstall_Validate, no_aggregate in Hv. rewrite Href in Hv.
    repeat case_hyp Hv; try done; set_solver.
  - unfold BeginStop_Validate in Hv. repeat case_hyp Hv; try done; set_solver.
  - unfold BeginUninstall_Validate in Hv.
    repeat case_hyp Hv; bool_simpl; repeat case_match; set_solver.
  - unfold BeginUpdate_Validate in Hv.
    repeat case_hyp Hv; bool_simpl; repeat case_match; set_solver.
  - unfold ClearVersionOutdated_Validate in Hv.
    repeat case_hyp Hv; bool_simpl; repeat case_match; set_solver.
  - apply requireCurrentExecution_none in Hv as (? & e & [= <-] & _ & Hx & _).
    unfold EndExecution_Emit in He. rewrite Hx in He. simplify_eq/=. by eapply end_next.
  - unfold MarkOutdated_Validate in Hv.
    repeat case_hyp Hv; bool_simpl; repeat case_match; set_solver.
  - unfold MarkVersionOutdated_Validate in Hv.
    repeat case_hyp Hv; bool_simpl; repeat case_match; set_solver.
  - unfold RecordDetached_Validate in Hv. repeat case_hyp Hv.
    bool_simpl. apply CanTransitionTo_elem in Heqb0. destruct (State rt); set_solver.
  - unfold RecordPreinstalled_Validate, no_aggregate in Hv. rewrite Href in Hv.
    repeat case_hyp Hv; bool_simpl; repeat case_match; set_solver.
  - unfold RecoverInterrupted_Validate in Hv. repeat case_hyp Hv; try done; set_solver.
Qed.

(** A well-formed aggregate in each state, and the command that takes it to
    another: the edges of [next] are all taken. *)
Section samples.
Definition sample_ns : Namespace := "github.com/user/app@v1".

Definition sample_args : BeginArgs :=
  mkBeginArgs sample_ns "run-2" [DependenciesStep (mkBasicStep "deps" true)] ∅ "/srv/app".

Definition sample_method (s : ArrowState) : string :=
  match s with
  | ArrowStateInstalling => MethodInstall
  | ArrowStateUpdating => MethodUpdate
  | ArrowStateUninstalling => MethodUninstall
  | ArrowStateStopping => MethodStop
  | _ => MethodExecute
  end.

Definition sample (s : ArrowState) : ArrowRuntime :=
  mkRuntime sample_ns s
    (if busy s then Some (new_execution sample_args (sample_method s) 42) else None) None None.

Lemma sample_wf s : never_entered s = false → wf_runtime sample_ns (sample s).
Proof.
  intros Hs. destruct (busy s) eqn:Hb.
  - unfold sample. rewrite Hb. apply (wf_begun sample_ns sample_args); [done|done|by destruct s].
  - unfold sample. rewrite Hb. apply wf_idle; [done|done|by intros []].
Qed.

(** A run under the name of an uninstall, which ends where an uninstall does *)
Definition sample_uninstalling : ArrowRuntime :=
  mkRuntime sample_ns ArrowStateRunning (Some (new_execution sample_args MethodUninstall 42)) None None.

Definition sample_from (s s' : ArrowState) : ArrowRuntime :=
  match s, s' with
  | ArrowStateRunning, ArrowStateAbsent => sample_uninstalling
  | _, _ => sample s
  end.

Lemma sample_from_wf s s' : never_entered s = false → wf_runtime sample_ns (sample_from s s').
Proof.
  intros Hs. pose proof (sample_wf s Hs). destruct s; try done. destruct s'; try done.
  by apply (wf_begun sample_ns sample_args).
Qed.

Definition sample_command (s : option ArrowState) (s' : ArrowState) : Command :=
  match s' with
  | ArrowStateInstalling =>
    match s with
    | Some ArrowStateInstalling => RecordPID sample_ns "run-2" 7
    | _ => BeginInstall sample_args
    end
  | ArrowStateRunning =>
    match s with
    | Some ArrowStateRunning => RecordPID sample_ns "run-2" 7
    | _ => BeginExecution sample_args MethodExecute []
    end
  | ArrowStateStopping =>
    match s with
    | Some ArrowStateStopping => RecordPID sample_ns "run-2" 7
    | _ => BeginStop sample_args
    end
  | ArrowStateUninstalling =>
    match s with
    | Some ArrowStateUninstalling => RecordPID sample_ns "run-2" 7
    | _ => BeginUninstall sample_args
    end
  | ArrowStateUpdating =>
    match s with
    | Some ArrowStateUpdating => RecordPID sample_ns "run-2" 7
    | _ => BeginUpdate sample_args
    end
  | ArrowStateAbsent =>
    match s with
    | Some ArrowStateInstalling => EndExecution sample_ns "run-2" OutcomeFailed
    | Some ArrowStateUninstalling | Some ArrowStateRunning => EndExecution sample_ns "run-2" OutcomeSuccess
    | _ => RecoverInterrupted sample_ns
    end
  | ArrowStateOutdated => MarkOutdated sample_ns [] []
  | ArrowStateDetached => RecordDetached sample_ns
  | _ =>
    match s with
    | None | Some ArrowStateAbsent | Some ArrowStateReady => RecordPreinstalled sample_ns
    | Some ArrowStateOutdated => ClearVersionOutdated sample_ns
    | Some ArrowStateInstalling => EndExecution sample_ns "run-2" OutcomeSuccess
    | _ => EndExecution sample_ns "run-2" OutcomeFailed
    end
  end.

Lemma lifecycle_complete s s' :
  s' ∈ next s →
  AggregateID (sample_command s s') ≠ "" ∧
  ordinary (sample_command s s') ∧
  ∃ rt', Apply (sample_command s s') ((λ s, sample_from s s') <$> s) = Committed rt' ∧ State rt' = s'.
Proof.
  intros Hs. destruct s as [s|]; [destruct s|]; simpl in Hs;
    repeat (apply elem_of_cons in Hs as [->|Hs]); try (by apply elem_of_nil in Hs);
    (split; [done|split; [simpl; unfold gated; by auto|]]);
    eexists; split; reflexivity.
Qed.
End samples.

Lemma next_entered s s' : s' ∈ next (Some s) → never_entered s = false.
Proof. destruct s; simpl; try done; by intros ?%elem_of_nil. Qed.

(** C2. The commands implement exactly the lifecycle machine: an arrow moves from one state
    to another by an accepted command, whose method is gated on the states the rules of
    manifests allow, if and only if the machine has that edge.  Among its edges is one from
    running to absent: a run under the name of an install or an uninstall ends where those
    do. *)
Theorem lifecycle_exact s s' :
  s' ∈ next s ↔
  ∃ c current rt', AggregateID c ≠ "" ∧ wf_current (AggregateID c) current ∧ ordinary c ∧
    State <$> current = s ∧ Apply c current = Committed rt' ∧ State rt' = s'.
Proof.
  split.
  - intros Hs. destruct (lifecycle_complete s s' Hs) as (Hns & Ho & rt' & Ha & Hst).
    exists (sample_command s s'), ((λ s, sample_from s s') <$> s), rt'.
    assert (AggregateID (sample_command s s') = sample_ns) as Hid
      by (destruct s', s as [[]|]; done).
    split_and!; try done.
    + rewrite Hid. intros rt Hrt. destruct s as [s|]; simplify_eq/=.
      apply sample_from_wf. by eapply next_entered.
    + destruct s as [[]|]; try done. by destruct s'.
  - intros (c & current & rt' & Hns & Hwf & Ho & <- & Ha & <-).
    by eapply lifecycle_sound.
Qed.

(** The transition table of the domain is not that machine. Its
    [CanTransitionTo] refuses four moves the commands make (an absent arrow
    installs, a run ends by itself, or as an uninstall, an outdated arrow updates)
    and allows five that no command makes. *)
Theorem transition_table_differs s s' :
  (s' ∈ next (Some s) ∧ s' ≠ s ∧ CanTransitionTo s s' = false ↔
    (s, s') ∈ [(ArrowStateAbsent, ArrowStateInstalling); (ArrowStateRunning, ArrowStateReady);
               (ArrowStateRunning, ArrowStateAbsent); (ArrowStateOutdated, ArrowStateUpdating)]) ∧
  (CanTransitionTo s s' = true ∧ s' ∉ next (Some s) ↔
    (s, s') ∈ [(ArrowStateReady, ArrowStateInstalling); (ArrowStateStopping, ArrowStateDraining);
               (ArrowStateDraining, ArrowStateReady); (ArrowStateDetached, ArrowStateReady);
               (ArrowStateDetached, ArrowStateRunning)]).
Proof.
  rewrite CanTransitionTo_elem, <-not_true_iff_false, CanTransitionTo_elem.
  destruct s; simpl; rewrite ?elem_of_cons, ?elem_of_nil; split; split; naive_solver.
Qed.

Lemma lifecycle_exact_witness :
  ∃ rt', Apply (RecordDetached sample_ns) (Some (sample ArrowStateRunning)) = Committed rt' ∧
    State rt' ∈ next (Some ArrowStateRunning).
Proof.
  exists (mkRuntime sample_ns ArrowStateDetached None None None).
  split; [reflexivity|].
  apply lifecycle_exact.
  exists (RecordDetached sample_ns), (Some (sample ArrowStateRunning)),
    (mkRuntime sample_ns ArrowStateDetached None None None).
  split_and!; try done.
  intros rt [= <-]. by apply sample_wf.
Defined.

(** A method gated on [running] never runs from a running arrow: the begin
    command refuses any arrow that has an execution, and a running arrow always
    has one, so no list of states admits it. *)
Lemma running_gate_never_admits ns rt states :
  ns ≠ "" → wf_runtime ns rt → State rt = ArrowStateRunning →
  BeginExecution_Validate states (Some rt) = Some ErrValidation.
Proof.
  intros Hns Hwf Hs. unfold BeginExecution_Validate.
  rewrite (wf_not_empty_ref _ _ Hns Hwf).
  assert (is_Some (Exec rt)) as [e ->]; [|done].
  apply (wf_busy _ _ Hwf). by rewrite Hs.
Qed.

Lemma running_gate_never_admits_witness :
  wf_runtime sample_ns (sample ArrowStateRunning) ∧
  BeginExecution_Validate [ArrowStateRunning] (Some (sample ArrowStateRunning)) = Some ErrValidation.
Proof.
  split; [by apply sample_wf|].
  by apply (running_gate_never_admits sample_ns); [|apply sample_wf|].
Defined.

(** Progress and the end reported for a run the arrow is no longer
    performing are dropped: the command is rejected and the store is unchanged,
    and the rejection says the run was superseded exactly when another run took
    the arrow over. *)
Lemma stale_progress_dropped c id (st : Store) :
  progress_id c = Some id →
  (∀ rt e, st !! AggregateID c = Some rt → Exec rt = Some e → ID e ≠ id) →
  run_write (Send c) st = st ∧
  (Apply c (st !! AggregateID c) = Rejected ErrExecutionSuperseded ↔
    ∃ rt e, st !! AggregateID c = Some rt ∧ RuntimeRef rt ≠ "" ∧ Exec rt = Some e).
Proof.
  intros Hid Hstale.
  assert (Validate c (st !! AggregateID c) = requireCurrentExecution (st !! AggregateID c) id
    ∧ requireCurrentExecution (st !! AggregateID c) id ≠ None) as [Hv Hn].
  { assert (requireCurrentExecution (st !! AggregateID c) id ≠ None) as Hn.
    { intros (rt & e & Hrt & _ & He & Hx)%requireCurrentExecution_none. by eapply Hstale. }
    split; [|done]. destruct c; simplify_eq/=; try done.
    unfold AdvanceStep_Validate. by destruct (requireCurrentExecution _ _). }
  simpl. unfold Apply. rewrite Hv.
  destruct (requireCurrentExecution _ id) as [err|] eqn:Hr; [|done].
  split; [done|]. split.
  - intros [= ->]. apply requireCurrentExecution_superseded in Hr. naive_solver.
  - intros (rt & e & Hrt & Href & He). f_equal.
    assert (requireCurrentExecution (st !! AggregateID c) id = Some ErrExecutionSuperseded)
      as Hs; [|congruence].
    apply requireCurrentExecution_superseded. exists rt, e. split_and!; try done.
    by eapply Hstale.
Qed.

Lemma stale_progress_dropped_witness :
  run_write (Send (EndExecution sample_ns "run-1" OutcomeFailed))
    {[ sample_ns := sample ArrowStateUpdating ]} = {[ sample_ns := sample ArrowStateUpdating ]}.
Proof.
  apply (stale_progress_dropped (EndExecution sample_ns "run-1" OutcomeFailed) "run-1");
    [reflexivity|].
  intros rt e Hrt He. simpl in Hrt. rewrite lookup_singleton_eq in Hrt.
  injection Hrt as <-. injection He as <-. discriminate.
Defined.

(** Ending a run records how it ended, once: the arrow is left idle in the
    state its method and outcome decide, the return carries the run's own id,
    method, steps and variables, the dependency sync is kept, and a second end
    of the same run is rejected. *)
Lemma end_records_return ns id outcome rt e :
  RuntimeRef rt ≠ "" → Exec rt = Some e → ID e = id →
  ∃ rt', Apply (EndExecution ns id outcome) (Some rt) = Committed rt' ∧
    Exec rt' = None ∧
    LastReturn rt' = Some (mkReturn id (Exec_Method e) outcome (Steps e) (Variables e)) ∧
    PendingDepSync rt' = PendingDepSync rt ∧
    (State rt' = ArrowStateAbsent ↔
      (Exec_Method e = MethodInstall ∧ outcome ≠ OutcomeSuccess) ∨
      (Exec_Method e = MethodUninstall ∧ outcome = OutcomeSuccess)) ∧
    (State rt' ≠ ArrowStateAbsent → State rt' = ArrowStateReady) ∧
    (∀ o, Apply (EndExecution ns id o) (Some rt') = Rejected ErrValidation).
Proof.
  intros Href He Hid. unfold Apply, Validate, EmitEvent.
  rewrite (proj2 (requireCurrentExecution_none (Some rt) id)) by eauto 10.
  simpl. unfold EndExecution_Emit. rewrite He. simpl. eexists; split; [done|]. simpl.
  subst id. split_and!; try done.
  - unfold stateAfterEnd, MethodInstall, MethodUninstall.
    destruct (String.eqb_spec (Exec_Method e) "_install") as [->|];
      [|destruct (String.eqb_spec (Exec_Method e) "_uninstall") as [->|]];
      destruct outcome; naive_solver.
  - unfold stateAfterEnd. by repeat case_match.
  - intros o. simpl. by destruct (String.eqb ns "").
Qed.

Lemma end_records_return_witness :
  ∃ rt', Apply (EndExecution sample_ns "run-2" OutcomeFailed)
      (Some (sample ArrowStateInstalling)) = Committed rt' ∧ Exec rt' = None.
Proof.
  destruct (end_records_return sample_ns "run-2" OutcomeFailed (sample ArrowStateInstalling)
    (new_execution sample_args MethodInstall 42)) as (rt' & Ha & Hx & _);
    [discriminate|reflexivity|reflexivity|].
  exists rt'. split; [exact Ha|exact Hx].
Defined.

(** A pending dependency sync survives every command until something
    consumes it: from an arrow that carries one, an accepted command either
    keeps it, replaces it by a newer one, or starts the update or the uninstall
    that settles it. No run of a gated method starts meanwhile. *)
Lemma depsync_not_lost c rt rt' :
  AggregateID c ≠ "" → wf_runtime (AggregateID c) rt → is_Some (PendingDepSync rt) →
  ordinary c → Apply c (Some rt) = Committed rt' →
  PendingDepSync rt' = PendingDepSync rt ∨
  (∃ ns added removed, c = MarkOutdated ns added removed ∧
    PendingDepSync rt' = Some (mkDepSync added removed)) ∨
  (∃ args, c = BeginUpdate args) ∨ (∃ args, c = BeginUninstall args).
Proof.
  unfold Apply. intros Hns Hwf Hd Ho H.
  destruct (Validate c (Some rt)) eqn:Hv; [done|].
  destruct (EmitEvent c (Some rt)) as [rt''|] eqn:He; simplify_eq.
  pose proof (wf_depsync _ _ Hwf Hd) as Hs.
  pose proof (wf_not_empty_ref _ _ Hns Hwf) as Href.
  assert (Exec rt = None) as Hx by (apply (wf_not_busy _ _ Hwf); by rewrite Hs).
  destruct Hd as [d Hd].
  destruct c; simpl in *; simplify_eq/=; try (by eauto 10).
  all: unfold AdvanceStep_Validate, requireCurrentExecution, BeginInstall_Validate,
    BeginStop_Validate, BeginExecution_Validate, no_aggregate, ClearVersionOutdated_Validate,
    RecordDetached_Validate, RecoverInterrupted_Validate in Hv;
    rewrite ?Href, ?Hx, ?Hs, ?Hd in Hv; try done.
  assert (BeginExecution_Validate AvailableIn (Some rt) = None) as Hv'
    by (unfold BeginExecution_Validate; rewrite Href, Hx; by rewrite Hs).
  apply BeginExecution_from in Hv' as [_ [?|[?|[_ ?]]]]; [congruence..|done].
Qed.

Lemma depsync_not_lost_witness :
  let rt := mkRuntime sample_ns ArrowStateOutdated None None (Some (mkDepSync [sample_ns] [])) in
  ∃ rt', Apply (MarkVersionOutdated sample_ns) (Some rt) = Committed rt' ∧
    (PendingDepSync rt' = PendingDepSync rt ∨
     (∃ ns added removed, MarkVersionOutdated sample_ns = MarkOutdated ns added removed ∧
       PendingDepSync rt' = Some (mkDepSync added removed)) ∨
     (∃ args, MarkVersionOutdated sample_ns = BeginUpdate args) ∨
     (∃ args, MarkVersionOutdated sample_ns = BeginUninstall args)).
Proof.
  intros rt.
  exists rt. split; [reflexivity|].
  apply (depsync_not_lost (MarkVersionOutdated sample_ns) rt rt);
    [discriminate| |by eexists|exact I|reflexivity].
  apply wf_idle; [reflexivity|reflexivity|reflexivity].
Defined.
