(* ===== verification/DepTree.v ===== *)
(** * The dependency tree (internal/engine/deptree)

    The depth-first traversal that turns a root arrow into the order in which
    its dependencies are installed.  The resolver and the context are the
    caller's: [resolver ns] is what the resolver answers for [ns], and
    [ctx_err n] what [ctx.Err()] answers the [n]-th time it is asked.  The
    recursion of [dfs] takes fuel; [dfs_total] bounds the fuel it needs by the
    number of arrows it can reach. *)

From S2P Require Import Prelude GoStrings Domain.

(** [unvisited] is the absence of a key, the zero value of the Go map. *)
Inductive nodeState := unvisited | inProgress | done.

#[export] Instance nodeState_eq_dec : EqDecision nodeState.
Proof. solve_decision. Defined.

(** [calls] is not in the code: it lists the arrows whose resolver was called, in
    order, for a caller whose resolver has an effect. *)
Record traversal := mkTraversal {
  state : gmap Namespace nodeState;
  stack : list Namespace;
  order : list Namespace;
  polls : nat;
  calls : list Namespace;
}.

Inductive dep_error (E : Type) :=
| CycleError (Path : list Namespace)
| ResolverError (e : E)
| ContextError (e : E).
Arguments CycleError {E} Path.
Arguments ResolverError {E} e.
Arguments ContextError {E} e.

Definition NewTraversal : traversal := mkTraversal ∅ [] [] 0 [].

Definition state_of (t : traversal) (ns : Namespace) : nodeState :=
  default unvisited (state t !! ns).

(** The loop that looks for [ns] on the stack; 0 when it is not there. *)
Fixpoint index_of (ns : Namespace) (l : list Namespace) : option nat :=
  match l with
  | [] => None
  | n :: l' => if bool_decide (n = ns) then Some 0 else S <$> index_of ns l'
  end.

Definition buildCycleError {E} (t : traversal) (ns : Namespace) : dep_error E :=
  let cycleStart := default 0 (index_of ns (stack t)) in
  CycleError (drop cycleStart (stack t) ++ [ns]).

(** [CycleError.Error] *)
Definition cycle_message (path : list Namespace) : string :=
  "deptree: cyclic dependency detected: " +:+ join " -> " path.

Section traverse.
Context {E : Type}.
Context (resolver : Namespace → result E (list Namespace)).
Context (ctx_err : nat → option E).

Abbreviation outcome := (option (result (dep_error E) traversal)).

(** [t.state[ns] = inProgress] and the push *)
Definition enter (t : traversal) (ns : Namespace) : traversal :=
  mkTraversal (<[ns := inProgress]> (state t)) (stack t ++ [ns]) (order t) (S (polls t))
    (calls t ++ [ns]).

(** The pop, [t.state[ns] = done] and the append to the order *)
Definition leave (t : traversal) (ns : Namespace) : traversal :=
  mkTraversal (<[ns := done]> (state t)) (take (pred (length (stack t))) (stack t))
    (order t ++ [ns]) (polls t) (calls t).

(** [for _, dep := range deps { if err := t.dfs(dep) ... }] *)
Fixpoint dfs_each (dfs : traversal → Namespace → outcome) (t : traversal)
  (deps : list Namespace) : outcome :=
  match deps with
  | [] => Some (Ok t)
  | dep :: deps' =>
    match dfs t dep with
    | Some (Ok t') => dfs_each dfs t' deps'
    | r => r
    end
  end.

Fixpoint dfs (fuel : nat) (t : traversal) (ns : Namespace) : outcome :=
  match fuel with
  | O => None
  | S fuel' =>
    match state_of t ns with
    | done => Some (Ok t)
    | inProgress => Some (Err (buildCycleError t ns))
    | unvisited =>
      match ctx_err (polls t) with
      | Some e => Some (Err (ContextError e))
      | None =>
        match resolver ns with
        | Err e => Some (Err (ResolverError e))
        | Ok deps =>
          match dfs_each (dfs fuel') (enter t ns) deps with
          | Some (Ok t') => Some (Ok (leave t' ns))
          | r => r
          end
        end
      end
    end
  end.

(** [depTree.Resolve] *)
Definition Resolve (fuel : nat) (root : Namespace)
  : option (result (dep_error E) (list Namespace)) :=
  match dfs fuel NewTraversal root with
  | Some (Ok t) => Some (Ok (order t))
  | Some (Err e) => Some (Err e)
  | None => None
  end.

(** The arrows the resolver was called for by a resolution that succeeds, in order *)
Definition resolver_calls (fuel : nat) (root : Namespace) : list Namespace :=
  match dfs fuel NewTraversal root with
  | Some (Ok t) => calls t
  | _ => []
  end.

(** ** The dependency graph *)

Definition edge (x y : Namespace) : Prop := ∃ deps, resolver x = Ok deps ∧ y ∈ deps.

Definition path (l : list Namespace) : Prop :=
  ∀ i x y, l !! i = Some x → l !! S i = Some y → edge x y.

(** Every arrow comes after everything it depends on. *)
Definition topological (l : list Namespace) : Prop :=
  ∀ i x, l !! i = Some x → ∃ deps, resolver x = Ok deps ∧ Forall (.∈ take i l) deps.

(** [x → ... → x], written as its vertices *)
Definition is_cycle (l : list Namespace) : Prop :=
  ∃ x mid, l = x :: mid ++ [x] ∧ path l.

Lemma path_drop n l : path l → path (drop n l).
Proof.
  intros Hl i x y. rewrite !lookup_drop. rewrite Nat.add_succ_r. apply Hl.
Qed.

Lemma path_snoc l x : path l → (∀ y, last l = Some y → edge y x) → path (l ++ [x]).
Proof.
  intros Hl Hx i a b Ha Hb. apply lookup_app_Some in Hb as [Hb|[Hi Hb]].
  - apply lookup_app_Some in Ha as [Ha|[Hi _]]; [by eapply Hl|].
    apply lookup_lt_Some in Hb. lia.
  - apply list_lookup_singleton_Some in Hb as [Hb <-].
    assert (i < length l) as Hlt by lia.
    rewrite lookup_app_l in Ha by done. apply Hx.
    rewrite last_lookup. by replace (pred (length l)) with i by lia.
Qed.

Lemma path_rtc l i x y :
  path l → head l = Some x → l !! i = Some y → rtc edge x y.
Proof.
  intros Hl Hx. revert y. induction i as [|i IH]; intros y Hy.
  - destruct l; naive_solver.
  - destruct (lookup_lt_is_Some_2 l i) as [z Hz]; [apply lookup_lt_Some in Hy; lia|].
    eapply rtc_r; [by apply IH|]. by eapply Hl.
Qed.

Lemma topological_snoc l x deps :
  topological l → resolver x = Ok deps → Forall (.∈ l) deps → topological (l ++ [x]).
Proof.
  intros Hl Hx Hd i y Hy. apply lookup_app_Some in Hy as [Hy|[Hi Hy]].
  - destruct (Hl i y Hy) as (ds & ? & Hds). exists ds. split; [done|].
    apply lookup_lt_Some in Hy. rewrite take_app_le by lia. done.
  - apply list_lookup_singleton_Some in Hy as [Hi' <-]. exists deps. split; [done|].
    rewrite take_app_length'; [done|lia].
Qed.

(** The order contains all that is reachable from what it contains. *)
Lemma topological_closed l x y : topological l → x ∈ l → rtc edge x y → y ∈ l.
Proof.
  intros Hl Hx Hxy. induction Hxy as [|x z y (deps & Hd & Hz) _ IH]; [done|].
  apply IH. apply list_elem_of_lookup in Hx as [i Hi].
  destruct (Hl i x Hi) as (deps' & Hd' & Hall). rewrite Hd in Hd'. simplify_eq.
  rewrite Forall_forall in Hall. apply Hall in Hz. by apply elem_of_take in Hz as (? & ?%list_elem_of_lookup_2 & _).
Qed.

(** A step along an edge moves strictly earlier in the order. *)
Lemma topological_tc l i x y :
  topological l → l !! i = Some x → tc edge x y → ∃ j, j < i ∧ l !! j = Some y.
Proof.
  intros Hl Hi Hxy. revert i Hi.
  induction Hxy as [x y (deps & Hd & Hy)|x z y (deps & Hd & Hz) _ IH]; intros i Hi;
    destruct (Hl i x Hi) as (deps' & Hd' & Hall); rewrite Hd in Hd'; simplify_eq;
    rewrite Forall_forall in Hall.
  - apply Hall, elem_of_take in Hy as (j & ? & ?). eauto.
  - apply Hall, elem_of_take in Hz as (j & Hj & ?).
    destruct (IH j Hj) as (k & ? & ?). exists k. split; [lia|done].
Qed.

Lemma is_cycle_tc l : is_cycle l → ∃ x, head l = Some x ∧ tc edge x x.
Proof.
  intros (x & mid & -> & Hp). exists x. split; [done|].
  destruct ((mid ++ [x]) !! 0) as [z|] eqn:Hz; last first.
  { apply lookup_ge_None in Hz. rewrite length_app in Hz. simpl in Hz. lia. }
  eapply tc_rtc_r; [apply tc_once, (Hp 0 x z); done|].
  apply (path_rtc (mid ++ [x]) (length mid)).
  - apply (path_drop 1 _ Hp).
  - by rewrite <-Hz, head_lookup.
  - by rewrite list_lookup_middle.
Qed.

(** ** The traversal invariant *)

Record wf_traversal (t : traversal) : Prop := {
  wf_done : ∀ x, state_of t x = done ↔ x ∈ order t;
  wf_progress : ∀ x, state_of t x = inProgress ↔ x ∈ stack t;
  wf_order_nodup : NoDup (order t);
  wf_stack_nodup : NoDup (stack t);
  wf_order : topological (order t);
  wf_stack : path (stack t);
  wf_calls : ∀ x, x ∈ calls t ↔ x ∈ order t ∨ x ∈ stack t;
}.

Lemma wf_new : wf_traversal NewTraversal.
Proof.
  split; simpl; try (by constructor); try (intros x; set_solver); by intros i x.
Qed.

Lemma state_of_enter t ns x :
  state_of (enter t ns) x = if decide (x = ns) then inProgress else state_of t x.
Proof.
  unfold state_of. simpl. case_decide as Hx.
  - subst. by rewrite lookup_insert_eq.
  - by rewrite lookup_insert_ne.
Qed.

Lemma state_of_leave t ns x :
  state_of (leave t ns) x = if decide (x = ns) then done else state_of t x.
Proof.
  unfold state_of. simpl. case_decide as Hx.
  - subst. by rewrite lookup_insert_eq.
  - by rewrite lookup_insert_ne.
Qed.

Lemma wf_enter t ns :
  wf_traversal t → state_of t ns = unvisited →
  (∀ y, last (stack t) = Some y → edge y ns) → wf_traversal (enter t ns).
Proof.
  intros Hwf Hns Hlast. pose proof (wf_done _ Hwf ns) as Hd.
  pose proof (wf_progress _ Hwf ns) as Hp. destruct Hwf as [Hdone Hprog Hno Hnst Ho Hs Hc].
  split; try done.
  - intros x. rewrite state_of_enter. case_decide; subst; [|apply Hdone]. rewrite Hns in *. split; [done|]. by rewrite <-Hdone, Hns.
  - intros x. rewrite state_of_enter. simpl. rewrite elem_of_app, list_elem_of_singleton.
    case_decide; [tauto|]. rewrite Hprog. tauto.
  - simpl. apply NoDup_app. split_and!; [done| |by apply NoDup_singleton].
    intros x Hx ->%list_elem_of_singleton. apply Hprog in Hx. congruence.
  - simpl. by apply path_snoc.
  - intros x. simpl. rewrite !elem_of_app, Hc. tauto.
Qed.

Lemma wf_leave t st ns deps :
  wf_traversal t → stack t = st ++ [ns] → resolver ns = Ok deps → Forall (.∈ order t) deps →
  wf_traversal (leave t ns) ∧ stack (leave t ns) = st.
Proof.
  intros [Hdone Hprog Hno Hnst Ho Hs Hc] Hst Hr Hd.
  assert (stack (leave t ns) = st) as Hst'.
  { simpl. rewrite Hst, length_app. simpl. rewrite take_app_length'; [done|lia]. }
  assert (ns ∉ st) as Hnin.
  { rewrite Hst in Hnst. apply NoDup_app in Hnst as (_ & Hx & _). set_solver. }
  assert (ns ∉ order t) as Hnord.
  { rewrite <-Hdone. assert (state_of t ns = inProgress) as ->; [|done].
    apply Hprog. rewrite Hst. set_solver. }
  split; [|done]. split.
  - intros x. rewrite state_of_leave. simpl. rewrite elem_of_app, list_elem_of_singleton.
    case_decide; [tauto|]. rewrite Hdone. tauto.
  - intros x. rewrite state_of_leave, Hst'. case_decide as Hx; [by subst|].
    rewrite Hprog, Hst, elem_of_app, list_elem_of_singleton. tauto.
  - simpl. apply NoDup_app. split_and!; [done| |by apply NoDup_singleton]. set_solver.
  - rewrite Hst'. rewrite Hst in Hnst. by apply NoDup_app in Hnst as (? & _).
  - simpl. by eapply topological_snoc.
  - rewrite Hst'. intros i x y Hx Hy. rewrite Hst in Hs.
    by apply (Hs i); apply lookup_app_l_Some.
  - intros x. rewrite Hst'. simpl. rewrite Hc, Hst, !elem_of_app. tauto.
Qed.

Lemma index_of_some x l :
  x ∈ l → ∃ i, index_of x l = Some i ∧ l !! i = Some x.
Proof.
  induction l as [|y l IH]; [by intros ?%elem_of_nil|].
  intros Hx. simpl. case_bool_decide as Hy; [subst; by exists 0|].
  destruct IH as (i & -> & Hi); [set_solver|]. by exists (S i).
Qed.

Lemma buildCycleError_cycle t ns :
  wf_traversal t → state_of t ns = inProgress →
  (∀ y, last (stack t) = Some y → edge y ns) →
  ∃ p, @buildCycleError E t ns = CycleError p ∧ is_cycle p ∧ head p = Some ns ∧ ns ∈ stack t.
Proof.
  intros Hwf Hns Hlast. apply (wf_progress _ Hwf) in Hns as Hin.
  destruct (index_of_some _ _ Hin) as (i & Hi & Hl).
  unfold buildCycleError. rewrite Hi. simpl. eexists. split; [done|].
  apply drop_S in Hl as Hdrop. rewrite Hdrop. simpl. split_and!; [|done|done].
  exists ns, (drop (S i) (stack t)). split; [done|].
  change (ns :: drop (S i) (stack t) ++ [ns]) with ((ns :: drop (S i) (stack t)) ++ [ns]).
  rewrite <-Hdrop. apply path_snoc; [apply path_drop, (wf_stack _ Hwf)|].
  intros y Hy. apply Hlast. rewrite last_lookup in Hy |- *.
  rewrite lookup_drop, length_drop in Hy. apply lookup_lt_Some in Hl.
  rewrite <-Hy. f_equal. lia.
Qed.

(** What a call of [dfs] on [ns] returns. *)
Definition dfs_post (t : traversal) (ns : Namespace) (r : result (dep_error E) traversal) : Prop :=
  match r with
  | Ok t' =>
    wf_traversal t' ∧ stack t' = stack t ∧ ns ∈ order t' ∧
    ∃ new, order t' = order t ++ new ∧ (∀ x, x ∈ new → rtc edge ns x) ∧
      (state_of t ns = unvisited → last new = Some ns)
  | Err (CycleError p) =>
    is_cycle p ∧ ∃ x, head p = Some x ∧ (x ∈ stack t ∨ rtc edge ns x)
  | Err (ResolverError e) => ∃ x, rtc edge ns x ∧ resolver x = Err e
  | Err (ContextError e) => ∃ n, ctx_err n = Some e
  end.

Definition dfs_call (t : traversal) (ns : Namespace) : Prop :=
  wf_traversal t ∧ ∀ y, last (stack t) = Some y → edge y ns.

Lemma dfs_each_sound f t src st deps r :
  (∀ t ns r, dfs_call t ns → f t ns = Some r → dfs_post t ns r) →
  wf_traversal t → stack t = st ++ [src] → (∀ d, d ∈ deps → edge src d) →
  dfs_each f t deps = Some r →
  match r with
  | Ok t' =>
    wf_traversal t' ∧ stack t' = stack t ∧ Forall (.∈ order t') deps ∧
    ∃ new, order t' = order t ++ new ∧ ∀ x, x ∈ new → rtc edge src x
  | Err e => dfs_post t src (Err e)
  end.
Proof.
  intros Hf. revert t. induction deps as [|d deps IH]; intros t Hwf Hst Hdeps H; simpl in H.
  { simplify_eq. split_and!; [done|done|done|]. exists []. split; [by rewrite app_nil_r|].
    intros x ?%elem_of_nil. done. }
  assert (edge src d) as Hsd by (apply Hdeps; set_solver).
  assert (∀ x, rtc edge d x → rtc edge src x) as Htrans by (intros; by eapply rtc_l).
  destruct (f t d) as [r0|] eqn:Hd; [|done]. apply Hf in Hd; last first.
  { split; [done|]. rewrite Hst, last_snoc. by intros ? [= <-]. }
  destruct r0 as [t1|e]; simplify_eq; simpl in Hd.
  - destruct Hd as (Hwf1 & Hst1 & Hin & new & Hord & Hnew & _).
    rewrite <-Hst1 in Hst. apply IH in H; [|done|done|set_solver].
    destruct r as [t'|e].
    + destruct H as (Hwf' & Hst' & Hall & new' & Hord' & Hnew'). split_and!; [done|congruence| |].
      * constructor; [|done]. rewrite Hord'. set_solver.
      * exists (new ++ new'). rewrite Hord', Hord, app_assoc. split; [done|]. set_solver.
    + destruct e; simpl in *; [|done|done]. by rewrite <-Hst1.
  - destruct e; simpl in *; naive_solver.
Qed.

Lemma dfs_sound fuel t ns r : dfs_call t ns → dfs fuel t ns = Some r → dfs_post t ns r.
Proof.
  revert t ns r. induction fuel as [|fuel IH]; intros t ns r [Hwf Hlast] H; [done|].
  simpl in H. destruct (state_of t ns) eqn:Hns.
  2: { simplify_eq. destruct (buildCycleError_cycle t ns Hwf Hns Hlast) as (p & -> & ? & ? & ?).
    simpl. eauto. }
  2: { simplify_eq. simpl. split_and!; [done|done|by apply (wf_done _ Hwf)|].
    exists []. rewrite app_nil_r. split_and!; [done|by intros x ?%elem_of_nil|congruence]. }
  destruct (ctx_err (polls t)) as [e|] eqn:Hc; [simplify_eq; simpl; eauto|].
  destruct (resolver ns) as [deps|e] eqn:Hr; [|simplify_eq; simpl; by exists ns].
  destruct (dfs_each (dfs fuel) (enter t ns) deps) as [r0|] eqn:Hd; [|done].
  apply (dfs_each_sound _ _ ns (stack t)) in Hd;
    [|done|by apply wf_enter|done|by intros d ?; exists deps].
  destruct r0 as [t1|e]; simplify_eq.
  - destruct Hd as (Hwf1 & Hst1 & Hall & new & Hord & Hnew).
    destruct (wf_leave t1 (stack t) ns deps) as [Hwf' Hst']; [done|done|done|done|].
    simpl in Hord. split_and!; [done|done|simpl; set_solver|].
    exists (new ++ [ns]). simpl. rewrite Hord, app_assoc, last_snoc. split_and!; [done| |done].
    intros x Hx. apply elem_of_app in Hx as [Hx|Hx]; [by apply Hnew|].
    apply list_elem_of_singleton in Hx as ->. done.
  - destruct e; simpl in *; [|done|done]. destruct Hd as [? (x & ? & [Hx|?])]; [|naive_solver].
    split; [done|]. exists x. split; [done|]. apply elem_of_app in Hx as [Hx|Hx]; [by left|].
    apply list_elem_of_singleton in Hx as ->. by right.
Qed.

(** ** Termination *)

Definition extends (t t' : traversal) : Prop :=
  ∀ x, state_of t x ≠ unvisited → state_of t' x ≠ unvisited.

#[local] Instance extends_preorder : PreOrder extends.
Proof. split; [by intros t x|]. intros t1 t2 t3 H1 H2 x ?. by apply H2, H1. Qed.

Lemma enter_extends t ns : extends t (enter t ns).
Proof. intros x Hx. rewrite state_of_enter. by case_decide. Qed.

Lemma leave_extends t ns : extends t (leave t ns).
Proof. intros x Hx. rewrite state_of_leave. by case_decide. Qed.

Lemma dfs_each_extends f t deps t' :
  (∀ t ns t', f t ns = Some (Ok t') → extends t t') →
  dfs_each f t deps = Some (Ok t') → extends t t'.
Proof.
  intros Hf. revert t. induction deps as [|d deps IH]; intros t H; simpl in H; simplify_eq.
  { done. }
  destruct (f t d) as [[t1|]|] eqn:Hd; try done. transitivity t1; eauto.
Qed.

Lemma dfs_extends fuel t ns t' : dfs fuel t ns = Some (Ok t') → extends t t'.
Proof.
  revert t ns t'. induction fuel as [|fuel IH]; intros t ns t' H; simpl in H; [done|].
  destruct (state_of t ns); simplify_eq; [|done].
  destruct (ctx_err _); [done|]. destruct (resolver ns) as [deps|]; [|done].
  destruct (dfs_each (dfs fuel) (enter t ns) deps) as [[t1|]|] eqn:Hd; simplify_eq.
  transitivity (enter t ns); [apply enter_extends|].
  transitivity t1; [|apply leave_extends]. by eapply dfs_each_extends.
Qed.

(** A finite set of arrows closed under dependencies, and how many of them
    the traversal has not met. *)
Section bounded.
Context (U : gset Namespace).
Context (U_closed : ∀ x y, x ∈ U → edge x y → y ∈ U).

Definition remaining (t : traversal) : nat :=
  size (filter (λ x, state_of t x = unvisited) U).

Lemma remaining_extends t t' : extends t t' → remaining t' <= remaining t.
Proof.
  intros H. unfold remaining; apply subseteq_size. intros x [Hx ?]%elem_of_filter.
  apply elem_of_filter. split; [|done]. apply dec_stable. intros Hn. by apply (H x Hn).
Qed.

Lemma remaining_enter t ns :
  ns ∈ U → state_of t ns = unvisited → remaining (enter t ns) < remaining t.
Proof.
  intros Hns Hs. unfold remaining; apply subset_size. split.
  - intros x [Hx ?]%elem_of_filter. rewrite state_of_enter in Hx.
    case_decide; [done|]. by apply elem_of_filter.
  - intros Hsub. assert (ns ∈ filter (λ x, state_of t x = unvisited) U) as Hin
      by by apply elem_of_filter.
    apply Hsub, elem_of_filter in Hin as [Hin _].
    rewrite state_of_enter in Hin. by case_decide.
Qed.

Lemma dfs_each_total fuel t deps :
  (∀ t ns, ns ∈ U → remaining t < fuel → is_Some (dfs fuel t ns)) →
  (∀ d, d ∈ deps → d ∈ U) → remaining t < fuel →
  is_Some (dfs_each (dfs fuel) t deps).
Proof.
  intros Hf. revert t. induction deps as [|d deps IH]; intros t Hdeps Ht; simpl; [by eexists|].
  destruct (Hf t d) as [[t1|e] Hd]; [set_solver|done| |]; rewrite Hd; [|by eexists].
  apply IH; [set_solver|]. apply dfs_extends, remaining_extends in Hd. lia.
Qed.

Lemma dfs_total fuel t ns : ns ∈ U → remaining t < fuel → is_Some (dfs fuel t ns).
Proof.
  revert t ns. induction fuel as [|fuel IH]; intros t ns Hns Ht; [lia|]. simpl.
  destruct (state_of t ns) eqn:Hs; [|by eexists..].
  destruct (ctx_err _); [by eexists|]. destruct (resolver ns) as [deps|] eqn:Hr; [|by eexists].
  destruct (dfs_each_total fuel (enter t ns) deps) as [[t1|e] ->].
  - by intros; apply IH.
  - intros d Hd. apply (U_closed ns); [done|]. by exists deps.
  - pose proof (remaining_enter t ns Hns Hs). lia.
  - by eexists.
  - by eexists.
Qed.

Lemma Resolve_total root fuel : root ∈ U → size U < fuel → is_Some (Resolve fuel root).
Proof.
  intros Hroot Hfuel. unfold Resolve.
  destruct (dfs_total fuel NewTraversal root) as [[t|e] ->]; [done| |by eexists..].
  enough (remaining NewTraversal <= size U) by lia.
  unfold remaining; apply subseteq_size. intros x [_ ?]%elem_of_filter. done.
Qed.
End bounded.

Lemma Resolve_post fuel root r :
  Resolve fuel root = Some r →
  match r with
  | Ok l => ∃ t, dfs_post NewTraversal root (Ok t) ∧ l = order t
  | Err e => dfs_post NewTraversal root (Err e)
  end.
Proof.
  unfold Resolve. destruct (dfs fuel NewTraversal root) as [[t|e]|] eqn:Hd; intros; simplify_eq.
  all: apply dfs_sound in Hd; [eauto|split; [apply wf_new|done]].
Qed.

Lemma resolver_calls_order fuel root l :
  Resolve fuel root = Some (Ok l) → ∀ x, x ∈ resolver_calls fuel root ↔ x ∈ l.
Proof.
  unfold Resolve, resolver_calls.
  destruct (dfs fuel NewTraversal root) as [[t|e]|] eqn:Hd; intros; simplify_eq.
  apply dfs_sound in Hd as (Hwf & Hst & _); [|split; [apply wf_new|done]].
  rewrite (wf_calls _ Hwf), Hst. simpl. rewrite elem_of_nil. tauto.
Qed.

Lemma Resolve_order fuel root l :
  Resolve fuel root = Some (Ok l) →
  topological l ∧ NoDup l ∧ last l = Some root ∧ (∀ x, x ∈ l ↔ rtc edge root x).
Proof.
  intros (t & (Hwf & _ & Hin & new & Hord & Hnew & Hlast) & ->)%Resolve_post.
  simpl in Hord. rewrite Hord in *. split_and!.
  - rewrite <-Hord. apply (wf_order _ Hwf).
  - rewrite <-Hord. apply (wf_order_nodup _ Hwf).
  - by apply Hlast.
  - intros x. split; [apply Hnew|]. apply topological_closed; [|done].
    rewrite <-Hord. apply (wf_order _ Hwf).
Qed.

Lemma topological_acyclic l x : topological l → x ∈ l → ¬ tc edge x x.
Proof.
  intros Hl [i Hi]%list_elem_of_lookup Hx.
  revert Hi. induction (lt_wf i) as [i _ IH]. intros Hi.
  destruct (topological_tc l i x x) as (j & ? & ?); [done..|]. by eapply IH.
Qed.
End traverse.

(** C12. A successful resolution is an install order: the arrows reachable from
    the root, each once, every one after all that it depends on, and the root
    last. *)
Theorem resolve_install_order {E} (resolver : Namespace → result E (list Namespace))
  ctx_err fuel root l :
  Resolve resolver ctx_err fuel root = Some (Ok l) →
  NoDup l ∧ last l = Some root ∧ (∀ x, x ∈ l ↔ rtc (edge resolver) root x) ∧
  ∀ i x, l !! i = Some x → ∃ deps, resolver x = Ok deps ∧ Forall (.∈ take i l) deps.
Proof. intros (? & ? & ? & ?)%Resolve_order. by split_and!. Qed.

(** C11. Resolution always ends, with fuel for one more call than the arrows
    there are to visit, and its verdict is right: it succeeds only when
    everything reachable resolves and nothing reachable depends on itself; a
    cycle it reports is one, and reachable; an error it passes on is the
    resolver's for a reachable arrow or the context's.  So with a context that
    stays live and a resolver that answers for every reachable arrow, it fails
    exactly on a cyclic graph. *)
Theorem resolve_verdict {E} (resolver : Namespace → result E (list Namespace))
  ctx_err (U : gset Namespace) fuel root :
  root ∈ U → (∀ x y, x ∈ U → edge resolver x y → y ∈ U) → size U < fuel →
  ∃ r, Resolve resolver ctx_err fuel root = Some r ∧
  match r with
  | Ok _ => ∀ x, rtc (edge resolver) root x →
      ¬ tc (edge resolver) x x ∧ is_ok (resolver x) = true
  | Err (CycleError p) => is_cycle resolver p ∧
      ∃ x, head p = Some x ∧ rtc (edge resolver) root x ∧ tc (edge resolver) x x
  | Err (ResolverError e) => ∃ x, rtc (edge resolver) root x ∧ resolver x = Err e
  | Err (ContextError e) => ∃ n, ctx_err n = Some e
  end.
Proof.
  intros Hroot HU Hfuel.
  destruct (Resolve_total resolver ctx_err U HU root fuel Hroot Hfuel) as [r Hr].
  exists r. split; [done|]. destruct r as [l|e].
  - apply Resolve_order in Hr as (Htop & _ & _ & Hin). intros x Hx. apply Hin in Hx as Hl. split.
    + by eapply topological_acyclic.
    + apply list_elem_of_lookup in Hl as [i Hi].
      by destruct (Htop i x Hi) as (deps & -> & _).
  - apply Resolve_post in Hr. destruct e; simpl in Hr; [|done|done].
    destruct Hr as [Hcyc (x & Hh & [Hx|Hx])]; [by apply elem_of_nil in Hx|].
    split; [done|]. exists x. split_and!; [done|done|].
    apply is_cycle_tc in Hcyc as (y & Hy & Ht). congruence.
Qed.

(** A diamond, and a cycle below the root *)
Definition diamond (ns : Namespace) : result string (list Namespace) :=
  if String.eqb ns "app" then Ok ["db"; "web"]
  else if String.eqb ns "web" then Ok ["db"; "rt"]
  else if String.eqb ns "db" then Ok ["rt"]
  else Ok [].

Definition looped (ns : Namespace) : result string (list Namespace) :=
  if String.eqb ns "app" then Ok ["a"]
  else if String.eqb ns "a" then Ok ["b"]
  else if String.eqb ns "b" then Ok ["c"; "a"]
  else Ok [].

Lemma resolve_install_order_witness :
  Resolve diamond (λ _, None) 5 "app" = Some (Ok ["rt"; "db"; "web"; "app"]) ∧
  NoDup ["rt"; "db"; "web"; "app" : Namespace].
Proof.
  split; [reflexivity|].
  apply (resolve_install_order diamond (λ _, None) 5 "app"). reflexivity.
Defined.

Lemma looped_closed (x y : Namespace) :
  x ∈ ({[ "app"; "a"; "b"; "c" ]} : gset Namespace) → edge looped x y →
  y ∈ ({[ "app"; "a"; "b"; "c" ]} : gset Namespace).
Proof.
  intros Hx (deps & Hd & Hy). rewrite !elem_of_union, !elem_of_singleton in Hx.
  destruct Hx as [[[->| ->]| ->]| ->]; injection Hd as <-; set_solver.
Qed.

Lemma resolve_verdict_witness :
  Resolve looped (λ _, None) 5 "app" = Some (Err (CycleError ["a"; "b"; "a"])) ∧
  is_cycle looped ["a"; "b"; "a"].
Proof.
  split; [reflexivity|].
  destruct (resolve_verdict looped (λ _, None) {[ "app"; "a"; "b"; "c" ]} 5 "app")
    as (r & Hr & Hpost).
  - set_solver.
  - apply looped_closed.
  - vm_compute. lia.
  - injection Hr as <-. apply Hpost.
Defined.
