(* ===== verification/Channels.v ===== *)
(** * Tags and release channels
    (internal/engine/manifold/resolver/resolvers: channel.go, constraint.go,
    newest_first.go)

    How a tag is split into prefix, version core and suffix, which channel it
    belongs to, how the tags of a channel are ordered, and which tag a glob
    constraint picks.  A Go map of tags or channels is enumerated in no fixed
    order; the theorems on permutations show that the order does not matter.
    Tags are ASCII. *)

From S2P Require Import Prelude GoStrings GoPath GoRegexp Domain.

Definition StableChannel := "stable".

(** ** The patterns *)

Definition is_sep (c : ascii) : bool :=
  Ascii.eqb c "-" || Ascii.eqb c "_" || Ascii.eqb c ".".

Definition is_suffix_byte (c : ascii) : bool := is_alpha c || is_digit c || is_sep c.

(** [[-_.]?[A-Za-z][A-Za-z0-9._-]*|[-_.]?\d+] *)
Definition suffix_pattern : re :=
  RAlt (RSeq (ROpt (RByte is_sep)) (RSeq (RByte is_alpha) (RStar true (RByte is_suffix_byte))))
       (RSeq (ROpt (RByte is_sep)) (RPlus RDigit)).

(** [^(.*?)(\d+(?:\.\d+){1,2})(suffix)?$] *)
Definition tagPatternWithOrdinalSuffix : re :=
  let part := RSeq (RChar ".") (RPlus RDigit) in
  RSeq (RGroup 1 (RStar false RAny))
    (RSeq (RGroup 2 (RSeq (RPlus RDigit) (RSeq part (ROpt part))))
      (ROpt (RGroup 3 suffix_pattern))).

(** [^(.*?)(\d{4})-(\d{1,2})-(\d{1,2})(?:\.(\d+))?(suffix)?$] *)
Definition tagPatternWithDateCore : re :=
  let two := RSeq RDigit (ROpt RDigit) in
  RSeq (RGroup 1 (RStar false RAny))
    (RSeq (RGroup 2 (RRepeat 4 RDigit))
      (RSeq (RChar "-") (RSeq (RGroup 3 two)
        (RSeq (RChar "-") (RSeq (RGroup 4 two)
          (RSeq (ROpt (RSeq (RChar ".") (RGroup 5 (RPlus RDigit))))
            (ROpt (RGroup 6 suffix_pattern)))))))).

(** [^([A-Za-z]+)(?:[-_.]?(\d+))?$] *)
Definition channelSuffixPattern : re :=
  RSeq (RGroup 1 (RPlus (RByte is_alpha)))
    (ROpt (RSeq (ROpt (RByte is_sep)) (RGroup 2 (RPlus RDigit)))).

Definition dateEpoch : Z := 2000.

(** ** Splitting a tag *)

Definition knownChannels : list string :=
  ["alpha"; "beta"; "canary"; "dev"; "edge"; "hotfix"; "insiders"; "next"; "nightly"; "preview";
   "rc"; StableChannel].

Definition isKnownChannel (prefix : string) : bool := bool_decide (prefix ∈ knownChannels).

Definition normalizeVersionPrefix (prefix : string) : string :=
  let trimmed := trim_right is_sep prefix in
  if equal_fold trimmed "v" then "" else to_lower trimmed.

Definition validDate (year month day : string) : bool :=
  let y := fst (atoi year) in
  let m := fst (atoi month) in
  let d := fst (atoi day) in
  Z.leb dateEpoch y && Z.ltb y (dateEpoch + 100) && Z.leb 1 m && Z.leb m 12 && Z.leb 1 d &&
  Z.leb d 31.

Definition dateCore (year month day patch : string) : string :=
  let y := (fst (atoi year) - dateEpoch)%Z in
  let patch := if String.eqb patch "" then "0" else patch in
  itoa y +:+ "." +:+ month +:+ "." +:+ day +:+ "." +:+ patch.

Definition isDateCore (core : string) : bool := Nat.eqb (count_byte "." core) 3.

(** The prefix, core and suffix of a tag; [None] is [ok == false]. *)
Definition parseTagFull (tag : string) : option (string * string * string) :=
  let dated :=
    match full_match tagPatternWithDateCore tag with
    | Some m =>
      if isKnownChannel (normalizeVersionPrefix (group 1 m)) &&
         validDate (group 2 m) (group 3 m) (group 4 m)
      then Some (group 1 m, dateCore (group 2 m) (group 3 m) (group 4 m) (group 5 m),
                 trim_left is_sep (group 6 m))
      else None
    | None => None
    end in
  match dated with
  | Some r => Some r
  | None =>
    match full_match tagPatternWithOrdinalSuffix tag with
    | Some m => Some (group 1 m, group 2 m, trim_left is_sep (group 3 m))
    | None => None
    end
  end.

Definition HasVersionCore (tag : string) : bool :=
  match parseTagFull tag with Some _ => true | None => false end.

(** The name and the ordinal of a suffix; [hasOrdinal] last. *)
Definition ClassifyChannel (suffix : string) : string * Z * bool :=
  match full_match channelSuffixPattern suffix with
  | None => (to_lower suffix, 0%Z, false)
  | Some m =>
    if String.eqb (group 2 m) "" then (to_lower (group 1 m), 0%Z, false)
    else (to_lower (group 1 m), fst (atoi (group 2 m)), true)
  end.

(** ** Version cores *)

(** [[4]int] *)
Record Core := mkCore { core0 : Z; core1 : Z; core2 : Z; core3 : Z }.

Definition semverParts (tag : string) : Core :=
  let parts := split_byte "." (trim_prefix tag "v") in
  let out i := match parts !! i with Some p => fst (atoi p) | None => 0%Z end in
  mkCore (out 0) (out 1) (out 2) (out 3).

Definition compareCores (a b : Core) : comparison :=
  cmp_then (Z.compare (core0 a) (core0 b))
    (cmp_then (Z.compare (core1 a) (core1 b))
      (cmp_then (Z.compare (core2 a) (core2 b)) (Z.compare (core3 a) (core3 b)))).

Fixpoint all_nonneg (parts : list string) : bool :=
  match parts with
  | [] => true
  | p :: parts' =>
    match atoi p with
    | (n, None) => if Z.ltb n 0 then false else all_nonneg parts'
    | (_, Some _) => false
    end
  end.

Definition IsStableSemver (tag : string) : bool :=
  let parts := split_byte "." (trim_prefix tag "v") in
  if (Nat.ltb (length parts) 2 || Nat.ltb 3 (length parts)) then false else all_nonneg parts.

(** ** Classification *)

Record classifiedTag := mkClassified {
  tag : string;
  channel : string;
  core : Core;
  ordinal : Z;
  dated : bool;
  tier : Z;
}.

Definition calendarMajor : Z := 20.

Definition set_tier (c : classifiedTag) (t : Z) : classifiedTag :=
  mkClassified (tag c) (channel c) (core c) (ordinal c) (dated c) t.

Definition tierAgainstDates (members : list classifiedTag) : list classifiedTag :=
  if negb (existsb dated members) then members
  else if existsb (λ c, negb (dated c) && Z.leb calendarMajor (core0 (core c))) members
  then members
  else map (λ c, if dated c then c else set_tier c 1) members.

Definition classifyByPrefix (prefix : string) (prefixIsMeaningful : bool) (ordinal : Z)
  : string * Z :=
  if negb (String.eqb prefix "") && (prefixIsMeaningful || isKnownChannel prefix)
  then (prefix, ordinal) else (StableChannel, ordinal).

Definition classifyOne (suffix prefix : string) (prefixIsMeaningful : bool) : string * Z :=
  if String.eqb suffix "" then classifyByPrefix prefix prefixIsMeaningful 0
  else match atoi suffix with
       | (n, None) => classifyByPrefix prefix prefixIsMeaningful n
       | (_, Some _) => let '(name, ord, _) := ClassifyChannel suffix in (name, ord)
       end.

(** The classification of one tag, [prefixIsMeaningful] known *)
Definition classify (prefixIsMeaningful : bool) (t : string) : option classifiedTag :=
  match parseTagFull t with
  | None => None
  | Some (prefix, core, suffix) =>
    let '(channel, ordinal) :=
      classifyOne suffix (normalizeVersionPrefix prefix) prefixIsMeaningful in
    Some (mkClassified t channel (semverParts core) ordinal (isDateCore core) 0)
  end.

Definition rankOf (tag : string) : option classifiedTag := classify false tag.

(** The prefixes of a tag set that are not channel words *)
Definition prefixValues (tags : list string) : gset string :=
  list_to_set (omap (λ t,
    match parseTagFull t with
    | Some (prefix, _, _) =>
      let norm := normalizeVersionPrefix prefix in
      if isKnownChannel norm then None else Some norm
    | None => None
    end) tags).

Definition classifyAll (tags : list string) : list classifiedTag :=
  let prefixIsMeaningful := Nat.ltb 1 (size (prefixValues tags)) in
  omap (classify prefixIsMeaningful) tags.

(** Highest precedence first *)
Definition compareClassified (a b : classifiedTag) : comparison :=
  cmp_then (Z.compare (tier b) (tier a))
    (cmp_then (compareCores (core b) (core a))
      (cmp_then (Z.compare (ordinal b) (ordinal a)) (String.compare (tag b) (tag a)))).

(** ** Comparing two tags *)

Definition is_lt (c : comparison) : bool := match c with Lt => true | _ => false end.

Definition Outranks (a b : string) : bool :=
  match rankOf a, rankOf b with
  | Some rankA, Some rankB =>
    if negb (String.eqb (channel rankA) (channel rankB)) then false
    else match tierAgainstDates [rankA; rankB] with
         | [a'; b'] => is_lt (compareClassified a' b')
         | _ => false
         end
  | _, _ => false
  end.

(** ** Ordered channels *)

Record TagChannel := mkTagChannel {
  Name : string;
  Members : list string;
}.

(** [byChannel[name]]: in the order the tags were classified. *)
Definition byChannel (tags : list string) (name : string) : list classifiedTag :=
  filter (λ c, channel c = name) (classifyAll tags).

(** [slices.Sorted(maps.Keys(byChannel))] *)
Definition channel_names (tags : list string) : list string :=
  sort_func String.compare (remove_dups (map channel (classifyAll tags))).

Definition GroupChannels (tags : list string) : list TagChannel :=
  map (λ name,
    mkTagChannel name
      (map tag (sort_func compareClassified (tierAgainstDates (byChannel tags name)))))
    (channel_names tags).

Fixpoint find_channel (channels : list TagChannel) (channel : string) : list string :=
  match channels with
  | [] => []
  | c :: channels' =>
    if String.eqb (Name c) channel then Members c else find_channel channels' channel
  end.

Definition SortInChannel (tags : list string) (channel : string) : list string :=
  find_channel (GroupChannels tags) channel.

Definition ChannelsPresent (tags : list string) : list string := map Name (GroupChannels tags).

(** ** Constraints *)

Definition sortLexDesc (tags : list string) : list string :=
  sort_func (λ a b, String.compare b a) tags.

Definition compareSemver (a b : string) : comparison :=
  cmp_then (compareCores (semverParts b) (semverParts a)) (String.compare b a).

Definition channelWordTag (tag : string) : option classifiedTag :=
  match parseTagFull tag with
  | None => None
  | Some (prefix, _, _) =>
    if isKnownChannel (normalizeVersionPrefix prefix) then rankOf tag else None
  end.

(** The loop of [sortTagsDesc]: the tags split in three, in order. *)
Fixpoint partition_tags (tags : list string)
  : list string * list classifiedTag * list string :=
  match tags with
  | [] => ([], [], [])
  | t :: tags' =>
    let '(semver, channelled, rest) := partition_tags tags' in
    if IsStableSemver t then (t :: semver, channelled, rest)
    else match channelWordTag t with
         | Some c => (semver, c :: channelled, rest)
         | None => (semver, channelled, t :: rest)
         end
  end.

Definition sortTagsDesc (tags : list string) : list string :=
  let '(semver, channelled, rest) := partition_tags tags in
  match semver, channelled with
  | [], [] => sortLexDesc tags
  | _, _ =>
    sort_func compareSemver semver ++
    map tag (sort_func compareClassified (tierAgainstDates channelled)) ++
    sortLexDesc rest
  end.

(** The loop that keeps the tags that match; the first error stops it. *)
Fixpoint matching (pattern : string) (tags : list string) : result bad_pattern (list string) :=
  match tags with
  | [] => Ok []
  | t :: tags' =>
    let? ok := path_match pattern t in
    let? matched := matching pattern tags' in
    Ok (if ok : bool then t :: matched else matched)
  end.

Definition HighestMatch (tags : list string) (pattern : string)
  : result bad_pattern (option string) :=
  let? matched := matching pattern tags in
  match matched with
  | [] => Ok None
  | _ => Ok (head (sortTagsDesc matched))
  end.

Definition ConstraintOutranks (a b : string) : bool :=
  match sortTagsDesc [b; a] with
  | t :: _ => String.eqb t a && negb (String.eqb a b)
  | [] => false
  end.

(** ** Listed channels (models/channel.go, newest_first.go) *)

Inductive channel_kind := KindOrdered | KindPointer.

#[export] Instance channel_kind_eq_dec : EqDecision channel_kind.
Proof. solve_decision. Defined.

Record ChannelInfo := mkChannelInfo {
  ChannelName : string;
  Kind : channel_kind;
  Latest : string;
  Count : nat;
  ChannelMembers : list string;
  IsDefaultBranchFallback : bool;
}.

Definition is_ordered (c : ChannelInfo) : bool := bool_decide (Kind c = KindOrdered).

Definition coreOf (tag : string) : Core :=
  match parseTagFull tag with
  | Some (_, core, _) => semverParts core
  | None => semverParts ""
  end.

Definition newerThan (a b : ChannelInfo) : comparison :=
  match is_ordered a, is_ordered b with
  | true, false => Lt
  | false, true => Gt
  | false, false => Eq
  | true, true => compareCores (coreOf (Latest b)) (coreOf (Latest a))
  end.

Definition NewestFirst (channels : list ChannelInfo) : list ChannelInfo :=
  sort_func newerThan channels.

(** ** Order *)

#[export] Instance total_cmp_cores : TotalCmp compareCores.
Proof.
  unfold compareCores.
  apply total_cmp_then; [apply (total_cmp_on core0 Z.compare), _|].
  apply total_cmp_then; [apply (total_cmp_on core1 Z.compare), _|].
  apply total_cmp_then; [apply (total_cmp_on core2 Z.compare), _|].
  apply (total_cmp_on core3 Z.compare), _.
Qed.

#[export] Instance total_cmp_classified : TotalCmp compareClassified.
Proof.
  unfold compareClassified.
  apply total_cmp_then; [apply (total_cmp_on tier (λ x y, Z.compare y x)), total_cmp_flip, _|].
  apply total_cmp_then; [apply (total_cmp_on core (λ x y, compareCores y x)), total_cmp_flip, _|].
  apply total_cmp_then; [apply (total_cmp_on ordinal (λ x y, Z.compare y x)), total_cmp_flip, _|].
  apply (total_cmp_on tag (λ x y, String.compare y x)), total_cmp_flip, _.
Qed.

#[export] Instance total_cmp_semver : TotalCmp compareSemver.
Proof.
  unfold compareSemver.
  apply total_cmp_then; [|apply (total_cmp_flip String.compare), _].
  apply (total_cmp_on semverParts (λ x y, compareCores y x)), total_cmp_flip, _.
Qed.

Lemma cmp_then_eq c d : cmp_then c d = Eq ↔ c = Eq ∧ d = Eq.
Proof. destruct c; naive_solver. Qed.

Lemma compareClassified_tag a b : compareClassified a b = Eq → tag a = tag b.
Proof.
  unfold compareClassified. rewrite !cmp_then_eq. intros (_ & _ & _ & H).
  apply (cmp_eq String.compare) in H. done.
Qed.

#[export] Instance strict_cmp_semver : StrictCmp compareSemver.
Proof.
  split; [apply total_cmp_semver|]. intros x y. unfold compareSemver. rewrite cmp_then_eq.
  intros [_ H]. by apply (cmp_eq String.compare) in H.
Qed.

#[export] Instance strict_cmp_string_flip : StrictCmp (λ a b, String.compare b a).
Proof.
  split; [apply (total_cmp_flip String.compare), _|].
  intros x y H. by apply (cmp_eq String.compare) in H.
Qed.

Lemma compareCores_eq a b : compareCores a b = Eq → a = b.
Proof.
  destruct a, b. unfold compareCores. rewrite !cmp_then_eq, !Z.compare_eq_iff. simpl.
  naive_solver.
Qed.

Lemma newerThan_antisym a b : newerThan b a = CompOpp (newerThan a b).
Proof.
  unfold newerThan. destruct (is_ordered a), (is_ordered b); try done.
  apply (cmp_antisym compareCores).
Qed.

#[export] Instance total_cmp_newer : TotalCmp newerThan.
Proof.
  split; [intros; apply newerThan_antisym|].
  intros x y z. unfold newerThan.
  destruct (is_ordered x), (is_ordered y), (is_ordered z); try done.
  intros H1 H2. exact (cmp_trans compareCores _ _ _ H2 H1).
Qed.

(** ** Classification *)

Lemma classify_tag m t c : classify m t = Some c → tag c = t ∧ tier c = 0%Z.
Proof. unfold classify. intros H. repeat case_hyp H. done. Qed.

Lemma classify_is_Some m t : is_Some (classify m t) ↔ HasVersionCore t = true.
Proof.
  unfold classify, HasVersionCore. destruct (parseTagFull t) as [[[p c] s]|].
  - destruct (classifyOne s (normalizeVersionPrefix p) m). naive_solver.
  - split; [by intros []|done].
Qed.

Definition meaningful (tags : list string) : bool := Nat.ltb 1 (size (prefixValues tags)).

Lemma elem_of_classifyAll tags c :
  c ∈ classifyAll tags ↔ ∃ t, t ∈ tags ∧ classify (meaningful tags) t = Some c.
Proof.
  unfold classifyAll. rewrite list_elem_of_omap. fold (meaningful tags). naive_solver.
Qed.

(** In one classified set, the tag says the rest. *)
Lemma classifyAll_functional tags c d :
  c ∈ classifyAll tags → d ∈ classifyAll tags → tag c = tag d → c = d.
Proof.
  rewrite !elem_of_classifyAll. intros (t & _ & Ht) (u & _ & Hu) Heq.
  apply classify_tag in Ht as Ht'. apply classify_tag in Hu as Hu'.
  assert (t = u) as -> by (destruct Ht', Hu'; congruence). congruence.
Qed.

Lemma classifyAll_tags tags :
  map tag (classifyAll tags) = filter (λ t, HasVersionCore t = true) tags.
Proof.
  unfold classifyAll. fold (meaningful tags). generalize (meaningful tags). intros m.
  induction tags as [|t tags IH]; [done|]. cbn [omap list_omap].
  rewrite filter_cons. destruct (classify m t) as [c|] eqn:Hc.
  - rewrite decide_True by (apply (classify_is_Some m); eauto).
    simpl. rewrite IH. f_equal. by apply classify_tag in Hc as [-> _].
  - rewrite decide_False; [done|]. rewrite <-(classify_is_Some m), Hc. by intros [].
Qed.

Lemma tierAgainstDates_tags l : map tag (tierAgainstDates l) = map tag l.
Proof.
  unfold tierAgainstDates. repeat case_match; try done.
  rewrite map_map. apply map_ext. intros c. by destruct (dated c).
Qed.

(** A tiered member is a member, in the tier its kind has. *)
Lemma elem_of_tierAgainstDates l c :
  c ∈ tierAgainstDates l → ∃ d, d ∈ l ∧ tag c = tag d ∧ core c = core d ∧
    ordinal c = ordinal d ∧ channel c = channel d ∧ dated c = dated d ∧ (c = d ∨ c = set_tier d 1).
Proof.
  unfold tierAgainstDates. intros H. repeat case_hyp H; try (exists c; by split_and!; auto).
  apply list_elem_of_fmap in H as (d & -> & Hd). exists d.
  destruct (dated d) eqn:Hdated; simpl; by split_and!; auto.
Qed.

(** The tier is a function of the member, given the list. *)
Lemma tierAgainstDates_functional l c d :
  (∀ x y, x ∈ l → y ∈ l → tag x = tag y → x = y) →
  c ∈ tierAgainstDates l → d ∈ tierAgainstDates l → tag c = tag d → c = d.
Proof.
  intros Hl. unfold tierAgainstDates. repeat case_match; [by apply Hl..|].
  intros (x & -> & Hx)%list_elem_of_fmap (y & -> & Hy)%list_elem_of_fmap Heq.
  assert (x = y) as ->; [|done]. apply Hl; [done|done|].
  by destruct (dated x), (dated y).
Qed.

Lemma existsb_permutation {A} (f : A → bool) l l' : l ≡ₚ l' → existsb f l = existsb f l'.
Proof.
  induction 1; simpl; [done|by f_equal| |congruence]. rewrite !orb_assoc. f_equal. apply orb_comm.
Qed.

Lemma tierAgainstDates_permutation l l' : l ≡ₚ l' → tierAgainstDates l ≡ₚ tierAgainstDates l'.
Proof.
  intros Hp. unfold tierAgainstDates.
  rewrite (existsb_permutation _ _ _ Hp), (existsb_permutation _ _ _ Hp).
  repeat case_match; [done..|]. by apply Permutation_map.
Qed.

Lemma prefixValues_permutation tags tags' : tags ≡ₚ tags' → prefixValues tags = prefixValues tags'.
Proof. intros Hp. unfold prefixValues. apply list_to_set_perm_L. by rewrite Hp. Qed.

Lemma classifyAll_permutation tags tags' :
  tags ≡ₚ tags' → classifyAll tags ≡ₚ classifyAll tags'.
Proof.
  intros Hp. unfold classifyAll. rewrite (prefixValues_permutation _ _ Hp). by rewrite Hp.
Qed.

(** ** Grouping *)

Lemma byChannel_functional tags name x y :
  x ∈ byChannel tags name → y ∈ byChannel tags name → tag x = tag y → x = y.
Proof.
  unfold byChannel. intros [_ Hx]%list_elem_of_filter [_ Hy]%list_elem_of_filter.
  by apply (classifyAll_functional tags).
Qed.

Lemma channel_names_permutation tags tags' :
  tags ≡ₚ tags' → channel_names tags = channel_names tags'.
Proof.
  intros Hp. apply (sort_func_permutation String.compare).
  apply NoDup_Permutation; [apply NoDup_remove_dups..|].
  intros x. rewrite !elem_of_remove_dups. by rewrite (classifyAll_permutation _ _ Hp).
Qed.

Lemma sorted_members_permutation tags tags' name :
  tags ≡ₚ tags' →
  sort_func compareClassified (tierAgainstDates (byChannel tags name)) =
  sort_func compareClassified (tierAgainstDates (byChannel tags' name)).
Proof.
  intros Hp. apply (sort_func_permutation_on compareClassified).
  - intros x y Hx Hy Heq%compareClassified_tag.
    eapply tierAgainstDates_functional; [|done..]. apply byChannel_functional.
  - apply tierAgainstDates_permutation. unfold byChannel.
    by rewrite (classifyAll_permutation _ _ Hp).
Qed.

Lemma elem_of_channel_names tags name :
  name ∈ channel_names tags ↔ ∃ c, c ∈ classifyAll tags ∧ channel c = name.
Proof.
  unfold channel_names. rewrite elem_of_sort_func, elem_of_remove_dups, list_elem_of_fmap.
  naive_solver.
Qed.

Lemma channel_names_nodup tags : NoDup (channel_names tags).
Proof. unfold channel_names. rewrite sort_func_perm. apply NoDup_remove_dups. Qed.

(** Buckets by distinct keys that cover a list permute it. *)
Lemma buckets_permutation {A} (key : A → string) (names : list string) (l : list A) :
  NoDup names → (∀ x, x ∈ l → key x ∈ names) →
  concat (map (λ n, filter (λ x, key x = n) l) names) ≡ₚ l.
Proof.
  intros Hn. revert l. induction Hn as [|n names Hnin Hn IH]; intros l Hl; simpl.
  { destruct l as [|x l]; [done|]. exfalso. by apply (not_elem_of_nil (key x)), Hl, list_elem_of_here. }
  assert (∀ names', n ∉ names' →
    map (λ n0, filter (λ x, key x = n0) l) names' =
    map (λ n0, filter (λ x, key x = n0) (filter (λ x, key x ≠ n) l)) names') as Hmap.
  { intros names' Hn'. apply map_ext_in. intros m Hm%list_elem_of_In.
    rewrite list_filter_filter. apply list_filter_iff. intros x. set_solver. }
  rewrite Hmap by done. rewrite IH.
  - clear. induction l as [|x l IH]; [done|]. rewrite !filter_cons.
    destruct (decide (key x = n)).
    + rewrite decide_False by naive_solver. simpl. by rewrite IH.
    + rewrite decide_True by done. by rewrite <-Permutation_middle, IH.
  - intros x [Hx Hin]%list_elem_of_filter. apply Hl, elem_of_cons in Hin as [?|?]; [done|done].
Qed.

Lemma GroupChannels_members tags c :
  c ∈ GroupChannels tags →
  Name c ∈ channel_names tags ∧
  Members c = map tag (sort_func compareClassified (tierAgainstDates (byChannel tags (Name c)))).
Proof. unfold GroupChannels. by intros (name & -> & Hname)%list_elem_of_fmap. Qed.

Lemma Members_permutation tags c :
  c ∈ GroupChannels tags → Members c ≡ₚ map tag (byChannel tags (Name c)).
Proof.
  intros [_ ->]%GroupChannels_members.
  by rewrite (sort_func_perm compareClassified), tierAgainstDates_tags.
Qed.

Lemma group_not_empty tags c : c ∈ GroupChannels tags → Members c ≠ [].
Proof.
  intros Hc. pose proof (Members_permutation tags c Hc) as Hm.
  apply GroupChannels_members in Hc as [(d & Hd & Hch)%elem_of_channel_names _].
  intros Hnil. rewrite Hnil in Hm. apply Permutation_nil, map_eq_nil in Hm.
  apply (not_elem_of_nil d). rewrite <-Hm. unfold byChannel. by apply list_elem_of_filter.
Qed.

Lemma group_member tags c t :
  c ∈ GroupChannels tags → t ∈ Members c →
  t ∈ tags ∧ channel <$> classify (meaningful tags) t = Some (Name c).
Proof.
  intros Hc. rewrite (Members_permutation tags c Hc).
  intros (d & -> & Hd)%list_elem_of_fmap.
  apply list_elem_of_filter in Hd as [Hch Hd].
  apply elem_of_classifyAll in Hd as (u & Hu & Hcl).
  apply classify_tag in Hcl as Htag. destruct Htag as [-> _]. split; [done|].
  rewrite Hcl. simpl. by rewrite Hch.
Qed.

(** A tag is in one group. *)
Lemma group_unique tags c d t :
  c ∈ GroupChannels tags → d ∈ GroupChannels tags → t ∈ Members c → t ∈ Members d → c = d.
Proof.
  intros Hc Hd Htc Htd. pose proof (group_member tags c t Hc Htc) as [_ H1].
  pose proof (group_member tags d t Hd Htd) as [_ H2].
  apply GroupChannels_members in Hc as [_ Hc]. apply GroupChannels_members in Hd as [_ Hd].
  destruct c as [n ms], d as [n' ms']. simpl in *. congruence.
Qed.

Lemma groups_cover tags :
  concat (map Members (GroupChannels tags)) ≡ₚ filter (λ t, HasVersionCore t = true) tags.
Proof.
  transitivity (map tag (concat (map (byChannel tags) (channel_names tags)))).
  - rewrite concat_map. unfold GroupChannels. rewrite !map_map. simpl.
    induction (channel_names tags) as [|n names IH]; simpl; [done|].
    rewrite IH. apply Permutation_app_tail.
    by rewrite (sort_func_perm compareClassified), tierAgainstDates_tags.
  - rewrite <-classifyAll_tags. apply Permutation_map, buckets_permutation.
    + apply channel_names_nodup.
    + intros c Hc. apply elem_of_channel_names. eauto.
Qed.

(** Grouping partitions the tags: every tag that carries a version or date
    core, and no other, appears in exactly one channel and as often as it was
    given; channels are listed strictly in alphabetical order and none is
    empty; and a member is listed under the channel it is classified in. *)
Lemma group_channels_partition tags :
  concat (map Members (GroupChannels tags)) ≡ₚ filter (λ t, HasVersionCore t = true) tags ∧
  StronglySorted (λ a b, String.compare a b = Lt) (map Name (GroupChannels tags)) ∧
  ∀ c, c ∈ GroupChannels tags → Members c ≠ [] ∧
    ∀ t, t ∈ Members c → t ∈ tags ∧
      channel <$> classify (meaningful tags) t = Some (Name c).
Proof.
  split_and!; [apply groups_cover| |].
  - assert (map Name (GroupChannels tags) = channel_names tags) as ->.
    { unfold GroupChannels. rewrite map_map. apply map_id. }
    apply (StronglySorted_strict String.compare); [apply sort_func_sorted, _|apply channel_names_nodup].
  - intros c Hc. split; [by eapply group_not_empty|]. intros t. by eapply group_member.
Qed.

(** Grouping does not depend on the order the tags are listed in. *)
Theorem group_channels_order_independent tags tags' :
  tags ≡ₚ tags' → GroupChannels tags = GroupChannels tags'.
Proof.
  intros Hp. unfold GroupChannels. rewrite (channel_names_permutation _ _ Hp).
  apply map_ext. intros name. by rewrite (sorted_members_permutation _ _ name Hp).
Qed.

Lemma group_channels_order_independent_witness :
  GroupChannels ["v1.2.0"; "stable-2026-09-27"; "v1.10.0-rc.2"; "v1.10.0-rc.10"] =
  GroupChannels ["v1.10.0-rc.10"; "v1.2.0"; "v1.10.0-rc.2"; "stable-2026-09-27"].
Proof.
  apply group_channels_order_independent.
  transitivity ["v1.10.0-rc.10"; "v1.2.0"; "stable-2026-09-27"; "v1.10.0-rc.2"].
  - apply (Permutation_app_comm ["v1.2.0"; "stable-2026-09-27"; "v1.10.0-rc.2"] ["v1.10.0-rc.10"]).
  - do 2 constructor. constructor.
Defined.

(** ** Comparing tags out of their set *)

(** What a tag is classified as does not depend on its set, but for the name of
    its channel. *)
Lemma classify_rank m m' t c d :
  classify m t = Some c → classify m' t = Some d → compareClassified c d = Eq ∧ dated c = dated d.
Proof.
  unfold classify. destruct (parseTagFull t) as [[[p cr] s]|]; [|done].
  destruct (classifyOne s _ m) as [ch ord] eqn:H1.
  destruct (classifyOne s _ m') as [ch' ord'] eqn:H2.
  intros [= <-] [= <-]. split; [|done]. unfold compareClassified. simpl.
  rewrite (cmp_refl compareCores), (cmp_refl String.compare).
  assert (ord = ord') as ->; [|by rewrite Z.compare_refl].
  unfold classifyOne, classifyByPrefix in *. repeat case_match; by simplify_eq.
Qed.

Lemma tierAgainstDates_undated l :
  (∀ c, c ∈ l → dated c = false) → tierAgainstDates l = l.
Proof.
  intros H. unfold tierAgainstDates. assert (existsb dated l = false) as ->; [|done].
  induction l as [|c l IH]; [done|]. simpl. rewrite H by set_solver. apply IH. set_solver.
Qed.

(** Without dates, [Outranks] is the order of the classified tags. *)
Lemma Outranks_undated a b c d :
  rankOf a = Some c → rankOf b = Some d → channel c = channel d →
  dated c = false → dated d = false → Outranks a b = is_lt (compareClassified c d).
Proof.
  intros Ha Hb Hch Hc Hd. unfold Outranks. rewrite Ha, Hb, Hch, String.eqb_refl. cbn [negb].
  rewrite tierAgainstDates_undated; [done|].
  intros x. rewrite !elem_of_cons. intros [->|[->|[]%elem_of_nil]]; done.
Qed.

(** A comparison does not change when its arguments are replaced by equals. *)
Lemma cmp_Eq_proper {A} (cmp : A → A → comparison) `{!TotalCmp cmp} x x' y y' :
  cmp x x' = Eq → cmp y y' = Eq → cmp x y = cmp x' y'.
Proof.
  intros Hx Hy. assert (∀ a a' b, cmp a a' = Eq → cmp a b = cmp a' b) as Hl.
  { intros a a' b Ha. pose proof (cmp_eq_sym cmp _ _ Ha) as Ha'.
    destruct (cmp a b) eqn:Hab; symmetry.
    - by apply (cmp_eq_trans cmp _ a).
    - apply (cmp_le_lt_trans cmp _ a); [congruence|done].
    - apply cmp_lt_gt in Hab; [|done]. apply cmp_lt_gt; [done|].
      apply (cmp_lt_le_trans cmp _ a); [done|congruence]. }
  rewrite (Hl x x' y Hx), (cmp_antisym cmp y x'), (cmp_antisym cmp y' x'). by rewrite (Hl y y' x').
Qed.

Lemma sorted_members_classified tags c i a :
  c ∈ GroupChannels tags → (∀ d, d ∈ classifyAll tags → dated d = false) →
  Members c !! i = Some a →
  ∃ d, sort_func compareClassified (byChannel tags (Name c)) !! i = Some d ∧ tag d = a ∧
    classify (meaningful tags) a = Some d ∧ dated d = false.
Proof.
  intros [_ ->]%GroupChannels_members Hd Hi.
  rewrite tierAgainstDates_undated in Hi; last first.
  { intros d [_ ?]%list_elem_of_filter. by apply Hd. }
  apply list_lookup_fmap_Some in Hi as (d & -> & Hi).
  exists d. split; [done|]. apply list_elem_of_lookup_2 in Hi.
  rewrite elem_of_sort_func in Hi. apply list_elem_of_filter in Hi as [_ Hi].
  pose proof (Hd d Hi). apply elem_of_classifyAll in Hi as (t & _ & Ht).
  apply classify_tag in Ht as Ht'. destruct Ht' as [-> _]. done.
Qed.

Lemma outranks_undated_members tags c i j a b :
  (∀ t d, t ∈ tags → classify (meaningful tags) t = Some d → dated d = false) →
  c ∈ GroupChannels tags → i < j → Members c !! i = Some a → Members c !! j = Some b →
  channel <$> rankOf a = channel <$> rankOf b →
  Outranks b a = false ∧ (a ≠ b → Outranks a b = true).
Proof.
  intros Hd Hc Hij Ha Hb Hch.
  assert (∀ d, d ∈ classifyAll tags → dated d = false) as Hd'.
  { intros d (t & ? & ?)%elem_of_classifyAll. by eapply Hd. }
  destruct (sorted_members_classified tags c i a Hc Hd' Ha) as (x & Hx & Hxa & Hcx & Hdx).
  destruct (sorted_members_classified tags c j b Hc Hd' Hb) as (y & Hy & Hyb & Hcy & Hdy).
  assert (compareClassified x y ≠ Gt) as Hle.
  { eapply (StronglySorted_lookup (cmp_le compareClassified));
      [apply sort_func_sorted, _|exact Hij|done|done]. }
  destruct (proj2 (classify_is_Some false a)) as [x' Hx']; [by apply (classify_is_Some (meaningful tags)); eexists|].
  destruct (proj2 (classify_is_Some false b)) as [y' Hy']; [by apply (classify_is_Some (meaningful tags)); eexists|].
  destruct (classify_rank _ _ _ _ _ Hcx Hx') as [Exx Hdx'].
  destruct (classify_rank _ _ _ _ _ Hcy Hy') as [Eyy Hdy'].
  unfold rankOf in Hch. rewrite Hx', Hy' in Hch. injection Hch as Hch.
  rewrite (Outranks_undated b a y' x'), (Outranks_undated a b x' y') by (done || congruence).
  rewrite <-(cmp_Eq_proper compareClassified x x' y y') by done.
  rewrite <-(cmp_Eq_proper compareClassified y y' x x') by done.
  rewrite (cmp_antisym compareClassified x y).
  destruct (compareClassified x y) eqn:Hxy; [|done|done].
  split; [done|]. intros Hne. apply compareClassified_tag in Hxy. congruence.
Qed.

(** In a repository without dated tags, comparing two tags out of their set
    agrees with the channel they are listed in: of two tags of one channel that
    are also of one channel on their own, the one listed first outranks the
    other, and never the reverse. *)
Lemma outranks_agrees_without_dates tags c i j a b :
  (∀ t d, t ∈ tags → classify (meaningful tags) t = Some d → dated d = false) →
  c ∈ GroupChannels tags → i < j → Members c !! i = Some a → Members c !! j = Some b →
  channel <$> rankOf a = channel <$> rankOf b →
  Outranks b a = false ∧ (a ≠ b → Outranks a b = true).
Proof. apply outranks_undated_members. Qed.

Lemma outranks_agrees_without_dates_witness :
  Outranks "v1.9.0" "v1.10.0" = false ∧ ("v1.10.0" ≠ "v1.9.0" → Outranks "v1.10.0" "v1.9.0" = true).
Proof.
  apply (outranks_agrees_without_dates ["v1.9.0"; "v1.10.0"; "v2.0.0-rc.1"]
    (mkTagChannel "stable" ["v1.10.0"; "v1.9.0"]) 0 1).
  - intros t d Ht. rewrite !elem_of_cons in Ht.
    destruct Ht as [->|[->|[->|[]%elem_of_nil]]]; vm_compute; by intros [= <-].
  - replace (GroupChannels _) with
      [mkTagChannel "rc" ["v2.0.0-rc.1"]; mkTagChannel "stable" ["v1.10.0"; "v1.9.0"]]
      by (vm_compute; reflexivity).
    set_solver.
  - lia.
  - reflexivity.
  - reflexivity.
  - vm_compute. reflexivity.
Defined.

(** With dated tags it does not: [Outranks] compares a date to a semantic
    version by the pair alone, while a channel that also holds a calendar
    version ranks all its members numerically.  The pairwise comparison then
    has a cycle, so it is no order at all, and the head of the channel is
    outranked by its own last member. *)
Theorem outranks_cycle :
  Outranks "v2.0.0" "stable-2026-09-27" = true ∧
  Outranks "stable-2026-09-27" "v26.5" = true ∧
  Outranks "v26.5" "v2.0.0" = true ∧
  SortInChannel ["stable-2026-09-27"; "v2.0.0"; "v26.5"] StableChannel =
    ["stable-2026-09-27"; "v26.5"; "v2.0.0"].
Proof. vm_compute. done. Qed.

(** ** Constraints *)

Lemma partition_tags_spec tags :
  partition_tags tags =
    (filter (λ t, IsStableSemver t = true) tags,
     omap channelWordTag (filter (λ t, IsStableSemver t = false) tags),
     filter (λ t, IsStableSemver t = false ∧ channelWordTag t = None) tags).
Proof.
  induction tags as [|t tags IH]; [done|]. simpl. rewrite IH, !filter_cons.
  destruct (IsStableSemver t) eqn:Hs.
  - rewrite decide_True by done. rewrite !decide_False by naive_solver. done.
  - rewrite decide_False by done. rewrite (decide_True (P := false = false)) by done. simpl.
    destruct (channelWordTag t) as [c|]; [|by rewrite decide_True].
    by rewrite decide_False by naive_solver.
Qed.

Lemma channelWordTag_tag t c : channelWordTag t = Some c → tag c = t.
Proof.
  unfold channelWordTag. intros H. repeat case_hyp H. by apply classify_tag in H as [-> _].
Qed.

Lemma channelWordTag_functional (l : list string) c d :
  c ∈ omap channelWordTag l → d ∈ omap channelWordTag l → tag c = tag d → c = d.
Proof.
  rewrite !list_elem_of_omap. intros (t & _ & Ht) (u & _ & Hu) Heq.
  rewrite (channelWordTag_tag _ _ Ht), (channelWordTag_tag _ _ Hu) in Heq. congruence.
Qed.

(** The three parts of the sorted list; when the first two are empty they are
    the whole. *)
Lemma sortTagsDesc_parts tags :
  sortTagsDesc tags =
    sort_func compareSemver (filter (λ t, IsStableSemver t = true) tags) ++
    map tag (sort_func compareClassified (tierAgainstDates
      (omap channelWordTag (filter (λ t, IsStableSemver t = false) tags)))) ++
    sortLexDesc (filter (λ t, IsStableSemver t = false ∧ channelWordTag t = None) tags).
Proof.
  unfold sortTagsDesc. rewrite partition_tags_spec.
  destruct (filter (λ t, IsStableSemver t = true) tags) as [|s semver] eqn:Hs; [|done].
  destruct (omap channelWordTag _) as [|c ch] eqn:Hc; [|done]. simpl. f_equal. symmetry.
  apply filter_all. intros t Ht.
  assert (IsStableSemver t = false) as Hst.
  { apply not_true_iff_false. intros Ht'. apply (not_elem_of_nil t). rewrite <-Hs.
    by apply list_elem_of_filter. }
  split; [done|]. destruct (channelWordTag t) as [c|] eqn:Hct; [|done].
  exfalso. apply (not_elem_of_nil c). rewrite <-Hc. apply list_elem_of_omap.
  exists t. split; [by apply list_elem_of_filter|done].
Qed.

Lemma sortTagsDesc_perm_eq tags tags' : tags ≡ₚ tags' → sortTagsDesc tags = sortTagsDesc tags'.
Proof.
  intros Hp. rewrite !sortTagsDesc_parts. f_equal; [|f_equal; [f_equal|]].
  - apply (sort_func_permutation compareSemver). by rewrite Hp.
  - apply (sort_func_permutation_on compareClassified).
    + intros x y Hx Hy Heq%compareClassified_tag.
      eapply tierAgainstDates_functional; [|done..]. apply channelWordTag_functional.
    + apply tierAgainstDates_permutation. by rewrite Hp.
  - apply (sort_func_permutation _). by rewrite Hp.
Qed.

Lemma sortTagsDesc_perm tags : sortTagsDesc tags ≡ₚ tags.
Proof.
  rewrite sortTagsDesc_parts.
  rewrite (sort_func_perm compareSemver), (sort_func_perm compareClassified).
  rewrite tierAgainstDates_tags. unfold sortLexDesc. rewrite (sort_func_perm _).
  induction tags as [|t tags IH]; [done|]. rewrite !filter_cons.
  destruct (IsStableSemver t) eqn:Hs.
  - rewrite decide_True by done. rewrite !decide_False by naive_solver. simpl. by rewrite IH.
  - rewrite decide_False by done. rewrite (decide_True (P := false = false)) by done. simpl.
    destruct (channelWordTag t) as [c|] eqn:Hc.
    + rewrite decide_False by naive_solver. simpl. rewrite (channelWordTag_tag _ _ Hc).
      by rewrite <-Permutation_middle, IH.
    + rewrite decide_True by done. by rewrite <-!Permutation_middle, IH.
Qed.

Lemma matching_ok p tags l :
  matching p tags = Ok l → l = filter (λ t, path_match p t = Ok true) tags ∧
    ∀ t, t ∈ tags → is_ok (path_match p t) = true.
Proof.
  revert l. induction tags as [|t tags IH]; intros l H; simpl in H.
  { simplify_eq. split; [done|]. by intros t ?%elem_of_nil. }
  inv_bind H. inv_bind H. simplify_eq. destruct (IH _ ltac:(done)) as [-> Hall].
  rewrite filter_cons. split.
  - destruct x; [by rewrite decide_True|by rewrite decide_False by congruence].
  - intros u [->|?]%elem_of_cons; [by destruct (path_match p t)|by apply Hall].
Qed.

Lemma matching_total p tags :
  (∀ t, t ∈ tags → is_ok (path_match p t) = true) →
  matching p tags = Ok (filter (λ t, path_match p t = Ok true) tags).
Proof.
  induction tags as [|t tags IH]; intros H; [done|]. simpl.
  pose proof (H t ltac:(set_solver)) as Ht. destruct (path_match p t) as [b|] eqn:Hm; [|done].
  simpl. rewrite IH by set_solver. simpl. rewrite filter_cons.
  destruct b; [by rewrite decide_True|by rewrite decide_False by congruence].
Qed.

Lemma head_app_l {A} (l k : list A) : l ≠ [] → head (l ++ k) = head l.
Proof. by destruct l. Qed.

Lemma sort_func_head_some {A} (cmp : A → A → comparison) `{!TotalCmp cmp} (l : list A) x :
  head (sort_func cmp l) = Some x → x ∈ l ∧ ∀ y, y ∈ l → cmp x y ≠ Gt.
Proof.
  destruct (sort_func cmp l) as [|z k] eqn:Hs; [done|]. intros [= ->]. split.
  - rewrite <-(elem_of_sort_func cmp), Hs. apply list_elem_of_here.
  - by apply (sort_func_head cmp l x k).
Qed.

(** Where the first tag of the sorted list comes from *)
Lemma sortTagsDesc_head tags t :
  head (sortTagsDesc tags) = Some t →
  t ∈ tags ∧
  (∀ u, u ∈ tags → IsStableSemver u = true →
    IsStableSemver t = true ∧ compareCores (semverParts u) (semverParts t) ≠ Gt) ∧
  ((∀ u, u ∈ tags → IsStableSemver u = false) →
    (∃ u, u ∈ tags ∧ is_Some (channelWordTag u)) → is_Some (channelWordTag t)) ∧
  ((∀ u, u ∈ tags → IsStableSemver u = false ∧ channelWordTag u = None) →
    ∀ u, u ∈ tags → String.compare u t ≠ Gt).
Proof.
  rewrite sortTagsDesc_parts. intros H.
  destruct (decide (filter (λ t, IsStableSemver t = true) tags = [])) as [Hs|Hs]; last first.
  { rewrite head_app_l in H by (by rewrite sort_func_nil).
    apply (sort_func_head_some compareSemver) in H as [Hin Hmax].
    apply list_elem_of_filter in Hin as [Hst Hin]. split_and!; [done| | |].
    - intros u Hu Hus. split; [done|].
      assert (compareSemver t u ≠ Gt) as Hc by (apply Hmax; by apply list_elem_of_filter).
      unfold compareSemver in Hc. by destruct (compareCores (semverParts u) (semverParts t)).
    - intros Hall. specialize (Hall t Hin). congruence.
    - intros Hall. destruct (Hall t Hin). congruence. }
  assert (∀ u, u ∈ tags → IsStableSemver u = false) as Hnone.
  { intros u Hu. apply not_true_iff_false. intros Hu'. apply (not_elem_of_nil u).
    rewrite <-Hs. by apply list_elem_of_filter. }
  rewrite Hs in H. simpl in H.
  set (ch := omap channelWordTag _) in H.
  assert (∀ c, c ∈ ch → ∃ u, u ∈ tags ∧ channelWordTag u = Some c) as Hch.
  { intros c (u & Hu & Hc)%list_elem_of_omap. apply list_elem_of_filter in Hu as [_ ?]. eauto. }
  assert (∀ u c, u ∈ tags → channelWordTag u = Some c → c ∈ ch) as Hch'.
  { intros u c Hu Hc. apply list_elem_of_omap. exists u. split; [|done].
    apply list_elem_of_filter. auto. }
  destruct (decide (ch = [])) as [Hc|Hc].
  - rewrite Hc in H. simpl in H. unfold sortLexDesc in H.
    apply (sort_func_head_some _) in H as [[[_ _] Hin]%list_elem_of_filter Hmax].
    split_and!; [done| | |].
    + intros u Hu Hus. rewrite (Hnone u Hu) in Hus. done.
    + intros _ (u & Hu & [c Hcu]). exfalso. apply (not_elem_of_nil c). rewrite <-Hc. eauto.
    + intros Hall u Hu. apply Hmax. apply list_elem_of_filter. split; [by apply Hall|done].
  - rewrite head_app_l in H; last first.
    { intros Hnil. apply Hc. apply map_eq_nil, sort_func_nil in Hnil.
      apply (f_equal (map tag)) in Hnil. rewrite tierAgainstDates_tags in Hnil.
      by apply map_eq_nil in Hnil. }
    destruct (sort_func compareClassified (tierAgainstDates ch)) as [|d k] eqn:Hd; [done|].
    injection H as <-. assert (d ∈ tierAgainstDates ch) as Hin.
    { rewrite <-(elem_of_sort_func compareClassified), Hd. apply list_elem_of_here. }
    apply elem_of_tierAgainstDates in Hin as (e & He & -> & _).
    apply Hch in He as (u & Hu & Heu). rewrite (channelWordTag_tag _ _ Heu).
    split_and!; [done| |by eauto|].
    + intros v Hv Hvs. rewrite (Hnone v Hv) in Hvs. done.
    + intros Hall. destruct (Hall u Hu). congruence.
Qed.

(** A constraint resolves to the best of the tags its glob matches, if any
    does: a match; when a stable semantic version matches, one with the highest
    version, compared as numbers; failing that a tag behind a channel word when
    one matches; failing both the last in byte order.  It fails only on a
    malformed pattern, and the order the tags are listed in does not matter. *)
Lemma highest_match_best tags pattern :
  (∀ t, HighestMatch tags pattern = Ok (Some t) →
    let matches u := u ∈ tags ∧ path_match pattern u = Ok true in
    matches t ∧
    (∀ u, matches u → IsStableSemver u = true →
      IsStableSemver t = true ∧ compareCores (semverParts u) (semverParts t) ≠ Gt) ∧
    ((∀ u, matches u → IsStableSemver u = false) →
      (∃ u, matches u ∧ is_Some (channelWordTag u)) → is_Some (channelWordTag t)) ∧
    ((∀ u, matches u → IsStableSemver u = false ∧ channelWordTag u = None) →
      ∀ u, matches u → String.compare u t ≠ Gt)) ∧
  (HighestMatch tags pattern = Ok None →
    ∀ t, t ∈ tags → path_match pattern t = Ok false) ∧
  (∀ e, HighestMatch tags pattern = Err e → ∃ t, t ∈ tags ∧ path_match pattern t = Err e) ∧
  (∀ tags', tags ≡ₚ tags' → is_ok (HighestMatch tags pattern) = true →
    HighestMatch tags' pattern = HighestMatch tags pattern).
Proof.
  assert (∀ l, matching pattern tags = Ok l →
    HighestMatch tags pattern = Ok (head (sortTagsDesc l))) as Hok.
  { intros l Hl. unfold HighestMatch. rewrite Hl. by destruct l. }
  assert (∀ u, u ∈ filter (λ t, path_match pattern t = Ok true) tags ↔
    u ∈ tags ∧ path_match pattern u = Ok true) as Hel.
  { intros u. rewrite list_elem_of_filter. tauto. }
  split_and!.
  - intros t H. unfold HighestMatch in H. inv_bind H. apply matching_ok in H0 as [-> _].
    set (l := filter _ tags) in *.
    assert (head (sortTagsDesc l) = Some t) as Hh by (destruct l; by simplify_eq).
    apply sortTagsDesc_head in Hh as (Hin & Hsem & Hch & Hlex). subst l. simpl.
    setoid_rewrite <-Hel. done.
  - intros H t Ht. unfold HighestMatch in H. inv_bind H. apply matching_ok in H0 as [-> Hall].
    specialize (Hall t Ht). destruct (path_match pattern t) as [[]|] eqn:Hm; [|done|done].
    exfalso. assert (t ∈ filter (λ t, path_match pattern t = Ok true) tags) as Hin by by apply Hel.
    destruct (filter _ tags) as [|u l] eqn:Hl; [by apply elem_of_nil in Hin|].
    injection H as H. pose proof (sortTagsDesc_perm (u :: l)) as Hp.
    destruct (sortTagsDesc (u :: l)); [|done]. by apply Permutation_nil_cons in Hp.
  - intros e H. unfold HighestMatch in H. apply rbind_err in H as [H|(l & _ & H)]; [|by destruct l].
    clear Hok Hel. induction tags as [|t tags IH]; [done|]. simpl in H.
    apply rbind_err in H as [H|(b & _ & H)]; [exists t; split; [set_solver|done]|].
    apply rbind_err in H as [H|(k & _ & H)]; [|done].
    destruct (IH H) as (u & ? & ?). exists u. split; [set_solver|done].
  - intros tags' Hp H.
    destruct (matching pattern tags) as [l|] eqn:Hl; [|by unfold HighestMatch in H; rewrite Hl in H].
    rewrite (Hok l) by done. apply matching_ok in Hl as [-> Hall].
    unfold HighestMatch. rewrite matching_total by (intros u; rewrite <-Hp; apply Hall). simpl.
    assert (filter (λ t, path_match pattern t = Ok true) tags ≡ₚ
      filter (λ t, path_match pattern t = Ok true) tags') as Hf by by rewrite Hp.
    rewrite (sortTagsDesc_perm_eq _ _ Hf). by destruct (filter _ tags').
Qed.

Lemma highest_match_best_witness :
  HighestMatch ["v1.9.0"; "v1.10.0-rc.1"; "nightly"; "v1.10.0"] "v1.*" = Ok (Some "v1.10.0") ∧
  compareCores (semverParts "v1.9.0") (semverParts "v1.10.0") ≠ Gt.
Proof.
  split; [reflexivity|].
  destruct (highest_match_best ["v1.9.0"; "v1.10.0-rc.1"; "nightly"; "v1.10.0"] "v1.*") as [H _].
  destruct (H "v1.10.0" eq_refl) as (_ & Hsem & _).
  apply (Hsem "v1.9.0"); [split; [set_solver|reflexivity]|reflexivity].
Defined.
