(* ===== verification/Versioning.v ===== *)
(** * Versioning (internal/engine/manifold/versioning)

    What a selector follows in a repository's refs, what it points at, whether
    an installed arrow has drifted from it, and which refs it admits.  A
    snapshot of the refs is [RefSnapshot]; its maps are enumerated through
    [SortedTags].  All errors of this component wrap [ErrUnknownSelector] or
    [ErrNotAdmitted]. *)

From S2P Require Import Prelude GoStrings GoPath GoRegexp Domain Channels.

Inductive version_error := ErrUnknownSelector | ErrNotAdmitted.

#[export] Instance version_error_eq_dec : EqDecision version_error.
Proof. solve_decision. Defined.

(** ** Channels of a snapshot (internal/selector/channels.go) *)

Definition SortedTags (snap : RefSnapshot) : list string :=
  sort_func String.compare (map fst (map_to_list (Tags snap))).

(** The [less] of [sortChannels].  It does not separate a stable channel from a
    rolling tag named stable; [sort.Slice] may leave those two in either order
    and this model leaves them as they are. *)
Definition less_channel (a b : ChannelInfo) : bool :=
  let aStable := String.eqb (ChannelName a) StableChannel in
  let bStable := String.eqb (ChannelName b) StableChannel in
  if negb (Bool.eqb aStable bStable) then aStable
  else if aStable then false
  else if negb (bool_decide (Kind a = Kind b)) then is_ordered a
  else is_lt (String.compare (ChannelName a) (ChannelName b)).

Definition compareChannels (a b : ChannelInfo) : comparison :=
  if less_channel a b then Lt else if less_channel b a then Gt else Eq.

Definition sortChannels (channels : list ChannelInfo) : list ChannelInfo :=
  sort_func compareChannels channels.

(** [channel.Members[0]] of a group; no group is empty. *)
Definition ordered_info (c : TagChannel) : ChannelInfo :=
  mkChannelInfo (Name c) KindOrdered (default "" (head (Members c))) (length (Members c))
    (Members c) false.

Definition pointer_info (name : string) (fallback : bool) : ChannelInfo :=
  mkChannelInfo name KindPointer name 0 [] fallback.

(** The channels before they are sorted *)
Definition all_channels (snap : RefSnapshot) : list ChannelInfo :=
  let tags := SortedTags snap in
  let groups := GroupChannels tags in
  let consumed := concat (map Members groups) in
  map ordered_info groups ++
  map (λ t, pointer_info t false) (filter (λ t, t ∉ consumed) tags) ++
  (if bool_decide (tags = []) && negb (String.eqb (Head snap) "")
   then [pointer_info (Head snap) true] else []).

Definition ChannelsOf (snap : RefSnapshot) : list ChannelInfo := sortChannels (all_channels snap).

(** The loop of [FindChannel], from the channel found so far *)
Fixpoint find_named (selector : string) (found : option ChannelInfo) (channels : list ChannelInfo)
  : option ChannelInfo :=
  match channels with
  | [] => found
  | c :: channels' =>
    if negb (String.eqb (ChannelName c) selector) then find_named selector found channels'
    else if is_ordered c then Some c
    else find_named selector (Some c) channels'
  end.

Definition FindChannel (selector : string) (snap : RefSnapshot) : option ChannelInfo :=
  find_named selector None (ChannelsOf snap).

Definition LatestStable (snap : RefSnapshot) : option string :=
  Latest <$> FindChannel StableChannel snap.

Definition DefaultBranch (snap : RefSnapshot) : option (string * string) :=
  match Branches snap !! Head snap with
  | Some commit => if String.eqb (Head snap) "" then None else Some (Head snap, commit)
  | None => None
  end.

Definition DefaultChannel (snap : RefSnapshot) : result version_error string :=
  match ChannelsOf snap with
  | [] => Err ErrUnknownSelector
  | c :: _ =>
    if String.eqb (ChannelName c) StableChannel then Ok StableChannel
    else match NewestFirst (ChannelsOf snap) with
         | d :: _ => Ok (ChannelName d)
         | [] => Err ErrUnknownSelector
         end
  end.

(** ** Selectors (internal/selector/selector.go) *)

Definition tagRefPrefix := "refs/tags/".
Definition branchRefPrefix := "refs/heads/".
Definition minCommitLen := 7.
Definition maxCommitLen := 40.

Definition channelKind (channel : ChannelInfo) : SelectorKind :=
  if is_ordered channel then SelectorOrderedChannel
  else if IsDefaultBranchFallback channel then SelectorBranchChannel
  else SelectorPointerChannel.

Inductive refSource := refEither | refTag | refBranch.

#[export] Instance refSource_eq_dec : EqDecision refSource.
Proof. solve_decision. Defined.

Definition lookup_ref (src : refSource) (name : string) (snap : RefSnapshot) : option string :=
  match src with
  | refTag => Tags snap !! name
  | refBranch => Branches snap !! name
  | refEither => Commit snap name
  end.

Definition source_pinKind (src : refSource) : SelectorKind :=
  match src with refBranch => SelectorBranchPin | _ => SelectorTagPin end.

Definition FollowedRef (kind : SelectorKind) (selector : string) : string * refSource :=
  match cut_prefix tagRefPrefix selector with
  | Some name => (name, refTag)
  | None =>
    match cut_prefix branchRefPrefix selector with
    | Some name => (name, refBranch)
    | None =>
      match kind with
      | SelectorTagPin | SelectorPointerChannel => (selector, refTag)
      | SelectorBranchPin | SelectorBranchChannel => (selector, refBranch)
      | _ => (selector, refEither)
      end
    end
  end.

(** [pinKind]; [None] is [ok == false]. *)
Definition pinKind (selector : string) (snap : RefSnapshot) : option SelectorKind :=
  let '(name, source) := FollowedRef SelectorPin selector in
  match source with
  | refEither =>
    match Tags snap !! name with
    | Some _ => Some SelectorTagPin
    | None => match Branches snap !! name with Some _ => Some SelectorBranchPin | None => None end
    end
  | _ =>
    match lookup_ref source name snap with
    | Some _ => Some (source_pinKind source)
    | None => None
    end
  end.

Definition PinnedRef (kind : SelectorKind) (selector : string) (snap : RefSnapshot)
  : string * option string :=
  let '(name, source) := FollowedRef kind selector in
  (name, lookup_ref source name snap).

Definition RefCommit (kind : SelectorKind) (selector ref : string) (snap : RefSnapshot)
  : option string :=
  match kind with
  | SelectorCommit =>
    match Commit snap ref with Some commit => Some commit | None => Some ref end
  | SelectorOrderedChannel | SelectorConstraint => Tags snap !! ref
  | _ => lookup_ref (snd (FollowedRef kind selector)) ref snap
  end.

Definition HasEmptyComponent (selector : string) : bool :=
  String.prefix "/" selector || has_suffix selector "/" || contains selector "//".

Definition isGlob (selector : string) : bool :=
  exists_byte (λ c, Ascii.eqb c "*" || Ascii.eqb c "?" || Ascii.eqb c "[") selector.

Definition is_hex (c : ascii) : bool := is_digit c || byte_in "a" "f" c.

Definition isCommitish (selector : string) : bool :=
  if Nat.ltb (String.length selector) minCommitLen || Nat.ltb maxCommitLen (String.length selector)
  then false
  else negb (exists_byte (λ c, negb (is_hex c)) (to_lower selector)).

Definition ClassifySelector (selector : string) (snap : RefSnapshot)
  : result version_error SelectorKind :=
  if HasEmptyComponent selector then Err ErrUnknownSelector
  else match FindChannel selector snap with
  | Some channel => Ok (channelKind channel)
  | None =>
    match pinKind selector snap with
    | Some kind => Ok kind
    | None =>
      if isGlob selector then
        match path_match selector "" with
        | Err _ => Err ErrUnknownSelector
        | Ok _ => Ok SelectorConstraint
        end
      else if isCommitish selector then Ok SelectorCommit
      else Err ErrUnknownSelector
    end
  end.

(** ** Targets (internal/drift) *)

Definition commit_of_tag (snap : RefSnapshot) (t : string) : string := default "" (Tags snap !! t).

Definition channelTarget (selector : string) (snap : RefSnapshot)
  : result version_error Available :=
  match FindChannel selector snap with
  | None => Err ErrUnknownSelector
  | Some channel =>
    match Commit snap (Latest channel) with
    | None => Err ErrUnknownSelector
    | Some commit => Ok (mkAvailable (Latest channel) commit)
    end
  end.

Fixpoint find_ordered (p : ChannelInfo → bool) (channels : list ChannelInfo)
  : option ChannelInfo :=
  match channels with
  | [] => None
  | c :: channels' => if is_ordered c && p c then Some c else find_ordered p channels'
  end.

Definition orderedTarget (selector : string) (snap : RefSnapshot)
  : result version_error Available :=
  match find_ordered (λ c, String.eqb (ChannelName c) selector) (ChannelsOf snap) with
  | Some c => Ok (mkAvailable (Latest c) (commit_of_tag snap (Latest c)))
  | None => Err ErrUnknownSelector
  end.

Definition constraintTarget (selector : string) (snap : RefSnapshot)
  : result version_error Available :=
  match HighestMatch (SortedTags snap) selector with
  | Err _ => Err ErrUnknownSelector
  | Ok None => Err ErrUnknownSelector
  | Ok (Some ref) => Ok (mkAvailable ref (commit_of_tag snap ref))
  end.

Definition Target (kind : SelectorKind) (selector : string) (snap : RefSnapshot)
  : result version_error Available :=
  match kind with
  | SelectorChannel => channelTarget selector snap
  | SelectorOrderedChannel => orderedTarget selector snap
  | SelectorConstraint => constraintTarget selector snap
  | SelectorPin | SelectorTagPin | SelectorBranchPin | SelectorPointerChannel
  | SelectorBranchChannel =>
    match PinnedRef kind selector snap with
    | (ref, Some commit) => Ok (mkAvailable ref commit)
    | (_, None) => Err ErrUnknownSelector
    end
  | SelectorCommit => Ok (mkAvailable selector selector)
  | SelectorUnknown _ => Err ErrUnknownSelector
  end.

Definition isDowngrade (kind : SelectorKind) (resolved : Resolved) (target : Available)
  (snap : RefSnapshot) : bool :=
  if String.eqb (available_ref target) (resolved_ref resolved) then false
  else match Tags snap !! resolved_ref resolved with
       | None => false
       | Some _ =>
         match kind with
         | SelectorChannel | SelectorOrderedChannel =>
           Outranks (resolved_ref resolved) (available_ref target)
         | SelectorConstraint => ConstraintOutranks (resolved_ref resolved) (available_ref target)
         | _ => false
         end
       end.

Definition formerChannelTarget (resolved : Resolved) (snap : RefSnapshot)
  (notFound : version_error) : result version_error Available :=
  if String.eqb (resolved_ref resolved) "" then Err notFound
  else match find_ordered (λ c, bool_decide (resolved_ref resolved ∈ ChannelMembers c))
               (ChannelsOf snap) with
       | Some c => Ok (mkAvailable (Latest c) (commit_of_tag snap (Latest c)))
       | None => Err notFound
       end.

Definition defaultBranchTarget (selector : string) (resolved : Resolved) (snap : RefSnapshot)
  (notFound : version_error) : result version_error Available :=
  if negb (String.eqb selector (Head snap)) || negb (String.eqb (resolved_ref resolved) selector)
  then Err notFound
  else match Branches snap !! selector with
       | Some commit => Ok (mkAvailable selector commit)
       | None => Err notFound
       end.

Definition fallbackTarget (kind : SelectorKind) (selector : string) (resolved : Resolved)
  (snap : RefSnapshot) (notFound : version_error) : result version_error Available :=
  match kind with
  | SelectorChannel =>
    match defaultBranchTarget selector resolved snap notFound with
    | Ok target => Ok target
    | Err _ => formerChannelTarget resolved snap notFound
    end
  | SelectorOrderedChannel => formerChannelTarget resolved snap notFound
  | _ => Err notFound
  end.

(** [Drift]: [None] is [(Available{}, false, nil)]. *)
Definition Drift (kind : SelectorKind) (selector : string) (resolved : Resolved)
  (snap : RefSnapshot) : result version_error (option Available) :=
  match kind with
  | SelectorCommit => Ok None
  | _ =>
    let target :=
      match Target kind selector snap with
      | Ok target => Ok target
      | Err err => fallbackTarget kind selector resolved snap err
      end in
    match target with
    | Err err => Err err
    | Ok target =>
      if String.eqb (available_ref target) (resolved_ref resolved) &&
         String.eqb (available_commit target) (resolved_commit resolved) then Ok None
      else if isDowngrade kind resolved target snap then Ok None
      else Ok (Some target)
    end
  end.

(** ** Admission (internal/admit) *)

Definition channelAdmits (selector ref : string) (snap : RefSnapshot) : bool :=
  match FindChannel selector snap with
  | None => String.eqb selector (Head snap) && String.eqb ref selector
  | Some channel =>
    if is_ordered channel then bool_decide (ref ∈ ChannelMembers channel)
    else String.eqb (Latest channel) ref
  end.

Definition admits (kind : SelectorKind) (selector ref commit : string) (snap : RefSnapshot)
  : bool :=
  match kind with
  | SelectorChannel => channelAdmits selector ref snap
  | SelectorOrderedChannel =>
    match FindChannel selector snap with
    | Some channel => is_ordered channel && bool_decide (ref ∈ ChannelMembers channel)
    | None => false
    end
  | SelectorConstraint => path_matches selector ref
  | SelectorCommit => String.prefix (to_lower selector) (to_lower commit)
  | SelectorPin | SelectorTagPin | SelectorBranchPin | SelectorPointerChannel
  | SelectorBranchChannel => String.eqb (fst (FollowedRef kind selector)) ref
  | SelectorUnknown _ => false
  end.

Definition Admit (kind : SelectorKind) (selector ref : string) (snap : RefSnapshot)
  : result version_error Available :=
  if bool_decide (kind = SelectorCommit) && equal_fold ref selector
  then Ok (mkAvailable selector selector)
  else match Commit snap ref with
  | None => Err ErrUnknownSelector
  | Some _ =>
    match RefCommit kind selector ref snap with
    | None => Err ErrNotAdmitted
    | Some commit =>
      if admits kind selector ref commit snap then Ok (mkAvailable ref commit)
      else Err ErrNotAdmitted
    end
  end.

(** ** Channels *)

(** What every snapshot of a repository satisfies: the HEAD it names is one of
    its branches. *)
Definition wf_snapshot (snap : RefSnapshot) : Prop :=
  Head snap = "" ∨ is_Some (Branches snap !! Head snap).

(** A selector that is not spelled as a full ref name *)
Definition no_escape (selector : string) : Prop :=
  cut_prefix tagRefPrefix selector = None ∧ cut_prefix branchRefPrefix selector = None.

Lemma elem_of_SortedTags snap t : t ∈ SortedTags snap ↔ is_Some (Tags snap !! t).
Proof.
  unfold SortedTags. rewrite elem_of_sort_func, list_elem_of_fmap. split.
  - intros ([k v] & -> & H%elem_of_map_to_list). by exists v.
  - intros [v Hv]. exists (t, v). by rewrite elem_of_map_to_list.
Qed.

Lemma elem_of_ChannelsOf snap c : c ∈ ChannelsOf snap ↔ c ∈ all_channels snap.
Proof. apply elem_of_sort_func. Qed.

(** The three ways to be listed *)
Lemma elem_of_all_channels snap c :
  c ∈ all_channels snap ↔
  (∃ g, g ∈ GroupChannels (SortedTags snap) ∧ c = ordered_info g) ∨
  (∃ t, is_Some (Tags snap !! t) ∧ HasVersionCore t = false ∧ c = pointer_info t false) ∨
  (SortedTags snap = [] ∧ Head snap ≠ "" ∧ c = pointer_info (Head snap) true).
Proof.
  unfold all_channels. rewrite !elem_of_app, !list_elem_of_fmap.
  setoid_rewrite list_elem_of_filter. setoid_rewrite elem_of_SortedTags.
  assert (∀ t, is_Some (Tags snap !! t) →
    t ∉ concat (map Members (GroupChannels (SortedTags snap))) ↔ HasVersionCore t = false) as Hpt.
  { intros t Ht. rewrite groups_cover, list_elem_of_filter, elem_of_SortedTags.
    rewrite <-not_true_iff_false. tauto. }
  assert (c ∈ (if bool_decide (SortedTags snap = []) && negb (String.eqb (Head snap) "")
      then [pointer_info (Head snap) true] else []) ↔
    SortedTags snap = [] ∧ Head snap ≠ "" ∧ c = pointer_info (Head snap) true) as ->.
  { case_bool_decide; destruct (String.eqb_spec (Head snap) ""); simpl;
      rewrite ?list_elem_of_singleton, ?elem_of_nil; tauto. }
  split; (intros [H|[H|H]]; [left|right; left|right; right]); [naive_solver| |done|naive_solver| |done].
  - destruct H as (t & -> & Hn & Ht). exists t. split_and!; [done|by apply Hpt|done].
  - destruct H as (t & Ht & Hv & ->). exists t. split_and!; [done|by apply Hpt|done].
Qed.

Lemma ordered_channel snap c :
  c ∈ ChannelsOf snap → is_ordered c = true →
  ∃ g, g ∈ GroupChannels (SortedTags snap) ∧ c = ordered_info g.
Proof.
  rewrite elem_of_ChannelsOf, elem_of_all_channels.
  intros [?|[(t & _ & _ & ->)|(_ & _ & ->)]]; done.
Qed.

Lemma ordered_members snap c t :
  c ∈ ChannelsOf snap → is_ordered c = true → t ∈ ChannelMembers c → is_Some (Tags snap !! t).
Proof.
  intros Hc Ho Ht. destruct (ordered_channel snap c Hc Ho) as (g & Hg & ->).
  apply elem_of_SortedTags. by apply (group_member _ g).
Qed.

Lemma ordered_latest snap c :
  c ∈ ChannelsOf snap → is_ordered c = true →
  head (ChannelMembers c) = Some (Latest c) ∧ Latest c ∈ ChannelMembers c ∧
  is_Some (Tags snap !! Latest c).
Proof.
  intros Hc Ho. destruct (ordered_channel snap c Hc Ho) as (g & Hg & Heq).
  pose proof (group_not_empty _ g Hg) as Hne. assert (Latest c ∈ ChannelMembers c) as Hin.
  { rewrite Heq. simpl. destruct (Members g); [done|]. apply list_elem_of_here. }
  split_and!; [|done|by eapply ordered_members].
  rewrite Heq. simpl. by destruct (Members g).
Qed.

Lemma ordered_unique snap c d t :
  c ∈ ChannelsOf snap → is_ordered c = true → d ∈ ChannelsOf snap → is_ordered d = true →
  t ∈ ChannelMembers c → t ∈ ChannelMembers d → c = d.
Proof.
  intros Hc Hoc Hd Hod Htc Htd.
  destruct (ordered_channel snap c Hc Hoc) as (g & Hg & ->).
  destruct (ordered_channel snap d Hd Hod) as (g' & Hg' & ->).
  f_equal. by apply (group_unique (SortedTags snap) g g' t).
Qed.

Lemma ordered_unique_name snap c d :
  c ∈ ChannelsOf snap → is_ordered c = true → d ∈ ChannelsOf snap → is_ordered d = true →
  ChannelName c = ChannelName d → c = d.
Proof.
  intros Hc Hoc Hd Hod Heq.
  destruct (ordered_channel snap c Hc Hoc) as (g & Hg & ->).
  destruct (ordered_channel snap d Hd Hod) as (g' & Hg' & ->).
  apply GroupChannels_members in Hg as [_ Hg]. apply GroupChannels_members in Hg' as [_ Hg'].
  f_equal. destruct g, g'. simpl in *. congruence.
Qed.

(** Every listed channel's latest ref has a commit. *)
Lemma latest_commit snap c :
  wf_snapshot snap → c ∈ ChannelsOf snap → is_Some (Commit snap (Latest c)).
Proof.
  intros Hwf Hc. unfold Commit.
  pose proof Hc as Hc'. rewrite elem_of_ChannelsOf, elem_of_all_channels in Hc'.
  destruct Hc' as [(g & Hg & ->)|[(t & [v Hv] & _ & ->)|(_ & Hh & ->)]]; simpl.
  - destruct (ordered_latest snap (ordered_info g) Hc eq_refl) as (_ & _ & [v Hv]).
    simpl in Hv. by rewrite Hv.
  - by rewrite Hv.
  - destruct Hwf as [?|?]; [done|]. by destruct (Tags snap !! Head snap).
Qed.

Lemma find_named_some s found l c :
  find_named s found l = Some c →
  found = Some c ∧ (∀ d, d ∈ l → is_ordered d = true → ChannelName d ≠ s) ∨
  c ∈ l ∧ ChannelName c = s ∧
    (is_ordered c = false → ∀ d, d ∈ l → is_ordered d = true → ChannelName d ≠ s).
Proof.
  revert found. induction l as [|d l IH]; intros found H; simpl in H.
  { left. split; [done|]. by intros ? ?%elem_of_nil. }
  destruct (String.eqb_spec (ChannelName d) s) as [Hd|Hd]; simpl in H.
  - destruct (is_ordered d) eqn:Ho; simplify_eq.
    + right. split_and!; [set_solver|done|congruence].
    + apply IH in H as [[[= ->] H]|(? & ? & H)]; right; (split_and!; [set_solver|done|]);
        intros Hc e [->|He]%elem_of_cons; first [congruence|by eauto].
  - apply IH in H as [[-> H]|(? & ? & H)]; [left|right].
    + split; [done|]. intros e [->|He]%elem_of_cons; first [congruence|by eauto].
    + split_and!; [set_solver|done|]. intros Hc e [->|He]%elem_of_cons; first [congruence|by eauto].
Qed.

Lemma find_named_none s found l :
  find_named s found l = None → found = None ∧ ∀ d, d ∈ l → ChannelName d ≠ s.
Proof.
  revert found. induction l as [|d l IH]; intros found H; simpl in H.
  { split; [done|]. by intros ? ?%elem_of_nil. }
  destruct (String.eqb_spec (ChannelName d) s) as [Hd|Hd]; simpl in H.
  - destruct (is_ordered d); [done|]. by apply IH in H as [? _].
  - apply IH in H as [-> H]. split; [done|]. intros e [->|He]%elem_of_cons; first [congruence|by eauto].
Qed.

Lemma FindChannel_some s snap c :
  FindChannel s snap = Some c →
  c ∈ ChannelsOf snap ∧ ChannelName c = s ∧
  (is_ordered c = false → ∀ d, d ∈ ChannelsOf snap → is_ordered d = true → ChannelName d ≠ s).
Proof. intros H. by apply find_named_some in H as [[? _]|?]. Qed.

Lemma find_ordered_some p l c :
  find_ordered p l = Some c → c ∈ l ∧ is_ordered c = true ∧ p c = true.
Proof.
  induction l as [|d l IH]; simpl; [done|].
  destruct (is_ordered d && p d) eqn:Hd.
  - intros [= ->]. apply andb_true_iff in Hd as [? ?]. split_and!; [set_solver|done|done].
  - intros (? & ? & ?)%IH. split_and!; [set_solver|done|done].
Qed.

Lemma find_ordered_is_Some p l c :
  c ∈ l → is_ordered c = true → p c = true → is_Some (find_ordered p l).
Proof.
  intros Hc Ho Hp. induction l as [|d l IH]; [by apply elem_of_nil in Hc|]. simpl.
  destruct (is_ordered d && p d) eqn:Hd; [eauto|].
  apply elem_of_cons in Hc as [->|Hc]; [by rewrite Ho, Hp in Hd|by apply IH].
Qed.

(** [orderedTarget] finds the ordered channel of that name. *)
Lemma orderedTarget_ok s snap c :
  c ∈ ChannelsOf snap → is_ordered c = true → ChannelName c = s →
  orderedTarget s snap = Ok (mkAvailable (Latest c) (commit_of_tag snap (Latest c))).
Proof.
  intros Hc Ho Hn. unfold orderedTarget.
  destruct (find_ordered_is_Some (λ c, String.eqb (ChannelName c) s) _ c Hc Ho) as [d Hd];
    [by apply String.eqb_eq|].
  rewrite Hd. apply find_ordered_some in Hd as (Hdin & Hdo & Heq%String.eqb_eq).
  by rewrite (ordered_unique_name snap d c Hdin Hdo Hc Ho) by congruence.
Qed.

(** ** Targets *)

Lemma FollowedRef_no_escape kind s :
  no_escape s →
  FollowedRef kind s = (s, match kind with
    | SelectorTagPin | SelectorPointerChannel => refTag
    | SelectorBranchPin | SelectorBranchChannel => refBranch
    | _ => refEither end).
Proof. unfold FollowedRef. intros [-> ->]. by destruct kind. Qed.

Lemma pinKind_target s snap kind :
  pinKind s snap = Some kind →
  (kind = SelectorTagPin ∨ kind = SelectorBranchPin) ∧
  ∃ a, Target kind s snap = Ok a.
Proof.
  unfold pinKind, Target, PinnedRef, FollowedRef. intros H.
  destruct (cut_prefix tagRefPrefix s) as [n|] eqn:Ht;
    [|destruct (cut_prefix branchRefPrefix s) as [n|] eqn:Hb]; simpl in H;
    repeat case_hyp H; rewrite ?Ht, ?Hb; simpl; split; eauto;
    repeat match goal with H : ?x = Some _ |- context [?x] => rewrite H end; eauto.
Qed.

Lemma path_matches_true p s : path_matches p s = true ↔ path_match p s = Ok true.
Proof. unfold path_matches. destruct (path_match p s) as [[]|]; naive_solver. Qed.

Lemma matching_filter p tags l t :
  matching p tags = Ok l → t ∈ l → t ∈ tags ∧ path_match p t = Ok true.
Proof. intros [-> _]%matching_ok. rewrite list_elem_of_filter. tauto. Qed.

Lemma HighestMatch_match tags p t :
  HighestMatch tags p = Ok (Some t) → t ∈ tags ∧ path_match p t = Ok true.
Proof.
  unfold HighestMatch. intros H. apply rbind_ok in H as (l & Hl & H).
  apply (matching_filter p tags l); [done|].
  assert (head (sortTagsDesc l) = Some t) as Hh by (destruct l; by simplify_eq).
  by apply sortTagsDesc_head in Hh as [? _].
Qed.

Lemma constraintTarget_ok s snap a :
  constraintTarget s snap = Ok a →
  Tags snap !! available_ref a = Some (available_commit a) ∧ path_matches s (available_ref a) = true.
Proof.
  unfold constraintTarget. intros H.
  destruct (HighestMatch (SortedTags snap) s) as [[ref|]|] eqn:Hm; simplify_eq/=.
  apply HighestMatch_match in Hm as [[c Hc]%elem_of_SortedTags Hm].
  split; [|by apply path_matches_true]. unfold commit_of_tag. by rewrite Hc.
Qed.

Lemma orderedTarget_inv s snap a :
  orderedTarget s snap = Ok a →
  ∃ c, c ∈ ChannelsOf snap ∧ is_ordered c = true ∧ ChannelName c = s ∧
    available_ref a = Latest c ∧ Latest c ∈ ChannelMembers c ∧
    Tags snap !! available_ref a = Some (available_commit a).
Proof.
  unfold orderedTarget. destruct (find_ordered _ _) as [c|] eqn:Hc; [|done]. intros [= <-]. simpl.
  apply find_ordered_some in Hc as (Hin & Ho & Hn%String.eqb_eq).
  destruct (ordered_latest snap c Hin Ho) as (_ & Hl & [v Hv]).
  exists c. unfold commit_of_tag. rewrite Hv. by split_and!.
Qed.

Lemma FindChannel_ordered s snap c :
  c ∈ ChannelsOf snap → is_ordered c = true → ChannelName c = s → FindChannel s snap = Some c.
Proof.
  intros Hin Ho Hn. destruct (FindChannel s snap) as [d|] eqn:Hd.
  - apply FindChannel_some in Hd as (Hdin & Hdn & Hd).
    destruct (is_ordered d) eqn:Hdo; [|by specialize (Hd eq_refl c Hin Ho)].
    f_equal. apply (ordered_unique_name snap); congruence.
  - apply find_named_none in Hd as [_ Hd]. by specialize (Hd c Hin).
Qed.

Lemma Commit_tag snap ref commit : Tags snap !! ref = Some commit → Commit snap ref = Some commit.
Proof. unfold Commit. by intros ->. Qed.

Lemma lookup_ref_commit src name snap c :
  lookup_ref src name snap = Some c → is_Some (Commit snap name).
Proof.
  destruct src; simpl; unfold Commit; [eauto| |]; intros H; [by rewrite H; eauto|].
  destruct (Tags snap !! name); eauto.
Qed.

(** What a selector points at, it admits: a ref the resolver chose is never
    refused when it is declared. *)
Lemma target_admitted kind s snap a :
  (kind = SelectorChannel → no_escape s) →
  Target kind s snap = Ok a → Admit kind s (available_ref a) snap = Ok a.
Proof.
  intros Hesc H. unfold Admit, Target in *.
  assert (∀ name src c, FollowedRef kind s = (name, src) → kind ≠ SelectorCommit →
    lookup_ref src name snap = Some c →
    RefCommit kind s name snap = lookup_ref src name snap →
    admits kind s name c snap = true →
    match Commit snap name with
    | Some _ => match RefCommit kind s name snap with
                | Some commit => if admits kind s name commit snap
                                 then Ok (mkAvailable name commit) else Err ErrNotAdmitted
                | None => Err ErrNotAdmitted
                end
    | None => Err ErrUnknownSelector
    end = Ok (mkAvailable name c)) as Hpin.
  { intros name src c _ _ Hl -> Ha. destruct (lookup_ref_commit _ _ _ _ Hl) as [? ->].
    by rewrite Hl, Ha. }
  destruct kind; cbn [bool_decide andb decide_rel] in *;
    try rewrite (bool_decide_eq_false_2 (_ = SelectorCommit)) by done; cbn [andb].
  all: try (unfold PinnedRef in H; destruct (FollowedRef _ s) as [name src] eqn:Hf;
    destruct (lookup_ref src name snap) as [c|] eqn:Hl; [|done]; injection H as <-;
    apply (Hpin name src c); try done; simpl; rewrite Hf; [done|apply String.eqb_refl]).
  - (* a channel *)
    unfold channelTarget in H. destruct (FindChannel s snap) as [ch|] eqn:Hch; [|done].
    destruct (Commit snap (Latest ch)) as [c|] eqn:Hc; [|done]. injection H as <-. simpl.
    rewrite Hc, FollowedRef_no_escape by auto. simpl. rewrite Hc.
    unfold channelAdmits. rewrite Hch. apply FindChannel_some in Hch as (Hin & _).
    destruct (is_ordered ch) eqn:Ho; [|by rewrite String.eqb_refl].
    rewrite bool_decide_eq_true_2; [done|]. by apply (ordered_latest snap).
  - apply orderedTarget_inv in H as (ch & Hin & Ho & Hn & Hr & Hm & Ht).
    rewrite (Commit_tag _ _ _ Ht). simpl. rewrite Ht, (FindChannel_ordered s snap ch) by done.
    rewrite Ho, bool_decide_eq_true_2 by congruence. by destruct a.
  - apply constraintTarget_ok in H as [Ht Hm]. rewrite (Commit_tag _ _ _ Ht). simpl.
    rewrite Ht, Hm. by destruct a.
  - injection H as <-. simpl. by rewrite equal_fold_refl.
  - done.
Qed.

Definition refined (kind : SelectorKind) : Prop :=
  kind ∈ [SelectorTagPin; SelectorBranchPin; SelectorOrderedChannel; SelectorPointerChannel;
          SelectorBranchChannel; SelectorConstraint; SelectorCommit].

(** A selector that classifies resolves: whatever it names in a snapshot,
    its kind is a refined one, it has a target there unless it is a glob that
    matches no tag, and the ref it points at is admitted back under it with the
    same commit.  (A channel spelled as a full ref name is left out.) *)
Lemma classified_selector_resolves s snap kind :
  wf_snapshot snap → no_escape s ∨ FindChannel s snap = None →
  ClassifySelector s snap = Ok kind →
  refined kind ∧
  (kind ≠ SelectorConstraint → ∃ a, Target kind s snap = Ok a) ∧
  (∀ a, Target kind s snap = Ok a → Admit kind s (available_ref a) snap = Ok a).
Proof.
  intros Hwf Hesc H.
  assert (refined kind ∧ (kind ≠ SelectorConstraint → ∃ a, Target kind s snap = Ok a))
    as [Hr Ht].
  { unfold ClassifySelector in H. destruct (HasEmptyComponent s); [done|].
    destruct (FindChannel s snap) as [c|] eqn:Hc.
    - injection H as <-. destruct Hesc as [Hesc|]; [|done].
      apply FindChannel_some in Hc as (Hin & Hn & _). unfold channelKind.
      destruct (is_ordered c) eqn:Ho.
      + split; [unfold refined; set_solver|]. intros _. simpl.
        rewrite (orderedTarget_ok s snap c) by done. eauto.
      + pose proof Hin as Hin'. rewrite elem_of_ChannelsOf, elem_of_all_channels in Hin'.
        destruct Hin' as [(g & _ & ->)|[(t & [v Hv] & _ & ->)|(_ & Hh & ->)]]; [done| |];
          (split; [unfold refined; simpl; set_solver|]); intros _; simpl in *; subst s;
          unfold Target, PinnedRef; rewrite FollowedRef_no_escape by done; simpl.
        * rewrite Hv. eauto.
        * destruct Hwf as [?|[v Hv]]; [done|]. rewrite Hv. eauto.
    - destruct (pinKind s snap) as [k|] eqn:Hp.
      { injection H as <-. apply pinKind_target in Hp as [[->| ->] ?];
          (split; [unfold refined; set_solver|done]). }
      destruct (isGlob s); [destruct (path_match s ""); simplify_eq|
        destruct (isCommitish s); simplify_eq];
        (split; [unfold refined; set_solver|]); [done|]. intros _. simpl. eauto. }
  split_and!; [done|done|]. intros a Ha. apply target_admitted; [|done].
  intros ->. unfold refined in Hr. set_solver.
Qed.

(** A repository with releases, a rolling tag and two branches *)
Definition sample_snapshot : RefSnapshot :=
  mkSnapshot {[ "v1.9.0" := "c19"; "v1.10.0" := "c110"; "v2.0.0-rc.1" := "c2rc";
                "nightly" := "cn" ]}
    {[ "main" := "cm"; "dev" := "cd" ]} "main".

Lemma classified_selector_resolves_witness :
  ClassifySelector "stable" sample_snapshot = Ok SelectorOrderedChannel ∧
  Target SelectorOrderedChannel "stable" sample_snapshot = Ok (mkAvailable "v1.10.0" "c110") ∧
  Admit SelectorOrderedChannel "stable" "v1.10.0" sample_snapshot =
    Ok (mkAvailable "v1.10.0" "c110").
Proof.
  split; [vm_compute; reflexivity|]. split; [vm_compute; reflexivity|].
  destruct (classified_selector_resolves "stable" sample_snapshot SelectorOrderedChannel)
    as (_ & _ & H).
  - right. vm_compute. eauto.
  - left. by split.
  - vm_compute. reflexivity.
  - apply (H (mkAvailable "v1.10.0" "c110")). vm_compute. reflexivity.
Defined.

(** ** Drift *)

Lemma drift_target kind s snap r :
  kind ≠ SelectorCommit →
  Drift kind s r snap =
    match (match Target kind s snap with
           | Ok target => Ok target
           | Err err => fallbackTarget kind s r snap err
           end) with
    | Err err => Err err
    | Ok target =>
      if String.eqb (available_ref target) (resolved_ref r) &&
         String.eqb (available_commit target) (resolved_commit r) then Ok None
      else if isDowngrade kind r target snap then Ok None
      else Ok (Some target)
    end.
Proof. by destruct kind. Qed.

Lemma formerChannelTarget_inv r snap e a :
  formerChannelTarget r snap e = Ok a →
  ∃ c, c ∈ ChannelsOf snap ∧ is_ordered c = true ∧ resolved_ref r ∈ ChannelMembers c ∧
    a = mkAvailable (Latest c) (commit_of_tag snap (Latest c)).
Proof.
  unfold formerChannelTarget. destruct (String.eqb _ ""); [done|].
  destruct (find_ordered _ _) as [c|] eqn:Hc; [|done]. intros [= <-].
  apply find_ordered_some in Hc as (? & ? & ?%bool_decide_eq_true). eauto 10.
Qed.

(** Moving to the head of the channel one is in settles there. *)
Lemma formerChannelTarget_settles r r' snap e a :
  formerChannelTarget r snap e = Ok a → resolved_ref r' = available_ref a →
  available_ref a ≠ "" → formerChannelTarget r' snap e = Ok a.
Proof.
  intros (c & Hin & Ho & _ & ->)%formerChannelTarget_inv Hr Hne. simpl in *.
  destruct (ordered_latest snap c Hin Ho) as (_ & Hl & _).
  unfold formerChannelTarget. rewrite Hr. destruct (String.eqb_spec (Latest c) ""); [done|].
  destruct (find_ordered_is_Some (λ d, bool_decide (Latest c ∈ ChannelMembers d)) _ c Hin Ho)
    as [d Hd]; [by apply bool_decide_eq_true|].
  rewrite Hd. apply find_ordered_some in Hd as (Hdin & Hdo & Hdm%bool_decide_eq_true).
  by rewrite (ordered_unique snap d c (Latest c)).
Qed.

(** An empty tag name has no version core. *)
Lemma ordered_latest_not_empty snap c :
  c ∈ ChannelsOf snap → is_ordered c = true → Latest c ≠ "".
Proof.
  intros Hin Ho Hl. destruct (ordered_latest snap c Hin Ho) as (_ & Hm & _).
  destruct (ordered_channel snap c Hin Ho) as (g & Hg & ->). simpl in *.
  destruct (group_member _ g _ Hg Hm) as [_ Hcl]. rewrite Hl in Hcl.
  destruct (classify (meaningful (SortedTags snap)) "") as [d|] eqn:Hd; [|done].
  unfold classify in Hd. by vm_compute in Hd.
Qed.

(** Applying an offered update settles it: once the row is at the ref and
    commit it was told to move to, the same snapshot offers nothing more.  (An
    unrefined channel may have fallen back to its default branch, which must
    then not be a tag as well.) *)
Lemma drift_settles kind s r snap a fp :
  (kind = SelectorChannel → Tags snap !! Head snap = None) →
  Drift kind s r snap = Ok (Some a) →
  Drift kind s (mkResolved (available_ref a) (available_commit a) fp) snap = Ok None.
Proof.
  intros Hhead H. destruct (decide (kind = SelectorCommit)) as [->|Hk]; [done|].
  rewrite drift_target in H |- * by done. set (r' := mkResolved _ _ fp).
  assert (∀ t, (match Target kind s snap with
      | Ok target => Ok target | Err err => fallbackTarget kind s r snap err end) = Ok t →
    (match Target kind s snap with
      | Ok target => Ok target
      | Err err => fallbackTarget kind s (mkResolved (available_ref t) (available_commit t) fp) snap err
      end) = Ok t) as Hsame.
  { intros t. destruct (Target kind s snap) as [t'|e]; [done|].
    set (rt := mkResolved _ _ fp).
    assert (formerChannelTarget r snap e = Ok t → formerChannelTarget rt snap e = Ok t) as Hf.
    { intros Hf. apply (formerChannelTarget_settles r); [done|done|].
      apply formerChannelTarget_inv in Hf as (c & Hin & Ho & _ & ->). simpl.
      by eapply ordered_latest_not_empty. }
    destruct kind; simpl; try done.
    destruct (defaultBranchTarget s r snap e) as [t'|] eqn:Hd.
    - intros [= ->]. unfold defaultBranchTarget in *.
      destruct (negb (String.eqb s (Head snap)) || negb (String.eqb (resolved_ref r) s)) eqn:Hg;
        [done|]. apply orb_false_iff in Hg as [Hg _].
      destruct (Branches snap !! s) as [c|]; [|done]. injection Hd as <-. simpl.
      by rewrite Hg, String.eqb_refl.
    - intros Ht. assert (defaultBranchTarget s rt snap e = Err e) as ->; [|by apply Hf].
      apply formerChannelTarget_inv in Ht as (c & Hin & Ho & _ & ->).
      destruct (ordered_latest snap c Hin Ho) as (_ & _ & [v Hv]).
      unfold defaultBranchTarget, rt. simpl.
      destruct (String.eqb_spec s (Head snap)) as [->|]; [simpl|done].
      destruct (String.eqb_spec (Latest c) (Head snap)) as [Heq|]; [|done].
      rewrite Heq, Hhead in Hv by done. done. }
  destruct (match Target kind s snap with Ok target => Ok target | Err err => _ end)
    as [t|] eqn:Ht; [|done].
  assert (t = a) as -> by (repeat case_hyp H; done).
  unfold r'. rewrite (Hsame a eq_refl). simpl. by rewrite !String.eqb_refl.
Qed.

Lemma drift_settles_witness :
  Drift SelectorOrderedChannel "stable" (mkResolved "v1.9.0" "c19" "") sample_snapshot =
    Ok (Some (mkAvailable "v1.10.0" "c110")) ∧
  Drift SelectorOrderedChannel "stable" (mkResolved "v1.10.0" "c110" "f") sample_snapshot = Ok None.
Proof.
  split; [vm_compute; reflexivity|].
  apply (drift_settles SelectorOrderedChannel "stable" (mkResolved "v1.9.0" "c19" "")
    sample_snapshot (mkAvailable "v1.10.0" "c110") "f").
  - discriminate.
  - vm_compute. reflexivity.
Defined.

(** An arrow that follows a channel keeps moving to its newest release:
    installed at a member of the channel, it is offered the first one unless it
    is there already, at that commit.  This holds where no tag is dated. *)
Lemma drift_offers_newest s snap c r :
  (∀ t d, is_Some (Tags snap !! t) → classify (meaningful (SortedTags snap)) t = Some d →
    dated d = false) →
  c ∈ ChannelsOf snap → is_ordered c = true → ChannelName c = s →
  resolved_ref r ∈ ChannelMembers c →
  channel <$> rankOf (Latest c) = channel <$> rankOf (resolved_ref r) →
  let newest := mkAvailable (Latest c) (commit_of_tag snap (Latest c)) in
  Drift SelectorOrderedChannel s r snap =
    Ok (if String.eqb (Latest c) (resolved_ref r) &&
           String.eqb (available_commit newest) (resolved_commit r)
        then None else Some newest).
Proof.
  intros Hd Hc Ho Hn Hr Hch newest. rewrite drift_target by done. simpl.
  rewrite (orderedTarget_ok s snap c) by done. fold newest. simpl.
  destruct (String.eqb (Latest c) (resolved_ref r) && _) eqn:Heq; [done|].
  assert (isDowngrade SelectorOrderedChannel r newest snap = false) as ->; [|done].
  unfold isDowngrade. simpl. destruct (String.eqb_spec (Latest c) (resolved_ref r)) as [|Hne];
    [done|].
  destruct (ordered_members snap c _ Hc Ho Hr) as [v ->].
  destruct (ordered_latest snap c Hc Ho) as (Hhead & _ & _).
  destruct (ordered_channel snap c Hc Ho) as (g & Hg & ->). simpl in *.
  apply list_elem_of_lookup in Hr as [j Hj].
  assert (Members g !! 0 = Some (Latest (ordered_info g))) as H0.
  { unfold ordered_info. simpl. by destruct (Members g). }
  assert (0 < j) as Hj0.
  { destruct j; [|lia]. exfalso. apply Hne. simpl in H0. congruence. }
  apply (outranks_undated_members (SortedTags snap) g 0 j); try done.
  intros t d Ht%elem_of_SortedTags. by apply Hd.
Qed.

Lemma drift_offers_newest_witness :
  Drift SelectorOrderedChannel "stable" (mkResolved "v1.9.0" "c19" "") sample_snapshot =
    Ok (Some (mkAvailable "v1.10.0" "c110")).
Proof.
  assert (ChannelsOf sample_snapshot =
    [mkChannelInfo "stable" KindOrdered "v1.10.0" 2 ["v1.10.0"; "v1.9.0"] false;
     mkChannelInfo "rc" KindOrdered "v2.0.0-rc.1" 1 ["v2.0.0-rc.1"] false;
     mkChannelInfo "nightly" KindPointer "nightly" 0 [] false]) as Hcs by (vm_compute; reflexivity).
  apply (drift_offers_newest "stable" sample_snapshot
    (mkChannelInfo "stable" KindOrdered "v1.10.0" 2 ["v1.10.0"; "v1.9.0"] false)
    (mkResolved "v1.9.0" "c19" "")).
  - intros t d Ht. apply elem_of_SortedTags in Ht. revert Ht.
    replace (SortedTags sample_snapshot) with ["nightly"; "v1.10.0"; "v1.9.0"; "v2.0.0-rc.1"]
      by (vm_compute; reflexivity).
    rewrite !elem_of_cons.
    intros [->|[->|[->|[->|[]%elem_of_nil]]]]; vm_compute; by intros [= <-].
  - rewrite Hcs. apply list_elem_of_here.
  - reflexivity.
  - reflexivity.
  - apply list_elem_of_further, list_elem_of_here.
  - vm_compute. reflexivity.
Defined.

(** With dated tags the newest release can be withheld for good: the
    channel's newest member is a date, the installed semantic version outranks
    it as a pair, and the update is taken for a downgrade although the channel
    ranks the installed version last. *)
Theorem drift_withheld_by_dates :
  let snap := mkSnapshot {[ "stable-2026-09-27" := "cnew"; "v26.5" := "cold"; "v2.0.0" := "c2" ]}
    ∅ "" in
  Target SelectorOrderedChannel "stable" snap = Ok (mkAvailable "stable-2026-09-27" "cnew") ∧
  ChannelMembers <$> FindChannel "stable" snap = Some ["stable-2026-09-27"; "v26.5"; "v2.0.0"] ∧
  Drift SelectorOrderedChannel "stable" (mkResolved "v2.0.0" "c2" "") snap = Ok None.
Proof. vm_compute. done. Qed.

(** ** The default channel *)

(** [sortChannels] orders by these keys. *)
Definition channel_rank (c : ChannelInfo) : Z :=
  if String.eqb (ChannelName c) StableChannel then 0 else if is_ordered c then 1 else 2.

Definition channel_sort_name (c : ChannelInfo) : string :=
  if String.eqb (ChannelName c) StableChannel then "" else ChannelName c.

Lemma compareChannels_keys a b :
  compareChannels a b =
    cmp_then (Z.compare (channel_rank a) (channel_rank b))
      (String.compare (channel_sort_name a) (channel_sort_name b)).
Proof.
  unfold compareChannels, less_channel, channel_rank, channel_sort_name, is_ordered.
  destruct (String.eqb (ChannelName a) StableChannel), (String.eqb (ChannelName b) StableChannel);
    simpl; [done|by repeat case_match..|].
  rewrite (cmp_antisym String.compare (ChannelName a) (ChannelName b)).
  destruct (Kind a), (Kind b); simpl; try done; by destruct (String.compare _ _).
Qed.

#[export] Instance total_cmp_channels : TotalCmp compareChannels.
Proof.
  assert (TotalCmp (λ a b, cmp_then (Z.compare (channel_rank a) (channel_rank b))
    (String.compare (channel_sort_name a) (channel_sort_name b)))) as [Ha Ht].
  { apply total_cmp_then;
      [apply (total_cmp_on channel_rank Z.compare), _
      |apply (total_cmp_on channel_sort_name String.compare), _]. }
  split; intros *; rewrite !compareChannels_keys; [apply Ha|apply Ht].
Qed.

Lemma ChannelsOf_nil snap : ChannelsOf snap = [] ↔ SortedTags snap = [] ∧ Head snap = "".
Proof.
  split.
  - intros H. assert (∀ c, c ∉ all_channels snap) as Hn.
    { intros c. rewrite <-elem_of_ChannelsOf, H. apply not_elem_of_nil. }
    assert (SortedTags snap = []) as Ht.
    { destruct (SortedTags snap) as [|t tags] eqn:Hts; [done|exfalso].
      assert (t ∈ SortedTags snap) as Htin by (rewrite Hts; apply list_elem_of_here).
      destruct (HasVersionCore t) eqn:Hv.
      - assert (t ∈ concat (map Members (GroupChannels (SortedTags snap)))) as Hg
          by (rewrite groups_cover; by apply list_elem_of_filter).
        apply list_elem_of_In, in_concat in Hg as (ms & Hms%list_elem_of_In & _).
        apply list_elem_of_fmap in Hms as (g & -> & Hg).
        apply (Hn (ordered_info g)), elem_of_all_channels. left. eauto.
      - apply (Hn (pointer_info t false)), elem_of_all_channels. right. left.
        exists t. rewrite <-elem_of_SortedTags. eauto. }
    split; [done|]. destruct (String.eqb_spec (Head snap) ""); [done|].
    exfalso. apply (Hn (pointer_info (Head snap) true)), elem_of_all_channels. eauto.
  - intros [Ht Hh]. destruct (ChannelsOf snap) as [|c l] eqn:Hc; [done|exfalso].
    assert (c ∈ all_channels snap) as Hin
      by (rewrite <-elem_of_ChannelsOf, Hc; apply list_elem_of_here).
    apply elem_of_all_channels in Hin as [(g & Hg & _)|[(t & Htt & _)|(_ & ? & _)]]; [| |done].
    + rewrite Ht in Hg. by apply elem_of_nil in Hg.
    + rewrite <-elem_of_SortedTags, Ht in Htt. by apply elem_of_nil in Htt.
Qed.

(** A refless install follows a channel the repository lists: the stable
    one when there is one, else the ordered channel whose newest tag has the
    highest version, else a rolling tag, else the default branch of a repository
    without tags.  It finds none only when there is no tag and no HEAD. *)
Lemma default_channel_listed snap :
  (DefaultChannel snap = Err ErrUnknownSelector ↔ ChannelsOf snap = []) ∧
  (ChannelsOf snap = [] ↔ (∀ t, Tags snap !! t = None) ∧ Head snap = "") ∧
  ∀ name, DefaultChannel snap = Ok name →
    ∃ c, c ∈ ChannelsOf snap ∧ ChannelName c = name ∧
    ((∃ d, d ∈ ChannelsOf snap ∧ ChannelName d = StableChannel) → name = StableChannel) ∧
    (name ≠ StableChannel → ∀ d, d ∈ ChannelsOf snap → is_ordered d = true →
      is_ordered c = true ∧ compareCores (coreOf (Latest d)) (coreOf (Latest c)) ≠ Gt).
Proof.
  unfold DefaultChannel. split_and!.
  - destruct (ChannelsOf snap) as [|c l] eqn:Hc; [done|].
    destruct (String.eqb _ _); [done|].
    destruct (NewestFirst (c :: l)) eqn:Hn; [|done]. unfold NewestFirst in Hn.
    by apply sort_func_nil in Hn.
  - rewrite ChannelsOf_nil. split; intros [Ht Hh]; (split; [|done]).
    + intros t. apply eq_None_not_Some.
      rewrite <-elem_of_SortedTags, Ht. apply not_elem_of_nil.
    + destruct (SortedTags snap) as [|t l] eqn:Hl; [done|].
      assert (t ∈ SortedTags snap) as Hin by (rewrite Hl; apply list_elem_of_here).
      apply elem_of_SortedTags in Hin as [v Hv]. by rewrite Ht in Hv.
  - intros name H. destruct (ChannelsOf snap) as [|c0 l] eqn:Hc; [done|]. rewrite <-Hc in *.
    assert (head (ChannelsOf snap) = Some c0) as Hhead by by rewrite Hc.
    apply (sort_func_head_some compareChannels) in Hhead as [Hin0 Hmin].
    rewrite <-elem_of_ChannelsOf in Hin0.
    destruct (String.eqb_spec (ChannelName c0) StableChannel) as [Hs|Hs].
    { injection H as <-. exists c0. split_and!; [done|done|done|done]. }
    destruct (NewestFirst (ChannelsOf snap)) as [|d k] eqn:Hn; [done|]. injection H as <-.
    assert (head (NewestFirst (ChannelsOf snap)) = Some d) as Hd by by rewrite Hn.
    apply (sort_func_head_some newerThan) in Hd as [Hd Hnew].
    exists d. split_and!; [done|done| |].
    + intros (e & He & Hes). exfalso. rewrite elem_of_ChannelsOf in He.
      apply (Hmin e He). rewrite compareChannels_keys. unfold channel_rank.
      rewrite Hes, String.eqb_refl. apply String.eqb_neq in Hs. rewrite Hs.
      by destruct (is_ordered c0).
    + intros _ e He Heo. specialize (Hnew e He). unfold newerThan in Hnew.
      rewrite Heo in Hnew. by destruct (is_ordered d).
Qed.

Lemma default_channel_listed_witness :
  let snap := mkSnapshot {[ "beta-1.4" := "a"; "rc-2.10" := "b"; "nightly" := "n" ]} ∅ "" in
  DefaultChannel snap = Ok "rc" ∧ ∃ c, c ∈ ChannelsOf snap ∧ ChannelName c = "rc".
Proof.
  intros snap. split; [vm_compute; reflexivity|].
  destruct (default_channel_listed snap) as (_ & _ & H).
  destruct (H "rc") as (c & Hc & Hn & _); [vm_compute; reflexivity|].
  exists c. split; [exact Hc|exact Hn].
Defined.

(** ** The snapshot cache (internal/snapshot)

    [refs] is the answer of the lister to this call and [now] and [stored] the
    clock when the cache is read and when it is written.  The result also says
    whether the lister was asked. *)

Section snapshots.
Context {E : Type} (ttl : Z).

Record entry := mkEntry { snap : RefSnapshot; cachedAt : Z }.

Abbreviation cache := (gmap Namespace entry).

Definition cachedSnapshot (now : Z) (st : cache) (bare : Namespace) : option RefSnapshot :=
  match st !! bare with
  | None => None
  | Some cached => if Z.ltb ttl (now - cachedAt cached) then None else Some (snap cached)
  end.

Definition liveSnapshot (refs : Namespace → result E RefSnapshot) (stored : Z) (st : cache)
  (bare : Namespace) : result E RefSnapshot * cache :=
  match refs bare with
  | Err e => (Err e, st)
  | Ok s => (Ok s, <[bare := mkEntry s stored]> st)
  end.

Definition Snapshot (refs : Namespace → result E RefSnapshot) (now stored : Z) (st : cache)
  (ns : Namespace) : result E RefSnapshot * cache :=
  let bare := BareNamespace ns in
  match cachedSnapshot now st bare with
  | Some cached => (Ok cached, st)
  | None => liveSnapshot refs stored st bare
  end.

Definition FreshSnapshot (refs : Namespace → result E RefSnapshot) (stored : Z) (st : cache)
  (ns : Namespace) : result E RefSnapshot * cache :=
  liveSnapshot refs stored st (BareNamespace ns).

(** What the cache may hold: only what the lister answered, when it did. *)
Definition fetched := list (Namespace * Z * RefSnapshot).

Definition backed (log : fetched) (st : cache) : Prop :=
  ∀ bare e, st !! bare = Some e → (bare, cachedAt e, snap e) ∈ log.

(** What a call adds to what the lister has answered *)
Definition log_live (refs : Namespace → result E RefSnapshot) (stored : Z) (bare : Namespace)
  (log : fetched) : fetched :=
  match refs bare with Ok s => (bare, stored, s) :: log | Err _ => log end.

Lemma liveSnapshot_backed refs stored log st bare r st' :
  backed log st → liveSnapshot refs stored st bare = (r, st') →
  backed (log_live refs stored bare log) st' ∧
  match r with
  | Ok s => refs bare = Ok s ∧ st' = <[bare := mkEntry s stored]> st
  | Err e => refs bare = Err e ∧ st' = st
  end.
Proof.
  unfold liveSnapshot, log_live. intros Hb.
  destruct (refs bare) as [s|e] eqn:Hr; intros [= <- <-]; [|done]. split; [|done].
  intros b e He. destruct (decide (b = bare)) as [->|Hne].
  - rewrite lookup_insert_eq in He. injection He as <-. apply list_elem_of_here.
  - rewrite lookup_insert_ne in He by done. apply list_elem_of_further. by apply Hb.
Qed.
End snapshots.

(** A snapshot is never older than the TTL: what [Snapshot] answers was
    read from the repository, at most [ttl] before it was asked or by this very
    call; every ref of a namespace shares one answer; a failed read changes
    nothing; and [FreshSnapshot] always reads. *)
Lemma snapshot_fresh {E} ttl (refs : Namespace → result E RefSnapshot) now stored log st ns r st' :
  backed log st → Snapshot ttl refs now stored st ns = (r, st') →
  match r with
  | Ok s =>
    (∃ at_, (BareNamespace ns, at_, s) ∈ log ∧ (now - at_ <= ttl)%Z ∧ st' = st) ∨
    (refs (BareNamespace ns) = Ok s ∧ backed (log_live refs stored (BareNamespace ns) log) st')
  | Err e => refs (BareNamespace ns) = Err e ∧ st' = st
  end ∧
  (∀ ns', BareNamespace ns' = BareNamespace ns →
    Snapshot ttl refs now stored st ns' = (r, st')) ∧
  fst (FreshSnapshot refs stored st ns) = refs (BareNamespace ns).
Proof.
  intros Hb H. split_and!.
  - unfold Snapshot, cachedSnapshot in H.
    destruct (st !! BareNamespace ns) as [e|] eqn:He; [destruct (Z.ltb_spec ttl (now - cachedAt e))|].
    2: { injection H as <- <-. left. exists (cachedAt e). split_and!; [by apply Hb|lia|done]. }
    all: apply (liveSnapshot_backed refs stored log) in H as [Hb' H]; [|done];
      destruct r; naive_solver.
  - intros ns' Hns. unfold Snapshot in *. by rewrite Hns.
  - unfold FreshSnapshot, liveSnapshot. by destruct (refs _).
Qed.

Lemma snapshot_fresh_witness :
  let st := {[ "github.com/user/app" := mkEntry sample_snapshot 100 ]} : gmap Namespace entry in
  let log := [("github.com/user/app", 100%Z, sample_snapshot)] in
  let refs (_ : Namespace) := Err "offline" : result string RefSnapshot in
  Snapshot 60 refs 150 150 st "github.com/user/app@v1.9.0" = (Ok sample_snapshot, st) ∧
  fst (FreshSnapshot refs 150 st "github.com/user/app@v1.9.0") = Err "offline".
Proof.
  intros st log refs. split; [vm_compute; reflexivity|].
  apply (snapshot_fresh 60 refs 150 150 log st "github.com/user/app@v1.9.0" (Ok sample_snapshot) st).
  - intros bare e [<- <-]%lookup_singleton_Some. apply list_elem_of_here.
  - vm_compute. reflexivity.
Defined.
