(* ===== verification/Targets.v ===== *)
(** * Targets (internal/engine/manifold: translator/arrow/v0/selector.go,
    models/precompiled_target.go, models/selector.go, compiler/compiler.go)

    From the targets a manifest declares to the one target each operating system
    gets: the most specific key that matches wins, its chain of bases is merged
    with the child winning, and every value that varies by platform is resolved.

    Loops over a Go map take the list of its entries; the functions on maps pass
    [map_to_list], and the theorems hold for every order of the entries. *)

From S2P Require Import Prelude GoStrings GoPath Domain Steps.

(** ** Data *)

Record PrecompiledTarget := mkPrecompiled {
  Base : string;
  pre_requirements : Requirement;
  pre_tools : option (list Namespace);
  pre_services : option (list Namespace);
  pre_exports : gmap string (Overrideable string);
  pre_lifecycle : TargetLifecycle;
  pre_methods : gmap string Method;
  pre_expose : Expose;
}.

Abbreviation targets := (gmap string PrecompiledTarget).

(** Where an error was met, as its message says *)
Inductive context :=
| InExport (key : string)
| InLifecycle (name : string)
| InMethod (name : string)
| InStep (index : nat) (title : string)
| InField (name : string).

Inductive target_error :=
| ErrNoTargetForOS
| AmbiguousTargetError (Key1 Key2 os : string)
| BaseCycle (key : string)
| BaseNotFound (key : string)
| Wrapped (c : context) (e : target_error).

Definition wrap {A} (c : context) (r : result target_error A) : result target_error A :=
  rmap_err (Wrapped c) r.

(** ** Selecting a key *)

Definition IsAbstractTarget (key : string) : bool := String.prefix "_" key.

Definition matchesTarget (key : string) (os : OS) : bool :=
  if String.eqb key "*" then true else path_matches key (os_string os).

Definition specificity (key : string) : Z :=
  if String.eqb key "*" then 1 else if contains key "*" then 2 else 3.

(** [(bestKey, tieKey, bestRank)] after one more key *)
Definition updateBest (bestKey tieKey : string) (bestRank : Z) (key : string) (os : OS)
  : string * string * Z :=
  if IsAbstractTarget key then (bestKey, tieKey, bestRank)
  else if negb (matchesTarget key os) then (bestKey, tieKey, bestRank)
  else
    let rank := specificity key in
    if Z.ltb bestRank rank then (key, "", rank)
    else if Z.eqb rank bestRank then (bestKey, key, bestRank)
    else (bestKey, tieKey, bestRank).

Definition findWinner_in (keys : list string) (os : OS) : result target_error string :=
  let '(bestKey, tieKey, _) :=
    foldl (λ '(b, t, r) key, updateBest b t r key os) ("", "", (-1)%Z) keys in
  if negb (String.eqb tieKey "") then Err (AmbiguousTargetError bestKey tieKey (os_string os))
  else if String.eqb bestKey "" then Err ErrNoTargetForOS
  else Ok bestKey.

Definition findWinner (ts : targets) (os : OS) : result target_error string :=
  findWinner_in (map fst (map_to_list ts)) os.

(** ** Merging a chain of bases *)

Definition mergeNamespaces (parent child : option (list Namespace)) : option (list Namespace) :=
  match child with Some _ => child | None => parent end.

Definition mergeStepList (parent child : StepList) : StepList :=
  match child with Some _ => child | None => parent end.

Definition mergeExposeEntries (parent child : option (list ExposeEntry))
  : option (list ExposeEntry) :=
  match child with Some _ => child | None => parent end.

Definition mergeExpose (parent child : Expose) : Expose :=
  mkExpose (mergeExposeEntries (CLI parent) (CLI child))
    (mergeExposeEntries (Desktop parent) (Desktop child)).

Definition mergeRequirements (parent child : Requirement) : Requirement :=
  mkRequirement
    (if negb (Z.eqb (CpuCores child) 0) then CpuCores child else CpuCores parent)
    (if negb (Z.eqb (MemoryGB child) 0) then MemoryGB child else MemoryGB parent)
    (if negb (Z.eqb (DiskGB child) 0) then DiskGB child else DiskGB parent).

(** Both maps are copied, the child's last; nil and empty do not differ later. *)
Definition mergeExports (parent child : gmap string (Overrideable string))
  : gmap string (Overrideable string) := child ∪ parent.

Definition mergeMethods (parent child : gmap string Method) : gmap string Method :=
  child ∪ parent.

Definition mergeLifecycle (parent child : TargetLifecycle) : TargetLifecycle :=
  mkTargetLifecycle
    (mergeStepList (Install parent) (Install child))
    (mergeStepList (Update parent) (Update child))
    (mergeStepList (Execute parent) (Execute child))
    (mergeStepList (Stop parent) (Stop child))
    (mergeStepList (Uninstall parent) (Uninstall child))
    (mergeStepList (Preinstalled parent) (Preinstalled child)).

Definition mergeTargets (parent child : PrecompiledTarget) : PrecompiledTarget :=
  mkPrecompiled ""
    (mergeRequirements (pre_requirements parent) (pre_requirements child))
    (mergeNamespaces (pre_tools parent) (pre_tools child))
    (mergeNamespaces (pre_services parent) (pre_services child))
    (mergeExports (pre_exports parent) (pre_exports child))
    (mergeLifecycle (pre_lifecycle parent) (pre_lifecycle child))
    (mergeMethods (pre_methods parent) (pre_methods child))
    (mergeExpose (pre_expose parent) (pre_expose child)).

(** The recursion takes fuel; [None] is out of fuel. *)
Fixpoint walkBaseChain (fuel : nat) (key : string) (ts : targets) (visited : gset string)
  : option (result target_error PrecompiledTarget) :=
  match fuel with
  | O => None
  | S fuel' =>
    if bool_decide (key ∈ visited) then Some (Err (BaseCycle key))
    else match ts !! key with
         | None => Some (Err (BaseNotFound key))
         | Some t =>
           if String.eqb (Base t) "" then Some (Ok t)
           else match walkBaseChain fuel' (Base t) ts ({[ key ]} ∪ visited) with
                | Some (Ok parent) => Some (Ok (mergeTargets parent t))
                | r => r
                end
         end
  end.

Definition flattenBaseChain (fuel : nat) (key : string) (ts : targets)
  : option (result target_error PrecompiledTarget) := walkBaseChain fuel key ts ∅.

(** ** Resolving values *)

(** The loop of [resolveOverrideable]: best rank, best key, tie and value *)
Definition update_value {T} (os : OS) (st : Z * string * string * T) (entry : string * T)
  : Z * string * string * T :=
  let '(bestRank, bestKey, tieKey, bestVal) := st in
  let '(key, val) := entry in
  if negb (matchesTarget key os) then st
  else
    let rank := specificity key in
    if Z.ltb bestRank rank then (rank, key, "", val)
    else if Z.eqb rank bestRank then (bestRank, bestKey, key, bestVal)
    else st.

(** The zero value of [T] is never returned without an error; the loop starts
    from the default instead. *)
Definition resolveOverrideable_in {T} (entries : list (string * T)) (d : T) (os : OS)
  : result target_error T :=
  let '(bestRank, bestKey, tieKey, bestVal) :=
    foldl (update_value os) ((-1)%Z, "", "", d) entries in
  if negb (String.eqb tieKey "") then Err (AmbiguousTargetError bestKey tieKey (os_string os))
  else if Z.leb 0 bestRank then Ok bestVal
  else Ok d.

Definition resolveOverrideable {T} (o : Overrideable T) (os : OS) : result target_error T :=
  resolveOverrideable_in (map_to_list (OSArch o)) (Default o) os.

Definition resolveField {T} (o : Overrideable T) (os : OS) (field : string)
  : result target_error (Overrideable T) :=
  let? val := wrap (InField field) (resolveOverrideable o os) in
  Ok (flat val).

Definition resolveFromToTimeout (from to timeout : Overrideable string) (os : OS)
  : result target_error (Overrideable string * Overrideable string * Overrideable string) :=
  let? from' := resolveField from os "from" in
  let? to' := resolveField to os "to" in
  let? timeout' := resolveField timeout os "timeout" in
  Ok (from', to', timeout').

Definition resolveRunStep (b : BasicStep) (command : Overrideable string)
  (elevated : Overrideable bool) (timeout : Overrideable string) (ui : option UIOptions) (os : OS)
  : result target_error Step :=
  let? command' := resolveField command os "command" in
  let? elevated' := resolveField elevated os "elevated" in
  let? timeout' := resolveField timeout os "timeout" in
  Ok (RunStep b command' elevated' timeout' ui).

Definition resolveFetchStep (b : BasicStep) (url to checksum timeout : Overrideable string)
  (os : OS) : result target_error Step :=
  let? url' := resolveField url os "url" in
  let? to' := resolveField to os "to" in
  let? checksum' := resolveField checksum os "checksum" in
  let? timeout' := resolveField timeout os "timeout" in
  Ok (FetchStep b url' to' checksum' timeout').

Definition resolveExtractStep (b : BasicStep) (from to timeout : Overrideable string) (os : OS)
  : result target_error Step :=
  let? ' (from', to', timeout') := resolveFromToTimeout from to timeout os in
  Ok (ExtractStep b from' to' timeout').

Definition resolvePortableStep (b : BasicStep) (from to timeout : Overrideable string)
  (name : string) (os : OS) : result target_error Step :=
  let? ' (from', to', timeout') := resolveFromToTimeout from to timeout os in
  Ok (PortableStep b from' to' timeout' name).

Definition resolveSignalStep (b : BasicStep) (signal timeout : Overrideable string) (os : OS)
  : result target_error Step :=
  let? signal' := resolveField signal os "signal" in
  let? timeout' := resolveField timeout os "timeout" in
  Ok (SignalStep b signal' timeout').

Definition resolveStep (s : Step) (os : OS) : result target_error Step :=
  match s with
  | RunStep b c e t ui => resolveRunStep b c e t ui os
  | FetchStep b u to c t => resolveFetchStep b u to c t os
  | ExtractStep b f to t => resolveExtractStep b f to t os
  | PortableStep b f to t n => resolvePortableStep b f to t n os
  | SignalStep b sg t => resolveSignalStep b sg t os
  | DependenciesStep _ | ExposeStep _ _ _ _ _ _ _ | UnexposeStep _ =>
    Ok (Resolve s (os_string os))
  end.

Definition step_basic (s : Step) : BasicStep :=
  match s with
  | RunStep b _ _ _ _ | FetchStep b _ _ _ _ | ExtractStep b _ _ _ | PortableStep b _ _ _ _
  | SignalStep b _ _ | DependenciesStep b | ExposeStep b _ _ _ _ _ _ | UnexposeStep b => b
  end.

Fixpoint resolveSteps (i : nat) (steps : list Step) (os : OS) : result target_error (list Step) :=
  match steps with
  | [] => Ok []
  | s :: steps' =>
    let? r := wrap (InStep i (title (step_basic s))) (resolveStep s os) in
    let? rs := resolveSteps (S i) steps' os in
    Ok (r :: rs)
  end.

Definition resolveStepList (steps : StepList) (os : OS) : result target_error StepList :=
  match steps with
  | None => Ok None
  | Some steps => let? rs := resolveSteps 0 steps os in Ok (Some rs)
  end.

Fixpoint resolveExports_in (entries : list (string * Overrideable string)) (os : OS)
  : result target_error (gmap string string) :=
  match entries with
  | [] => Ok ∅
  | (k, v) :: entries' =>
    let? val := wrap (InExport k) (resolveOverrideable v os) in
    let? rest := resolveExports_in entries' os in
    Ok (<[k := val]> rest)
  end.

Definition resolveExports (exports : gmap string (Overrideable string)) (os : OS)
  : result target_error (gmap string string) := resolveExports_in (map_to_list exports) os.

Fixpoint resolveMethods_in (entries : list (string * Method)) (os : OS)
  : result target_error (gmap string Method) :=
  match entries with
  | [] => Ok ∅
  | (name, m) :: entries' =>
    let? steps := wrap (InMethod name) (resolveStepList (method_steps m) os) in
    let? rest := resolveMethods_in entries' os in
    Ok (<[name := mkMethod (AvailableIn m) steps]> rest)
  end.

Definition resolveMethods (methods : gmap string Method) (os : OS)
  : result target_error (gmap string Method) := resolveMethods_in (map_to_list methods) os.

Definition resolveLifecycle (lc : TargetLifecycle) (os : OS)
  : result target_error TargetLifecycle :=
  let? install := wrap (InLifecycle "install") (resolveStepList (Install lc) os) in
  let? update := wrap (InLifecycle "update") (resolveStepList (Update lc) os) in
  let? execute := wrap (InLifecycle "execute") (resolveStepList (Execute lc) os) in
  let? stop := wrap (InLifecycle "stop") (resolveStepList (Stop lc) os) in
  let? uninstall := wrap (InLifecycle "uninstall") (resolveStepList (Uninstall lc) os) in
  let? preinstalled := wrap (InLifecycle "preinstalled") (resolveStepList (Preinstalled lc) os) in
  Ok (mkTargetLifecycle install update execute stop uninstall preinstalled).

Definition toDepEdges (namespaces : option (list Namespace)) (depType : DepType)
  : list DependencyEdge :=
  map (λ ns, mkDependencyEdge ns (Ref ns) depType) (default [] namespaces).

Definition buildResolvedTarget (t : PrecompiledTarget) (os : OS) : result target_error Target :=
  let? exports := resolveExports (pre_exports t) os in
  let? lifecycle := resolveLifecycle (pre_lifecycle t) os in
  let? methods := resolveMethods (pre_methods t) os in
  Ok (mkTarget (pre_requirements t) (toDepEdges (pre_tools t) ToolDep)
    (toDepEdges (pre_services t) ServiceDep) exports lifecycle methods (pre_expose t)).

(** The walk visits a key once, so one call more than there are targets is
    enough. *)
Definition chain_fuel (ts : targets) : nat := S (S (size ts)).

(** [None] is out of fuel, which [flatten_total] excludes. *)
Definition SelectTarget (precompiled : targets) (os : OS) : option (result target_error Target) :=
  match findWinner precompiled os with
  | Err e => Some (Err e)
  | Ok winnerKey =>
    match flattenBaseChain (chain_fuel precompiled) winnerKey precompiled with
    | None => None
    | Some (Err e) => Some (Err e)
    | Some (Ok t) => Some (buildResolvedTarget t os)
    end
  end.

(** ** Compiling for every operating system *)

(** [errors.Is(err, ErrNoTargetForOS)] and [errors.As(err, &ambiguous)] *)
Fixpoint is_no_target (e : target_error) : bool :=
  match e with
  | ErrNoTargetForOS => true
  | Wrapped _ e' => is_no_target e'
  | _ => false
  end.

Fixpoint is_ambiguous (e : target_error) : bool :=
  match e with
  | AmbiguousTargetError _ _ _ => true
  | Wrapped _ e' => is_ambiguous e'
  | _ => false
  end.

Inductive compile_error :=
| CompileAmbiguous (os : OS) (e : target_error)
| CompileSelect (os : OS) (e : target_error).

(** The targets of a compiled manifest, in the order of [AllOS]; a Go map keyed
    by the operating system. *)
Abbreviation compiled := (list (OS * Target)).

Fixpoint compile_all (oses : list OS) (precompiled : targets)
  : option (result compile_error compiled) :=
  match oses with
  | [] => Some (Ok [])
  | os :: oses' =>
    match SelectTarget precompiled os with
    | None => None
    | Some (Err e) =>
      if is_no_target e then compile_all oses' precompiled
      else if is_ambiguous e then Some (Err (CompileAmbiguous os e))
      else Some (Err (CompileSelect os e))
    | Some (Ok target) =>
      match compile_all oses' precompiled with
      | Some (Ok rest) => Some (Ok ((os, target) :: rest))
      | r => r
      end
    end
  end.

Definition has_steps (l : StepList) : bool := negb (Nat.eqb (length (steps_of l)) 0).

Definition start_command (os : OS) : string :=
  if IsWindows os then String "034" ("${ARROW_APP}" +:+ String "034" "")
  else "exec " +:+ String "034" ("${ARROW_APP}" +:+ String "034" "").

Definition with_start_stop (os : OS) (t : Target) : Target :=
  let lc := Lifecycle t in
  mkTarget (Requirements t) (Tools t) (Services t) (Exports t)
    (mkTargetLifecycle (Install lc) (Update lc)
      (Some [NewRunStep "Start" (start_command os) false "" true])
      (Some [NewSignalStep "Stop" SignalKindGraceful "10s" false])
      (Uninstall lc) (Preinstalled lc))
    (Methods t) (TargetExpose t).

Definition addStartStop (ts : compiled) : compiled :=
  if existsb (λ '(_, t), has_steps (Execute (Lifecycle t))) ts then ts
  else if negb (existsb (λ '(_, t),
      negb (Nat.eqb (length (default [] (Desktop (TargetExpose t)))) 0)) ts) then ts
  else map (λ '(os, t), (os, with_start_stop os t)) ts.

(** [compiler.Compile]: the targets it stores in the manifest. *)
Definition Compile (precompiled : targets) : option (result compile_error compiled) :=
  match compile_all AllOS precompiled with
  | Some (Ok ts) => Some (Ok (addStartStop ts))
  | r => r
  end.

(** ** Selection *)

Section pick.
Context (selected : string → bool).

(** What [updateBest] and the loop of [resolveOverrideable] share *)
Definition pick_step (st : string * string * Z) (key : string) : string * string * Z :=
  let '(b, t, r) := st in
  if negb (selected key) then st
  else if Z.ltb r (specificity key) then (key, "", specificity key)
  else if Z.eqb (specificity key) r then (b, key, r)
  else st.

Definition pick (keys : list string) : string * string * Z :=
  foldl pick_step ("", "", (-1)%Z) keys.

(** The most specific of the selected keys *)
Definition best_of (keys : list string) (k : string) : Prop :=
  k ∈ keys ∧ selected k = true ∧
  ∀ k', k' ∈ keys → selected k' = true → (specificity k' <= specificity k)%Z.

Definition sole_best (keys : list string) (k : string) : Prop :=
  best_of keys k ∧ ∀ k', best_of keys k' → k' = k.

Lemma specificity_pos k : (1 <= specificity k)%Z.
Proof. unfold specificity. repeat case_match; lia. Qed.

Lemma pick_spec keys :
  NoDup keys → selected "" = false →
  let '(b, t, r) := pick keys in
  (b = "" ∧ t = "" ∧ r = (-1)%Z ∧ ∀ k, k ∈ keys → selected k = false) ∨
  (best_of keys b ∧ b ≠ "" ∧ r = specificity b ∧
    ((t = "" ∧ ∀ k, best_of keys k → k = b) ∨ (best_of keys t ∧ t ≠ b ∧ t ≠ ""))).
Proof.
  intros Hn Hempty. unfold pick.
  induction keys as [|k keys IH] using rev_ind.
  { simpl. left. split_and!; [done..|]. by intros k ?%elem_of_nil. }
  apply NoDup_app in Hn as (Hn & Hnin & _). specialize (IH Hn).
  rewrite foldl_app. simpl. destruct (foldl pick_step _ keys) as [[b t] r].
  assert (k ∉ keys) as Hk by (intros Hk; apply (Hnin k Hk), list_elem_of_here).
  assert (∀ x, x ∈ keys ++ [k] ↔ x ∈ keys ∨ x = k) as Hin
    by (intros x; by rewrite elem_of_app, list_elem_of_singleton).
  unfold pick_step. destruct (selected k) eqn:Hs; simpl.
  2: { unfold best_of in *. setoid_rewrite Hin. destruct IH as [(-> & -> & -> & H)|((Hb & Hsb & Hmax) & Hb0 & -> & Ht)]; [left|right].
    - split_and!; [done..|]. naive_solver.
    - split_and!; [by left|done| |done|done|].
      + intros k' [?| ->] ?; [by apply Hmax|congruence].
      + destruct Ht as [[-> Ht]|((? & ? & ?) & ? & ?)]; [left|right].
        * split; [done|]. intros k' (Hk' & Hsk' & Hm). destruct Hk' as [Hk'| ->]; [|congruence].
          apply Ht. split_and!; [done|done|]. intros; apply Hm; [by left|done].
        * split_and!; [by left|done| |done|done]. intros k' [?| ->] ?; [eauto|congruence]. }
  assert (k ≠ "") as Hk0 by congruence.
  pose proof (specificity_pos k) as Hpos.
  destruct (Z.ltb_spec r (specificity k)) as [Hlt|Hge].
  { right. unfold best_of in *. setoid_rewrite Hin.
    assert (∀ k', k' ∈ keys → selected k' = true → (specificity k' < specificity k)%Z) as Hless.
    { intros k' Hk' Hsk'. destruct IH as [(_ & _ & _ & H)|((_ & _ & Hmax) & _ & -> & _)].
      - rewrite (H k' Hk') in Hsk'. done.
      - specialize (Hmax k' Hk' Hsk'). lia. }
    split_and!; [by right|done| |done|done|].
    - intros k' [Hk'| ->] Hsk'; [specialize (Hless k' Hk' Hsk'); lia|lia].
    - left. split; [done|]. intros k' ([Hk'| ->] & Hsk' & Hm); [|done].
      specialize (Hless k' Hk' Hsk'). specialize (Hm k (or_intror eq_refl) Hs). lia. }
  destruct IH as [(_ & _ & -> & _)|((Hb & Hsb & Hmax) & Hb0 & -> & Ht)]; [lia|].
  assert (b ≠ k) as Hbk by (intros ->; done).
  destruct (Z.eqb_spec (specificity k) (specificity b)) as [Heq|Hne];
    right; unfold best_of in *; setoid_rewrite Hin.
  - split_and!; [by left|done| |done|done|].
    + intros k' [?| ->] ?; [by apply Hmax|lia].
    + right. split_and!; [by right|done| |done|done].
      intros k' [Hk'| ->] Hsk'; [specialize (Hmax k' Hk' Hsk'); lia|lia].
  - split_and!; [by left|done| |done|done|].
    + intros k' [?| ->] ?; [by apply Hmax|lia].
    + destruct Ht as [[-> Ht]|((? & ? & ?) & ? & ?)]; [left|right].
      * split; [done|]. intros k' ([Hk'| ->] & Hsk' & Hm).
        -- apply Ht. split_and!; [done|done|]. intros; apply Hm; [by left|done].
        -- specialize (Hm b (or_introl Hb) Hsb). lia.
      * split_and!; [by left|done| |done|done]. intros k' [?| ->] ?; [eauto|].
        specialize (Hmax t ltac:(done) ltac:(done)). assert (specificity b <= specificity t)%Z; eauto. lia.
Qed.

(** Strictly more specific than every other selected key *)
Definition strictly_best (keys : list string) (k : string) : Prop :=
  k ∈ keys ∧ selected k = true ∧
  ∀ k', k' ∈ keys → selected k' = true → k' ≠ k → (specificity k' < specificity k)%Z.

Lemma pick_verdict keys :
  NoDup keys → selected "" = false →
  let '(b, t, r) := pick keys in
  (b = "" ∧ t = "" ∧ r = (-1)%Z ∧ ∀ k, k ∈ keys → selected k = false) ∨
  (b ≠ "" ∧ t = "" ∧ (0 <= r)%Z ∧ ∀ k, strictly_best keys k ↔ k = b) ∨
  (t ≠ "" ∧ b ≠ t ∧ best_of keys b ∧ best_of keys t ∧ specificity b = specificity t ∧
    ∀ k, ¬ strictly_best keys k).
Proof.
  intros Hn He. pose proof (pick_spec keys Hn He) as Hp. destruct (pick keys) as [[b t] r].
  destruct Hp as [?|(Hb & Hb0 & -> & [[-> Ht]|(Htb & Hne & Ht0)])]; [by left|right; left|right; right].
  - pose proof (specificity_pos b). split_and!; [done|done|lia|]. intros k. split.
    + intros (Hk & Hs & Hlt). apply Ht. split_and!; [done|done|]. intros k' Hk' Hs'.
      destruct (decide (k' = k)) as [->|Hkk]; [lia|]. specialize (Hlt k' Hk' Hs' Hkk). lia.
    + intros ->. destruct Hb as (Hb & Hs & Hmax). split_and!; [done|done|].
      intros k' Hk' Hs' Hkk. specialize (Hmax k' Hk' Hs') as Hle.
      destruct (decide (specificity k' = specificity b)) as [Heq|]; [|lia].
      destruct Hkk. apply Ht. split_and!; [done|done|]. intros x Hx Hxs. rewrite Heq. by apply Hmax.
  - destruct Hb as (Hb & Hs & Hmax), Htb as (Htb & Hts & Htmax).
    pose proof (Hmax t Htb Hts). pose proof (Htmax b Hb Hs).
    split_and!; [done|congruence|by split_and!|by split_and!|lia|].
    intros k (Hk & Hks & Hlt). destruct (decide (b = k)) as [->|Hbk].
    + specialize (Hlt t Htb Hts Hne). lia.
    + specialize (Hlt b Hb Hs Hbk). specialize (Hmax k Hk Hks). lia.
Qed.
End pick.

(** ** Which target an operating system gets *)

Definition target_selected (os : OS) (key : string) : bool :=
  negb (IsAbstractTarget key) && matchesTarget key os.

Lemma findWinner_in_pick keys os :
  findWinner_in keys os =
    let '(b, t, _) := pick (target_selected os) keys in
    if negb (String.eqb t "") then Err (AmbiguousTargetError b t (os_string os))
    else if String.eqb b "" then Err ErrNoTargetForOS else Ok b.
Proof.
  unfold findWinner_in, pick.
  assert (∀ st, foldl (λ '(b, t, r) key, updateBest b t r key os) st keys =
    foldl (pick_step (target_selected os)) st keys) as ->; [|done].
  induction keys as [|k keys IH]; intros [[b t] r]; [done|]. simpl. rewrite IH. f_equal.
  unfold updateBest, pick_step, target_selected. by destruct (IsAbstractTarget k).
Qed.

Lemma matches_empty os : os_string os ≠ "" → matchesTarget "" os = false.
Proof. unfold matchesTarget. by destruct (os_string os). Qed.

Lemma map_fst_nodup {A} (m : gmap string A) : NoDup (map fst (map_to_list m)).
Proof. apply (NoDup_fst_map_to_list m). Qed.

Lemma elem_of_map_fst {A} (m : gmap string A) k : k ∈ map fst (map_to_list m) ↔ is_Some (m !! k).
Proof.
  rewrite list_elem_of_fmap. split.
  - intros ([k' v] & -> & Hv%elem_of_map_to_list). by exists v.
  - intros [v Hv]. exists (k, v). by rewrite elem_of_map_to_list.
Qed.

(** An operating system gets the target with the most specific key: the
    exact platform before a glob, a glob before [*], abstract targets never.
    Two equally specific matches are refused rather than chosen between, and
    no match at all is its own error.  Nothing depends on the order in which
    the targets are enumerated. *)
Lemma most_specific_target (ts : targets) os keys :
  os_string os ≠ "" → keys ≡ₚ map fst (map_to_list ts) →
  let matches k := is_Some (ts !! k) ∧ IsAbstractTarget k = false ∧ matchesTarget k os = true in
  (∀ k, findWinner_in keys os = Ok k ↔
    matches k ∧ ∀ k', matches k' → k' ≠ k → (specificity k' < specificity k)%Z) ∧
  (findWinner_in keys os = Err ErrNoTargetForOS ↔ ∀ k, ¬ matches k) ∧
  (∀ e, findWinner_in keys os = Err e → e ≠ ErrNoTargetForOS →
    ∃ k1 k2, e = AmbiguousTargetError k1 k2 (os_string os) ∧ k1 ≠ k2 ∧
      matches k1 ∧ matches k2 ∧ specificity k1 = specificity k2).
Proof.
  intros Hos Hkeys matches.
  assert (NoDup keys) as Hn by (rewrite Hkeys; apply map_fst_nodup).
  assert (∀ k, k ∈ keys ∧ target_selected os k = true ↔ matches k) as Hm.
  { intros k. unfold matches, target_selected. rewrite Hkeys, elem_of_map_fst.
    rewrite andb_true_iff, negb_true_iff. tauto. }
  assert (target_selected os "" = false) as He
    by (unfold target_selected; rewrite (matches_empty os) by done; apply andb_false_r).
  rewrite findWinner_in_pick. pose proof (pick_verdict _ keys Hn He) as Hp.
  destruct (pick (target_selected os) keys) as [[b t] r].
  assert (∀ k, strictly_best (target_selected os) keys k ↔
    matches k ∧ ∀ k', matches k' → k' ≠ k → (specificity k' < specificity k)%Z) as Hbest.
  { intros k. unfold strictly_best. setoid_rewrite <-Hm. naive_solver. }
  setoid_rewrite <-Hbest. setoid_rewrite <-Hm.
  destruct Hp as [(-> & -> & _ & H)|[(Hb0%String.eqb_neq & -> & _ & H)|
    (Ht0%String.eqb_neq & Hne & (Hb & Hbs & _) & (Ht & Hts & _) & Heq & H)]]; simpl.
  - split_and!; [|split; [|done]; intros _ k [Hk Hs]; rewrite (H k Hk) in Hs; done|congruence].
    intros k. split; [done|]. intros (Hk & Hs & _). rewrite (H k Hk) in Hs. done.
  - rewrite Hb0. split_and!; [intros k; rewrite H; naive_solver| |done].
    split; [done|]. intros Hnone. destruct (proj2 (H b) eq_refl) as (Hb & Hs & _). by destruct (Hnone b).
  - rewrite Ht0. simpl. split_and!.
    + intros k. split; [done|]. by intros ?%H.
    + split; [done|]. intros Hnone. by destruct (Hnone b).
    + intros e [= <-] _. exists b, t. by split_and!.
Qed.

Definition sample_target (base : string) : PrecompiledTarget :=
  mkPrecompiled base (mkRequirement 0 0 0) None None ∅
    (mkTargetLifecycle None None None None None None) ∅ (mkExpose None None).

Lemma most_specific_target_witness :
  let ts := {[ "_base" := sample_target ""; "*" := sample_target "_base";
               "linux/*" := sample_target "*"; "linux/amd64" := sample_target "linux/*" ]}
    : targets in
  findWinner ts OSLinuxAMD64 = Ok "linux/amd64" ∧ findWinner ts OSLinuxARM64 = Ok "linux/*" ∧
  (specificity "linux/*" < specificity "linux/amd64")%Z.
Proof.
  intros ts. split_and!; [vm_compute; reflexivity..|].
  destruct (most_specific_target ts OSLinuxAMD64 (map fst (map_to_list ts))) as [H _];
    [discriminate|reflexivity|].
  apply (H "linux/amd64"); [vm_compute; reflexivity| |discriminate].
  split_and!; [vm_compute; eauto|reflexivity|vm_compute; reflexivity].
Defined.

(** ** Base chains *)

Definition base_edge (ts : targets) (a b : string) : Prop :=
  ∃ t, ts !! a = Some t ∧ Base t ≠ "" ∧ Base t = b.

(** The targets of a chain, child first, and what they merge to *)
Inductive base_chain (ts : targets) : string → list PrecompiledTarget → PrecompiledTarget → Prop :=
| chain_root key t : ts !! key = Some t → Base t = "" → base_chain ts key [t] t
| chain_base key t l p :
  ts !! key = Some t → Base t ≠ "" → base_chain ts (Base t) l p →
  base_chain ts key (t :: l) (mergeTargets p t).

Lemma walk_sound fuel key ts visited r :
  (∀ v, v ∈ visited → tc (base_edge ts) v key) →
  walkBaseChain fuel key ts visited = Some r →
  match r with
  | Ok t => ∃ l, base_chain ts key l t
  | Err (BaseCycle k) => rtc (base_edge ts) key k ∧ tc (base_edge ts) k k
  | Err (BaseNotFound k) => rtc (base_edge ts) key k ∧ ts !! k = None
  | Err _ => False
  end.
Proof.
  revert key visited r. induction fuel as [|fuel IH]; intros key visited r Hv H; [done|].
  simpl in H. case_bool_decide as Hk; [simplify_eq; split; [done|by apply Hv]|].
  destruct (ts !! key) as [t|] eqn:Ht; [|by simplify_eq].
  destruct (String.eqb_spec (Base t) "") as [Hb|Hb].
  { simplify_eq. exists [t]. by apply chain_root. }
  assert (base_edge ts key (Base t)) as He by (exists t; eauto).
  destruct (walkBaseChain fuel (Base t) ts _) as [r'|] eqn:Hw; [|done].
  apply IH in Hw; last first.
  { intros v [->%elem_of_singleton|Hin]%elem_of_union; [by apply tc_once|].
    eapply tc_r; [by apply Hv|done]. }
  destruct r' as [p|e]; simplify_eq.
  - destruct Hw as [l Hl]. exists (t :: l). by apply chain_base.
  - destruct e; try done; destruct Hw; (split; [|done]); by eapply rtc_l.
Qed.

Lemma walk_total fuel key ts visited :
  size (dom ts ∖ visited) < fuel → is_Some (walkBaseChain fuel key ts visited).
Proof.
  revert key visited. induction fuel as [|fuel IH]; intros key visited Hf; [lia|]. simpl.
  case_bool_decide as Hk; [by eexists|]. destruct (ts !! key) as [t|] eqn:Ht; [|by eexists].
  destruct (String.eqb (Base t) ""); [by eexists|].
  destruct (IH (Base t) ({[key]} ∪ visited)) as [[p|e] ->]; [|by eexists..].
  assert (key ∈ dom ts ∖ visited) as Hin by (apply elem_of_difference; split; [by apply elem_of_dom_2 in Ht|done]).
  assert (dom ts ∖ ({[key]} ∪ visited) ⊂ dom ts ∖ visited) as Hsub by set_solver.
  apply subset_size in Hsub. lia.
Qed.

Lemma flatten_total key ts : is_Some (flattenBaseChain (chain_fuel ts) key ts).
Proof.
  apply walk_total. unfold chain_fuel. rewrite difference_empty_L, size_dom. lia.
Qed.

(** The first of the values the targets of a chain declare *)
Definition nearest {A} (f : PrecompiledTarget → option A) (l : list PrecompiledTarget) : option A :=
  head (omap f l).

Lemma nearest_chain {A} (f : PrecompiledTarget → option A) ts key l t :
  (∀ p c, f (mergeTargets p c) = match f c with Some a => Some a | None => f p end) →
  base_chain ts key l t → f t = nearest f l.
Proof.
  intros Hf. unfold nearest. induction 1 as [key t _ _|key t l p _ _ _ IH]; simpl.
  - by destruct (f t).
  - rewrite Hf, IH. by destruct (f t).
Qed.

(** A requirement of 0 is not declared. *)
Definition declared (n : Z) : option Z := if Z.eqb n 0 then None else Some n.

(** Following a chain of bases always ends, and with the right verdict: it
    merges the chain when there is one, reports a cycle only when a base leads
    back to itself, and a missing base only when it is missing. *)
Lemma base_chain_verdict key ts :
  ∃ r, flattenBaseChain (chain_fuel ts) key ts = Some r ∧
  match r with
  | Ok t => ∃ l, base_chain ts key l t
  | Err (BaseCycle k) => rtc (base_edge ts) key k ∧ tc (base_edge ts) k k
  | Err (BaseNotFound k) => rtc (base_edge ts) key k ∧ ts !! k = None
  | Err _ => False
  end.
Proof.
  destruct (flatten_total key ts) as [r Hr]. exists r. split; [done|].
  apply (walk_sound (chain_fuel ts) key ts ∅ r); [by intros v ?%elem_of_empty|done].
Qed.

(** In a merged chain the nearest declaration wins, for everything a target
    declares: each step list (an empty list counts as declared), each method
    and export by name, dependencies, exposed entries, and each requirement
    that is not 0. *)
Lemma nearest_declaration_wins ts key l t :
  base_chain ts key l t →
  (∀ f, f ∈ [Install; Update; Execute; Stop; Uninstall; Preinstalled] →
    f (pre_lifecycle t) = nearest (λ p, f (pre_lifecycle p)) l) ∧
  (∀ k, pre_methods t !! k = nearest (λ p, pre_methods p !! k) l) ∧
  (∀ k, pre_exports t !! k = nearest (λ p, pre_exports p !! k) l) ∧
  pre_tools t = nearest pre_tools l ∧ pre_services t = nearest pre_services l ∧
  CLI (pre_expose t) = nearest (λ p, CLI (pre_expose p)) l ∧
  Desktop (pre_expose t) = nearest (λ p, Desktop (pre_expose p)) l ∧
  (∀ f, f ∈ [CpuCores; MemoryGB; DiskGB] →
    declared (f (pre_requirements t)) = nearest (λ p, declared (f (pre_requirements p))) l).
Proof.
  intros H. split_and!.
  - intros f Hf. apply (nearest_chain (λ p, f (pre_lifecycle p)) ts key); [|done].
    intros p c. rewrite !elem_of_cons in Hf.
    destruct Hf as [->|[->|[->|[->|[->|[->|[]%elem_of_nil]]]]]]; simpl;
      unfold mergeStepList; by case_match.
  - intros k. apply (nearest_chain (λ p, pre_methods p !! k) ts key); [|done].
    intros p c. simpl. unfold mergeMethods. rewrite lookup_union.
    by destruct (pre_methods c !! k), (pre_methods p !! k).
  - intros k. apply (nearest_chain (λ p, pre_exports p !! k) ts key); [|done].
    intros p c. simpl. unfold mergeExports. rewrite lookup_union.
    by destruct (pre_exports c !! k), (pre_exports p !! k).
  - apply (nearest_chain _ ts key); [|done]. intros p c. simpl. by destruct (pre_tools c).
  - apply (nearest_chain _ ts key); [|done]. intros p c. simpl. by destruct (pre_services c).
  - apply (nearest_chain (λ p, CLI (pre_expose p)) ts key); [|done].
    intros p c. simpl. by destruct (CLI (pre_expose c)).
  - apply (nearest_chain (λ p, Desktop (pre_expose p)) ts key); [|done].
    intros p c. simpl. by destruct (Desktop (pre_expose c)).
  - intros f Hf. apply (nearest_chain (λ p, declared (f (pre_requirements p))) ts key); [|done].
    intros p c. rewrite !elem_of_cons in Hf. unfold declared.
    destruct Hf as [->|[->|[->|[]%elem_of_nil]]]; simpl; case_match; by repeat case_match.
Qed.

Lemma nearest_declaration_wins_witness :
  let base := mkPrecompiled "" (mkRequirement 2 4 0) (Some ["github.com/a/tool@v1"]) None
    ∅ (mkTargetLifecycle (Some [DependenciesStep (mkBasicStep "d" true)]) None None None
      (Some []) None) ∅ (mkExpose None None) in
  let child := mkPrecompiled "_b" (mkRequirement 8 0 0) None None ∅
    (mkTargetLifecycle (Some []) None None None None None) ∅ (mkExpose None None) in
  let ts := {[ "_b" := base; "*" := child ]} : targets in
  base_chain ts "*" [child; base] (mergeTargets base child) ∧
  Install (pre_lifecycle (mergeTargets base child)) = Some [].
Proof.
  intros base child ts.
  assert (base_chain ts "*" [child; base] (mergeTargets base child)) as Hc.
  { apply (chain_base ts "*" child [base] base); [reflexivity|discriminate|].
    by apply chain_root. }
  split; [exact Hc|].
  destruct (nearest_declaration_wins ts "*" _ _ Hc) as [H _].
  rewrite (H Install); [reflexivity|]. apply list_elem_of_here.
Defined.

(** ** Values *)

Lemma update_value_pick {T} os (entries : list (string * T)) d :
  matchesTarget "" os = false →
  ∃ v, foldl (update_value os) ((-1)%Z, "", "", d) entries =
      (let '(b, t, r) := pick (λ k, matchesTarget k os) (map fst entries) in (r, b, t, v)) ∧
    (let '(b, t, r) := pick (λ k, matchesTarget k os) (map fst entries) in
     (b = "" ∧ v = d) ∨ (b, v) ∈ entries).
Proof.
  intros He. induction entries as [|[k x] entries IH] using rev_ind.
  { exists d. simpl. by split; [|left]. }
  unfold pick in *. rewrite map_app, !foldl_app. simpl.
  destruct IH as (v & -> & IH). destruct (foldl _ _ (map fst entries)) as [[b t] r].
  unfold pick_step, update_value. destruct (matchesTarget k os) eqn:Hk; simpl.
  - destruct (Z.ltb r (specificity k)); [|destruct (Z.eqb _ _)].
    + exists x. split; [done|]. right. apply elem_of_app. right. apply list_elem_of_here.
    + exists v. split; [done|]. destruct IH as [?|?]; [by left|right; apply elem_of_app; by left].
    + exists v. split; [done|]. destruct IH as [?|?]; [by left|right; apply elem_of_app; by left].
  - exists v. split; [done|]. destruct IH as [?|?]; [by left|right; apply elem_of_app; by left].
Qed.

(** A value that varies by platform resolves to the one filed under the
    most specific key that matches, and to the default only when none does; two
    equally specific matches are an error.  The order of the entries does not
    matter. *)
Lemma override_most_specific {T} (m : gmap string T) entries d os :
  os_string os ≠ "" → entries ≡ₚ map_to_list m →
  let matches k := is_Some (m !! k) ∧ matchesTarget k os = true in
  let strictly k := matches k ∧
    ∀ k', matches k' → k' ≠ k → (specificity k' < specificity k)%Z in
  (∀ v, resolveOverrideable_in entries d os = Ok v ↔
    (∃ k, strictly k ∧ m !! k = Some v) ∨ (v = d ∧ ∀ k, ¬ matches k)) ∧
  (∀ e, resolveOverrideable_in entries d os = Err e →
    ∃ k1 k2, e = AmbiguousTargetError k1 k2 (os_string os) ∧ k1 ≠ k2 ∧
      matches k1 ∧ matches k2 ∧ specificity k1 = specificity k2).
Proof.
  intros Hos Hent matches strictly. set (sel k := matchesTarget k os).
  assert (sel "" = false) as He by by apply matches_empty.
  assert (NoDup (map fst entries)) as Hn by (rewrite Hent; apply map_fst_nodup).
  assert (∀ k, k ∈ map fst entries ∧ sel k = true ↔ matches k) as Hm
    by (intros k; unfold matches, sel; by rewrite Hent, elem_of_map_fst).
  destruct (update_value_pick os entries d He) as (v & Hf & Hv).
  unfold resolveOverrideable_in. rewrite Hf. fold sel in Hv |- *.
  pose proof (pick_verdict sel _ Hn He) as Hp. destruct (pick sel _) as [[b t] r].
  assert (∀ k, strictly_best sel (map fst entries) k ↔ strictly k) as Hbest.
  { intros k. unfold strictly_best, strictly. setoid_rewrite <-Hm. naive_solver. }
  destruct Hp as [(-> & -> & -> & H)|[(Hb0 & -> & Hr & H)|
    (Ht0%String.eqb_neq & Hne & (Hb & Hbs & _) & (Ht & Hts & _) & Heq & H)]]; simpl.
  - assert (∀ k, ¬ matches k) as Hnone by (intros k [Hk Hs]%Hm; rewrite (H k Hk) in Hs; done).
    split; [|done]. intros x. split; [intros [= <-]; by right|].
    intros [(k & [Hk _] & _)|[-> _]]; [by apply Hnone in Hk|done].
  - rewrite (proj2 (Z.leb_le 0 r) Hr). split; [|done].
    destruct Hv as [[? _]|Hv]; [done|]. rewrite Hent in Hv. apply elem_of_map_to_list in Hv.
    assert (strictly b) as Hsb by (apply Hbest; by apply H). intros x. split.
    + intros [= <-]. left. by exists b.
    + intros [(k & Hk & Hx)|[_ Hnone]]; [|by destruct (Hnone b), Hsb].
      apply Hbest, H in Hk as ->. congruence.
  - rewrite Ht0. simpl. split.
    + intros x. split; [done|]. intros [(k & Hk%Hbest & _)|[_ Hnone]]; [by apply H in Hk|].
      by destruct (Hnone b); apply Hm.
    + intros e [= <-]. exists b, t. split_and!; [done|done|by apply Hm|by apply Hm|done].
Qed.

Lemma override_most_specific_witness :
  let o := mkOverrideable "generic" {[ "linux/*" := "glob"; "linux/amd64" := "exact" ]} in
  resolveOverrideable o OSLinuxAMD64 = Ok "exact" ∧
  resolveOverrideable o OSLinuxARM64 = Ok "glob" ∧
  resolveOverrideable o OSDarwinARM64 = Ok "generic" ∧
  ∀ k, ¬ (is_Some (OSArch o !! k) ∧ matchesTarget k OSDarwinARM64 = true).
Proof.
  intros o. split_and!; [vm_compute; reflexivity..|].
  destruct (override_most_specific (OSArch o) (map_to_list (OSArch o)) (Default o) OSDarwinARM64)
    as [H _]; [discriminate|reflexivity|].
  destruct (proj1 (H "generic")) as [(k & _ & Hk)|[_ Hn]]; [vm_compute; reflexivity| |exact Hn].
  exfalso. revert Hk. simpl. rewrite !lookup_insert_Some, lookup_singleton_Some.
  intros [[_ ?]|[_ [_ ?]]]; discriminate.
Defined.

(** ** The compiled target *)

(** A step none of whose values vary any more *)
Definition flat_step (s : Step) : Prop := ∀ os, Resolve s os = s.

Definition flat_list (l : StepList) : Prop := Forall flat_step (steps_of l).

Definition flat_target (t : Target) : Prop :=
  (∀ f, f ∈ [Install; Update; Execute; Stop; Uninstall; Preinstalled] → flat_list (f (Lifecycle t))) ∧
  map_Forall (λ _ m, flat_list (method_steps m)) (Methods t).

Lemma Resolve_over_flat {T} (v : T) os : Resolve_over (flat v) os = v.
Proof. done. Qed.

Lemma resolveField_flat {T} (o : Overrideable T) os field o' :
  resolveField o os field = Ok o' → ∃ v, o' = flat v.
Proof. unfold resolveField. intros H. inv_bind H. simplify_eq. eauto. Qed.

Lemma resolveFromToTimeout_flat f t o os f' t' o' :
  resolveFromToTimeout f t o os = Ok (f', t', o') →
  ∃ vf vt vo, f' = flat vf ∧ t' = flat vt ∧ o' = flat vo.
Proof.
  unfold resolveFromToTimeout. intros H.
  apply rbind_ok in H as (? & [? ->]%resolveField_flat & H).
  apply rbind_ok in H as (? & [? ->]%resolveField_flat & H).
  apply rbind_ok in H as (? & [? ->]%resolveField_flat & H). simplify_eq. eauto 10.
Qed.

(** Resolve one [let?]-bound field after another. *)
Ltac flat_fields H :=
  repeat (apply rbind_ok in H; destruct H as (? & [? ->]%resolveField_flat & H)).

Lemma resolveStep_flat s os s' : resolveStep s os = Ok s' → flat_step s'.
Proof.
  intros H os'. destruct s; simpl in H.
  - unfold resolveRunStep in H. flat_fields H. by simplify_eq.
  - unfold resolveFetchStep in H. flat_fields H. by simplify_eq.
  - unfold resolveExtractStep in H.
    apply rbind_ok in H as ([[f t] o] & (? & ? & ? & -> & -> & ->)%resolveFromToTimeout_flat & H).
    by simplify_eq.
  - unfold resolvePortableStep in H.
    apply rbind_ok in H as ([[f t] o] & (? & ? & ? & -> & -> & ->)%resolveFromToTimeout_flat & H).
    by simplify_eq.
  - unfold resolveSignalStep in H. flat_fields H. by simplify_eq.
  - by simplify_eq.
  - by simplify_eq.
  - by simplify_eq.
Qed.

Lemma wrap_ok {A} c (r : result target_error A) a : wrap c r = Ok a ↔ r = Ok a.
Proof. destruct r; naive_solver. Qed.

Lemma resolveStepList_flat l os l' : resolveStepList l os = Ok l' → flat_list l'.
Proof.
  destruct l as [steps|]; simpl; [|intros; simplify_eq; constructor].
  intros H. apply rbind_ok in H as (rs & H & ?). simplify_eq. unfold flat_list. simpl.
  revert rs H. generalize 0. induction steps as [|s steps IH]; intros n rs H; simpl in H.
  { simplify_eq. constructor. }
  apply rbind_ok in H as (r & Hr%wrap_ok & H). apply rbind_ok in H as (rs' & Hrs & H). simplify_eq.
  constructor; [by eapply resolveStep_flat|by eapply IH].
Qed.

Lemma resolveMethods_flat methods os ms :
  resolveMethods methods os = Ok ms → map_Forall (λ _ m, flat_list (method_steps m)) ms.
Proof.
  unfold resolveMethods. generalize (map_to_list methods). intros l. revert ms.
  induction l as [|[k m] l IH]; intros ms H; simpl in H.
  { simplify_eq. apply map_Forall_empty. }
  apply rbind_ok in H as (steps & Hs%wrap_ok & H). apply rbind_ok in H as (rest & Hr & H).
  simplify_eq. apply map_Forall_insert_2; [|by apply IH]. simpl. by eapply resolveStepList_flat.
Qed.

Lemma buildResolvedTarget_flat t os t' : buildResolvedTarget t os = Ok t' → flat_target t'.
Proof.
  unfold buildResolvedTarget. intros H.
  apply rbind_ok in H as (ex & _ & H). apply rbind_ok in H as (lc & Hlc & H).
  apply rbind_ok in H as (ms & Hms & H). simplify_eq. split; simpl; [|by eapply resolveMethods_flat].
  unfold resolveLifecycle in Hlc.
  repeat (apply rbind_ok in Hlc; destruct Hlc as (? & ?%wrap_ok%resolveStepList_flat & Hlc)).
  simplify_eq. intros f Hf. rewrite !elem_of_cons in Hf.
  by destruct Hf as [->|[->|[->|[->|[->|[->|[]%elem_of_nil]]]]]].
Qed.

(** What [SelectTarget] answers for a platform *)
Lemma SelectTarget_total ts os : is_Some (SelectTarget ts os).
Proof.
  unfold SelectTarget. destruct (findWinner ts os) as [k|]; [|by eexists].
  destruct (flatten_total k ts) as [[t|e] ->]; by eexists.
Qed.

Lemma SelectTarget_ok ts os t :
  SelectTarget ts os = Some (Ok t) →
  ∃ key l pre, findWinner ts os = Ok key ∧ base_chain ts key l pre ∧
    buildResolvedTarget pre os = Ok t.
Proof.
  unfold SelectTarget. intros H. destruct (findWinner ts os) as [k|] eqn:Hk; [|done].
  destruct (flattenBaseChain _ k ts) as [[pre|e]|] eqn:Hf; simplify_eq.
  apply walk_sound in Hf as [l Hl]; [|by intros v ?%elem_of_empty]. eauto 10.
Qed.

Lemma rmap_err_no_target c e : is_no_target (Wrapped c e) = is_no_target e.
Proof. done. Qed.

Lemma compile_all_total oses ts : is_Some (compile_all oses ts).
Proof.
  induction oses as [|os oses IH]; simpl; [by eexists|].
  destruct (SelectTarget_total ts os) as [[t|e] ->].
  - destruct IH as [[rest|e] ->]; by eexists.
  - destruct (is_no_target e); [done|]. destruct (is_ambiguous e); by eexists.
Qed.

Lemma compile_all_ok oses ts res :
  compile_all oses ts = Some (Ok res) → NoDup oses →
  NoDup (map fst res) ∧
  (∀ os t, (os, t) ∈ res ↔ os ∈ oses ∧ SelectTarget ts os = Some (Ok t)) ∧
  (∀ os, os ∈ oses → os ∉ map fst res →
    ∃ e, SelectTarget ts os = Some (Err e) ∧ is_no_target e = true).
Proof.
  revert res. induction oses as [|os oses IH]; intros res H Hn; simpl in H.
  { simplify_eq. split_and!; [constructor| |by intros ? ?%elem_of_nil].
    intros os t. split; [by intros ?%elem_of_nil|by intros [?%elem_of_nil _]]. }
  apply NoDup_cons in Hn as [Hnin Hn].
  destruct (SelectTarget ts os) as [[t|e]|] eqn:Hs; [| |done].
  - destruct (compile_all oses ts) as [[rest|]|] eqn:Hr; simplify_eq.
    destruct (IH rest eq_refl Hn) as (Hnd & Hin & Hmiss). split_and!.
    + simpl. apply NoDup_cons. split; [|done].
      intros ([os' t'] & -> & [? _]%Hin)%list_elem_of_fmap. done.
    + intros os' t'. rewrite !elem_of_cons, Hin. naive_solver.
    + intros os' Hos' Hnot. simpl in Hnot. apply not_elem_of_cons in Hnot as [? ?].
      apply elem_of_cons in Hos' as [?|?]; [done|by apply Hmiss].
  - destruct (is_no_target e) eqn:He; [|by destruct (is_ambiguous e)].
    destruct (IH res H Hn) as (Hnd & Hin & Hmiss). split_and!; [done| |].
    + intros os' t'. rewrite Hin, elem_of_cons. split; [naive_solver|].
      intros [[->|?] ?]; [congruence|done].
    + intros os' Hos' Hnot. apply elem_of_cons in Hos' as [->|?]; [by exists e|by apply Hmiss].
Qed.

Lemma addStartStop_fst ts : map fst (addStartStop ts) = map fst ts.
Proof.
  unfold addStartStop. repeat case_match; try done. rewrite map_map.
  apply map_ext. by intros [].
Qed.

Lemma flat_start_stop os t : flat_target t → flat_target (with_start_stop os t).
Proof.
  intros [Hl Hm]. split; [|done]. intros f. rewrite !elem_of_cons.
  intros [->|[->|[->|[->|[->|[->|[]%elem_of_nil]]]]]]; simpl; try (by apply Hl; set_solver);
    by repeat constructor.
Qed.

(** Compiling a manifest always ends.  When it succeeds, each supported
    platform has the target selected for it, or none when no key matches, and
    every step of every target is settled: resolving it again, on whatever
    platform, changes nothing.  A declared execute is never replaced; without
    one, a manifest that exposes a desktop app gets a start and a stop in every
    target. *)
Lemma compile_targets precompiled :
  is_Some (Compile precompiled) ∧
  ∀ res, Compile precompiled = Some (Ok res) →
  NoDup (map fst res) ∧
  (∀ os, os ∈ AllOS → os ∈ map fst res ↔ ∃ t, SelectTarget precompiled os = Some (Ok t)) ∧
  (∀ os t, (os, t) ∈ res → flat_target t ∧
    ∃ t0, SelectTarget precompiled os = Some (Ok t0) ∧
      (t = t0 ∨ t = with_start_stop os t0 ∧ has_steps (Execute (Lifecycle t0)) = false)) ∧
  let selected os t := os ∈ AllOS ∧ SelectTarget precompiled os = Some (Ok t) in
  ((∃ os t, selected os t ∧ default [] (Desktop (TargetExpose t)) ≠ []) →
    (∀ os t, selected os t → has_steps (Execute (Lifecycle t)) = false) →
    ∀ os t, (os, t) ∈ res → ∃ t0, selected os t0 ∧ t = with_start_stop os t0).
Proof.
  unfold Compile. split; [destruct (compile_all_total AllOS precompiled) as [[?|?] ->]; by eexists|].
  intros res H. destruct (compile_all AllOS precompiled) as [[ts|]|] eqn:Hc; simplify_eq.
  apply compile_all_ok in Hc as (Hn & Hin & Hmiss); [|by apply (bool_decide_unpack _)].
  assert (∀ os t, (os, t) ∈ addStartStop ts → ∃ t0, (os, t0) ∈ ts ∧
    (t = t0 ∨ t = with_start_stop os t0 ∧ has_steps (Execute (Lifecycle t0)) = false)) as Hadd.
  { intros os t. unfold addStartStop. case_match eqn:Hex; [eauto|]. case_match; [eauto|].
    intros ([os' t'] & [= -> ->] & Ht)%list_elem_of_fmap. exists t'. split; [done|]. right.
    split; [done|]. apply not_true_iff_false. intros Hs. apply not_true_iff_false in Hex.
    apply Hex, existsb_exists. exists (os', t'). split; [by apply list_elem_of_In|done]. }
  split_and!.
  - by rewrite addStartStop_fst.
  - intros os Hos. rewrite addStartStop_fst, list_elem_of_fmap. split.
    + intros ([os' t] & -> & [_ Ht]%Hin). by exists t.
    + intros [t Ht]. exists (os, t). split; [done|]. by apply Hin.
  - intros os t (t0 & [_ Ht0]%Hin & Ht)%Hadd.
    assert (flat_target t0) as Hflat.
    { apply SelectTarget_ok in Ht0 as (? & ? & ? & _ & _ & ?). by eapply buildResolvedTarget_flat. }
    split; [|eauto]. destruct Ht as [->|[-> _]]; [done|by apply flat_start_stop].
  - intros (os & t & Hsel & Hdesk) Hnone os' t'. unfold addStartStop.
    assert (∀ x, existsb (λ '(_, t), has_steps (Execute (Lifecycle t))) ts = x → x = false) as Hex.
    { intros [|] Hx; [|done]. apply existsb_exists in Hx as ([o u] & Hi%list_elem_of_In & Hs).
      apply Hin, Hnone in Hi. congruence. }
    rewrite (Hex _ eq_refl). case_match eqn:Hd.
    { exfalso. apply negb_true_iff, not_true_iff_false in Hd. apply Hd, existsb_exists.
      exists (os, t). split; [by apply list_elem_of_In, Hin|]. by destruct (default [] _). }
    intros ([o u] & [= -> ->] & Hi%Hin)%list_elem_of_fmap. by exists u.
Qed.

Lemma compile_targets_witness :
  let app := mkPrecompiled "" (mkRequirement 1 1 1) None None ∅
    (mkTargetLifecycle None None None None None None) ∅
    (mkExpose None (Some [mkExposeEntry "App" "auto" "" []])) in
  let ts := {[ "linux/*" := app ]} : targets in
  ∃ res, Compile ts = Some (Ok res) ∧ map fst res = [OSLinuxAMD64; OSLinuxARM64] ∧
    ∀ os t, (os, t) ∈ res → flat_target t.
Proof.
  intros app ts.
  destruct (compile_targets ts) as [_ H].
  eexists. split; [vm_compute; reflexivity|]. split; [reflexivity|].
  destruct (H _ ltac:(vm_compute; reflexivity)) as (_ & _ & Hflat & _).
  intros os t Ht. exact (proj1 (Hflat os t Ht)).
Defined.
