(* ===== verification/Trace.v ===== *)
(** * Computations that write down what they do

    The repositories run among other goroutines, over a store, a catalog and
    processes they do not control.  A function of theirs is a state transformer on
    the world those share, and also returns, in order, the list of what it did: the
    calls it made and the answers it got.  A theorem about that list holds whatever
    the world answered. *)

From S2P Require Import Prelude.

Definition T (E W A : Type) : Type := W → A * W * list E.

#[export] Instance T_ret {E W} : MRet (T E W) := λ A a w, (a, w, []).
#[export] Instance T_bind {E W} : MBind (T E W) := λ A B f m w,
  let '(a, w1, l1) := m w in
  let '(b, w2, l2) := f a w1 in
  (b, w2, l1 ++ l2).

(** Whatever the world, [m] returns and does what [Q] allows. *)
Definition emits {E W A} (m : T E W A) (Q : A → list E → Prop) : Prop :=
  ∀ w a w' l, m w = (a, w', l) → Q a l.

Lemma emits_ret {E W A} (a : A) (Q : A → list E → Prop) : Q a [] → emits (W := W) (mret a) Q.
Proof. intros H w b w' l [= <- _ <-]. done. Qed.

Lemma emits_bind {E W A B} (m : T E W A) (f : A → T E W B) P Q :
  emits m P → (∀ a l, P a l → emits (f a) (λ b l', Q b (l ++ l'))) → emits (m ≫= f) Q.
Proof.
  intros Hm Hf w b w' l H. unfold mbind, T_bind in H.
  destruct (m w) as [[a w1] l1] eqn:H1. destruct (f a w1) as [[b' w2] l2] eqn:H2.
  simplify_eq. eapply Hf; [by eapply Hm|done].
Qed.

Lemma emits_mono {E W A} (m : T E W A) (P Q : A → list E → Prop) :
  emits m P → (∀ a l, P a l → Q a l) → emits m Q.
Proof. intros Hm H w a w' l Hw. by eapply H, Hm. Qed.

Lemma emits_and {E W A} (m : T E W A) (P Q : A → list E → Prop) :
  emits m P → emits m Q → emits m (λ a l, P a l ∧ Q a l).
Proof. intros HP HQ w a w' l Hw. split; [by eapply HP|by eapply HQ]. Qed.

(** Every action of [m] satisfies [P]. *)
Definition only {E W A} (P : E → Prop) (m : T E W A) : Prop := emits m (λ _ l, Forall P l).

Lemma only_ret {E W A} (P : E → Prop) (a : A) : only (W := W) P (mret a).
Proof. apply emits_ret. constructor. Qed.

Lemma only_bind {E W A B} P (m : T E W A) (f : A → T E W B) :
  only P m → (∀ a, only P (f a)) → only P (m ≫= f).
Proof.
  intros Hm Hf. eapply emits_bind; [exact Hm|]. intros a l Hl.
  eapply emits_mono; [apply Hf|]. intros b l' Hl'. by apply Forall_app.
Qed.

Lemma only_mono {E W A} (P Q : E → Prop) (m : T E W A) :
  only P m → (∀ a, P a → Q a) → only Q m.
Proof. intros Hm H. eapply emits_mono; [exact Hm|]. intros a l Hl. eapply Forall_impl; [exact Hl|]. exact H. Qed.
