(* ===== verification/Graph.v ===== *)
(** * The dependency graph (internal/app/repositories/graph)

    The plan of an install, the edges kept in a table and the difference between the
    dependencies of two manifests.  The manifests come from [resolveManifest]; the
    table is the list of its rows, with the primary key SQLite enforces and the
    [WHERE] clauses as filters. *)

From S2P Require Import Prelude GoStrings Domain Steps Manifest DepTree.

(** ** Data *)

Record PlanEntry := mkPlanEntry {
  entry_namespace : Namespace;
  entry_type : DepType;
}.

Record ConstrainedDep := mkConstrained {
  constrained_namespace : Namespace;
  OldConstraint : string;
  NewConstraint : string;
}.

Record DepDiff := mkDepDiff {
  Added : list DependencyEdge;
  Removed : list DependencyEdge;
  Constrained : list ConstrainedDep;
}.

Record DepEdgeRow := mkRow {
  FromNamespace : string;
  FromVersion : string;
  ToNamespace : string;
  ToVersion : string;
  row_constraint : string;
  row_type : DepType;
}.

#[export] Instance DepType_eq_dec : EqDecision DepType.
Proof. solve_decision. Defined.

#[export] Instance DepEdgeRow_eq_dec : EqDecision DepEdgeRow.
Proof. solve_decision. Defined.

(** ** Helpers (internal/helpers.go) *)

(** The loop over one list of edges: what was seen, and what was kept *)
Fixpoint collect_edges (seen : gset Namespace) (edges : list DependencyEdge)
  : gset Namespace * list DependencyEdge :=
  match edges with
  | [] => (seen, [])
  | e :: edges' =>
    let bare := BareNamespace (edge_namespace e) in
    if decide (bare ∈ seen) then collect_edges seen edges'
    else let '(seen', kept) := collect_edges ({[ bare ]} ∪ seen) edges' in (seen', e :: kept)
  end.

Definition CollectEdgesForOS (arrow : option Arrow) (os : OS) : list DependencyEdge :=
  match arrow with
  | None => []
  | Some a =>
    match target_of a os with
    | None => []
    | Some target =>
      let '(seen, tools) := collect_edges ∅ (Tools target) in
      let '(_, services) := collect_edges seen (Services target) in
      tools ++ services
    end
  end.

Fixpoint dedup_from (seen : gset Namespace) (ns : list Namespace) : list Namespace :=
  match ns with
  | [] => []
  | n :: ns' => if decide (n ∈ seen) then dedup_from seen ns' else n :: dedup_from ({[ n ]} ∪ seen) ns'
  end.

Definition DedupNamespaces (ns : list Namespace) : list Namespace := dedup_from ∅ ns.

(** ** Identities *)

Definition declaredSelector (edge : DependencyEdge) : string :=
  if negb (String.eqb (edge_constraint edge) "") then edge_constraint edge
  else Ref (edge_namespace edge).

Definition dependencyIdentity (edge : DependencyEdge) : Namespace :=
  let bare := BareNamespace (edge_namespace edge) in
  let selector := declaredSelector edge in
  if String.eqb selector "" then bare else WithRef bare selector.

(** ** The plan *)

Section graph.
Context {E : Type} (os : OS) (resolveManifest : Namespace → result E Arrow).
Context (ctx_err : nat → option E).

(** The children of an arrow in the order of the plan *)
Definition children (target : Target) : list Namespace :=
  DedupNamespaces (map dependencyIdentity (Tools target) ++
    map dependencyIdentity (Services target)).

(** What the resolver closure answers *)
Definition resolver (depNs : Namespace) : result E (list Namespace) :=
  match resolveManifest depNs with
  | Err e => Err e
  | Ok m => match target_of m os with None => Ok [] | Some target => Ok (children target) end
  end.

(** What a call of the closure writes to [typeIndex] *)
Definition index_types (index : gmap Namespace DepType) (depNs : Namespace)
  : gmap Namespace DepType :=
  match resolveManifest depNs with
  | Err _ => index
  | Ok m =>
    match target_of m os with
    | None => index
    | Some target =>
      let index := foldl (λ i e, <[dependencyIdentity e := ToolDep]> i) index (Tools target) in
      foldl (λ i e, <[dependencyIdentity e := ServiceDep]> i) index (Services target)
    end
  end.

(** [Graph.Resolve]: the order of the tree less the arrow itself, each with its type *)
Definition ResolvePlan (fuel : nat) (ns : Namespace)
  : option (result (dep_error E) (list PlanEntry)) :=
  match Resolve resolver ctx_err fuel ns with
  | None => None
  | Some (Err e) => Some (Err e)
  | Some (Ok ordered) =>
    let typeIndex := foldl index_types ∅ (resolver_calls resolver ctx_err fuel ns) in
    Some (Ok (map (λ dep, mkPlanEntry dep (default ToolDep (typeIndex !! dep)))
      (filter (λ dep, dep ≠ ns) ordered)))
  end.

(** [Graph.Unplan] *)
Definition Unplan (fuel : nat) (ns : Namespace)
  : option (result (dep_error E) (list PlanEntry)) :=
  match ResolvePlan fuel ns with
  | Some (Ok plan) => Some (Ok (rev plan))
  | r => r
  end.
End graph.

(** ** The table of edges (internal/store/edges.go) *)

Definition same_key (a b : DepEdgeRow) : bool :=
  String.eqb (FromNamespace a) (FromNamespace b) && String.eqb (FromVersion a) (FromVersion b) &&
  String.eqb (ToNamespace a) (ToNamespace b).

Definition is_from (fromNs fromVersion : string) (r : DepEdgeRow) : bool :=
  String.eqb (FromNamespace r) fromNs && String.eqb (FromVersion r) fromVersion.

Definition is_to (toNs toVersion : string) (r : DepEdgeRow) : bool :=
  String.eqb (ToNamespace r) toNs && String.eqb (ToVersion r) toVersion.

Definition DeleteFrom (fromNs fromVersion : string) (t : list DepEdgeRow) : list DepEdgeRow :=
  filter (λ r, is_from fromNs fromVersion r = false) t.

Definition DeleteTo (toNs toVersion : string) (t : list DepEdgeRow) : list DepEdgeRow :=
  filter (λ r, is_to toNs toVersion r = false) t.

(** Inserting one row; [None] is a violation of the primary key. *)
Definition insert_row (r : DepEdgeRow) (t : list DepEdgeRow) : option (list DepEdgeRow) :=
  if existsb (same_key r) t then None else Some (t ++ [r]).

Fixpoint insert_rows (rows t : list DepEdgeRow) : option (list DepEdgeRow) :=
  match rows with
  | [] => Some t
  | r :: rows' => t' ← insert_row r t; insert_rows rows' t'
  end.

(** [None] is an error, which leaves the table as it was. *)
Definition Save (fromNs fromVersion : string) (rows t : list DepEdgeRow)
  : option (list DepEdgeRow) :=
  insert_rows rows (DeleteFrom fromNs fromVersion t).

Definition EdgesToBare (toNs : string) (t : list DepEdgeRow) : list DepEdgeRow :=
  filter (λ r, ToNamespace r = toNs) t.

Definition HasAnyDependents (toNs excludeFromNs : string) (t : list DepEdgeRow) : bool :=
  existsb (λ r, String.eqb (ToNamespace r) toNs &&
    negb (String.eqb (FromNamespace r) excludeFromNs)) t.

(** ** The graph over the table *)

Definition edge_row (ns : Namespace) (e : DependencyEdge) : DepEdgeRow :=
  mkRow (BareNamespace ns) (Ref ns) (BareNamespace (edge_namespace e)) (declaredSelector e)
    (edge_constraint e) (edge_type e).

Definition SyncDependencies (os : OS) (ns : Namespace) (arrow : option Arrow)
  (t : list DepEdgeRow) : option (list DepEdgeRow) :=
  Save (BareNamespace ns) (Ref ns) (map (edge_row ns) (CollectEdgesForOS arrow os)) t.

Definition RemoveDependencies (ns : Namespace) (t : list DepEdgeRow) : list DepEdgeRow :=
  DeleteTo (BareNamespace ns) (Ref ns) (DeleteFrom (BareNamespace ns) (Ref ns) t).

Definition HasDependents (ns excludeNs : Namespace) (t : list DepEdgeRow) : bool :=
  HasAnyDependents (BareNamespace ns) (BareNamespace excludeNs) t.

Definition GetDependents (ns : Namespace) (t : list DepEdgeRow) : list Namespace :=
  map (λ r, WithRef (FromNamespace r) (FromVersion r)) (EdgesToBare (BareNamespace ns) t).

(** [Orphans] over a plan *)
Definition Orphans (ns : Namespace) (plan : list PlanEntry) (t : list DepEdgeRow)
  : list Namespace :=
  map entry_namespace (filter (λ e, HasDependents (entry_namespace e) ns t = false) plan).

(** ** The difference between two manifests *)

Definition by_bare (edges : list DependencyEdge) : gmap Namespace DependencyEdge :=
  foldl (λ m e, <[BareNamespace (edge_namespace e) := e]> m) ∅ edges.

(** [DiffDeps]; the lists are in the order of a map, which is no order. *)
Definition DiffDeps (os : OS) (old new : option Arrow) : DepDiff :=
  let oldByBare := by_bare (CollectEdgesForOS old os) in
  let newByBare := by_bare (CollectEdgesForOS new os) in
  mkDepDiff
    (map snd (filter (λ p, oldByBare !! p.1 = None) (map_to_list newByBare)))
    (map snd (filter (λ p, newByBare !! p.1 = None) (map_to_list oldByBare)))
    (omap (λ p, match newByBare !! p.1 with
                | None => None
                | Some newEdge =>
                  if String.eqb (edge_constraint p.2) (edge_constraint newEdge) then None
                  else Some (mkConstrained p.1 (edge_constraint p.2) (edge_constraint newEdge))
                end) (map_to_list oldByBare)).

(** ** Facts *)

Lemma elem_of_dedup_from seen ns x : x ∈ dedup_from seen ns ↔ x ∈ ns ∧ x ∉ seen.
Proof.
  revert seen. induction ns as [|n ns IH]; intros seen; simpl.
  { split; [by intros ?%not_elem_of_nil|by intros [?%not_elem_of_nil _]]. }
  case_decide; rewrite ?elem_of_cons, IH; [naive_solver|].
  rewrite not_elem_of_union, not_elem_of_singleton. destruct (decide (x = n)); naive_solver.
Qed.

Lemma elem_of_DedupNamespaces ns x : x ∈ DedupNamespaces ns ↔ x ∈ ns.
Proof.
  unfold DedupNamespaces. rewrite elem_of_dedup_from.
  pose proof (not_elem_of_empty (C := gset Namespace) x). tauto.
Qed.

(** The kept edges are of the list, and their packages are new and distinct. *)
Lemma collect_edges_spec seen edges seen' kept :
  collect_edges seen edges = (seen', kept) →
  NoDup (map (λ e, BareNamespace (edge_namespace e)) kept) ∧
  (∀ e, e ∈ kept → e ∈ edges ∧ BareNamespace (edge_namespace e) ∉ seen) ∧
  (∀ e, e ∈ edges → BareNamespace (edge_namespace e) ∈ seen') ∧
  (∀ b, b ∈ seen' ↔ b ∈ seen ∨ b ∈ map (λ e, BareNamespace (edge_namespace e)) kept).
Proof.
  revert seen seen' kept. induction edges as [|e edges IH]; intros seen seen' kept Hc; simpl in Hc.
  { simplify_eq. split_and!; [constructor|by intros ? ?%not_elem_of_nil..|].
    intros b. simpl. rewrite elem_of_nil. tauto. }
  case_decide as He.
  - apply IH in Hc as (Hn & Hk & Hs & Hb). split_and!; [done| | |done].
    + intros x Hx. split; [apply list_elem_of_further|]; by apply Hk.
    + intros x [->|Hx]%elem_of_cons; [apply Hb; by left|by apply Hs].
  - destruct (collect_edges _ edges) as [s k] eqn:Hr. simplify_eq.
    apply IH in Hr as (Hn & Hk & Hs & Hb). split_and!.
    + simpl. constructor; [|done]. intros (x & Hx & Hin)%list_elem_of_fmap.
      apply Hk in Hin as [_ Hin]. rewrite <- Hx in Hin. set_solver.
    + intros x [->|Hx]%elem_of_cons; [by split; [apply list_elem_of_here|]|].
      apply Hk in Hx as [Hx Hx']. split; [by apply list_elem_of_further|set_solver].
    + intros x [->|Hx]%elem_of_cons; [apply Hb; set_solver|by apply Hs].
    + intros b. rewrite Hb. simpl. rewrite elem_of_cons. set_solver.
Qed.

(** The edges of a platform: one per package, tools before services. *)
Lemma CollectEdgesForOS_nodup arrow os :
  NoDup (map (λ e, BareNamespace (edge_namespace e)) (CollectEdgesForOS arrow os)).
Proof.
  unfold CollectEdgesForOS. destruct arrow as [a|]; [|constructor].
  destruct (target_of a os) as [t|]; [|constructor].
  destruct (collect_edges ∅ (Tools t)) as [s k] eqn:H1.
  destruct (collect_edges s (Services t)) as [s' k'] eqn:H2.
  apply collect_edges_spec in H1 as (Hn & _ & _ & Hb).
  apply collect_edges_spec in H2 as (Hn' & Hk' & _ & _).
  rewrite map_app. apply NoDup_app. split_and!; [done| |done].
  intros b Hin (e & -> & He)%list_elem_of_fmap. apply Hk' in He as [_ He].
  apply He, Hb. by right.
Qed.

(** ** The plan of an install *)

(** The manifest of [x] lists [d] under the dependencies of type [ty]. *)
Definition declares {E} (os : OS) (resolveManifest : Namespace → result E Arrow)
  (x d : Namespace) (ty : DepType) : Prop :=
  ∃ m target e, resolveManifest x = Ok m ∧ target_of m os = Some target ∧
    e ∈ (match ty with ToolDep => Tools target | ServiceDep => Services target end) ∧
    dependencyIdentity e = d.

Lemma foldl_insert_lookup ty edges (index : gmap Namespace DepType) d t :
  foldl (λ i e, <[dependencyIdentity e := ty]> i) index edges !! d = Some t ↔
  (d ∈ map dependencyIdentity edges ∧ t = ty) ∨
  (d ∉ map dependencyIdentity edges ∧ index !! d = Some t).
Proof.
  revert index. induction edges as [|e edges IH]; intros index; simpl.
  { rewrite elem_of_nil. tauto. }
  rewrite IH, elem_of_cons. destruct (decide (d = dependencyIdentity e)) as [->|Hd].
  - rewrite lookup_insert_eq. split; [intros [?|[? [= ->]]]; tauto|].
    intros [[_ ->]|[? ?]]; [|tauto].
    destruct (decide (dependencyIdentity e ∈ map dependencyIdentity edges)); tauto.
  - rewrite lookup_insert_ne by done. tauto.
Qed.

Section plan.
Context {E : Type} (os : OS) (resolveManifest : Namespace → result E Arrow).
Context (ctx_err : nat → option E).

Abbreviation declares := (declares os resolveManifest).
Abbreviation resolver := (resolver os resolveManifest).
Abbreviation depends := (edge resolver).

Lemma index_types_lookup index x d ty :
  index_types os resolveManifest index x !! d = Some ty →
  declares x d ty ∨ ((∀ t, ¬ declares x d t) ∧ index !! d = Some ty).
Proof.
  unfold index_types, declares.
  destruct (resolveManifest x) as [m|e]; [|right; split; [by intros t (? & ? & ? & ? & _)|done]].
  destruct (target_of m os) as [target|] eqn:Ht;
    [|right; split; [by intros t (m' & ? & ? & ? & ? & _); simplify_eq|done]].
  rewrite foldl_insert_lookup. intros [[(e & -> & He)%list_elem_of_fmap ->]|[Hs Hl]].
  { left. by exists m, target, e. }
  apply foldl_insert_lookup in Hl as [[(e & -> & He)%list_elem_of_fmap ->]|[Hs' Hl]].
  { left. by exists m, target, e. }
  right. split; [|done]. intros t (m' & target' & e & ? & ? & He & <-). simplify_eq.
  destruct t; [apply Hs'|apply Hs]; by apply list_elem_of_fmap_2.
Qed.

Lemma index_types_declared index x d ty :
  declares x d ty → is_Some (index_types os resolveManifest index x !! d).
Proof.
  intros (m & target & e & Hm & Ht & He & <-). unfold index_types. rewrite Hm, Ht.
  set (i1 := foldl _ index _).
  assert (dependencyIdentity e ∈ map dependencyIdentity (Services target) ∨
          i1 !! dependencyIdentity e = Some ToolDep) as Hin.
  { destruct ty; [right|left; by apply list_elem_of_fmap_2].
    apply foldl_insert_lookup. left. split; [by apply list_elem_of_fmap_2|done]. }
  destruct (decide (dependencyIdentity e ∈ map dependencyIdentity (Services target))).
  - exists ServiceDep. apply foldl_insert_lookup. by left.
  - exists ToolDep. apply foldl_insert_lookup. right. tauto.
Qed.

Lemma index_types_keep index x d :
  is_Some (index !! d) → is_Some (index_types os resolveManifest index x !! d).
Proof.
  intros [t Ht]. unfold index_types. destruct (resolveManifest x) as [m|e]; [|by exists t].
  destruct (target_of m os) as [target|]; [|by exists t].
  set (i1 := foldl _ index _).
  assert (is_Some (i1 !! d)) as [t1 H1].
  { destruct (decide (d ∈ map dependencyIdentity (Tools target))).
    - exists ToolDep. apply foldl_insert_lookup. by left.
    - exists t. apply foldl_insert_lookup. by right. }
  destruct (decide (d ∈ map dependencyIdentity (Services target))).
  - exists ServiceDep. apply foldl_insert_lookup. by left.
  - exists t1. apply foldl_insert_lookup. by right.
Qed.

(** The index after the closure was called for [xs] *)
Lemma index_lookup xs index d :
  (is_Some (index !! d) ∨ (∃ x ty, x ∈ xs ∧ declares x d ty) →
   is_Some (foldl (index_types os resolveManifest) index xs !! d)) ∧
  (∀ ty, foldl (index_types os resolveManifest) index xs !! d = Some ty →
   index !! d = Some ty ∨ ∃ x, x ∈ xs ∧ declares x d ty).
Proof.
  revert index. induction xs as [|x xs IH]; intros index; simpl.
  { split; [intros [?|(? & ? & []%not_elem_of_nil & _)]; done|by left]. }
  destruct (IH (index_types os resolveManifest index x)) as [IH1 IH2]. split.
  - intros [Hd|(y & ty & Hy & Hd)]; apply IH1; [by left; apply index_types_keep|].
    apply elem_of_cons in Hy as [->|Hy]; [by left; eapply index_types_declared|right; eauto].
  - intros ty [Hl|(y & Hy & Hd)]%IH2.
    + apply index_types_lookup in Hl as [Hd|[_ Hl]]; [|by left].
      right. exists x. split; [apply list_elem_of_here|done].
    + right. exists y. split; [by apply list_elem_of_further|done].
Qed.

Lemma depends_declares x d : depends x d ↔ ∃ ty, declares x d ty.
Proof.
  unfold edge, Graph.resolver, declares. split.
  - intros (deps & Hr & Hd). destruct (resolveManifest x) as [m|] eqn:Hm; [|done].
    destruct (target_of m os) as [t|] eqn:Ht; simplify_eq; [|by apply not_elem_of_nil in Hd].
    unfold children in Hd. rewrite elem_of_DedupNamespaces, elem_of_app in Hd.
    destruct Hd as [(e & -> & He)%list_elem_of_fmap|(e & -> & He)%list_elem_of_fmap];
      [exists ToolDep|exists ServiceDep]; by exists m, t, e.
  - intros (ty & m & t & e & Hm & Ht & He & <-). rewrite Hm, Ht. eexists. split; [done|].
    unfold children. rewrite elem_of_DedupNamespaces, elem_of_app.
    destruct ty; [left|right]; by apply list_elem_of_fmap_2.
Qed.

Lemma filter_root (l : list Namespace) ns :
  NoDup l → last l = Some ns → ∃ l0, l = l0 ++ [ns] ∧ filter (λ d, d ≠ ns) l = l0.
Proof.
  intros Hn Hl. apply last_Some in Hl as [l0 ->]. exists l0. split; [done|].
  apply NoDup_app in Hn as (_ & Hx & _).
  rewrite filter_app, filter_cons_False, filter_nil, app_nil_r by tauto.
  assert (∀ x, x ∈ l0 → x ≠ ns) as Hl0.
  { intros x Hx1 ->. by apply (Hx ns), list_elem_of_here. }
  clear Hx. induction l0 as [|x l0 IH]; [done|]. rewrite filter_cons_True.
  - f_equal. apply IH. intros y Hy. by apply Hl0, list_elem_of_further.
  - apply Hl0, list_elem_of_here.
Qed.

(** What a plan is made of *)
Lemma ResolvePlan_spec fuel ns plan :
  ResolvePlan os resolveManifest ctx_err fuel ns = Some (Ok plan) →
  Resolve resolver ctx_err fuel ns = Some (Ok (map entry_namespace plan ++ [ns])) ∧
  ∀ e, e ∈ plan → ∃ x, rtc depends ns x ∧ declares x (entry_namespace e) (entry_type e).
Proof.
  unfold ResolvePlan. destruct (Resolve _ _ _ _) as [[l|]|] eqn:Hr; [|done..]. intros H.
  apply Resolve_order in Hr as Ho. destruct Ho as (_ & Hn & Hl & Hreach).
  destruct (filter_root l ns Hn Hl) as (l0 & Heq & Hf). rewrite Hf in H.
  assert (∀ d, d ∈ l0 → is_Some (foldl (index_types os resolveManifest) ∅
    (resolver_calls resolver ctx_err fuel ns) !! d)) as Hidx.
  { intros d Hd. apply index_lookup. right.
    assert (d ≠ ns) as Hne.
    { intros ->. rewrite Heq in Hn. apply NoDup_app in Hn as (_ & Hx & _).
      by apply (Hx ns), list_elem_of_here. }
    assert (rtc depends ns d) as Hd'.
    { apply Hreach. rewrite Heq. apply elem_of_app. by left. }
    apply rtc_inv_r in Hd' as [->|(y & Hy & Hyd)]; [done|].
    apply depends_declares in Hyd as [ty ?]. exists y, ty. split; [|done].
    apply (resolver_calls_order _ _ _ _ _ Hr). by apply Hreach. }
  injection H as <-. split.
  - rewrite map_map. simpl. rewrite map_id. congruence.
  - intros e (d & -> & Hd)%list_elem_of_fmap. simpl.
    destruct (Hidx d Hd) as [ty Hty]. rewrite Hty. simpl.
    apply index_lookup in Hty as [Hty|(x & Hx & Hdx)].
    { by rewrite lookup_empty in Hty. }
    exists x. split; [|done]. apply Hreach. by apply (resolver_calls_order _ _ _ _ _ Hr).
Qed.
End plan.

(** C9. The plan of an install is complete and in order.  It lists every arrow
    the root depends on, however far, once, and never the root itself; each entry
    comes after all that its own manifest declares; and its type is the type under
    which some arrow of the tree declares it. *)
Theorem plan_installs_dependencies {E} os (resolveManifest : Namespace → result E Arrow)
  ctx_err fuel ns plan :
  ResolvePlan os resolveManifest ctx_err fuel ns = Some (Ok plan) →
  NoDup (map entry_namespace plan) ∧
  (∀ d, d ∈ map entry_namespace plan ↔ tc (edge (resolver os resolveManifest)) ns d) ∧
  ∀ i e, plan !! i = Some e →
    (∃ x, rtc (edge (resolver os resolveManifest)) ns x ∧
      declares os resolveManifest x (entry_namespace e) (entry_type e)) ∧
    ∃ deps, resolver os resolveManifest (entry_namespace e) = Ok deps ∧
      Forall (.∈ map entry_namespace (take i plan)) deps.
Proof.
  intros [Hr Hty]%ResolvePlan_spec. apply Resolve_order in Hr as (Htop & Hn & _ & Hreach).
  assert (ns ∉ map entry_namespace plan) as Hns.
  { apply NoDup_app in Hn as (_ & Hx & _). intros H. by apply (Hx ns H), list_elem_of_here. }
  split_and!; [by apply NoDup_app in Hn as (? & _)| |].
  - intros d. specialize (Hreach d). rewrite elem_of_app, list_elem_of_singleton in Hreach.
    split.
    + intros Hd. assert (rtc (edge (resolver os resolveManifest)) ns d) as H by tauto.
      apply rtc_tc in H as [->|?]; done.
    + intros Hd. apply tc_rtc in Hd as Hd'. apply Hreach in Hd' as [?| ->]; [done|].
      exfalso. eapply (topological_acyclic _ _ ns Htop); [|done].
      apply elem_of_app. right. apply list_elem_of_here.
  - intros i e He. split; [apply Hty; by eapply list_elem_of_lookup_2|].
    destruct (Htop i (entry_namespace e)) as (deps & Hd & Hall).
    { apply lookup_app_l_Some. by rewrite list_lookup_fmap, He. }
    exists deps. split; [done|]. apply lookup_lt_Some in He.
    rewrite take_app_le in Hall by (rewrite length_map; lia). by rewrite <-firstn_map.
Qed.

(** The plan is undone in the opposite order: before an arrow is removed, all that
    needs it was. *)
Lemma Unplan_rev {E} os (resolveManifest : Namespace → result E Arrow) ctx_err fuel ns plan :
  Unplan os resolveManifest ctx_err fuel ns = Some (Ok plan) ↔
  ResolvePlan os resolveManifest ctx_err fuel ns = Some (Ok (rev plan)).
Proof.
  unfold Unplan. destruct (ResolvePlan _ _ _ _ _) as [[p|]|]; [|done..].
  split; [intros [= <-]; by rewrite rev_involutive|intros [= ->]; by rewrite rev_involutive].
Qed.

(** ** The table *)

Definition row_key (r : DepEdgeRow) : string * string * string :=
  (FromNamespace r, FromVersion r, ToNamespace r).

(** What the primary key enforces *)
Definition keys_unique (t : list DepEdgeRow) : Prop := NoDup (map row_key t).

Lemma same_key_spec a b : same_key a b = true ↔ row_key a = row_key b.
Proof.
  unfold same_key, row_key. rewrite !andb_true_iff, !String.eqb_eq.
  split; [by intros [[-> ->] ->]|intros H; by simplify_eq].
Qed.

Lemma existsb_same_key r t : existsb (same_key r) t = true ↔ row_key r ∈ map row_key t.
Proof.
  rewrite existsb_exists. split.
  - intros (x & Hx & Hk%same_key_spec). rewrite Hk.
    by apply list_elem_of_fmap_2, list_elem_of_In.
  - intros (x & Hx & Hin)%list_elem_of_fmap. exists x.
    split; [by apply list_elem_of_In|by apply same_key_spec].
Qed.

Lemma keys_unique_filter (P : DepEdgeRow → Prop) `{∀ r, Decision (P r)} t :
  keys_unique t → keys_unique (filter P t).
Proof.
  unfold keys_unique. intros Ht. eapply sublist_NoDup; [exact Ht|].
  apply (fmap_sublist row_key), sublist_filter.
Qed.

(** Rows with new and distinct keys are all inserted. *)
Lemma insert_rows_spec rows t :
  keys_unique (t ++ rows) → insert_rows rows t = Some (t ++ rows).
Proof.
  revert t. induction rows as [|r rows IH]; intros t Hk; simpl; [by rewrite app_nil_r|].
  unfold insert_row. destruct (existsb (same_key r) t) eqn:He; simpl.
  - exfalso. unfold keys_unique in Hk. rewrite map_app in Hk.
    apply NoDup_app in Hk as (_ & Hx & _). apply existsb_same_key in He.
    apply (Hx _ He), list_elem_of_here.
  - rewrite IH; [by rewrite <-app_assoc|by rewrite <-app_assoc].
Qed.

(** ... and otherwise none is. *)
Lemma insert_rows_unique rows t t' :
  keys_unique t → insert_rows rows t = Some t' → t' = t ++ rows ∧ keys_unique t'.
Proof.
  revert t. induction rows as [|r rows IH]; intros t Hk H; simpl in H.
  { simplify_eq. by rewrite app_nil_r. }
  unfold insert_row in H. destruct (existsb (same_key r) t) eqn:He; simpl in H; [done|].
  apply IH in H as [-> Hu]; [by rewrite <-app_assoc in * |].
  unfold keys_unique. rewrite map_app. apply NoDup_app. split_and!; [done| |apply NoDup_singleton].
  intros k Hk' ->%list_elem_of_singleton. apply existsb_same_key in Hk'. congruence.
Qed.

Lemma SyncDependencies_spec os ns arrow t :
  keys_unique t →
  let t' := DeleteFrom (BareNamespace ns) (Ref ns) t ++
    map (edge_row ns) (CollectEdgesForOS arrow os) in
  SyncDependencies os ns arrow t = Some t' ∧ keys_unique t'.
Proof.
  intros Ht t'. assert (keys_unique t') as Hu; [|split; [by apply insert_rows_spec|done]].
  unfold keys_unique, t'. rewrite map_app. apply NoDup_app. split_and!.
  - by apply keys_unique_filter.
  - intros k (r & -> & [Hr _]%list_elem_of_filter)%list_elem_of_fmap.
    rewrite map_map. intros (e & Hk & _)%list_elem_of_fmap. unfold row_key in Hk. simpl in Hk.
    injection Hk as H1 H2 _. unfold is_from in Hr. by rewrite H1, H2, !String.eqb_refl in Hr.
  - rewrite map_map. pose proof (CollectEdgesForOS_nodup arrow os) as Hn.
    apply (NoDup_fmap_1 (λ k, k.2)).
    refine (eq_ind_r NoDup _ (map_map _ (λ k : string * string * string, k.2) _)). exact Hn.
Qed.

(** C16. Recording the dependencies of an arrow replaces exactly its rows.  On a
    table whose primary key holds it never fails and the key still holds: a
    manifest that declares a package twice gives one row.  Afterwards the rows from
    this arrow are the edges of its manifest on this platform, every other row is
    as before, and a package has this arrow among its dependents exactly when the
    manifest names it. *)
Theorem sync_dependencies_exact os ns arrow t :
  keys_unique t →
  ∃ t', SyncDependencies os ns arrow t = Some t' ∧ keys_unique t' ∧
  (∀ r, r ∈ t' ↔ r ∈ map (edge_row ns) (CollectEdgesForOS arrow os) ∨
    (r ∈ t ∧ is_from (BareNamespace ns) (Ref ns) r = false)) ∧
  ∀ dep, (∃ r, r ∈ EdgesToBare (BareNamespace dep) t' ∧
      is_from (BareNamespace ns) (Ref ns) r = true) ↔
    ∃ e, e ∈ CollectEdgesForOS arrow os ∧
      BareNamespace (edge_namespace e) = BareNamespace dep.
Proof.
  intros Ht. destruct (SyncDependencies_spec os ns arrow t Ht) as [Hs Hu].
  eexists. split_and!; [done|done|..].
  - intros r. rewrite elem_of_app. unfold DeleteFrom. rewrite list_elem_of_filter. tauto.
  - intros dep. unfold EdgesToBare, DeleteFrom. split.
    + intros (r & [Hd Hr]%list_elem_of_filter & Hf).
      apply elem_of_app in Hr as [[Hr _]%list_elem_of_filter|(e & -> & He)%list_elem_of_fmap];
        [congruence|]. by exists e.
    + intros (e & He & Hd). exists (edge_row ns e). split.
      * apply list_elem_of_filter. split; [done|]. apply elem_of_app. right.
        by apply list_elem_of_fmap_2.
      * unfold is_from. simpl. by rewrite !String.eqb_refl.
Qed.

(** Removing an arrow touches only its own rows and those that lead to its exact
    version; the key survives. *)
Lemma RemoveDependencies_spec ns t :
  (keys_unique t → keys_unique (RemoveDependencies ns t)) ∧
  ∀ r, r ∈ RemoveDependencies ns t ↔ r ∈ t ∧
    is_from (BareNamespace ns) (Ref ns) r = false ∧ is_to (BareNamespace ns) (Ref ns) r = false.
Proof.
  unfold RemoveDependencies, DeleteTo, DeleteFrom. split.
  - intros Ht. by apply keys_unique_filter, keys_unique_filter.
  - intros r. rewrite !list_elem_of_filter. tauto.
Qed.

(** A root with a tool and a service that share a dependency, and another row *)
Definition dep_edge (ns constraint : string) (ty : DepType) : DependencyEdge :=
  mkDependencyEdge ns constraint ty.

Definition sample_arrow (tools services : list DependencyEdge) : Arrow :=
  mkArrow "x/app" no_meta [] [] [(OSLinuxAMD64, mkTarget (mkRequirement 1 1 1) tools services ∅
    (mkTargetLifecycle None None None None None None) ∅ (mkExpose None None))]
    "" None true None SelectorPin (mkResolved "" "" "") None.

Definition sample_manifest (ns : Namespace) : result string Arrow :=
  if String.eqb ns "x/app@1.0" then Ok (sample_arrow
    [dep_edge "x/java@17" "" ToolDep] [dep_edge "x/db" "^2" ServiceDep])
  else if String.eqb ns "x/db@^2" then Ok (sample_arrow [dep_edge "x/java@17" "" ToolDep] [])
  else Ok (sample_arrow [] []).

Lemma plan_installs_dependencies_witness :
  ResolvePlan OSLinuxAMD64 sample_manifest (λ _, None) 5 "x/app@1.0" =
    Some (Ok [mkPlanEntry "x/java@17" ToolDep; mkPlanEntry "x/db@^2" ServiceDep]) ∧
  NoDup ["x/java@17"; "x/db@^2" : Namespace].
Proof.
  split; [vm_compute; reflexivity|].
  apply (plan_installs_dependencies OSLinuxAMD64 sample_manifest (λ _, None) 5 "x/app@1.0"
    [mkPlanEntry "x/java@17" ToolDep; mkPlanEntry "x/db@^2" ServiceDep]).
  vm_compute. reflexivity.
Defined.

Lemma sync_dependencies_exact_witness :
  let t := [mkRow "x/app" "1.0" "x/old" "1" "" ToolDep; mkRow "x/web" "3" "x/db" "2" "" ToolDep] in
  ∃ t', SyncDependencies OSLinuxAMD64 "x/app@1.0" (Some (sample_arrow
    [dep_edge "x/java@17" "" ToolDep] [dep_edge "x/java" "" ServiceDep])) t = Some t' ∧
  keys_unique t'.
Proof.
  intros t. destruct (sync_dependencies_exact OSLinuxAMD64 "x/app@1.0" (Some (sample_arrow
    [dep_edge "x/java@17" "" ToolDep] [dep_edge "x/java" "" ServiceDep])) t) as (t' & ? & ? & _).
  - unfold keys_unique. apply (bool_decide_eq_true_1 (NoDup (map row_key t))). vm_compute. reflexivity.
  - by exists t'.
Defined.
