(* ===== verification/Prog.v ===== *)
(** * Programs as their calls, and the protocols they follow

    A function whose whole effect is the calls it makes on other components is a
    tree: a call, and for each answer what it does next.  The tree says nothing of
    who answers, so one definition serves for a run against answers that are known,
    for the runs that any answers can produce ([trace]), and as a goroutine among
    others over a shared state.

    A [protocol] is an automaton over calls and answers that says which call is
    allowed next.  [follows] is the weakest precondition of a program for it: every
    call is allowed whatever the answers before it, and the postcondition holds of
    the result and of the state the protocol is left in. *)

From S2P Require Import Prelude.

Inductive prog {C : Type} (R : C → Type) (A : Type) : Type :=
| Return (a : A)
| Call (c : C) (k : R c → prog R A).
Arguments Return {C R A} a.
Arguments Call {C R A} c k.

Section prog.
Context {C : Type} {R : C → Type}.

Fixpoint prog_bind {A B} (f : A → prog R B) (p : prog R A) : prog R B :=
  match p with
  | Return a => f a
  | Call c k => Call c (λ r, prog_bind f (k r))
  end.

#[export] Instance prog_ret : MRet (prog R) := λ A a, Return a.
#[export] Instance prog_mbind : MBind (prog R) := λ A B f p, prog_bind f p.

(** One call *)
Definition ask (c : C) : prog R (R c) := Call c Return.

(** [if err != nil { return err }] *)
Definition bind_ok {E A B} (p : prog R (result E A)) (k : A → prog R (result E B))
  : prog R (result E B) :=
  r ← p;
  match r with Ok a => k a | Err e => mret (Err e) end.

(** [defer cleanup()] *)
Definition deferring {A B} (p : prog R A) (cleanup : prog R B) : prog R A :=
  a ← p;
  _ ← cleanup;
  mret a.

(** The calls of a run, with their answers, and what it returns *)
Definition event : Type := {c : C & R c}.

Fixpoint trace {A} (p : prog R A) (l : list event) (a : A) : Prop :=
  match p with
  | Return a' => l = [] ∧ a = a'
  | Call c k => ∃ r l', l = existT c r :: l' ∧ trace (k r) l' a
  end.

(** The run against given answers, the [n]-th call being answered [answers c n];
    [None] when one of them is not *)
Fixpoint run {A} (answers : ∀ c, nat → option (R c)) (n : nat) (p : prog R A)
  : option (list event * A) :=
  match p with
  | Return a => Some ([], a)
  | Call c k =>
    r ← answers c n;
    '(l, a) ← run answers (S n) (k r);
    Some (existT c r :: l, a)
  end.

Lemma trace_run {A} answers n (p : prog R A) l a :
  run answers n p = Some (l, a) → trace p l a.
Proof.
  revert n l. induction p as [a'|c k IH]; intros n l H; simpl in *; [by simplify_eq|].
  destruct (answers c n) as [r|]; simpl in H; [|done].
  destruct (run answers (S n) (k r)) as [[l' a']|] eqn:Hr; simplify_eq/=. eauto.
Qed.

(** ** Protocols *)

Record protocol (S : Type) := mkProtocol {
  allowed : S → C → Prop;
  moves : S → ∀ c, R c → S;
}.
Arguments allowed {S}. Arguments moves {S}.

Section protocol.
Context {S : Type} (P : protocol S).

Fixpoint follows {A} (s : S) (p : prog R A) (Q : A → S → Prop) : Prop :=
  match p with
  | Return a => Q a s
  | Call c k => allowed P s c ∧ ∀ r, follows (moves P s c r) (k r) Q
  end.

(** The protocol along a list of calls *)
Fixpoint accepts (s : S) (l : list event) : Prop :=
  match l with
  | [] => True
  | existT c r :: l' => allowed P s c ∧ accepts (moves P s c r) l'
  end.

Fixpoint after (s : S) (l : list event) : S :=
  match l with
  | [] => s
  | existT c r :: l' => after (moves P s c r) l'
  end.

Lemma follows_trace {A} s (p : prog R A) Q l a :
  follows s p Q → trace p l a → accepts s l ∧ Q a (after s l).
Proof.
  revert s l. induction p as [a'|c k IH]; intros s l Hf Ht; simpl in *.
  - destruct Ht as [-> ->]. done.
  - destruct Ht as (r & l' & -> & Ht). destruct Hf as [Ha Hf].
    destruct (IH r _ _ (Hf r) Ht) as [Hacc HQ]. done.
Qed.

Lemma follows_mono {A} s (p : prog R A) (Q Q' : A → S → Prop) :
  follows s p Q → (∀ a s', Q a s' → Q' a s') → follows s p Q'.
Proof.
  revert s. induction p as [a|c k IH]; intros s Hf HQ; simpl in *; [by apply HQ|].
  destruct Hf as [Ha Hf]. split; [done|]. intros r. by apply IH.
Qed.

Lemma follows_bind {A B} s (p : prog R A) (f : A → prog R B) Q :
  follows s p (λ a s', follows s' (f a) Q) → follows s (p ≫= f) Q.
Proof.
  revert s. induction p as [a|c k IH]; intros s Hf; simpl in *; [done|].
  destruct Hf as [Ha Hf]. split; [done|]. intros r. by apply IH.
Qed.

Lemma follows_ret {A} s (a : A) (Q : A → S → Prop) : Q a s → follows s (mret a) Q.
Proof. done. Qed.

Lemma follows_ask s c (Q : R c → S → Prop) :
  allowed P s c → (∀ r, Q r (moves P s c r)) → follows s (ask c) Q.
Proof. done. Qed.

Lemma follows_ask_bind {A} s c (f : R c → prog R A) (Q : A → S → Prop) :
  allowed P s c → (∀ r, follows (moves P s c r) (f r) Q) → follows s (ask c ≫= f) Q.
Proof. done. Qed.

Lemma follows_bind_ok {E A B} s (p : prog R (result E A)) (f : A → prog R (result E B)) Q :
  follows s p (λ r s', match r with Ok a => follows s' (f a) Q | Err e => Q (Err e) s' end) →
  follows s (bind_ok p f) Q.
Proof.
  intros Hp. apply follows_bind. eapply follows_mono; [exact Hp|].
  intros [a|e] s' H; exact H.
Qed.

Lemma follows_deferring {A B} s (p : prog R A) (q : prog R B) Q :
  follows s p (λ a s', follows s' q (λ _, Q a)) → follows s (deferring p q) Q.
Proof. intros Hp. apply follows_bind. eapply follows_mono; [exact Hp|].
  intros a s' H. by apply follows_bind. Qed.
End protocol.

(** ** Programs that make some calls only *)

Fixpoint calls_only {A} (ok : C → Prop) (p : prog R A) : Prop :=
  match p with
  | Return _ => True
  | Call c k => ok c ∧ ∀ r, calls_only ok (k r)
  end.

Lemma calls_only_bind {A B} ok (p : prog R A) (f : A → prog R B) :
  calls_only ok p → (∀ a, calls_only ok (f a)) → calls_only ok (p ≫= f).
Proof.
  intros Hp Hf. induction p as [a|c k IH]; simpl in *; [apply Hf|].
  destruct Hp as [Hc Hk]. split; [done|]. intros r. by apply IH.
Qed.

Lemma calls_only_bind_ok {E A B} ok (p : prog R (result E A)) (f : A → prog R (result E B)) :
  calls_only ok p → (∀ a, calls_only ok (f a)) → calls_only ok (bind_ok p f).
Proof. intros Hp Hf. apply calls_only_bind; [done|]. intros [a|e]; [apply Hf|done]. Qed.

Lemma calls_only_deferring {A B} ok (p : prog R A) (q : prog R B) :
  calls_only ok p → calls_only ok q → calls_only ok (deferring p q).
Proof. intros Hp Hq. apply calls_only_bind; [done|]. intros a. by apply calls_only_bind. Qed.

Lemma calls_only_trace {A} ok (p : prog R A) l a :
  calls_only ok p → trace p l a → Forall (λ e, ok (projT1 e)) l.
Proof.
  revert l. induction p as [a'|c k IH]; intros l Hp; simpl; [by intros [-> _]; constructor|].
  destruct Hp as [Hc Hk]. intros (r & l' & -> & Ht). constructor; [done|]. exact (IH r l' (Hk r) Ht).
Qed.

(** ** What came before a call

    The protocol whose state is all the calls so far *)

Definition histories (ok : list event → C → Prop) : protocol (list event) :=
  mkProtocol _ ok (λ h c r, h ++ [existT c r]).

Lemma accepts_histories ok h l :
  accepts (histories ok) h l ↔ ∀ l1 c r l2, l = l1 ++ existT c r :: l2 → ok (h ++ l1) c.
Proof.
  revert h. induction l as [|[c r] l IH]; intros h; simpl; [by split; [intros _ []|]|].
  rewrite IH. split.
  - intros [Hc Hl] [|e l1] c' r' l2 Heq; simpl in Heq.
    + rewrite app_nil_r. inversion Heq. by subst.
    + inversion Heq. subst. replace (h ++ existT c r :: l1) with ((h ++ [existT c r]) ++ l1)
        by (by rewrite <- app_assoc). by eapply Hl.
  - intros H. split; [rewrite <- (app_nil_r h); by apply (H [] c r l)|].
    intros l1 c' r' l2 ->. rewrite <- app_assoc. simpl. by apply (H (existT c r :: l1) c' r' l2).
Qed.

Lemma after_histories ok h l : after (histories ok) h l = h ++ l.
Proof.
  revert h. induction l as [|[c r] l IH]; intros h; simpl; [by rewrite app_nil_r|].
  by rewrite IH, <- app_assoc.
Qed.

Lemma calls_only_follows {A} ok okc h (p : prog R A) :
  calls_only okc p → (∀ h c, okc c → ok h c) →
  follows (histories ok) h p (λ _ h', ∃ l, h' = h ++ l).
Proof.
  intros Hp Hok. revert h. induction p as [a|c k IH]; intros h; simpl in *.
  - exists []. by rewrite app_nil_r.
  - destruct Hp as [Hc Hk]. split; [by apply Hok|]. intros r.
    eapply follows_mono; [by apply IH|]. intros a h' [l ->].
    exists (existT c r :: l). by rewrite <- app_assoc.
Qed.

Definition extends (h h' : list event) : Prop := ∃ l, h' = h ++ l.

Lemma elem_of_extends h h' (e : event) : extends h h' → e ∈ h → e ∈ h'.
Proof. intros [l ->] He. apply elem_of_app. by left. Qed.

Lemma extends_refl h : extends h h.
Proof. exists []. by rewrite app_nil_r. Qed.

Lemma extends_trans h1 h2 h3 : extends h1 h2 → extends h2 h3 → extends h1 h3.
Proof. intros [l ->] [l' ->]. exists (l ++ l'). by rewrite app_assoc. Qed.

Lemma extends_snoc h (e : event) : extends h (h ++ [e]).
Proof. by exists [e]. Qed.

(** One call, and what follows knows it was made *)
Lemma follows_logged {A} ok c h (f : R c → prog R A) Q :
  ok h c →
  (∀ r h', extends h h' → existT c r ∈ h' → follows (histories ok) h' (f r) Q) →
  follows (histories ok) h (ask c ≫= f) Q.
Proof.
  intros Hc Hf. apply follows_ask_bind; [exact Hc|]. intros r.
  apply (Hf r (h ++ [existT c r])); [apply extends_snoc|].
  apply elem_of_app. right. apply list_elem_of_here.
Qed.

(** ** Programs against a world

    [served w c r w'] says that a call made in the world [w] may be answered [r] and leave
    [w']; [wlp] is the weakest precondition of a program against it. *)
Section world.
Context {W : Type} (served : W → ∀ c, R c → W → Prop).

Fixpoint runs {A} (w : W) (p : prog R A) (a : A) (w' : W) : Prop :=
  match p with
  | Return a' => a = a' ∧ w' = w
  | Call c k => ∃ r w1, served w c r w1 ∧ runs w1 (k r) a w'
  end.

Fixpoint wlp {A} (w : W) (p : prog R A) (Q : A → W → Prop) : Prop :=
  match p with
  | Return a => Q a w
  | Call c k => ∀ r w1, served w c r w1 → wlp w1 (k r) Q
  end.

Lemma runs_bind {A B} w (p : prog R A) (f : A → prog R B) a w1 b w2 :
  runs w p a w1 → runs w1 (f a) b w2 → runs w (p ≫= f) b w2.
Proof.
  revert w. induction p as [a'|c k IH]; intros w Hp Hf; simpl in *.
  - by destruct Hp as [-> ->].
  - destruct Hp as (r & w' & Hs & Hp). exists r, w'. split; [done|]. by apply IH.
Qed.

Lemma wlp_runs {A} w (p : prog R A) Q a w' : wlp w p Q → runs w p a w' → Q a w'.
Proof.
  revert w. induction p as [a'|c k IH]; intros w Hw Hr; simpl in *.
  - by destruct Hr as [-> ->].
  - destruct Hr as (r & w1 & Hs & Hr). by eapply IH; [apply Hw|].
Qed.

(** The run in a world that answers each call in one way *)
Fixpoint play_world {A} (serve : W → ∀ c, R c * W) (w : W) (p : prog R A) : A * W :=
  match p with
  | Return a => (a, w)
  | Call c k => play_world serve (serve w c).2 (k (serve w c).1)
  end.

Lemma play_world_runs {A} serve w (p : prog R A) :
  (∀ w c, served w c (serve w c).1 (serve w c).2) →
  runs w p (play_world serve w p).1 (play_world serve w p).2.
Proof.
  intros Hs. revert w. induction p as [a|c k IH]; intros w; simpl; [done|].
  exists (serve w c).1, (serve w c).2. auto.
Qed.

Lemma wlp_mono {A} w (p : prog R A) (Q Q' : A → W → Prop) :
  wlp w p Q → (∀ a w', Q a w' → Q' a w') → wlp w p Q'.
Proof.
  revert w. induction p as [a|c k IH]; intros w Hp HQ; simpl in *; [by apply HQ|].
  intros r w1 Hs. apply IH; auto.
Qed.

Lemma wlp_bind {A B} w (p : prog R A) (f : A → prog R B) Q :
  wlp w p (λ a w', wlp w' (f a) Q) → wlp w (p ≫= f) Q.
Proof.
  revert w. induction p as [a|c k IH]; intros w Hp; simpl in *; [done|].
  intros r w1 Hs. apply IH. by apply Hp.
Qed.

Lemma wlp_ret {A} w (a : A) (Q : A → W → Prop) : Q a w → wlp w (mret a) Q.
Proof. done. Qed.

Lemma wlp_ask_bind {A} w c (f : R c → prog R A) Q :
  (∀ r w1, served w c r w1 → wlp w1 (f r) Q) → wlp w (ask c ≫= f) Q.
Proof. done. Qed.
End world.
End prog.

Arguments prog_bind {C R A B} f p : simpl never.
Arguments calls_only {C R A} ok p : simpl never.
Arguments histories {C R} ok.
Arguments extends {C R} h h'.
Arguments follows {C R S} P {A} s p Q : simpl never.
Arguments wlp {C R W} served {A} w p Q : simpl never.
Arguments event {C} R.
Arguments protocol {C} R S.
Arguments mkProtocol {C R S} allowed moves.
Arguments allowed {C R S} _ _ _.
Arguments moves {C R S} _ _ _ _.

Notation "x ←? p ; k" := (bind_ok p (λ x, k))
  (at level 20, p at level 100, k at level 200, format "x  ←?  p ;  '/' k").
Notation "'_' ←? p ; k" := (bind_ok p (λ _, k))
  (at level 20, p at level 100, k at level 200).
