(* ===== verification/Brackets.v ===== *)
(** * What the lifecycle shares between goroutines
    (internal/app/repositories/lifecycle/internal: bracket/targets.go,
    commits/commits.go, settle/holds.go)

    The targets that running updates began toward, the brackets that serialize one
    row, the commits in flight and the badge checks held back while a row settles.
    Each operation is what the code does under one lock; [LifecycleRaces] runs them
    interleaved. *)

From S2P Require Import Prelude Domain.

(** ** Targets (bracket/targets.go) *)

Record rememberedTarget := mkRemembered {
  remembered_target : Available;
  token : Z;
}.

#[export] Instance rememberedTarget_eq_dec : EqDecision rememberedTarget.
Proof. solve_decision. Defined.

(** [next] is a [uint64]; a bracket is a channel of capacity 1, [true] while an
    element is in it. *)
Record targets := mkTargets {
  next : Z;
  remembered : gmap Namespace rememberedTarget;
  brackets : gmap Namespace bool;
}.

Definition NewTargets : targets := mkTargets 0 ∅ ∅.

Definition occupied (ns : Namespace) (t : targets) : bool := default false (brackets t !! ns).

(** [Open] when it does not have to wait; [None] while another holds the bracket. *)
Definition Open (ns : Namespace) (t : targets) : option targets :=
  if occupied ns t then None
  else Some (mkTargets (next t) (remembered t) (<[ns := true]> (brackets t))).

(** The call [Open] returns *)
Definition release (ns : Namespace) (t : targets) : targets :=
  mkTargets (next t) (remembered t) (<[ns := false]> (brackets t)).

Definition Pending (ns : Namespace) (t : targets) : bool :=
  bool_decide (is_Some (remembered t !! ns)).

(** What the closure [Put] returns has captured *)
Record undo := mkUndo {
  undo_token : Z;
  undo_previous : option rememberedTarget;
}.

Definition uint64 (n : Z) : Z := (n mod 2 ^ 64)%Z.

Definition Put (ns : Namespace) (target : Available) (t : targets) : undo * targets :=
  let token := uint64 (next t + 1) in
  (mkUndo token (remembered t !! ns),
   mkTargets token (<[ns := mkRemembered target token]> (remembered t)) (brackets t)).

(** The undo: only while the entry is still that put's own *)
Definition Undo (ns : Namespace) (u : undo) (t : targets) : targets :=
  match remembered t !! ns with
  | None => t
  | Some current =>
    if Z.eqb (token current) (undo_token u) then
      mkTargets (next t)
        (match undo_previous u with
         | Some previous => <[ns := previous]> (remembered t)
         | None => delete ns (remembered t)
         end) (brackets t)
    else t
  end.

Definition Take (ns : Namespace) (t : targets) : option Available * targets :=
  (remembered_target <$> remembered t !! ns,
   mkTargets (next t) (delete ns (remembered t)) (brackets t)).

Definition Peek (ns : Namespace) (t : targets) : option Available :=
  remembered_target <$> remembered t !! ns.

(** ** Commits (commits/commits.go) *)

Record commits := mkCommits {
  wg : Z;
  draining : bool;
  running : gmap Namespace Z;
  aborted : bool;
}.

Definition NewCommits : commits := mkCommits 0 false ∅ false.

Definition running_of (ns : Namespace) (c : commits) : Z := default 0%Z (running c !! ns).

Definition Begin (ns : Namespace) (c : commits) : bool * commits :=
  if draining c then (false, c)
  else (true, mkCommits (wg c + 1) (draining c) (<[ns := (running_of ns c + 1)%Z]> (running c))
    (aborted c)).

(** [None] is the panic of a [sync.WaitGroup] whose counter goes below zero. *)
Definition Done (ns : Namespace) (c : commits) : option commits :=
  let left := (running_of ns c - 1)%Z in
  let running' := if (left <=? 0)%Z then delete ns (running c) else <[ns := left]> (running c) in
  if (wg c - 1 <? 0)%Z then None
  else Some (mkCommits (wg c - 1) (draining c) running' (aborted c)).

Definition InFlight (ns : Namespace) (c : commits) : bool := (0 <? running_of ns c)%Z.

Definition IsDraining (c : commits) : bool := draining c.

(** What [drain] does under its lock, and whether it returns at once *)
Definition drain_begin (c : commits) : bool * commits :=
  (bool_decide (running c = ∅), mkCommits (wg c) true (running c) (aborted c)).

(** [wg.Wait] returns *)
Definition drain_settled (c : commits) : bool := Z.eqb (wg c) 0.

Definition abortRunning (c : commits) : commits :=
  mkCommits (wg c) (draining c) (running c) true.

(** ** Held checks (settle/holds.go) *)

Record badgeHolds := mkHolds { dirty : gset Namespace }.

Definition NewHolds : badgeHolds := mkHolds ∅.

Definition clear_dirty (ns : Namespace) (h : badgeHolds) : badgeHolds := mkHolds (dirty h ∖ {[ ns ]}).

Definition mark_dirty (ns : Namespace) (h : badgeHolds) : badgeHolds := mkHolds ({[ ns ]} ∪ dirty h).

(** ** Facts *)

Lemma occupied_release ns ns' t :
  occupied ns' (release ns t) = if decide (ns' = ns) then false else occupied ns' t.
Proof.
  unfold occupied, release. simpl. case_decide; [subst; by rewrite lookup_insert_eq|].
  by rewrite lookup_insert_ne.
Qed.

Lemma occupied_Open ns ns' t t' :
  Open ns t = Some t' →
  occupied ns t = false ∧ remembered t' = remembered t ∧ next t' = next t ∧
  occupied ns' t' = if decide (ns' = ns) then true else occupied ns' t.
Proof.
  unfold Open. destruct (occupied ns t) eqn:Ho; [done|]. intros [= <-]. split_and!; [done..|].
  unfold occupied. simpl. case_decide; [subst; by rewrite lookup_insert_eq|].
  by rewrite lookup_insert_ne.
Qed.

Lemma running_of_Begin ns ns' c :
  draining c = false →
  running_of ns' (Begin ns c).2 = (if decide (ns' = ns) then running_of ns' c + 1 else running_of ns' c)%Z.
Proof.
  intros Hd. unfold Begin. rewrite Hd. unfold running_of. simpl.
  case_decide; [subst; by rewrite lookup_insert_eq|]. by rewrite lookup_insert_ne.
Qed.

Lemma running_of_Done ns ns' c c' :
  Done ns c = Some c' → (0 < running_of ns c)%Z →
  running_of ns' c' = (if decide (ns' = ns) then running_of ns' c - 1 else running_of ns' c)%Z.
Proof.
  unfold Done. destruct (_ <? _)%Z; [done|]. intros [= <-] Hr. unfold running_of in *. simpl.
  destruct (Z.leb_spec (default 0 (running c !! ns) - 1) 0)%Z as [Hle|Hle]; case_decide; subst.
  - rewrite lookup_delete_eq. simpl. lia.
  - by rewrite lookup_delete_ne.
  - by rewrite lookup_insert_eq.
  - by rewrite lookup_insert_ne.
Qed.

(** Undoing a put that nothing followed puts back what it replaced. *)
Lemma Undo_Put ns target t :
  remembered (Undo ns (Put ns target t).1 (Put ns target t).2) = remembered t.
Proof.
  unfold Undo, Put. simpl. rewrite lookup_insert_eq. simpl. rewrite Z.eqb_refl. simpl.
  destruct (remembered t !! ns) as [p|] eqn:Hp.
  - by rewrite insert_insert_eq, insert_id.
  - by rewrite delete_insert_id.
Qed.
