(* ===== verification/Lifecycle.v ===== *)
(** * The lifecycle repository (internal/app/repositories/lifecycle)

    The verbs of an arrow as the clients call them: install with its dependencies,
    update through a bracket that stages a target and settles it, the cascades that
    follow a stop or an uninstall, and the recheck of a row that is not installed.
    They are written as the calls they make on the catalog, the runtime repository,
    the graph and the state they share ([Brackets]): programs in the sense of
    [Prog], since each runs among other goroutines and every answer may depend on
    what those did. *)

From S2P Require Import Prelude Errors GoStrings Domain Steps Manifest Runtime Graph Brackets Prog.

(** ** The calls *)

Inductive call :=
(* the catalog *)
| ResolveCatalogued (ns : Namespace)
| Exists (ns : Namespace)
| GetArrow (ns : Namespace)
| AddDependency (declared : Namespace)
| CheckAvailable (ns : Namespace)
| Advance (ns : Namespace) (target : Available)
| RefreshToTarget (ns : Namespace) (target : Available)
| TargetUnmoved (ns : Namespace) (target : Available)
(* the runtime repository *)
| GetState (ns : Namespace)
| GetRuntime (ns : Namespace)
| BeginInstall (ns : Namespace) (vars : gmap string string)
| BeginExecution (ns : Namespace) (method : string) (vars : gmap string string)
| BeginStop (ns : Namespace)
| BeginUninstall (ns : Namespace) (vars : gmap string string)
| BeginUpdate (ns : Namespace) (vars : gmap string string) (targetRef : string)
| Forget (ns : Namespace)
| MarkOutdated (ns : Namespace) (added removed : list Namespace)
| ReconcileVersionBadge (ns : Namespace)
| ListenEnded (ns : Namespace)
| Unsubscribe (ns : Namespace)
(* a receive from the channel of [ListenEnded], or the end of the context *)
| WaitEnded (ns : Namespace)
(* [ctx.Err() != nil] *)
| ContextEnded
(* the graph *)
| ResolveGraph (ns : Namespace)
| HasDependents (ns excludeNs : Namespace)
| GetDependents (ns : Namespace)
| DiffDeps (old new : option Arrow)
(* the state shared between goroutines *)
| OpenBracket (ns : Namespace)
| CloseBracket (ns : Namespace)
| TargetPending (ns : Namespace)
| TargetPut (ns : Namespace) (target : Available)
| TargetUndo (ns : Namespace) (u : undo)
| TargetTake (ns : Namespace)
| CommitBegin (ns : Namespace)
| CommitInFlight (ns : Namespace)
| CommitDraining
(* the two sections of [releaseSettled] under the lock of the holds; the second
   answers whether it let the row go *)
| ClearHold (ns : Namespace)
| ReleaseUnheld (ns : Namespace)
| LockHolds
| MarkHold (ns : Namespace)
| UnlockHolds
(* [drain] under its lock, the wait for the commits or the end of the context, and
   the abort *)
| DrainBegin
| DrainWait
| DrainAbort
(* the fuel of [releaseSettled] ran out; nothing answers *)
| OutOfFuel.

Definition answer (c : call) : Type :=
  match c with
  | ResolveCatalogued _ | AddDependency _ => result error Namespace
  | Exists _ | TargetUnmoved _ _ | HasDependents _ _ => result error bool
  | GetArrow _ | RefreshToTarget _ _ => result error (option Arrow)
  | CheckAvailable _ => result error (option Available)
  | GetState _ => result error ArrowState
  | GetRuntime _ => result error (option ArrowRuntime)
  | WaitEnded _ => result error ArrowRuntime
  | ResolveGraph _ => result error (list PlanEntry)
  | GetDependents _ => result error (list Namespace)
  | DiffDeps _ _ => DepDiff
  | Advance _ _ | BeginInstall _ _ | BeginExecution _ _ _ | BeginStop _ | BeginUninstall _ _
  | BeginUpdate _ _ _ | Forget _ | MarkOutdated _ _ _ | ReconcileVersionBadge _
  | ListenEnded _ | OpenBracket _ => result error unit
  | ContextEnded | TargetPending _ | CommitBegin _ | CommitInFlight _ | CommitDraining
  | ReleaseUnheld _ | DrainBegin | DrainWait => bool
  | TargetPut _ _ => undo
  | TargetTake _ => option Available
  | Unsubscribe _ | CloseBracket _ | TargetUndo _ _ | ClearHold _ | LockHolds
  | MarkHold _ | UnlockHolds | DrainAbort => unit
  | OutOfFuel => Empty_set
  end.

Abbreviation P := (prog answer).

(** [_ = d.runtime.BeginStop(ctx, ns)] *)
Definition ignore {A} (p : P A) : P unit := _ ← p; mret ().

(** The state the zero value of [domain.ArrowState] is *)
Definition no_state : ArrowState := ArrowStateOther "".

Definition is_no_state (s : ArrowState) : bool := bool_decide (s = no_state).

(** ** Installing (deps/install.go) *)

Definition needsInstall (state : ArrowState) : bool :=
  is_no_state state || bool_decide (state = ArrowStateAbsent) ||
  bool_decide (state = ArrowStateInstalling) || bool_decide (state = ArrowStateRemoved).

Definition advanceToAvailable (ns : Namespace) : P (result error unit) :=
  state ←? ask (GetState ns);
  if negb (is_no_state state || bool_decide (state = ArrowStateAbsent) ||
           bool_decide (state = ArrowStateRemoved)) then mret (Ok ())
  else
    row ←? ask (GetArrow ns);
    match row ≫= arrow_available with
    | None => mret (Ok ())
    | Some recorded =>
      checked ← ask (CheckAvailable ns);
      match (match checked with Err _ => Some recorded | Ok target => target end) with
      | None => mret (Ok ())
      | Some target =>
        r ← ask (Advance ns target);
        mret (match r with
              | Ok _ => Ok ()
              | Err e => if negb (errors_Is e ErrNotFound) && negb (errors_Is e ErrFetchFailed)
                         then Err e else Ok ()
              end)
      end
    end.

(** [(bool, error)] whose boolean means something beside the error *)
Definition beginInstallHeld (ns : Namespace) (vars : gmap string string)
  : P (bool * result error unit) :=
  r ← ask (GetState ns);
  match r with
  | Err e => mret (false, Err e)
  | Ok state =>
    if negb (needsInstall state) then mret (false, Ok ())
    else began ← ask (BeginInstall ns vars); mret (true, began)
  end.

Definition beginInstall (ns : Namespace) (vars : gmap string string)
  : P (bool * result error unit) :=
  r ← ask (GetState ns);
  match r with
  | Err e => mret (false, Err e)
  | Ok state =>
    if negb (needsInstall state) then mret (false, Ok ())
    else
      opened ← ask (OpenBracket ns);
      match opened with
      | Err e => mret (false, Err e)
      | Ok _ => deferring (beginInstallHeld ns vars) (ask (CloseBracket ns))
      end
  end.

Definition isCatalogued (declared : Namespace) : P (result error bool) :=
  if String.eqb (Ref declared) "" then mret (Ok false) else ask (Exists declared).

Definition ensureDependency (declared : Namespace) : P (result error Namespace) :=
  catalogued ←? isCatalogued declared;
  if catalogued : bool then mret (Ok declared) else ask (AddDependency declared).

(** [err != nil && !errors.Is(err, ErrStateViolation)] *)
Definition unlessViolation (r : result error unit) : result error unit :=
  match r with
  | Err e => if errors_Is e ErrStateViolation then Ok () else Err e
  | Ok _ => Ok ()
  end.

(** How the end of a dependency's install is read *)
Definition installEnded (rt : ArrowRuntime) : result error unit :=
  match Outcome <$> LastReturn rt with
  | None | Some OutcomeSuccess => Ok ()
  | Some _ => Err []
  end.

Definition installOneDep (depNs : Namespace) : P (result error unit) :=
  _ ←? ask (ListenEnded depNs);
  deferring (
    r ← (beginInstall depNs ∅ : P _);
    match unlessViolation r.2 with
    | Err e => mret (Err e)
    | Ok _ =>
      if negb r.1 then mret (Ok ())
      else rt ←? ask (WaitEnded depNs); mret (installEnded rt)
    end : P (result error unit)) (ask (Unsubscribe depNs)).

Definition startServiceDep (depNs : Namespace) : P (result error unit) :=
  state ←? ask (GetState depNs);
  if bool_decide (state = ArrowStateRunning) then mret (Ok ())
  else
    r ← ask (BeginExecution depNs MethodExecute ∅); mret (unlessViolation r).

(** The loop that catalogues; [identities] is its map. *)
Fixpoint ensurePlan (plan : list PlanEntry) (identities : gmap Namespace Namespace)
  : P (result error (gmap Namespace Namespace)) :=
  match plan with
  | [] => mret (Ok identities)
  | entry :: plan' =>
    identity ←? ensureDependency (entry_namespace entry);
    ensurePlan plan' (<[entry_namespace entry := identity]> identities)
  end.

(** A missing key reads as the zero value. *)
Definition identity_of (identities : gmap Namespace Namespace) (ns : Namespace) : Namespace :=
  default "" (identities !! ns).

Fixpoint installEach (identities : gmap Namespace Namespace) (plan : list PlanEntry)
  : P (result error unit) :=
  match plan with
  | [] => mret (Ok ())
  | entry :: plan' =>
    let depNs := identity_of identities (entry_namespace entry) in
    _ ←? installOneDep depNs;
    match entry_type entry with
    | ToolDep => installEach identities plan'
    | ServiceDep => _ ←? startServiceDep depNs; installEach identities plan'
    end
  end.

Definition installPlan (plan : list PlanEntry) : P (result error unit) :=
  identities ←? ensurePlan plan ∅;
  installEach identities plan.

Definition installDeps (ns : Namespace) : P (result error unit) :=
  plan ←? ask (ResolveGraph ns);
  installPlan plan.

Definition Install (ns : Namespace) (vars : gmap string string) : P (result error bool) :=
  ns ←? ask (ResolveCatalogued ns);
  exists_ ←? ask (Exists ns);
  if negb exists_ then mret (Err [ErrNotFound])
  else
    state ←? ask (GetState ns);
    if negb (needsInstall state) then _ ←? installDeps ns; mret (Ok false)
    else
      _ ←? ask (OpenBracket ns);
      deferring (
        _ ←? advanceToAvailable ns;
        _ ←? installDeps ns;
        r ← beginInstallHeld ns vars;
        mret (match r.2 with Err e => Err e | Ok _ => Ok r.1 end)) (ask (CloseBracket ns)).

(** ** The other verbs of deps/deps.go *)

Definition Uninstall (ns : Namespace) (vars : gmap string string) : P (result error unit) :=
  ns ←? ask (ResolveCatalogued ns);
  hasDeps ←? ask (HasDependents ns "");
  if hasDeps : bool then mret (Err [ErrDependentsExist]) else ask (BeginUninstall ns vars).

Definition StopArrow (ns : Namespace) : P (result error unit) :=
  ns ←? ask (ResolveCatalogued ns);
  ask (BeginStop ns).

Definition StopIfRunning (ns : Namespace) : P (result error unit) :=
  state ←? ask (GetState ns);
  if negb (bool_decide (state = ArrowStateRunning)) then mret (Ok ())
  else
    _ ←? ask (ListenEnded ns);
    deferring (
      _ ←? ask (BeginStop ns);
      _ ←? ask (WaitEnded ns);
      mret (Ok ())) (ask (Unsubscribe ns)).

(** ** Syncing the dependencies of a target (deps/sync.go) *)

Fixpoint ensureAddedDeps (ns : Namespace) (added : list Namespace)
  (identities : gmap Namespace Namespace) : P (result error (gmap Namespace Namespace)) :=
  match added with
  | [] => mret (Ok identities)
  | depNs :: added' =>
    identity ←? ensureDependency depNs;
    if bool_decide (identity = ns) then mret (Err [ErrInvalidManifest])
    else ensureAddedDeps ns added' (<[depNs := identity]> identities)
  end.

Fixpoint installAdded (identities : gmap Namespace Namespace) (added : list Namespace)
  : P (result error unit) :=
  match added with
  | [] => mret (Ok ())
  | depNs :: added' =>
    _ ←? installOneDep (identity_of identities depNs); installAdded identities added'
  end.

(** [planMap[depNs] == domain.ServiceDep], the last entry of a name deciding *)
Definition planned_service (plan : list PlanEntry) (depNs : Namespace) : bool :=
  bool_decide (foldl (λ m e, <[entry_namespace e := entry_type e]> m) (∅ : gmap _ _) plan
    !! depNs = Some ServiceDep).

Fixpoint startAdded (plan : list PlanEntry) (identities : gmap Namespace Namespace)
  (added : list Namespace) : P (result error unit) :=
  match added with
  | [] => mret (Ok ())
  | depNs :: added' =>
    if planned_service plan depNs then
      _ ←? startServiceDep (identity_of identities depNs); startAdded plan identities added'
    else startAdded plan identities added'
  end.

Definition retireRemovedDep (declared : Namespace) : P unit :=
  resolved ← ask (ResolveCatalogued declared);
  match resolved with
  | Err _ => mret ()
  | Ok depNs =>
    row ← ask (GetArrow depNs);
    match row with
    | Ok (Some arrow) =>
      if UserInstalled arrow then mret ()
      else
        hasDeps ← ask (HasDependents depNs "");
        match hasDeps with
        | Ok false =>
          depState ← ask (GetState depNs);
          match depState with
          | Ok (ArrowStateReady | ArrowStateOutdated) => ignore (ask (BeginUninstall depNs ∅))
          | Ok (ArrowStateRunning | ArrowStateStopping) => ignore (ask (BeginStop depNs))
          | _ => mret ()
          end
        | _ => mret ()
        end
    | _ => mret ()
    end
  end.

Fixpoint retireAll (removed : list Namespace) : P unit :=
  match removed with
  | [] => mret ()
  | declared :: removed' => _ ← retireRemovedDep declared; retireAll removed'
  end.

Definition syncDeps (ns : Namespace) : P (result error unit) :=
  rt ←? ask (GetRuntime ns);
  match rt with
  | None => mret (Err [ErrStateViolation])
  | Some rt =>
    if negb (bool_decide (State rt = ArrowStateOutdated)) then mret (Err [ErrStateViolation])
    else
      match PendingDepSync rt with
      | None => mret (Ok ())
      | Some syncInfo =>
        identities ←? ensureAddedDeps ns (AddedDeps syncInfo) ∅;
        resolved ← ask (ResolveGraph ns);
        match (match resolved with
               | Err e => if errors_Is e ErrCyclicDependency then Some e else None
               | Ok _ => None
               end) with
        | Some e => mret (Err (ErrInvalidManifest :: e))
        | None =>
          _ ←? installAdded identities (AddedDeps syncInfo);
          _ ←? (match resolved with
                | Ok plan => startAdded plan identities (AddedDeps syncInfo)
                | Err _ => mret (Ok ())
                end);
          _ ← retireAll (RemovedDeps syncInfo);
          mret (Ok ())
        end
      end
  end.

(** [edgesToNs] *)
Definition edgesToNs (edges : list DependencyEdge) : list Namespace := map edge_namespace edges.

Definition SyncTargetDeps (ns : Namespace) (current target : option Arrow)
  : P (result error unit) :=
  diff ← ask (DiffDeps current target);
  _ ←? (if negb (bool_decide (Added diff = [])) || negb (bool_decide (Removed diff = []))
        then ask (MarkOutdated ns (edgesToNs (Added diff)) (edgesToNs (Removed diff)))
        else mret (Ok ()));
  state ←? ask (GetState ns);
  if negb (bool_decide (state = ArrowStateOutdated)) then mret (Ok ()) else syncDeps ns.

(** ** The reactions to an end (deps/reactions.go) *)

(** How many of the rows are read in a state that is not absent: a state that
    cannot be read counts as the zero value, which is. *)
Fixpoint countRunning (nss : list Namespace) : P nat :=
  match nss with
  | [] => mret 0
  | ns :: nss' =>
    r ← ask (GetState ns);
    let s := match r with Ok s => s | Err _ => no_state end in
    n ← countRunning nss';
    mret (if bool_decide (s = ArrowStateAbsent) || bool_decide (s = ArrowStateRemoved) ||
             is_no_state s then n else S n)
  end.

Definition others (ns : Namespace) (parents : list Namespace) : list Namespace :=
  filter (λ p, p ≠ ns) parents.

(** The body of the loop of [onStopEnded] *)
Definition stopUnneeded (stopped depNs : Namespace) : P unit :=
  state ← ask (GetState depNs);
  match state with
  | Ok (ArrowStateRunning | ArrowStateStopping) =>
    parents ← ask (GetDependents depNs);
    match parents with
    | Err _ => mret ()
    | Ok parents =>
      n ← countRunning (others stopped parents);
      if Nat.eqb n 0 then ignore (ask (BeginStop depNs)) else mret ()
    end
  | _ => mret ()
  end.

Fixpoint stopServices (stopped : Namespace) (plan : list PlanEntry) : P unit :=
  match plan with
  | [] => mret ()
  | entry :: plan' =>
    match entry_type entry with
    | ToolDep => stopServices stopped plan'
    | ServiceDep => _ ← stopUnneeded stopped (entry_namespace entry); stopServices stopped plan'
    end
  end.

Definition maybeAutoUninstallStopped (ns : Namespace) : P unit :=
  row ← ask (GetArrow ns);
  match row with
  | Ok (Some arrow) =>
    if UserInstalled arrow then mret ()
    else
      parents ← ask (GetDependents ns);
      match parents with
      | Err _ => mret ()
      | Ok parents =>
        n ← countRunning parents;
        if Nat.ltb 0 n then mret () else ignore (ask (BeginUninstall ns ∅))
      end
  | _ => mret ()
  end.

Definition onStopEnded (rt : ArrowRuntime) : P unit :=
  plan ← ask (ResolveGraph (RuntimeRef rt));
  match plan with
  | Err _ => mret ()
  | Ok plan =>
    _ ← stopServices (RuntimeRef rt) plan;
    maybeAutoUninstallStopped (RuntimeRef rt)
  end.

(** The body of the loop of [onUninstallEnded] *)
Definition removeUnneeded (uninstalled declared : Namespace) : P unit :=
  resolved ← ask (ResolveCatalogued declared);
  match resolved with
  | Err _ => mret ()
  | Ok depNs =>
    read ← ask (GetState depNs);
    match read with
    | Err _ => mret ()
    | Ok state =>
      if bool_decide (state = ArrowStateAbsent) || bool_decide (state = ArrowStateRemoved) ||
         is_no_state state then mret ()
      else
        parents ← ask (GetDependents depNs);
        match parents with
        | Err _ => mret ()
        | Ok parents =>
          n ← countRunning (others uninstalled parents);
          if Nat.ltb 0 n then mret ()
          else
            row ← ask (GetArrow depNs);
            match row with
            | Ok (Some arrow) =>
              if UserInstalled arrow then mret ()
              else
                match state with
                | ArrowStateRunning | ArrowStateStopping => ignore (ask (BeginStop depNs))
                | ArrowStateReady | ArrowStateOutdated => ignore (ask (BeginUninstall depNs ∅))
                | _ => mret ()
                end
            | _ => mret ()
            end
        end
    end
  end.

Fixpoint removeEach (uninstalled : Namespace) (plan : list PlanEntry) : P unit :=
  match plan with
  | [] => mret ()
  | entry :: plan' =>
    _ ← removeUnneeded uninstalled (entry_namespace entry); removeEach uninstalled plan'
  end.

Definition onUninstallEnded (rt : ArrowRuntime) : P unit :=
  plan ← ask (ResolveGraph (RuntimeRef rt));
  match plan with
  | Err _ => mret ()
  | Ok plan => removeEach (RuntimeRef rt) plan
  end.

(** ** Settling an update (settle/settler.go) *)

Definition Settling (ns : Namespace) : P bool :=
  pending ← ask (TargetPending ns);
  if pending : bool then mret true else ask (CommitInFlight ns).

Definition HoldBadge (ns : Namespace) : P bool :=
  _ ← ask LockHolds;
  deferring (
    settling ← Settling ns;
    if negb settling then mret false else _ ← ask (MarkHold ns); mret true) (ask UnlockHolds).

(** [commits.Drain] *)
Definition Drain : P (result error unit) :=
  idle ← ask DrainBegin;
  if idle : bool then mret (Ok ())
  else
    settled ← ask DrainWait;
    if settled : bool then mret (Ok ()) else _ ← ask DrainAbort; mret (Err [ErrContextEnded]).

(** Whether the writes that close a settling may be made: with the settling's own
    context, or with a fresh one unless a drain is what ended it *)
Definition afterSettle : P bool :=
  ended ← ask ContextEnded;
  if negb ended then mret true else stop ← ask CommitDraining; mret (negb stop).

Definition commitUpdate (ns : Namespace) (target : Available) : P bool :=
  unmoved ← ask (TargetUnmoved ns target);
  match unmoved with
  | Ok true =>
    r ← ask (Advance ns target);
    mret (is_ok r)
  | _ => mret false
  end.

Definition reconcileBadge (ns : Namespace) : P unit :=
  ok ← afterSettle;
  if ok : bool then ignore (ask (ReconcileVersionBadge ns)) else mret ().

Definition restoreInstalled (ns : Namespace) : P unit :=
  row ← ask (GetArrow ns);
  match row with
  | Ok (Some row) =>
    if String.eqb (resolved_commit (arrow_resolved row)) "" then mret ()
    else
      let installed := mkAvailable (resolved_ref (arrow_resolved row))
                         (resolved_commit (arrow_resolved row)) in
      ignore (ask (RefreshToTarget ns installed))
  | _ => mret ()
  end.

Definition settleUpdate (rt : ArrowRuntime) (target : option Available) : P unit :=
  let succeeded := match LastReturn rt with
                   | Some ret => bool_decide (Outcome ret = OutcomeSuccess)
                   | None => false
                   end in
  match target with
  | None => mret ()
  | Some target =>
    committed ← (if succeeded then commitUpdate (RuntimeRef rt) target else mret false);
    if committed : bool then mret ()
    else
      ok ← afterSettle;
      if ok : bool then restoreInstalled (RuntimeRef rt) else mret ()
  end.

(** The loop ends with the first reconcile during which no check was held. *)
Fixpoint releaseSettled (fuel : nat) (ns : Namespace) : P unit :=
  match fuel with
  | O => Call OutOfFuel (λ none : Empty_set, match none with end)
  | S fuel' =>
    _ ← ask (ClearHold ns);
    _ ← reconcileBadge ns;
    released ← ask (ReleaseUnheld ns);
    if released : bool then mret () else releaseSettled fuel' ns
  end.

Definition RestoreAbandoned (fuel : nat) (ns : Namespace) : P unit :=
  admitted ← ask (CommitBegin ns);
  if negb admitted then mret ()
  else deferring (restoreInstalled ns) (releaseSettled fuel ns).

(** The part of [OnUpdateEnded] that is detached runs after the handler, in a
    goroutine of its own. *)
Definition OnUpdateEnded (fuel : nat) (rt : ArrowRuntime) : P unit :=
  admitted ← ask (CommitBegin (RuntimeRef rt));
  target ← ask (TargetTake (RuntimeRef rt));
  if negb admitted then mret ()
  else deferring (settleUpdate rt target) (releaseSettled fuel (RuntimeRef rt)).

Definition OnRuntimeEnded (fuel : nat) (rt : ArrowRuntime) : P unit :=
  match LastReturn rt with
  | None => mret ()
  | Some ret =>
    if String.eqb (ReturnMethod ret) MethodStop then onStopEnded rt
    else if String.eqb (ReturnMethod ret) MethodUninstall then onUninstallEnded rt
    else if String.eqb (ReturnMethod ret) MethodUpdate then OnUpdateEnded fuel rt
    else mret ()
  end.

(** ** The update bracket (bracket/updater.go) *)

Definition rejudge (ns : Namespace) : P unit := ignore (ask (CheckAvailable ns)).

Definition updateBegan (ns : Namespace) : P bool :=
  pending ← ask (TargetPending ns);
  if negb pending then mret true
  else
    state ← ask (GetState ns);
    mret (match state with Ok ArrowStateUpdating => true | _ => false end).

(** [stageAndBegin] once the target is staged: its error, and whether an update
    began all the same *)
Definition beginStaged (ns : Namespace) (current target : option Arrow) (available : Available)
  (vars : gmap string string) : P (result error unit * bool) :=
  synced ← SyncTargetDeps ns current target;
  match synced with
  | Err e => mret (Err e, false)
  | Ok _ =>
    u ← ask (TargetPut ns available);
    r ← ask (BeginUpdate ns vars (available_ref available));
    match r with
    | Ok _ => mret (Ok (), false)
    | Err e =>
      ended ← ask ContextEnded;
      began ← (if ended : bool then updateBegan ns else mret false);
      _ ← (if began : bool then mret () else ask (TargetUndo ns u));
      mret (Err e, began)
    end
  end.

Definition stageAndBegin (fuel : nat) (ns : Namespace) (current : option Arrow)
  (available : Available) (vars : gmap string string) : P (result error unit) :=
  staged ← ask (RefreshToTarget ns available);
  match staged with
  | Err e => _ ← rejudge ns; mret (Err e)
  | Ok target =>
    r ← beginStaged ns current target available vars;
    _ ← (if is_ok r.1 || r.2 then mret () else RestoreAbandoned fuel ns);
    mret r.1
  end.

Definition updateHeld (fuel : nat) (ns : Namespace) (vars : gmap string string)
  : P (result error bool) :=
  settling ← Settling ns;
  if settling : bool then mret (Err [ErrStateViolation])
  else
    state ←? ask (GetState ns);
    if negb (bool_decide (state = ArrowStateReady)) &&
       negb (bool_decide (state = ArrowStateOutdated)) &&
       negb (bool_decide (state = ArrowStateRunning))
    then _ ←? ask (BeginExecution ns MethodUpdate vars); mret (Ok true)
    else
      current ←? ask (GetArrow ns);
      available ←? ask (CheckAvailable ns);
      match available with
      | None => mret (Ok false)
      | Some available =>
        _ ←? StopIfRunning ns;
        _ ←? stageAndBegin fuel ns current available vars;
        mret (Ok true)
      end.

Definition executeUpdate (fuel : nat) (ns : Namespace) (vars : gmap string string)
  : P (result error bool) :=
  _ ←? ask (OpenBracket ns);
  deferring (updateHeld fuel ns vars) (ask (CloseBracket ns)).

Definition Execute (fuel : nat) (ns : Namespace) (method : string) (vars : gmap string string)
  : P (result error unit) :=
  ns ←? ask (ResolveCatalogued ns);
  if String.eqb method MethodUpdate then _ ←? executeUpdate fuel ns vars; mret (Ok ())
  else ask (BeginExecution ns method vars).

Definition Update (fuel : nat) (ns : Namespace) (vars : gmap string string)
  : P (result error bool) :=
  ns ←? ask (ResolveCatalogued ns);
  executeUpdate fuel ns vars.

Definition Reset (ns : Namespace) : P (result error unit) :=
  _ ←? ask (Forget ns);
  _ ← ask (TargetTake ns);
  mret (Ok ()).

(** ** The recheck of a row (bracket/advancer.go) *)

Record UpdateResult := mkUpdateResult {
  result_AddedDeps : list Namespace;
  RemovedFromManifest : list Namespace;
  ConstrainedDeps : list ConstrainedDep;
  result_Available : option Available;
}.

Definition no_update : UpdateResult := mkUpdateResult [] [] [] None.

Definition still_ahead (target : Available) : UpdateResult := mkUpdateResult [] [] [] (Some target).

Definition isInstalled (state : ArrowState) : bool :=
  negb (is_no_state state) && negb (bool_decide (state = ArrowStateAbsent)) &&
  negb (bool_decide (state = ArrowStateRemoved)).

Definition installed (ns : Namespace) : P (result error bool) :=
  state ←? ask (GetState ns);
  mret (Ok (isInstalled state)).

Definition advanceHeld (ns : Namespace) (current : option Arrow) (target : Available)
  : P (result error UpdateResult) :=
  yes ←? installed ns;
  if yes : bool then mret (Ok (still_ahead target))
  else
    _ ←? ask (Advance ns target);
    advanced ←? ask (GetArrow ns);
    diff ← ask (DiffDeps current advanced);
    mret (Ok (mkUpdateResult (edgesToNs (Added diff)) (edgesToNs (Removed diff))
      (Constrained diff) None)).

Definition advanceCatalogued (ns : Namespace) (current : option Arrow) (target : Available)
  : P (result error UpdateResult) :=
  _ ←? ask (OpenBracket ns);
  deferring (advanceHeld ns current target) (ask (CloseBracket ns)).

Definition Recheck (ns : Namespace) : P (result error UpdateResult) :=
  ns ←? ask (ResolveCatalogued ns);
  current ←? ask (GetArrow ns);
  available ←? ask (CheckAvailable ns);
  match available with
  | None => mret (Ok no_update)
  | Some available =>
    yes ←? installed ns;
    if yes : bool then mret (Ok (still_ahead available))
    else advanceCatalogued ns current available
  end.
