(* ===== verification/LifecycleProtocol.v ===== *)
(** * The protocol of the brackets

    What a goroutine of [Lifecycle] may do next with a row, as an automaton: which
    brackets it holds, and how far its update or its settling has come.  Every
    entry point follows it whatever the answers, and leaves nothing open. *)

From S2P Require Import Prelude Errors GoStrings Domain Steps Manifest Runtime Graph Brackets Prog Lifecycle.

(** ** The automaton *)

(** How far a goroutine is with a row *)
Inductive phase :=
| Idle
(* in the bracket: no target is remembered; nor is a commit in flight *)
| Unpending (ns : Namespace)
| Checked (ns : Namespace)
| Staged (ns : Namespace) (target : Available)
| Remembered (ns : Namespace) (u : undo) (target : Available)
(* the update was refused, began, or was refused and its target is forgotten again *)
| Refused (ns : Namespace) (u : undo)
| Begun (ns : Namespace)
| Abandoned (ns : Namespace)
(* the end of an update is to be handled; its settling is registered, or refused, and
   its target is still to be taken *)
| Ending (ns : Namespace)
| Taking (ns : Namespace) (admitted : bool)
| Closing (ns : Namespace)
| Cleared (ns : Namespace)
| Reconciled (ns : Namespace)
(* under the lock of the holds, and the row that was found settling *)
| Holding (settling : option Namespace).

#[export] Instance undo_eq_dec : EqDecision undo.
Proof. solve_decision. Defined.

#[export] Instance phase_eq_dec : EqDecision phase.
Proof. solve_decision. Defined.

Record place := mkPlace {
  held : list Namespace;
  at_phase : phase;
}.

(** The row a phase is about *)
Definition mentions (ph : phase) : option Namespace :=
  match ph with
  | Idle | Holding _ => None
  | Unpending ns | Checked ns | Staged ns _ | Remembered ns _ _ | Refused ns _ | Begun ns
  | Abandoned ns | Ending ns | Taking ns _ | Closing ns | Cleared ns | Reconciled ns => Some ns
  end.

(** The phases in which a bracket may be closed on its row *)
Definition settled_phase (ph : phase) : Prop :=
  match ph with Idle | Checked _ | Begun _ => True | _ => False end.

Definition may (s : place) (c : call) : Prop :=
  match c with
  | OpenBracket ns => mentions (at_phase s) ≠ Some ns
  | CloseBracket ns => head (held s) = Some ns ∧
      (mentions (at_phase s) = Some ns → settled_phase (at_phase s))
  | BeginInstall ns _ => ns ∈ held s
  | Advance ns _ => ns ∈ held s ∨ at_phase s = Closing ns
  | RefreshToTarget ns _ => (at_phase s = Checked ns ∧ ns ∈ held s) ∨ at_phase s = Closing ns
  | TargetPut ns target => at_phase s = Staged ns target ∧ ns ∈ held s
  | BeginUpdate ns _ ref =>
      match at_phase s with
      | Remembered ns' _ target => ns' = ns ∧ available_ref target = ref
      | _ => False
      end
  | TargetUndo ns u => at_phase s = Refused ns u
  | TargetTake ns =>
      match at_phase s with Idle => True | Taking ns' _ => ns' = ns | _ => False end
  | CommitBegin ns =>
      match at_phase s with
      | Ending ns' | Staged ns' _ | Abandoned ns' => ns' = ns
      | _ => False
      end
  | TargetPending ns => match at_phase s with Refused ns' _ => ns' = ns | _ => True end
  | CommitInFlight ns => match at_phase s with Unpending ns' => ns' = ns | _ => True end
  | ClearHold ns => at_phase s = Closing ns
  | ReconcileVersionBadge ns => at_phase s = Cleared ns
  | ReleaseUnheld ns => at_phase s = Reconciled ns
  | LockHolds => at_phase s = Idle
  | MarkHold ns => at_phase s = Holding (Some ns)
  | UnlockHolds => match at_phase s with Holding _ => True | _ => False end
  | _ => True
  end.

Definition move_phase (s : place) (c : call) : answer c → phase :=
  let ph := at_phase s in
  match c with
  | CloseBracket ns => λ _, if bool_decide (mentions ph = Some ns) then Idle else ph
  | TargetPending ns => λ pending : bool,
      match ph with
      | Idle => if pending then Idle else if bool_decide (ns ∈ held s) then Unpending ns else Idle
      | Refused ns' _ => if pending then ph else if bool_decide (ns' = ns) then Begun ns else ph
      | Holding _ => if pending then Holding (Some ns) else ph
      | _ => ph
      end
  | CommitInFlight ns => λ inflight : bool,
      match ph with
      | Unpending ns' => if inflight then Idle else if bool_decide (ns' = ns) then Checked ns else Idle
      | Holding _ => if inflight then Holding (Some ns) else ph
      | _ => ph
      end
  | RefreshToTarget ns target => λ r,
      match ph with Checked _ => if is_ok r then Staged ns target else ph | _ => ph end
  | TargetPut ns target => λ u, Remembered ns u target
  | BeginUpdate ns _ _ => λ r,
      match ph with
      | Remembered _ u _ => if is_ok r then Begun ns else Refused ns u
      | _ => ph
      end
  | GetState ns => λ r,
      match ph, r with
      | Refused ns' _, Ok ArrowStateUpdating => if bool_decide (ns' = ns) then Begun ns else ph
      | _, _ => ph
      end
  | TargetUndo ns _ => λ _, Abandoned ns
  | CommitBegin ns => λ admitted : bool,
      match ph with
      | Ending _ => Taking ns admitted
      | _ => if admitted then Closing ns else Idle
      end
  | TargetTake ns => λ _,
      match ph with Taking _ true => Closing ns | _ => Idle end
  | ClearHold ns => λ _, Cleared ns
  | ReconcileVersionBadge ns => λ _, Reconciled ns
  | CommitDraining => λ draining : bool,
      match ph with Cleared ns => if draining then Reconciled ns else ph | _ => ph end
  | ReleaseUnheld ns => λ released : bool, if released then Idle else Closing ns
  | LockHolds => λ _, Holding None
  | UnlockHolds => λ _, Idle
  | _ => λ _, ph
  end.

Definition move_held (s : place) (c : call) : answer c → list Namespace :=
  match c with
  | OpenBracket ns => λ r, if is_ok r then ns :: held s else held s
  | CloseBracket _ => λ _, tail (held s)
  | _ => λ _, held s
  end.

Definition brackets_protocol : protocol answer place :=
  mkProtocol may (λ s c r, mkPlace (move_held s c r) (move_phase s c r)).

Definition at_rest : place := mkPlace [] Idle.

(** ** The entry points *)

Definition is_update_end (rt : ArrowRuntime) : bool :=
  match LastReturn rt with
  | Some ret => String.eqb (ReturnMethod ret) MethodUpdate
  | None => false
  end.

(** The programs that run as goroutines, and where each begins *)
Inductive goroutine (fuel : nat) : place → P unit → Prop :=
| go_install ns vars : goroutine fuel at_rest (ignore (Install ns vars))
| go_uninstall ns vars : goroutine fuel at_rest (ignore (Uninstall ns vars))
| go_execute ns method vars : goroutine fuel at_rest (ignore (Execute fuel ns method vars))
| go_update ns vars : goroutine fuel at_rest (ignore (Update fuel ns vars))
| go_stop ns : goroutine fuel at_rest (ignore (StopArrow ns))
| go_reset ns : goroutine fuel at_rest (ignore (Reset ns))
| go_recheck ns : goroutine fuel at_rest (ignore (Recheck ns))
| go_hold ns : goroutine fuel at_rest (ignore (HoldBadge ns))
| go_drain : goroutine fuel at_rest (ignore Drain)
| go_ended rt : goroutine fuel
    (if is_update_end rt then mkPlace [] (Ending (RuntimeRef rt)) else at_rest)
    (OnRuntimeEnded fuel rt).

(** ** Programs that leave a goroutine where it was *)

(** [p] may run wherever the goroutine is busy with [row] and is not judging a
    refused update; it ends where it started, with a result in [Q]. *)
Definition quiet (row : option Namespace) {A} (p : P A) (Q : A → Prop) : Prop :=
  ∀ hs ph, mentions ph = row → (∀ ns u, ph ≠ Refused ns u) →
  follows brackets_protocol (mkPlace hs ph) p (λ a s, s = mkPlace hs ph ∧ Q a).

(** The calls that never matter to the protocol in such a place *)
Definition neutral (c : call) : bool :=
  match c with
  | ResolveCatalogued _ | Exists _ | GetArrow _ | AddDependency _ | CheckAvailable _
  | TargetUnmoved _ _ | GetState _ | GetRuntime _ | BeginExecution _ _ _ | BeginStop _
  | BeginUninstall _ _ | Forget _ | MarkOutdated _ _ _ | ListenEnded _ | Unsubscribe _
  | WaitEnded _ | ContextEnded | ResolveGraph _ | HasDependents _ _ | GetDependents _
  | DiffDeps _ _ | DrainBegin | DrainWait | DrainAbort => true
  | _ => false
  end.

Section quiet.
Context (row : option Namespace).

Lemma quiet_ret {A} (a : A) (Q : A → Prop) : Q a → quiet row (mret a) Q.
Proof. intros HQ hs ph _ _. done. Qed.

Lemma quiet_ask c (Q : answer c → Prop) :
  neutral c = true → (∀ r, Q r) → quiet row (ask c) Q.
Proof.
  intros Hc HQ hs ph Hrow Hph. apply follows_ask.
  - by destruct c.
  - intros r. split; [|done]. destruct c; try done; simpl in *; destruct ph; try done.
    exfalso. by eapply Hph.
Qed.

Lemma quiet_mono {A} (p : P A) (Q Q' : A → Prop) :
  quiet row p Q → (∀ a, Q a → Q' a) → quiet row p Q'.
Proof.
  intros Hp HQ hs ph Hrow Hph. eapply follows_mono; [by apply Hp|].
  intros a s [-> Ha]. split; [done|by apply HQ].
Qed.

Lemma quiet_bind {A B} (p : P A) (f : A → P B) Q Q' :
  quiet row p Q → (∀ a, Q a → quiet row (f a) Q') → quiet row (p ≫= f) Q'.
Proof.
  intros Hp Hf hs ph Hrow Hph. apply follows_bind. eapply follows_mono; [by apply Hp|].
  intros a s [-> Ha]. by apply Hf.
Qed.

Lemma quiet_bind_ok {A B} (p : P (result error A)) (f : A → P (result error B)) Q Q' :
  quiet row p Q → (∀ a, Q (Ok a) → quiet row (f a) Q') → (∀ e, Q' (Err e)) →
  quiet row (bind_ok p f) Q'.
Proof.
  intros Hp Hf He. eapply quiet_bind; [exact Hp|]. intros [a|e] Ha; [by apply Hf|].
  by apply quiet_ret.
Qed.

Lemma quiet_deferring {A B} (p : P A) (q : P B) Q :
  quiet row p Q → quiet row q (λ _, True) → quiet row (deferring p q) Q.
Proof.
  intros Hp Hq. eapply quiet_bind; [exact Hp|]. intros a Ha.
  eapply quiet_bind; [exact Hq|]. intros _ _. by apply quiet_ret.
Qed.

(** A neutral call whose answer nothing is known of *)
Lemma quiet_ask_bind c {B} (f : answer c → P B) Q :
  neutral c = true → (∀ a, quiet row (f a) Q) → quiet row (ask c ≫= f) Q.
Proof. intros Hc Hf. eapply quiet_bind; [by apply quiet_ask with (Q := λ _, True)|]. auto. Qed.
End quiet.

Ltac quiet_step :=
  match goal with
  | |- quiet _ (mret _) _ => apply quiet_ret
  | |- quiet _ (ask _) _ => apply quiet_ask; [reflexivity|intros ?]
  | |- quiet _ (mbind _ (ask _)) _ => apply quiet_ask_bind; [reflexivity|intros ?]
  | |- quiet _ (bind_ok (ask _) _) _ => apply quiet_ask_bind; [reflexivity|intros [?|?]]
  | |- quiet _ (match ?x with _ => _ end) _ => destruct x
  | |- quiet _ (deferring _ _) _ => apply quiet_deferring
  | |- quiet _ (ignore _) _ => unfold ignore
  | |- quiet _ (let _ := _ in _) _ => intros ?
  end.

Ltac quiet := repeat (quiet_step; try done).

Lemma StopIfRunning_quiet row ns : quiet row (StopIfRunning ns) (λ _, True).
Proof. unfold StopIfRunning. quiet. Qed.

(** Beginning an install of another row, in that row's bracket *)
Lemma beginInstall_quiet row d vars :
  row ≠ Some d → quiet row (beginInstall d vars) (λ _, True).
Proof.
  intros Hrow. unfold beginInstall. quiet. intros hs ph Hph Hcalm.
  assert (mentions ph ≠ Some d) as Hd by by rewrite Hph.
  apply follows_ask_bind; [done|]. intros [[]|e]; [|done].
  apply follows_deferring.
  eapply follows_mono with (Q := λ _ s, s = mkPlace (d :: hs) ph).
  - unfold beginInstallHeld. apply follows_ask_bind; [done|]. intros r.
    match goal with |- follows _ ?s _ _ => replace s with (mkPlace (d :: hs) ph) end;
      [|simpl; f_equal; destruct ph; naive_solver].
    destruct r as [st|e]; [|done]. case_match; [done|].
    apply follows_ask_bind; [apply list_elem_of_here|]. done.
  - intros b s ->. split; [by split|]. intros []. simpl.
    by rewrite bool_decide_eq_false_2.
Qed.

Lemma ensureDependency_quiet row declared : quiet row (ensureDependency declared) (λ _, True).
Proof.
  unfold ensureDependency. eapply quiet_bind_ok with (Q := λ _, True); [|intros a _; by quiet|done].
  unfold isCatalogued. by quiet.
Qed.

Lemma startServiceDep_quiet row d : quiet row (startServiceDep d) (λ _, True).
Proof. unfold startServiceDep. quiet. Qed.

Lemma installOneDep_quiet row d : row ≠ Some d → quiet row (installOneDep d) (λ _, True).
Proof.
  intros Hrow. unfold installOneDep. quiet.
  eapply quiet_bind; [by apply beginInstall_quiet|]. intros r _. quiet.
Qed.

Lemma ensurePlan_quiet plan identities :
  quiet None (ensurePlan plan identities) (λ _, True).
Proof.
  revert identities. induction plan as [|e plan IH]; intros identities; simpl; [by quiet|].
  eapply quiet_bind_ok; [apply ensureDependency_quiet|intros d _; apply IH|done].
Qed.

Lemma installEach_quiet identities plan : quiet None (installEach identities plan) (λ _, True).
Proof.
  induction plan as [|e plan IH]; simpl; [by quiet|].
  eapply quiet_bind_ok; [by apply installOneDep_quiet|intros _ _|done].
  destruct (entry_type e); [done|].
  eapply quiet_bind_ok; [apply startServiceDep_quiet|by intros _ _|done].
Qed.

Lemma installDeps_quiet ns : quiet None (installDeps ns) (λ _, True).
Proof.
  unfold installDeps, installPlan. quiet.
  eapply quiet_bind_ok; [apply ensurePlan_quiet|intros ids _; apply installEach_quiet|done].
Qed.

(** The row itself is never among the identities a target gained. *)
Lemma ensureAddedDeps_quiet row ns added identities :
  quiet row (ensureAddedDeps ns added identities) (λ r,
    match r with
    | Ok ids =>
      (∀ d, d ∈ added → is_Some (ids !! d)) ∧
      (∀ d, is_Some (identities !! d) → is_Some (ids !! d)) ∧
      ((∀ d i, identities !! d = Some i → i ≠ ns) → ∀ d i, ids !! d = Some i → i ≠ ns)
    | Err _ => True
    end).
Proof.
  revert identities. induction added as [|d added IH]; intros identities; simpl.
  { apply quiet_ret. split_and!; [by intros ? ?%not_elem_of_nil|done|done]. }
  eapply quiet_bind_ok; [apply ensureDependency_quiet|intros i _|done].
  case_bool_decide as Hi; [by apply quiet_ret|].
  eapply quiet_mono; [apply IH|]. intros [ids|e]; [|done]. intros (Hall & Hkeep & Hne). split_and!.
  - intros x [->|Hx]%elem_of_cons; [|by apply Hall]. apply Hkeep. by rewrite lookup_insert_eq.
  - intros x Hx. apply Hkeep. destruct (decide (x = d)) as [->|];
      [by rewrite lookup_insert_eq|by rewrite lookup_insert_ne].
  - intros Hids. apply Hne. intros x j. destruct (decide (x = d)) as [->|];
      [rewrite lookup_insert_eq; by intros [= <-]|rewrite lookup_insert_ne by done; apply Hids].
Qed.

Lemma installAdded_quiet ns identities added :
  (∀ d, d ∈ added → identity_of identities d ≠ ns) →
  quiet (Some ns) (installAdded identities added) (λ _, True).
Proof.
  induction added as [|d added IH]; simpl; intros Hne; [by quiet|].
  eapply quiet_bind_ok; [apply installOneDep_quiet|intros _ _; apply IH|done].
  - intros H. apply (Hne d); [apply list_elem_of_here|congruence].
  - intros x Hx. by apply Hne, list_elem_of_further.
Qed.

Lemma startAdded_quiet row plan identities added :
  quiet row (startAdded plan identities added) (λ _, True).
Proof.
  induction added as [|d added IH]; simpl; [by quiet|]. case_match; [|done].
  eapply quiet_bind_ok; [apply startServiceDep_quiet|by intros _ _|done].
Qed.

Lemma retireAll_quiet row removed : quiet row (retireAll removed) (λ _, True).
Proof.
  induction removed as [|d removed IH]; cbn [retireAll]; [by quiet|].
  eapply quiet_bind with (Q := λ _, True); [|by intros _ _]. unfold retireRemovedDep. quiet.
Qed.

Lemma syncDeps_quiet ns : quiet (Some ns) (syncDeps ns) (λ _, True).
Proof.
  unfold syncDeps. apply quiet_ask_bind; [done|]. intros [[rt|]|]; [|by quiet..].
  destruct (negb _); [by quiet|]. destruct (PendingDepSync rt) as [info|]; [|by quiet].
  eapply quiet_bind_ok; [apply ensureAddedDeps_quiet| |done].
  intros ids (Hall & _ & Hne). simpl.
  assert (∀ d, d ∈ AddedDeps info → identity_of ids d ≠ ns) as Hids.
  { intros d Hd. unfold identity_of. destruct (Hall d Hd) as [i Hi]. rewrite Hi. simpl.
    apply (Hne ltac:(by intros ??; rewrite lookup_empty) d i Hi). }
  apply quiet_ask_bind; [done|]. intros r. destruct (match r with Ok _ => _ | Err _ => _ end).
  { by quiet. }
  eapply quiet_bind_ok; [by apply installAdded_quiet|intros _ _|done].
  eapply quiet_bind_ok with (Q := λ _, True); [|intros _ _|done].
  { destruct r; [apply startAdded_quiet|by quiet]. }
  eapply quiet_bind; [apply retireAll_quiet|intros _ _; by quiet].
Qed.

Lemma SyncTargetDeps_quiet ns current target :
  quiet (Some ns) (SyncTargetDeps ns current target) (λ _, True).
Proof.
  unfold SyncTargetDeps. apply quiet_ask_bind; [done|]. intros diff.
  eapply quiet_bind_ok with (Q := λ _, True); [by quiet|intros _ _|done].
  apply quiet_ask_bind; [done|]. intros [st|]; [|by quiet].
  destruct (negb _); [by quiet|apply syncDeps_quiet].
Qed.

Lemma countRunning_quiet row nss : quiet row (countRunning nss) (λ _, True).
Proof.
  induction nss as [|ns nss IH]; cbn [countRunning]; [by quiet|].
  apply quiet_ask_bind; [done|]. intros r. eapply quiet_bind; [exact IH|]. intros n _. by quiet.
Qed.

Lemma onStopEnded_quiet rt : quiet None (onStopEnded rt) (λ _, True).
Proof.
  unfold onStopEnded. apply quiet_ask_bind; [done|]. intros [plan|]; [|by quiet].
  eapply quiet_bind with (Q := λ _, True).
  - induction plan as [|e plan IH]; cbn [stopServices]; [by quiet|]. destruct (entry_type e); [done|].
    eapply quiet_bind with (Q := λ _, True); [|by intros _ _]. unfold stopUnneeded. quiet.
    all: eapply quiet_bind; [apply countRunning_quiet|intros n _; by quiet].
  - intros _ _. unfold maybeAutoUninstallStopped. quiet.
    eapply quiet_bind; [apply countRunning_quiet|intros n _; by quiet].
Qed.

Lemma onUninstallEnded_quiet rt : quiet None (onUninstallEnded rt) (λ _, True).
Proof.
  unfold onUninstallEnded. apply quiet_ask_bind; [done|]. intros [plan|]; [|by quiet].
  induction plan as [|e plan IH]; cbn [removeEach]; [by quiet|].
  eapply quiet_bind with (Q := λ _, True); [|by intros _ _]. unfold removeUnneeded. quiet.
  all: eapply quiet_bind; [apply countRunning_quiet|intros n _; by quiet].
Qed.

(** ** Settling and updating *)

Abbreviation goes s p Q := (follows brackets_protocol s p Q).

Lemma quiet_goes {A} hs ph (p : P A) (Q : A → Prop) (Q' : A → place → Prop) :
  quiet (mentions ph) p Q → (∀ ns u, ph ≠ Refused ns u) → (∀ a, Q a → Q' a (mkPlace hs ph)) →
  goes (mkPlace hs ph) p Q'.
Proof.
  intros Hp Hph HQ. eapply follows_mono; [by apply Hp|]. intros a s [-> Ha]. by apply HQ.
Qed.

Lemma quiet_goes_bind {A B} hs ph (p : P A) (f : A → P B) (Q : A → Prop) (Q' : B → place → Prop) :
  quiet (mentions ph) p Q → (∀ ns u, ph ≠ Refused ns u) →
  (∀ a, Q a → goes (mkPlace hs ph) (f a) Q') → goes (mkPlace hs ph) (p ≫= f) Q'.
Proof. intros Hp Hph HQ. apply follows_bind. by eapply quiet_goes. Qed.

Lemma quiet_goes_bind_ok {A B} hs ph (p : P (result error A)) (f : A → P (result error B))
  (Q : result error A → Prop) (Q' : result error B → place → Prop) :
  quiet (mentions ph) p Q → (∀ ns u, ph ≠ Refused ns u) →
  (∀ a, Q (Ok a) → goes (mkPlace hs ph) (f a) Q') → (∀ e, Q' (Err e) (mkPlace hs ph)) →
  goes (mkPlace hs ph) (bind_ok p f) Q'.
Proof.
  intros Hp Hph HQ He. unfold bind_ok. eapply quiet_goes_bind; [exact Hp|done|].
  intros [a|e] Ha; [by apply HQ|apply He].
Qed.

(** A call, and one whose error ends the program *)
Ltac goes_step := apply follows_ask_bind; [try done|intros ?].
Ltac goes_ok := apply follows_ask_bind; [try done|intros [?|?]; [|try done]].

Lemma releaseSettled_goes fuel ns hs :
  goes (mkPlace hs (Closing ns)) (releaseSettled fuel ns) (λ _ s, s = mkPlace hs Idle).
Proof.
  induction fuel as [|fuel IH]; cbn [releaseSettled]; [by split|].
  apply follows_ask_bind; [done|]. intros [].
  apply follows_bind. eapply follows_mono with (Q := λ _ s, s = mkPlace hs (Reconciled ns)).
  - unfold reconcileBadge, afterSettle. apply follows_bind, follows_ask_bind; [done|].
    intros [|]; simpl; [|split; [done|by intros]].
    split; [done|]. intros [|]; simpl; [done|split; [done|by intros]].
  - intros _ s ->. apply follows_ask_bind; [done|]. intros [|]; [done|apply IH].
Qed.

Lemma afterSettle_goes ns hs :
  goes (mkPlace hs (Closing ns)) afterSettle (λ _ s, s = mkPlace hs (Closing ns)).
Proof.
  unfold afterSettle. apply follows_ask_bind; [done|]. intros [|]; [|done].
  apply follows_ask_bind; [done|]. by intros [|].
Qed.

Lemma restoreInstalled_goes ns hs :
  goes (mkPlace hs (Closing ns)) (restoreInstalled ns) (λ _ s, s = mkPlace hs (Closing ns)).
Proof.
  unfold restoreInstalled. apply follows_ask_bind; [done|]. intros [[row|]|]; [|done..].
  case_match; [done|]. simpl. split; [by right|done].
Qed.

Lemma RestoreAbandoned_goes fuel ns hs ph :
  (∃ target, ph = Staged ns target) ∨ ph = Abandoned ns →
  goes (mkPlace hs ph) (RestoreAbandoned fuel ns) (λ _ s, s = mkPlace hs Idle).
Proof.
  intros Hph. unfold RestoreAbandoned. apply follows_ask_bind; [by destruct Hph as [[? ->]| ->]|].
  intros admitted. destruct admitted; destruct Hph as [[? ->]| ->]; simpl; try done.
  all: apply follows_deferring; eapply follows_mono; [apply restoreInstalled_goes|].
  all: intros [] s ->; apply releaseSettled_goes.
Qed.

Lemma OnUpdateEnded_goes fuel rt :
  goes (mkPlace [] (Ending (RuntimeRef rt))) (OnUpdateEnded fuel rt) (λ _ s, s = at_rest).
Proof.
  unfold OnUpdateEnded. apply follows_ask_bind; [done|]. intros admitted.
  apply follows_ask_bind; [done|]. intros target. destruct admitted; [|done]. simpl.
  apply follows_deferring.
  eapply follows_mono with (Q := λ _ s, s = mkPlace [] (Closing (RuntimeRef rt))).
  2: intros [] s ->; apply releaseSettled_goes.
  unfold settleUpdate. destruct target as [target|]; [|done]. apply follows_bind.
  eapply follows_mono with (Q := λ _ s, s = mkPlace [] (Closing (RuntimeRef rt))).
  - case_match; [|done]. unfold commitUpdate. apply follows_ask_bind; [done|].
    intros [[]|]; [|done..]. apply follows_ask_bind; [by right|]. done.
  - intros committed s ->. destruct committed; [done|].
    apply follows_bind. eapply follows_mono; [apply afterSettle_goes|].
    intros ok s ->. destruct ok; [apply restoreInstalled_goes|done].
Qed.

(** Where an update may leave its bracket *)
Definition closable (ns : Namespace) (s : place) : Prop :=
  held s = [ns] ∧ (at_phase s = Idle ∨ at_phase s = Checked ns ∨ at_phase s = Begun ns).

(** Where the begin of a staged update leaves it *)
Definition begun_or_due (ns : Namespace) (r : result error unit * bool) (s : place) : Prop :=
  held s = [ns] ∧
  if is_ok r.1 || r.2 then at_phase s = Begun ns
  else (∃ target, at_phase s = Staged ns target) ∨ at_phase s = Abandoned ns.

Lemma beginStaged_goes ns current target available vars :
  goes (mkPlace [ns] (Staged ns available)) (beginStaged ns current target available vars)
    (begun_or_due ns).
Proof.
  unfold beginStaged. eapply quiet_goes_bind; [apply SyncTargetDeps_quiet|done|].
  intros [[]|e] _; [|by split; [|left; eexists]].
  apply follows_ask_bind; [split; [done|apply list_elem_of_here]|]. intros u.
  apply follows_ask_bind; [done|]. intros [[]|e]; [done|].
  apply follows_ask_bind; [done|]. intros ended. simpl moves.
  apply follows_bind. eapply follows_mono with (Q := λ began s,
    s = mkPlace [ns] (if began : bool then Begun ns else Refused ns u)).
  - destruct ended; [|done]. unfold updateBegan. apply follows_ask_bind; [done|].
    intros [|]; simpl; [|by rewrite bool_decide_eq_true_2].
    split; [done|]. intros [[]|]; try done. simpl. by rewrite bool_decide_eq_true_2.
  - intros [|] s ->; [done|]. apply follows_ask_bind; [done|]. intros []. split; [done|by right].
Qed.

Lemma stageAndBegin_goes fuel ns current available vars :
  goes (mkPlace [ns] (Checked ns)) (stageAndBegin fuel ns current available vars)
    (λ _, closable ns).
Proof.
  unfold stageAndBegin. apply follows_ask_bind; [left; split; [done|apply list_elem_of_here]|].
  intros [target|e]; simpl moves.
  - apply follows_bind. eapply follows_mono; [apply beginStaged_goes|].
    intros r [hs ph] [Hh Hph]. simpl in Hh, Hph. subst hs. destruct (is_ok r.1 || r.2).
    + subst ph. split; [done|]. by right; right.
    + apply follows_bind. eapply follows_mono; [by apply RestoreAbandoned_goes|].
      intros [] s ->. split; [done|by left].
  - unfold rejudge, ignore. apply follows_bind, follows_ask_bind; [done|]. intros r.
    split; [done|]. by right; left.
Qed.

Lemma updateHeld_goes fuel ns vars :
  goes (mkPlace [ns] Idle) (updateHeld fuel ns vars) (λ _, closable ns).
Proof.
  assert (closable ns (mkPlace [ns] Idle)) as Hidle by (split; [done|by left]).
  assert (closable ns (mkPlace [ns] (Checked ns))) as Hchecked by (split; [done|by right; left]).
  unfold updateHeld. apply follows_bind.
  eapply follows_mono with (Q := λ settling s,
    s = mkPlace [ns] (if settling : bool then Idle else Checked ns)).
  - unfold Settling. apply follows_ask_bind; [done|]. intros [|]; [done|]. simpl.
    rewrite bool_decide_eq_true_2 by apply list_elem_of_here.
    split; [done|]. intros [|]; [done|]. simpl. by rewrite bool_decide_eq_true_2.
  - intros [|] s ->; [done|]. goes_ok. case_match.
    + by goes_ok.
    + goes_ok. goes_ok. case_match; [|done].
      eapply quiet_goes_bind_ok; [apply StopIfRunning_quiet|done| |done]. intros [] _.
      apply follows_bind_ok. eapply follows_mono; [apply stageAndBegin_goes|].
      by intros [[]|e] s Hs.
Qed.

Lemma executeUpdate_goes fuel ns vars :
  goes at_rest (executeUpdate fuel ns vars) (λ _ s, s = at_rest).
Proof.
  unfold executeUpdate. apply follows_ask_bind; [done|]. intros [[]|e]; [|done].
  apply follows_deferring. eapply follows_mono; [apply updateHeld_goes|].
  intros r [hs ph] [Hh Hph]. simpl in Hh, Hph. subst hs.
  split; [split; [done|intros _; by destruct Hph as [->|[->| ->]]]|]. intros []. unfold moves. simpl.
  destruct Hph as [->|[->| ->]]; simpl; [done|by rewrite bool_decide_eq_true_2..].
Qed.

Lemma advanceToAvailable_goes ns hs :
  goes (mkPlace (ns :: hs) Idle) (advanceToAvailable ns) (λ _ s, s = mkPlace (ns :: hs) Idle).
Proof.
  unfold advanceToAvailable. goes_ok. case_match; [done|].
  goes_ok. destruct (_ ≫= _) as [recorded|]; [|done]. goes_step.
  case_match; [|done]. apply follows_ask_bind; [left; apply list_elem_of_here|]. done.
Qed.

Lemma beginInstallHeld_goes ns hs vars :
  goes (mkPlace (ns :: hs) Idle) (beginInstallHeld ns vars) (λ _ s, s = mkPlace (ns :: hs) Idle).
Proof.
  unfold beginInstallHeld. goes_step. case_match; [|done]. case_match; [done|].
  apply follows_ask_bind; [apply list_elem_of_here|]. done.
Qed.

Lemma Install_goes ns vars : goes at_rest (Install ns vars) (λ _ s, s = at_rest).
Proof.
  unfold Install, at_rest. goes_ok. goes_ok. case_match; [done|].
  goes_ok. case_match.
  { eapply quiet_goes_bind_ok; [apply installDeps_quiet|done|done|done]. }
  apply follows_ask_bind; [done|]. intros [[]|e]; [|done]. apply follows_deferring.
  eapply follows_mono with (Q := λ _ s, s = mkPlace [a] Idle).
  - unfold bind_ok at 1. apply follows_bind. eapply follows_mono; [apply advanceToAvailable_goes|].
    intros [[]|e] s ->; [|done].
    eapply quiet_goes_bind_ok; [apply installDeps_quiet|done| |done]. intros [] _.
    apply follows_bind. eapply follows_mono; [apply beginInstallHeld_goes|]. by intros r s ->.
  - intros r s ->. by repeat split.
Qed.

Lemma Recheck_goes ns : goes at_rest (Recheck ns) (λ _ s, s = at_rest).
Proof.
  unfold Recheck, at_rest. goes_ok. goes_ok. goes_ok.
  case_match; [|done]. unfold installed.
  eapply quiet_goes_bind_ok with (Q := λ _, True); [by quiet|done| |done]. intros yes _.
  case_match; [done|]. unfold advanceCatalogued.
  apply follows_ask_bind; [done|]. intros [[]|e]; [|done]. apply follows_deferring.
  eapply follows_mono with (Q := λ _ s, s = mkPlace [a] Idle).
  - unfold advanceHeld, installed. eapply quiet_goes_bind_ok with (Q := λ _, True); [by quiet|done| |done].
    intros yes' _. case_match; [done|].
    apply follows_ask_bind; [left; apply list_elem_of_here|]. intros [[]|e]; [|done].
    goes_ok. goes_step; done.
  - intros r s ->. by repeat split.
Qed.

Lemma goes_ignore {A} s (p : P A) s' :
  goes s p (λ _ x, x = s') → goes s (ignore p) (λ _ x, x = s').
Proof. intros Hp. apply follows_bind. eapply follows_mono; [exact Hp|]. by intros a x ->. Qed.

Lemma goroutine_goes fuel start p :
  goroutine fuel start p → goes start p (λ _ s, s = at_rest).
Proof.
  intros [ns vars|ns vars|ns method vars|ns vars|ns|ns|ns|ns| |rt]; try apply goes_ignore.
  - apply Install_goes.
  - unfold Uninstall, at_rest. goes_ok. goes_ok. by case_match.
  - unfold Execute, at_rest. goes_ok. case_match; [|done].
    apply follows_bind_ok. eapply follows_mono; [apply executeUpdate_goes|]. by intros [|] s ->.
  - unfold Update, at_rest. goes_ok. apply executeUpdate_goes.
  - unfold StopArrow, at_rest. goes_ok. by repeat split.
  - unfold Reset, at_rest. goes_ok. by apply follows_ask_bind.
  - apply Recheck_goes.
  - unfold HoldBadge, Settling. apply follows_ask_bind; [done|]. intros []. simpl moves.
    apply follows_deferring. apply follows_bind, follows_ask_bind; [done|]. intros [|]; simpl.
    + by repeat split.
    + split; [done|]. intros [|]; simpl; by repeat split.
  - unfold Drain, at_rest. goes_step. case_match; [done|]. goes_step. case_match; [done|].
    goes_step; done.
  - unfold OnRuntimeEnded, is_update_end. destruct (LastReturn rt) as [ret|]; [|done].
    destruct (String.eqb_spec (ReturnMethod ret) MethodStop) as [->|]; simpl.
    { eapply quiet_goes; [apply onStopEnded_quiet|done..]. }
    destruct (String.eqb_spec (ReturnMethod ret) MethodUninstall) as [->|]; simpl.
    { eapply quiet_goes; [apply onUninstallEnded_quiet|done..]. }
    case_match; [apply OnUpdateEnded_goes|done].
Qed.

(** ** What a goroutine owes its row

    A second automaton over the same calls: once a settling was admitted it owes its row the
    commit of the update that succeeded, or the manifest that is installed. *)
Inductive duty :=
| NoDuty
(* the end of an update is to be handled, and its settling was admitted *)
| Ended (ns : Namespace) (succeeded : bool)
| Accepted (ns : Namespace) (succeeded : bool)
(* to be settled, with the target that may be committed, and one that did not move *)
| Settles (ns : Namespace) (target : option Available)
| Unmoved (ns : Namespace) (target : Available)
| PutsBack (ns : Namespace) (installed : Available).

Definition owes_nothing (d : duty) : bool := match d with NoDuty => true | _ => false end.

Definition may_owing (d : duty) (c : call) : Prop :=
  match c with
  | ClearHold _ | ReleaseUnheld _ | OpenBracket _ | CloseBracket _ | BeginUpdate _ _ _ => d = NoDuty
  | RefreshToTarget ns target =>
    match d with NoDuty => True | PutsBack ns' installed => ns = ns' ∧ target = installed | _ => False end
  | Advance ns target =>
    match d with NoDuty => True | Unmoved ns' target' => ns = ns' ∧ target = target' | _ => False end
  | CommitBegin ns => match d with NoDuty => True | Ended ns' _ => ns = ns' | _ => False end
  | TargetTake ns => match d with NoDuty => True | Accepted ns' _ => ns = ns' | _ => False end
  | _ => True
  end.

(** Nothing is owed once the row is committed or its manifest put back, once a drain stops
    the settling, or when no installed commit can be read. *)
Definition owed (d : duty) (c : call) : answer c → duty :=
  match c with
  | CommitBegin ns => λ admitted : bool,
      match d with
      | Ended _ succeeded => if admitted then Accepted ns succeeded else NoDuty
      | _ => if admitted then Settles ns None else NoDuty
      end
  | TargetTake ns => λ target : option Available,
      match d, target with
      | Accepted _ succeeded, Some t => Settles ns (if succeeded then Some t else None)
      | _, _ => NoDuty
      end
  | TargetUnmoved ns target => λ r,
      match d, r with
      | Settles ns' (Some target'), Ok true =>
        if bool_decide (ns' = ns ∧ target' = target) then Unmoved ns target else d
      | _, _ => d
      end
  | Advance _ _ => λ r, match d with Unmoved ns _ => if is_ok r then NoDuty else Settles ns None | _ => d end
  | CommitDraining => λ draining : bool, if draining then NoDuty else d
  | GetArrow ns => λ r,
      match d with
      | Settles ns' _ =>
        if bool_decide (ns' = ns) then
          match r with
          | Ok (Some row) =>
            if String.eqb (resolved_commit (arrow_resolved row)) "" then NoDuty
            else PutsBack ns (mkAvailable (resolved_ref (arrow_resolved row)) (resolved_commit (arrow_resolved row)))
          | _ => NoDuty
          end
        else d
      | _ => d
      end
  | RefreshToTarget _ _ => λ _, NoDuty
  | _ => λ _, d
  end.

Definition duties : protocol answer duty := mkProtocol may_owing owed.

Definition first_duty (rt : ArrowRuntime) : duty :=
  if is_update_end rt then
    Ended (RuntimeRef rt)
      match LastReturn rt with Some ret => bool_decide (Outcome ret = OutcomeSuccess) | None => false end
  else NoDuty.

(** Where a goroutine begins, and what it then owes *)
Inductive begins (fuel : nat) : place → duty → P unit → Prop :=
| begins_end rt : begins fuel (if is_update_end rt then mkPlace [] (Ending (RuntimeRef rt)) else at_rest)
    (first_duty rt) (OnRuntimeEnded fuel rt)
| begins_at_rest p : goroutine fuel at_rest p → begins fuel at_rest NoDuty p.

(** Nothing but the start of a settling makes a goroutine owe anything. *)
Definition unowing (c : call) : Prop := match c with CommitBegin _ => False | _ => True end.

Lemma unowing_follows {A} (p : P A) : calls_only unowing p → follows duties NoDuty p (λ _ d, d = NoDuty).
Proof.
  induction p as [a|c k IH]; intros Hp; [done|]. destruct Hp as [Hc Hk]. split; [by destruct c|]. intros r.
  replace (moves duties NoDuty c r) with NoDuty; [by apply IH|].
  destruct c; try done; cbn; repeat case_match; done.
Qed.

(** The parts of a program, one by one *)
Ltac unowing_step :=
  match goal with
  | |- calls_only _ (mret _) => exact I
  | |- calls_only _ (ask _) => split; [exact I|intros; exact I]
  | |- calls_only _ (Call _ _) => split; [exact I|intros]
  | |- calls_only _ (mbind _ _) => apply calls_only_bind; [|intros]
  | |- calls_only _ (bind_ok _ _) => apply calls_only_bind_ok; [|intros]
  | |- calls_only _ (deferring _ _) => apply calls_only_deferring
  | |- calls_only _ (ignore _) => unfold ignore
  | |- calls_only _ (match ?x with _ => _ end) => destruct x
  | |- calls_only _ (let _ := _ in _) => cbv zeta
  end.

Ltac unowing := repeat (unowing_step; cbn beta).

Abbreviation unowed p := (calls_only (R:=answer) unowing p).

Lemma beginInstall_unowed d vars : unowed (beginInstall d vars).
Proof. unfold beginInstall, beginInstallHeld. by unowing. Qed.

Lemma ensureDependency_unowed declared : unowed (ensureDependency declared).
Proof. unfold ensureDependency, isCatalogued. by unowing. Qed.

Lemma installOneDep_unowed d : unowed (installOneDep d).
Proof. unfold installOneDep. unowing; try done. apply beginInstall_unowed. Qed.

Lemma startServiceDep_unowed d : unowed (startServiceDep d).
Proof. unfold startServiceDep. by unowing. Qed.

Lemma installDeps_unowed ns : unowed (installDeps ns).
Proof.
  unfold installDeps, installPlan. apply calls_only_bind_ok; [by split|]. intros plan. apply calls_only_bind_ok.
  - generalize (∅ : gmap Namespace Namespace). induction plan as [|e plan IH]; intros ids; cbn [ensurePlan]; [done|].
    apply calls_only_bind_ok; [apply ensureDependency_unowed|intros d; apply IH].
  - intros ids. induction plan as [|e plan IH]; cbn [installEach]; [done|].
    apply calls_only_bind_ok; [apply installOneDep_unowed|intros _]. destruct (entry_type e); [done|].
    by apply calls_only_bind_ok; [apply startServiceDep_unowed|intros _].
Qed.

Lemma ensureAddedDeps_unowed ns added : ∀ ids, unowed (ensureAddedDeps ns added ids).
Proof.
  induction added as [|d added IH]; intros ids; cbn [ensureAddedDeps]; [done|].
  apply calls_only_bind_ok; [apply ensureDependency_unowed|intros i]. by case_bool_decide.
Qed.

Lemma installAdded_unowed ids added : unowed (installAdded ids added).
Proof.
  induction added as [|d added IH]; cbn [installAdded]; [done|].
  by apply calls_only_bind_ok; [apply installOneDep_unowed|intros _].
Qed.

Lemma startAdded_unowed plan ids added : unowed (startAdded plan ids added).
Proof.
  induction added as [|d added IH]; cbn [startAdded]; [done|]. destruct (planned_service _ _); [|done].
  by apply calls_only_bind_ok; [apply startServiceDep_unowed|intros _].
Qed.

Lemma retireAll_unowed removed : unowed (retireAll removed).
Proof.
  induction removed as [|d removed IH]; cbn [retireAll]; [done|].
  apply calls_only_bind; [|by intros _]. unfold retireRemovedDep. by unowing.
Qed.

Lemma SyncTargetDeps_unowed ns current target : unowed (SyncTargetDeps ns current target).
Proof.
  unfold SyncTargetDeps, syncDeps. unowing; try done.
  - apply ensureAddedDeps_unowed.
  - apply installAdded_unowed.
  - apply startAdded_unowed.
  - apply retireAll_unowed.
Qed.

Lemma countRunning_unowed nss : unowed (countRunning nss).
Proof.
  induction nss as [|ns nss IH]; cbn [countRunning]; [done|]. split; [done|]. intros r.
  apply calls_only_bind; [exact IH|]. by intros n.
Qed.

Lemma onStopEnded_unowed rt : unowed (onStopEnded rt).
Proof.
  unfold onStopEnded. split; [done|]. intros [plan|]; [|done]. apply calls_only_bind.
  - induction plan as [|e plan IH]; cbn [stopServices]; [done|]. destruct (entry_type e); [done|].
    apply calls_only_bind; [|by intros _]. unfold stopUnneeded. unowing; try done. all: apply countRunning_unowed.
  - intros _. unfold maybeAutoUninstallStopped. unowing; try done. apply countRunning_unowed.
Qed.

Lemma onUninstallEnded_unowed rt : unowed (onUninstallEnded rt).
Proof.
  unfold onUninstallEnded. split; [done|]. intros [plan|]; [|done].
  induction plan as [|e plan IH]; cbn [removeEach]; [done|]. apply calls_only_bind; [|by intros _].
  unfold removeUnneeded. unowing; try done. all: apply countRunning_unowed.
Qed.

Lemma releaseSettled_unowed fuel ns : unowed (releaseSettled fuel ns).
Proof.
  induction fuel as [|fuel IH]; cbn [releaseSettled]; [by split|]. unfold reconcileBadge, afterSettle. unowing; done.
Qed.

(** *** The settlings *)

Abbreviation settles d p Q := (follows duties d p Q).

Lemma restoreInstalled_settles ns target :
  settles (Settles ns target) (restoreInstalled ns) (λ _ d, d = NoDuty).
Proof.
  unfold restoreInstalled. apply (follows_ask_bind _ _ (GetArrow _)); [done|]. intros r.
  cbn [moves duties owed]. rewrite bool_decide_true by done. destruct r as [[row|]|]; [|done..].
  destruct (String.eqb _ _); [done|]. split; [done|]. by intros r.
Qed.

(** What is left once the writes that close a settling may be made, or may not *)
Lemma afterSettle_settles d : settles d afterSettle (λ ok d', d' = if ok then d else NoDuty).
Proof.
  unfold afterSettle. apply (follows_ask_bind _ _ ContextEnded); [by destruct d|]. intros [|]; [|done].
  apply (follows_ask_bind _ _ CommitDraining); [by destruct d|]. by intros [|].
Qed.

Lemma RestoreAbandoned_settles fuel ns : settles NoDuty (RestoreAbandoned fuel ns) (λ _ d, d = NoDuty).
Proof.
  unfold RestoreAbandoned. apply (follows_ask_bind _ _ (CommitBegin _)); [done|]. intros [|]; [|done].
  apply follows_deferring. eapply follows_mono; [apply restoreInstalled_settles|]. cbn beta. intros [] d ->.
  apply unowing_follows, releaseSettled_unowed.
Qed.

Lemma commitUpdate_settles ns target :
  settles (Settles ns (Some target)) (commitUpdate ns target)
    (λ committed d, if committed then d = NoDuty else ∃ t, d = Settles ns t).
Proof.
  unfold commitUpdate. apply (follows_ask_bind _ _ (TargetUnmoved _ _)); [done|]. intros r.
  cbn [moves duties owed]. rewrite bool_decide_true by done.
  destruct r as [[|]|]; [|by eexists..]. apply (follows_ask_bind _ _ (Advance _ _)); [done|].
  intros [[]|e]; [done|by eexists].
Qed.

Lemma OnUpdateEnded_settles fuel rt :
  is_update_end rt = true → settles (first_duty rt) (OnUpdateEnded fuel rt) (λ _ d, d = NoDuty).
Proof.
  intros Hrt. unfold first_duty. rewrite Hrt. unfold OnUpdateEnded.
  set (succeeded := match LastReturn rt with Some ret => bool_decide (Outcome ret = OutcomeSuccess) | None => false end).
  apply (follows_ask_bind _ _ (CommitBegin _)); [done|]. intros [|]; cbn [moves duties owed].
  2: { apply (follows_ask_bind _ _ (TargetTake _)); [done|]. done. }
  apply (follows_ask_bind _ _ (TargetTake _)); [done|]. intros target. cbn [negb].
  apply follows_deferring. eapply follows_mono with (Q := λ _ d, d = NoDuty).
  2: { intros [] d ->. apply unowing_follows, releaseSettled_unowed. }
  unfold settleUpdate. fold succeeded. destruct target as [target|]; [|done]. cbn [moves duties owed].
  apply follows_bind. eapply follows_mono with (Q := λ (committed : bool) d,
    if committed then d = NoDuty else ∃ t, d = Settles (RuntimeRef rt) t).
  - destruct succeeded; [apply commitUpdate_settles|by eexists].
  - intros [|] d; [by intros ->|]. intros [t ->]. apply follows_bind.
    eapply follows_mono; [apply afterSettle_settles|]. intros [|] d ->; [apply restoreInstalled_settles|done].
Qed.

Lemma executeUpdate_settles fuel ns vars : settles NoDuty (executeUpdate fuel ns vars) (λ _ d, d = NoDuty).
Proof.
  unfold executeUpdate. apply follows_bind_ok. eapply follows_mono; [by apply unowing_follows|]. intros [u|e] d ->; [|done].
  apply follows_deferring. eapply follows_mono with (Q := λ _ d, d = NoDuty); [|by intros r d ->].
  assert (∀ {A B} (q : P (result error A)) (f : A → P (result error B)), unowed q →
    (∀ a, settles NoDuty (f a) (λ _ d, d = NoDuty)) → settles NoDuty (bind_ok q f) (λ _ d, d = NoDuty)) as Hstep.
  { intros A B q f Hq Hf. apply follows_bind_ok. eapply follows_mono; [by apply unowing_follows|]. by intros [a|e] d ->. }
  unfold updateHeld. apply follows_bind. eapply follows_mono; [apply unowing_follows; unfold Settling; by unowing|].
  intros [|] d ->; [done|]. apply Hstep; [by split|]. intros state. destruct (_ && _).
  { by apply Hstep; [split|]. }
  apply Hstep; [by split|]. intros current. apply Hstep; [by split|]. intros [available|]; [|done].
  apply Hstep; [unfold StopIfRunning; by unowing|]. intros _.
  apply follows_bind_ok. eapply follows_mono with (Q := λ _ d, d = NoDuty); [|by intros [|] d ->].
  unfold stageAndBegin. apply follows_bind. eapply follows_mono; [by apply unowing_follows|].
  intros [target|e] d ->.
  - apply follows_bind. eapply follows_mono.
    { apply unowing_follows. unfold beginStaged, updateBegan. unowing; try done. apply SyncTargetDeps_unowed. }
    intros r d ->. destruct (_ || _); [done|]. apply follows_bind. eapply follows_mono; [apply RestoreAbandoned_settles|].
    by intros [] d ->.
  - apply follows_bind. eapply follows_mono; [apply unowing_follows; unfold rejudge; by unowing|]. by intros [] d ->.
Qed.

Lemma settles_ignore {A} (p : P A) : settles NoDuty p (λ _ d, d = NoDuty) → settles NoDuty (ignore p) (λ _ d, d = NoDuty).
Proof. intros Hp. apply follows_bind. eapply follows_mono; [exact Hp|]. by intros a d ->. Qed.

Lemma OnRuntimeEnded_settles fuel rt : settles (first_duty rt) (OnRuntimeEnded fuel rt) (λ _ d, d = NoDuty).
Proof.
  destruct (is_update_end rt) eqn:Hu.
  - pose proof (OnUpdateEnded_settles fuel rt Hu) as Hs. unfold is_update_end in Hu. unfold OnRuntimeEnded.
    destruct (LastReturn rt) as [ret|]; [|done]. apply String.eqb_eq in Hu. rewrite Hu. exact Hs.
  - assert (first_duty rt = NoDuty) as -> by (unfold first_duty; by rewrite Hu). apply unowing_follows.
    unfold OnRuntimeEnded, is_update_end in *. destruct (LastReturn rt) as [ret|]; [|done].
    rewrite Hu. clear Hu. destruct (String.eqb _ _); [apply onStopEnded_unowed|].
    by destruct (String.eqb _ _); [apply onUninstallEnded_unowed|].
Qed.

Lemma begins_settles fuel start d p : begins fuel start d p → settles d p (λ _ d', d' = NoDuty).
Proof.
  intros [rt|q Hq]; [apply OnRuntimeEnded_settles|].
  inversion Hq as [ns vars|ns vars|ns method vars|ns vars|ns|ns|ns|ns| |rt Hrt]; subst q;
    try (apply settles_ignore).
  - apply unowing_follows. unfold Install, advanceToAvailable, beginInstallHeld. unowing; try done; apply installDeps_unowed.
  - apply unowing_follows. unfold Uninstall. by unowing.
  - unfold Execute. apply follows_bind_ok. eapply follows_mono; [by apply unowing_follows|]. intros [ns'|e] d' ->; [|done].
    destruct (String.eqb _ _); [|by apply unowing_follows].
    apply follows_bind_ok. eapply follows_mono; [apply executeUpdate_settles|]. by intros [|] d' ->.
  - unfold Update. apply follows_bind_ok. eapply follows_mono; [by apply unowing_follows|]. intros [ns'|e] d' ->; [|done].
    apply executeUpdate_settles.
  - apply unowing_follows. unfold StopArrow. by unowing.
  - apply unowing_follows. unfold Reset. by unowing.
  - apply unowing_follows. unfold Recheck, installed, advanceCatalogued, advanceHeld, installed. by unowing.
  - apply unowing_follows. unfold HoldBadge, Settling. by unowing.
  - apply unowing_follows. unfold Drain. by unowing.
  - assert (first_duty rt = NoDuty) as Hd by (unfold first_duty; by destruct (is_update_end rt)).
    rewrite <- Hd at 1. apply OnRuntimeEnded_settles.
Qed.


(** An update whose begin is refused while the target's manifest is staged *)
Definition refused_update (c : call) (n : nat) : option (answer c) :=
  match c with
  | ResolveCatalogued ns => Some (Ok ns)
  | GetState _ => Some (Ok ArrowStateReady)
  | GetArrow _ => Some (Ok (Some (mkArrow "x/app@1" no_meta [] [] [] "" None true None SelectorPin
      (mkResolved "1.0" "c1" "") None)))
  | CheckAvailable _ => Some (Ok (Some (mkAvailable "2.0" "c2")))
  | RefreshToTarget _ _ => Some (Ok None)
  | BeginUpdate _ _ _ => Some (Err [ErrStateViolation])
  | TargetPut _ _ => Some (mkUndo 1 None)
  | CommitBegin _ | ReleaseUnheld _ => Some true
  | TargetPending _ | CommitInFlight _ | ContextEnded => Some false
  | DiffDeps _ _ => Some (mkDepDiff [] [] [])
  | ReconcileVersionBadge _ | OpenBracket _ => Some (Ok ())
  | CloseBracket _ | TargetUndo _ _ | ClearHold _ => Some ()
  | _ => None
  end.

