(* ===== verification/LifecycleDeps.v ===== *)
(** * Dependencies, as the lifecycle installs and removes them

    An install brings every dependency in before the arrow itself, one at a time and
    in the order of the plan; nothing is uninstalled while something that was read as
    installed depends on it. *)

From S2P Require Import Prelude Errors GoStrings Domain Steps Manifest Runtime Graph Brackets Prog Lifecycle LifecycleProtocol.

(** ** What a goroutine uninstalls *)

(** A dependent that does not count: absent, or not readable *)
Definition read_absent (r : result error ArrowState) : Prop :=
  match r with
  | Err _ => True
  | Ok s => s = ArrowStateAbsent ∨ s = ArrowStateRemoved ∨ s = no_state
  end.

Abbreviation history := (list (event answer)).

Definition not_user_installed (h : history) (d : Namespace) : Prop :=
  ∃ a, existT (GetArrow d) (Ok (Some a)) ∈ h ∧ UserInstalled a = false.

(** Every dependent of [d] but the row [gone], whose plan is being undone, was read as
    absent. *)
Definition no_dependent_left (h : history) (d : Namespace) : Prop :=
  ∃ gone plan parents, existT (ResolveGraph gone) plan ∈ h ∧
    existT (GetDependents d) (Ok parents) ∈ h ∧
    ∀ p, p ∈ parents → p ≠ gone → ∃ r, existT (GetState p) r ∈ h ∧ read_absent r.

Definition unneeded (h : history) (d : Namespace) : Prop :=
  existT (HasDependents d "") (Ok false) ∈ h ∨ (not_user_installed h d ∧ no_dependent_left h d).

(** The two calls that begin an uninstall *)
Definition uninstalls (c : call) (d : Namespace) : Prop :=
  match c with
  | BeginUninstall d' _ => d' = d
  | BeginExecution d' method _ => d' = d ∧ method = MethodUninstall
  | _ => False
  end.

Definition uninstall_ok (h : history) (c : call) : Prop :=
  match c with
  | BeginUninstall d _ => unneeded h d
  | BeginExecution _ method _ => method ≠ MethodUninstall
  | _ => True
  end.

Definition no_uninstall (c : call) : Prop :=
  match c with
  | BeginUninstall _ _ => False
  | BeginExecution _ method _ => method ≠ MethodUninstall
  | _ => True
  end.

Abbreviation plain p := (calls_only (R:=answer) no_uninstall p).

Lemma calls_ask ok c : ok c → calls_only (R:=answer) ok (ask c). Proof. by split. Qed.
Lemma calls_ask_bind {A} ok c (f : answer c → P A) :
  ok c → (∀ r, calls_only ok (f r)) → calls_only ok (ask c ≫= f).
Proof. by split. Qed.

Ltac no_uninstall := first [exact I|discriminate].

Ltac plain_step :=
  match goal with
  | |- calls_only _ (mret _) => exact I
  | |- calls_only _ (ask _) => apply calls_ask; no_uninstall
  | |- calls_only _ (mbind _ (ask _)) => apply calls_ask_bind; [no_uninstall|intros ?]
  | |- calls_only _ (bind_ok (ask _) _) => apply calls_ask_bind; [no_uninstall|intros [?|?]]
  | |- calls_only _ (match ?x with _ => _ end) => destruct x
  | |- calls_only _ (deferring _ _) => apply calls_only_deferring
  | |- calls_only _ (bind_ok _ _) => apply calls_only_bind_ok; [|intros ?]
  | |- calls_only _ (mbind _ _) => apply calls_only_bind; [|intros ?]
  | |- calls_only _ (ignore _) => unfold ignore
  | |- calls_only _ (let _ := _ in _) => intros ?
  end.

Ltac plainly := repeat (plain_step; try done).

Lemma installOneDep_plain d : plain (installOneDep d).
Proof. unfold installOneDep, beginInstall, beginInstallHeld. plainly. Qed.

Lemma ensureDependency_plain d : plain (ensureDependency d).
Proof. unfold ensureDependency, isCatalogued. plainly. Qed.

Lemma startServiceDep_plain d : plain (startServiceDep d).
Proof. unfold startServiceDep. plainly. Qed.

Lemma installDeps_plain ns : plain (installDeps ns).
Proof.
  unfold installDeps, installPlan. plain_step; [|done].
  apply calls_only_bind_ok.
  - generalize (∅ : gmap Namespace Namespace). induction a as [|e plan IH]; intros ids;
      cbn [ensurePlan]; [done|]. apply calls_only_bind_ok; [apply ensureDependency_plain|intros d; apply IH].
  - intros ids. induction a as [|e plan IH]; cbn [installEach]; [done|].
    apply calls_only_bind_ok; [apply installOneDep_plain|intros _]. destruct (entry_type e); [done|].
    apply calls_only_bind_ok; [apply startServiceDep_plain|by intros _].
Qed.

Lemma Install_plain ns vars : plain (Install ns vars).
Proof.
  unfold Install. plainly; try apply installDeps_plain.
  - unfold advanceToAvailable. plainly.
  - unfold beginInstallHeld. plainly.
Qed.

Lemma releaseSettled_plain fuel ns : plain (releaseSettled fuel ns).
Proof.
  induction fuel as [|fuel IH]; cbn [releaseSettled]; [by split|].
  unfold reconcileBadge, afterSettle. plainly.
Qed.

Lemma OnUpdateEnded_plain fuel rt : plain (OnUpdateEnded fuel rt).
Proof.
  unfold OnUpdateEnded. plainly; [|apply releaseSettled_plain].
  unfold settleUpdate, commitUpdate, afterSettle, restoreInstalled. plainly.
Qed.

(** ** What was read before an uninstall *)

(** [p], run after [h], uninstalls what [h] and its own reads show unneeded. *)
Definition sound {A} (h : history) (p : P A) : Prop :=
  follows (histories uninstall_ok) h p (λ _ h', h `prefix_of` h').

Lemma sound_ret {A} h (a : A) : sound h (mret a : P A).
Proof. by exists []; rewrite app_nil_r. Qed.

Lemma sound_plain {A} h (p : P A) : plain p → sound h p.
Proof. intros Hp. eapply calls_only_follows; [exact Hp|]. by intros h' c; destruct c. Qed.

Lemma sound_mono {A} h h' (p : P A) :
  h' `prefix_of` h → follows (histories uninstall_ok) h p (λ _ h2, h `prefix_of` h2) →
  follows (histories uninstall_ok) h p (λ _ h2, h' `prefix_of` h2).
Proof. intros Hh Hf. eapply follows_mono; [exact Hf|]. intros a h2 H2. by etrans. Qed.

Lemma sound_bind {A B} h (p : P A) (f : A → P B) :
  sound h p → (∀ a h', h `prefix_of` h' → sound h' (f a)) → sound h (p ≫= f).
Proof.
  intros Hp Hf. apply follows_bind. eapply follows_mono; [exact Hp|].
  intros a h' Hh. by apply sound_mono, Hf.
Qed.

Lemma sound_bind_ok {E A B} h (p : P (result E A)) (f : A → P (result E B)) :
  sound h p → (∀ a h', h `prefix_of` h' → sound h' (f a)) → sound h (bind_ok p f).
Proof. intros Hp Hf. apply sound_bind; [done|]. intros [a|e] h' Hh; [by apply Hf|apply sound_ret]. Qed.

Lemma sound_deferring {A} h (p : P A) (q : P unit) :
  sound h p → plain q → sound h (deferring p q).
Proof.
  intros Hp Hq. apply sound_bind; [done|]. intros a h' _. apply sound_bind; [by apply sound_plain|].
  intros _ h2 _. apply sound_ret.
Qed.

Lemma sound_ask_bind {A} h c (f : answer c → P A) :
  uninstall_ok h c → (∀ r, sound (h ++ [existT c r]) (f r)) → sound h (ask c ≫= f).
Proof.
  intros Hc Hf. apply follows_ask_bind; [done|]. intros r.
  apply sound_mono; [by eexists|apply Hf].
Qed.

Lemma sound_ask h c : uninstall_ok h c → sound h (ask c).
Proof. intros Hc. split; [done|]. intros r. by eexists. Qed.

Lemma sound_ignore {A} h (p : P A) : sound h p → sound h (ignore p).
Proof. intros Hp. apply sound_bind; [done|]. intros a h' _. apply sound_ret. Qed.

Ltac sound_step :=
  match goal with
  | |- sound _ (mret _) => apply sound_ret
  | |- sound _ (mbind _ (ask _)) => apply sound_ask_bind; [exact I|intros ?]
  | |- sound _ (bind_ok (ask _) _) => apply sound_ask_bind; [exact I|intros [?|?]]
  | |- sound _ (match ?x with _ => _ end) => destruct x eqn:?
  | |- sound _ (ignore _) => apply sound_ignore
  end.

(** A count of zero: every row was read as absent. *)
Lemma countRunning_reads h nss :
  follows (histories uninstall_ok) h (countRunning nss) (λ n h', h `prefix_of` h' ∧
    (n = 0 → ∀ p, p ∈ nss → ∃ r, existT (GetState p) r ∈ h' ∧ read_absent r)).
Proof.
  revert h. induction nss as [|ns nss IH]; intros h; cbn [countRunning].
  - split; [reflexivity|]. intros _ p Hp. by apply not_elem_of_nil in Hp.
  - apply follows_ask_bind; [exact I|]. intros r. apply follows_bind.
    eapply follows_mono; [apply IH|]. intros n h' [Hpre Hn]. apply follows_ret.
    split; [etrans; [by eexists|exact Hpre]|].
    set (s := match r with Ok s => s | Err _ => no_state end).
    intros H0 p Hp. apply elem_of_cons in Hp as [->|Hp].
    + exists r. split.
      * eapply elem_of_prefix; [|exact Hpre]. apply elem_of_app. right. by apply list_elem_of_singleton.
      * subst s. destruct r as [s|e]; [|exact I]. revert H0. cbn beta iota. unfold is_no_state.
        repeat case_bool_decide; simpl; intros; try lia; unfold read_absent; tauto.
    + apply Hn; [|done]. by destruct (_ || _).
Qed.

Lemma unneeded_after {h h' d} : unneeded h d → h `prefix_of` h' → unneeded h' d.
Proof.
  intros [H|[(a & Ha & Hu) (g & plan & ps & Hg & Hps & Hall)]] Hpre.
  - left. by eapply elem_of_prefix.
  - right. split; [exists a; split; [by eapply elem_of_prefix|done]|].
    exists g, plan, ps. split_and!; [by eapply elem_of_prefix..|].
    intros p Hp Hne. destruct (Hall p Hp Hne) as (r & Hr & Habs).
    exists r. split; [by eapply elem_of_prefix|done].
Qed.

(** Membership of an event in a history that ends with appended events *)
Ltac in_history :=
  repeat first
    [ apply elem_of_app; right; apply list_elem_of_singleton; reflexivity
    | apply elem_of_app; left | eassumption ].

Lemma Uninstall_sound h ns vars : sound h (Uninstall ns vars).
Proof.
  unfold Uninstall. repeat sound_step. apply sound_ask. left. subst. in_history.
Qed.

Lemma retireRemovedDep_sound h d : sound h (retireRemovedDep d).
Proof.
  unfold retireRemovedDep. repeat sound_step; apply sound_ask; try exact I; left; subst; in_history.
Qed.

Lemma countRunning_plain nss : plain (countRunning nss).
Proof. induction nss as [|ns nss IH]; cbn [countRunning]; plainly. Qed.

Lemma stopServices_plain ns plan : plain (stopServices ns plan).
Proof.
  induction plan as [|e plan IH]; cbn [stopServices]; [done|].
  destruct (entry_type e); [done|]. apply calls_only_bind; [|by intros _].
  unfold stopUnneeded. plainly; apply countRunning_plain.
Qed.

(** The dependents of [d] but [gone] have been counted to zero. *)
Lemma unneeded_counted {h h' : history} {gone plan d parents arrow} (nss : list Namespace) :
  existT (ResolveGraph gone) plan ∈ h → existT (GetDependents d) (Ok parents) ∈ h →
  h `prefix_of` h' →
  (∀ p, p ∈ nss → ∃ r, existT (GetState p) r ∈ h' ∧ read_absent r) →
  (∀ p, p ∈ parents → p ≠ gone → p ∈ nss) →
  existT (GetArrow d) (Ok (Some arrow)) ∈ h' → UserInstalled arrow = false →
  unneeded h' d.
Proof.
  intros Hg Hps Hpre Hcount Hsub Ha Hu. right. split; [by exists arrow|].
  exists gone, plan, parents. split_and!; [by eapply elem_of_prefix..|].
  intros p Hp Hpg. by apply Hcount, Hsub.
Qed.

(** What follows a count, when it is not zero and when it is *)
Lemma sound_counted {A} h nss (f : nat → P A) :
  (∀ n, plain (f (S n))) →
  (∀ h', h `prefix_of` h' →
     (∀ p, p ∈ nss → ∃ r, existT (GetState p) r ∈ h' ∧ read_absent r) → sound h' (f 0)) →
  sound h (countRunning nss ≫= f).
Proof.
  intros HS H0. apply follows_bind. eapply follows_mono; [apply countRunning_reads|].
  intros [|n] h' [Hpre Hcount]; (apply sound_mono; [done|]); [by apply H0, Hcount|].
  apply sound_plain, HS.
Qed.

Lemma maybeAutoUninstallStopped_sound h ns plan :
  existT (ResolveGraph ns) plan ∈ h → sound h (maybeAutoUninstallStopped ns).
Proof.
  intros Hg. unfold maybeAutoUninstallStopped. repeat (sound_step; simplify_eq).
  apply sound_counted; [done|]. intros h' Hpre Hcount. apply sound_ignore, sound_ask.
  eapply unneeded_counted; [| |exact Hpre|exact Hcount|by intros p Hp _| |eassumption];
    [in_history..|].
  eapply elem_of_prefix; [|exact Hpre]. in_history.
Qed.

Lemma removeUnneeded_sound h gone plan d :
  existT (ResolveGraph gone) plan ∈ h → sound h (removeUnneeded gone d).
Proof.
  intros Hg. unfold removeUnneeded.
  sound_step. destruct r as [depNs|]; [|apply sound_ret].
  sound_step. destruct r as [state|]; [|apply sound_ret].
  destruct (_ || _); [apply sound_ret|].
  sound_step. destruct r as [parents|]; [|apply sound_ret].
  apply sound_counted; [done|]. intros h' Hpre Hcount. cbn [Nat.ltb Nat.leb].
  sound_step. destruct r as [[arrow|]|]; [|apply sound_ret..].
  destruct (UserInstalled arrow) eqn:Hu; [apply sound_ret|].
  assert (unneeded (h' ++ [existT (GetArrow depNs) (Ok (Some arrow))]) depNs) as Hun.
  { eapply (unneeded_counted (others gone parents)); [| |by apply prefix_app_r| | |in_history|done];
      [in_history..| |].
    - intros p Hp. destruct (Hcount p Hp) as (r & Hr & Habs).
      exists r. split; [in_history|done].
    - intros p Hp Hpg. by apply list_elem_of_filter. }
  destruct state; try apply sound_ret; apply sound_ignore, sound_ask; try exact I; exact Hun.
Qed.

Lemma onStopEnded_sound h rt : sound h (onStopEnded rt).
Proof.
  unfold onStopEnded. sound_step. destruct r as [plan|]; [|apply sound_ret].
  apply sound_bind; [apply sound_plain, stopServices_plain|]. intros _ h' Hpre.
  eapply maybeAutoUninstallStopped_sound, elem_of_prefix; [|exact Hpre]. in_history.
Qed.

Lemma onUninstallEnded_sound h rt : sound h (onUninstallEnded rt).
Proof.
  unfold onUninstallEnded. sound_step. destruct r as [plan|]; [|apply sound_ret].
  assert (∃ q, existT (ResolveGraph (RuntimeRef rt)) q ∈
    h ++ [existT (ResolveGraph (RuntimeRef rt)) (Ok plan)]) as [q Hq] by (eexists; in_history).
  revert Hq. generalize (h ++ [existT (ResolveGraph (RuntimeRef rt)) (Ok plan)]).
  induction plan as [|e plan IH]; intros h' Hq; cbn [removeEach]; [apply sound_ret|].
  apply sound_bind; [by eapply removeUnneeded_sound|]. intros _ h2 Hpre.
  apply IH. by eapply elem_of_prefix.
Qed.

(** *** Every entry point *)

Lemma retireAll_sound h removed : sound h (retireAll removed).
Proof.
  revert h. induction removed as [|d removed IH]; intros h; cbn [retireAll]; [apply sound_ret|].
  apply sound_bind; [apply retireRemovedDep_sound|]. intros _ h' _. apply IH.
Qed.

Lemma ensureAddedDeps_plain ns added ids : plain (ensureAddedDeps ns added ids).
Proof.
  revert ids. induction added as [|d added IH]; intros ids; cbn [ensureAddedDeps]; [done|].
  apply calls_only_bind_ok; [apply ensureDependency_plain|]. intros d'. by case_bool_decide.
Qed.

Lemma installAdded_plain ids added : plain (installAdded ids added).
Proof.
  induction added as [|d added IH]; cbn [installAdded]; [done|].
  by apply calls_only_bind_ok; [apply installOneDep_plain|].
Qed.

Lemma startAdded_plain plan ids added : plain (startAdded plan ids added).
Proof.
  induction added as [|d added IH]; cbn [startAdded]; [done|]. case_match; [|done].
  by apply calls_only_bind_ok; [apply startServiceDep_plain|].
Qed.

Lemma syncDeps_sound h ns : sound h (syncDeps ns).
Proof.
  unfold syncDeps. sound_step; [|apply sound_ret]. destruct a as [rt|]; [|apply sound_ret].
  destruct (negb _); [apply sound_ret|]. destruct (PendingDepSync rt) as [info|]; [|apply sound_ret].
  apply sound_bind_ok; [apply sound_plain, ensureAddedDeps_plain|]. intros ids h' _.
  sound_step. set (cyclic := match r with Ok _ => None | Err _ => _ end).
  destruct cyclic; [apply sound_ret|].
  apply sound_bind_ok; [apply sound_plain, installAdded_plain|]. intros _ h2 _.
  apply sound_bind_ok; [destruct r; apply sound_plain; [apply startAdded_plain|done]|].
  intros _ h3 _. apply sound_bind; [apply retireAll_sound|]. intros _ h4 _. apply sound_ret.
Qed.

Lemma SyncTargetDeps_sound h ns current target : sound h (SyncTargetDeps ns current target).
Proof.
  unfold SyncTargetDeps. sound_step.
  apply sound_bind_ok; [apply sound_plain; destruct (_ || _); plainly|]. intros _ h' _.
  sound_step; [|apply sound_ret]. destruct (negb _); [apply sound_ret|apply syncDeps_sound].
Qed.

Lemma RestoreAbandoned_plain fuel ns : plain (RestoreAbandoned fuel ns).
Proof.
  unfold RestoreAbandoned, restoreInstalled. plainly. apply releaseSettled_plain.
Qed.

Lemma stageAndBegin_sound fuel h ns current available vars :
  sound h (stageAndBegin fuel ns current available vars).
Proof.
  unfold stageAndBegin. sound_step. destruct r as [target|e].
  - apply sound_bind.
    + unfold beginStaged. apply sound_bind; [apply SyncTargetDeps_sound|].
      intros [[]|e] h' _; [|apply sound_ret]. apply sound_plain. unfold updateBegan. plainly.
    + intros [r b] h' _. apply sound_plain. destruct r; destruct b; plainly;
        apply RestoreAbandoned_plain.
  - apply sound_plain. unfold rejudge. plainly.
Qed.

Lemma executeUpdate_sound fuel h ns vars : sound h (executeUpdate fuel ns vars).
Proof.
  unfold executeUpdate. sound_step; [|apply sound_ret]. apply sound_deferring; [|plainly].
  unfold updateHeld. apply sound_bind; [apply sound_plain; unfold Settling; plainly|].
  intros [] h' _; [apply sound_ret|]. sound_step; [|apply sound_ret].
  destruct (_ && _); [apply sound_plain; plainly|].
  sound_step; [|apply sound_ret]. sound_step; [|apply sound_ret].
  destruct a2 as [available|]; [|apply sound_ret].
  apply sound_bind_ok; [apply sound_plain; unfold StopIfRunning; plainly|]. intros _ h2 _.
  apply sound_bind_ok; [apply stageAndBegin_sound|]. intros _ h3 _. apply sound_ret.
Qed.

Lemma OnRuntimeEnded_sound fuel h rt : sound h (OnRuntimeEnded fuel rt).
Proof.
  unfold OnRuntimeEnded. destruct (LastReturn rt) as [ret|]; [|apply sound_ret].
  destruct (String.eqb _ _); [apply onStopEnded_sound|].
  destruct (String.eqb _ _); [apply onUninstallEnded_sound|].
  destruct (String.eqb _ _); [apply sound_plain, OnUpdateEnded_plain|apply sound_ret].
Qed.

Lemma Execute_sound fuel h ns method vars : method ≠ MethodUninstall → sound h (Execute fuel ns method vars).
Proof.
  intros Hm. unfold Execute. sound_step; [|apply sound_ret]. destruct (String.eqb _ _); [|by apply sound_ask].
  apply sound_bind_ok; [apply executeUpdate_sound|]. intros b h' _. apply sound_ret.
Qed.

(** Every goroutine but the one that a client begins to execute [_uninstall] *)
Lemma goroutine_sound fuel start p h :
  goroutine fuel start p → (∃ ns vars, p = ignore (Execute fuel ns MethodUninstall vars)) ∨ sound h p.
Proof.
  intros [ns vars|ns vars|ns method vars|ns vars|ns|ns|ns|ns| |rt];
    [right; apply sound_ignore|right; apply sound_ignore| |right; apply sound_ignore..|right; apply OnRuntimeEnded_sound].
  - apply sound_plain, Install_plain.
  - apply Uninstall_sound.
  - destruct (decide (method = MethodUninstall)) as [->|Hm]; [by left; eexists _, _|].
    right. by apply sound_ignore, Execute_sound.
  - unfold Update. sound_step; [apply executeUpdate_sound|apply sound_ret].
  - apply sound_plain. unfold StopArrow. plainly.
  - apply sound_plain. unfold Reset. plainly.
  - apply sound_plain. unfold Recheck, installed, advanceCatalogued, advanceHeld, installed. plainly.
  - apply sound_plain. unfold HoldBadge, Settling. plainly.
  - apply sound_plain. unfold Drain. plainly.
Qed.

(** What executing [_uninstall] calls: nothing is asked of the dependents. *)
Lemma execute_uninstall_calls fuel ns vars l a :
  trace (ignore (Execute fuel ns MethodUninstall vars)) l a →
  (∃ e, l = [existT (ResolveCatalogued ns) (Err e)]) ∨
  ∃ d r, l = [existT (ResolveCatalogued ns) (Ok d); existT (BeginExecution d MethodUninstall vars) r].
Proof.
  intros ([d|e] & l' & -> & Ht).
  - destruct Ht as (r & l2 & -> & Ht). right. exists d, r. by destruct Ht as [-> _].
  - left. exists e. by destruct Ht as [-> _].
Qed.

(** C8. Nothing is uninstalled from under what needs it, but by the one call that does not
    look.  Whatever the answers, when a verb or a reaction of the lifecycle begins the
    uninstall of a row, by the command of an uninstall or by an execution of the method
    [_uninstall], it has read before that no arrow depends on the row, or else, in the cascade
    of a stop or of an uninstall, that the user did not install the row and that every arrow
    depending on it, apart from the one that is gone, is in a state that counts as absent (or
    that could not be read).  The exception is a client that executes [_uninstall] by name:
    the row it named is then uninstalled with no such read. *)
Theorem uninstalls_only_unneeded fuel start p l a :
  goroutine fuel start p → trace p l a →
  ∀ l1 c r l2 d, l = l1 ++ existT c r :: l2 → uninstalls c d →
  unneeded l1 d ∨
  ∃ ns vars, p = ignore (Execute fuel ns MethodUninstall vars) ∧ c = BeginExecution d MethodUninstall vars ∧
    l1 = [existT (ResolveCatalogued ns) (Ok d)].
Proof.
  intros Hp Ht l1 c r l2 d Hl Hc. destruct (goroutine_sound _ _ _ [] Hp) as [(ns & vars & ->)|Hs].
  - right. exists ns, vars. apply execute_uninstall_calls in Ht as [(e & Ht)|(d' & r' & Ht)]; rewrite Ht in Hl.
    + by destruct l1 as [|x [|]]; simplify_eq/=.
    + destruct l1 as [|x [|y [|]]]; simplify_eq/=; [done|]. by destruct Hc as [-> _].
  - left. destruct (follows_trace _ _ _ _ _ _ Hs Ht) as [Hacc _].
    rewrite accepts_histories in Hacc. specialize (Hacc _ _ _ _ Hl).
    destruct c; cbn in Hc, Hacc; try done; [|by subst]. by destruct Hc as [_ ->].
Qed.

(** The library of an application that is gone, once also needed by a row that was
    never installed *)
Definition library_unneeded (c : call) (n : nat) : option (answer c) :=
  match c with
  | ResolveGraph _ => Some (Ok [mkPlanEntry "x/lib@1" ToolDep])
  | ResolveCatalogued ns => Some (Ok ns)
  | GetState ns => Some (Ok (if String.eqb ns "x/lib@1" then ArrowStateReady else ArrowStateAbsent))
  | GetDependents _ => Some (Ok ["x/app@1"; "x/other@1"])
  | GetArrow _ => Some (Ok (Some (mkArrow "x/app@1" no_meta [] [] [] "" None false None SelectorPin
      (mkResolved "1.0" "c1" "") None)))
  | BeginUninstall _ _ => Some (Ok ())
  | _ => None
  end.

Definition uninstall_end : ArrowRuntime :=
  mkRuntime "x/app@1" ArrowStateRemoved None
    (Some (mkReturn "r1" MethodUninstall OutcomeSuccess [] ∅)) None.

Lemma uninstalls_only_unneeded_witness :
  match run library_unneeded 0 (OnRuntimeEnded 1 uninstall_end) with
  | Some (l, _) => ∃ l1, l = l1 ++ [existT (BeginUninstall "x/lib@1" ∅) (Ok ())] ∧
      unneeded l1 "x/lib@1"
  | None => False
  end.
Proof.
  destruct (run _ _ _) as [[l a]|] eqn:H; [|vm_compute in H; discriminate].
  assert (∃ l1, l = l1 ++ [existT (BeginUninstall "x/lib@1" ∅) (Ok ())]) as [l1 Hl].
  { vm_compute in H. injection H as <- <-.
    match goal with |- ∃ _, [?a; ?b; ?c; ?d; ?e; ?f; _] = _ => exists [a; b; c; d; e; f] end. reflexivity. }
  exists l1. split; [exact Hl|].
  destruct (uninstalls_only_unneeded 1 at_rest (OnRuntimeEnded 1 uninstall_end) l a (go_ended 1 uninstall_end)
    (trace_run _ _ _ _ _ H) l1 (BeginUninstall "x/lib@1" ∅) (Ok ()) [] "x/lib@1" Hl eq_refl)
    as [Hun|(ns & vars & _ & Hc & _)]; [exact Hun|discriminate Hc].
Defined.

(** ** What comes before an install *)

(** The row a declaration installs: its own when catalogued, or the one it was just
    added as *)
Definition catalogued_as (h : history) (declared identity : Namespace) : Prop :=
  (identity = declared ∧ Ref declared ≠ "" ∧ existT (Exists declared) (Ok true) ∈ h) ∨
  existT (AddDependency declared) (Ok identity) ∈ h.

(** The dependency needs nothing more: it was read installed, its install was seen to
    end well, or the runtime refused to say more than that its state forbids one. *)
Definition dep_ready (h : history) (d : Namespace) : Prop :=
  (∃ s, existT (GetState d) (Ok s) ∈ h ∧ needsInstall s = false) ∨
  (∃ rt, existT (WaitEnded d) (Ok rt) ∈ h ∧ installEnded rt = Ok ()) ∨
  (∃ e, errors_Is e ErrStateViolation = true ∧
     (existT (GetState d) (Err e) ∈ h ∨ existT (OpenBracket d) (Err e) ∈ h)).

(** The plan of [ns], each entry catalogued as the row of [ids] beside it *)
Definition planned (h : history) (ns : Namespace) (root : Namespace) (ids : list Namespace) : Prop :=
  existT (ResolveCatalogued ns) (Ok root) ∈ h ∧
  ∃ plan, existT (ResolveGraph root) (Ok plan) ∈ h ∧
    Forall2 (catalogued_as h) (map entry_namespace plan) ids.

(** Whose turn it is: a dependency after the ones before it in the plan, without
    variables, and the arrow itself after them all *)
Definition turn_of (h : history) (ns : Namespace) (vars : gmap string string)
  (d : Namespace) (v : gmap string string) : Prop :=
  ∃ root ids, planned h ns root ids ∧
    ((d = root ∧ v = vars ∧ Forall (dep_ready h) ids) ∨
     (v = ∅ ∧ ∃ n, ids !! n = Some d ∧ Forall (dep_ready h) (take n ids))).

Definition install_ok (ns : Namespace) (vars : gmap string string) (h : history) (c : call) : Prop :=
  match c with BeginInstall d v => turn_of h ns vars d v | _ => True end.

Section install_order.
Context (ns : Namespace) (vars : gmap string string).

Abbreviation goes h p Q := (follows (histories (install_ok ns vars)) h p Q).

Lemma catalogued_after {h h' d i} : h `prefix_of` h' → catalogued_as h d i → catalogued_as h' d i.
Proof.
  intros Hp [(-> & Hr & Hx)|Hx]; [left|right]; [split_and!; try done|]; by eapply elem_of_prefix.
Qed.

Lemma ready_after {h h' d} : h `prefix_of` h' → dep_ready h d → dep_ready h' d.
Proof.
  intros Hp [(s & Hs & Hn)|[(rt & Hw & Hr)|(e & He & Hor)]].
  - left. exists s. split; [by eapply elem_of_prefix|done].
  - right. left. exists rt. split; [by eapply elem_of_prefix|done].
  - right. right. exists e. split; [done|]. destruct Hor; [left|right]; by eapply elem_of_prefix.
Qed.

Lemma planned_after {h h' root ids} :
  h `prefix_of` h' → planned h ns root ids → planned h' ns root ids.
Proof.
  intros Hp (Hr & plan & Hg & Hids). split; [by eapply elem_of_prefix|].
  exists plan. split; [by eapply elem_of_prefix|].
  eapply Forall2_impl; [exact Hids|]. intros d i. by apply catalogued_after.
Qed.

(** One call, then the rest from a longer history *)
Lemma goes_ask {A} h c (f : answer c → P A) (Q : A → history → Prop) :
  install_ok ns vars h c →
  (∀ r h', h `prefix_of` h' → existT c r ∈ h' → goes h' (f r) Q) →
  goes h (ask c ≫= f) Q.
Proof.
  intros Hc Hf. apply follows_ask_bind; [done|]. intros r.
  apply Hf; [by eexists|]. in_history.
Qed.

Lemma ensureDependency_goes h d (Q : result error Namespace → history → Prop) :
  (∀ r h', h `prefix_of` h' → (∀ i, r = Ok i → catalogued_as h' d i) → Q r h') →
  goes h (ensureDependency d) Q.
Proof.
  intros HQ. unfold ensureDependency, isCatalogued.
  destruct (String.eqb_spec (Ref d) "") as [Hr|Hr]; cbn.
  - split; [exact I|]. intros r. apply HQ; [by eexists|]. intros i ->. right. in_history.
  - apply goes_ask; [exact I|]. intros [[]|e] h' Hp Hx.
    + apply HQ; [done|]. intros i [= <-]. by left.
    + split; [exact I|]. intros r. apply HQ; [etrans; [exact Hp|by eexists]|].
      intros i ->. right. in_history.
    + apply HQ; [done|]. by intros i.
Qed.

Lemma ensurePlan_goes h plan ids (Q : result error (gmap Namespace Namespace) → history → Prop) :
  (∀ d i, ids !! d = Some i → catalogued_as h d i) →
  (∀ r h', h `prefix_of` h' →
     (∀ ids', r = Ok ids' → (∀ d, is_Some (ids !! d) ∨ d ∈ map entry_namespace plan →
        catalogued_as h' d (identity_of ids' d))) → Q r h') →
  goes h (ensurePlan plan ids) Q.
Proof.
  revert h ids. induction plan as [|e plan IH]; intros h ids Hids HQ; cbn [ensurePlan].
  - apply HQ; [done|]. intros ids' [= <-] d [[i Hi]|Hd]; [|by apply elem_of_nil in Hd].
    unfold identity_of. rewrite Hi. by apply Hids.
  - apply follows_bind, ensureDependency_goes. intros [i|err] h' Hp Hi.
    + apply IH.
      * intros d j. rewrite lookup_insert_Some. intros [[<- <-]|[_ Hd]]; [by apply Hi|].
        by eapply catalogued_after, Hids.
      * intros r h2 Hp2 Hr. apply HQ; [by etrans|]. intros ids' ->. intros d Hd.
        apply Hr; [done|]. destruct (decide (entry_namespace e = d)) as [->|Hne].
        { left. rewrite lookup_insert_eq. by eexists. }
        destruct Hd as [Hd|Hd]; [left; by rewrite lookup_insert_ne|right].
        simpl in Hd. apply elem_of_cons in Hd as [->|]; done.
    + apply HQ; [done|]. by intros ids'.
Qed.

Lemma not_tried_ready h d e :
  existT (GetState d) (Err e) ∈ h ∨ existT (OpenBracket d) (Err e) ∈ h →
  unlessViolation (Err e) = Ok () → dep_ready h d.
Proof.
  intros Hor. unfold unlessViolation. destruct (errors_Is e ErrStateViolation) eqn:He; [|done].
  intros _. right. right. by exists e.
Qed.

(** Whether an install was tried, and what the answer leaves known when it was not *)
Definition tried_or_ready (d : Namespace) (r : bool * result error unit) (h : history) : Prop :=
  r.1 = false → unlessViolation r.2 = Ok () → dep_ready h d.

Lemma tried_after {h h' d r} : h `prefix_of` h' → tried_or_ready d r h → tried_or_ready d r h'.
Proof. intros Hp H H1 H2. by eapply ready_after, H. Qed.

Lemma beginInstallHeld_ordered h d v (Q : bool * result error unit → history → Prop) :
  (∀ h', h `prefix_of` h' → turn_of h' ns vars d v) →
  (∀ r h', h `prefix_of` h' → tried_or_ready d r h' →
     (r = (true, Ok ()) → existT (BeginInstall d v) (Ok ()) ∈ h') → Q r h') →
  goes h (beginInstallHeld d v) Q.
Proof.
  intros Hturn HQ. unfold beginInstallHeld. apply goes_ask; [exact I|].
  intros [s|e] h' Hp Hx; cbn beta iota.
  - destruct (needsInstall s) eqn:Hn; cbn [negb].
    + apply goes_ask; [by apply Hturn|]. intros r h2 Hp2 Hx2.
      apply HQ; [by etrans|by intros|]. by intros [= ->].
    + apply HQ; [done| |done]. intros _ _. left. by exists s.
  - apply HQ; [done| |done]. intros _. by apply not_tried_ready; left.
Qed.

Lemma installOneDep_goes h d (Q : result error unit → history → Prop) :
  (∀ h', h `prefix_of` h' → turn_of h' ns vars d ∅) →
  (∀ r h', h `prefix_of` h' → (r = Ok () → dep_ready h' d) → Q r h') →
  goes h (installOneDep d) Q.
Proof.
  intros Hturn HQ. unfold installOneDep. apply goes_ask; [exact I|].
  intros [[]|e] h1 Hp1 _; [|by apply HQ]. apply follows_deferring, follows_bind.
  assert (∀ r h', h1 `prefix_of` h' → tried_or_ready d r h' →
    goes h' (match unlessViolation r.2 with
      | Err e => mret (Err e)
      | Ok _ => if negb r.1 then mret (Ok ())
                else rt ←? ask (WaitEnded d); mret (installEnded rt)
      end : P (result error unit)) (λ r h', goes h' (ask (Unsubscribe d)) (λ _, Q r))) as Hrest.
  { assert (∀ r h', h1 `prefix_of` h' → (r = Ok () → dep_ready h' d) →
      goes h' (ask (Unsubscribe d)) (λ _, Q r)) as Hend.
    { intros r h' Hp Hr. split; [exact I|]. intros x. apply HQ.
      - etrans; [exact Hp1|]. etrans; [exact Hp|]. by eexists.
      - intros Heq. eapply ready_after; [by eexists|auto]. }
    intros [b r] h' Hp Hr. unfold tried_or_ready in Hr. cbn [fst snd] in *.
    destruct (unlessViolation r) as [[]|e] eqn:Hu; [|by apply Hend].
    destruct b; cbn [negb]; [|apply Hend; [done|]; intros _; by apply Hr].
    apply goes_ask; [exact I|]. intros [rt|e] h2 Hp2 Hx; (apply Hend; [by etrans|]); [|done].
    intros Hok. right. left. by exists rt. }
  unfold beginInstall. apply goes_ask; [exact I|]. intros [s|e] h2 Hp2 Hx; cbn beta iota.
  - destruct (needsInstall s) eqn:Hn; cbn [negb].
    + apply goes_ask; [exact I|]. intros [[]|e] h3 Hp3 Hx3.
      * apply follows_deferring. apply beginInstallHeld_ordered.
        { intros h' Hp'. apply Hturn. etrans; [exact Hp1|]. etrans; [exact Hp2|]. by etrans. }
        intros r h4 Hp4 Hr _. split; [exact I|]. intros x. apply Hrest.
        -- etrans; [exact Hp2|]. etrans; [exact Hp3|]. etrans; [exact Hp4|]. by eexists.
        -- eapply tried_after; [by eexists|done].
      * apply Hrest; [by etrans|]. intros _. by apply not_tried_ready; right.
    + apply Hrest; [done|]. intros _ _. left. by exists s.
  - apply Hrest; [done|]. intros _. by apply not_tried_ready; left.
Qed.

Lemma plain_goes {A} h (p : P A) (Q : A → history → Prop) :
  calls_only (R:=answer) (λ c, match c with BeginInstall _ _ => False | _ => True end) p →
  (∀ r h', h `prefix_of` h' → Q r h') → goes h p Q.
Proof.
  intros Hp HQ. eapply follows_mono; [eapply calls_only_follows; [exact Hp|]; by intros h' []|].
  intros r h' Hh. by apply HQ.
Qed.

(** The dependencies [done_] are ready, those of [plan] are next. *)
Lemma installEach_goes h root ids plan done_ (Q : result error unit → history → Prop) :
  planned h ns root (done_ ++ map (identity_of ids) (map entry_namespace plan)) →
  Forall (dep_ready h) done_ →
  (∀ r h', h `prefix_of` h' →
     (r = Ok () → Forall (dep_ready h') (done_ ++ map (identity_of ids) (map entry_namespace plan))) →
     Q r h') →
  goes h (installEach ids plan) Q.
Proof.
  revert h done_. induction plan as [|e plan IH]; intros h done_ Hpl Hdone HQ; cbn [installEach].
  - apply HQ; [done|]. intros _. by rewrite app_nil_r.
  - cbn zeta. set (d := identity_of ids (entry_namespace e)) in *.
    apply follows_bind, installOneDep_goes.
    { intros h' Hp. exists root, (done_ ++ map (identity_of ids) (map entry_namespace (e :: plan))).
      split; [by eapply planned_after|]. right. split; [done|]. exists (length done_).
      cbn [map]. rewrite list_lookup_middle by done. split; [done|].
      rewrite take_app_length. eapply Forall_impl; [exact Hdone|]. intros x. by apply ready_after. }
    intros [[]|err] h1 Hp1 Hr; [|by apply HQ].
    assert (∀ h', h1 `prefix_of` h' → goes h' (installEach ids plan) Q) as Hnext.
    { intros h' Hp'. assert (h `prefix_of` h') as Hhh by (by etrans).
      apply (IH _ (done_ ++ [d])).
      - rewrite <- app_assoc. by eapply planned_after.
      - apply Forall_app. split.
        + eapply Forall_impl; [exact Hdone|]. intros x. by apply ready_after.
        + apply Forall_singleton. by eapply ready_after, Hr.
      - intros r h2 Hp2 Hall. apply HQ; [by etrans|]. intros Hok. specialize (Hall Hok).
        by rewrite <- app_assoc in Hall. }
    destruct (entry_type e); [by apply Hnext|].
    apply follows_bind, plain_goes.
    + unfold startServiceDep. plainly.
    + intros [[]|err] h2 Hp2; [by apply Hnext|]. apply HQ; [by etrans|done].
Qed.

Lemma installDeps_goes h root (Q : result error unit → history → Prop) :
  existT (ResolveCatalogued ns) (Ok root) ∈ h →
  (∀ r h', h `prefix_of` h' →
     (r = Ok () → ∃ ids, planned h' ns root ids ∧ Forall (dep_ready h') ids) → Q r h') →
  goes h (installDeps root) Q.
Proof.
  intros Hroot HQ. unfold installDeps, installPlan. apply goes_ask; [exact I|].
  intros [plan|e] h1 Hp1 Hx1; [|by apply HQ].
  apply follows_bind, ensurePlan_goes; [by intros d i; rewrite lookup_empty|].
  intros [ids|e] h2 Hp2 Hids; [|apply HQ; [by etrans|done]].
  assert (planned h2 ns root (map (identity_of ids) (map entry_namespace plan))) as Hpl.
  { split; [eapply elem_of_prefix; [exact Hroot|by etrans]|].
    exists plan. split; [by eapply elem_of_prefix|].
    apply Forall2_fmap_r, Forall_Forall2_diag, list.Forall_forall.
    intros d Hd. apply Hids; [done|by right]. }
  apply (installEach_goes h2 root ids plan []); [exact Hpl|constructor|].
  intros r h3 Hp3 Hr. apply HQ; [etrans; [exact Hp1|by etrans]|]. intros Hok.
  eexists. split; [by eapply planned_after|by apply Hr].
Qed.

(** What an install that says whether it began leaves known *)
Definition installed_after (began : bool) (h : history) : Prop :=
  ∃ root ids, planned h ns root ids ∧ Forall (dep_ready h) ids ∧
    (began = true → existT (BeginInstall root vars) (Ok ()) ∈ h).

Lemma Install_ordered :
  goes [] (Install ns vars) (λ r h, ∀ began, r = Ok began → installed_after began h).
Proof.
  unfold Install. apply goes_ask; [exact I|]. intros [root|e] h1 _ Hroot; [|done].
  apply goes_ask; [exact I|]. intros [[]|e] h2 Hp2 _; [|done..]. cbn [negb].
  assert (existT (ResolveCatalogued ns) (Ok root) ∈ h2) as Hr2 by (by eapply elem_of_prefix).
  apply goes_ask; [exact I|]. intros [s|e] h3 Hp3 _; [|done].
  assert (existT (ResolveCatalogued ns) (Ok root) ∈ h3) as Hr3 by (by eapply elem_of_prefix).
  destruct (needsInstall s); cbn [negb].
  - apply goes_ask; [exact I|]. intros [[]|e] h4 Hp4 _; [|done].
    apply follows_deferring, follows_bind, plain_goes.
    { unfold advanceToAvailable. plainly. }
    assert (∀ e h', goes h' (ask (CloseBracket root))
      (λ _ (h : history), ∀ began, @Err error bool e = Ok began → installed_after began h)) as Hfail
      by (intros e h'; by split).
    intros [[]|e] h5 Hp5; [|apply Hfail].
    apply follows_bind, installDeps_goes.
    { eapply elem_of_prefix; [exact Hr3|by etrans]. }
    intros [[]|e] h6 Hp6 Hdeps; [|apply Hfail].
    destruct (Hdeps eq_refl) as (ids & Hpl & Hready).
    apply follows_bind, beginInstallHeld_ordered.
    { intros h' Hp'. exists root, ids. split; [by eapply planned_after|]. left.
      split_and!; [done..|]. eapply Forall_impl; [exact Hready|]. intros x. by apply ready_after. }
    intros [b [[]|e]] h7 Hp7 _ Hbegan; [|apply Hfail]. cbn [fst snd] in *.
    split; [exact I|]. intros x began [= <-]. exists root, ids.
    assert (h6 `prefix_of` h7 ++ [existT (CloseBracket root) x]) as Hp8
      by (etrans; [exact Hp7|by eexists]).
    split; [by eapply planned_after|]. split.
    + eapply Forall_impl; [exact Hready|]. intros y. by apply ready_after.
    + intros ->. apply elem_of_app. left. by apply Hbegan.
  - apply follows_bind, installDeps_goes; [done|]. intros [[]|e] h4 Hp4 Hdeps; [|done].
    destruct (Hdeps eq_refl) as (ids & Hpl & Hready).
    intros began [= <-]. exists root, ids. done.
Qed.
End install_order.

(** C7. An install brings the dependencies in first, in the order of the plan.
    Whatever the answers, each install that [Install] begins is either a dependency's,
    begun once every dependency before it in the plan of the arrow is ready, or the
    arrow's own, begun with the caller's variables once all of them are; the plan was
    catalogued in full before.  And when [Install] reports no error, every dependency is
    ready, and the arrow's install has begun if it says so. *)
Theorem install_dependencies_first ns vars l r :
  trace (Install ns vars) l r →
  (∀ l1 d v a l2, l = l1 ++ existT (BeginInstall d v) a :: l2 → turn_of l1 ns vars d v) ∧
  (∀ began, r = Ok began → installed_after ns vars began l).
Proof.
  intros Ht. destruct (follows_trace _ _ _ _ _ _ (Install_ordered ns vars) Ht) as [Hacc Hr].
  rewrite accepts_histories in Hacc. split.
  - intros l1 d v a l2 Hl. by apply (Hacc _ _ _ _ Hl).
  - intros began Heq. specialize (Hr began Heq).
    by rewrite after_histories in Hr.
Qed.

(** An application over a library that is not catalogued yet *)
Definition install_over_library (c : call) (n : nat) : option (answer c) :=
  match c with
  | ResolveCatalogued ns => Some (Ok ns)
  | Exists ns => Some (Ok (String.eqb ns "x/app@1"))
  | AddDependency d => Some (Ok d)
  | GetState _ => Some (Ok ArrowStateAbsent)
  | GetArrow _ => Some (Ok (Some (mkArrow "x/app@1" no_meta [] [] [] "" None true None SelectorPin
      (mkResolved "1.0" "c1" "") None)))
  | ResolveGraph _ => Some (Ok [mkPlanEntry "x/lib@1" ToolDep])
  | OpenBracket _ | ListenEnded _ | BeginInstall _ _ => Some (Ok ())
  | WaitEnded d => Some (Ok (mkRuntime d ArrowStateReady None
      (Some (mkReturn "r1" MethodInstall OutcomeSuccess [] ∅)) None))
  | CloseBracket _ | Unsubscribe _ => Some ()
  | _ => None
  end.

Lemma install_dependencies_first_witness :
  match run install_over_library 0 (Install "x/app@1" ∅) with
  | Some (l, r) => r = Ok true ∧ installed_after "x/app@1" ∅ true l ∧
      existT (BeginInstall "x/lib@1" ∅) (Ok ()) ∈ l
  | None => False
  end.
Proof.
  destruct (run _ _ _) as [[l r]|] eqn:H; [|vm_compute in H; discriminate].
  assert (r = Ok true ∧ existT (BeginInstall "x/lib@1" ∅) (Ok ()) ∈ l) as [Hr Hl].
  { vm_compute in H. injection H as <- <-. split; [reflexivity|].
    repeat (apply list_elem_of_here || apply list_elem_of_further). }
  split; [exact Hr|]. split; [|exact Hl].
  apply (install_dependencies_first "x/app@1" ∅ l r); [by eapply trace_run|exact Hr].
Defined.
