(* ===== verification/LifecycleRaces.v ===== *)
(** * The lifecycle's goroutines, interleaved

    Any number of the programs of [Lifecycle] run at once over the state of
    [Brackets].  A step is one call of one of them: the shared state answers the
    calls that are on it, anything answers the others.  Each goroutine carries its
    place in the protocol of [LifecycleProtocol], which the code does not have; the
    invariants count the goroutines by their place. *)

From S2P Require Import Prelude Errors GoStrings Domain Steps Manifest Runtime Graph Brackets Prog Lifecycle LifecycleProtocol.

(** ** The shared state *)

(** [lock] is the goroutine that holds the lock of the holds across calls. *)
Record shared := mkShared {
  sh_targets : targets;
  sh_commits : commits;
  sh_holds : badgeHolds;
  lock : option nat;
}.

Definition new_shared : shared := mkShared NewTargets NewCommits NewHolds None.

Definition set_targets (s : shared) (t : targets) : shared :=
  mkShared t (sh_commits s) (sh_holds s) (lock s).

Definition set_commits (s : shared) (c : commits) : shared :=
  mkShared (sh_targets s) c (sh_holds s) (lock s).

Definition guard_ {A} (b : bool) (x : A) : option A := if b then Some x else None.

(** Whether goroutine [i]'s call [c] may be answered [r], and the state it leaves;
    [None] when the answer is wrong or the goroutine has to wait. *)
Definition serve (i : nat) (s : shared) (c : call) : answer c → option shared :=
  match c with
  | OpenBracket ns => λ r : result error unit,
      match r with
      | Ok _ => set_targets s <$> Open ns (sh_targets s)
      | Err _ => Some s
      end
  | CloseBracket ns => λ _, Some (set_targets s (release ns (sh_targets s)))
  | TargetPending ns => λ r : bool, guard_ (Bool.eqb r (Pending ns (sh_targets s))) s
  | TargetPut ns target => λ r : undo,
      guard_ (bool_decide (r = (Put ns target (sh_targets s)).1))
        (set_targets s (Put ns target (sh_targets s)).2)
  | TargetUndo ns u => λ _, Some (set_targets s (Undo ns u (sh_targets s)))
  | TargetTake ns => λ r : option Available,
      guard_ (bool_decide (r = (Take ns (sh_targets s)).1))
        (set_targets s (Take ns (sh_targets s)).2)
  | CommitBegin ns => λ r : bool,
      guard_ (Bool.eqb r (Begin ns (sh_commits s)).1) (set_commits s (Begin ns (sh_commits s)).2)
  | CommitInFlight ns => λ r : bool, guard_ (Bool.eqb r (InFlight ns (sh_commits s))) s
  | CommitDraining => λ r : bool, guard_ (Bool.eqb r (IsDraining (sh_commits s))) s
  | ClearHold ns => λ _,
      guard_ (bool_decide (lock s = None))
        (mkShared (sh_targets s) (sh_commits s) (clear_dirty ns (sh_holds s)) (lock s))
  | ReleaseUnheld ns => λ r : bool,
      if negb (bool_decide (lock s = None)) then None
      else if bool_decide (ns ∈ dirty (sh_holds s)) then guard_ (negb r) s
      else if r then set_commits s <$> Done ns (sh_commits s) else None
  | LockHolds => λ _,
      guard_ (bool_decide (lock s = None))
        (mkShared (sh_targets s) (sh_commits s) (sh_holds s) (Some i))
  | MarkHold ns => λ _,
      Some (mkShared (sh_targets s) (sh_commits s) (mark_dirty ns (sh_holds s)) (lock s))
  | UnlockHolds => λ _, Some (mkShared (sh_targets s) (sh_commits s) (sh_holds s) None)
  | DrainBegin => λ r : bool,
      guard_ (Bool.eqb r (drain_begin (sh_commits s)).1) (set_commits s (drain_begin (sh_commits s)).2)
  | DrainWait => λ r : bool, guard_ (negb r || drain_settled (sh_commits s)) s
  | DrainAbort => λ _, Some (set_commits s (abortRunning (sh_commits s)))
  | _ => λ _, Some s
  end.

(** ** Goroutines *)

(** [ran] says whether the update this goroutine began was accepted, which its own
    answer may not tell. *)
Record thread := mkThread {
  here : place;
  ran : bool;
  code : P unit;
}.

(** [owed] holds the rows with a held check that no reconcile has followed.  A row is
    in [adrift] once its remembered target and its run came apart: it was reset, an
    update of it ended that no bracket began, or a bracket misjudged whether the
    update it gave up on had begun. *)
Record config := mkConfig {
  sh : shared;
  threads : list thread;
  owed : gset Namespace;
  adrift : gset Namespace;
}.

Definition start_config : config := mkConfig new_shared [] ∅ ∅.

Definition end_thread (fuel : nat) (rt : ArrowRuntime) : thread :=
  mkThread (mkPlace [] (Ending (RuntimeRef rt))) false (OnUpdateEnded fuel rt).

(** The end that an accepted update will deliver *)
Definition spawned (fuel : nat) (c : call) (accepted : bool) (rt : ArrowRuntime) : list thread :=
  match c with
  | BeginUpdate _ _ _ => if accepted then [end_thread fuel rt] else []
  | _ => []
  end.

Definition next_ran (t : thread) (c : call) (accepted : bool) : bool :=
  match c with BeginUpdate _ _ _ => accepted | _ => ran t end.

(** A reconcile covers the checks held before it began. *)
Definition next_owed (c : call) (owed : gset Namespace) : gset Namespace :=
  match c with
  | MarkHold ns => {[ ns ]} ∪ owed
  | ReconcileVersionBadge ns => owed ∖ {[ ns ]}
  | _ => owed
  end.

Definition next_adrift (t : thread) (c : call) (after : place) (adrift : gset Namespace)
  : gset Namespace :=
  match c with
  | TargetTake ns => if bool_decide (at_phase (here t) = Idle) then {[ ns ]} ∪ adrift else adrift
  | TargetUndo ns _ => if ran t then {[ ns ]} ∪ adrift else adrift
  | TargetPending ns | GetState ns =>
      match at_phase (here t), at_phase after with
      | Refused _ _, Begun _ => if ran t then adrift else {[ ns ]} ∪ adrift
      | _, _ => adrift
      end
  | _ => adrift
  end.

(** An update whose begin answers without an error was accepted. *)
Definition truthful (c : call) : answer c → bool → Prop :=
  match c with
  | BeginUpdate _ _ _ => λ r accepted, is_ok r = true → accepted = true
  | _ => λ _ _, True
  end.

(** The run that ends is the one that began. *)
Definition run_of (c : call) (rt : ArrowRuntime) : Prop :=
  match c with BeginUpdate ns _ _ => RuntimeRef rt = ns | _ => True end.

Section steps.
Context (fuel : nat).

Inductive step : config → config → Prop :=
| step_arrive c p :
    goroutine fuel at_rest p →
    step c (mkConfig (sh c) (threads c ++ [mkThread at_rest false p]) (owed c) (adrift c))
| step_stray c rt :
    step c (mkConfig (sh c) (threads c ++ [end_thread fuel rt]) (owed c)
      ({[ RuntimeRef rt ]} ∪ adrift c))
| step_call c i t cl k r s' accepted rt :
    threads c !! i = Some t → code t = Call cl k → serve i (sh c) cl r = Some s' →
    truthful cl r accepted → run_of cl rt →
    let after := moves brackets_protocol (here t) cl r in
    step c (mkConfig s'
      (<[i := mkThread after (next_ran t cl accepted) (k r)]> (threads c) ++
       spawned fuel cl accepted rt)
      (next_owed cl (owed c)) (next_adrift t cl after (adrift c))).

Definition reachable (c : config) : Prop := rtc step start_config c.
End steps.

(** ** Counting goroutines *)

Definition total (f : thread → nat) (l : list thread) : nat := sum_list_with f l.

Lemma total_app f l l' : total f (l ++ l') = total f l + total f l'.
Proof. induction l; simpl; [done|]. unfold total in *. simpl. lia. Qed.

Lemma total_insert f l i t t' :
  l !! i = Some t → total f (<[i := t']> l) + f t = total f l + f t'.
Proof.
  revert i. induction l as [|x l IH]; intros [|i] H; simplify_eq/=; unfold total in *; simpl.
  - lia.
  - specialize (IH i H). lia.
Qed.

Lemma total_le f g l : (∀ t, t ∈ l → f t <= g t) → total f l <= total g l.
Proof.
  induction l as [|x l IH]; intros H; [done|]. unfold total in *. simpl.
  assert (f x <= g x) by apply H, list_elem_of_here.
  assert (sum_list_with f l <= sum_list_with g l); [|lia].
  apply IH. intros t Ht. by apply H, list_elem_of_further.
Qed.

Lemma total_ge f l t : t ∈ l → f t <= total f l.
Proof.
  intros [i Hi]%list_elem_of_lookup. pose proof (total_insert f l i t t Hi).
  revert i Hi H. induction l as [|x l IH]; intros [|i] Hi _; simplify_eq/=; unfold total in *; simpl.
  - lia.
  - pose proof (IH i Hi ltac:(by rewrite list_insert_id)). lia.
Qed.

(** A bound counter by counter, less one goroutine *)
Lemma total_le_but f g l x : (∀ t, f t <= g t) → x ∈ l → total f l + g x <= total g l + f x.
Proof.
  intros H Hx. induction l as [|y l IH]; [by apply not_elem_of_nil in Hx|].
  unfold total in *. simpl. apply elem_of_cons in Hx as [->|Hx].
  - pose proof (total_le f g l (λ t _, H t)). unfold total in *. lia.
  - specialize (IH Hx). specialize (H y). lia.
Qed.

Lemma total_pos f l : 0 < total f l → ∃ t, t ∈ l ∧ 0 < f t.
Proof.
  induction l as [|x l IH]; unfold total in *; simpl; [lia|]. intros H.
  destruct (decide (0 < f x)) as [Hx|Hx]; [by exists x; split; [apply list_elem_of_here|]|].
  destruct IH as (t & Ht & Hf); [lia|]. exists t. split; [by apply list_elem_of_further|done].
Qed.

Lemma total_zero f l : (∀ t, t ∈ l → f t = 0) → total f l = 0.
Proof. intros H. assert (total f l <= total (λ _, 0) l) by (apply total_le; intros t Ht; rewrite H; done).
  enough (total (λ _, 0) l = 0) by lia. clear. induction l; unfold total in *; simpl; lia.
Qed.

(** ** One row *)

(** What a goroutine is to a row *)
Inductive view :=
| VNone | VUnpending | VChecked | VRemembered (u : undo) | VRefused (u : undo) | VAbandoned
| VEnding | VTaking (admitted : bool) | VClosing | VCleared | VReconciled.

Definition view_of_phase (ph : phase) (ran : bool) : view :=
  match ph with
  | Idle | Begun _ | Holding _ => VNone
  | Unpending _ => VUnpending
  | Checked _ | Staged _ _ => VChecked
  | Remembered _ u _ => VRemembered u
  | Refused _ u => if ran then VNone else VRefused u
  | Abandoned _ => VAbandoned
  | Ending _ => VEnding
  | Taking _ admitted => VTaking admitted
  | Closing _ => VClosing
  | Cleared _ => VCleared
  | Reconciled _ => VReconciled
  end.

Section row.
Context (row : Namespace).

Definition view_of (t : thread) : view :=
  if decide (mentions (at_phase (here t)) = Some row)
  then view_of_phase (at_phase (here t)) (ran t) else VNone.

(** How often it holds the bracket *)
Definition holds_bracket (t : thread) : nat := length (filter (λ ns, ns = row) (held (here t))).

(** Found settling by a check that is about to be held *)
Definition found (t : thread) : nat :=
  match at_phase (here t) with
  | Holding (Some ns) => if decide (ns = row) then 1 else 0
  | _ => 0
  end.

(** The owner of the remembered target *)
Definition owns (v : view) : nat :=
  match v with VRemembered _ | VRefused _ | VEnding | VTaking _ => 1 | _ => 0 end.

(** Counted among the commits in flight *)
Definition commits_of (v : view) : nat :=
  match v with VTaking true | VClosing | VCleared | VReconciled => 1 | _ => 0 end.

Definition is_unpending (v : view) : nat := match v with VUnpending => 1 | _ => 0 end.
Definition is_checked (v : view) : nat := match v with VChecked => 1 | _ => 0 end.
Definition is_abandoned (v : view) : nat := match v with VAbandoned => 1 | _ => 0 end.
Definition is_remembering (v : view) : nat :=
  match v with VRemembered _ | VRefused _ => 1 | _ => 0 end.
Definition is_cleared (v : view) : nat := match v with VCleared => 1 | _ => 0 end.

(** Anywhere between the put of a target and the end of its settling *)
Definition is_active (v : view) : nat :=
  match v with VNone | VUnpending | VChecked => 0 | _ => 1 end.

Definition owner (t : thread) : nat := owns (view_of t).
Definition in_commit (t : thread) : nat := commits_of (view_of t).
Definition unpending (t : thread) : nat := is_unpending (view_of t).
Definition checked (t : thread) : nat := is_checked (view_of t).
Definition abandoned (t : thread) : nat := is_abandoned (view_of t).
Definition remembering (t : thread) : nat := is_remembering (view_of t).
Definition cleared (t : thread) : nat := is_cleared (view_of t).
Definition active (t : thread) : nat := is_active (view_of t).
End row.

(** ** The invariant *)

(** What is always so of one row *)
Record row_inv (row : Namespace) (c : config) : Prop := {
  ri_occupied : Nat.b2n (occupied row (sh_targets (sh c))) = total (holds_bracket row) (threads c);
  ri_running : running_of row (sh_commits (sh c)) = Z.of_nat (total (in_commit row) (threads c));
  ri_positive : ∀ n, running (sh_commits (sh c)) !! row = Some n → (0 < n)%Z;
  ri_owner : row ∉ adrift c →
    Nat.b2n (Pending row (sh_targets (sh c))) = total (owner row) (threads c);
  ri_unpending : row ∉ adrift c → 0 < total (unpending row) (threads c) →
    total (owner row) (threads c) = 0;
  ri_checked : row ∉ adrift c →
    0 < total (checked row) (threads c) + total (abandoned row) (threads c) →
    total (owner row) (threads c) = 0 ∧ total (in_commit row) (threads c) = 0;
  ri_remembering : row ∉ adrift c → 0 < total (remembering row) (threads c) →
    total (in_commit row) (threads c) = 0;
  ri_undo : row ∉ adrift c → ∀ t u, t ∈ threads c →
    view_of row t = VRemembered u ∨ view_of row t = VRefused u →
    undo_previous u = None ∧
    ∃ a, remembered (sh_targets (sh c)) !! row = Some (mkRemembered a (undo_token u));
  ri_active : row ∉ adrift c → total (active row) (threads c) <= 1;
  ri_owed : draining (sh_commits (sh c)) = false → row ∈ owed c →
    row ∈ dirty (sh_holds (sh c)) ∨ 0 < total (cleared row) (threads c);
  ri_needed : row ∉ adrift c → draining (sh_commits (sh c)) = false →
    row ∈ owed c ∨ 0 < total (found row) (threads c) → 0 < total (active row) (threads c);
}.

(** The phases that are only reached in the row's bracket *)
Definition well_placed (pl : place) : Prop :=
  match at_phase pl with
  | Unpending ns | Checked ns | Staged ns _ | Remembered ns _ _ | Refused ns _ | Begun ns
  | Abandoned ns => ns ∈ held pl
  | _ => True
  end.

Definition holding (t : thread) : Prop :=
  match at_phase (here t) with Holding _ => True | _ => False end.

(** Counted among the commits in flight of any row *)
Definition in_any_commit (t : thread) : nat :=
  match at_phase (here t) with Taking _ true | Closing _ | Cleared _ | Reconciled _ => 1 | _ => 0 end.

(** What is always so of the goroutines and of what all rows share *)
Record shared_inv (c : config) : Prop := {
  si_code : ∀ t, t ∈ threads c → follows brackets_protocol (here t) (code t) (λ _ s, s = at_rest);
  si_placed : ∀ t, t ∈ threads c → well_placed (here t);
  si_lock : ∀ i t, threads c !! i = Some t → holding t → lock (sh c) = Some i;
  si_wg : wg (sh_commits (sh c)) = Z.of_nat (total in_any_commit (threads c));
  si_refused : ∀ t ns, t ∈ threads c → at_phase (here t) = Taking ns false →
    draining (sh_commits (sh c)) = true;
}.

Lemma elem_of_tail (x y : Namespace) hs : x ∈ hs → head hs = Some y → Some x ≠ Some y → x ∈ tail hs.
Proof. destruct hs as [|z hs]; simpl; [done|]. rewrite elem_of_cons. intros [->|?] ? ?; by simplify_eq. Qed.

Lemma well_placed_moves pl c r :
  well_placed pl → may pl c → well_placed (moves brackets_protocol pl c r).
Proof.
  intros Hp Hm. destruct pl as [hs ph]. unfold well_placed in *.
  destruct c; simpl in *; try (by destruct ph); destruct ph; simpl in *; try done;
    try match type of Hm with _ ∧ _ => destruct Hm end; simplify_eq; repeat case_match; try done;
    repeat case_bool_decide; simplify_eq; try done; try (by apply list_elem_of_further).
  all: try (by eapply elem_of_tail). all: try naive_solver.
Qed.

Lemma guard_Some {A} b (x y : A) : guard_ b x = Some y → b = true ∧ x = y.
Proof. unfold guard_. destruct b; [by intros [= ->]|done]. Qed.

Lemma eqb_true (a b : bool) : Bool.eqb a b = true → a = b.
Proof. apply eqb_prop. Qed.

(** Reads off what the answer of a call on the shared state was. *)
Ltac served H :=
  simpl in H;
  repeat match type of H with
  | guard_ _ _ = Some _ => apply guard_Some in H as [?Hans H]
  | match ?x with _ => _ end = Some _ => destruct x eqn:?; try discriminate H
  | _ <$> _ = Some _ => apply fmap_Some in H as (? & ? & H)
  | Some _ = Some _ => injection H as H
  | None = Some _ => discriminate H
  end;
  try match goal with Hans : Bool.eqb _ _ = true |- _ => apply eqb_true in Hans end.

(** The members of the threads after a call *)
Lemma elem_of_called i (t t' : thread) l sp x :
  l !! i = Some t → x ∈ <[i := t']> l ++ sp → x = t' ∨ x ∈ l ∨ x ∈ sp.
Proof.
  intros Hi [Hx|Hx]%elem_of_app; [|tauto].
  apply list_elem_of_lookup in Hx as [j Hj]. destruct (decide (i = j)) as [<-|Hn].
  - rewrite list_lookup_insert_eq in Hj by (by eapply lookup_lt_Some). left. congruence.
  - rewrite list_lookup_insert_ne in Hj by done. right; left. by eapply list_elem_of_lookup_2.
Qed.

Lemma total_called f i t t' l sp :
  l !! i = Some t → total f (<[i := t']> l ++ sp) + f t = total f l + f t' + total f sp.
Proof. intros Hi. rewrite total_app. pose proof (total_insert f l i t t' Hi). lia. Qed.

Lemma spawned_elem fuel cl accepted rt x :
  x ∈ spawned fuel cl accepted rt → x = end_thread fuel rt.
Proof.
  destruct cl; simpl; try by intros ?%not_elem_of_nil.
  destruct accepted; [|by intros ?%not_elem_of_nil]. apply list_elem_of_singleton.
Qed.

(** What the protocol says of a goroutine about to make a call *)
Lemma called_may c t cl k :
  shared_inv c → t ∈ threads c → code t = Call cl k →
  may (here t) cl ∧ ∀ r, follows brackets_protocol (moves brackets_protocol (here t) cl r) (k r)
    (λ _ s, s = at_rest).
Proof. intros Hs Ht Hc. pose proof (si_code c Hs t Ht) as H. rewrite Hc in H. exact H. Qed.

(** The lock of the holds after a call *)
Lemma called_lock i s t cl r s' :
  serve i s cl r = Some s' → may (here t) cl →
  (lock s = lock s' ∧ (cl = LockHolds → False) ∧ (cl = UnlockHolds → False)) ∨
  (cl = LockHolds ∧ lock s = None ∧ lock s' = Some i) ∨
  (cl = UnlockHolds ∧ lock s' = None).
Proof.
  intros Hs _. destruct cl; served Hs; subst; simpl; try (by left); try (left; by destruct r).
  - right; left. by case_bool_decide.
  - by right; right.
Qed.

Lemma holding_moves pl c r :
  may pl c → match at_phase (moves brackets_protocol pl c r) with Holding _ => True | _ => False end →
  c = LockHolds ∨ ((match at_phase pl with Holding _ => True | _ => False end) ∧ c ≠ UnlockHolds).
Proof.
  intros Hm H. destruct pl as [hs ph].
  destruct c; simpl in *; try (by left); try (by right); try done.
  all: destruct ph; simpl in *; try done; repeat case_match; try done; by right.
Qed.

Lemma shared_step_lock fuel c i t cl k r s' accepted rt :
  shared_inv c → threads c !! i = Some t → code t = Call cl k → serve i (sh c) cl r = Some s' →
  ∀ j x, (<[i := mkThread (moves brackets_protocol (here t) cl r) (next_ran t cl accepted) (k r)]>
    (threads c) ++ spawned fuel cl accepted rt) !! j = Some x → holding x → lock s' = Some j.
Proof.
  intros Hsi Hi Hc Hs j x Hj Hx.
  destruct (called_may c t cl k Hsi ltac:(by eapply list_elem_of_lookup_2) Hc) as [Hm _].
  apply lookup_app_Some in Hj as [Hj|[_ Hj]].
  2: { apply list_elem_of_lookup_2, spawned_elem in Hj as ->. done. }
  pose proof (called_lock _ _ _ _ _ _ Hs Hm) as Hl.
  destruct (decide (i = j)) as [<-|Hn].
  - rewrite list_lookup_insert_eq in Hj by (by eapply lookup_lt_Some). injection Hj as <-.
    apply holding_moves in Hx as [->|[Hx Hu]]; [naive_solver| |done].
    pose proof (si_lock c Hsi i t Hi Hx). naive_solver congruence.
  - rewrite list_lookup_insert_ne in Hj by done. pose proof (si_lock c Hsi j x Hj Hx) as Hlj.
    destruct Hl as [(<- & _)|[(_ & ? & _)|[-> _]]]; [done|congruence|].
    exfalso. simpl in Hm. assert (holding t) as Ht by (unfold holding; by destruct (at_phase (here t))).
    pose proof (si_lock c Hsi i t Hi Ht). congruence.
Qed.

Lemma Done_wg ns c c' : Done ns c = Some c' → wg c' = (wg c - 1)%Z ∧ draining c' = draining c.
Proof. unfold Done. case_match; [done|]. by intros [= <-]. Qed.

Lemma shared_step_wg fuel c i t cl k r s' accepted rt :
  shared_inv c → threads c !! i = Some t → code t = Call cl k → serve i (sh c) cl r = Some s' →
  wg (sh_commits s') = Z.of_nat (total in_any_commit
    (<[i := mkThread (moves brackets_protocol (here t) cl r) (next_ran t cl accepted) (k r)]>
      (threads c) ++ spawned fuel cl accepted rt)).
Proof.
  intros Hsi Hi Hc Hs.
  destruct (called_may c t cl k Hsi ltac:(by eapply list_elem_of_lookup_2) Hc) as [Hm _].
  pose proof (si_wg c Hsi) as Hwg. set (t' := mkThread _ _ _).
  pose proof (total_called in_any_commit i t t' (threads c) (spawned fuel cl accepted rt) Hi) as Ht.
  assert (total in_any_commit (spawned fuel cl accepted rt) = 0) as Hsp.
  { apply total_zero. intros x ->%spawned_elem. done. }
  enough (wg (sh_commits s') - wg (sh_commits (sh c)) =
    Z.of_nat (in_any_commit t') - Z.of_nat (in_any_commit t))%Z by lia.
  clear Ht Hsp Hwg. unfold in_any_commit, t'. destruct t as [[hs ph] ran code].
  destruct cl; served Hs; subst s'; simpl in *; try lia.
  all: destruct ph; simpl in *; try done; repeat case_match; simplify_eq/=; try lia.
  all: repeat case_bool_decide; try tauto.
  all: try match goal with H : Done _ _ = Some _ |- _ => apply Done_wg in H as [? _]; lia end.
  all: unfold Begin in *; repeat case_match; simplify_eq/=; try lia.
  all: by destruct Hm.
Qed.

(** Draining never ends, and only it refuses a commit. *)
Lemma serve_draining i s t cl r s' :
  serve i s cl r = Some s' → may (here t) cl →
  (draining (sh_commits s) = true → draining (sh_commits s') = true) ∧
  (∀ ns, at_phase (moves brackets_protocol (here t) cl r) = Taking ns false →
    at_phase (here t) = Taking ns false ∨ draining (sh_commits s') = true).
Proof.
  intros Hs Hm. destruct t as [[hs ph] rn code]. destruct cl; served Hs; subst s'; simpl in *; split; auto.
  all: try (intros ns' Hph; left; done).
  all: try (intros ns' Hph; destruct ph; simpl in *; try done; repeat case_match; simplify_eq; by left).
  - intros Hd. unfold Begin. by rewrite Hd.
  - intros ns' Hph. unfold Begin in *. destruct (draining (sh_commits s)) eqn:Hd; [by right|].
    simpl in *. subst r. destruct ph; simplify_eq.
  - match goal with H : Done _ _ = Some _ |- _ => by apply Done_wg in H as [_ ->] end.
Qed.

Lemma shared_inv_step fuel c c' : shared_inv c → step fuel c c' → shared_inv c'.
Proof.
  intros Hsi Hstep. destruct Hstep as [c p Hp|c rt|c i t cl k r s' accepted rt Hi Hc Hs Hok Hrt after].
  - split; simpl.
    + intros t [Ht| ->%list_elem_of_singleton]%elem_of_app; [by apply (si_code c)|].
      by eapply goroutine_goes.
    + intros t [Ht| ->%list_elem_of_singleton]%elem_of_app; [by apply (si_placed c)|done].
    + intros i t [Ht|[_ ->%list_elem_of_lookup_2%list_elem_of_singleton]]%lookup_app_Some Hh;
        [by eapply (si_lock c)|done].
    + rewrite total_app, (si_wg c Hsi). unfold total; simpl. lia.
    + intros t ns [Ht| ->%list_elem_of_singleton]%elem_of_app Hph; [by eapply (si_refused c)|done].
  - split; simpl.
    + intros t [Ht| ->%list_elem_of_singleton]%elem_of_app; [by apply (si_code c)|].
      apply OnUpdateEnded_goes.
    + intros t [Ht| ->%list_elem_of_singleton]%elem_of_app; [by apply (si_placed c)|done].
    + intros i t [Ht|[_ ->%list_elem_of_lookup_2%list_elem_of_singleton]]%lookup_app_Some Hh;
        [by eapply (si_lock c)|done].
    + rewrite total_app, (si_wg c Hsi). unfold total; simpl. lia.
    + intros t ns [Ht| ->%list_elem_of_singleton]%elem_of_app Hph; [by eapply (si_refused c)|done].
  - destruct (called_may c t cl k Hsi ltac:(by eapply list_elem_of_lookup_2) Hc) as [Hm Hf].
    split; simpl.
    + intros x [-> |[Hx| ->%spawned_elem]]%(elem_of_called _ _ _ _ _ _ Hi);
        [apply Hf|by apply (si_code c)|apply OnUpdateEnded_goes].
    + intros x [-> |[Hx| ->%spawned_elem]]%(elem_of_called _ _ _ _ _ _ Hi);
        [|by apply (si_placed c)|done].
      apply well_placed_moves; [|done]. apply (si_placed c Hsi). by eapply list_elem_of_lookup_2.
    + by eapply shared_step_lock.
    + by eapply shared_step_wg.
    + destruct (serve_draining _ _ _ _ _ _ Hs Hm) as [Hd Ht].
      intros x ns [-> |[Hx| ->%spawned_elem]]%(elem_of_called _ _ _ _ _ _ Hi) Hph; [|..|done].
      * destruct (Ht ns Hph) as [Hph'|]; [|done]. apply Hd.
        eapply (si_refused c Hsi t); [by eapply list_elem_of_lookup_2|done].
      * apply Hd. by eapply (si_refused c Hsi x).
Qed.
