(* ===== verification/LifecycleRows.v ===== *)
(** * What a step does to one row

    The counters of [LifecycleRaces] when a goroutine makes a call about the row,
    one lemma per call, and when it makes one about another row. *)

From S2P Require Import Prelude Errors GoStrings Domain Steps Manifest Runtime Graph Brackets Prog Lifecycle LifecycleProtocol LifecycleRaces.

(** ** Counting by what a goroutine is to the row *)

Section views.
Context (row : Namespace).

Definition same_view (t t' : thread) : Prop :=
  view_of row t' = view_of row t ∧ holds_bracket row t' = holds_bracket row t ∧
  found row t' = found row t.

(** The counters move together with the view of the goroutine that moved. *)
Lemma totals_same f i t t' l sp :
  (∀ x y, same_view x y → f x = f y) → l !! i = Some t → same_view t t' → total f sp = 0 →
  total f (<[i := t']> l ++ sp) = total f l.
Proof.
  intros Hf Hi Hv Hsp. pose proof (total_called f i t t' l sp Hi). rewrite (Hf t t' Hv) in *. lia.
Qed.

Lemma same_view_counts x y :
  same_view x y →
  holds_bracket row x = holds_bracket row y ∧ found row x = found row y ∧
  owner row x = owner row y ∧ in_commit row x = in_commit row y ∧
  unpending row x = unpending row y ∧ checked row x = checked row y ∧
  abandoned row x = abandoned row y ∧ remembering row x = remembering row y ∧
  cleared row x = cleared row y ∧ active row x = active row y.
Proof.
  intros (Hv & Hh & Hf). unfold owner, in_commit, unpending, checked, abandoned, remembering,
    cleared, active. rewrite Hv. by split_and!.
Qed.

(** The phases that need the bracket are counted with it. *)
Lemma needs_bracket c :
  shared_inv c →
  total (unpending row) (threads c) + total (checked row) (threads c) +
  total (remembering row) (threads c) + total (abandoned row) (threads c) <=
  total (holds_bracket row) (threads c).
Proof.
  intros Hsi.
  assert (∀ f g l, total f l + total g l = total (λ t, f t + g t) l) as Hadd.
  { intros f g l. induction l as [|x l IH]; unfold total in *; simpl in *; lia. }
  rewrite !Hadd. apply total_le. intros t Ht. pose proof (si_placed c Hsi t Ht) as Hp.
  unfold unpending, checked, remembering, abandoned, is_unpending, is_checked, is_remembering,
      is_abandoned, view_of. unfold well_placed in Hp.
  case_decide as Hrow; [|lia].
  assert (row ∈ held (here t) → 1 <= holds_bracket row t) as Hin.
  { intros Hin. unfold holds_bracket.
    assert (row ∈ filter (λ ns, ns = row) (held (here t))) as Hf by (by apply list_elem_of_filter).
    destruct (filter _ _); [by apply not_elem_of_nil in Hf|simpl; lia]. }
  destruct (at_phase (here t)); simpl in Hrow; simplify_eq; simpl; try lia; try (by apply Hin).
  destruct (ran t); [lia|by apply Hin].
Qed.

(** The counters of one goroutine, and their sums *)
Lemma active_parts l :
  total (active row) l <= total (owner row) l + total (in_commit row) l + total (abandoned row) l ∧
  total (owner row) l <= total (active row) l ∧ total (in_commit row) l <= total (active row) l ∧
  total (abandoned row) l <= total (active row) l ∧
  total (remembering row) l <= total (owner row) l ∧
  total (cleared row) l <= total (in_commit row) l.
Proof.
  split_and!.
  - assert (∀ f g l, total f l + total g l = total (λ t, f t + g t) l) as Hadd.
    { intros f g l'. induction l' as [|x l' IH]; unfold total in *; simpl in *; lia. }
    rewrite !Hadd. apply total_le. intros t _. unfold active, owner, in_commit, abandoned, is_active, owns, commits_of, is_abandoned.
    destruct (view_of row t) as [| | | | | | |[] | | |]; lia.
  - apply total_le. intros t _. unfold active, owner, is_active, owns. destruct (view_of row t); lia.
  - apply total_le. intros t _. unfold active, in_commit, is_active, commits_of.
    destruct (view_of row t) as [| | | | | | |[] | | |]; lia.
  - apply total_le. intros t _. unfold active, abandoned, is_active, is_abandoned. destruct (view_of row t); lia.
  - apply total_le. intros t _. unfold remembering, owner, is_remembering, owns. destruct (view_of row t); lia.
  - apply total_le. intros t _. unfold cleared, in_commit, is_cleared, commits_of.
    destruct (view_of row t) as [| | | | | | |[] | | |]; lia.
Qed.

(** A step that does not concern the row *)
Lemma row_frame c c' i t t' sp :
  row_inv row c → threads c !! i = Some t → threads c' = <[i := t']> (threads c) ++ sp →
  same_view t t' → (∀ x, x ∈ sp → view_of row x = VNone ∧ holds_bracket row x = 0 ∧ found row x = 0) →
  occupied row (sh_targets (sh c')) = occupied row (sh_targets (sh c)) →
  remembered (sh_targets (sh c')) !! row = remembered (sh_targets (sh c)) !! row →
  running (sh_commits (sh c')) !! row = running (sh_commits (sh c)) !! row →
  (draining (sh_commits (sh c')) = false → draining (sh_commits (sh c)) = false) →
  (row ∈ dirty (sh_holds (sh c)) → row ∈ dirty (sh_holds (sh c'))) →
  (row ∈ owed c' → row ∈ owed c) → (row ∈ adrift c → row ∈ adrift c') →
  row_inv row c'.
Proof.
  intros Hri Hi Hth Hv Hsp Hocc Hrem Hrun Hdr Hdi How Had.
  assert (∀ x, x ∈ sp → owner row x = 0 ∧ in_commit row x = 0 ∧ unpending row x = 0 ∧
    checked row x = 0 ∧ abandoned row x = 0 ∧ remembering row x = 0 ∧ cleared row x = 0 ∧
    active row x = 0) as Hsp'.
  { intros x Hx. destruct (Hsp x Hx) as (Hn & _). unfold owner, in_commit, unpending, checked,
      abandoned, remembering, cleared, active. rewrite Hn. by split_and!. }
  assert (∀ f, (∀ x y, same_view x y → f x = f y) → (∀ x, x ∈ sp → f x = 0) →
    total f (threads c') = total f (threads c)) as Htot.
  { intros f Hf Hz. rewrite Hth. apply (totals_same f i t); try done. by apply total_zero. }
  pose proof same_view_counts as Hc.
  destruct Hri as [R1 R2 R3 R4 R5 R6 R7 R8 R9 R10 R11]. split.
  - rewrite Hocc, Htot; [done|intros; by apply Hc|intros; by apply Hsp].
  - unfold running_of in *. rewrite Hrun, Htot; [done|intros; by apply Hc|intros; by apply Hsp'].
  - by rewrite Hrun.
  - intros Ha. unfold Pending in *. rewrite Hrem, Htot; [auto|intros; by apply Hc|intros; by apply Hsp'].
  - intros Ha. rewrite !Htot; [auto|intros; by apply Hc|intros; by apply Hsp'..
      |intros; by apply Hc|intros; by apply Hsp'].
  - intros Ha. rewrite !Htot; auto; intros; first [by apply Hc|by apply Hsp'].
  - intros Ha. rewrite !Htot; auto; intros; first [by apply Hc|by apply Hsp'].
  - intros Ha x u Hx Hu. rewrite Hrem. rewrite Hth in Hx.
    apply (elem_of_called i t) in Hx as [->|[Hx|Hx]]; [..|done].
    + apply (R8 ltac:(auto) t u); [by eapply list_elem_of_lookup_2|]. by rewrite <- (proj1 Hv).
    + by apply (R8 ltac:(auto) x u).
    + destruct (Hsp x Hx) as [Hn _]. rewrite Hn in Hu. naive_solver.
  - intros Ha. rewrite !Htot; auto; intros; first [by apply Hc|by apply Hsp'].
  - intros Hd Ho. rewrite !Htot; [destruct (R10 (Hdr Hd) (How Ho)); auto|..];
      intros; first [by apply Hc|by apply Hsp'].
  - intros Ha Hd. rewrite !Htot; [intros [Ho|Hf]; apply R11; auto|..];
      intros; first [by apply Hc|by apply Hsp'|by apply Hsp].
Qed.
End views.

(** ** The steps that concern the row *)

Section concerned.
Context (row : Namespace) (c : config) (Hri : row_inv row c) (Hsi : shared_inv c).

Lemma total_view (g : view → nat) i t t' l sp V V' VS :
  l !! i = Some t → view_of row t = V → view_of row t' = V' →
  g VNone = 0 → (sp = [] ∧ VS = VNone ∨ ∃ x, sp = [x] ∧ view_of row x = VS) →
  total (λ x, g (view_of row x)) (<[i := t']> l ++ sp) + g V =
  total (λ x, g (view_of row x)) l + g V' + g VS.
Proof.
  intros Hi <- <- Hg Hsp.
  pose proof (total_called (λ x, g (view_of row x)) i t t' l sp Hi) as H. simpl in H. rewrite H.
  destruct Hsp as [[-> ->]|(x & -> & <-)]; unfold total; simpl; lia.
Qed.

(** A step of a goroutine the row sees as [V] before and [V'] after, that starts one it
    sees as [VS]: the counters, and what bounded them before *)
Lemma row_counts i t t' sp V V' VS h h' f f' ths :
  threads c !! i = Some t → ths = <[i := t']> (threads c) ++ sp →
  view_of row t = V → view_of row t' = V' →
  holds_bracket row t = h → holds_bracket row t' = h' → found row t = f → found row t' = f' →
  (sp = [] ∧ VS = VNone ∨ ∃ x, sp = [x] ∧ view_of row x = VS ∧ holds_bracket row x = 0 ∧
    found row x = 0) →
  (total (holds_bracket row) ths + h = total (holds_bracket row) (threads c) + h' ∧
  total (found row) ths + f = total (found row) (threads c) + f' ∧
  total (owner row) ths + owns V = total (owner row) (threads c) + owns V' + owns VS ∧
  total (in_commit row) ths + commits_of V =
    total (in_commit row) (threads c) + commits_of V' + commits_of VS ∧
  total (unpending row) ths + is_unpending V =
    total (unpending row) (threads c) + is_unpending V' + is_unpending VS) ∧
  (total (checked row) ths + is_checked V =
    total (checked row) (threads c) + is_checked V' + is_checked VS ∧
  total (abandoned row) ths + is_abandoned V =
    total (abandoned row) (threads c) + is_abandoned V' + is_abandoned VS ∧
  total (remembering row) ths + is_remembering V =
    total (remembering row) (threads c) + is_remembering V' + is_remembering VS ∧
  total (cleared row) ths + is_cleared V =
    total (cleared row) (threads c) + is_cleared V' + is_cleared VS ∧
  total (active row) ths + is_active V =
    total (active row) (threads c) + is_active V' + is_active VS) ∧
  (total (unpending row) (threads c) + total (checked row) (threads c) +
    total (remembering row) (threads c) + total (abandoned row) (threads c) <=
    total (holds_bracket row) (threads c) ∧
  total (active row) (threads c) <= total (owner row) (threads c) +
    total (in_commit row) (threads c) + total (abandoned row) (threads c) ∧
  h <= total (holds_bracket row) (threads c)) ∧
  (total (remembering row) (threads c) <= total (owner row) (threads c) ∧
  total (owner row) (threads c) <= total (active row) (threads c) ∧
  total (in_commit row) (threads c) <= total (active row) (threads c) ∧
  total (abandoned row) (threads c) <= total (active row) (threads c) ∧
  total (cleared row) (threads c) <= total (in_commit row) (threads c)) ∧
  (total (remembering row) ths <= total (owner row) ths ∧
   total (active row) ths <= total (owner row) ths + total (in_commit row) ths +
     total (abandoned row) ths ∧
   total (cleared row) ths <= total (in_commit row) ths ∧
   total (in_commit row) ths <= total (active row) ths ∧
   owns V <= total (owner row) (threads c) ∧ commits_of V <= total (in_commit row) (threads c) ∧
   total (remembering row) (threads c) + owns V <= total (owner row) (threads c) + is_remembering V ∧
   total (remembering row) ths + owns V' <= total (owner row) ths + is_remembering V').
Proof.
  intros Hi -> HV HV' <- <- <- <- Hsp.
  assert (owner row t <= total (owner row) (threads c)) as Hown by by eapply total_ge, list_elem_of_lookup_2.
  assert (in_commit row t <= total (in_commit row) (threads c)) as Hcom
    by by eapply total_ge, list_elem_of_lookup_2.
  assert (∀ x, remembering row x <= owner row x) as Hle.
  { intros x. unfold remembering, owner, is_remembering, owns. destruct (view_of row x); lia. }
  pose proof (total_le_but (remembering row) (owner row) (threads c) t Hle
    ltac:(by eapply list_elem_of_lookup_2)) as Hbut.
  pose proof (total_le_but (remembering row) (owner row) (<[i := t']> (threads c) ++ sp) t' Hle) as Hbut'.
  assert (t' ∈ <[i := t']> (threads c) ++ sp) as Ht'.
  { apply elem_of_app. left. apply list_elem_of_insert. by eapply lookup_lt_Some. }
  specialize (Hbut' Ht').
  unfold remembering at 2, owner at 1 in Hbut. unfold remembering at 2, owner at 1 in Hbut'.
  rewrite HV in Hbut. rewrite HV' in Hbut'. unfold owner in Hown at 1. unfold in_commit in Hcom at 1. rewrite HV in Hown, Hcom.
  pose proof (active_parts row (<[i := t']> (threads c) ++ sp)).
  assert (sp = [] ∧ VS = VNone ∨ ∃ x, sp = [x] ∧ view_of row x = VS) as Hsp' by naive_solver.
  assert (total (holds_bracket row) sp = 0 ∧ total (found row) sp = 0) as [Hh Hf].
  { destruct Hsp as [[-> _]|(x & -> & _ & Hx & Hx')]; [done|]. unfold total; simpl. lia. }
  pose proof (needs_bracket row c Hsi).
  pose proof (active_parts row (threads c)).
  pose proof (total_called (holds_bracket row) i t t' (threads c) sp Hi).
  pose proof (total_called (found row) i t t' (threads c) sp Hi).
  assert (holds_bracket row t <= total (holds_bracket row) (threads c)) by
    by eapply total_ge, list_elem_of_lookup_2.
  split_and!; try lia; by apply (total_view _ i t t' (threads c) sp).
Qed.

(** The goroutine that steps *)
Context (i : nat) (hs : list Namespace) (rn : bool).

Abbreviation at_ ph rn p := (mkThread (mkPlace hs ph) rn p).

Lemma view_at l ph r p :
  mentions ph = Some row → view_of row (mkThread (mkPlace l ph) r p) = view_of_phase ph r.
Proof. intros H. unfold view_of. simpl. by rewrite decide_True. Qed.

Lemma view_none l ph r p :
  mentions ph ≠ Some row → view_of row (mkThread (mkPlace l ph) r p) = VNone.
Proof. intros H. unfold view_of. simpl. by rewrite decide_False. Qed.

Lemma remembering_ge l x u :
  x ∈ l → view_of row x = VRemembered u ∨ view_of row x = VRefused u →
  1 <= total (remembering row) l.
Proof.
  intros Hx Hu. pose proof (total_ge (remembering row) l x Hx) as H.
  unfold remembering in H. destruct Hu as [Hu|Hu]; rewrite Hu in H; exact H.
Qed.

Lemma b2n_le b : Nat.b2n b <= 1.
Proof. destruct b; simpl; lia. Qed.

Definition held_here (l : list Namespace) : nat := length (filter (λ ns, ns = row) l).

Ltac row_step Hi started v v' vs l l' n n' ths' :=
  pose proof Hi as Hi';
  eapply row_counts with (sp := started) (V := v) (V' := v') (VS := vs) (ths := ths')
    (h := held_here l) (h' := held_here l') (f := n) (f' := n')
    in Hi' as (E1 & E2 & E3 & E4 & E5);
  [|reflexivity|first [assumption|by apply view_at|by apply view_none|reflexivity]|first [assumption|by apply view_at|by apply view_none|reflexivity]
   |reflexivity|reflexivity|first [assumption|reflexivity]|first [assumption|reflexivity]|first [by left|right; eexists; split_and!; [reflexivity|eassumption|reflexivity|reflexivity]]];
  cbn [owns commits_of is_unpending is_checked is_abandoned is_remembering is_cleared is_active]
    in E1, E2, E3, E5;
  destruct Hri as [R1 R2 R3 R4 R5 R6 R7 R8 R9 R10 R11];
  pose proof (b2n_le (occupied row (sh_targets (sh c))));
  pose proof (b2n_le (Pending row (sh_targets (sh c))));
  split; cbn [sh threads adrift owed set_targets set_commits sh_targets sh_commits sh_holds].

(** The row's invariant from the counters, unless the row is adrift *)
Ltac counting :=
  intros; destruct_and?;
  repeat match goal with
  | H : _ ∉ adrift _ → _, Ha : _ ∉ adrift _ |- _ => specialize (H Ha)
  | H : draining _ = false → _, Ha : draining _ = false |- _ => specialize (H Ha)
  | H : occupied _ _ = _ |- context [occupied _ _] => rewrite H
  | H : Pending _ _ = _ |- context [Pending _ _] => rewrite H
  end; cbn [Nat.b2n] in *; try lia.

(** The fields that a step leaves as they were, and those that are counted *)
Ltac row_rest :=
  match goal with
  | H : ∀ n, running _ !! _ = Some n → _ |- ∀ n, running _ !! _ = Some n → _ => exact H
  | H : draining _ = false → _ ∈ owed _ → _ |- draining _ = false → _ ∈ owed _ → _ =>
      let Hd := fresh in let Ho := fresh in
      intros Hd Ho; destruct (H Hd Ho); [by left|right; by counting]
  | H : _ ∉ adrift _ → draining _ = false → _ ∨ _ → _ |- _ ∉ adrift _ → draining _ = false → _ ∨ _ → _ =>
      let Ha := fresh in let Hd := fresh in let Hor := fresh in let Hact := fresh in
      intros Ha Hd Hor;
      assert (0 < total (active row) (threads c)) as Hact
        by (apply (H Ha Hd); destruct Hor as [Hor|Hor]; [by left|right; clear H; counting]);
      clear H Hor; by counting
  | |- _ => by counting
  end.
(** The captured undo of a put, where the target is as it was *)
Lemma undo_kept t t' sp s' :
  threads c !! i = Some t →
  (row ∉ adrift c → ∀ x u, x ∈ threads c →
    view_of row x = VRemembered u ∨ view_of row x = VRefused u →
    undo_previous u = None ∧
    ∃ a, remembered (sh_targets (sh c)) !! row = Some (mkRemembered a (undo_token u))) →
  (∀ u, view_of row t' = VRemembered u ∨ view_of row t' = VRefused u →
    view_of row t = VRemembered u ∨ view_of row t = VRefused u) →
  (∀ x u, x ∈ sp → view_of row x ≠ VRemembered u ∧ view_of row x ≠ VRefused u) →
  remembered (sh_targets s') !! row = remembered (sh_targets (sh c)) !! row →
  row ∉ adrift c → ∀ x u, x ∈ <[i := t']> (threads c) ++ sp →
    view_of row x = VRemembered u ∨ view_of row x = VRefused u →
    undo_previous u = None ∧
    ∃ a, remembered (sh_targets s') !! row = Some (mkRemembered a (undo_token u)).
Proof.
  intros Hi R8 Ht Hsp Hrem Ha x u Hx Hu. rewrite Hrem.
  apply (elem_of_called i t) in Hx as [->|[Hx|Hx]]; [..|done].
  - apply (R8 Ha t u); [by eapply list_elem_of_lookup_2|by apply Ht].
  - by apply (R8 Ha x u).
  - destruct (Hsp x u Hx). naive_solver.
Qed.

(** ... and where no goroutine remembers one *)
Lemma undo_none l (Q : undo → Prop) :
  total (remembering row) l = 0 → ∀ x u, x ∈ l →
  view_of row x = VRemembered u ∨ view_of row x = VRefused u → Q u.
Proof. intros H x u Hx Hu. pose proof (remembering_ge l x u Hx Hu). lia. Qed.

Lemma row_put target k :
  threads c !! i = Some (at_ (Staged row target) rn (Call (TargetPut row target) k)) →
  let u := (Put row target (sh_targets (sh c))).1 in
  row_inv row (mkConfig (set_targets (sh c) (Put row target (sh_targets (sh c))).2)
    (<[i := at_ (Remembered row u target) rn (k u)]> (threads c) ++ []) (owed c) (adrift c)).
Proof.
  intros Hi u. set (ths := _ ++ _).
  assert (Pending row (Put row target (sh_targets (sh c))).2 = true) as Hp.
  { unfold Pending. simpl. by rewrite lookup_insert_eq, bool_decide_eq_true_2. }
  assert (occupied row (Put row target (sh_targets (sh c))).2 = occupied row (sh_targets (sh c))) as Ho
    by done.
  row_step Hi (@nil thread) VChecked (VRemembered u) VNone hs hs 0 0 ths.
  all: try row_rest.
  intros Ha x u' Hx Hu. apply (elem_of_called i (at_ (Staged row target) rn (Call (TargetPut row target) k))) in Hx
    as [->|[Hx|Hx%not_elem_of_nil]]; [| |done|done].
  - rewrite view_at in Hu by done. destruct Hu as [[= <-]|?]; [|done]. simpl.
    split; [|exists target; by rewrite lookup_insert_eq].
    assert (Pending row (sh_targets (sh c)) = false) as Hn.
    { enough (Nat.b2n (Pending row (sh_targets (sh c))) = 0) by (by destruct (Pending row (sh_targets (sh c)))). counting. }
    apply bool_decide_eq_false_1, eq_None_not_Some in Hn. exact Hn.
  - pose proof (remembering_ge _ _ _ Hx Hu). exfalso. counting.
Qed.

Lemma row_open ph k t' :
  threads c !! i = Some (at_ ph rn (Call (OpenBracket row) k)) → mentions ph ≠ Some row →
  Open row (sh_targets (sh c)) = Some t' →
  row_inv row (mkConfig (set_targets (sh c) t')
    (<[i := mkThread (mkPlace (row :: hs) ph) rn (k (Ok ()))]> (threads c) ++ []) (owed c) (adrift c)).
Proof.
  intros Hi Hph Ho. set (ths := _ ++ _).
  destruct (occupied_Open row row _ _ Ho) as (Hfree & Hrem & _ & Hocc).
  rewrite decide_True in Hocc by done.
  assert (Pending row t' = Pending row (sh_targets (sh c))) as Hp by (unfold Pending; by rewrite Hrem).
  assert (held_here (row :: hs) = S (held_here hs)) as Hh.
  { unfold held_here. rewrite filter_cons_True; done. }
  set (f := found row (mkThread (mkPlace hs ph) rn (mret ()))).
  row_step Hi (@nil thread) VNone VNone VNone hs (row :: hs) f f ths.
  all: try row_rest.
  - rewrite Hfree in *. counting.
  - apply (undo_kept _ _ _ (set_targets (sh c) t') Hi R8); simpl; [|by intros ?? ?%not_elem_of_nil|by rewrite Hrem].
    intros u. rewrite !view_none by done. done.
Qed.

Lemma row_close ph k :
  threads c !! i = Some (at_ ph rn (Call (CloseBracket row) k)) →
  head hs = Some row → (mentions ph = Some row → settled_phase ph) →
  row_inv row (mkConfig (set_targets (sh c) (release row (sh_targets (sh c))))
    (<[i := mkThread (mkPlace (tail hs) (if bool_decide (mentions ph = Some row) then Idle else ph)) rn
      (k ())]> (threads c) ++ []) (owed c) (adrift c)).
Proof.
  intros Hi Hh Hset. set (ph' := if bool_decide _ then _ else _). set (ths := _ ++ _).
  set (s' := release row (sh_targets (sh c))).
  assert (occupied row s' = false) as Ho by (unfold s'; by rewrite occupied_release, decide_True).
  assert (Pending row s' = Pending row (sh_targets (sh c))) as Hp by done.
  assert (held_here hs = S (held_here (tail hs))) as Hn.
  { destruct hs as [|x hs']; simplify_eq/=. unfold held_here. rewrite filter_cons_True; done. }
  assert (view_of row (mkThread (mkPlace (tail hs) ph') rn (k ())) = VNone) as HV'.
  { unfold ph'. case_bool_decide; by apply view_none. }
  set (f := found row (mkThread (mkPlace hs ph) rn (mret ()))).
  assert (found row (mkThread (mkPlace (tail hs) ph') rn (k ())) = f) as Hf.
  { unfold f, found, ph'. simpl. case_bool_decide as Hph; [|done]. by destruct ph. }
  assert (view_of row (at_ ph rn (Call (CloseBracket row) k)) = VNone ∨
    view_of row (at_ ph rn (Call (CloseBracket row) k)) = VChecked) as [HV|HV].
  { destruct (decide (mentions ph = Some row)) as [He|He]; [|left; by apply view_none].
    rewrite view_at by done. specialize (Hset He). destruct ph; simpl in *; try done; auto. }
  - row_step Hi (@nil thread) VNone VNone VNone hs (tail hs) f f ths.
    all: try row_rest. all: rewrite ?Ho, ?Hn in *; try by counting.
    apply (undo_kept _ _ _ (set_targets (sh c) s') Hi R8); simpl; [|by intros ?? ?%not_elem_of_nil|done].
    intros u. rewrite HV'. naive_solver.
  - row_step Hi (@nil thread) VChecked VNone VNone hs (tail hs) f f ths.
    all: try row_rest. all: rewrite ?Ho, ?Hn in *; try by counting.
    apply (undo_kept _ _ _ (set_targets (sh c) s') Hi R8); simpl; [|by intros ?? ?%not_elem_of_nil|done].
    intros u. rewrite HV'. naive_solver.
Qed.

(** A step that only moves a goroutine, with what the row sees of it *)
Lemma row_only t t' V V' :
  threads c !! i = Some t → view_of row t = V → view_of row t' = V' →
  holds_bracket row t' = holds_bracket row t → found row t' <= found row t →
  (V = V' ∨ (V = VUnpending ∧ V' = VNone) ∨
   (V = VUnpending ∧ V' = VChecked ∧ running_of row (sh_commits (sh c)) = 0%Z) ∨
   (V = VNone ∧ V' = VUnpending ∧ Pending row (sh_targets (sh c)) = false) ∨
   (∃ u, V = VRemembered u ∧ V' = VRefused u) ∨ (V = VReconciled ∧ V' = VClosing)) →
  row_inv row (mkConfig (sh c) (<[i := t']> (threads c) ++ []) (owed c) (adrift c)).
Proof.
  intros Hi HV HV' Hh Hf Hcase. set (ths := _ ++ _).
  pose proof Hi as Hi'. eapply row_counts with (sp := []) (V := V) (V' := V') (VS := VNone)
    (h := holds_bracket row t) (h' := holds_bracket row t) (f := found row t) (f' := found row t')
    (ths := ths) in Hi' as (E1 & E2 & E3 & E4 & E5); [|done..|by left].
  destruct Hri as [R1 R2 R3 R4 R5 R6 R7 R8 R9 R10 R11].
  pose proof (b2n_le (occupied row (sh_targets (sh c)))).
  assert (row ∉ adrift c → ∀ x u, x ∈ ths →
    view_of row x = VRemembered u ∨ view_of row x = VRefused u → undo_previous u = None ∧
    ∃ a, remembered (sh_targets (sh c)) !! row = Some (mkRemembered a (undo_token u))) as HR8.
  { intros Ha x u. apply (undo_kept t t' [] (sh c) Hi R8); [|by intros ?? ?%not_elem_of_nil|done|done].
    intros u'. rewrite HV, HV'. clear -Hcase.
    destruct Hcase as [<-|[[-> ->]|[(-> & -> & _)|[(-> & -> & _)|[(u & -> & ->)|[-> ->]]]]]]; [done|..];
      intros [?|?]; simplify_eq; by left. }
  clear R8.
  destruct Hcase as [<-|[[-> ->]|[(-> & -> & Hrun)|[(-> & -> & Hp)|[(u & -> & ->)|[-> ->]]]]]].
  all: cbn [owns commits_of is_unpending is_checked is_abandoned is_remembering is_cleared is_active] in E1, E2.
  all: split; cbn [sh threads adrift owed]; try exact HR8; clear HR8; try row_rest.
  all: rewrite Hp in *; by counting.
Qed.

(** What stays of the invariant once the row is adrift *)
Lemma row_drift c' t t' V V' :
  threads c !! i = Some t → threads c' = <[i := t']> (threads c) ++ [] →
  view_of row t = V → view_of row t' = V' →
  holds_bracket row t' = holds_bracket row t → commits_of V = commits_of V' →
  is_cleared V = is_cleared V' →
  occupied row (sh_targets (sh c')) = occupied row (sh_targets (sh c)) →
  sh_commits (sh c') = sh_commits (sh c) → sh_holds (sh c') = sh_holds (sh c) →
  owed c' = owed c → row ∈ adrift c' → row_inv row c'.
Proof.
  intros Hi Hth HV HV' Hh Hc1 Hc2 Hocc Hcm Hho How Ha.
  pose proof Hi as Hi'. eapply row_counts with (sp := []) (V := V) (V' := V') (VS := VNone)
    (h := holds_bracket row t) (h' := holds_bracket row t) (f := found row t) (f' := found row t')
    (ths := threads c') in Hi' as (E1 & E2 & E3 & E4 & E5); [|done..|by left].
  simpl in E1, E2. destruct Hri as [R1 R2 R3 R4 R5 R6 R7 R8 R9 R10 R11].
  split; try (intros Ha'; exfalso; by apply Ha').
  - rewrite Hocc. counting.
  - rewrite Hcm. counting.
  - by rewrite Hcm.
  - rewrite Hcm, Hho, How. intros Hd Ho. destruct (R10 Hd Ho); [by left|right; counting].
Qed.

Lemma row_begin_update vars target u k r accepted rt fuel :
  threads c !! i = Some (at_ (Remembered row u target) rn (Call (BeginUpdate row vars (available_ref target)) k)) →
  RuntimeRef rt = row → (is_ok r = true → accepted = true) →
  row_inv row (mkConfig (sh c) (<[i := at_ (if is_ok r then Begun row else Refused row u) accepted (k r)]>
    (threads c) ++ if accepted : bool then [end_thread fuel rt] else []) (owed c) (adrift c)).
Proof.
  intros Hi Hrt Hacc.
  destruct accepted; cycle 1.
  { destruct (is_ok r) eqn:Hr; [by specialize (Hacc eq_refl)|].
    eapply row_only; [exact Hi|by apply view_at|by apply view_at|done|done|].
    do 4 right. left. by exists u. }
  clear Hacc. set (ph' := if is_ok r then _ else _).
  set (ths := _ ++ _).
  assert (view_of row (at_ ph' true (k r)) = VNone) as HV'.
  { unfold ph'. destruct (is_ok r); by rewrite view_at. }
  assert (found row (at_ ph' true (k r)) = 0) as Hf by (unfold ph'; by destruct (is_ok r)).
  assert (view_of row (end_thread fuel rt) = VEnding) as HS.
  { unfold end_thread. by rewrite view_at by (by rewrite Hrt). }
  row_step Hi [end_thread fuel rt] (VRemembered u) VNone VEnding hs hs 0 0 ths.
  all: try row_rest.
  apply (undo_kept _ _ _ (sh c) Hi R8); [|intros x u' ->%list_elem_of_singleton|done].
  - intros u'. rewrite HV'. naive_solver.
  - by rewrite HS.
Qed.

Lemma row_undo u k :
  threads c !! i = Some (at_ (Refused row u) rn (Call (TargetUndo row u) k)) →
  row_inv row (mkConfig (set_targets (sh c) (Undo row u (sh_targets (sh c))))
    (<[i := at_ (Abandoned row) rn (k ())]> (threads c) ++ []) (owed c)
    (if rn then {[ row ]} ∪ adrift c else adrift c)).
Proof.
  intros Hi. assert (occupied row (Undo row u (sh_targets (sh c))) = occupied row (sh_targets (sh c))) as Ho.
  { unfold Undo. repeat case_match; done. }
  destruct rn eqn:Hrn.
  { eapply row_drift; [exact Hi|done|by apply view_at|by apply view_at|done|done|done|done|done|done|done|].
    simpl. set_solver. }
  set (ths := _ ++ _).
  assert (row ∉ adrift c → Pending row (Undo row u (sh_targets (sh c))) = false) as Hp.
  { intros Ha. destruct (ri_undo _ _ Hri Ha _ u ltac:(by eapply list_elem_of_lookup_2)) as [Hu [a Ht]].
    { right. by apply view_at. }
    unfold Pending, Undo. rewrite Ht. simpl. rewrite Z.eqb_refl, Hu. simpl.
    by rewrite lookup_delete_eq. }
  row_step Hi (@nil thread) (VRefused u) VAbandoned VNone hs hs 0 0 ths.
  all: try row_rest.
  intros Ha. apply undo_none. counting.
Qed.

Lemma row_commit_begin ph k :
  threads c !! i = Some (at_ ph rn (Call (CommitBegin row) k)) →
  (ph = Ending row ∨ (∃ target, ph = Staged row target) ∨ ph = Abandoned row) →
  let b := (Begin row (sh_commits (sh c))).1 in
  let ph' := match ph with
             | Ending _ => Taking row b
             | _ => if b then Closing row else Idle
             end in
  row_inv row (mkConfig (set_commits (sh c) (Begin row (sh_commits (sh c))).2)
    (<[i := at_ ph' rn (k b)]> (threads c) ++ []) (owed c) (adrift c)).
Proof.
  intros Hi Hph b ph'. destruct (draining (sh_commits (sh c))) eqn:Hd.
  - assert (b = false ∧ (Begin row (sh_commits (sh c))).2 = sh_commits (sh c)) as [Hb Hcm]
      by (unfold b, Begin; by rewrite Hd).
    unfold ph'. rewrite Hcm, Hb. set (ths := _ ++ _).
    destruct Hph as [->|[[target ->]| ->]].
    + row_step Hi (@nil thread) VEnding (VTaking false) VNone hs hs 0 0 ths.
      all: try row_rest.
      apply (undo_kept _ _ _ (sh c) Hi R8); [|by intros ?? ?%not_elem_of_nil|done].
      intros u'. rewrite !view_at by done. naive_solver.
    + row_step Hi (@nil thread) VChecked VNone VNone hs hs 0 0 ths.
      all: try row_rest.
      apply (undo_kept _ _ _ (sh c) Hi R8); [|by intros ?? ?%not_elem_of_nil|done].
      intros u'. rewrite view_none by done. naive_solver.
    + row_step Hi (@nil thread) VAbandoned VNone VNone hs hs 0 0 ths.
      all: try row_rest.
      * apply (undo_kept _ _ _ (sh c) Hi R8); [|by intros ?? ?%not_elem_of_nil|done].
        intros u'. rewrite view_none by done. naive_solver.
      * intros _ Hd'. congruence.
  - assert (b = true) as Hb by (unfold b, Begin; by rewrite Hd).
    pose proof (running_of_Begin row row (sh_commits (sh c)) Hd) as Hrun.
    rewrite decide_True in Hrun by done.
    assert (∀ n, running (Begin row (sh_commits (sh c))).2 !! row = Some n → (0 < n)%Z) as Hpos.
    { intros n. unfold Begin. rewrite Hd. simpl. rewrite lookup_insert_eq. intros [= <-].
      pose proof (ri_running _ _ Hri). lia. }
    assert (draining (Begin row (sh_commits (sh c))).2 = false) as Hd'.
    { unfold Begin. by rewrite Hd. }
    rewrite <- Hd in Hd'. unfold ph'. rewrite Hb. set (ths := _ ++ _). set (cm := (Begin row (sh_commits (sh c))).2) in *.
    destruct Hph as [->|[[target ->]| ->]].
    + row_step Hi (@nil thread) VEnding (VTaking true) VNone hs hs 0 0 ths.
      all: rewrite ?Hd'; try exact Hpos; try (by rewrite Hrun; counting); try row_rest.
      apply (undo_kept _ _ _ (sh c) Hi R8); [|by intros ?? ?%not_elem_of_nil|done].
      intros u'. rewrite !view_at by done. naive_solver.
    + row_step Hi (@nil thread) VChecked VClosing VNone hs hs 0 0 ths.
      all: rewrite ?Hd'; try exact Hpos; try (by rewrite Hrun; counting); try row_rest.
      apply (undo_kept _ _ _ (sh c) Hi R8); [|by intros ?? ?%not_elem_of_nil|done].
      intros u'. rewrite !view_at by done. naive_solver.
    + row_step Hi (@nil thread) VAbandoned VClosing VNone hs hs 0 0 ths.
      all: rewrite ?Hd'; try exact Hpos; try (by rewrite Hrun; counting); try row_rest.
      apply (undo_kept _ _ _ (sh c) Hi R8); [|by intros ?? ?%not_elem_of_nil|done].
      intros u'. rewrite !view_at by done. naive_solver.
Qed.

Lemma Take_Pending t : Pending row (Take row t).2 = false.
Proof. unfold Pending, Take. simpl. by rewrite lookup_delete_eq. Qed.

Lemma row_take ph k r :
  threads c !! i = Some (at_ ph rn (Call (TargetTake row) k)) →
  (ph = Idle ∨ ∃ b, ph = Taking row b) →
  row_inv row (mkConfig (set_targets (sh c) (Take row (sh_targets (sh c))).2)
    (<[i := at_ (match ph with Taking _ true => Closing row | _ => Idle end) rn (k r)]> (threads c) ++ [])
    (owed c) (if bool_decide (ph = Idle) then {[ row ]} ∪ adrift c else adrift c)).
Proof.
  intros Hi Hph. assert (occupied row (Take row (sh_targets (sh c))).2 = occupied row (sh_targets (sh c)))
    as Ho by done. pose proof (Take_Pending (sh_targets (sh c))) as Hp.
  destruct Hph as [->|[b ->]].
  { rewrite bool_decide_eq_true_2 by done.
    eapply row_drift; [exact Hi|done|by apply view_none|by apply view_none|done..|].
    simpl. set_solver. }
  rewrite bool_decide_eq_false_2 by done. set (ths := _ ++ _). destruct b.
  - row_step Hi (@nil thread) (VTaking true) VClosing VNone hs hs 0 0 ths.
    all: try row_rest. intros Ha. apply undo_none. counting.
  - row_step Hi (@nil thread) (VTaking false) VNone VNone hs hs 0 0 ths.
    all: try row_rest. 
    + intros Ha. apply undo_none. counting.
    + intros _ Hd. assert (draining (sh_commits (sh c)) = true); [|congruence].
      eapply (si_refused c Hsi); [by eapply list_elem_of_lookup_2|done].
Qed.

Lemma row_clear k :
  threads c !! i = Some (at_ (Closing row) rn (Call (ClearHold row) k)) →
  row_inv row (mkConfig (mkShared (sh_targets (sh c)) (sh_commits (sh c))
      (clear_dirty row (sh_holds (sh c))) (lock (sh c)))
    (<[i := at_ (Cleared row) rn (k ())]> (threads c) ++ []) (owed c) (adrift c)).
Proof.
  intros Hi. set (ths := _ ++ _).
  row_step Hi (@nil thread) VClosing VCleared VNone hs hs 0 0 ths.
  all: try row_rest.
  apply (undo_kept _ _ _ (sh c) Hi R8); [|by intros ?? ?%not_elem_of_nil|done].
  intros u'. rewrite !view_at by done. naive_solver.
Qed.

(** A reconcile, or the draining that stands in for it *)
Lemma row_reconcile cl k r ow :
  threads c !! i = Some (at_ (Cleared row) rn (Call cl k)) →
  (ow = owed c ∖ {[ row ]} ∨ ow = owed c ∧ draining (sh_commits (sh c)) = true) →
  row_inv row (mkConfig (sh c) (<[i := at_ (Reconciled row) rn (k r)]> (threads c) ++ []) ow (adrift c)).
Proof.
  intros Hi How. set (ths := _ ++ _).
  row_step Hi (@nil thread) VCleared VReconciled VNone hs hs 0 0 ths.
  all: try row_rest.
  - apply (undo_kept _ _ _ (sh c) Hi R8); [|by intros ?? ?%not_elem_of_nil|done].
    intros u'. rewrite !view_at by done. naive_solver.
  - intros Hd Ho. destruct How as [->|[-> ?]]; [set_solver|congruence].
Qed.

(** Letting the row go: no check holds the lock, and none is held *)
Lemma row_release k cm :
  threads c !! i = Some (at_ (Reconciled row) rn (Call (ReleaseUnheld row) k)) →
  lock (sh c) = None → row ∉ dirty (sh_holds (sh c)) → Done row (sh_commits (sh c)) = Some cm →
  row_inv row (mkConfig (set_commits (sh c) cm)
    (<[i := at_ Idle rn (k true)]> (threads c) ++ []) (owed c) (adrift c)).
Proof.
  intros Hi Hlock Hdirty Hdone. set (ths := _ ++ _).
  assert (0 < running_of row (sh_commits (sh c)))%Z as Hr.
  { rewrite (ri_running _ _ Hri). pose proof (total_ge (in_commit row) (threads c) _
      ltac:(by eapply list_elem_of_lookup_2)) as Hg. unfold in_commit at 1 in Hg.
    rewrite view_at in Hg by done. simpl in Hg. lia. }
  pose proof (running_of_Done row row _ _ Hdone Hr) as Hrun. rewrite decide_True in Hrun by done.
  destruct (Done_wg _ _ _ Hdone) as [_ Hd'].
  assert (∀ n, running cm !! row = Some n → (0 < n)%Z) as Hpos.
  { intros n Hn. unfold Done in Hdone. case_match; simplify_eq. simpl in *.
    destruct (Z.leb_spec (running_of row (sh_commits (sh c)) - 1) 0)%Z;
      [by rewrite lookup_delete_eq in Hn|rewrite lookup_insert_eq in Hn; simplify_eq; lia]. }
  assert (total (found row) (threads c) = 0) as Hfound.
  { apply total_zero. intros x [j Hj]%list_elem_of_lookup. unfold found.
    destruct (at_phase (here x)) eqn:Hx; try done. exfalso.
    pose proof (si_lock c Hsi j x Hj) as Hl. unfold holding in Hl. rewrite Hx in Hl.
    by rewrite Hl in Hlock. }
  row_step Hi (@nil thread) VReconciled VNone VNone hs hs 0 0 ths.
  all: rewrite ?Hd'; try exact Hpos; try (by rewrite Hrun; counting); try row_rest.
  - apply (undo_kept _ _ _ (sh c) Hi R8); [|by intros ?? ?%not_elem_of_nil|done].
    intros u'. rewrite view_none by done. naive_solver.
  - intros Ha Hd [Ho|Hf]; [|counting]. destruct (R10 Hd Ho); [done|]. clear R11. counting.
Qed.

(** A check is held: the row was found settling, and the lock kept it from being let go *)
Lemma row_mark k :
  threads c !! i = Some (at_ (Holding (Some row)) rn (Call (MarkHold row) k)) →
  row_inv row (mkConfig (mkShared (sh_targets (sh c)) (sh_commits (sh c))
      (mark_dirty row (sh_holds (sh c))) (lock (sh c)))
    (<[i := at_ (Holding (Some row)) rn (k ())]> (threads c) ++ []) ({[ row ]} ∪ owed c) (adrift c)).
Proof.
  intros Hi. set (ths := _ ++ _).
  assert (found row (at_ (Holding (Some row)) rn (Call (MarkHold row) k)) = 1) as Hf.
  { unfold found. simpl. by rewrite decide_True. }
  assert (found row (at_ (Holding (Some row)) rn (k ())) = 1) as Hf'.
  { unfold found. simpl. by rewrite decide_True. }
  pose proof (total_ge (found row) (threads c) _ ltac:(by eapply list_elem_of_lookup_2)) as Hg.
  rewrite Hf in Hg.
  row_step Hi (@nil thread) VNone VNone VNone hs hs 1 1 ths.
  all: try row_rest.
  - apply (undo_kept _ _ _ (sh c) Hi R8); [|by intros ?? ?%not_elem_of_nil|done].
    intros u'. rewrite view_none by done. naive_solver.
  - intros _ _. left. simpl. set_solver.
Qed.

(** A check finds the row settling *)
Lemma row_found s0 cl k r :
  threads c !! i = Some (at_ (Holding s0) rn (Call cl k)) →
  Pending row (sh_targets (sh c)) = true ∨ (0 < running_of row (sh_commits (sh c)))%Z →
  row_inv row (mkConfig (sh c) (<[i := at_ (Holding (Some row)) rn (k r)]> (threads c) ++ [])
    (owed c) (adrift c)).
Proof.
  intros Hi Hset. set (ths := _ ++ _).
  assert (found row (at_ (Holding (Some row)) rn (k r)) = 1) as Hf'.
  { unfold found. simpl. by rewrite decide_True. }
  set (f := found row (at_ (Holding s0) rn (mret ()))).
  row_step Hi (@nil thread) VNone VNone VNone hs hs f 1 ths.
  all: try row_rest.
  - apply (undo_kept _ _ _ (sh c) Hi R8); [|by intros ?? ?%not_elem_of_nil|done].
    intros u'. rewrite view_none by done. naive_solver.
  - intros Ha Hd _. clear R11. destruct Hset as [Hp|Hr]; [rewrite Hp in *|]; counting.
Qed.
End concerned.
