(* ===== verification/LifecycleRuns.v ===== *)
(** * What the interleaved goroutines keep to

    Every step keeps the invariants of [LifecycleRaces]; so at most one update of a
    row is under way, a drain that found nothing to wait for is final, and a check
    that was held is not lost. *)

From S2P Require Import Prelude Errors GoStrings Domain Steps Manifest Runtime Graph Brackets Prog Lifecycle LifecycleProtocol LifecycleRaces LifecycleRows.

(** ** The invariant is kept *)

(** Operations on another row *)
Lemma others_same row ns :
  row ≠ ns →
  (∀ a t, remembered (Put ns a t).2 !! row = remembered t !! row) ∧
  (∀ u t, remembered (Undo ns u t) !! row = remembered t !! row) ∧
  (∀ t, remembered (Take ns t).2 !! row = remembered t !! row) ∧
  (∀ c, running (Begin ns c).2 !! row = running c !! row) ∧
  (∀ c c', Done ns c = Some c' → running c' !! row = running c !! row).
Proof.
  intros Hne. split_and!; intros.
  - unfold Put. simpl. by rewrite lookup_insert_ne.
  - unfold Undo. repeat case_match; simpl; try done; [by rewrite lookup_insert_ne|by rewrite lookup_delete_ne].
  - unfold Take. simpl. by rewrite lookup_delete_ne.
  - unfold Begin. case_match; [done|]. simpl. by rewrite lookup_insert_ne.
  - unfold Done in *. case_match; [done|]. simplify_eq. simpl.
    case_match; [by rewrite lookup_delete_ne|by rewrite lookup_insert_ne].
Qed.

Lemma Begin_draining ns c : draining (Begin ns c).2 = draining c.
Proof. unfold Begin. by destruct (draining c) eqn:H. Qed.

Section kept.
Context (fuel : nat) (row : Namespace) (c : config) (Hri : row_inv row c) (Hsi : shared_inv c).

Abbreviation at_ hs ph rn p := (mkThread (mkPlace hs ph) rn p).

Ltac frame Hi :=
  eapply (row_frame row c _ _ _ _ _ Hri Hi); [reflexivity|split_and!|by intros ? ?%not_elem_of_nil|..];
  simpl; try done.

(** The step a call makes keeps the row's invariant. *)
Definition keeps (cl : call) : Prop :=
  ∀ i hs ph rn k r s' accepted rt,
  threads c !! i = Some (at_ hs ph rn (Call cl k)) → serve i (sh c) cl r = Some s' →
  may (mkPlace hs ph) cl → truthful cl r accepted → run_of cl rt →
  let t := at_ hs ph rn (Call cl k) in
  let after := moves brackets_protocol (mkPlace hs ph) cl r in
  row_inv row (mkConfig s' (<[i := mkThread after (next_ran t cl accepted) (k r)]> (threads c) ++
    spawned fuel cl accepted rt) (next_owed cl (owed c)) (next_adrift t cl after (adrift c))).

Ltac start_keeps :=
  intros i hs ph rn k r s' accepted rt Hi Hs Hm Hok Hrt t after; subst t after;
  simpl in Hm; served Hs; try subst s'; cbn [spawned next_ran next_owed next_adrift run_of truthful] in *.

(** Calls that move nothing *)
Lemma keeps_neutral cl : neutral cl = true → (∀ ns, cl ≠ GetState ns) → keeps cl.
Proof.
  intros Hn Hg. destruct cl; try done; try (by exfalso; eapply Hg); start_keeps; by frame Hi.
Qed.

Lemma keeps_begin_install ns vars : keeps (BeginInstall ns vars).
Proof. start_keeps. by frame Hi. Qed.

Lemma keeps_advance ns target : keeps (Advance ns target).
Proof. start_keeps. by frame Hi. Qed.

(** A view of another row's phase *)
Lemma view_other l ph r p : mentions ph ≠ Some row → view_of row (mkThread (mkPlace l ph) r p) = VNone.
Proof. apply view_none. Qed.

Lemma keeps_refresh ns target : keeps (RefreshToTarget ns target).
Proof.
  start_keeps. simpl. destruct Hm as [[-> Hin]| ->]; simpl; [|by frame Hi].
  destruct (is_ok r); [|by frame Hi].
  destruct (decide (ns = row)) as [->|Hne].
  - eapply row_only; [done..|by apply view_at|by apply view_at|done|done|by left].
  - frame Hi; rewrite !view_none; simpl; congruence.
Qed.

Lemma keeps_get_state ns : keeps (GetState ns).
Proof.
  start_keeps. simpl. destruct ph; simpl; try by frame Hi.
  destruct r as [[]|]; try by frame Hi. case_bool_decide as Hns; [subst ns0|by frame Hi]. simpl.
  destruct (decide (ns = row)) as [->|Hne].
  - destruct rn.
    + eapply row_only; [done..|by apply view_at|by apply view_at|done|done|by left].
    + eapply row_drift; [done|done|exact Hi|done|by apply view_at|by apply view_at|done..|]. simpl. set_solver.
  - frame Hi; [rewrite !view_none; simpl; congruence|]. destruct rn; set_solver.
Qed.

Lemma keeps_open ns : keeps (OpenBracket ns).
Proof.
  start_keeps; [|by frame Hi]. rename x into t', a into u. destruct u.
  destruct (decide (ns = row)) as [->|Hne].
  - by apply row_open.
  - destruct (occupied_Open ns row _ _ H) as (_ & Hrem & _ & Ho). rewrite decide_False in Ho by done.
    frame Hi; [|by rewrite Hrem]. unfold holds_bracket. simpl. by rewrite filter_cons_False.
Qed.

Lemma keeps_close ns : keeps (CloseBracket ns).
Proof.
  start_keeps. destruct Hm as [Hh Hset]. destruct r. destruct (decide (ns = row)) as [->|Hne].
  - by apply row_close.
  - destruct hs as [|x hs]; simplify_eq/=. frame Hi.
    + case_bool_decide as Hph; [rewrite !view_none; simpl; congruence|].
      unfold view_of. simpl. done.
    + unfold holds_bracket. simpl. by rewrite filter_cons_False.
    + unfold found. simpl. case_bool_decide as Hph; [|done]. by destruct ph.
    + by rewrite occupied_release, decide_False.
Qed.

Lemma keeps_pending ns : keeps (TargetPending ns).
Proof.
  start_keeps. destruct ph; try by frame Hi; destruct r.
  - destruct r; [by frame Hi|]. simpl. case_bool_decide as Hin; [|by frame Hi].
    destruct (decide (ns = row)) as [->|Hne].
    + eapply row_only; [done..|by apply view_none|by apply view_at|done|done|].
      do 3 right; left. done.
    + frame Hi. rewrite !view_none; simpl; congruence.
  - simpl. destruct r; [by frame Hi|]. subst ns0. rewrite bool_decide_eq_true_2 by done. simpl.
    destruct (decide (ns = row)) as [->|Hne].
    + destruct rn.
      * eapply row_only; [done..|by apply view_at|by apply view_at|done|done|by left].
      * eapply row_drift; [done|done|exact Hi|done|by apply view_at|by apply view_at|done..|]. simpl. set_solver.
    + frame Hi; [rewrite !view_none; simpl; congruence|]. destruct rn; set_solver.
  - destruct r; [|by frame Hi]. simpl. destruct (decide (ns = row)) as [->|Hne].
    + eapply row_found; [done..|]. by left.
    + eapply row_only; [done..|by apply view_none|by apply view_none|done| |by left].
      unfold found. simpl. rewrite decide_False by done. lia.
Qed.

Lemma keeps_in_flight ns : keeps (CommitInFlight ns).
Proof.
  start_keeps. destruct ph; try by frame Hi; destruct r.
  - subst ns0. simpl. destruct (decide (ns = row)) as [->|Hne].
    + destruct r; simpl.
      * eapply row_only; [done..|by apply view_at|by apply view_none|done|done|]. right; by left.
      * rewrite bool_decide_eq_true_2 by done.
        eapply row_only; [done..|by apply view_at|by apply view_at|done|done|].
        do 2 right; left. split_and!; [done..|]. unfold InFlight in Hans. symmetry in Hans.
        apply Z.ltb_ge in Hans. pose proof (ri_running _ _ Hri). lia.
    + destruct r; [|rewrite bool_decide_eq_true_2 by done];
        frame Hi; rewrite !view_none; simpl; congruence.
  - destruct r; [|by frame Hi]. simpl. destruct (decide (ns = row)) as [->|Hne].
    + eapply row_found; [done..|]. right. unfold InFlight in Hans. symmetry in Hans.
      by apply Z.ltb_lt in Hans.
    + eapply row_only; [done..|by apply view_none|by apply view_none|done| |by left].
      unfold found. simpl. rewrite decide_False by done. lia.
Qed.

Lemma keeps_put ns target : keeps (TargetPut ns target).
Proof.
  start_keeps. destruct Hm as [-> Hin]. apply bool_decide_eq_true_1 in Hans as ->.
  destruct (decide (ns = row)) as [->|Hne]; [by apply row_put|].
  frame Hi; [rewrite !view_none; simpl; congruence|].
  by apply (others_same row ns ltac:(congruence)).
Qed.

Lemma keeps_begin_update ns vars ref : keeps (BeginUpdate ns vars ref).
Proof.
  start_keeps. destruct ph; try done. destruct Hm as [-> <-]. simpl.
  destruct (decide (ns = row)) as [->|Hne]; [by eapply row_begin_update|].
  eapply (row_frame row c _ _ _ _ _ Hri Hi); [reflexivity|split_and!|..]; simpl; try done.
  - destruct (is_ok r); rewrite !view_none; simpl; congruence.
  - by destruct (is_ok r).
  - intros x Hx. destruct accepted; [|by apply not_elem_of_nil in Hx].
    apply list_elem_of_singleton in Hx as ->. split_and!; [|done|done].
    unfold end_thread. rewrite view_none; simpl; congruence.
Qed.

Lemma keeps_undo ns u : keeps (TargetUndo ns u).
Proof.
  start_keeps. subst ph. destruct r.
  destruct (decide (ns = row)) as [->|Hne]; [by apply row_undo|].
  frame Hi; [rewrite !view_none; simpl; congruence|..].
  - unfold occupied, Undo. repeat case_match; done.
  - by apply (others_same row ns ltac:(congruence)).
  - destruct rn; set_solver.
Qed.

Lemma keeps_take ns : keeps (TargetTake ns).
Proof.
  start_keeps. destruct (decide (ns = row)) as [->|Hne].
  - apply row_take; [done..|]. simpl. destruct ph; try done; [by left|]. right. subst. eauto.
  - frame Hi.
    + destruct ph; try done. subst. destruct admitted; rewrite !view_none; simpl; congruence.
    + unfold found. simpl. by destruct ph as [| | | | | | | | |? []| | | |].
    + by apply (others_same row ns ltac:(congruence)).
    + destruct (bool_decide (ph = Idle)); set_solver.
Qed.

Lemma keeps_commit_begin ns : keeps (CommitBegin ns).
Proof.
  start_keeps. subst r. destruct (decide (ns = row)) as [->|Hne].
  - pose proof (row_commit_begin row c Hri Hsi i hs rn ph k Hi) as Hrow. simpl.
    destruct ph; try done; subst; apply Hrow; eauto.
  - frame Hi.
    + destruct ph; try done; subst; try case_match; rewrite !view_none; simpl; congruence.
    + unfold found. simpl. destruct ph; try done; simpl; by destruct (Begin ns (sh_commits (sh c))).1.
    + destruct (others_same row ns ltac:(congruence)) as (_ & _ & _ & Hsame & _). apply Hsame.
    + by rewrite Begin_draining.
Qed.

Lemma keeps_clear ns : keeps (ClearHold ns).
Proof.
  start_keeps. subst ph. destruct r. destruct (decide (ns = row)) as [->|Hne]; [by apply row_clear|].
  frame Hi; [rewrite !view_none; simpl; congruence|]. set_solver.
Qed.

Lemma keeps_reconcile ns : keeps (ReconcileVersionBadge ns).
Proof.
  start_keeps. subst ph. destruct (decide (ns = row)) as [->|Hne].
  - eapply row_reconcile; [done..|]. by left.
  - frame Hi; [rewrite !view_none; simpl; congruence|]. set_solver.
Qed.

Lemma keeps_draining : keeps CommitDraining.
Proof.
  start_keeps. destruct ph as [| | | | | | | | | | |ns| |]; try by frame Hi. simpl.
  destruct r; [|by frame Hi]. destruct (decide (ns = row)) as [->|Hne].
  - eapply row_reconcile; [done..|]. right. split; [done|by symmetry].
  - frame Hi. rewrite !view_none; simpl; congruence.
Qed.

Lemma keeps_release ns : keeps (ReleaseUnheld ns).
Proof.
  start_keeps; subst ph.
  - destruct r; [done|]. destruct (decide (ns = row)) as [->|Hne]; simpl.
    + eapply row_only; [done..|by apply view_at|by apply view_at|done|done|]. by do 5 right.
    + frame Hi. rewrite !view_none; simpl; congruence.
  - destruct r; [|done]. apply negb_false_iff, bool_decide_eq_true_1 in Heqb.
    apply bool_decide_eq_false_1 in Heqb0. destruct (decide (ns = row)) as [->|Hne]; simpl.
    + by apply row_release.
    + destruct (others_same row ns ltac:(congruence)) as (_ & _ & _ & _ & Hsame).
      frame Hi; [rewrite !view_none; simpl; congruence|by apply Hsame|].
      by destruct (Done_wg _ _ _ H) as [_ ->].
Qed.

(** A step that may only take a check out of the lock *)
Lemma found_drops i hs ph ph' rn cl k p s' :
  threads c !! i = Some (at_ hs ph rn (Call cl k)) → mentions ph = None → mentions ph' = None →
  ph' = Idle ∨ ph' = Holding None →
  sh_targets s' = sh_targets (sh c) → sh_commits s' = sh_commits (sh c) →
  sh_holds s' = sh_holds (sh c) →
  row_inv row (mkConfig s' (<[i := at_ hs ph' rn p]> (threads c) ++ []) (owed c) (adrift c)).
Proof.
  intros Hi Hph Hph' Hidle Ht Hc Hh. destruct s' as [t' c' h' l]. simpl in *. subst t' c' h'.
  assert (row_inv row (mkConfig (sh c) (<[i := at_ hs ph' rn p]> (threads c) ++ []) (owed c) (adrift c)))
    as [].
  { eapply row_only; [done..|apply view_none; congruence|apply view_none; congruence|done| |by left].
    unfold found. simpl. destruct Hidle as [->| ->]; lia. }
  by split.
Qed.

Lemma keeps_locks cl : cl = LockHolds ∨ cl = UnlockHolds → keeps cl.
Proof.
  intros [->| ->]; start_keeps.
  - subst ph. eapply found_drops; [exact Hi|done|done|by right|done..].
  - destruct ph; try done. eapply found_drops; [exact Hi|done|done|by left|done..].
Qed.

Lemma keeps_mark ns : keeps (MarkHold ns).
Proof.
  start_keeps. subst ph. destruct r. destruct (decide (ns = row)) as [->|Hne]; [by apply row_mark|].
  frame Hi; set_solver.
Qed.

Lemma keeps_drain cl : cl = DrainBegin ∨ cl = DrainAbort → keeps cl.
Proof. intros [->| ->]; start_keeps; by frame Hi. Qed.

Lemma keeps_all cl : keeps cl.
Proof.
  destruct cl;
    first [ by apply keeps_neutral | apply keeps_begin_install | apply keeps_advance
          | apply keeps_refresh | apply keeps_get_state | apply keeps_open | apply keeps_close
          | apply keeps_pending | apply keeps_in_flight | apply keeps_put | apply keeps_begin_update
          | apply keeps_undo | apply keeps_take | apply keeps_commit_begin | apply keeps_clear
          | apply keeps_reconcile | apply keeps_draining | apply keeps_release
          | apply keeps_mark | (apply keeps_locks; by left) | (apply keeps_locks; by right)
          | (apply keeps_drain; by left) | (apply keeps_drain; by right) | idtac ].
  intros ? ? ? ? ? r. destruct r.
Qed.

(** A goroutine that arrives *)
Lemma row_arrive t ad :
  (view_of row t = VNone ∨ row ∈ ad) → commits_of (view_of row t) = 0 →
  is_cleared (view_of row t) = 0 → holds_bracket row t = 0 → found row t = 0 →
  (row ∈ adrift c → row ∈ ad) →
  row_inv row (mkConfig (sh c) (threads c ++ [t]) (owed c) ad).
Proof.
  intros Hv Hc Hcl Hh Hf Had. destruct Hri as [R1 R2 R3 R4 R5 R6 R7 R8 R9 R10 R11].
  assert (∀ f, f t = 0 → total f (threads c ++ [t]) = total f (threads c)) as Htot.
  { intros f H. rewrite total_app. unfold total. simpl. lia. }
  assert (row ∉ ad → view_of row t = VNone ∧ row ∉ adrift c) as Hna by (destruct Hv; naive_solver).
  assert (row ∉ ad → ∀ g : view → nat, g VNone = 0 → g (view_of row t) = 0) as Hg.
  { intros Ha g Hg. destruct (Hna Ha) as [-> _]. done. }
  split; cbn [sh threads owed adrift]; rewrite ?(Htot (holds_bracket row)), ?(Htot (in_commit row)),
    ?(Htot (cleared row)), ?(Htot (found row)) by done; try done.
  1-4: intros Ha; destruct (Hna Ha) as [Hn Ha']; rewrite !Htot by (by apply (Hg Ha)); auto.
  - intros Ha x u [Hx| ->%list_elem_of_singleton]%elem_of_app Hu; destruct (Hna Ha) as [Hn Ha'].
    + by apply (R8 Ha' x u).
    + rewrite Hn in Hu. naive_solver.
  - intros Ha; destruct (Hna Ha) as [Hn Ha']; rewrite !Htot by (by apply (Hg Ha)); auto.
  - intros Ha; destruct (Hna Ha) as [Hn Ha']; rewrite !Htot by (by apply (Hg Ha)); auto.
Qed.
End kept.

Lemma row_inv_step fuel row c c' :
  row_inv row c → shared_inv c → step fuel c c' → row_inv row c'.
Proof.
  intros Hri Hsi Hstep. destruct Hstep as [c p Hp|c rt|c i [[hs ph] rn cd] cl k r s' accepted rt Hi Hc Hs Hok Hrt after].
  - apply row_arrive; [done|by left|done..].
  - apply row_arrive; try done; [|..|set_solver].
    + destruct (decide (RuntimeRef rt = row)) as [->|Hne]; [right; set_solver|left].
      unfold end_thread. apply view_none. simpl. congruence.
    + unfold end_thread, view_of. simpl. by case_decide.
    + unfold end_thread, view_of. simpl. by case_decide.
  - simpl in Hc. subst cd.
    destruct (called_may c _ cl k Hsi ltac:(by eapply list_elem_of_lookup_2) eq_refl) as [Hm _].
    by apply (keeps_all fuel row c Hri Hsi cl i hs ph rn k r s' accepted rt).
Qed.

Lemma row_inv_start row : row_inv row start_config.
Proof. split; simpl; try done; intros; unfold total in *; simpl in *; lia || set_solver. Qed.

Lemma shared_inv_start : shared_inv start_config.
Proof. split; simpl; try done; intros; set_solver. Qed.

Lemma reachable_inv fuel c : reachable fuel c → shared_inv c ∧ ∀ row, row_inv row c.
Proof.
  intros Hr. unfold reachable in Hr.
  assert (∀ a b, rtc (step fuel) a b → (shared_inv a ∧ ∀ row, row_inv row a) →
    shared_inv b ∧ ∀ row, row_inv row b) as H.
  { intros a b Hab. induction Hab as [|x y z Hxy _ IH]; [done|]. intros [Hs Hrow]. apply IH.
    split; [by eapply shared_inv_step|]. intros row. by eapply row_inv_step. }
  apply (H _ _ Hr). split; [apply shared_inv_start|apply row_inv_start].
Qed.

(** ** What follows *)

Lemma total_two f l i j t t' :
  i ≠ j → l !! i = Some t → l !! j = Some t' → f t + f t' <= total f l.
Proof.
  revert i j. induction l as [|x l IH]; intros [|i] [|j] Hij Hi Hj; simplify_eq/=; unfold total in *; simpl.
  - pose proof (total_ge f l t' ltac:(by eapply list_elem_of_lookup_2)). unfold total in *. lia.
  - pose proof (total_ge f l t ltac:(by eapply list_elem_of_lookup_2)). unfold total in *. lia.
  - specialize (IH i j ltac:(congruence) Hi Hj). lia.
Qed.

Lemma holds_bracket_pos row t : row ∈ held (here t) → 1 <= holds_bracket row t.
Proof.
  intros Hin. unfold holds_bracket.
  assert (row ∈ filter (λ ns, ns = row) (held (here t))) as Hf by (by apply list_elem_of_filter).
  destruct (filter _ _); [by apply not_elem_of_nil in Hf|simpl; lia].
Qed.

(** The goroutines between the put of a row's target and the end of its settling, and
    those of them an update of the row would have to wait for *)
Definition updating (row : Namespace) (t : thread) : Prop := 0 < active row t.
Definition unsettled (row : Namespace) (t : thread) : Prop := 0 < owner row t + in_commit row t.

(** C3. However the goroutines interleave, a bracket is held by one of them at a time,
    and as long as a row is not adrift at most one update of it is anywhere between the
    moment its target is remembered and the moment its settling let the row go.  What
    [Settling] reads of the row at any instant is exactly whether there is one, so an
    update that was let through found none, and the next is refused until this one is
    settled. *)
Theorem one_update_at_a_time fuel c row :
  reachable fuel c →
  (∀ i j t t', threads c !! i = Some t → threads c !! j = Some t' →
    row ∈ held (here t) → row ∈ held (here t') → i = j) ∧
  (row ∉ adrift c →
    (∀ i j t t', threads c !! i = Some t → threads c !! j = Some t' →
      updating row t → updating row t' → i = j) ∧
    (Pending row (sh_targets (sh c)) || InFlight row (sh_commits (sh c)) = true ↔
      ∃ t, t ∈ threads c ∧ unsettled row t)).
Proof.
  intros [Hsi Hrow]%reachable_inv. destruct (Hrow row) as [R1 R2 R3 R4 R5 R6 R7 R8 R9 R10 R11].
  pose proof (b2n_le (occupied row (sh_targets (sh c)))). split; [|intros Ha; split].
  - intros i j t t' Hi Hj Ht Ht'. destruct (decide (i = j)) as [|Hij]; [done|].
    pose proof (total_two (holds_bracket row) _ i j t t' Hij Hi Hj).
    apply holds_bracket_pos in Ht, Ht'. lia.
  - intros i j t t' Hi Hj Ht Ht'. destruct (decide (i = j)) as [|Hij]; [done|].
    pose proof (total_two (active row) _ i j t t' Hij Hi Hj). specialize (R9 Ha).
    unfold updating in *. lia.
  - specialize (R4 Ha). unfold InFlight. rewrite R2. split.
    + intros Hset. assert (0 < total (owner row) (threads c) ∨ 0 < total (in_commit row) (threads c)) as Hpos.
      { destruct (Pending _ _); [left; simpl in R4; lia|right]. simpl in Hset. apply Z.ltb_lt in Hset. lia. }
      destruct Hpos as [Hpos|Hpos]; apply total_pos in Hpos as (t & Ht & Hf);
        exists t; (split; [done|]); unfold unsettled; lia.
    + intros (t & Ht & Hf). unfold unsettled in Hf.
      pose proof (total_ge (owner row) _ t Ht). pose proof (total_ge (in_commit row) _ t Ht).
      apply orb_true_iff. destruct (Pending _ _); [by left|right]. simpl in R4.
      apply Z.ltb_lt. lia.
Qed.

(** The goroutine has still to derive the row's badge, or will find the held check. *)
Definition will_derive (row : Namespace) (c : config) (t : thread) : Prop :=
  match view_of row t with
  | VRemembered _ | VRefused _ | VEnding | VTaking true | VAbandoned | VClosing | VCleared => True
  | VReconciled => row ∈ dirty (sh_holds (sh c))
  | _ => False
  end.

(** C14. A version check that was held while its row settled is not lost: as long as the
    row is not adrift and the daemon is not shutting down, some goroutine of the row has
    still to derive its badge, or has found the check and will go round again. *)
Theorem held_check_not_lost fuel c row :
  reachable fuel c → row ∉ adrift c → draining (sh_commits (sh c)) = false → row ∈ owed c →
  ∃ t, t ∈ threads c ∧ will_derive row c t.
Proof.
  intros [Hsi Hrow]%reachable_inv Ha Hd Ho. pose proof (ri_owed _ _ (Hrow row) Hd Ho) as Hdirty.
  destruct (decide (0 < total (cleared row) (threads c))) as [Hc|Hc].
  - apply total_pos in Hc as (t & Ht & Hf). exists t. split; [done|].
    unfold will_derive. unfold cleared in Hf. destruct (view_of row t); simpl in Hf; lia || done.
  - destruct (total_pos (active row) (threads c)) as (t & Ht & Hf).
    { apply (ri_needed _ _ (Hrow row) Ha Hd). by left. }
    exists t. split; [done|]. unfold will_derive. unfold active in Hf.
    destruct (view_of row t) as [| | | | | | |[]| | |] eqn:Hv; simpl in Hf; try lia; try done.
    + unfold view_of in Hv. case_decide; [|done].
      assert (∃ ns, at_phase (here t) = Taking ns false) as [ns Hph].
      { destruct (at_phase (here t)); simpl in Hv; try done; [by destruct (ran t)|]. simplify_eq. eauto. }
      pose proof (si_refused c Hsi t ns Ht Hph). congruence.
    + destruct Hdirty; [done|lia].
Qed.

(** While draining no goroutine starts a settling. *)
Lemma drain_starts_none i s t cl r s' rn p :
  serve i s cl r = Some s' → may (here t) cl → draining (sh_commits s) = true →
  in_any_commit t = 0 →
  in_any_commit (mkThread (moves brackets_protocol (here t) cl r) rn p) = 0.
Proof.
  intros Hs Hm Hd. destruct t as [[hs ph] rn' code]. unfold in_any_commit.
  destruct cl; served Hs; simpl in *; try done; destruct ph; simpl in *; try done;
    repeat case_match; simplify_eq/=; try done; try lia.
  all: unfold Begin in *; rewrite Hd in *; done.
Qed.

Lemma drained_step fuel c c' :
  shared_inv c → step fuel c c' → draining (sh_commits (sh c)) = true →
  total in_any_commit (threads c) = 0 →
  draining (sh_commits (sh c')) = true ∧ total in_any_commit (threads c') = 0.
Proof.
  intros Hsi Hstep Hd Hz.
  destruct Hstep as [c p Hp|c rt|c i t cl k r s' accepted rt Hi Hc Hs Hok Hrt after]; simpl.
  - rewrite total_app. unfold total in *. simpl. split; [done|lia].
  - rewrite total_app. unfold total in *. simpl. split; [done|lia].
  - destruct (called_may c t cl k Hsi ltac:(by eapply list_elem_of_lookup_2) Hc) as [Hm _].
    destruct (serve_draining _ _ _ _ _ _ Hs Hm) as [Hdr _]. split; [by apply Hdr|].
    pose proof (total_ge in_any_commit _ t ltac:(by eapply list_elem_of_lookup_2)).
    pose proof (total_called in_any_commit i t (mkThread after (next_ran t cl accepted) (k r))
      (threads c) (spawned fuel cl accepted rt) Hi) as Ht.
    pose proof (drain_starts_none i (sh c) t cl r s' (next_ran t cl accepted) (k r) Hs Hm Hd
      ltac:(lia)) as Hnone. fold after in Hnone. rewrite Hnone in Ht.
    rewrite (total_zero in_any_commit (spawned _ _ _ _)) in Ht by (intros x ->%spawned_elem; done). lia.
Qed.

(** The commits that are registered are those of the goroutines that settle. *)
Lemma idle_commits fuel c :
  reachable fuel c → running (sh_commits (sh c)) = ∅ ∨ wg (sh_commits (sh c)) = 0%Z →
  total in_any_commit (threads c) = 0.
Proof.
  intros [Hsi Hrow]%reachable_inv [Hidle|Hwg]; [|pose proof (si_wg c Hsi); lia].
  apply total_zero. intros t Ht. unfold in_any_commit.
  assert (∀ ns, mentions (at_phase (here t)) = Some ns →
    commits_of (view_of_phase (at_phase (here t)) (ran t)) = 0) as Hnone.
  { intros ns Hns. pose proof (ri_running _ _ (Hrow ns)) as Hr. unfold running_of in Hr.
    rewrite Hidle, lookup_empty in Hr. simpl in Hr.
    pose proof (total_ge (in_commit ns) _ t Ht) as Hg. unfold in_commit at 1 in Hg. unfold view_of in Hg.
    rewrite decide_True in Hg by done. lia. }
  destruct (at_phase (here t)); simpl in *; try done; by apply (Hnone _ eq_refl).
Qed.

(** The goroutine is in no settling of the row. *)
Definition not_settling (ns : Namespace) (t : thread) : Prop :=
  at_phase (here t) ≠ Closing ns ∧ at_phase (here t) ≠ Cleared ns ∧ at_phase (here t) ≠ Reconciled ns.

(** C15. A drain is final.  Letting a row go never drives the wait group below zero,
    which would panic; and once [Drain] saw no commit in flight, or waited until there
    was none, no settling runs and none starts, so closing the stores is safe. *)
Theorem drain_is_final fuel c :
  reachable fuel c →
  (∀ t ns k, t ∈ threads c → code t = Call (ReleaseUnheld ns) k → Done ns (sh_commits (sh c)) ≠ None) ∧
  (draining (sh_commits (sh c)) = true →
   running (sh_commits (sh c)) = ∅ ∨ wg (sh_commits (sh c)) = 0%Z →
   ∀ c' t ns, rtc (step fuel) c c' → t ∈ threads c' → not_settling ns t).
Proof.
  intros Hr. destruct (reachable_inv fuel c Hr) as [Hsi Hrow]. split.
  - intros t ns k Ht Hc. destruct (called_may c t _ k Hsi Ht Hc) as [Hm _]. simpl in Hm.
    pose proof (total_ge in_any_commit _ t Ht) as Hg. unfold in_any_commit at 1 in Hg. rewrite Hm in Hg.
    pose proof (si_wg c Hsi). unfold Done. destruct (Z.ltb_spec (wg (sh_commits (sh c)) - 1) 0); [lia|done].
  - intros Hd Hidle c' t ns Hsteps Ht.
    assert (shared_inv c' ∧ total in_any_commit (threads c') = 0) as [_ Hz].
    { pose proof (idle_commits fuel c Hr Hidle) as Hz. clear Hr Hrow Hidle Ht.
      induction Hsteps as [|x y z Hxy _ IH]; [done|].
      destruct (drained_step _ _ _ Hsi Hxy Hd Hz) as [Hd' Hz'].
      apply IH; [by eapply shared_inv_step|done..]. }
    pose proof (total_ge in_any_commit _ t Ht) as Hg. unfold in_any_commit at 1 in Hg.
    split_and!; intros Hph; rewrite Hph in Hg; lia.
Qed.

(** ** A run *)

(** The run whose end an accepted update delivers *)
Definition run_for (cl : call) : ArrowRuntime :=
  match cl with
  | BeginUpdate ns _ _ => mkRuntime ns ArrowStateReady None None None
  | _ => mkRuntime "" ArrowStateReady None None None
  end.

Definition accepts_run (cl : call) : answer cl → bool :=
  match cl with BeginUpdate _ _ _ => λ r, is_ok r | _ => λ _, false end.

(** Goroutine [i] makes its next call, answered by [answers]. *)
Definition call_step (fuel : nat) (c : config) (s : nat * (∀ cl, option (answer cl))) : option config :=
  t ← threads c !! s.1;
  match code t with
  | Return _ => None
  | Call cl k =>
    r ← s.2 cl;
    s' ← serve s.1 (sh c) cl r;
    let after := moves brackets_protocol (here t) cl r in
    Some (mkConfig s'
      (<[s.1 := mkThread after (next_ran t cl (accepts_run cl r)) (k r)]> (threads c) ++
       spawned fuel cl (accepts_run cl r) (run_for cl))
      (next_owed cl (owed c)) (next_adrift t cl after (adrift c)))
  end.

Lemma call_step_sound fuel c s c' : call_step fuel c s = Some c' → step fuel c c'.
Proof.
  unfold call_step. destruct (threads c !! s.1) as [t|] eqn:Hi; simpl; [|done].
  destruct (code t) as [|cl k] eqn:Hc; [done|]. destruct (s.2 cl) as [r|]; simpl; [|done].
  destruct (serve s.1 (sh c) cl r) as [s'|] eqn:Hs; simpl; intros; simplify_eq.
  apply (step_call fuel c s.1 t cl k r s' (accepts_run cl r) (run_for cl)
    Hi Hc Hs); destruct cl; simpl; auto.
Qed.

Fixpoint call_steps (fuel : nat) (c : config) (l : list (nat * (∀ cl, option (answer cl)))) : option config :=
  match l with
  | [] => Some c
  | s :: l' => c' ← call_step fuel c s; call_steps fuel c' l'
  end.

Lemma call_steps_sound fuel c l c' : call_steps fuel c l = Some c' → rtc (step fuel) c c'.
Proof.
  revert c. induction l as [|s l IH]; intros c H; simplify_eq/=; [done|].
  destruct (call_step fuel c s) as [c1|] eqn:H1; simplify_eq/=.
  eapply rtc_l; [by eapply call_step_sound|by apply IH].
Qed.

(** An update of a row, up to the put of its target, and a version check of the row *)
Definition two_goroutines : config :=
  mkConfig new_shared [mkThread at_rest false (ignore (Update 1 "x/app@1" ∅));
    mkThread at_rest false (ignore (HoldBadge "x/app@1"))] ∅ ∅.

Definition by_update : nat * (∀ cl, option (answer cl)) := (0, λ cl, refused_update cl 0).

Definition by_check : nat * (∀ cl, option (answer cl)) :=
  (1, λ cl, match cl return option (answer cl) with
            | TargetPending _ => Some true
            | LockHolds | MarkHold _ | UnlockHolds => Some ()
            | _ => None
            end).

Definition held_while_updating : option config :=
  call_steps 1 two_goroutines (repeat by_update 12 ++ repeat by_check 4).

Lemma two_goroutines_reachable : reachable 1 two_goroutines.
Proof.
  unfold reachable.
  eapply rtc_l; [exact (step_arrive 1 _ _ (go_update 1 "x/app@1" ∅))|].
  eapply rtc_l; [exact (step_arrive 1 _ _ (go_hold 1 "x/app@1"))|].
  apply rtc_refl.
Qed.

Lemma held_check_not_lost_witness :
  match held_while_updating with
  | Some c => "x/app@1" ∈ owed c ∧ Pending "x/app@1" (sh_targets (sh c)) = true ∧
      ∃ t, t ∈ threads c ∧ will_derive "x/app@1" c t
  | None => False
  end.
Proof.
  destruct held_while_updating as [c|] eqn:H; [|vm_compute in H; discriminate].
  assert (reachable 1 c) as Hr.
  { unfold reachable. etrans; [apply two_goroutines_reachable|]. by eapply call_steps_sound. }
  assert (bool_decide ("x/app@1" ∈ owed c ∧ "x/app@1" ∉ adrift c) = true ∧
    draining (sh_commits (sh c)) = false ∧ Pending "x/app@1" (sh_targets (sh c)) = true) as (Ho & Hd & Hp).
  { clear Hr. vm_compute in H. injection H as <-. split_and!; vm_compute; reflexivity. }
  apply bool_decide_eq_true_1 in Ho as [Ho Ha]. split_and!; [done|done|].
  destruct (held_check_not_lost 1 c "x/app@1" Hr Ha Hd Ho) as (t & Ht & Hw). exact (ex_intro _ t (conj Ht Hw)).
Defined.

Lemma one_update_at_a_time_witness :
  match held_while_updating with
  | Some c => ∃ t, t ∈ threads c ∧ unsettled "x/app@1" t
  | None => False
  end.
Proof.
  destruct held_while_updating as [c|] eqn:H; [|vm_compute in H; discriminate].
  assert (reachable 1 c) as Hr.
  { unfold reachable. etrans; [apply two_goroutines_reachable|]. by eapply call_steps_sound. }
  assert (bool_decide ("x/app@1" ∉ adrift c) = true ∧
    Pending "x/app@1" (sh_targets (sh c)) || InFlight "x/app@1" (sh_commits (sh c)) = true) as (Ha & Hp).
  { clear Hr. vm_compute in H. injection H as <-. split; vm_compute; reflexivity. }
  apply bool_decide_eq_true_1 in Ha.
  by apply (proj2 (proj2 (one_update_at_a_time 1 c "x/app@1" Hr) Ha)).
Defined.

(** A drain that finds nothing in flight *)
Definition one_drain : config := mkConfig new_shared [mkThread at_rest false (ignore Drain)] ∅ ∅.

Definition drained : option config :=
  call_step 1 one_drain (0, λ cl, match cl return option (answer cl) with
                                  | DrainBegin => Some true
                                  | _ => None
                                  end).

Lemma drain_is_final_witness :
  match drained with
  | Some c => draining (sh_commits (sh c)) = true ∧
      ∀ c' t ns, rtc (step 1) c c' → t ∈ threads c' → at_phase (here t) ≠ Closing ns
  | None => False
  end.
Proof.
  destruct drained as [c|] eqn:H; [|vm_compute in H; discriminate].
  assert (reachable 1 c) as Hr.
  { unfold reachable. eapply rtc_l; [exact (step_arrive 1 _ _ (go_drain 1))|]. eapply rtc_l; [|apply rtc_refl].
    by eapply call_step_sound. }
  assert (draining (sh_commits (sh c)) = true ∧ wg (sh_commits (sh c)) = 0%Z) as [Hd Hw].
  { clear Hr. vm_compute in H. injection H as <-. by split. }
  split; [done|]. intros c' t ns Hs Ht.
  by apply (proj2 (drain_is_final 1 c Hr) Hd (or_intror Hw) c' t ns Hs Ht).
Defined.
