(* ===== verification/RuntimeDrain.v ===== *)
(** * Draining an execution (internal/app/repositories/runtime/internal:
    hooks.go, drain_report.go, send_retry.go, retry.go, surface_probe.go,
    reactions.go)

    A run's events become commands on the runtime aggregate, and its end is
    recorded there and in the catalog.  Several goroutines write one aggregate,
    so the store, the catalog and the wizard are the environment [Env] of this
    component: every call may answer anything and leave the world in any state,
    whatever other goroutines did in between.  A function of the component is a
    state transformer that also writes down what it did, in order, as a list of
    [action]s; the theorems are about that list and hold against every
    environment.  [Runtime] says what a command does once it is accepted. *)

From S2P Require Import Prelude GoStrings Domain Steps Runtime Trace.

(** ** The environment *)

(** What [errors.Is] finds in an error of the aggregate store *)
Record ax_error := mkAxError {
  is_validation : bool;
  is_superseded : bool;
  is_version_conflict : bool;
  is_pipeline_failed : bool;
  is_dispatcher_closed : bool;
  is_shutting_down : bool;
  is_not_found : bool;
}.

#[export] Instance ax_error_eq_dec : EqDecision ax_error.
Proof. solve_decision. Defined.

Inductive EventKind :=
| EventKindStepStarted | EventKindStepCompleted | EventKindStepFailed
| EventKindPID | EventKindSurface | EventKindSurfaceClosed | EventKindEnded.

#[export] Instance EventKind_eq_dec : EqDecision EventKind.
Proof. solve_decision. Defined.

(** An event of the wizard; [EventErr] is the message and whether the error is
    [ErrChecksumMismatch]. *)
Record Event := mkEvent {
  EventKindOf : EventKind;
  StepIndex : Z;
  EventErr : option (string * bool);
  EventNote : string;
  EventPID : Z;
  EventSurface : option Surface;
}.

Record RunRequest := mkRunRequest {
  req_namespace : Namespace;
  req_method : string;
  req_steps : list Step;
  req_variables : gmap string string;
  req_workdir : string;
  req_pid : Z;
}.

(** A started execution: the events its channel delivers before it is closed,
    and the outcome it has then. *)
Record RunningExecution := mkRunning {
  Events : list Event;
  ExecOutcome : ExecutionOutcome;
}.

(** The calls made on the catalog and the surfaces *)
Inductive hook :=
| MarkInstalled (ns : Namespace)
| MarkUninstalled (ns : Namespace)
| MarkLastUsed (ns : Namespace)
| ReconcileVersionBadge (ns : Namespace)
| RefreshManifest (ns : Namespace) (method : string)
| CloseSurface (ns : Namespace).

(** [set_*] say which of the optional hooks are not nil. *)
Record Env (W : Type) := mkEnv {
  send : Command → W → option ax_error * W;
  get : Namespace → W → result ax_error ArrowRuntime * W;
  call : hook → W → bool * W;
  reassemble : Namespace → string → gmap string string → W → option (list Step) * W;
  start : RunRequest → W → RunningExecution * W;
  surface_ready : Namespace → Surface → W → bool * W;
  ctx_done : W → bool;
  set_ReconcileVersionBadge : bool;
  set_RefreshManifest : bool;
  set_Reassemble : bool;
  set_SurfaceReady : bool;
  set_CloseSurface : bool;
}.
Arguments send {W} _ _ _. Arguments get {W} _ _ _. Arguments call {W} _ _ _.
Arguments reassemble {W} _ _ _ _ _. Arguments start {W} _ _ _.
Arguments surface_ready {W} _ _ _ _. Arguments ctx_done {W} _ _.
Arguments set_ReconcileVersionBadge {W} _. Arguments set_RefreshManifest {W} _.
Arguments set_Reassemble {W} _. Arguments set_SurfaceReady {W} _.
Arguments set_CloseSurface {W} _.

(** What a function of the component does, as the environment sees it *)
Inductive action :=
| Sent (c : Command) (answer : option ax_error)
| Called (h : hook) (ok : bool)
| Reassembled (ns : Namespace) (method : string)
| Started (req : RunRequest)
| Probing (s : Surface)
| Probed (s : Surface) (ready : bool)
| Waited (milliseconds : Z).

(** ** The monad: the world, and what was done *)

Abbreviation M := (T action).

Section drain.
Context {W : Type} (env : Env W).

Definition do_send (c : Command) : M W (option ax_error) := λ w,
  let '(e, w') := send env c w in (e, w', [Sent c e]).

Definition do_call (h : hook) : M W bool := λ w,
  let '(ok, w') := call env h w in (ok, w', [Called h ok]).

Definition do_reassemble (ns : Namespace) (method : string) (vars : gmap string string)
  : M W (option (list Step)) := λ w,
  let '(r, w') := reassemble env ns method vars w in (r, w', [Reassembled ns method]).

Definition do_start (req : RunRequest) : M W RunningExecution := λ w,
  let '(x, w') := start env req w in (x, w', [Started req]).

Definition do_spawn_probe (s : Surface) : M W unit := λ w, ((), w, [Probing s]).

Definition do_ctx_done : M W bool := λ w, (ctx_done env w, w, []).

Definition do_get (ns : Namespace) : M W (result ax_error ArrowRuntime) := λ w,
  let '(r, w') := get env ns w in (r, w', []).

Definition do_probe (ns : Namespace) (s : Surface) : M W bool := λ w,
  let '(ok, w') := surface_ready env ns s w in (ok, w', [Probed s ok]).

Definition do_wait (d : Z) : M W unit := λ w, ((), w, [Waited d]).

(** ** Sending (send_retry.go) *)

Definition conflictRetryAttempts : nat := 5.

Definition lostWriteRace (err : option ax_error) : bool :=
  match err with
  | None => false
  | Some e => is_version_conflict e && negb (is_dispatcher_closed e)
  end.

(** The attempts left; the wait between two attempts changes nothing here. *)
Fixpoint send_attempts (left : nat) (cmd : Command) : M W (option ax_error) :=
  err ← do_send cmd;
  if negb (lostWriteRace err) then mret err
  else match left with
       | 0 | 1 => mret err
       | S left' =>
         stop ← do_ctx_done;
         if stop : bool then mret err else send_attempts left' cmd
       end.

Definition sendRetryingConflicts (cmd : Command) : M W (option ax_error) :=
  send_attempts conflictRetryAttempts cmd.

(** Whether the aggregate has moved on to another execution *)
Definition superseded_by (err : option ax_error) : bool :=
  match err with None => false | Some e => is_superseded e end.

Definition sendStep (ns : Namespace) (executionID : string) (stepIndex : Z)
  (status : StepStatus) (stepErr : option (string * bool)) (note : string) : M W bool :=
  let errStr := fst <$> stepErr in
  let noteStr := if String.eqb note "" then None else Some note in
  err ← sendRetryingConflicts (AdvanceStep ns executionID stepIndex status errStr noteStr);
  mret (superseded_by err).

Definition sendPID (ns : Namespace) (executionID : string) (pid : Z) : M W bool :=
  err ← sendRetryingConflicts (RecordPID ns executionID pid);
  mret (superseded_by err).

Definition sendSurface (ns : Namespace) (executionID : string) (s : Surface) : M W bool :=
  err ← sendRetryingConflicts (SetSurface ns executionID s);
  mret (superseded_by err).

Definition closeSurface (ns : Namespace) (executionID : string) : M W bool :=
  err ← sendRetryingConflicts (ClearSurface ns executionID);
  if superseded_by err then mret true
  else if set_CloseSurface env then _ ← do_call (CloseSurface ns); mret false
  else mret false.

(** Whether the end landed on the aggregate *)
Definition sendEndExecution (ns : Namespace) (executionID : string)
  (outcome : ExecutionOutcome) : M W bool :=
  err ← sendRetryingConflicts (EndExecution ns executionID outcome);
  mret (match err with None => true | Some _ => false end).

(** ** The report (drain_report.go) *)

Record drainReport := mkReport {
  superseded : bool;
  checksumMismatch : bool;
  surfaceReleased : bool;
}.

Definition observe (r : drainReport) (evt : Event) : drainReport :=
  if negb (bool_decide (EventKindOf evt = EventKindStepFailed)) then r
  else match EventErr evt with
       | Some (_, true) => mkReport (superseded r) true (surfaceReleased r)
       | _ => r
       end.

Definition set_superseded (r : drainReport) (b : bool) : drainReport :=
  mkReport b (checksumMismatch r) (surfaceReleased r).

Definition set_released (r : drainReport) (b : bool) : drainReport :=
  mkReport (superseded r) (checksumMismatch r) b.

(** ** Draining events (hooks.go) *)

(** The body of the loop for an event that is handled *)
Definition drainEvent (ns : Namespace) (executionID : string) (r : drainReport) (evt : Event)
  : M W drainReport :=
  let report := observe r evt in
  match EventKindOf evt with
  | EventKindStepStarted =>
    b ← sendStep ns executionID (StepIndex evt) StepStatusRunning None "";
    mret (set_superseded report b)
  | EventKindStepCompleted =>
    b ← sendStep ns executionID (StepIndex evt) StepStatusCompleted None (EventNote evt);
    mret (set_superseded report b)
  | EventKindStepFailed =>
    b ← sendStep ns executionID (StepIndex evt) StepStatusFailed (EventErr evt) "";
    mret (set_superseded report b)
  | EventKindPID =>
    b ← sendPID ns executionID (EventPID evt);
    mret (set_superseded report b)
  | EventKindSurface =>
    match EventSurface evt with
    | None => mret report
    | Some s =>
      b ← sendSurface ns executionID s;
      _ ← (if b : bool then mret () else do_spawn_probe s);
      mret (set_released (set_superseded report b) false)
    end
  | EventKindSurfaceClosed =>
    b ← closeSurface ns executionID;
    mret (set_released (set_superseded report b) (negb b))
  | EventKindEnded => mret report
  end.

Fixpoint drainEvents_from (ns : Namespace) (executionID : string) (report : drainReport)
  (events : list Event) : M W drainReport :=
  match events with
  | [] => mret report
  | evt :: events' =>
    if superseded report then drainEvents_from ns executionID report events'
    else report' ← drainEvent ns executionID report evt;
         drainEvents_from ns executionID report' events'
  end.

Definition drainEvents (exec : RunningExecution) (ns : Namespace) (executionID : string)
  : M W drainReport :=
  drainEvents_from ns executionID (mkReport false false false) (Events exec).

(** ** Ending (hooks.go) *)

Definition stampCatalog (ns : Namespace) (method : string) : M W unit :=
  if String.eqb method MethodInstall then _ ← do_call (MarkInstalled ns); mret ()
  else if String.eqb method MethodUninstall then _ ← do_call (MarkUninstalled ns); mret ()
  else if String.eqb method MethodExecute then _ ← do_call (MarkLastUsed ns); mret ()
  else mret ().

Definition onEnd (ns : Namespace) (executionID method : string) (outcome : ExecutionOutcome)
  : M W bool :=
  _ ← (match outcome with OutcomeSuccess => stampCatalog ns method | _ => mret () end);
  sendEndExecution ns executionID outcome.

Definition reconcileVersionBadge (ns : Namespace) : M W unit :=
  if set_ReconcileVersionBadge env then _ ← do_call (ReconcileVersionBadge ns); mret ()
  else mret ().

Definition finishExecution (exec : RunningExecution) (report : drainReport) (ns : Namespace)
  (executionID method : string) : M W unit :=
  if superseded report then mret ()
  else
    landed ← onEnd ns executionID method (ExecOutcome exec);
    if negb landed then mret ()
    else
      _ ← (if set_CloseSurface env && negb (surfaceReleased report)
           then _ ← do_call (CloseSurface ns); mret () else mret ());
      if String.eqb method MethodUpdate then mret () else reconcileVersionBadge ns.

Definition drainExecution (exec : RunningExecution) (ns : Namespace)
  (executionID method : string) : M W unit :=
  report ← drainEvents exec ns executionID;
  finishExecution exec report ns executionID method.

(** ** Retrying a checksum mismatch (retry.go) *)

(** [reflect.DeepEqual] on two lists of steps *)
Context (same_steps : list Step → list Step → bool).

Definition worthRetrying (stopped : bool) (exec : RunningExecution) (report : drainReport)
  (method : string) : bool :=
  if negb (checksumMismatch report) || superseded report || stopped then false
  else if negb (String.eqb method MethodInstall) && negb (String.eqb method MethodUpdate)
  then false
  else if negb (set_RefreshManifest env) || negb (set_Reassemble env) then false
  else match ExecOutcome exec with OutcomeFailed => true | _ => false end.

(** [None] is [ok == false]. *)
Definition refreshedSteps (req : RunRequest) : M W (option (list Step)) :=
  ok ← do_call (RefreshManifest (req_namespace req) (req_method req));
  if negb ok then mret None
  else
    r ← do_reassemble (req_namespace req) (req_method req) (req_variables req);
    mret (match r with
          | None => None
          | Some steps => if same_steps steps (req_steps req) then None else Some steps
          end).

Definition restart (ns : Namespace) (executionID : string) (steps : list Step) : M W bool :=
  err ← sendRetryingConflicts (RestartExecution ns executionID steps);
  mret (match err with None => true | Some _ => false end).

Definition set_req_steps (req : RunRequest) (steps : list Step) : RunRequest :=
  mkRunRequest (req_namespace req) (req_method req) steps (req_variables req) (req_workdir req)
    (req_pid req).

Definition retryOnChecksumMismatch (exec : RunningExecution) (report : drainReport)
  (req : RunRequest) (executionID : string) : M W (option RunningExecution) :=
  stopped ← do_ctx_done;
  if negb (worthRetrying stopped exec report (req_method req)) then mret None
  else
    fresh ← refreshedSteps req;
    match fresh with
    | None => mret None
    | Some steps =>
      ok ← restart (req_namespace req) executionID steps;
      if negb ok then mret None
      else x ← do_start (set_req_steps req steps); mret (Some x)
    end.

Definition superviseExecution (exec : RunningExecution) (req : RunRequest)
  (executionID : string) : M W unit :=
  let ns := req_namespace req in
  report ← drainEvents exec ns executionID;
  retried ← retryOnChecksumMismatch exec report req executionID;
  match retried with
  | Some exec' =>
    report' ← drainEvents exec' ns executionID;
    finishExecution exec' report' ns executionID (req_method req)
  | None => finishExecution exec report ns executionID (req_method req)
  end.

(** ** Probing a surface (surface_probe.go)

    Durations are in milliseconds. *)

Definition surfaceProbeInterval : Z := 250.
Definition surfaceProbeMaxInterval : Z := 2000.

Definition nextProbeInterval (current ceiling : Z) : Z := Z.min (current * 2) ceiling.

Definition set_ready (s : Surface) (b : bool) : Surface :=
  mkSurface (Title s) (Mode s) (Path s) (Dir s) b.

(** Whether [s] is still the surface the execution has open, ready or not *)
Definition surfaceOpen (ns : Namespace) (executionID : string) (s : Surface) : M W bool :=
  got ← do_get ns;
  mret (match got with
        | Err _ => false
        | Ok rt =>
          match Exec rt with
          | None => false
          | Some e =>
            if negb (String.eqb (ID e) executionID) then false
            else match Exec_Surface e with
                 | None => false
                 | Some open => bool_decide (set_ready open false = set_ready s false)
                 end
          end
        end).

Definition recordReady (ns : Namespace) (executionID : string) (s : Surface) : M W unit :=
  _ ← sendRetryingConflicts (SetSurface ns executionID s); mret ().

(** The loop takes fuel; [false] is out of fuel, and it returned otherwise. *)
Fixpoint probe_loop (fuel : nat) (ns : Namespace) (executionID : string) (s : Surface)
  (wait maxInterval : Z) : M W bool :=
  match fuel with
  | 0 => mret false
  | S fuel' =>
    open ← surfaceOpen ns executionID s;
    if negb open then mret true
    else
      ready ← do_probe ns s;
      if ready : bool then _ ← recordReady ns executionID (set_ready s true); mret true
      else
        _ ← do_wait wait;
        probe_loop fuel' ns executionID s (nextProbeInterval wait maxInterval) maxInterval
  end.

Definition probeSurface (fuel : nat) (ns : Namespace) (executionID : string) (s : Surface)
  (interval maxInterval : Z) : M W bool :=
  if SurfaceReady s || negb (set_SurfaceReady env) then mret true
  else probe_loop fuel ns executionID s interval maxInterval.

(** ** The reaction to a begun run (reactions.go) *)

Definition stepsFromProgress (steps : list StepProgress) : list Step := map progress_step steps.

(** [wizard] says whether there is one, [tryAddDrain] whether the drain may start. *)
Definition onBegun (wizard : bool) (tryAddDrain : string → bool) (rt : ArrowRuntime) : M W unit :=
  match Exec rt with
  | None => mret ()
  | Some e =>
    if negb wizard then mret () else
    let request := mkRunRequest (RuntimeRef rt) (Exec_Method e) (stepsFromProgress (Steps e))
      (Variables e) (WorkDir e) (PID e) in
    exec ← do_start request;
    if tryAddDrain (Exec_Method e) then superviseExecution exec request (ID e) else mret ()
  end.
End drain.

(** ** The trace of a send *)

Section traces.
Context {W : Type} (env : Env W).

Lemma do_send_emits c : emits (do_send env c) (λ e l, l = [Sent c e]).
Proof. intros w e w' l. unfold do_send. destruct (send env c w) as [x y]. intros H. by simplify_eq. Qed.

Lemma do_call_emits h : emits (do_call env h) (λ ok l, l = [Called h ok]).
Proof. intros w e w' l. unfold do_call. destruct (call env h w) as [x y]. intros H. by simplify_eq. Qed.

Lemma do_reassemble_emits ns m vars :
  emits (do_reassemble env ns m vars) (λ _ l, l = [Reassembled ns m]).
Proof.
  intros w e w' l. unfold do_reassemble. destruct (reassemble _ _ _ _ w) as [x y]. intros H. by simplify_eq.
Qed.

Lemma do_start_emits req : emits (do_start env req) (λ _ l, l = [Started req]).
Proof. intros w e w' l. unfold do_start. destruct (start env req w) as [x y]. intros H. by simplify_eq. Qed.

Lemma do_spawn_probe_emits s : emits (W := W) (do_spawn_probe s) (λ _ l, l = [Probing s]).
Proof. intros w e w' l. unfold do_spawn_probe. intros H. by simplify_eq. Qed.

Lemma do_ctx_done_emits : emits (do_ctx_done env) (λ _ l, l = []).
Proof. intros w e w' l. unfold do_ctx_done. intros H. by simplify_eq. Qed.

(** The same command each time, again only after a lost race *)
Definition send_trace (n : nat) (cmd : Command) (err : option ax_error) (l : list action) : Prop :=
  ∃ races, l = map (λ e, Sent cmd (Some e)) races ++ [Sent cmd err] ∧
    Forall (λ e, lostWriteRace (Some e) = true) races ∧ length races < n.

Lemma send_attempts_emits n cmd :
  0 < n → emits (send_attempts env n cmd) (send_trace n cmd).
Proof.
  induction n as [|n IH]; intros Hn; [lia|]. simpl.
  eapply emits_bind; [apply do_send_emits|]. intros err l ->.
  destruct (lostWriteRace err) eqn:Hl; simpl.
  2: { apply emits_ret. exists []. split_and!; [done|constructor|simpl; lia]. }
  destruct n as [|n]; [apply emits_ret; exists []; split_and!; [done|constructor|simpl; lia]|].
  eapply emits_bind; [apply do_ctx_done_emits|]. intros stop l ->. destruct stop.
  { apply emits_ret. exists []. split_and!; [done|constructor|simpl; lia]. }
  eapply emits_mono; [apply IH; lia|]. intros e l (races & -> & Hr & Hlen).
  destruct err as [x|]; [|done]. exists (x :: races).
  split_and!; [done|by constructor|simpl; lia].
Qed.

Lemma sendRetryingConflicts_emits cmd :
  emits (sendRetryingConflicts env cmd) (send_trace conflictRetryAttempts cmd).
Proof. apply send_attempts_emits. unfold conflictRetryAttempts. lia. Qed.

Lemma sendRetryingConflicts_only P cmd :
  (∀ e, P (Sent cmd e)) → only P (sendRetryingConflicts env cmd).
Proof.
  intros HP. eapply emits_mono; [apply sendRetryingConflicts_emits|].
  intros err l (races & -> & _ & _). apply Forall_app. split; [|by repeat constructor].
  apply Forall_fmap, Forall_forall. intros e _. apply HP.
Qed.
End traces.

(** A command that loses a write race is sent again as it was, at most five
    times in all and only after a lost race, so an answer that may have been
    committed is never sent twice; the last answer is the one returned. *)
Lemma lost_races_retried {W} (env : Env W) cmd w err w' l :
  sendRetryingConflicts env cmd w = (err, w', l) →
  1 <= length l <= 5 ∧
  (∀ a, a ∈ l → ∃ e, a = Sent cmd e) ∧ last l = Some (Sent cmd err) ∧
  ∀ i e, l !! i = Some (Sent cmd e) → S i < length l → lostWriteRace e = true.
Proof.
  intros H. apply sendRetryingConflicts_emits in H as (races & -> & Hr & Hlen).
  unfold conflictRetryAttempts in Hlen.
  rewrite length_app, length_map. simpl. split_and!; [lia|lia| | |].
  - intros a [(e & -> & _)%list_elem_of_fmap| ->%list_elem_of_singleton]%elem_of_app; eauto.
  - by rewrite last_snoc.
  - intros i e Hi Hlt. rewrite lookup_app_l in Hi by (rewrite length_map; lia).
    apply list_lookup_fmap_Some in Hi as (x & [= ->] & Hx).
    rewrite Forall_forall in Hr. by eapply Hr, list_elem_of_lookup_2.
Qed.

(** An environment that accepts every command but loses the race for the first
    [n] of them *)
Definition racing_env : Env nat :=
  mkEnv nat
    (λ c n, match n with
            | 0 => (None, 0)
            | S n' => (Some (mkAxError false false true true false false false), n')
            end)
    (λ ns n, (Err (mkAxError false false false false false false true), n))
    (λ h n, (true, n)) (λ ns m vars n, (Some [], n))
    (λ req n, (mkRunning [] OutcomeSuccess, n)) (λ ns s n, (true, n)) (λ n, false)
    true true true true true.

Lemma lost_races_retried_witness :
  let c := RecordPID "github.com/user/app@v1" "run-1" 7 in
  ∃ l, sendRetryingConflicts racing_env c 3 = (None, 0, l) ∧ length l = 4 ∧
    last l = Some (Sent c None).
Proof.
  intros c. eexists. split; [vm_compute; reflexivity|]. split; [reflexivity|].
  apply (lost_races_retried racing_env c 3 None 0). vm_compute. reflexivity.
Defined.

(** ** The trace of a drained run *)

Definition hook_ns (h : hook) : Namespace :=
  match h with
  | MarkInstalled ns | MarkUninstalled ns | MarkLastUsed ns | ReconcileVersionBadge ns
  | RefreshManifest ns _ | CloseSurface ns => ns
  end.

(** An action about [ns], and if a command, one guarded by the run's id *)
Definition own_action (ns : Namespace) (id : string) (a : action) : Prop :=
  match a with
  | Sent c _ => AggregateID c = ns ∧ progress_id c = Some id
  | Called h _ => hook_ns h = ns
  | Reassembled n _ => n = ns
  | Started req => req_namespace req = ns
  | Probing _ | Probed _ _ | Waited _ => True
  end.

(** Reporting what the run does: no end, no restart, nothing in the catalog *)
Definition run_action (ns : Namespace) (id : string) (a : action) : Prop :=
  match a with
  | Sent c _ => AggregateID c = ns ∧ progress_id c = Some id ∧ progress c = true ∧
      ∀ steps, c ≠ RestartExecution ns id steps
  | Called h _ => h = CloseSurface ns
  | Probing _ => True
  | _ => False
  end.

(** An answer that says another run took the arrow over *)
Definition told_superseded (a : action) : Prop :=
  ∃ c e, a = Sent c (Some e) ∧ is_superseded e = true ∧ lostWriteRace (Some e) = false.

(** A step that failed because what it fetched had another checksum *)
Definition checksum_event (evt : Event) : Prop :=
  EventKindOf evt = EventKindStepFailed ∧ ∃ msg, EventErr evt = Some (msg, true).

(** Nothing follows such an answer. *)
Definition silent (l : list action) : Prop :=
  ∀ i a, l !! i = Some a → told_superseded a → S i = length l.

Definition untold (l : list action) : Prop := Forall (λ a, ¬ told_superseded a) l.

Lemma untold_silent l : untold l → silent l.
Proof.
  intros H i a Hi Ha. unfold untold in H. rewrite Forall_forall in H.
  by destruct (H a (list_elem_of_lookup_2 _ _ _ Hi)).
Qed.

Lemma silent_app l l' : untold l → silent l' → silent (l ++ l').
Proof.
  intros H Hl' i a Hi Ha. apply lookup_app_Some in Hi as [Hi|[Hge Hi]].
  - unfold untold in H. rewrite Forall_forall in H.
    by destruct (H a (list_elem_of_lookup_2 _ _ _ Hi)).
  - pose proof (Hl' _ _ Hi Ha). rewrite length_app. lia.
Qed.

Lemma untold_app l l' : untold l → untold l' → untold (l ++ l').
Proof. intros. by apply Forall_app. Qed.

(** A send is silent, and untold when its last answer is not superseded. *)
Lemma send_trace_silent n cmd err l :
  send_trace n cmd err l → silent l ∧ (superseded_by err = false → untold l).
Proof.
  intros (races & -> & Hr & _).
  assert (untold (map (λ e, Sent cmd (Some e)) races)) as Hu.
  { apply Forall_fmap. eapply Forall_impl; [exact Hr|]. simpl.
    intros e He (c & e' & [= <- <-] & _ & Hl). simpl in He, Hl. congruence. }
  split.
  - apply silent_app; [done|]. intros i a Hi _. by apply lookup_lt_Some in Hi; destruct i; [|simpl in Hi; lia].
  - intros He. apply untold_app; [done|]. constructor; [|constructor].
    intros (c & e & [= -> ->] & Hs & _). simpl in He. congruence.
Qed.

(** Some answer named another run. *)
Definition told (l : list action) : Prop := ∃ c e, Sent c (Some e) ∈ l ∧ is_superseded e = true.

Lemma send_trace_told n cmd err l :
  send_trace n cmd err l → superseded_by err = true → told l.
Proof.
  intros (races & -> & _ & _) He. destruct err as [e|]; [|done]. exists cmd, e. split; [|done].
  apply elem_of_app. right. apply list_elem_of_here.
Qed.

Lemma not_told_called h ok : ¬ told_superseded (Called h ok).
Proof. by intros (c & e & [=] & _). Qed.

Lemma not_told_probing s : ¬ told_superseded (Probing s).
Proof. by intros (c & e & [=] & _). Qed.

Section drain_traces.
Context {W : Type} (env : Env W) (ns : Namespace) (id : string).

(** Handling events: reports of the run, silent once superseded. *)
Definition reporting (is_sup : bool) (l : list action) : Prop :=
  Forall (run_action ns id) l ∧ silent l ∧ (is_sup = false → untold l) ∧
  (is_sup = true → told l).

Lemma reporting_nil : reporting false [].
Proof. split_and!; [constructor|by intros i a|intros; constructor|done]. Qed.

(** A send of one progress command *)
Lemma send_reporting cmd :
  AggregateID cmd = ns → progress_id cmd = Some id → progress cmd = true →
  (∀ steps, cmd ≠ RestartExecution ns id steps) →
  emits (sendRetryingConflicts env cmd) (λ err l, reporting (superseded_by err) l).
Proof.
  intros Hns Hid Hp Hr. eapply emits_mono.
  { apply emits_and; [apply sendRetryingConflicts_emits|].
    apply (sendRetryingConflicts_only env (run_action ns id)). done. }
  intros err l [Ht Hl]. split; [done|]. split_and!; [by eapply send_trace_silent..|].
  by eapply send_trace_told.
Qed.

Lemma send_then_reporting {A} cmd (f : option ax_error → A) (sup : A → bool) :
  AggregateID cmd = ns → progress_id cmd = Some id → progress cmd = true →
  (∀ steps, cmd ≠ RestartExecution ns id steps) →
  (∀ err, sup (f err) = superseded_by err) →
  emits (err ← sendRetryingConflicts env cmd; mret (f err)) (λ a l, reporting (sup a) l).
Proof.
  intros ???? Hf. eapply emits_bind; [by apply send_reporting|].
  intros err l Hl. apply emits_ret. by rewrite app_nil_r, Hf.
Qed.

Lemma reporting_snoc l a : reporting false l → run_action ns id a → ¬ told_superseded a →
  reporting false (l ++ [a]).
Proof.
  intros (Hr & _ & Hu & _) Ha Hn.
  assert (untold (l ++ [a])) as Hu' by (apply untold_app; [by apply Hu|by repeat constructor]).
  split_and!; [|by apply untold_silent|done|done]. apply Forall_app. by repeat constructor.
Qed.

Lemma closeSurface_reporting : emits (closeSurface env ns id) reporting.
Proof.
  unfold closeSurface. eapply emits_bind; [by apply (send_reporting (ClearSurface ns id))|].
  intros err l Hl. cbv beta in Hl. destruct (superseded_by err); [apply emits_ret; by rewrite app_nil_r|].
  destruct (set_CloseSurface env); [|apply emits_ret; by rewrite app_nil_r].
  eapply emits_bind; [apply do_call_emits|]. intros ok ? ->. apply emits_ret.
  rewrite app_nil_r. apply reporting_snoc; [done|done|apply not_told_called].
Qed.

Lemma drainEvent_reporting r evt :
  superseded r = false →
  emits (drainEvent env ns id r evt) (λ r' l, reporting (superseded r') l).
Proof.
  intros Hr. assert (superseded (observe r evt) = false) as Ho.
  { unfold observe. repeat case_match; done. }
  unfold drainEvent. destruct (EventKindOf evt).
  1-3: unfold sendStep; eapply emits_bind;
    [by apply (send_then_reporting _ superseded_by (λ b, b))|];
    intros b l Hl; apply emits_ret; by rewrite app_nil_r.
  - unfold sendPID. eapply emits_bind; [by apply (send_then_reporting _ superseded_by (λ b, b))|].
    intros b l Hl. apply emits_ret. by rewrite app_nil_r.
  - destruct (EventSurface evt) as [s|]; [|apply emits_ret; rewrite Ho; apply reporting_nil].
    unfold sendSurface. eapply emits_bind;
      [by apply (send_then_reporting _ superseded_by (λ b, b))|].
    intros b l Hl. destruct b; simpl.
    + eapply emits_bind; [apply (emits_ret tt (λ _ l, l = [])); done|].
      intros [] ? ->. apply emits_ret. by rewrite !app_nil_r.
    + eapply emits_bind; [apply do_spawn_probe_emits|]. intros [] ? ->. apply emits_ret.
      rewrite app_nil_r. apply reporting_snoc; [done|done|apply not_told_probing].
  - eapply emits_bind; [apply closeSurface_reporting|].
    intros b l Hl. apply emits_ret. by rewrite app_nil_r.
  - apply emits_ret. rewrite Ho. apply reporting_nil.
Qed.

Lemma drainEvents_from_reporting r events :
  emits (drainEvents_from env ns id r events)
    (λ r' l, if superseded r then l = [] ∧ superseded r' = true
             else reporting (superseded r') l).
Proof.
  revert r. induction events as [|evt events IH]; intros r; simpl.
  { apply emits_ret. destruct (superseded r) eqn:Hr; [done|]. apply reporting_nil. }
  destruct (superseded r) eqn:Hr.
  { specialize (IH r). by rewrite Hr in IH. }
  eapply emits_bind; [by apply drainEvent_reporting|]. intros r' l Hl. cbv beta in Hl.
  eapply emits_mono; [apply IH|]. simpl. intros r'' l' Hl'.
  destruct (superseded r') eqn:Hr'.
  - destruct Hl' as [-> ->]. by rewrite app_nil_r.
  - destruct Hl as (Hl1 & _ & Hl3 & _), Hl' as (Hl1' & Hl2' & Hl3' & Hl4').
    specialize (Hl3 eq_refl).
    split_and!; [by apply Forall_app|by apply silent_app|intros; apply untold_app; auto|].
    intros Hs. destruct (Hl4' Hs) as (c & e & Hin & He). exists c, e. split; [|done].
    apply elem_of_app. by right.
Qed.

Lemma drainEvents_reporting exec :
  emits (drainEvents env exec ns id) (λ r l, reporting (superseded r) l).
Proof.
  apply (drainEvents_from_reporting (mkReport false false false)).
Qed.
Lemma drainEvents_from_mismatch r events :
  emits (drainEvents_from env ns id r events) (λ r' _, checksumMismatch r' = true →
    checksumMismatch r = true ∨ Exists checksum_event events).
Proof.
  revert r. induction events as [|evt events IH]; intros r; simpl.
  { apply emits_ret. by left. }
  destruct (superseded r).
  { eapply emits_mono; [apply IH|]. intros r' l Hr Hm. destruct (Hr Hm); auto. }
  apply (emits_bind _ _ (λ r' _, checksumMismatch r' = checksumMismatch (observe r evt))).
  - intros w r' w' l Hw. unfold drainEvent in Hw.
    destruct (EventKindOf evt); [..|by injection Hw as <-];
      repeat case_match; unfold mbind, T_bind, mret, T_ret in Hw;
      repeat case_match; by simplify_eq/=.
  - intros r' l Hr'. cbv beta in Hr'. eapply emits_mono; [apply IH|]. simpl. intros r'' l' Hr Hm.
    destruct (Hr Hm) as [H|H]; [|by right; right]. rewrite Hr' in H. unfold observe in H.
    repeat case_match; simplify_eq/=; auto; right; left; split; bool_simpl; eauto.
Qed.
End drain_traces.

(** ** The trace of an end *)

Definition calls (hs : list hook) (l : list action) : Prop :=
  Forall2 (λ h a, ∃ ok, a = Called h ok) hs l.

(** What a run that ended well did to the disk *)
Definition stamps (ns : Namespace) (method : string) (outcome : ExecutionOutcome) : list hook :=
  match outcome with
  | OutcomeSuccess =>
    if String.eqb method MethodInstall then [MarkInstalled ns]
    else if String.eqb method MethodUninstall then [MarkUninstalled ns]
    else if String.eqb method MethodExecute then [MarkLastUsed ns] else []
  | _ => []
  end.

(** What is left to do once the end is on the aggregate *)
Definition cleanup {W} (env : Env W) (ns : Namespace) (method : string) (released : bool)
  : list hook :=
  (if set_CloseSurface env && negb released then [CloseSurface ns] else []) ++
  (if set_ReconcileVersionBadge env && negb (String.eqb method MethodUpdate)
   then [ReconcileVersionBadge ns] else []).

(** Stamp, end, and only after an accepted end clean up *)
Definition finish_trace {W} (env : Env W) (ns : Namespace) (id method : string)
  (outcome : ExecutionOutcome) (released : bool) (l : list action) : Prop :=
  ∃ s ends err c, l = s ++ ends ++ c ∧ calls (stamps ns method outcome) s ∧
    send_trace conflictRetryAttempts (EndExecution ns id outcome) err ends ∧
    calls (match err with None => cleanup env ns method released | Some _ => [] end) c.

Lemma calls_one h ok : calls [h] [Called h ok].
Proof. by repeat econstructor. Qed.

Lemma calls_nil : calls [] [].
Proof. constructor. Qed.

Lemma calls_untold hs l : calls hs l → untold l.
Proof.
  intros H. induction H as [|h a hs l (ok & ->) _ IH]; constructor; [|done].
  apply not_told_called.
Qed.

Section finish_traces.
Context {W : Type} (env : Env W) (ns : Namespace) (id : string).

Lemma when_call_emits (b : bool) h :
  emits (if b then _ ← do_call env h; mret () else mret ())
    (λ _ l, calls (if b then [h] else []) l).
Proof.
  destruct b; [|apply emits_ret, calls_nil]. eapply emits_bind; [apply do_call_emits|].
  intros ok l ->. apply emits_ret. apply calls_one.
Qed.

Lemma stampCatalog_emits method :
  emits (stampCatalog env ns method) (λ _ l, calls (stamps ns method OutcomeSuccess) l).
Proof.
  unfold stampCatalog, stamps. destruct (String.eqb method MethodInstall);
    [apply (when_call_emits true)|].
  destruct (String.eqb method MethodUninstall); [apply (when_call_emits true)|].
  apply when_call_emits.
Qed.

Lemma sendEndExecution_emits outcome :
  emits (sendEndExecution env ns id outcome) (λ landed l, ∃ err,
    landed = (match err with None => true | Some _ => false end) ∧
    send_trace conflictRetryAttempts (EndExecution ns id outcome) err l).
Proof.
  eapply emits_bind; [apply sendRetryingConflicts_emits|]. intros err l Hl.
  apply emits_ret. exists err. by rewrite app_nil_r.
Qed.

Lemma onEnd_emits method outcome :
  emits (onEnd env ns id method outcome) (λ landed l, ∃ s ends err, l = s ++ ends ∧
    calls (stamps ns method outcome) s ∧
    landed = (match err with None => true | Some _ => false end) ∧
    send_trace conflictRetryAttempts (EndExecution ns id outcome) err ends).
Proof.
  unfold onEnd. apply (emits_bind _ _ (λ _ l, calls (stamps ns method outcome) l)).
  { destruct outcome; [apply stampCatalog_emits|apply emits_ret, calls_nil..]. }
  intros [] s Hs. eapply emits_mono; [apply sendEndExecution_emits|].
  intros landed l (err & -> & Hl). by exists s, l, err.
Qed.

Lemma cleanup_emits method released :
  emits (_ ← (if set_CloseSurface env && negb released
              then _ ← do_call env (CloseSurface ns); mret () else mret ());
         if String.eqb method MethodUpdate then mret () else reconcileVersionBadge env ns)
    (λ _ l, calls (cleanup env ns method released) l).
Proof.
  eapply emits_bind; [apply when_call_emits|]. intros [] l Hl. cbv beta in Hl. unfold cleanup.
  destruct (String.eqb method MethodUpdate).
  { rewrite andb_false_r. apply emits_ret. by rewrite !app_nil_r. }
  rewrite andb_true_r. eapply emits_mono; [apply when_call_emits|].
  intros [] l' Hl'. by apply Forall2_app.
Qed.

Lemma finishExecution_emits exec report method :
  emits (finishExecution env exec report ns id method) (λ _ l,
    if superseded report then l = []
    else finish_trace env ns id method (ExecOutcome exec) (surfaceReleased report) l).
Proof.
  unfold finishExecution. destruct (superseded report); [by apply emits_ret|].
  eapply emits_bind; [apply onEnd_emits|].
  intros landed l (s & ends & err & -> & Hs & -> & He). destruct err as [e|]; simpl.
  - apply emits_ret. exists s, ends, (Some e), []. rewrite !app_nil_r.
    split_and!; [done..|apply calls_nil].
  - eapply emits_mono; [apply cleanup_emits|]. intros [] l Hl.
    exists s, ends, None, l. by rewrite (assoc_L (++)).
Qed.

Lemma finish_trace_silent method outcome released l :
  finish_trace env ns id method outcome released l → silent l.
Proof.
  intros (s & ends & err & c & -> & Hs & He & Hc).
  apply silent_app; [by eapply calls_untold|].
  destruct (send_trace_silent _ _ _ _ He) as [Hsil Hun]. destruct err as [e|].
  - apply Forall2_nil_inv_l in Hc as ->. by rewrite app_nil_r.
  - apply untold_silent, untold_app; [by apply Hun|by eapply calls_untold].
Qed.
End finish_traces.

(** ** The trace of a retry *)

Definition is_restart (ns : Namespace) (id : string) (a : action) : Prop :=
  ∃ steps e, a = Sent (RestartExecution ns id steps) e.

(** Preparing the second run *)
Definition prep_action (ns : Namespace) (id method : string) (a : action) : Prop :=
  match a with
  | Called h _ => h = RefreshManifest ns method
  | Reassembled n m => n = ns ∧ m = method
  | Sent _ _ => is_restart ns id a
  | _ => False
  end.

(** A second run starts only once its steps are on the aggregate. *)
Definition retry_trace (id : string) (req : RunRequest) (started : bool) (l : list action) : Prop :=
  let ns := req_namespace req in
  ∃ pre, Forall (prep_action ns id (req_method req)) pre ∧ silent pre ∧
    if started then untold pre ∧ ∃ steps, Sent (RestartExecution ns id steps) None ∈ pre ∧
      l = pre ++ [Started (set_req_steps req steps)]
    else l = pre.

Section supervise_traces.
Context {W : Type} (env : Env W) (same : list Step → list Step → bool) (id : string).

Lemma refreshedSteps_emits req :
  emits (refreshedSteps env same req) (λ _ l,
    Forall (prep_action (req_namespace req) id (req_method req)) l ∧ untold l).
Proof.
  eapply emits_bind; [apply do_call_emits|]. intros ok l ->. destruct ok; simpl.
  2: { apply emits_ret. split; repeat constructor. apply not_told_called. }
  eapply emits_bind; [apply do_reassemble_emits|]. intros r l ->. apply emits_ret.
  split; repeat constructor; [apply not_told_called|].
  by intros (c & e & [=] & _).
Qed.

Lemma restart_emits ns method steps :
  emits (restart env ns id steps) (λ ok l, ∃ err,
    ok = (match err with None => true | Some _ => false end) ∧
    Forall (prep_action ns id method) l ∧
    send_trace conflictRetryAttempts (RestartExecution ns id steps) err l).
Proof.
  unfold restart. eapply emits_bind.
  - apply emits_and; [apply sendRetryingConflicts_emits|].
    apply (sendRetryingConflicts_only env (prep_action ns id method)).
    intros e. by exists steps, e.
  - intros err l [Hl Hp]. apply emits_ret. exists err. by rewrite app_nil_r.
Qed.

Lemma retry_emits exec report req :
  emits (retryOnChecksumMismatch env same exec report req id) (λ r l,
    (l ≠ [] → worthRetrying env false exec report (req_method req) = true) ∧
    retry_trace id req (if r is Some _ then true else false) l).
Proof.
  unfold retryOnChecksumMismatch. eapply emits_bind; [apply do_ctx_done_emits|].
  intros stopped l ->. simpl.
  destruct (worthRetrying env stopped exec report (req_method req)) eqn:Hw; simpl.
  2: { apply emits_ret. split; [done|]. exists []. split_and!; [constructor|by intros i a|done]. }
  assert (worthRetrying env false exec report (req_method req) = true) as Hw'.
  { unfold worthRetrying in *. destruct stopped; [|done]. by rewrite orb_true_r in Hw. }
  eapply emits_bind; [apply refreshedSteps_emits|]. intros [steps|] l [Hp Hu].
  2: { apply emits_ret. split; [done|]. exists l. rewrite app_nil_r.
       split_and!; [done|by apply untold_silent|done]. }
  eapply emits_bind; [apply (restart_emits _ (req_method req))|].
  intros ok l' (err & -> & Hp' & Ht).
  destruct (send_trace_silent _ _ _ _ Ht) as [Hs Hn]. destruct err as [e|]; simpl.
  - apply emits_ret. split; [done|]. exists (l ++ l'). rewrite app_nil_r.
    split_and!; [by apply Forall_app|by apply silent_app|done].
  - eapply emits_bind; [apply do_start_emits|]. intros x ? ->. apply emits_ret.
    split; [done|]. exists (l ++ l'). specialize (Hn eq_refl).
    split_and!; [by apply Forall_app|by apply silent_app|by apply untold_app|].
    exists steps. rewrite app_nil_r, <- (assoc_L (++)). split; [|done].
    destruct Ht as (races & -> & _). rewrite !elem_of_app. right. right.
    apply list_elem_of_here.
Qed.

Lemma worthRetrying_true exec report method :
  worthRetrying env false exec report method = true →
  checksumMismatch report = true ∧ superseded report = false ∧
  ExecOutcome exec = OutcomeFailed ∧ (method = MethodInstall ∨ method = MethodUpdate).
Proof.
  unfold worthRetrying. intros H. rewrite orb_false_r in H.
  destruct (negb (checksumMismatch report) || superseded report) eqn:H1; [done|].
  destruct (negb (String.eqb method MethodInstall) && _) eqn:H2; [done|].
  destruct (negb (set_RefreshManifest env) || _); [done|].
  destruct (ExecOutcome exec); try done. apply orb_false_iff in H1 as [?%negb_false_iff ?].
  split_and!; try done. destruct (String.eqb_spec method MethodInstall); [by left|].
  destruct (String.eqb_spec method MethodUpdate); [by right|done].
Qed.
End supervise_traces.

(** ** A supervised run *)

(** What a supervised run does: it reports the first attempt and, unless
    superseded, either tries to prepare a second one and ends, or prepares it,
    reports it and ends. *)
Definition supervised {W} (env : Env W) (exec : RunningExecution) (req : RunRequest) (id : string)
  (l : list action) : Prop :=
  let ns := req_namespace req in
  let m := req_method req in
  ∃ report run rest, l = run ++ rest ∧ reporting ns id (superseded report) run ∧
    (checksumMismatch report = true → Exists checksum_event (Events exec)) ∧
    (superseded report = true ∧ rest = [] ∨
     superseded report = false ∧ (∃ mid fin, rest = mid ++ fin ∧
       (mid ≠ [] → worthRetrying env false exec report m = true) ∧ retry_trace id req false mid ∧
       finish_trace env ns id m (ExecOutcome exec) (surfaceReleased report) fin) ∨
     superseded report = false ∧ worthRetrying env false exec report m = true ∧
       ∃ mid exec' report' run' fin, rest = mid ++ run' ++ fin ∧ retry_trace id req true mid ∧
         reporting ns id (superseded report') run' ∧
         if superseded report' then fin = []
         else finish_trace env ns id m (ExecOutcome exec') (surfaceReleased report') fin).

Lemma supervise_emits {W} (env : Env W) same exec req id :
  emits (superviseExecution env same exec req id) (λ _ l, supervised env exec req id l).
Proof.
  unfold superviseExecution. eapply emits_bind.
  { apply emits_and; [apply drainEvents_reporting|apply drainEvents_from_mismatch]. }
  intros report run [Hrun Hmm].
  assert (checksumMismatch report = true → Exists checksum_event (Events exec)) as Hmm'
    by (intros H; by destruct (Hmm H)).
  eapply emits_bind; [apply retry_emits|]. intros [exec'|] mid [Hw Hmid].
  - assert (worthRetrying env false exec report (req_method req) = true) as Hwt.
    { apply Hw. destruct Hmid as (pre & _ & _ & _ & steps & _ & ->). by destruct pre. }
    pose proof (worthRetrying_true _ _ _ _ Hwt) as (_ & Hs & _).
    eapply emits_bind; [apply drainEvents_reporting|]. intros report' run' Hrun'.
    eapply emits_mono; [apply finishExecution_emits|]. intros [] fin Hfin.
    exists report, run, (mid ++ run' ++ fin). split_and!; try done.
    right. right. split_and!; [done..|]. by exists mid, exec', report', run', fin.
  - eapply emits_mono; [apply finishExecution_emits|]. intros [] fin Hfin. cbv beta in Hfin.
    exists report, run, (mid ++ fin). split_and!; try done.
    destruct (superseded report) eqn:Hs.
    + left. split; [done|]. subst. rewrite app_nil_r. destruct mid; [done|].
      unfold worthRetrying in Hw. rewrite Hs, orb_true_r in Hw. by discriminate Hw.
    + right. left. split; [done|]. by exists mid, fin.
Qed.

(** The actions of each part are the run's own. *)
Lemma run_action_own ns id l : Forall (run_action ns id) l → Forall (own_action ns id) l.
Proof.
  intros H. eapply Forall_impl; [exact H|]. intros [] Ha; simpl in *; try done; naive_solver.
Qed.

Lemma retry_trace_own id req b l :
  retry_trace id req b l → Forall (own_action (req_namespace req) id) l.
Proof.
  intros (pre & Hp & _ & Hl).
  assert (Forall (own_action (req_namespace req) id) pre) as Hpre.
  { eapply Forall_impl; [exact Hp|].
    intros [] Ha; simpl in *; try done; [|naive_solver..].
    destruct Ha as (steps & e & [= -> ->]). done. }
  destruct b; [|by subst]. destruct Hl as (_ & steps & _ & ->).
  apply Forall_app. split; [done|]. by repeat constructor.
Qed.

Lemma stamps_own ns method outcome h : h ∈ stamps ns method outcome → hook_ns h = ns.
Proof.
  unfold stamps. destruct outcome; repeat case_match; intros Hin;
    try (by apply not_elem_of_nil in Hin); by apply list_elem_of_singleton in Hin as ->.
Qed.

Lemma cleanup_own {W} (env : Env W) ns method released h :
  h ∈ cleanup env ns method released → hook_ns h = ns.
Proof.
  unfold cleanup. intros [H|H]%elem_of_app; destruct (_ && _) in H;
    try (by apply not_elem_of_nil in H); by apply list_elem_of_singleton in H as ->.
Qed.

Lemma calls_own ns id hs l :
  calls hs l → (∀ h, h ∈ hs → hook_ns h = ns) → Forall (own_action ns id) l.
Proof.
  intros H. induction H as [|h a hs l (ok & ->) _ IH]; intros Hns; constructor.
  - apply Hns, list_elem_of_here.
  - apply IH. intros h' Hh'. by apply Hns, list_elem_of_further.
Qed.

Lemma finish_trace_own {W} (env : Env W) ns id method outcome released l :
  finish_trace env ns id method outcome released l → Forall (own_action ns id) l.
Proof.
  intros (s & ends & err & c & -> & Hs & (races & -> & _) & Hc). rewrite !Forall_app. split_and!.
  - eapply calls_own; [exact Hs|]. apply stamps_own.
  - by apply Forall_fmap, Forall_forall.
  - by repeat constructor.
  - eapply calls_own; [exact Hc|]. intros h Hh. destruct err; [by apply not_elem_of_nil in Hh|].
    by eapply cleanup_own.
Qed.

(** What may follow an answer that another run took the arrow over: nothing, or,
    when the answer refused to restart the run, the end of the failed run. *)
Definition quiet (allowed : list action → Prop) (ns : Namespace) (id : string) (l : list action)
  : Prop :=
  ∀ i a, l !! i = Some a → told_superseded a →
    drop (S i) l = [] ∨ is_restart ns id a ∧ allowed (drop (S i) l).

Lemma silent_quiet allowed ns id l : silent l → quiet allowed ns id l.
Proof. intros H i a Hi Ha. left. apply drop_ge. by rewrite (H i a Hi Ha). Qed.

Lemma quiet_app allowed ns id l l' :
  untold l → quiet allowed ns id l' → quiet allowed ns id (l ++ l').
Proof.
  intros H Hl' i a Hi Ha. apply lookup_app_Some in Hi as [Hi|[Hge Hi]].
  - unfold untold in H. rewrite Forall_forall in H.
    by destruct (H a (list_elem_of_lookup_2 _ _ _ Hi)).
  - replace (S i) with (length l + S (i - length l)) by lia. rewrite drop_app_add. eauto.
Qed.

(** A preparation that failed, then the end of the run *)
Lemma quiet_retry_end (allowed : list action → Prop) id req mid fin :
  retry_trace id req false mid → silent fin → allowed fin →
  quiet allowed (req_namespace req) id (mid ++ fin).
Proof.
  intros (pre & Hp & Hs & ->) Hf Hal i a Hi Ha. apply lookup_app_Some in Hi as [Hi|[Hge Hi]].
  - right. split; [|by rewrite (Hs i a Hi Ha), drop_app_length].
    rewrite Forall_forall in Hp. specialize (Hp a (list_elem_of_lookup_2 _ _ _ Hi)).
    destruct a; simpl in Hp; try done; by destruct Ha as (c & e & [=] & _).
  - left. apply drop_ge. rewrite length_app. pose proof (Hf _ a Hi Ha). lia.
Qed.

(** Everything a drained run does concerns its own arrow, and every command it
    sends carries its own id; once an answer says that another run took the arrow
    over it does nothing more, except that a run refused its second attempt still
    ends as the failure it was. *)
Lemma drain_own_run_silent {W} (env : Env W) same exec req id w w' l :
  superviseExecution env same exec req id w = ((), w', l) →
  Forall (own_action (req_namespace req) id) l ∧
  quiet (λ rest, ∃ released,
      finish_trace env (req_namespace req) id (req_method req) OutcomeFailed released rest)
    (req_namespace req) id l.
Proof.
  intros H. apply supervise_emits in H.
  destruct H as (report & run & rest & -> & (Hown & Hsil & Hun & _) & _ & Hrest).
  split.
  - apply Forall_app. split; [by apply run_action_own|].
    destruct Hrest as [[_ ->]|[(_ & mid & fin & -> & _ & Hmid & Hfin)|
      (_ & _ & mid & exec' & report' & run' & fin & -> & Hmid & (Hown' & _) & Hfin)]].
    + constructor.
    + apply Forall_app. eauto using retry_trace_own, finish_trace_own.
    + rewrite !Forall_app. split_and!; [by eapply retry_trace_own|by apply run_action_own|].
      destruct (superseded report'); [by subst|by eapply finish_trace_own].
  - destruct Hrest as [[_ ->]|[(Hs & mid & fin & -> & Hw & Hmid & Hfin)|
      (Hs & _ & mid & exec' & report' & run' & fin & -> & Hmid & (_ & Hsil' & Hun' & _) & Hfin)]].
    + rewrite app_nil_r. by apply silent_quiet.
    + apply quiet_app; [by apply Hun|]. destruct mid as [|a mid].
      { by eapply silent_quiet, finish_trace_silent. }
      destruct (worthRetrying_true env _ _ _ (Hw ltac:(done))) as (_ & _ & <- & _).
      apply quiet_retry_end; [done|by eapply finish_trace_silent|by eexists].
    + apply quiet_app; [by apply Hun|]. destruct Hmid as (pre & _ & _ & Hpre & steps & _ & ->).
      apply quiet_app; [apply untold_app; [done|]; repeat constructor; by intros (? & ? & [=] & _)|].
      apply silent_quiet. destruct (superseded report'); [subst; by rewrite app_nil_r|].
      apply silent_app; [by apply Hun'|by eapply finish_trace_silent].
Qed.

(** Before its end a run neither ends nor touches the catalog's marks or badge. *)
Definition before_end (a : action) : Prop :=
  match a with
  | Sent c _ => ∀ ns id outcome, c ≠ EndExecution ns id outcome
  | Called (MarkInstalled _) _ | Called (MarkUninstalled _) _ | Called (MarkLastUsed _) _
  | Called (ReconcileVersionBadge _) _ => False
  | _ => True
  end.

Definition starts (l : list action) : list RunRequest :=
  omap (λ a, match a with Started r => Some r | _ => None end) l.

Lemma run_action_before_end ns id l :
  Forall (run_action ns id) l → Forall before_end l ∧ starts l = [].
Proof.
  intros H. induction H as [|a l Ha Hl [IH1 IH2]]; [done|].
  split; [constructor; [|done]|].
  - destruct a as [c e|h ok|n m|r|s|s ok|d]; simpl in *; try done; [|by subst].
    intros ns' id' o ->. by destruct Ha as (_ & _ & [=] & _).
  - destruct a; simpl in *; done.
Qed.

Lemma prep_before_end ns id method l :
  Forall (prep_action ns id method) l → Forall before_end l ∧ starts l = [].
Proof.
  intros H. induction H as [|a l Ha Hl [IH1 IH2]]; [done|].
  split; [constructor; [|done]|].
  - destruct a as [c e|h ok|n m|r|s|s ok|d]; simpl in *; try done; [|by subst].
    destruct Ha as (steps & e' & [= -> ->]). done.
  - destruct a; simpl in *; done.
Qed.

(** C10. Every run ends exactly once: after its last report, unless it was told that
    another run took over, it stamps the catalog if it succeeded, then sends its
    outcome, and clears up only once that is on the aggregate; nothing is stamped or
    ended before.  A run is started a second time at most once, for an install or an
    update that failed on a checksum, and with steps the aggregate accepted. *)
Theorem end_recorded_once {W} (env : Env W) same exec req id w w' l :
  superviseExecution env same exec req id w = ((), w', l) →
  ∃ run fin outcome, l = run ++ fin ∧ Forall before_end run ∧
    (starts run = [] ∧ outcome = ExecOutcome exec ∨
     ∃ steps, starts run = [set_req_steps req steps] ∧
       Sent (RestartExecution (req_namespace req) id steps) None ∈ run ∧
       ExecOutcome exec = OutcomeFailed ∧ Exists checksum_event (Events exec) ∧
       (req_method req = MethodInstall ∨ req_method req = MethodUpdate)) ∧
    (fin = [] ∧ told run ∨ ∃ released,
       finish_trace env (req_namespace req) id (req_method req) outcome released fin).
Proof.
  intros H. apply supervise_emits in H.
  destruct H as (report & run & rest & -> & (Hrun & _ & _ & Htold) & Hmm & Hrest).
  apply run_action_before_end in Hrun as [Hb Hst].
  destruct Hrest as [[Hs ->]|[(Hs & mid & fin & -> & _ & (pre & Hp & _ & ->) & Hfin)|
      (Hs & Hw & mid & exec' & report' & run' & fin & -> &
        (pre & Hp & _ & _ & steps & Hin & ->) & (Hrun' & _ & _ & Htold') & Hfin)]].
  - exists run, [], (ExecOutcome exec). split_and!; [done..|by left|by left; auto].
  - apply prep_before_end in Hp as [Hbp Hsp].
    exists (run ++ pre), fin, (ExecOutcome exec). rewrite (assoc_L (++)).
    split_and!; [done|by apply Forall_app|left|by right; eexists].
    unfold starts in *. by rewrite omap_app, Hst, Hsp.
  - apply prep_before_end in Hp as [Hbp Hsp]. apply run_action_before_end in Hrun' as [Hb' Hst'].
    destruct (worthRetrying_true env _ _ _ Hw) as (Hm & _ & Ho & Hmeth).
    exists (run ++ (pre ++ [Started (set_req_steps req steps)]) ++ run'), fin, (ExecOutcome exec').
    split_and!.
    + by rewrite <- !(assoc_L (++)).
    + rewrite !Forall_app. split_and!; try done. by repeat constructor.
    + right. exists steps. split_and!; auto.
      * unfold starts in *. rewrite !omap_app, Hst, Hsp, Hst'. done.
      * rewrite !elem_of_app. auto.
    + destruct (superseded report'); [left|by right; eexists]. split; [done|].
      destruct (Htold' eq_refl) as (c & e & Hc & He). exists c, e. rewrite !elem_of_app. auto.
Qed.

(** An environment that accepts every command but refuses to restart a run, because
    another one took the arrow over *)
Definition taken_over_env : Env nat :=
  mkEnv nat
    (λ c n, match c with
            | RestartExecution _ _ _ => (Some (mkAxError true true false true false false false), n)
            | _ => (None, S n)
            end)
    (λ ns n, (Err (mkAxError false false false false false false true), n))
    (λ h n, (true, n)) (λ ns m vars n, (Some [], n))
    (λ req n, (mkRunning [] OutcomeSuccess, n)) (λ ns s n, (true, n)) (λ n, false)
    true true true true true.

(** An install whose first step fetched something with another checksum *)
Definition mismatched_run : RunningExecution :=
  mkRunning [mkEvent EventKindStepStarted 0 None "" 0 None;
             mkEvent EventKindStepFailed 0 (Some ("checksum mismatch"%string, true)) "" 0 None;
             mkEvent EventKindEnded 0 None "" 0 None] OutcomeFailed.

Definition install_request : RunRequest :=
  mkRunRequest "github.com/user/app@v1" MethodInstall [] ∅ "/data/app" 0.

Lemma drain_own_run_silent_witness :
  ∃ l, superviseExecution taken_over_env (λ _ _, false) mismatched_run install_request "run-1" 0
    = ((), 3, l) ∧ length l = 8 ∧ Forall (own_action "github.com/user/app@v1" "run-1") l.
Proof.
  eexists. split; [vm_compute; reflexivity|]. split; [reflexivity|].
  eapply (drain_own_run_silent taken_over_env (λ _ _, false) mismatched_run install_request
    "run-1" 0). vm_compute. reflexivity.
Defined.

(** The store that accepts everything: the second attempt runs. *)
Definition accepting_env : Env nat :=
  mkEnv nat (λ c n, (None, S n))
    (λ ns n, (Err (mkAxError false false false false false false true), n))
    (λ h n, (true, n)) (λ ns m vars n, (Some [], n))
    (λ req n, (mkRunning [] OutcomeSuccess, n)) (λ ns s n, (true, n)) (λ n, false)
    true true true true true.

Lemma end_recorded_once_witness :
  ∃ l, superviseExecution accepting_env (λ _ _, false) mismatched_run install_request "run-1" 0
    = ((), 4, l) ∧ length l = 10 ∧ ∃ run fin, l = run ++ fin ∧ Forall before_end run.
Proof.
  eexists. split; [vm_compute; reflexivity|]. split; [reflexivity|].
  destruct (end_recorded_once accepting_env (λ _ _, false) mismatched_run install_request "run-1" 0
    4 _ eq_refl) as (run & fin & outcome & Hl & Hb & _).
  by exists run, fin.
Defined.

(** ** The trace of a probe *)

(** The waits between [k] probes that found nothing *)
Fixpoint probe_waits (k : nat) (s : Surface) (wait maxInterval : Z) : list action :=
  match k with
  | 0 => []
  | S k' => Probed s false :: Waited wait ::
      probe_waits k' s (nextProbeInterval wait maxInterval) maxInterval
  end.

(** After [i] waits the interval has doubled [i] times, up to the ceiling. *)
Lemma probe_waits_nth k s wait maxInterval i :
  (0 <= wait <= maxInterval)%Z → i < k →
  probe_waits k s wait maxInterval !! S (2 * i) =
    Some (Waited (Z.min (wait * 2 ^ Z.of_nat i) maxInterval)).
Proof.
  revert wait i. induction k as [|k IH]; intros wait i Hw Hi; [lia|].
  destruct i as [|i]; simpl.
  { do 2 f_equal. lia. }
  replace (i + S (i + 0)) with (S (2 * i)) by lia. simpl.
  replace (i + (i + 0)) with (2 * i) by lia.
  rewrite IH by (unfold nextProbeInterval; lia).
  do 2 f_equal. rewrite Nat2Z.inj_succ, Z.pow_succ_r by lia. unfold nextProbeInterval.
  assert (1 <= 2 ^ Z.of_nat i)%Z by (pose proof (Z.pow_pos_nonneg 2 (Z.of_nat i)); lia).
  destruct (Z.le_gt_cases (wait * 2) maxInterval); [rewrite (Z.min_l (wait * 2)) by lia; f_equal; lia|].
  rewrite (Z.min_r (wait * 2)) by lia. rewrite !Z.min_r; nia.
Qed.

Lemma probe_loop_emits {W} (env : Env W) fuel ns id s wait maxInterval :
  emits (probe_loop env fuel ns id s wait maxInterval) (λ returned l,
    ∃ k tail, l = probe_waits k s wait maxInterval ++ tail ∧ k <= fuel ∧
      (returned = false → k = fuel ∧ tail = []) ∧
      (tail = [] ∨ ∃ err sends, tail = Probed s true :: sends ∧
         send_trace conflictRetryAttempts (SetSurface ns id (set_ready s true)) err sends)).
Proof.
  revert wait. induction fuel as [|fuel IH]; intros wait; simpl.
  { apply emits_ret. exists 0, []. split_and!; auto. }
  apply (emits_bind _ _ (λ _ l, l = [])).
  { intros w open w' l Hw. unfold surfaceOpen, mbind, T_bind, do_get, mret, T_ret in Hw.
    destruct (get env ns w). by simplify_eq. }
  intros open l ->. destruct open; simpl.
  2: { apply emits_ret. exists 0, []. split_and!; auto; [lia|done]. }
  apply (emits_bind _ _ (λ ready l, l = [Probed s ready])).
  { intros w ready w' l Hw. unfold do_probe in Hw. destruct (surface_ready env ns s w).
    by simplify_eq. }
  intros ready l ->. destruct ready; simpl.
  - apply (emits_bind _ _ (λ _ l, ∃ err,
      send_trace conflictRetryAttempts (SetSurface ns id (set_ready s true)) err l)).
    + eapply emits_bind; [apply sendRetryingConflicts_emits|]. intros err l Hl. apply emits_ret.
      rewrite app_nil_r. eauto.
    + intros [] l (err & Hl). apply emits_ret. exists 0, (Probed s true :: l).
      rewrite app_nil_r. split_and!; [done|lia|done|]. right. eauto.
  - apply (emits_bind _ _ (λ _ l, l = [Waited wait])).
    { intros w u w' l Hw. unfold do_wait in Hw. by simplify_eq. }
    intros [] l ->. eapply emits_mono; [apply IH|].
    intros returned l (k & tail & -> & Hk & Hf & Ht). exists (S k), tail.
    split_and!; [done|lia| |done]. intros Hr. destruct (Hf Hr). split; [lia|done].
Qed.

(** The probe of a surface asks, waits a quarter of a second, then twice as long
    each time up to two seconds, and asks again; it records that the surface is ready
    once, only after the surface answered, for its own run; it has no deadline, and
    returns without a word when the surface is no longer the one its run has open. *)
Theorem surface_probe_backs_off {W} (env : Env W) fuel ns id s w returned w' l :
  probeSurface env fuel ns id s surfaceProbeInterval surfaceProbeMaxInterval w = (returned, w', l) →
  ∃ k tail, l = probe_waits k s surfaceProbeInterval surfaceProbeMaxInterval ++ tail ∧ k <= fuel ∧
    (returned = false → k = fuel ∧ tail = []) ∧
    (SurfaceReady s = true → l = []) ∧
    (∀ i, i < k → l !! S (2 * i) = Some (Waited (Z.min (250 * 2 ^ Z.of_nat i) 2000))) ∧
    (tail = [] ∨ ∃ err sends, tail = Probed s true :: sends ∧
       send_trace conflictRetryAttempts (SetSurface ns id (set_ready s true)) err sends).
Proof.
  unfold probeSurface. intros H. destruct (SurfaceReady s || _) eqn:Hb.
  { unfold mret, T_ret in H. simplify_eq. exists 0, []. split_and!; auto; [lia|done|lia]. }
  apply orb_false_iff in Hb as [Hb _].
  apply probe_loop_emits in H as (k & tail & -> & Hk & Hf & Ht). exists k, tail.
  split_and!; [done..|by rewrite Hb| |done].
  intros i Hi.
  pose proof (probe_waits_nth k s surfaceProbeInterval surfaceProbeMaxInterval i ltac:(done) Hi) as Hn.
  rewrite lookup_app_l; [exact Hn|]. by apply lookup_lt_Some in Hn.
Qed.

(** A surface that answers the fifth probe *)
Definition warming_env : Env nat :=
  mkEnv nat (λ c n, (None, n))
    (λ ns n, (Ok (mkRuntime ns ArrowStateRunning
      (Some (mkExecution "run-1" MethodExecute [] ∅ 42 "/data/app"
        (Some (mkSurface "App" SurfaceModeListen "/" "/data/app" false)))) None None), n))
    (λ h n, (true, n)) (λ ns m vars n, (Some [], n))
    (λ req n, (mkRunning [] OutcomeSuccess, n)) (λ ns s n, (Nat.leb 4 n, S n)) (λ n, false)
    true true true true true.

Lemma surface_probe_backs_off_witness :
  let s := mkSurface "App" SurfaceModeListen "/" "/data/app" false in
  ∃ l, probeSurface warming_env 10 "github.com/user/app@v1" "run-1" s surfaceProbeInterval
      surfaceProbeMaxInterval 0 = (true, 5, l) ∧ length l = 10 ∧
    ∃ k tail, l = probe_waits k s surfaceProbeInterval surfaceProbeMaxInterval ++ tail ∧ k <= 10.
Proof.
  intros s. eexists. split; [vm_compute; reflexivity|]. split; [reflexivity|].
  destruct (surface_probe_backs_off warming_env 10 "github.com/user/app@v1" "run-1" s 0 true 5 _
    eq_refl) as (k & tail & Hl & Hk & _).
  by exists k, tail.
Defined.
