(* ===== verification/RuntimeRepo.v ===== *)
(** * The runtime repository (internal/app/repositories/runtime: runtime.go,
    set_version_outdated.go, reconcile_version_badge.go, internal/recovery.go)

    The repository turns what a client asks of an arrow into a command on its
    runtime aggregate and the store's answer into the client's error.  The store
    is a third-party library: it is the class [Asynx], with the laws its
    documentation promises in [AsynxLaws] (each call either leaves the aggregates
    alone or does what [Runtime] says) and [AsynxReliable] (nothing fails but what
    the aggregates refuse).  The theorems refine the repository to [Runtime] over
    any such store; [Store] itself is one. *)

From S2P Require Import Prelude GoStrings Domain Steps Manifest Runtime RuntimeDrain.

(** ** The store *)

(** A computation that changes a world *)
Definition R (W A : Type) : Type := W → A * W.

#[export] Instance R_ret {W} : MRet (R W) := λ A a w, (a, w).
#[export] Instance R_bind {W} : MBind (R W) := λ A B f m w, let '(a, w') := m w in f a w'.

Class Asynx (W : Type) := {
  ax_send : Command → R W (option ax_error);
  ax_get : Namespace → R W (result ax_error ArrowRuntime);
  ax_exists : Namespace → R W (result ax_error bool);
  ax_forget : Namespace → R W (option ax_error);
  ax_preload : Namespace → R W (option ax_error);
}.

(** What a store may do to the aggregates [view] shows: a command whose answer is
    an error may have been committed, but not one that validation refused. *)
Class AsynxLaws (W : Type) `{Asynx W} (view : W → Store) := {
  send_committed c w w' : ax_send c w = (None, w') →
    ∃ rt, Apply c (view w !! AggregateID c) = Committed rt ∧
      view w' = <[AggregateID c := rt]> (view w);
  send_refused c w e w' : ax_send c w = (Some e, w') → is_validation e = true →
    view w' = view w ∧ ∃ ce, Apply c (view w !! AggregateID c) = Rejected ce;
  send_failed c w e w' : ax_send c w = (Some e, w') →
    view w' = view w ∨ view w' = run_write (Send c) (view w);
  get_found ns w rt w' : ax_get ns w = (Ok rt, w') → view w !! ns = Some rt;
  get_missing ns w e w' : ax_get ns w = (Err e, w') → is_not_found e = true →
    view w !! ns = None;
  get_pure ns w r w' : ax_get ns w = (r, w') → view w' = view w;
  exists_ok ns w b w' : ax_exists ns w = (Ok b, w') → b = bool_decide (is_Some (view w !! ns));
  exists_pure ns w r w' : ax_exists ns w = (r, w') → view w' = view w;
  forget_ok ns w w' : ax_forget ns w = (None, w') → view w' = delete ns (view w);
  forget_failed ns w e w' : ax_forget ns w = (Some e, w') →
    view w' = view w ∨ view w' = delete ns (view w);
  preload_pure ns w r w' : ax_preload ns w = (r, w') → view w' = view w;
}.

(** A store that fails only where the aggregates refuse *)
Class AsynxReliable (W : Type) `{Asynx W} (view : W → Store) := {
  reliable_send c w e w' : ax_send c w = (Some e, w') → is_validation e = true;
  reliable_get ns w e w' : ax_get ns w = (Err e, w') → is_not_found e = true;
  reliable_exists ns w e w' : ax_exists ns w ≠ (Err e, w');
  reliable_forget ns w e w' : ax_forget ns w ≠ (Some e, w');
  reliable_preload ns w e w' : ax_preload ns w ≠ (Some e, w');
}.

(** ** The errors of the repository *)

(** What can fail while a run is assembled, as the sentinels tell it *)
Inductive assemble_error :=
| ErrNotFound
| ErrPlatformNotSupported
| ErrMissingVariable (name : string)
| ErrInvalidConfig
| ErrAlreadyExists
| ErrOther.

(** What [errors.Is] and [errors.As] see: a violation names the operation and the
    state the arrow was found in, unless only the sentinel is returned. *)
Inductive repo_error :=
| StateViolation (Op : string) (state : option ArrowState)
| ErrStateViolation
| ErrMethodNotFound
| ErrAssemble (e : assemble_error)
| ErrGetArrow
| ErrReleasePorts
| ErrStore (e : ax_error).

(** ** What the repository is given *)

Record ResolvedExecution := mkResolved {
  Resolved_Steps : list Step;
  Resolved_Variables : gmap string string;
  Resolved_AvailableIn : list ArrowState;
  Resolved_WorkDir : string;
}.

(** [assembler.ResolvedExecution{}] *)
Definition no_execution : ResolvedExecution := mkResolved [] ∅ [] "".

(** [methodOp] *)
Definition methodOp (method : string) : string :=
  let op := trim_prefix method "_" in
  if String.eqb op "execute" then "run" else op.

(** [answersOf] *)
Definition answersOf (vars : gmap string string) : gmap string string :=
  filter (λ p, IsReservedVariable p.1 || contains_byte NamespaceSeparator p.1 = false) vars.

(** [wizard.IsOneShotMethod] *)
Definition IsOneShotMethod (method : string) : bool :=
  String.eqb method MethodInstall || String.eqb method MethodUninstall ||
  String.eqb method MethodUpdate || String.eqb method MethodStop.

(** ** The operations *)

Section repo.
Context {W : Type} `{Asynx W}.

(** [GetState] *)
Definition GetState (ns : Namespace) : R W (result ax_error ArrowState) :=
  got ← ax_get ns;
  mret (match got with
        | Ok rt => Ok (State rt)
        | Err e => if is_not_found e then Ok ArrowStateAbsent else Err e
        end).

(** [GetRuntime]; [None] is the nil pointer. *)
Definition GetRuntime (ns : Namespace) : R W (result ax_error (option ArrowRuntime)) :=
  got ← ax_get ns;
  mret (match got with
        | Ok rt => Ok (Some rt)
        | Err e => if is_not_found e then Ok None else Err e
        end).

Definition RuntimeExists (ns : Namespace) : R W (result ax_error bool) :=
  got ← ax_get ns;
  mret (match got with
        | Ok _ => Ok true
        | Err e => if is_not_found e then Ok false else Err e
        end).

(** The state is the empty string when it cannot be read. *)
Definition stateViolation (op : string) (ns : Namespace) : R W repo_error :=
  state ← GetState ns;
  mret (StateViolation op (match state with Ok s => Some s | Err _ => None end)).

(** Sending a command and naming a refusal, as the [Begin*] operations do *)
Definition send_begin (op : string) (ns : Namespace) (c : Command) : R W (option repo_error) :=
  err ← ax_send c;
  match err with
  | None => mret None
  | Some e =>
    if is_validation e || is_pipeline_failed e then v ← stateViolation op ns; mret (Some v)
    else mret (Some (ErrStore e))
  end.

(** The assembler, which is [plannedAssemble] of [Assembler]: the execution of a method, for
    an update of the target ref *)
Context (Assemble : Namespace → string → gmap string string → option string →
  R W (result repo_error ResolvedExecution)).

Definition begin_args (ns : Namespace) (id : string) (r : ResolvedExecution) : BeginArgs :=
  mkBeginArgs ns id (Resolved_Steps r) (Resolved_Variables r) (Resolved_WorkDir r).

(** [id] is the [uuid.NewString()] of each operation. *)
Definition BeginInstall_op (ns : Namespace) (vars : gmap string string) (id : string)
  : R W (option repo_error) :=
  resolved ← Assemble ns MethodInstall vars None;
  match resolved with
  | Err e => mret (Some e)
  | Ok r => send_begin "install" ns (BeginInstall (begin_args ns id r))
  end.

Definition BeginExecution_op (ns : Namespace) (method : string) (vars : gmap string string)
  (id : string) : R W (option repo_error) :=
  resolved ← Assemble ns method vars None;
  match resolved with
  | Err e => mret (Some e)
  | Ok r => send_begin (methodOp method) ns
      (BeginExecution (begin_args ns id r) method (Resolved_AvailableIn r))
  end.

Definition BeginUninstall_op (ns : Namespace) (vars : gmap string string) (id : string)
  : R W (option repo_error) :=
  resolved ← Assemble ns MethodUninstall vars None;
  match resolved with
  | Err e => mret (Some e)
  | Ok r => send_begin "uninstall" ns (BeginUninstall (begin_args ns id r))
  end.

Definition BeginUpdate_op (ns : Namespace) (vars : gmap string string) (targetRef id : string)
  : R W (option repo_error) :=
  resolved ← Assemble ns MethodUpdate vars (Some targetRef);
  match resolved with
  | Err e => mret (Some e)
  | Ok r => send_begin "update" ns (BeginUpdate (begin_args ns id r))
  end.

(** The loop of [BeginStop] *)
Fixpoint stop_attempts (n : nat) (ns : Namespace) (c : Command) : R W (option repo_error) :=
  match n with
  | 0 => mret (Some ErrStateViolation)
  | S n' =>
    err ← ax_send c;
    match err with
    | None => mret None
    | Some e =>
      if is_validation e then v ← stateViolation "stop" ns; mret (Some v)
      else if negb (is_pipeline_failed e) then mret (Some (ErrStore e))
      else stop_attempts n' ns c
    end
  end.

Definition BeginStop_op (ns : Namespace) (id : string) : R W (option repo_error) :=
  resolved ← Assemble ns MethodStop ∅ None;
  match resolved with
  | Err ErrMethodNotFound =>
    stop_attempts 5 ns (BeginStop (begin_args ns id no_execution))
  | Err e => mret (Some e)
  | Ok r => stop_attempts 5 ns (BeginStop (begin_args ns id r))
  end.

(** A refusal that names nothing, as the operations below answer *)
Definition send_plain (c : Command) : R W (option repo_error) :=
  err ← ax_send c;
  mret (match err with
        | None => None
        | Some e =>
          if is_validation e || is_pipeline_failed e then Some ErrStateViolation
          else Some (ErrStore e)
        end).

Definition MarkOutdated_op (ns : Namespace) (added removed : list Namespace)
  : R W (option repo_error) := send_plain (MarkOutdated ns added removed).

Definition MarkReady (ns : Namespace) : R W (option repo_error) :=
  send_plain (RecordPreinstalled ns).

Definition MarkPreinstalled (ns : Namespace) : R W (option repo_error) :=
  send_plain (RecordPreinstalled ns).

(** Removing an aggregate if there is one *)
Definition forget_existing (ns : Namespace) : R W (option repo_error) :=
  found ← ax_exists ns;
  match found with
  | Err e => mret (Some (ErrStore e))
  | Ok false => mret None
  | Ok true => err ← ax_forget ns; mret (ErrStore <$> err)
  end.

Definition ForgetPreinstalled (ns : Namespace) : R W (option repo_error) := forget_existing ns.

(** [DeallocateByOwner] is [None] when there is no netbridge. *)
Definition Forget_op (DeallocateByOwner : option (Namespace → R W bool)) (ns : Namespace)
  : R W (option repo_error) :=
  match DeallocateByOwner with
  | None => forget_existing ns
  | Some dealloc =>
    ok ← dealloc ns;
    if ok : bool then forget_existing ns else mret (Some ErrReleasePorts)
  end.

(** ** The version badge *)

Definition versionOutdatedCommand (ns : Namespace) (outdated : bool)
  : R W (result repo_error (option Command)) :=
  current ← ax_get ns;
  mret (match current with
        | Err e => if is_not_found e then Ok None else Err (ErrStore e)
        | Ok rt =>
          if outdated then
            if negb (bool_decide (State rt = ArrowStateReady)) then Ok None
            else Ok (Some (MarkVersionOutdated ns))
          else
            if negb (bool_decide (State rt = ArrowStateOutdated)) ||
               bool_decide (is_Some (PendingDepSync rt)) then Ok None
            else Ok (Some (ClearVersionOutdated ns))
        end).

Definition SetVersionOutdated (ns : Namespace) (outdated : bool) : R W (option repo_error) :=
  cmd ← versionOutdatedCommand ns outdated;
  match cmd with
  | Err e => mret (Some e)
  | Ok None => mret None
  | Ok (Some c) => send_plain c
  end.

Definition ClearVersionBadge (ns : Namespace) : R W (option repo_error) :=
  SetVersionOutdated ns false.

(** The catalog's row for an arrow, as far as it matters here: [None] when there is
    no row, else its [Available]. *)
Context (getArrow : Namespace → R W (result unit (option (option Available)))).

Definition ReconcileVersionBadge_op (ns : Namespace) : R W (option repo_error) :=
  arrow ← getArrow ns;
  match arrow with
  | Err _ => mret (Some ErrGetArrow)
  | Ok None => mret None
  | Ok (Some available) => SetVersionOutdated ns (bool_decide (is_Some available))
  end.

(** ** Recovery after a crash *)

Fixpoint add_new (seen : gset Namespace) (l : list Namespace) : list Namespace :=
  match l with
  | [] => []
  | ns :: l' => if decide (ns ∈ seen) then add_new seen l'
                else ns :: add_new ({[ns]} ∪ seen) l'
  end.

(** Either source is left out when it fails; an arrow is listed with the namespaces
    of its versions. *)
Definition collectRecoveryNamespaces (listArrows : option (list (list Namespace)))
  (listRuntimeAggregates : option (list Namespace)) : list Namespace :=
  add_new ∅ (concat (default [] listArrows) ++ default [] listRuntimeAggregates).

(** [ProcessAlive] of the wizard, during the recovery *)
Context (ProcessAlive : Z → bool).

(** [WithCloseSurface], if it was given *)
Context (close_surface : option (Namespace → R W unit)).

Definition sendRecoverInterrupted (ns : Namespace) : R W unit :=
  _ ← ax_send (RecoverInterrupted ns); mret ().

Definition recoverRunning (ns : Namespace) (rt : ArrowRuntime) : R W unit :=
  let pid := match Exec rt with Some e => PID e | None => 0%Z end in
  if Z.ltb 0 pid && ProcessAlive pid then _ ← ax_send (RecordDetached ns); mret ()
  else
    _ ← sendRecoverInterrupted ns;
    match close_surface, Exec rt ≫= Exec_Surface with
    | Some f, Some _ => f ns
    | _, _ => mret ()
    end.

(** The body of the loop *)
Definition recoverOne (ns : Namespace) : R W unit :=
  failed ← ax_preload ns;
  match failed with
  | Some _ => mret ()
  | None =>
    got ← ax_get ns;
    match got with
    | Err _ => mret ()
    | Ok rt =>
      if String.eqb (RuntimeRef rt) "" then mret ()
      else match State rt with
           | ArrowStateRunning => recoverRunning ns rt
           | ArrowStateInstalling | ArrowStateUninstalling | ArrowStateUpdating
           | ArrowStateStopping | ArrowStateDraining => sendRecoverInterrupted ns
           | _ => mret ()
           end
    end
  end.

Fixpoint recover_all (l : list Namespace) : R W unit :=
  match l with
  | [] => mret ()
  | ns :: l' => _ ← recoverOne ns; recover_all l'
  end.

Definition RecoverTransients (listArrows : option (list (list Namespace)))
  (listRuntimeAggregates : option (list Namespace)) : R W unit :=
  recover_all (collectRecoveryNamespaces listArrows listRuntimeAggregates).
End repo.

(** ** What the repository does to the aggregates *)

(** Running a bind to its end *)
Lemma R_bind_inv {W A B} (m : R W A) (f : A → R W B) w b w' :
  (m ≫= f) w = (b, w') → ∃ a w1, m w = (a, w1) ∧ f a w1 = (b, w').
Proof. unfold mbind, R_bind. destruct (m w) as [a w1]. eauto. Qed.

Ltac r_step H :=
  let a := fresh "a" in
  let w1 := fresh "w" in
  let Hm := fresh "Hm" in
  apply R_bind_inv in H as (a & w1 & Hm & H).

Ltac r_ret H := unfold mret, R_ret in H; first [injection H as <- <-|injection H as <-].

Definition state_of (current : option ArrowRuntime) : ArrowState :=
  match current with Some rt => State rt | None => ArrowStateAbsent end.

Lemma run_write_rejected c ce (st : Store) :
  Apply c (st !! AggregateID c) = Rejected ce → run_write (Send c) st = st.
Proof. simpl. by intros ->. Qed.

Lemma run_write_committed c rt (st : Store) :
  Apply c (st !! AggregateID c) = Committed rt →
  run_write (Send c) st = <[AggregateID c := rt]> st.
Proof. simpl. by intros ->. Qed.

Section lawful.
Context {W : Type} `{Asynx W} (view : W → Store) `{!AsynxLaws W view}.

Lemma send_step c w e w' :
  ax_send c w = (e, w') → view w' = view w ∨ view w' = run_write (Send c) (view w).
Proof.
  intros Hs. destruct e as [e|]; [by eapply send_failed|].
  apply send_committed in Hs as (rt & Ha & ->). right.
  by rewrite (run_write_committed _ _ _ Ha).
Qed.

Lemma stateViolation_pure op ns w e w' : stateViolation op ns w = (e, w') → view w' = view w.
Proof.
  unfold stateViolation, GetState. intros Hs. r_step Hs. r_step Hm. r_ret Hm. r_ret Hs.
  by eapply get_pure.
Qed.

Lemma send_begin_step op ns c w e w' :
  send_begin op ns c w = (e, w') →
  (view w' = view w ∨ view w' = run_write (Send c) (view w)) ∧
  (e = None → ∃ rt, Apply c (view w !! AggregateID c) = Committed rt ∧
    view w' = run_write (Send c) (view w)).
Proof.
  unfold send_begin. intros Hs. r_step Hs. pose proof (send_step _ _ _ _ Hm) as Hst.
  destruct a as [x|].
  - destruct (is_validation x || is_pipeline_failed x).
    + r_step Hs. apply stateViolation_pure in Hm0. r_ret Hs. by rewrite Hm0.
    + r_ret Hs. done.
  - r_ret Hs. split; [done|]. intros _.
    apply send_committed in Hm as (rt & Ha & ->). exists rt. split; [done|].
    by rewrite (run_write_committed _ _ _ Ha).
Qed.

(** A stop is refused while one runs, so it can be sent again. *)
Lemma BeginStop_again args (st : Store) :
  run_write (Send (BeginStop args)) (run_write (Send (BeginStop args)) st) =
  run_write (Send (BeginStop args)) st.
Proof.
  simpl. destruct (Apply (BeginStop args) (st !! begin_ns args)) as [rt|e|] eqn:Ha;
    [|by rewrite Ha..]. rewrite lookup_insert. rewrite decide_True by done.
  unfold Apply in Ha. destruct (Validate _ _); [done|]. simpl in Ha. injection Ha as <-.
  unfold Apply. simpl. by destruct (String.eqb (begin_ns args) "").
Qed.

Lemma stop_attempts_step n ns args w e w' :
  stop_attempts n ns (BeginStop args) w = (e, w') →
  (view w' = view w ∨ view w' = run_write (Send (BeginStop args)) (view w)) ∧
  (e = None → view w' = run_write (Send (BeginStop args)) (view w) ∧
    ∃ rt, Apply (BeginStop args) (view w !! begin_ns args) = Committed rt).
Proof.
  revert w. induction n as [|n IH]; intros w Hs; simpl in Hs.
  { r_ret Hs. split; [by left|done]. }
  r_step Hs. pose proof (send_step _ _ _ _ Hm) as Hst. destruct a as [x|].
  - destruct (is_validation x).
    { r_step Hs. apply stateViolation_pure in Hm0. r_ret Hs. by rewrite Hm0. }
    destruct (negb (is_pipeline_failed x)); [r_ret Hs; done|].
    apply IH in Hs as [Hs Hn]. destruct Hst as [Hst|Hst]; rewrite Hst in Hs, Hn; [done|].
    rewrite BeginStop_again in Hs, Hn. split; [tauto|]. intros He.
    destruct (Hn He) as [-> (rt & Ha)]. split; [done|].
    simpl in Ha. destruct (Apply (BeginStop args) (view w !! begin_ns args)) eqn:Ha';
      [eauto|congruence..].
  - r_ret Hs. split; [done|]. intros _. apply send_committed in Hm as (rt & Ha & ->).
    rewrite (run_write_committed _ _ _ Ha). eauto.
Qed.
End lawful.

(** ** Beginning a run *)

(** What a client asks for *)
Inductive request :=
| ReqInstall (vars : gmap string string)
| ReqExecution (method : string) (vars : gmap string string)
| ReqStop
| ReqUninstall (vars : gmap string string)
| ReqUpdate (vars : gmap string string) (targetRef : string).

Definition request_method (r : request) : string :=
  match r with
  | ReqInstall _ => MethodInstall | ReqExecution m _ => m | ReqStop => MethodStop
  | ReqUninstall _ => MethodUninstall | ReqUpdate _ _ => MethodUpdate
  end.

Definition request_vars (r : request) : gmap string string :=
  match r with
  | ReqInstall v | ReqExecution _ v | ReqUninstall v | ReqUpdate v _ => v
  | ReqStop => ∅
  end.

Definition request_ref (r : request) : option string :=
  match r with ReqUpdate _ ref => Some ref | _ => None end.

(** The verb a refusal names *)
Definition request_op (r : request) : string :=
  match r with
  | ReqInstall _ => "install" | ReqExecution m _ => methodOp m | ReqStop => "stop"
  | ReqUninstall _ => "uninstall" | ReqUpdate _ _ => "update"
  end.

(** The command a request becomes once its run is assembled *)
Definition request_command (r : request) (args : BeginArgs) (states : list ArrowState) : Command :=
  match r with
  | ReqInstall _ => BeginInstall args
  | ReqExecution m _ => BeginExecution args m states
  | ReqStop => BeginStop args
  | ReqUninstall _ => BeginUninstall args
  | ReqUpdate _ _ => BeginUpdate args
  end.

(** What the assembler's answer makes of a request: only a stop needs no method. *)
Definition request_resolved (r : request) (a : result repo_error ResolvedExecution)
  : result repo_error ResolvedExecution :=
  match r, a with
  | ReqStop, Err ErrMethodNotFound => Ok no_execution
  | _, _ => a
  end.

Section begin.
Context {W : Type} `{Asynx W} (view : W → Store) `{!AsynxLaws W view}.
Context (Assemble : Namespace → string → gmap string string → option string →
  R W (result repo_error ResolvedExecution)).

Definition perform (r : request) (ns : Namespace) (id : string) : R W (option repo_error) :=
  match r with
  | ReqInstall vars => BeginInstall_op Assemble ns vars id
  | ReqExecution method vars => BeginExecution_op Assemble ns method vars id
  | ReqStop => BeginStop_op Assemble ns id
  | ReqUninstall vars => BeginUninstall_op Assemble ns vars id
  | ReqUpdate vars targetRef => BeginUpdate_op Assemble ns vars targetRef id
  end.

Lemma request_command_ns r args states : AggregateID (request_command r args states) = begin_ns args.
Proof. by destruct r. Qed.

(** Every request is: assemble, then send the command, until it is accepted if it
    is a stop. *)
Lemma perform_unfold r ns id w :
  perform r ns id w =
  let '(a, w1) := Assemble ns (request_method r) (request_vars r) (request_ref r) w in
  match request_resolved r a with
  | Err e => (Some e, w1)
  | Ok x =>
    let c := request_command r (begin_args ns id x) (Resolved_AvailableIn x) in
    match r with
    | ReqStop => stop_attempts 5 ns c w1
    | _ => send_begin (request_op r) ns c w1
    end
  end.
Proof.
  destruct r; cbn [perform request_method request_vars request_ref];
    unfold BeginInstall_op, BeginExecution_op, BeginStop_op, BeginUninstall_op, BeginUpdate_op,
      mbind at 1, R_bind at 1;
    destruct (Assemble _ _ _ _ w) as [[x|[]] w1]; reflexivity.
Qed.

(** What a request does, whatever the store answers *)
Lemma perform_begins r ns id w e w' a w1 :
  Assemble ns (request_method r) (request_vars r) (request_ref r) w = (a, w1) →
  view w1 = view w →
  perform r ns id w = (e, w') →
  match request_resolved r a with
  | Err x => e = Some x ∧ view w' = view w
  | Ok x =>
    let c := request_command r (begin_args ns id x) (Resolved_AvailableIn x) in
    (view w' = view w ∨ view w' = run_write (Send c) (view w)) ∧
    (e = None → view w' = run_write (Send c) (view w) ∧
      ∃ rt, Apply c (view w !! ns) = Committed rt)
  end.
Proof.
  intros Ha Hv Hp. rewrite perform_unfold, Ha in Hp.
  destruct (request_resolved r a) as [x|x].
  2: { by simplify_eq. }
  cbv zeta in *. rewrite <- Hv.
  set (c := request_command r _ _) in *.
  assert (AggregateID c = ns) as Hns by apply request_command_ns.
  destruct r; cbv beta iota in Hp.
  3: { apply (stop_attempts_step view) in Hp as [? Hn]. split; [done|]. exact Hn. }
  all: apply (send_begin_step view) in Hp as [? Hn]; split; [done|];
    intros He; destruct (Hn He) as (rt & Hc & Hw); rewrite Hns in Hc; eauto.
Qed.

(** Whatever the store answers, a request begins at most the run it assembled,
    in its own arrow and with the id it drew, even when a stop is sent again
    because the answer was lost; and it reports success only if that run was
    accepted. *)
Lemma request_begins_once r ns id w e w' a w1 :
  Assemble ns (request_method r) (request_vars r) (request_ref r) w = (a, w1) →
  view w1 = view w →
  perform r ns id w = (e, w') →
  match request_resolved r a with
  | Err x => e = Some x ∧ view w' = view w
  | Ok x =>
    let c := request_command r (begin_args ns id x) (Resolved_AvailableIn x) in
    (view w' = view w ∨ view w' = run_write (Send c) (view w)) ∧
    (e = None → view w' = run_write (Send c) (view w) ∧
      ∃ rt, Apply c (view w !! ns) = Committed rt)
  end.
Proof. exact (perform_begins r ns id w e w' a w1). Qed.

Context `{!AsynxReliable W view}.

Lemma send_reliable c w e w' :
  ax_send c w = (e, w') →
  view w' = run_write (Send c) (view w) ∧
  match Apply c (view w !! AggregateID c) with
  | Committed _ => e = None
  | _ => ∃ x, e = Some x ∧ is_validation x = true
  end.
Proof.
  intros Hs. destruct e as [x|].
  - pose proof (reliable_send _ _ _ _ Hs) as Hx.
    destruct (send_refused _ _ _ _ Hs Hx) as [-> (ce & Hr)].
    rewrite (run_write_rejected _ _ _ Hr), Hr. eauto.
  - apply send_committed in Hs as (rt & Ha & ->).
    by rewrite (run_write_committed _ _ _ Ha), Ha.
Qed.

Lemma get_reliable ns w r w' :
  ax_get ns w = (r, w') → view w' = view w ∧
  match view w !! ns with
  | Some rt => r = Ok rt
  | None => ∃ e, r = Err e ∧ is_not_found e = true
  end.
Proof.
  intros Hg. split; [by eapply get_pure|]. destruct r as [rt|e].
  - by rewrite (get_found _ _ _ _ Hg).
  - pose proof (reliable_get _ _ _ _ Hg) as He. rewrite (get_missing _ _ _ _ Hg He). eauto.
Qed.

Lemma stateViolation_reliable op ns w e w' :
  stateViolation op ns w = (e, w') →
  e = StateViolation op (Some (state_of (view w !! ns))) ∧ view w' = view w.
Proof.
  unfold stateViolation, GetState. intros Hs. r_step Hs. r_step Hm.
  apply get_reliable in Hm0 as [Hv Hr]. r_ret Hm. r_ret Hs. split; [|done].
  destruct (view w !! ns) as [rt|]; [by rewrite Hr|]. destruct Hr as (x & -> & ->). done.
Qed.

(** What a reliable store makes of a command and an operation *)
Definition answer_of (op : string) (c : Command) (st : Store) : option repo_error :=
  match Apply c (st !! AggregateID c) with
  | Committed _ => None
  | _ => Some (StateViolation op (Some (state_of (st !! AggregateID c))))
  end.

Lemma violation_answer op ns c w w0 e w' :
  AggregateID c = ns → (∀ rt, Apply c (view w !! ns) ≠ Committed rt) →
  view w0 = run_write (Send c) (view w) →
  stateViolation op ns w0 = (e, w') →
  Some e = answer_of op c (view w) ∧ view w' = run_write (Send c) (view w).
Proof.
  intros Hns Hc Hw Hs. apply stateViolation_reliable in Hs as [-> Hv].
  assert (view w0 = view w) as Hw0.
  { rewrite Hw. simpl. rewrite Hns. destruct (Apply c (view w !! ns)) eqn:Ha; [|done..].
    by destruct (Hc rt). }
  rewrite Hv, Hw. split; [|done]. rewrite <- Hw, Hw0. unfold answer_of. rewrite Hns.
  destruct (Apply c (view w !! ns)) eqn:Ha; [|done..]. by destruct (Hc rt).
Qed.

Lemma send_begin_reliable op c w e w' :
  send_begin op (AggregateID c) c w = (e, w') →
  e = answer_of op c (view w) ∧ view w' = run_write (Send c) (view w).
Proof.
  unfold send_begin. intros Hs. r_step Hs. apply send_reliable in Hm as [Hv Ha].
  destruct (Apply c (view w !! AggregateID c)) as [rt|ce|] eqn:HA.
  - subst. r_ret Hs. split; [|done]. unfold answer_of. by rewrite HA.
  - destruct Ha as (x & -> & Hx). rewrite Hx in Hs. r_step Hs. r_ret Hs.
    eapply violation_answer; [done| |exact Hv|exact Hm]. by rewrite HA.
  - destruct Ha as (x & -> & Hx). rewrite Hx in Hs. r_step Hs. r_ret Hs.
    eapply violation_answer; [done| |exact Hv|exact Hm]. by rewrite HA.
Qed.

Lemma stop_attempts_reliable n c w e w' :
  stop_attempts (S n) (AggregateID c) c w = (e, w') →
  e = answer_of "stop" c (view w) ∧ view w' = run_write (Send c) (view w).
Proof.
  cbn [stop_attempts]. intros Hs. r_step Hs. apply send_reliable in Hm as [Hv Ha].
  destruct (Apply c (view w !! AggregateID c)) as [rt|ce|] eqn:HA.
  - subst. r_ret Hs. split; [|done]. unfold answer_of. by rewrite HA.
  - destruct Ha as (x & -> & Hx). rewrite Hx in Hs. r_step Hs. r_ret Hs.
    eapply violation_answer; [done| |exact Hv|exact Hm]. by rewrite HA.
  - destruct Ha as (x & -> & Hx). rewrite Hx in Hs. r_step Hs. r_ret Hs.
    eapply violation_answer; [done| |exact Hv|exact Hm]. by rewrite HA.
Qed.

(** C4. Over a reliable store a request does exactly what its command does to the
    aggregate, and a refusal names the operation and the state the arrow is in,
    absent when it has no aggregate; a method the arrow lacks is an error, except
    for a stop, which then has no steps. *)
Theorem request_refines r ns id w e w' a w1 :
  Assemble ns (request_method r) (request_vars r) (request_ref r) w = (a, w1) →
  view w1 = view w →
  perform r ns id w = (e, w') →
  match request_resolved r a with
  | Err x => e = Some x ∧ view w' = view w
  | Ok x =>
    let c := request_command r (begin_args ns id x) (Resolved_AvailableIn x) in
    e = answer_of (request_op r) c (view w) ∧ view w' = run_write (Send c) (view w)
  end.
Proof.
  intros Ha Hv Hp. rewrite perform_unfold, Ha in Hp.
  destruct (request_resolved r a) as [x|x].
  2: { by simplify_eq. }
  cbv zeta in *. rewrite <- Hv.
  set (c := request_command r _ _) in *.
  assert (ns = AggregateID c) as Hns by (symmetry; apply request_command_ns).
  rewrite Hns in Hp. destruct r; try (by apply send_begin_reliable). by eapply stop_attempts_reliable.
Qed.
End begin.

(** ** The aggregates themselves are such a store *)

Definition refused : ax_error := mkAxError true false false false false false false.
Definition not_found : ax_error := mkAxError false false false false false false true.

#[export] Instance Asynx_Store : Asynx Store := {|
  ax_send c st :=
    match Apply c (st !! AggregateID c) with
    | Committed rt => (None, <[AggregateID c := rt]> st)
    | _ => (Some refused, st)
    end;
  ax_get ns st := (match st !! ns with Some rt => Ok rt | None => Err not_found end, st);
  ax_exists ns st := (Ok (bool_decide (is_Some (st !! ns))), st);
  ax_forget ns st := (None, delete ns st);
  ax_preload ns st := (None, st);
|}.

#[export] Instance AsynxLaws_Store : AsynxLaws Store id.
Proof.
  split; simpl; unfold id; intros; simplify_eq; eauto.
  - destruct (Apply_cases c (w !! AggregateID c)) as [(e & _ & Ha)|(rt & _ & _ & Ha)];
      rewrite Ha in *; simplify_eq. eauto.
  - destruct (Apply_cases c (w !! AggregateID c)) as [(e' & _ & Ha)|(rt & _ & _ & Ha)];
      rewrite Ha in *; simplify_eq. eauto.
  - left. destruct (Apply c _); by simplify_eq.
  - by destruct (w' !! ns); simplify_eq.
  - by destruct (w' !! ns); simplify_eq.
Qed.

#[export] Instance AsynxReliable_Store : AsynxReliable Store id.
Proof.
  split; simpl; intros; simplify_eq; try done.
  - by destruct (Apply c _); simplify_eq.
  - by destruct (w' !! ns); simplify_eq.
Qed.

(** ** Recovery after a crash *)

Section recovery.
Context (ProcessAlive : Z → bool).

(** What becomes of an aggregate: a run that outlived the daemon is detached, one
    that did not leaves the arrow ready, and what was being put on or taken off the
    disk is gone. *)
Definition recovered (ns : Namespace) (rt : ArrowRuntime) : ArrowRuntime :=
  let alive := match Exec rt with Some e => Z.ltb 0 (PID e) && ProcessAlive (PID e)
               | None => false end in
  let to (s : ArrowState) (ref : Namespace) := mkRuntime ref s None (LastReturn rt) None in
  if String.eqb (RuntimeRef rt) "" then rt
  else match State rt with
       | ArrowStateRunning =>
         if alive then to ArrowStateDetached (RuntimeRef rt) else to ArrowStateReady ns
       | ArrowStateStopping | ArrowStateDraining => to ArrowStateReady ns
       | ArrowStateInstalling | ArrowStateUninstalling | ArrowStateUpdating =>
         to ArrowStateAbsent ns
       | _ => rt
       end.

Lemma recovered_idemp ns rt : recovered ns (recovered ns rt) = recovered ns rt.
Proof.
  unfold recovered at 2 3. destruct (String.eqb (RuntimeRef rt) "") eqn:Href.
  { unfold recovered. by rewrite Href. }
  destruct (State rt) eqn:Hs; repeat case_match; unfold recovered; simpl;
    rewrite ?Hs; by repeat case_match.
Qed.

(** Recovery leaves no run behind. *)
Lemma recovered_idle ns rt :
  ns ≠ "" → wf_runtime ns rt → busy (State (recovered ns rt)) = false ∧ Exec (recovered ns rt) = None.
Proof.
  intros Hns Hwf. unfold recovered. rewrite (wf_not_empty_ref _ _ Hns Hwf).
  pose proof (wf_busy _ _ Hwf) as Hb.
  destruct (State rt) eqn:Hs; repeat case_match; simpl; try done;
    rewrite ?Hs; simpl; (split; [done|]); destruct (Exec rt) eqn:He; try done;
    destruct Hb as [_ Hb]; specialize (Hb ltac:(eauto)); simpl in Hb; done.
Qed.
End recovery.

Section recovery_steps.
Context {W : Type} `{Asynx W} (view : W → Store) `{!AsynxLaws W view}.
Context (ProcessAlive : Z → bool) (close_surface : option (Namespace → R W unit)).
Context (close_pure : ∀ f ns w u w', close_surface = Some f → f ns w = (u, w') → view w' = view w).

(** The aggregate is recovered, or the store failed and left it. *)
Definition recovered_or_failed (ns : Namespace) (w w' : W) : Prop :=
  view w' = alter (recovered ProcessAlive ns) ns (view w) ∨
  ¬ AsynxReliable W view ∧ view w' = view w.

(** Sending the command that recovers the aggregate *)
Lemma send_recovered c ns rt w e w' :
  AggregateID c = ns → view w !! ns = Some rt →
  Apply c (Some rt) = Committed (recovered ProcessAlive ns rt) →
  ax_send c w = (e, w') → recovered_or_failed ns w w'.
Proof.
  intros Hns Hrt Ha Hs.
  assert (run_write (Send c) (view w) = alter (recovered ProcessAlive ns) ns (view w)) as Hw.
  { rewrite (run_write_committed _ (recovered ProcessAlive ns rt)) by by rewrite Hns, Hrt.
    rewrite Hns. apply map_eq. intros n. destruct (decide (n = ns)) as [->|Hn].
    - by rewrite lookup_insert_eq, lookup_alter_eq, Hrt.
    - by rewrite lookup_insert_ne, lookup_alter_ne. }
  destruct e as [x|].
  - destruct (send_failed _ _ _ _ Hs) as [Hv|Hv]; [|left; by rewrite Hv].
    right. split; [|done]. intros Hrel.
    destruct (send_refused _ _ _ _ Hs) as [_ (ce & Hr)]; [by eapply reliable_send|].
    rewrite Hns, Hrt, Ha in Hr. done.
  - left. apply send_committed in Hs as (rt' & Ha' & ->).
    by rewrite <- Hw, (run_write_committed _ _ _ Ha').
Qed.

(** An aggregate recovery leaves alone *)
Lemma recovered_same ns w w' :
  recovered ProcessAlive ns <$> view w !! ns = view w !! ns → view w' = view w →
  recovered_or_failed ns w w'.
Proof.
  intros Hrec Hv. left. rewrite Hv. apply map_eq. intros n.
  destruct (decide (n = ns)) as [->|Hn].
  - by rewrite lookup_alter_eq, Hrec.
  - by rewrite lookup_alter_ne.
Qed.

Lemma recoverRunning_step ns rt w w' :
  view w !! ns = Some rt → RuntimeRef rt ≠ "" → State rt = ArrowStateRunning →
  recoverRunning ProcessAlive close_surface ns rt w = ((), w') → recovered_or_failed ns w w'.
Proof.
  intros Hrt Href%String.eqb_neq Hst Hr. unfold recoverRunning in Hr.
  set (pid := match Exec rt with Some e => PID e | None => 0%Z end) in *.
  assert (recovered ProcessAlive ns rt =
    if Z.ltb 0 pid && ProcessAlive pid then mkRuntime (RuntimeRef rt) ArrowStateDetached None (LastReturn rt) None
    else mkRuntime ns ArrowStateReady None (LastReturn rt) None) as Hrec.
  { unfold recovered. rewrite Href, Hst. unfold pid. by destruct (Exec rt). }
  destruct (Z.ltb 0 pid && ProcessAlive pid).
  - r_step Hr. r_ret Hr. eapply (send_recovered (RecordDetached ns)); [done|done| |done].
    unfold Apply. simpl. rewrite Href, Hst. simpl. by rewrite Hrec.
  - r_step Hr. unfold sendRecoverInterrupted in Hm. r_step Hm. r_ret Hm.
    assert (recovered_or_failed ns w w1) as Hs.
    { eapply (send_recovered (RecoverInterrupted ns)); [done|done| |done].
      unfold Apply. simpl. rewrite Href, Hst. simpl. by rewrite Hrec. }
    assert (view w' = view w1) as Hv.
    { destruct close_surface as [f|] eqn:Hf; [|by r_ret Hr].
      destruct (Exec rt ≫= Exec_Surface); [by eapply close_pure|by r_ret Hr]. }
    unfold recovered_or_failed. by rewrite Hv.
Qed.

Lemma recoverOne_step ns w w' :
  recoverOne ProcessAlive close_surface ns w = ((), w') → recovered_or_failed ns w w'.
Proof.
  unfold recoverOne. intros Hr. r_step Hr. pose proof (preload_pure _ _ _ _ Hm) as Hv.
  destruct a as [e|].
  { r_ret Hr. right. split; [|done]. intros Hrel. by destruct (reliable_preload _ _ _ _ Hm). }
  r_step Hr. pose proof (get_pure _ _ _ _ Hm0) as Hv1. rewrite Hv in Hv1. destruct a as [rt|e].
  2: { r_ret Hr. destruct (view w !! ns) as [rt|] eqn:Hrt.
       - right. split; [|done]. intros Hrel. pose proof (reliable_get _ _ _ _ Hm0) as He.
         apply (get_missing _ _ _ _ Hm0) in He. congruence.
       - apply recovered_same; [by rewrite Hrt|done]. }
  pose proof (get_found _ _ _ _ Hm0) as Hrt. rewrite Hv in Hrt.
  assert (recovered_or_failed ns w1 w' → recovered_or_failed ns w w') as Hback
    by (unfold recovered_or_failed; by rewrite Hv1).
  destruct (String.eqb (RuntimeRef rt) "") eqn:Href.
  { r_ret Hr. apply recovered_same; [|done]. rewrite Hrt. simpl. unfold recovered. by rewrite Href. }
  destruct (State rt) eqn:Hst;
    try (r_ret Hr; apply recovered_same; [|done]; rewrite Hrt; simpl; unfold recovered;
      by rewrite Href, Hst);
    apply Hback; rewrite <- Hv1 in Hrt;
    try (unfold sendRecoverInterrupted in Hr; r_step Hr; r_ret Hr;
      eapply (send_recovered (RecoverInterrupted ns)); [done|exact Hrt| |done];
      unfold Apply, recovered; simpl; by rewrite Href, Hst).
  eapply recoverRunning_step; [exact Hrt| |done|done]. by apply String.eqb_neq.
Qed.

Lemma recover_all_step l w w' :
  recover_all ProcessAlive close_surface l w = ((), w') →
  ∀ ns, view w' !! ns = (if decide (ns ∈ l) then recovered ProcessAlive ns <$> view w !! ns
                         else view w !! ns) ∨
    ¬ AsynxReliable W view ∧ view w' !! ns = view w !! ns.
Proof.
  revert w. induction l as [|n l IH]; intros w Hr ns; simpl in Hr.
  { r_ret Hr. left. by rewrite decide_False by apply not_elem_of_nil. }
  r_step Hr. destruct a. apply recoverOne_step in Hm. specialize (IH _ Hr ns).
  assert (view w0 !! ns = (if decide (ns = n) then recovered ProcessAlive ns <$> view w !! ns
                           else view w !! ns) ∨
    ¬ AsynxReliable W view ∧ view w0 !! ns = view w !! ns) as Hone.
  { destruct Hm as [->|[? ->]]; [left|by right]. destruct (decide (ns = n)) as [->|Hn].
    - by rewrite lookup_alter_eq.
    - by rewrite lookup_alter_ne. }
  destruct (decide (ns ∈ n :: l)) as [Hin|Hin].
  - destruct (decide (ns = n)) as [->|Hn].
    + destruct IH as [->|[HR ->]], Hone as [->|[HR' ->]]; auto;
        destruct (decide (n ∈ l)); auto; left; destruct (view w !! n); simpl; auto.
      by rewrite recovered_idemp.
    + apply elem_of_cons in Hin as [?|Hin]; [done|]. rewrite decide_True in IH by done.
      destruct Hone as [Hone|[_ Hone]]; rewrite Hone in IH; exact IH.
  - apply not_elem_of_cons in Hin as [Hn Hin]. rewrite decide_False in IH by done.
    rewrite decide_False in Hone by done.
    destruct Hone as [Hone|[_ Hone]]; rewrite Hone in IH; tauto.
Qed.
End recovery_steps.

Lemma elem_of_add_new seen l ns : ns ∈ add_new seen l ↔ ns ∈ l ∧ ns ∉ seen.
Proof.
  revert seen. induction l as [|n l IH]; intros seen; simpl.
  { split; [by intros ?%not_elem_of_nil|by intros [?%not_elem_of_nil _]]. }
  case_decide; rewrite ?elem_of_cons, IH; [naive_solver|].
  rewrite not_elem_of_union, not_elem_of_singleton. destruct (decide (ns = n)); naive_solver.
Qed.

Lemma elem_of_collect la lr ns :
  ns ∈ collectRecoveryNamespaces la lr ↔ ns ∈ concat (default [] la) ∨ ns ∈ default [] lr.
Proof.
  unfold collectRecoveryNamespaces. rewrite elem_of_add_new, elem_of_app.
  pose proof (not_elem_of_empty (C := gset Namespace) ns). tauto.
Qed.

(** C5. Recovery after a crash settles every listed aggregate exactly as the state it
    was found in calls for, and no other; an aggregate the failing store did not let
    it settle stays as it was.  So once it has run on a store that works, no listed
    arrow performs a run. *)
Theorem recovery_settles {W} `{Asynx W} (view : W → Store) `{!AsynxLaws W view} ProcessAlive
  close_surface (close_pure : ∀ f ns w u w', close_surface = Some f → f ns w = (u, w') →
    view w' = view w) listArrows listRuntimeAggregates w w' :
  RecoverTransients ProcessAlive close_surface listArrows listRuntimeAggregates w = ((), w') →
  (∀ ns, view w' !! ns = (if decide (ns ∈ concat (default [] listArrows) ++ default [] listRuntimeAggregates)
                          then recovered ProcessAlive ns <$> view w !! ns else view w !! ns) ∨
     ¬ AsynxReliable W view ∧ view w' !! ns = view w !! ns) ∧
  (AsynxReliable W view → wf_store (view w) → ∀ ns rt,
     ns ≠ "" → ns ∈ concat (default [] listArrows) ++ default [] listRuntimeAggregates →
     view w' !! ns = Some rt → busy (State rt) = false ∧ Exec rt = None).
Proof.
  intros Hr. pose proof (recover_all_step view _ _ close_pure _ _ _ Hr) as Hall.
  assert (∀ (A : Type) ns (x y : A),
    (if decide (ns ∈ collectRecoveryNamespaces listArrows listRuntimeAggregates) then x else y) =
    (if decide (ns ∈ concat (default [] listArrows) ++ default [] listRuntimeAggregates)
     then x else y)) as Hd.
  { intros A ns x y. apply decide_ext. by rewrite elem_of_collect, elem_of_app. }
  setoid_rewrite Hd in Hall. split; [exact Hall|].
  intros Hrel Hwf ns rt Hns Hin Hrt. destruct (Hall ns) as [Hx|[? _]]; [|done].
  rewrite decide_True in Hx by done. rewrite Hrt in Hx.
  destruct (view w !! ns) as [rt0|] eqn:H0; simplify_eq/=.
  apply recovered_idle; [done|]. exact (Hwf _ _ H0).
Qed.

(** ** The version badge *)

(** The state an arrow has when something newer is known to be available or not *)
Definition badged (outdated : bool) (rt : ArrowRuntime) : ArrowRuntime :=
  let to s := mkRuntime (RuntimeRef rt) s (Exec rt) (LastReturn rt) (PendingDepSync rt) in
  match State rt, outdated with
  | ArrowStateReady, true => to ArrowStateOutdated
  | ArrowStateOutdated, false =>
    match PendingDepSync rt with Some _ => rt | None => to ArrowStateReady end
  | _, _ => rt
  end.

Lemma badged_idemp b rt : badged b (badged b rt) = badged b rt.
Proof. destruct rt as [r s e lr p]. by destruct s, b, p. Qed.

Lemma alter_lookup_same (f : ArrowRuntime → ArrowRuntime) (st : Store) ns :
  (∀ rt, st !! ns = Some rt → f rt = rt) → alter f ns st = st.
Proof.
  intros Hf. apply map_eq. intros n. destruct (decide (n = ns)) as [->|Hn].
  - rewrite lookup_alter_eq. destruct (st !! ns) as [rt|] eqn:Hrt; [|done]. simpl. by rewrite Hf.
  - by rewrite lookup_alter_ne.
Qed.

Lemma alter_lookup_insert (f : ArrowRuntime → ArrowRuntime) (st : Store) ns rt :
  st !! ns = Some rt → alter f ns st = <[ns := f rt]> st.
Proof.
  intros Hrt. apply map_eq. intros n. destruct (decide (n = ns)) as [->|Hn].
  - by rewrite lookup_alter_eq, lookup_insert_eq, Hrt.
  - by rewrite lookup_alter_ne, lookup_insert_ne.
Qed.

(** The command picked for an aggregate does to it what the badge calls for. *)
Lemma MarkVersionOutdated_badged ns rt :
  ns ≠ "" → wf_runtime ns rt → State rt = ArrowStateReady →
  Apply (MarkVersionOutdated ns) (Some rt) = Committed (badged true rt).
Proof.
  intros Hns Hwf Hs. pose proof (wf_not_empty_ref _ _ Hns Hwf) as Href.
  pose proof (wf_busy _ _ Hwf) as Hb. pose proof (wf_ref _ _ Hwf) as Hr.
  destruct rt as [r s e lr p]. simpl in *. subst. unfold Apply. simpl. rewrite Href.
  destruct e; [|done]. destruct Hb as [_ Hb]. by discriminate (Hb ltac:(eauto)).
Qed.

Lemma ClearVersionOutdated_badged ns rt :
  ns ≠ "" → wf_runtime ns rt → State rt = ArrowStateOutdated → PendingDepSync rt = None →
  Apply (ClearVersionOutdated ns) (Some rt) = Committed (badged false rt).
Proof.
  intros Hns Hwf Hs Hp. pose proof (wf_not_empty_ref _ _ Hns Hwf) as Href.
  pose proof (wf_busy _ _ Hwf) as Hb. pose proof (wf_ref _ _ Hwf) as Hr.
  destruct rt as [r s e lr p]. simpl in *. subst. unfold Apply. simpl. rewrite Href.
  destruct e; [|done]. destruct Hb as [_ Hb]. by discriminate (Hb ltac:(eauto)).
Qed.

Section badge.
Context {W : Type} `{Asynx W} (view : W → Store) `{!AsynxLaws W view} `{!AsynxReliable W view}.

(** Sending a command the aggregate accepts *)
Lemma send_plain_accepted c ns rt rt' w e w' :
  AggregateID c = ns → view w !! ns = Some rt → Apply c (Some rt) = Committed rt' →
  send_plain c w = (e, w') → e = None ∧ view w' = <[ns := rt']> (view w).
Proof.
  unfold send_plain. intros Hns Hrt Ha Hs. r_step Hs.
  apply (send_reliable view) in Hm as [Hv Hc]. rewrite Hns, Hrt, Ha in Hc. subst a. r_ret Hs.
  split; [done|]. rewrite Hv, (run_write_committed _ rt'), Hns; [done|]. by rewrite Hns, Hrt.
Qed.

Lemma SetVersionOutdated_badged ns outdated w e w' :
  ns ≠ "" → wf_store (view w) → SetVersionOutdated ns outdated w = (e, w') →
  e = None ∧ view w' = alter (badged outdated) ns (view w).
Proof.
  intros Hns Hwf Hs. unfold SetVersionOutdated, versionOutdatedCommand in Hs. r_step Hs. r_step Hm.
  apply (get_reliable view) in Hm0 as [Hv Hg]. r_ret Hm.
  destruct (view w !! ns) as [rt|] eqn:Hrt.
  2: { destruct Hg as (x & -> & Hx). rewrite Hx in Hs. r_ret Hs. split; [done|].
       rewrite Hv. symmetry. apply alter_lookup_same. by rewrite Hrt. }
  subst. pose proof (Hwf _ _ Hrt) as Hw. simpl in Hw.
  assert (badged outdated rt = rt → (None : option repo_error, w1) = (e, w') →
    e = None ∧ view w' = alter (badged outdated) ns (view w)) as Hsame.
  { intros Hb [= <- <-]. split; [done|]. rewrite Hv. symmetry. apply alter_lookup_same.
    intros rt' Hrt'. by simplify_eq. }
  rewrite (alter_lookup_insert _ _ _ _ Hrt) in *. rewrite <- Hv in *. destruct outdated.
  - case_bool_decide as Hst; simpl in Hs.
    + by eapply send_plain_accepted, Hs; [| |apply MarkVersionOutdated_badged].
    + apply Hsame; [|done]. unfold badged. by destruct (State rt).
  - case_bool_decide as Hst; simpl in Hs.
    + case_bool_decide as Hp; simpl in Hs.
      * apply Hsame; [|done]. unfold badged. rewrite Hst. by destruct (PendingDepSync rt), Hp.
      * eapply send_plain_accepted, Hs; [done|done|]. apply ClearVersionOutdated_badged; try done.
        destruct (PendingDepSync rt); [|done]. by destruct Hp.
    + apply Hsame; [|done]. unfold badged. by destruct (State rt).
Qed.
End badge.

(** Once an execution has ended, putting the badge back derives it from the
    catalog's row as it stands: over a reliable store an arrow with something available
    reads outdated and one without reads ready, a dependency sync that is pending keeps
    its badge, any other state and everything else of the aggregate is left alone, and
    doing it again changes nothing. *)
Lemma version_badge_projects {W} `{Asynx W} (view : W → Store) `{!AsynxLaws W view}
  `{!AsynxReliable W view} getArrow ns w e w' a w1 :
  ns ≠ "" → wf_store (view w) → getArrow ns w = (a, w1) → view w1 = view w →
  ReconcileVersionBadge_op getArrow ns w = (e, w') →
  match a with
  | Err _ => e = Some ErrGetArrow ∧ view w' = view w
  | Ok None => e = None ∧ view w' = view w
  | Ok (Some available) =>
    let badge := badged (bool_decide (is_Some available)) in
    e = None ∧ view w' = alter badge ns (view w) ∧ alter badge ns (view w') = view w' ∧
    ∀ rt, view w !! ns = Some rt →
      State (badge rt) =
        (if bool_decide (State rt = ArrowStateReady) || bool_decide (State rt = ArrowStateOutdated)
         then if bool_decide (is_Some available) || bool_decide (is_Some (PendingDepSync rt))
              then ArrowStateOutdated else ArrowStateReady
         else State rt) ∧
      PendingDepSync (badge rt) = PendingDepSync rt ∧ LastReturn (badge rt) = LastReturn rt ∧
      Exec (badge rt) = Exec rt
  end.
Proof.
  intros Hns Hwf Ha Hv Hr. unfold ReconcileVersionBadge_op, mbind, R_bind in Hr. rewrite Ha in Hr.
  destruct a as [[available|]|u]; [|by r_ret Hr..].
  rewrite <- Hv in *. destruct (SetVersionOutdated_badged view _ _ _ _ _ Hns Hwf Hr) as [-> Hw].
  cbv zeta. rewrite Hw. split_and!; [done|done| |].
  - apply alter_lookup_same. intros rt. rewrite lookup_alter_eq. destruct (view w1 !! ns); simpl; [|done].
    intros [= <-]. apply badged_idemp.
  - intros rt Hrt. pose proof (wf_depsync _ _ (Hwf _ _ Hrt)) as Hd.
    destruct rt as [r s x lr p]. simpl in *.
    destruct s, available, p; simpl; try (split_and!; done); by specialize (Hd ltac:(eauto)).
Qed.

(** ** Witnesses over the aggregates themselves *)

Section samples.
Definition sample_ns : Namespace := "github.com/user/app@v1".
Definition sample_args : BeginArgs := mkBeginArgs sample_ns "run-1" [] ∅ "/data/app".

(** An arrow that runs as process 42 *)
Definition sample_store : Store :=
  run_writes [Send (RecordPreinstalled sample_ns);
              Send (BeginExecution sample_args MethodExecute []);
              Send (RecordPID sample_ns "run-1" 42)] ∅.

(** The arrow has every method but a stop. *)
Definition sample_assemble (ns : Namespace) (method : string) (vars : gmap string string)
  (ref : option string) : R Store (result repo_error ResolvedExecution) := λ w,
  (if String.eqb method MethodStop then Err ErrMethodNotFound
   else Ok (mkResolved [] vars [] "/data/app"), w).

(** The catalog knows of a newer release. *)
Definition sample_row (ns : Namespace) : R Store (result unit (option (option Available))) :=
  λ w, (Ok (Some (Some (mkAvailable "v2" ""))), w).
End samples.

Lemma request_begins_once_witness :
  let c := BeginStop (mkBeginArgs sample_ns "run-2" [] ∅ "") in
  let w' := run_write (Send c) sample_store in
  perform sample_assemble ReqStop sample_ns "run-2" sample_store = (None, w') ∧
  state_of (w' !! sample_ns) = ArrowStateStopping ∧
  ∃ rt, Apply c (sample_store !! sample_ns) = Committed rt.
Proof.
  intros c w'.
  assert (perform sample_assemble ReqStop sample_ns "run-2" sample_store = (None, w')) as Hp
    by (vm_compute; reflexivity).
  split; [exact Hp|]. split; [vm_compute; reflexivity|].
  apply (request_begins_once id sample_assemble ReqStop sample_ns "run-2" sample_store
    None w' (Err ErrMethodNotFound) sample_store eq_refl eq_refl Hp). reflexivity.
Defined.

Lemma request_refines_witness :
  let c := BeginInstall (mkBeginArgs sample_ns "run-2" [] ∅ "/data/app") in
  let e := Some (StateViolation "install" (Some ArrowStateRunning)) in
  perform sample_assemble (ReqInstall ∅) sample_ns "run-2" sample_store = (e, sample_store) ∧
  e = answer_of "install" c sample_store.
Proof.
  intros c e.
  assert (perform sample_assemble (ReqInstall ∅) sample_ns "run-2" sample_store = (e, sample_store))
    as Hp by (vm_compute; reflexivity).
  split; [exact Hp|].
  exact (proj1 (request_refines id sample_assemble (ReqInstall ∅) sample_ns "run-2" sample_store
    e sample_store (Ok (mkResolved [] ∅ [] "/data/app")) sample_store eq_refl eq_refl Hp)).
Defined.

Lemma recovery_settles_witness :
  let w' := (RecoverTransients (λ pid, Z.eqb pid 42) None (Some [[sample_ns]]) None sample_store).2 in
  (state_of (w' !! sample_ns) = ArrowStateDetached) ∧
  ∀ rt, w' !! sample_ns = Some rt → busy (State rt) = false.
Proof.
  intros w'. split; [reflexivity|]. intros rt Hrt.
  destruct (recovery_settles id (λ pid, Z.eqb pid 42) None ltac:(done) (Some [[sample_ns]]) None
    sample_store w' eq_refl) as [_ H].
  apply (H _ (runtime_writes_wf [Send (RecordPreinstalled sample_ns);
                Send (BeginExecution sample_args MethodExecute []);
                Send (RecordPID sample_ns "run-1" 42)] ltac:(by repeat constructor))
    sample_ns); [done|apply list_elem_of_here|exact Hrt].
Defined.

Lemma version_badge_projects_witness :
  let st := run_writes [Send (RecordPreinstalled sample_ns)] ∅ in
  ∃ e w', ReconcileVersionBadge_op sample_row sample_ns st = (e, w') ∧
    e = None ∧ state_of (w' !! sample_ns) = ArrowStateOutdated ∧
    alter (badged true) sample_ns w' = w'.
Proof.
  intros st. eexists _, _. split; [reflexivity|].
  pose proof (version_badge_projects id sample_row sample_ns st _ _ _ _ ltac:(done)
    (runtime_writes_wf [Send (RecordPreinstalled sample_ns)] ltac:(by repeat constructor))
    eq_refl eq_refl eq_refl) as (H1 & _ & H3 & _).
  split_and!; [exact H1|reflexivity|exact H3].
Defined.
