(* ===== verification/Assembler.v ===== *)
(** * Assembling a run (internal/app/repositories/runtime/internal/assembler), and
    expanding its steps (internal/engine/wizard/internal/step/expand.go)

    The assembler makes of an arrow and a method the steps of a run, the values of
    its variables and its working directory.  What it asks of the catalog, the
    vault, netbridge and the sockets may change the world it runs in, like the store
    of [RuntimeRepo]. *)

From S2P Require Import Prelude GoStrings GoRegexp GoFilepath Domain Steps Manifest Runtime RuntimeDrain RuntimeRepo.

(** ** References (internal/references.go) *)

(** [\$\{([^}]+)\}] *)
Definition varTokenRe : re :=
  RSeq (RChar "$") (RSeq (RChar "{")
    (RSeq (RGroup 1 (RPlus (RByte (λ c, negb (Ascii.eqb c "}"))))) (RChar "}"))).

Definition collectTokens (value : string) : gset string :=
  list_to_set (map (group 1) (find_all varTokenRe value)).

(** The default, and the value of every platform *)
Definition field_values (field : Overrideable string) : list string :=
  Default field :: map snd (map_to_list (OSArch field)).

Definition collectOverrideable (field : Overrideable string) : gset string :=
  ⋃ map collectTokens (field_values field).

Definition collectStepReferences (s : Step) : gset string :=
  match s with
  | RunStep _ command _ _ _ => collectOverrideable command
  | FetchStep _ url to checksum _ =>
    collectOverrideable url ∪ collectOverrideable to ∪ collectOverrideable checksum
  | ExtractStep _ from to _ => collectOverrideable from ∪ collectOverrideable to
  | PortableStep _ from to _ _ => collectOverrideable from ∪ collectOverrideable to
  | _ => ∅
  end.

Definition ReferencedVariables (steps : list Step) : gset string :=
  ⋃ map collectStepReferences steps.

(** ** The steps of a method (internal/steps.go, target.go) *)

Definition NewDependenciesStep (ttl : string) : Step := DependenciesStep (mkBasicStep ttl true).

Definition StepsForMethod (target : Target) (method : string)
  : result repo_error (list Step * list ArrowState) :=
  let lifecycle := Lifecycle target in
  let unless_empty (l : StepList) :=
    if Nat.eqb (length (steps_of l)) 0 then Err ErrMethodNotFound else Ok (steps_of l, []) in
  if String.eqb method MethodInstall then
    Ok (NewDependenciesStep "Resolve dependencies" :: steps_of (Install lifecycle), [])
  else if String.eqb method MethodUninstall then Ok (steps_of (Uninstall lifecycle), [])
  else if String.eqb method MethodUpdate then
    if Nat.eqb (length (steps_of (Update lifecycle))) 0 then Ok (steps_of (Install lifecycle), [])
    else Ok (steps_of (Update lifecycle), [])
  else if String.eqb method MethodExecute then unless_empty (Execute lifecycle)
  else if String.eqb method MethodStop then unless_empty (Stop lifecycle)
  else
    match Methods target !! method with
    | None => Err ErrMethodNotFound
    | Some m =>
      if Nat.eqb (length (steps_of (method_steps m))) 0 then Err ErrMethodNotFound
      else Ok (steps_of (method_steps m), AvailableIn m)
    end.

Definition ResolveTarget (arrow : Arrow) (os : OS) : result repo_error Target :=
  match target_of arrow os with
  | None => Err (ErrAssemble ErrPlatformNotSupported)
  | Some target => Ok target
  end.

(** ** Variables (internal/variables.go) *)

Abbreviation Vars := (gmap string string).

(** [vars[name]]: a missing name reads as the empty string. *)
Definition value_of (vars : Vars) (name : string) : string := default "" (vars !! name).

Definition hasListenUI (steps : list Step) : bool :=
  existsb (λ s, match s with RunStep _ _ _ _ (Some ui) => Listens ui | _ => false end) steps.

Definition isComputed (name : string) : bool :=
  IsReservedVariable name || contains_byte "/" name.

Definition no_default (arrow : Arrow) (name : string) : bool :=
  existsb (λ v, String.eqb (var_default v) "" && String.eqb (var_name v) name)
    (arrow_variables arrow).

Definition carryForward (arrow : Arrow) (stored : Vars) : Vars :=
  filter (λ p, no_default arrow p.1 || isComputed p.1 = false) stored.

Definition applyUserVars (vars userVars : Vars) : Vars :=
  filter (λ p, IsReservedVariable p.1 = false) userVars ∪ vars.

(** The first declared variable without a default that the steps read and that has
    no value *)
Fixpoint requireReferenced_in (declared : list DeclaredVariable) (referenced : gset string)
  (vars : Vars) : option string :=
  match declared with
  | [] => None
  | v :: declared' =>
    if String.eqb (var_default v) "" && bool_decide (var_name v ∈ referenced) &&
       String.eqb (value_of vars (var_name v)) ""
    then Some (var_name v)
    else requireReferenced_in declared' referenced vars
  end.

Definition requireReferenced (arrow : Arrow) (steps : list Step) (vars : Vars) : option repo_error :=
  (λ name, ErrAssemble (ErrMissingVariable name)) <$>
    requireReferenced_in (arrow_variables arrow) (ReferencedVariables steps) vars.

Definition applyDefaults (vars : Vars) (declared : list DeclaredVariable) : Vars :=
  foldl (λ vars v, if String.eqb (var_default v) "" then vars
                   else <[var_name v := var_default v]> vars) vars declared.

(** The exports of a dependency, relative ones under its workdir; their names are
    distinct, so the order of the map does not matter. *)
Definition applyExports (depNs : Namespace) (installPath : string) (exports : Vars) (vars : Vars)
  : Vars :=
  foldl (λ vars e,
    <[depNs +:+ "." +:+ e.1 :=
        if String.prefix "./" e.2 && negb (String.eqb installPath "")
        then Join [installPath; e.2] else e.2]> vars) vars (map_to_list exports).

Section assembler.
Context {W : Type} `{Asynx W}.

(** What a deployment wires in; a nil vault, netbridge or socket provider is
    [None].  The error of a workdir tells a collision, that of a socket a path that
    is too long. *)
Record AssemblerEnv := mkAssemblerEnv {
  env_os : OS;
  env_getArrow : Namespace → R W (result ax_error Arrow);
  env_getDepArrow : Namespace → R W (result unit Arrow);
  env_WorkDir : option (Namespace → R W (result bool string));
  env_Allocate : option (Namespace → Protocol → Z → R W (option Z));
  env_Prepare : option (Namespace → R W (result bool string));
}.

Context (env : AssemblerEnv).

Definition WorkDirError (collision : bool) : repo_error :=
  ErrAssemble (if collision then ErrAlreadyExists else ErrOther).

Definition provisionSocket (Prepare : Namespace → R W (result bool string)) (ns : Namespace)
  : R W (result repo_error string) :=
  socket ← Prepare ns;
  mret (match socket with
        | Ok path => Ok path
        | Err tooLong => Err (ErrAssemble (if tooLong : bool then ErrInvalidConfig else ErrOther))
        end).

Definition builtIns (ns : Namespace) (arrow : Arrow) : R W (result repo_error Vars) :=
  workdir ← match env_WorkDir env with
            | None => mret (Ok ∅)
            | Some WorkDir =>
              got ← WorkDir ns;
              mret (match got with
                    | Err collision => Err (WorkDirError collision)
                    | Ok workdir => Ok (<[VarWorkdir := workdir]> (<[VarInstallPath := workdir]> (∅ : Vars)))
                    end)
            end;
  mret (match workdir with
        | Err e => Err e
        | Ok vars =>
          Ok (<[VarRef := RefOr (arrow_resolved arrow) (Ref ns)]>
               (<[VarPlatform := os_string (env_os env)]> (<[VarArrowNamespace := ns]> vars)))
        end).

(** One dependency of layer 2 *)
Definition dependencyVars (edge : DependencyEdge) (vars : Vars) : R W Vars :=
  let depNs := BareNamespace (edge_namespace edge) in
  got ← env_getDepArrow env (edge_namespace edge);
  match got with
  | Err _ => mret vars
  | Ok depArrow =>
    match target_of depArrow (env_os env) with
    | None => mret vars
    | Some depTarget =>
      vars ← match env_WorkDir env with
             | None => mret vars
             | Some WorkDir =>
               got ← WorkDir (arrow_namespace depArrow);
               mret (match got with
                     | Ok workdir => <[depNs +:+ ".INSTALL_PATH" := workdir]> vars
                     | Err _ => vars
                     end)
             end;
      mret (applyExports depNs (value_of vars (depNs +:+ ".INSTALL_PATH")) (Exports depTarget) vars)
    end
  end.

Fixpoint dependenciesVars (edges : list DependencyEdge) (vars : Vars) : R W Vars :=
  match edges with
  | [] => mret vars
  | edge :: edges' => vars ← dependencyVars edge vars; dependenciesVars edges' vars
  end.

(** Layer 4 *)
Fixpoint allocatePorts_in (Allocate : Namespace → Protocol → Z → R W (option Z)) (ns : Namespace)
  (ports : list PortDef) (held vars : Vars) : R W (result repo_error Vars) :=
  match ports with
  | [] => mret (Ok vars)
  | port :: ports' =>
    if negb (String.eqb (value_of held (port_name port)) "")
    then allocatePorts_in Allocate ns ports' held vars
    else
      allocated ← Allocate ns (port_protocol port) (port_default port);
      match allocated with
      | None => if port_required port then mret (Err (ErrAssemble ErrOther))
                else allocatePorts_in Allocate ns ports' held vars
      | Some n => allocatePorts_in Allocate ns ports' held (<[port_name port := itoa n]> vars)
      end
  end.

Definition allocatePorts (ns : Namespace) (arrow : Arrow) (held vars : Vars)
  : R W (result repo_error Vars) :=
  match env_Allocate env with
  | None => mret (Ok vars)
  | Some Allocate => allocatePorts_in Allocate ns (arrow_netbridge arrow) held vars
  end.

(** The variables of the last return, as far as they may be inherited *)
Definition storedVars (ns : Namespace) (arrow : Arrow) : R W Vars :=
  got ← ax_get ns;
  mret (match got with
        | Ok rt => match LastReturn rt with
                   | Some ret => carryForward arrow (ReturnVariables ret)
                   | None => ∅
                   end
        | Err _ => ∅
        end).

(** The socket of an interface, when the steps have one that listens *)
Definition socketVars (ns : Namespace) (steps : list Step) (vars : Vars)
  : R W (result repo_error Vars) :=
  match env_Prepare env with
  | Some Prepare =>
    if hasListenUI steps then
      socket ← provisionSocket Prepare ns;
      mret (match socket with Ok s => Ok (<[VarArrowUIListen := s]> vars) | Err e => Err e end)
    else mret (Ok vars)
  | None => mret (Ok vars)
  end.

Definition ResolveVariables (ns : Namespace) (arrow : Arrow) (target : Target) (userVars : Vars)
  (steps : list Step) : R W (result repo_error Vars) :=
  built ← builtIns ns arrow;
  match built with
  | Err e => mret (Err e)
  | Ok vars =>
    listening ← socketVars ns steps vars;
    match listening with
    | Err e => mret (Err e)
    | Ok vars =>
      vars ← dependenciesVars (Tools target ++ Services target) vars;
      let vars := applyDefaults vars (arrow_variables arrow) in
      stored ← storedVars ns arrow;
      ports ← allocatePorts ns arrow stored vars;
      match ports with
      | Err e => mret (Err e)
      | Ok vars =>
        let vars := applyUserVars (stored ∪ vars) userVars in
        mret (match requireReferenced arrow steps vars with
              | Some e => Err e
              | None => Ok vars
              end)
      end
    end
  end.

(** ** [Assemble] (assembler.go) *)

Definition assembledWorkDir (ns : Namespace) : R W (result repo_error string) :=
  match env_WorkDir env with
  | None => mret (Ok "")
  | Some WorkDir =>
    got ← WorkDir ns;
    mret (match got with Ok dir => Ok dir | Err collision => Err (WorkDirError collision) end)
  end.

Definition withTargetRef (targetRef : option string) (vars : Vars) : Vars :=
  match targetRef with
  | Some ref => if String.eqb ref "" then vars else <[VarRef := ref]> vars
  | None => vars
  end.

Definition Assemble (ns : Namespace) (method : string) (userVars : Vars)
  (targetRef : option string) : R W (result repo_error ResolvedExecution) :=
  got ← env_getArrow env ns;
  match got with
  | Err e => mret (Err (ErrAssemble (if is_not_found e then ErrNotFound else ErrOther)))
  | Ok arrow =>
    match ResolveTarget arrow (env_os env) with
    | Err e => mret (Err e)
    | Ok target =>
      match StepsForMethod target method with
      | Err e => mret (Err e)
      | Ok (steps, availableIn) =>
        resolved ← ResolveVariables ns arrow target userVars steps;
        match resolved with
        | Err e => mret (Err e)
        | Ok vars =>
          let vars := withTargetRef targetRef vars in
          dir ← assembledWorkDir ns;
          mret (match dir with
                | Err e => Err e
                | Ok workDir => Ok (mkResolved steps vars availableIn workDir)
                end)
        end
      end
    end
  end.
End assembler.

(** ** What the wizard adds to a run (wizard.go, step/expose/plan.go) *)

Definition ExposeKindDesktop : string := "desktop".
Definition ExposeKindCLI : string := "cli".

Definition IsEmpty (e : Expose) : bool :=
  match default [] (CLI e), default [] (Desktop e) with [], [] => true | _, _ => false end.

Definition appendExposeSteps (steps : list Step) (kind : string) (entries : option (list ExposeEntry)) (mediaIcon : string)
  : list Step :=
  steps ++ map (λ e, ExposeStep (mkBasicStep ("Expose " +:+ kind +:+ " " +:+ entry_name e) false) kind (entry_name e) (entry_path e) (entry_icon e)
                       (entry_categories e) mediaIcon) (default [] entries).

Definition expose_Plan (method : string) (expose : Expose) (mediaIcon : string) (steps : list Step) : list Step :=
  if IsEmpty expose then steps
  else if String.eqb method MethodInstall || String.eqb method MethodUpdate then
    appendExposeSteps (appendExposeSteps steps ExposeKindDesktop (Desktop expose) mediaIcon)
      ExposeKindCLI (CLI expose) mediaIcon
  else if String.eqb method MethodUninstall then UnexposeStep (mkBasicStep "Remove exposed entries" false) :: steps
  else steps.

(** A platform without a target has the empty block. *)
Definition target_expose (arrow : Arrow) (os : OS) : Expose :=
  default (mkExpose None None) (TargetExpose <$> target_of arrow os).

Definition Plan (method : string) (arrow : Arrow) (os : OS) (steps : list Step) : list Step :=
  expose_Plan method (target_expose arrow os) (Icon (Media (arrow_meta arrow))) steps.

(** [plannedAssembler] (repositories/runtime/runtime.go), the assembler the requests run
    with: it reads the arrow again, and plans the run for that. *)
Definition with_steps (r : ResolvedExecution) (steps : list Step) : ResolvedExecution :=
  mkResolved steps (Resolved_Variables r) (Resolved_AvailableIn r) (Resolved_WorkDir r).

Definition plannedAssemble {W : Type} `{Asynx W} (env : AssemblerEnv (W := W)) (ns : Namespace) (method : string)
  (userVars : Vars) (targetRef : option string) : R W (result repo_error ResolvedExecution) :=
  resolved ← Assemble env ns method userVars targetRef;
  match resolved with
  | Err e => mret (Err e)
  | Ok r =>
    got ← env_getArrow env ns;
    mret (match got with
          | Err e => Err (ErrAssemble (if is_not_found e then ErrNotFound else ErrOther))
          | Ok arrow => Ok (with_steps r (Plan method arrow (env_os env) (Resolved_Steps r)))
          end)
  end.

(** ** Expanding a field of a step (wizard/internal/step/expand.go) *)

Definition varOpen : string := "${".

Fixpoint expand_loop (fuel : nat) (vars : Vars) (rest : string) : option string :=
  match fuel with
  | 0 => None
  | S fuel' =>
    match cut_string varOpen rest with
    | None => Some rest
    | Some (before, body) =>
      match cut_byte "}" body with
      | None => Some rest
      | Some (name, rest') =>
        let value := match vars !! name with
                     | Some value => value
                     | None => varOpen +:+ name +:+ "}"
                     end in
        out ← expand_loop fuel' vars rest';
        Some (before +:+ value +:+ out)
      end
    end
  end.

(** Every round takes three bytes at least. *)
Definition Expand (vars : Vars) (raw : string) : option string :=
  expand_loop (S (String.length raw)) vars raw.

(** ** The references the assembler finds are those the wizard expands *)

Lemma substring_to_app a b : substring_to (a +:+ b) b = a.
Proof.
  unfold substring_to. rewrite string_length_app.
  replace (String.length a + String.length b - String.length b) with (String.length a) by lia.
  induction a as [|c a IH]; simpl; [by destruct b|]. by rewrite IH.
Qed.

(** [[^}]*] when what follows needs a closing brace *)
Lemma star_brace n k s caps :
  String.length s ≤ n →
  (∀ s' caps', String.prefix "}" s' = false → k s' caps' = None) →
  star_loop (rmatch (RByte (λ c, negb (Ascii.eqb c "}")))) true n k s caps =
  match cut_byte "}" s with
  | Some (_, rest) => k (String "}" rest) caps
  | None => None
  end.
Proof.
  intros Hn Hk. revert s Hn. induction n as [|n IH]; intros s Hn.
  - destruct s as [|c s]; simpl in *; [by apply Hk|lia].
  - destruct s as [|c s]; simpl in *; [by apply Hk|].
    destruct (Ascii.eqb_spec c "}") as [->|Hc]; simpl.
    + done.
    + destruct (Nat.ltb_spec (String.length s) (S (String.length s))) as [_|?]; [|lia].
      rewrite IH by lia. unfold orelse. rewrite (Hk (String c s) caps).
      2: { cbn [String.prefix]. destruct (Ascii.ascii_dec "}" c); congruence. }
      by destruct (cut_byte "}" s) as [[b r]|]; [destruct (k _ _)|].
Qed.

Lemma varTokenRe_match k body caps :
  rmatch varTokenRe k (String "$" (String "{" body)) caps =
  match cut_byte "}" body with
  | Some ("", _) | None => None
  | Some (name, rest) => k rest (<[1 := name]> caps)
  end.
Proof.
  unfold varTokenRe. cbn [rmatch RChar RPlus]. rewrite !Ascii.eqb_refl.
  destruct body as [|c body]; [done|]. cbn [cut_byte].
  destruct (Ascii.eqb_spec c "}") as [->|Hc]; [done|]. cbn [negb].
  cbn [rmatch]. rewrite star_brace; [|done|].
  2: { intros [|d s'] caps' H; [done|]. cbn [String.prefix] in H.
       destruct (Ascii.ascii_dec "}" d) as [Hd|Hd]; [by destruct s'|].
       apply Ascii.eqb_neq in Hd. by rewrite Hd. }
  destruct (cut_byte "}" body) as [[name rest]|] eqn:Hb; [|done].
  apply cut_byte_some in Hb as [-> _]. rewrite Ascii.eqb_refl.
  do 3 f_equal.
  change (String c (name +:+ String "}" rest)) with (String c name +:+ String "}" rest).
  by rewrite substring_to_app.
Qed.

Lemma varTokenRe_none k s caps : cut_prefix varOpen s = None → rmatch varTokenRe k s caps = None.
Proof.
  unfold varTokenRe, varOpen. destruct s as [|a [|b s]]; cbn [rmatch RChar]; [done| |].
  - intros _. by destruct (Ascii.eqb "$" a).
  - cbn [cut_prefix]. destruct (Ascii.eqb "$" a); [|done]. by destruct (Ascii.eqb "{" b).
Qed.

Lemma find_all_skip r a b : find_all_from r (String.length a) (a +:+ b) = find_all_from r 0 b.
Proof. induction a as [|c a IH]; [done|]. simpl. exact IH. Qed.

(** ** The names a text refers to, as [Expand] meets them *)

Fixpoint expanded_names (fuel : nat) (rest : string) : list string :=
  match fuel with
  | 0 => []
  | S fuel' =>
    match cut_string varOpen rest with
    | None => []
    | Some (_, body) =>
      match cut_byte "}" body with
      | None => []
      | Some (name, rest') => name :: expanded_names fuel' rest'
      end
    end
  end.

(** Without a closing brace there is no reference. *)
Lemma no_brace_no_token s : contains_byte "}" s = false → find_all_from varTokenRe 0 s = [].
Proof.
  induction s as [|c s IH]; [done|]. intros H. unfold contains_byte in *. simpl in H.
  apply orb_false_iff in H as [_ Hs]. cbn [find_all_from].
  destruct (cut_prefix varOpen (String c s)) as [body|] eqn:Hp.
  - apply cut_prefix_some in Hp. rewrite Hp at 2. unfold varOpen in *. simpl in Hp.
    injection Hp as -> ->. cbn [String.append] in *. rewrite varTokenRe_match.
    simpl in Hs. assert (cut_byte "}" body = None) as -> by by apply cut_byte_none. by apply IH.
  - rewrite varTokenRe_none by done. by apply IH.
Qed.

Lemma expanded_names_tokens fuel s :
  String.length s < fuel →
  filter (λ name, name ≠ "") (expanded_names fuel s) = map (group 1) (find_all_from varTokenRe 0 s).
Proof.
  revert s. induction fuel as [|fuel IH]; intros s Hlen; [lia|]. cbn [expanded_names].
  (* the part before the first opening *)
  assert (∀ s, cut_string varOpen s = None → find_all_from varTokenRe 0 s = []) as Hnone.
  { clear. induction s as [|c s IH]; [done|]. cbn [cut_string].
    destruct (cut_prefix varOpen (String c s)) as [r|] eqn:Hp; [done|].
    destruct (cut_string varOpen s) as [[b a]|]; [done|]. intros _.
    cbn [find_all_from]. rewrite varTokenRe_none by done. by apply IH. }
  assert (∀ s before body, cut_string varOpen s = Some (before, body) →
    find_all_from varTokenRe 0 s = find_all_from varTokenRe 0 (varOpen +:+ body)) as Hskip.
  { clear. induction s as [|c s IH]; intros before body.
    - intros H. vm_compute in H. discriminate.
    - cbn [cut_string]. destruct (cut_prefix varOpen (String c s)) as [r|] eqn:Hp.
      + intros [= <- <-]. apply cut_prefix_some in Hp. by rewrite <- Hp.
      + destruct (cut_string varOpen s) as [[b a]|]; [|done]. intros [= <- <-].
        cbn [find_all_from]. rewrite varTokenRe_none by done. by apply (IH b). }
  destruct (cut_string varOpen s) as [[before body]|] eqn:Hc; [|by rewrite Hnone].
  rewrite (Hskip _ _ _ Hc). apply cut_string_some in Hc as ->.
  rewrite !string_length_app in Hlen. unfold varOpen in Hlen |- *. cbn [String.append String.length] in Hlen |- *.
  cbn [find_all_from]. rewrite varTokenRe_match.
  assert (∀ t, rmatch varTokenRe (whole_match (String "{" t)) (String "{" t) ∅ = None) as Hbrace
    by (intros t; by apply varTokenRe_none).
  destruct (cut_byte "}" body) as [[name rest]|] eqn:Hb.
  - apply cut_byte_some in Hb as [-> _]. rewrite string_length_app in Hlen. simpl in Hlen.
    destruct name as [|c name].
    + rewrite filter_cons_False by (by intros H). rewrite IH by lia. rewrite Hbrace.
      cbn [String.append find_all_from]. by rewrite varTokenRe_none.
    + rewrite filter_cons_True by done. rewrite IH by (simpl in Hlen; lia).
      unfold whole_match at 1. cbn [map]. f_equal.
      assert (String "$" (String "{" (String c name +:+ String "}" rest)) =
          (String "$" (String "{" (String c name +:+ "}"))) +:+ rest) as Hw
        by (cbn [String.append]; by rewrite string_app_assoc).
      assert (String "{" (String c name +:+ String "}" rest) =
          (String "{" (String c name +:+ "}")) +:+ rest) as Hw'
        by (cbn [String.append]; by rewrite string_app_assoc).
      replace (group 0 _) with (String "$" (String "{" (String c name +:+ "}")))
        by (unfold group; rewrite lookup_insert_eq; cbn [default]; by rewrite Hw, substring_to_app).
      replace (String.length _ - 1) with (String.length (String "{" (String c name +:+ "}")))
        by (cbn [String.length]; lia).
      rewrite <- (find_all_skip varTokenRe (String "{" (String c name +:+ "}")) rest), <- Hw'.
      reflexivity.
  - cbn [filter list_filter map]. rewrite Hbrace. symmetry.
    rewrite no_brace_no_token; [done|]. by apply cut_byte_none.
Qed.

(** Whether [Expand] reads [name] in [raw] *)
Definition reads (raw name : string) : Prop := name ∈ expanded_names (S (String.length raw)) raw.

Lemma references_agree_names raw name :
  name ∈ collectTokens raw ↔ name ≠ "" ∧ reads raw name.
Proof.
  unfold collectTokens, reads, find_all. rewrite elem_of_list_to_set.
  rewrite <- (expanded_names_tokens (S (String.length raw))) by lia.
  by rewrite list_elem_of_filter.
Qed.

(** The assembler and the wizard agree on what a field refers to: the names the
    regular expression of the one finds in a text are the names the scanner of the
    other replaces, the empty name of [${}] apart. *)
Lemma references_agree raw name :
  name ∈ collectTokens raw ↔ name ≠ "" ∧ reads raw name.
Proof. exact (references_agree_names raw name). Qed.

(** ** [Expand] ends, and what it leaves *)

(** The text with the values of the names in order *)
Lemma expand_loop_total fuel vars s : String.length s < fuel → is_Some (expand_loop fuel vars s).
Proof.
  revert s. induction fuel as [|fuel IH]; intros s Hlen; [lia|]. cbn [expand_loop].
  destruct (cut_string varOpen s) as [[before body]|] eqn:Hc; [|by eexists].
  destruct (cut_byte "}" body) as [[name rest]|] eqn:Hb; [|by eexists].
  apply cut_string_some in Hc as ->. apply cut_byte_some in Hb as [-> _].
  rewrite !string_length_app in Hlen. simpl in Hlen.
  destruct (IH rest) as [out ->]; [lia|]. by eexists.
Qed.

Lemma Expand_total vars raw : is_Some (Expand vars raw).
Proof. apply expand_loop_total. lia. Qed.

(** Names that mean nothing are left as they are, so a text that reads only such
    names is its own expansion. *)
Lemma expand_loop_unknown fuel vars s :
  String.length s < fuel → (∀ name, name ∈ expanded_names fuel s → vars !! name = None) →
  expand_loop fuel vars s = Some s.
Proof.
  revert s. induction fuel as [|fuel IH]; intros s Hlen Hn; [lia|]. cbn [expand_loop expanded_names] in *.
  destruct (cut_string varOpen s) as [[before body]|] eqn:Hc; [|done].
  destruct (cut_byte "}" body) as [[name rest]|] eqn:Hb; [|done].
  apply cut_string_some in Hc as ->. apply cut_byte_some in Hb as [-> _].
  rewrite !string_length_app in Hlen. simpl in Hlen.
  rewrite (Hn name) by apply list_elem_of_here. cbn [default].
  rewrite IH; [|lia|intros; by apply Hn, list_elem_of_further]. simpl. f_equal. f_equal.
  by rewrite !string_app_assoc.
Qed.

(** ** What an assembled run has *)

(** The texts of a step that the wizard may expand when it runs: one per field and
    platform *)
Definition step_fields (s : Step) : list string :=
  match s with
  | RunStep _ command _ _ _ => field_values command
  | FetchStep _ url to checksum _ => field_values url ++ field_values to ++ field_values checksum
  | ExtractStep _ from to _ => field_values from ++ field_values to
  | PortableStep _ from to _ _ => field_values from ++ field_values to
  | _ => []
  end.

Lemma elem_of_collectOverrideable x field :
  x ∈ collectOverrideable field ↔ ∃ raw, raw ∈ field_values field ∧ x ∈ collectTokens raw.
Proof.
  unfold collectOverrideable. rewrite elem_of_union_list. split.
  - intros (X & (raw & -> & Hraw)%list_elem_of_fmap & Hx). eauto.
  - intros (raw & Hraw & Hx). exists (collectTokens raw). split; [|done].
    by apply list_elem_of_fmap_2.
Qed.

Lemma elem_of_ReferencedVariables x steps :
  x ∈ ReferencedVariables steps ↔
  ∃ s raw, s ∈ steps ∧ raw ∈ step_fields s ∧ x ∈ collectTokens raw.
Proof.
  unfold ReferencedVariables. rewrite elem_of_union_list.
  assert (∀ s, x ∈ collectStepReferences s ↔ ∃ raw, raw ∈ step_fields s ∧ x ∈ collectTokens raw) as Hs.
  { assert (∀ l l' : list string, (∃ raw, raw ∈ l ++ l' ∧ x ∈ collectTokens raw) ↔
      (∃ raw, raw ∈ l ∧ x ∈ collectTokens raw) ∨ (∃ raw, raw ∈ l' ∧ x ∈ collectTokens raw)) as Happ.
    { intros l l'. setoid_rewrite elem_of_app. naive_solver. }
    intros []; cbn [collectStepReferences step_fields];
      rewrite ?elem_of_union, ?elem_of_collectOverrideable, ?Happ; try tauto.
    all: split; [by intros ?%elem_of_empty|by intros (raw & ?%not_elem_of_nil & _)]. }
  split.
  - intros (X & (s & -> & Hin)%list_elem_of_fmap & Hx). apply Hs in Hx as (raw & Hr & Hx). eauto.
  - intros (s & raw & Hin & Hr & Hx). exists (collectStepReferences s).
    split; [by apply list_elem_of_fmap_2|]. apply Hs. eauto.
Qed.

(** No variable the steps need is missing. *)
Lemma requireReferenced_none arrow steps vars v :
  requireReferenced arrow steps vars = None → v ∈ arrow_variables arrow → var_default v = "" →
  var_name v ∈ ReferencedVariables steps → value_of vars (var_name v) ≠ "".
Proof.
  unfold requireReferenced. intros Hr%fmap_None Hv Hd Hx. revert Hr Hv.
  induction (arrow_variables arrow) as [|u l IH]; [by intros _ ?%not_elem_of_nil|].
  cbn [requireReferenced_in]. destruct (_ && _ && _) eqn:Hb; [done|].
  intros Hr [->|Hl]%elem_of_cons; [|by apply IH]. intros Hempty.
  rewrite Hd, bool_decide_true, Hempty in Hb by done. done.
Qed.

(** The empty name is never declared, and what is read is referenced. *)
Definition supplied (arrow : Arrow) (steps : list Step) (vars : Vars) : Prop :=
  ∀ v s raw, v ∈ arrow_variables arrow → var_default v = "" → var_name v ≠ "" →
    s ∈ steps → raw ∈ step_fields s → reads raw (var_name v) → value_of vars (var_name v) ≠ "".

Lemma requireReferenced_supplied arrow steps vars :
  requireReferenced arrow steps vars = None → supplied arrow steps vars.
Proof.
  intros Hr v s raw Hv Hd Hn Hs Hraw Hread. eapply requireReferenced_none; [done..|].
  apply elem_of_ReferencedVariables. exists s, raw. split_and!; [done..|].
  by apply references_agree_names.
Qed.

Lemma supplied_target_ref arrow steps vars ref :
  supplied arrow steps vars → supplied arrow steps (withTargetRef ref vars).
Proof.
  intros Hs v s raw Hv Hd Hn Hin Hraw Hread. specialize (Hs v s raw Hv Hd Hn Hin Hraw Hread).
  unfold withTargetRef. destruct ref as [ref|]; [|done].
  destruct (String.eqb_spec ref ""); [done|]. unfold value_of.
  destruct (decide (var_name v = VarRef)) as [->|Hne]; [by rewrite lookup_insert_eq|].
  by rewrite lookup_insert_ne.
Qed.

Ltac r_fail H := unfold mret, R_ret in H; simplify_eq.

Section assembled.
Context {W : Type} `{Asynx W} (env : AssemblerEnv (W := W)).

(** *** What a run of [ResolveVariables] went through *)

Lemma ResolveVariables_ok ns arrow target userVars steps w vars w' :
  ResolveVariables env ns arrow target userVars steps w = (Ok vars, w') →
  ∃ built listening deps stored ports w1 w2 w3 w4,
    builtIns env ns arrow w = (Ok built, w1) ∧
    socketVars env ns steps built w1 = (Ok listening, w2) ∧
    dependenciesVars env (Tools target ++ Services target) listening w2 = (deps, w3) ∧
    storedVars ns arrow w3 = (stored, w4) ∧
    allocatePorts env ns arrow stored (applyDefaults deps (arrow_variables arrow)) w4 = (Ok ports, w') ∧
    vars = applyUserVars (stored ∪ ports) userVars ∧
    requireReferenced arrow steps vars = None.
Proof.
  unfold ResolveVariables. intros Hr. r_step Hr. destruct a as [built|e]; [|by r_fail Hr].
  r_step Hr. destruct a as [listening|e]; [|by r_fail Hr].
  r_step Hr. r_step Hr. r_step Hr. destruct a1 as [ports|e]; [|by r_fail Hr].
  unfold mret, R_ret in Hr. destruct (requireReferenced _ _ _) as [e|] eqn:Hreq; simplify_eq.
  eexists _, _, _, _, _, _, _, _, _. split_and!; done.
Qed.

Lemma Assemble_ok ns method userVars ref w x w' :
  Assemble env ns method userVars ref w = (Ok x, w') →
  ∃ arrow target vars w1 w2,
    env_getArrow env ns w = (Ok arrow, w1) ∧ target_of arrow (env_os env) = Some target ∧
    StepsForMethod target method = Ok (Resolved_Steps x, Resolved_AvailableIn x) ∧
    ResolveVariables env ns arrow target userVars (Resolved_Steps x) w1 = (Ok vars, w2) ∧
    Resolved_Variables x = withTargetRef ref vars ∧
    assembledWorkDir env ns w2 = (Ok (Resolved_WorkDir x), w').
Proof.
  unfold Assemble. intros Ha. r_step Ha. destruct a as [arrow|e]; [|by r_fail Ha].
  unfold ResolveTarget in Ha. destruct (target_of _ _) as [target|] eqn:Ht; [|by r_fail Ha].
  destruct (StepsForMethod target method) as [[steps states]|e] eqn:Hs; [|by r_fail Ha].
  r_step Ha. destruct a as [vars|e]; [|by r_fail Ha]. cbv zeta in Ha. r_step Ha.
  unfold mret, R_ret in Ha. destruct a as [dir|e]; simplify_eq.
  eexists _, _, _, _, _. split_and!; done.
Qed.

Lemma Assemble_supplied ns method userVars ref w x w' :
  Assemble env ns method userVars ref w = (Ok x, w') →
  ∃ arrow w1, env_getArrow env ns w = (Ok arrow, w1) ∧
    supplied arrow (Resolved_Steps x) (Resolved_Variables x).
Proof.
  intros (arrow & target & vars & w1 & w2 & Hg & _ & _ & Hr & -> & _)%Assemble_ok.
  exists arrow, w1. split; [done|]. apply supplied_target_ref.
  apply ResolveVariables_ok in Hr as (? & ? & ? & ? & ? & ? & ? & ? & ? & _ & _ & _ & _ & _ & _ & Hr).
  by apply requireReferenced_supplied.
Qed.

Lemma allocatePorts_error (f : Namespace → Protocol → Z → R W (option Z)) ns ports held : ∀ vars w e w',
  allocatePorts_in f ns ports held vars w = (Err e, w') → ∃ why, e = ErrAssemble why.
Proof.
  induction ports as [|p ports IH]; intros vars w e w' Ha; cbn [allocatePorts_in] in Ha; [by r_fail Ha|].
  destruct (negb _); [by eapply IH|]. r_step Ha. destruct a as [n|]; [by eapply IH|].
  destruct (port_required p); [r_fail Ha; by eexists|by eapply IH].
Qed.

Lemma ResolveVariables_error ns arrow target userVars steps w e w' :
  ResolveVariables env ns arrow target userVars steps w = (Err e, w') → ∃ why, e = ErrAssemble why.
Proof.
  unfold ResolveVariables. intros Hr. r_step Hr. destruct a as [built|e'].
  2: { r_fail Hr. unfold builtIns in Hm. r_step Hm. destruct a; r_fail Hm.
       destruct (env_WorkDir env) as [f|]; [|by r_fail Hm0]. r_step Hm0. destruct a; r_fail Hm0. by eexists. }
  r_step Hr. destruct a as [listening|e'].
  2: { r_fail Hr. unfold socketVars in Hm0. destruct (env_Prepare env) as [f|]; [|by r_fail Hm0].
       destruct (hasListenUI _); [|by r_fail Hm0]. r_step Hm0. destruct a; r_fail Hm0.
       unfold provisionSocket in Hm1. r_step Hm1. destruct a; r_fail Hm1. by eexists. }
  r_step Hr. r_step Hr. r_step Hr. destruct a1 as [ports|e'].
  2: { r_fail Hr. unfold allocatePorts in Hm3. destruct (env_Allocate env) as [f|]; [|by r_fail Hm3].
       by eapply allocatePorts_error. }
  unfold requireReferenced in Hr. destruct (requireReferenced_in _ _ _) as [name|]; cbn in Hr; r_fail Hr. by exists (ErrMissingVariable name).
Qed.

(** Only the method can be what is not found. *)
Lemma Assemble_no_method ns method userVars ref w w' :
  Assemble env ns method userVars ref w = (Err ErrMethodNotFound, w') →
  ∃ arrow target w1, env_getArrow env ns w = (Ok arrow, w1) ∧ target_of arrow (env_os env) = Some target ∧
    StepsForMethod target method = Err ErrMethodNotFound.
Proof.
  unfold Assemble. intros Ha. r_step Ha. destruct a as [arrow|e]; [|by r_fail Ha].
  unfold ResolveTarget in Ha. destruct (target_of _ _) as [target|] eqn:Ht; [|by r_fail Ha].
  destruct (StepsForMethod target method) as [[steps states]|e] eqn:Hs; [|r_fail Ha; by eexists _, _, _].
  r_step Ha. destruct a as [vars|e]; [|r_fail Ha; by apply ResolveVariables_error in Hm0 as [? ?]].
  cbv zeta in Ha. r_step Ha. destruct a as [dir|e]; r_fail Ha.
  unfold assembledWorkDir in Hm1. destruct (env_WorkDir env) as [f|]; [|by r_fail Hm1].
  r_step Hm1. destruct a; r_fail Hm1.
Qed.

Lemma plannedAssemble_ok ns method userVars ref w x w' :
  plannedAssemble env ns method userVars ref w = (Ok x, w') →
  ∃ y w1 again, Assemble env ns method userVars ref w = (Ok y, w1) ∧ env_getArrow env ns w1 = (Ok again, w') ∧
    x = with_steps y (Plan method again (env_os env) (Resolved_Steps y)).
Proof.
  unfold plannedAssemble. intros Hp. r_step Hp. destruct a as [y|e]; [|by r_fail Hp].
  r_step Hp. destruct a as [again|e]; r_fail Hp. by eexists _, _, _.
Qed.

Lemma plannedAssemble_no_method ns method userVars ref w w' :
  plannedAssemble env ns method userVars ref w = (Err ErrMethodNotFound, w') →
  Assemble env ns method userVars ref w = (Err ErrMethodNotFound, w').
Proof.
  unfold plannedAssemble. intros Hp. r_step Hp. destruct a as [y|e]; [|by r_fail Hp].
  r_step Hp. by destruct a as [again|e]; r_fail Hp.
Qed.

(** *** The calls leave the aggregates alone *)

Context (view : W → Store) `{!AsynxLaws W view}.

(** What is asked of the catalog, the vault, netbridge and the sockets does not
    write to the aggregates of the runtimes. *)
Class EnvPure : Prop := {
  getArrow_pure ns w r w' : env_getArrow env ns w = (r, w') → view w' = view w;
  getDepArrow_pure ns w r w' : env_getDepArrow env ns w = (r, w') → view w' = view w;
  WorkDir_pure f ns w r w' : env_WorkDir env = Some f → f ns w = (r, w') → view w' = view w;
  Allocate_pure f ns p n w r w' : env_Allocate env = Some f → f ns p n w = (r, w') → view w' = view w;
  Prepare_pure f ns w r w' : env_Prepare env = Some f → f ns w = (r, w') → view w' = view w;
}.

Context `{!EnvPure}.

Definition pure {A} (m : R W A) : Prop := ∀ w a w', m w = (a, w') → view w' = view w.

Lemma pure_ret {A} (a : A) : pure (mret a).
Proof. intros w a' w' H'. by r_ret H'. Qed.

Lemma pure_bind {A B} (m : R W A) (f : A → R W B) : pure m → (∀ a, pure (f a)) → pure (m ≫= f).
Proof. intros Hm Hf w b w' H'. r_step H'. rewrite (Hf _ _ _ _ H'). by eapply Hm. Qed.

Lemma dependenciesVars_pure edges vars : pure (dependenciesVars env edges vars).
Proof.
  revert vars. induction edges as [|e edges IH]; intros vars; cbn [dependenciesVars]; [apply pure_ret|].
  apply pure_bind; [|done]. unfold dependencyVars. cbv zeta. apply pure_bind.
  { intros ???. apply getDepArrow_pure. }
  intros [d|]; [|apply pure_ret]. case_match; [|apply pure_ret].
  apply pure_bind; [|intros; apply pure_ret].
  destruct (env_WorkDir env) as [f|] eqn:Hf; [|apply pure_ret].
  apply pure_bind; [|intros; apply pure_ret]. intros ???. by apply WorkDir_pure.
Qed.

Lemma allocatePorts_pure ns arrow held vars : pure (allocatePorts env ns arrow held vars).
Proof.
  unfold allocatePorts. destruct (env_Allocate env) as [f|] eqn:Hf; [|apply pure_ret].
  revert vars. induction (arrow_netbridge arrow) as [|p ports IH]; intros vars;
    cbn [allocatePorts_in]; [apply pure_ret|].
  destruct (negb _); [done|]. apply pure_bind; [intros ???; by apply Allocate_pure|].
  intros [n|]; [apply IH|]. destruct (port_required p); [apply pure_ret|apply IH].
Qed.

Lemma Assemble_pure ns method userVars ref : pure (Assemble env ns method userVars ref).
Proof.
  unfold Assemble. apply pure_bind; [intros ???; apply getArrow_pure|].
  intros [arrow|]; [|apply pure_ret]. case_match; [|apply pure_ret].
  case_match; [|apply pure_ret]. case_match. apply pure_bind.
  - unfold ResolveVariables. apply pure_bind.
    { unfold builtIns. apply pure_bind; [|intros; apply pure_ret].
      destruct (env_WorkDir env) as [f|] eqn:Hf; [|apply pure_ret].
      apply pure_bind; [intros ???; by apply WorkDir_pure|intros; apply pure_ret]. }
    intros [built|]; [|apply pure_ret]. apply pure_bind.
    { unfold socketVars. destruct (env_Prepare env) as [f|] eqn:Hf; [|apply pure_ret].
      destruct (hasListenUI _); [|apply pure_ret]. apply pure_bind; [|intros; apply pure_ret].
      unfold provisionSocket. apply pure_bind; [intros ???; by apply Prepare_pure|intros; apply pure_ret]. }
    intros [l'|]; [|apply pure_ret]. apply pure_bind; [apply dependenciesVars_pure|]. intros deps.
    apply pure_bind.
    { unfold storedVars. apply pure_bind; [intros ???; apply get_pure|intros; apply pure_ret]. }
    intros stored. apply pure_bind; [apply allocatePorts_pure|].
    intros [ports|]; apply pure_ret.
  - intros [vars|]; [|apply pure_ret]. cbv zeta. apply pure_bind; [|intros; apply pure_ret].
    unfold assembledWorkDir. destruct (env_WorkDir env) as [f|] eqn:Hf; [|apply pure_ret].
    apply pure_bind; [intros ???; by apply WorkDir_pure|intros; apply pure_ret].
Qed.

Lemma plannedAssemble_pure ns method userVars ref : pure (plannedAssemble env ns method userVars ref).
Proof.
  unfold plannedAssemble. apply pure_bind; [apply Assemble_pure|]. intros [r|]; [|apply pure_ret].
  apply pure_bind; [intros ???; apply getArrow_pure|intros; apply pure_ret].
Qed.
End assembled.

(** ** A run that begins *)

Lemma request_command_begins r args states current rt :
  Apply (request_command r args states) current = Committed rt →
  ∃ e, Exec rt = Some e ∧ Steps e = initialSteps (begin_steps args) ∧ Variables e = begin_vars args.
Proof.
  unfold Apply. destruct (Validate _ _); [done|]. destruct r; simpl; intros [= <-]; simpl; eauto.
Qed.

(** What planning a run may add to its assembled steps *)
Definition exposes (s : Step) : Prop :=
  match s with ExposeStep _ _ _ _ _ _ _ | UnexposeStep _ => True | _ => False end.

Definition adds_around (method : string) (steps all : list Step) : Prop :=
  ∃ before after, all = before ++ steps ++ after ∧ Forall exposes (before ++ after) ∧
    (before ≠ [] → method = MethodUninstall) ∧ (after ≠ [] → method = MethodInstall ∨ method = MethodUpdate).

Lemma appendExposeSteps_adds steps kind entries mediaIcon :
  ∃ added, appendExposeSteps steps kind entries mediaIcon = steps ++ added ∧ Forall exposes added.
Proof.
  eexists. split; [reflexivity|]. apply Forall_forall. intros s (e & -> & _)%list_elem_of_fmap. done.
Qed.

Lemma Plan_adds method arrow os steps : adds_around method steps (Plan method arrow os steps).
Proof.
  assert (adds_around method steps steps) as Hnone.
  { exists [], []. split_and!; [by rewrite app_nil_r|constructor|done..]. }
  unfold Plan, expose_Plan. destruct (IsEmpty _); [done|]. destruct (_ || _) eqn:Hm.
  - destruct (appendExposeSteps_adds steps ExposeKindDesktop (Desktop (target_expose arrow os)) (Icon (Media (arrow_meta arrow))))
      as (d & -> & Hd).
    destruct (appendExposeSteps_adds (steps ++ d) ExposeKindCLI (CLI (target_expose arrow os)) (Icon (Media (arrow_meta arrow))))
      as (c & -> & Hc).
    exists [], (d ++ c). split; [by rewrite <- app_assoc|]. split; [by apply (Forall_app_2 _ d c)|]. split; [done|]. intros _.
    apply orb_true_iff in Hm as [->%String.eqb_eq | ->%String.eqb_eq]; auto.
  - destruct (String.eqb_spec method MethodUninstall) as [->|]; [|done].
    exists [UnexposeStep (mkBasicStep "Remove exposed entries" false)], [].
    split; [by rewrite app_nil_r|]. split; [by repeat constructor|]. by split.
Qed.


(** ** The built-in variables *)

Section layers.
Context {W : Type} `{Asynx W} (env : AssemblerEnv (W := W)).

Lemma scoped_not_reserved ns name x :
  IsReservedVariable x = true → ns +:+ "." +:+ name ≠ x.
Proof.
  intros Hx <-. apply bool_decide_eq_true_1 in Hx.
  assert (∀ y, y ∈ ReservedVariableNames → contains_byte "." y = false) as Hdot.
  { intros y Hy. unfold ReservedVariableNames in Hy.
    repeat (apply elem_of_cons in Hy as [->|Hy]; [reflexivity|]). by apply elem_of_nil in Hy. }
  apply Hdot in Hx. unfold contains_byte in Hx. rewrite !exists_byte_app in Hx. simpl in Hx.
  by rewrite orb_true_r in Hx.
Qed.

Lemma applyExports_keeps depNs path exports vars x :
  IsReservedVariable x = true → applyExports depNs path exports vars !! x = vars !! x.
Proof.
  intros Hx. unfold applyExports. revert vars. induction (map_to_list exports) as [|e l IH];
    intros vars; simpl; [done|]. rewrite IH, lookup_insert_ne; [done|]. by apply scoped_not_reserved.
Qed.

Lemma dependenciesVars_keeps edges vars w vars' w' x :
  IsReservedVariable x = true → dependenciesVars env edges vars w = (vars', w') →
  vars' !! x = vars !! x.
Proof.
  intros Hx. revert vars w. induction edges as [|e edges IH]; intros vars w Hd;
    cbn [dependenciesVars] in Hd; [by r_ret Hd|].
  r_step Hd. apply IH in Hd as ->. clear IH. unfold dependencyVars in Hm. cbv zeta in Hm. r_step Hm.
  destruct a0 as [d|]; [|by r_ret Hm]. destruct (target_of _ _); [|by r_ret Hm].
  r_step Hm. r_ret Hm. rewrite applyExports_keeps by done.
  destruct (env_WorkDir env) as [f|]; [|by r_ret Hm1]. r_step Hm1. r_ret Hm1.
  case_match; [|done]. rewrite lookup_insert_ne; [done|].
  by apply (scoped_not_reserved _ "INSTALL_PATH").
Qed.

Lemma applyDefaults_keeps vars declared x :
  (∀ v, v ∈ declared → var_name v ≠ x) → applyDefaults vars declared !! x = vars !! x.
Proof.
  unfold applyDefaults. revert vars. induction declared as [|v l IH]; intros vars Hx; simpl; [done|].
  rewrite IH by (intros; by apply Hx, list_elem_of_further).
  destruct (String.eqb _ _); [done|]. rewrite lookup_insert_ne; [done|]. apply Hx, list_elem_of_here.
Qed.

Lemma allocatePorts_keeps ns arrow held vars w vars' w' x :
  (∀ p, p ∈ arrow_netbridge arrow → port_name p ≠ x) →
  allocatePorts env ns arrow held vars w = (Ok vars', w') → vars' !! x = vars !! x.
Proof.
  unfold allocatePorts. destruct (env_Allocate env) as [f|]; [|intros _ Ha; by r_ret Ha].
  revert vars w. induction (arrow_netbridge arrow) as [|p ports IH]; intros vars w Hx Ha;
    cbn [allocatePorts_in] in Ha; [by r_ret Ha|].
  assert (∀ p', p' ∈ ports → port_name p' ≠ x) as Hx' by (intros; by apply Hx, list_elem_of_further).
  destruct (negb _); [by apply IH in Ha|]. r_step Ha. destruct a as [n|].
  - apply IH in Ha as ->; [|done]. rewrite lookup_insert_ne; [done|]. apply Hx, list_elem_of_here.
  - destruct (port_required p); [r_fail Ha|by apply IH in Ha].
Qed.

Lemma storedVars_computed ns arrow w stored w' x :
  isComputed x = true → storedVars ns arrow w = (stored, w') → stored !! x = None.
Proof.
  intros Hx Hs. unfold storedVars in Hs. r_step Hs. r_ret Hs.
  destruct a as [rt|]; [|apply lookup_empty]. destruct (LastReturn rt); [|apply lookup_empty].
  apply map_lookup_filter_None. right. intros v _. simpl. rewrite Hx, orb_true_r. done.
Qed.

Lemma applyUserVars_reserved vars userVars x :
  IsReservedVariable x = true → applyUserVars vars userVars !! x = vars !! x.
Proof.
  intros Hx. unfold applyUserVars. apply lookup_union_r. apply map_lookup_filter_None.
  right. intros v _. simpl. by rewrite Hx.
Qed.

(** No declared variable and no port takes the name of a built-in. *)
Definition names_free (arrow : Arrow) : Prop :=
  (∀ v, v ∈ arrow_variables arrow → IsReservedVariable (var_name v) = false) ∧
  (∀ p, p ∈ arrow_netbridge arrow → IsReservedVariable (port_name p) = false).

Lemma other_name {name x} :
  IsReservedVariable x = true → IsReservedVariable name = false → name ≠ x.
Proof. by intros Hx Hn ->; rewrite Hx in Hn. Qed.

Lemma ResolveVariables_reserved ns arrow target userVars steps w vars w' :
  names_free arrow →
  ResolveVariables env ns arrow target userVars steps w = (Ok vars, w') →
  ∃ built listening w1 w2, builtIns env ns arrow w = (Ok built, w1) ∧
    socketVars env ns steps built w1 = (Ok listening, w2) ∧
    ∀ x, IsReservedVariable x = true → vars !! x = listening !! x.
Proof.
  intros [Hv Hp] (built & listening & deps & stored & ports & w1 & w2 & w3 & w4 &
    Hb & Hl & Hd & Hs & Ha & -> & _)%ResolveVariables_ok.
  exists built, listening, w1, w2. split_and!; [done..|]. intros x Hx.
  rewrite applyUserVars_reserved by done. rewrite lookup_union_r.
  2: { eapply storedVars_computed; [|exact Hs]. unfold isComputed. by rewrite Hx. }
  rewrite (allocatePorts_keeps _ _ _ _ _ _ _ _ (λ p Hin, other_name Hx (Hp p Hin)) Ha).
  rewrite applyDefaults_keeps by (intros v Hin; exact (other_name Hx (Hv v Hin))).
  by apply (dependenciesVars_keeps _ _ _ _ _ _ Hx Hd).
Qed.
End layers.

Lemma builtIns_ok {W} `{Asynx W} (env : AssemblerEnv (W := W)) ns arrow w built w' :
  builtIns env ns arrow w = (Ok built, w') →
  built !! VarArrowNamespace = Some ns ∧ built !! VarPlatform = Some (os_string (env_os env)) ∧
  built !! VarRef = Some (RefOr (arrow_resolved arrow) (Ref ns)) ∧ built !! VarArrowApp = None ∧
  built !! VarArrowUIListen = None ∧
  match env_WorkDir env with
  | None => built !! VarWorkdir = None ∧ built !! VarInstallPath = None
  | Some WorkDir => ∃ wa dir wb, WorkDir ns wa = (Ok dir, wb) ∧
      built !! VarWorkdir = Some dir ∧ built !! VarInstallPath = Some dir
  end.
Proof.
  unfold builtIns. intros Hb. r_step Hb. destruct a as [vars|e]; [|r_fail Hb]. r_ret Hb.
  assert ((vars !! VarArrowApp = None ∧ vars !! VarArrowUIListen = None) ∧
    match env_WorkDir env with
    | None => vars !! VarWorkdir = None ∧ vars !! VarInstallPath = None
    | Some WorkDir => ∃ wa dir wb, WorkDir ns wa = (Ok dir, wb) ∧
        vars !! VarWorkdir = Some dir ∧ vars !! VarInstallPath = Some dir
    end) as [[Ha Hu] Hwd].
  { destruct (env_WorkDir env) as [f|]; [|r_fail Hm; by rewrite !lookup_empty]. r_step Hm.
    destruct a as [dir|]; r_fail Hm. split; [done|]. by eexists _, _, _. }
  split_and!; try (by rewrite ?lookup_insert_ne, ?lookup_insert_eq by done).
Qed.

Lemma socketVars_keeps {W} `{Asynx W} (env : AssemblerEnv (W := W)) ns steps vars w vars' w' x :
  x ≠ VarArrowUIListen → socketVars env ns steps vars w = (Ok vars', w') → vars' !! x = vars !! x.
Proof.
  intros Hx. unfold socketVars. destruct (env_Prepare env); [|intros Hl; by r_ret Hl].
  destruct (hasListenUI steps); [|intros Hl; by r_ret Hl]. intros Hl. r_step Hl.
  destruct a; [|r_fail Hl]. r_ret Hl. by rewrite lookup_insert_ne.
Qed.

(** C40. What Quiver computes about a run is not for a caller or an earlier run to
    say.  In an assembled run of an arrow that declares no variable and no port with a
    built-in name, the namespace, the platform, the ref (the one an update moves to,
    else the installed one, else the one the namespace names) and the workdir the
    vault gives are what their built-ins hold, whatever the caller sent and whatever
    the last return recorded; the socket is set when a run step of the method listens,
    and only then, and the application never. *)
Theorem built_ins_authoritative {W} `{Asynx W} (env : AssemblerEnv (W := W)) ns method userVars ref w x w' :
  Assemble env ns method userVars ref w = (Ok x, w') →
  ∃ arrow w1, env_getArrow env ns w = (Ok arrow, w1) ∧ (names_free arrow →
    let vars := Resolved_Variables x in
    vars !! VarArrowNamespace = Some ns ∧
    vars !! VarPlatform = Some (os_string (env_os env)) ∧
    vars !! VarRef = Some (match ref with
                           | Some (String _ _ as r) => r
                           | _ => RefOr (arrow_resolved arrow) (Ref ns)
                           end) ∧
    vars !! VarArrowApp = None ∧
    match env_WorkDir env with
    | None => vars !! VarWorkdir = None ∧ vars !! VarInstallPath = None
    | Some WorkDir => ∃ wa dir wb, WorkDir ns wa = (Ok dir, wb) ∧
        vars !! VarWorkdir = Some dir ∧ vars !! VarInstallPath = Some dir
    end ∧
    match env_Prepare env with
    | Some Prepare =>
      if hasListenUI (Resolved_Steps x)
      then ∃ wa socket wb, Prepare ns wa = (Ok socket, wb) ∧ vars !! VarArrowUIListen = Some socket
      else vars !! VarArrowUIListen = None
    | None => vars !! VarArrowUIListen = None
    end).
Proof.
  intros (arrow & target & vars & w1 & w2 & Hg & _ & _ & Hr & Hx & _)%Assemble_ok.
  exists arrow, w1. split; [done|]. intros Hfree. cbv zeta. rewrite Hx. clear Hx.
  destruct (ResolveVariables_reserved env _ _ _ _ _ _ _ _ Hfree Hr)
    as (built & listening & wa & wb & Hb & Hl & Hkeep).
  assert (∀ n, IsReservedVariable n = true → n ≠ VarRef → withTargetRef ref vars !! n = listening !! n)
    as Hn.
  { intros n Hn Hne. rewrite <- Hkeep by done. unfold withTargetRef. destruct ref as [r|]; [|done].
    destruct (String.eqb r ""); [done|]. by rewrite lookup_insert_ne. }
  assert (withTargetRef ref vars !! VarRef = match ref with
    | Some (String _ _ as r) => Some r | _ => listening !! VarRef end) as Href.
  { unfold withTargetRef. rewrite <- Hkeep by done.
    destruct ref as [[|c r]|]; [done| |done]. simpl. by rewrite lookup_insert_eq. }
  rewrite Href, !Hn by done. clear Hn Href Hkeep Hg Hr.
  destruct (builtIns_ok env _ _ _ _ _ Hb) as (Hns & Hpl & Hrf & Happ & Hui & Hwd).
  assert (∀ n, n ≠ VarArrowUIListen → listening !! n = built !! n) as Hsame
    by (intros n Hne; by eapply socketVars_keeps).
  rewrite !Hsame by done. split_and!; try done.
  - by destruct ref as [[|c r]|].
  - unfold socketVars in Hl. destruct (env_Prepare env) as [Prepare|]; [|by r_ret Hl].
    destruct (hasListenUI _); [|by r_ret Hl]. r_step Hl.
    destruct a as [socket|e]; [|r_fail Hl]. r_ret Hl.
    unfold provisionSocket in Hm. r_step Hm. destruct a; r_fail Hm.
    eexists _, _, _. split; [exact Hm0|]. by rewrite lookup_insert_eq.
Qed.

(** ** Runs *)

Section samples.
Definition sample_flow (install execute : list Step) : Target :=
  mkTarget (mkRequirement 1 1 1) [] [] ∅
    (mkTargetLifecycle (Some install) None (Some execute) None None None) ∅ (mkExpose None None).

(** An arrow whose server needs a token and runs on a port *)
Definition sample_server (variables : list DeclaredVariable) : Arrow :=
  mkArrow "x/app@1" no_meta variables [mkPortDef "PORT" ProtocolTCP 8080 true]
    [(OSLinuxAMD64, sample_flow []
       [NewRunStep "Serve" "./serve --token ${TOKEN} --port ${PORT} --ref ${REF}" false "" true])]
    "" None true None SelectorPin (Domain.mkResolved "1.0" "c1" "") None.

Definition declare (name value : string) : DeclaredVariable :=
  mkVariable name "" value [] 0 0 false VariableTypeString.

Definition sample_env (variables : list DeclaredVariable) : AssemblerEnv (W := Store) :=
  mkAssemblerEnv OSLinuxAMD64
    (λ _ w, (Ok (sample_server variables), w)) (λ _ w, (Err (), w))
    (Some (λ ns w, (Ok ("/data/" +:+ ns), w))) (Some (λ _ _ n w, (Some n, w))) None.

#[export] Instance sample_pure variables : EnvPure (sample_env variables) id.
Proof. split; simpl; intros; by simplify_eq. Qed.
End samples.


Lemma built_ins_authoritative_witness :
  let env := sample_env [declare "TOKEN" "t0"] in
  ∃ x, (Assemble env "x/app@1" MethodExecute {[ "REF" := "9.9" ]} None ∅).1 = Ok x ∧
    Resolved_Variables x !! VarRef = Some "1.0" ∧
    Resolved_Variables x !! VarWorkdir = Some "/data/x/app@1".
Proof.
  intros env. destruct (Assemble env "x/app@1" MethodExecute {[ "REF" := "9.9" ]} None ∅)
    as [[x|e] w'] eqn:Ha; [|vm_compute in Ha; discriminate].
  exists x. split; [reflexivity|].
  destruct (built_ins_authoritative env _ _ _ _ _ _ _ Ha) as (arrow & w1 & Hg & H).
  simpl in Hg. injection Hg as <- <-.
  destruct H as (_ & _ & Hr & _ & (wa & dir & wb & Hd & Hw & _) & _).
  { split; intros ? Hv; apply list_elem_of_singleton in Hv as ->; reflexivity. }
  split; [exact Hr|]. rewrite Hw. simpl in Hd. by injection Hd as <- _.
Defined.

(** ** Where the code falls short of what it says *)

(** The directory of a static interface is expanded when its run opens it
    (wizard/internal/step/run/surface.go), yet the assembler does not look there, so
    a variable only it reads is not required. *)
Lemma static_not_required :
  let ui := mkUIOptions "" "" [] "${DIR}" in
  let s := RunStep (mkBasicStep "Serve" true) (flat "./serve") (flat false) (flat "") (Some ui) in
  reads (ui_static ui) "DIR" ∧ "DIR" ∉ ReferencedVariables [s].
Proof.
  split; [by apply list_elem_of_here|]. intros H. by vm_compute in H.
Qed.

(** A manifest may declare a variable with the name of a built-in, and its default
    then replaces what Quiver computed. *)
Lemma default_replaces_built_in :
  let env := sample_env [declare "TOKEN" "t0"; declare VarWorkdir "/"] in
  ∃ x w', Assemble env "x/app@1" MethodExecute ∅ None ∅ = (Ok x, w') ∧
    Resolved_Variables x !! VarWorkdir = Some "/" ∧ Resolved_WorkDir x = "/data/x/app@1".
Proof. eexists _, _. split_and!; [vm_compute; reflexivity|reflexivity..]. Qed.
