(* ===== verification/Catalog.v ===== *)
(** * The catalog (internal/app/repositories/arrow)

    One aggregate per catalogued arrow, written by the commands of
    internal/commands; how an install is resolved against a repository and its
    manifest read, cached or found absent (internal/store); how a row is advanced,
    adopted and checked for what is ahead of it (internal/advance); the verbs of the
    repository itself (arrow.go, preinstalled.go, version_outdated.go).  They are
    programs of calls on the store of aggregates, the vault and the manifold. *)

From S2P Require Import Prelude Errors GoStrings Domain Channels Versioning Steps Manifest Prog.

(** ** The commands (internal/commands) *)

(** The fields a manifest fills ([manifestOf]) *)
Record ManifestFields := mkManifestFields {
  m_meta : ArrowMeta;
  m_variables : list DeclaredVariable;
  m_netbridge : list PortDef;
  m_targets : list (OS * Target);
  m_readme : string;
}.

Definition manifestOf (a : Arrow) : ManifestFields :=
  mkManifestFields (arrow_meta a) (arrow_variables a) (arrow_netbridge a) (arrow_targets a)
    (arrow_readme a).

Inductive command :=
| AddArrow (ns : Namespace) (m : ManifestFields) (directInstall : bool) (kind : SelectorKind)
    (resolved : Resolved)
| AdvanceArrow (ns : Namespace) (m : ManifestFields) (resolved : Resolved)
    (keepNewerAvailable : bool)
| RefreshManifest (ns : Namespace) (m : ManifestFields)
| MarkInstalled (ns : Namespace) (at_ : option Z)
| MarkUninstalled (ns : Namespace)
| MarkLastUsed (ns : Namespace) (at_ : option Z)
| SetUserInstalled (ns : Namespace)
| RecordAvailable (ns : Namespace) (available : option Available) (judgedResolved : Resolved).

Definition AggregateID (c : command) : Namespace :=
  match c with
  | AddArrow ns _ _ _ _ | AdvanceArrow ns _ _ _ | RefreshManifest ns _ | MarkInstalled ns _
  | MarkUninstalled ns | MarkLastUsed ns _ | SetUserInstalled ns | RecordAvailable ns _ _ => ns
  end.

(** The commands on a row that has to be there *)
Definition requireRow (current : option Arrow) : option sentinel :=
  match current with None => Some ErrAxValidation | Some _ => None end.

Definition AddArrow_Validate (current : option Arrow) : option sentinel :=
  match current with Some _ => Some ErrAxValidation | None => None end.

Definition RecordAvailable_Validate (judged : Resolved) (current : option Arrow) : option sentinel :=
  match current with
  | None => Some ErrAxValidation
  | Some a => if bool_decide (arrow_resolved a = judged) then None else Some ErrAxValidation
  end.

Definition Validate (c : command) (current : option Arrow) : option sentinel :=
  match c with
  | AddArrow _ _ _ _ _ => AddArrow_Validate current
  | RecordAvailable _ _ judged => RecordAvailable_Validate judged current
  | _ => requireRow current
  end.

Definition with_manifest (a : Arrow) (m : ManifestFields) : Arrow :=
  mkArrow (arrow_namespace a) (m_meta m) (m_variables m) (m_netbridge m) (m_targets m)
    (m_readme m) (InstalledAt a) (UserInstalled a) (LastUsedAt a) (arrow_kind a)
    (arrow_resolved a) (arrow_available a).

Definition with_installed_at (a : Arrow) (at_ : option Z) : Arrow :=
  mkArrow (arrow_namespace a) (arrow_meta a) (arrow_variables a) (arrow_netbridge a)
    (arrow_targets a) (arrow_readme a) at_ (UserInstalled a) (LastUsedAt a) (arrow_kind a)
    (arrow_resolved a) (arrow_available a).

Definition with_last_used_at (a : Arrow) (at_ : option Z) : Arrow :=
  mkArrow (arrow_namespace a) (arrow_meta a) (arrow_variables a) (arrow_netbridge a)
    (arrow_targets a) (arrow_readme a) (InstalledAt a) (UserInstalled a) at_ (arrow_kind a)
    (arrow_resolved a) (arrow_available a).

Definition with_user_installed (a : Arrow) : Arrow :=
  mkArrow (arrow_namespace a) (arrow_meta a) (arrow_variables a) (arrow_netbridge a)
    (arrow_targets a) (arrow_readme a) (InstalledAt a) true (LastUsedAt a) (arrow_kind a)
    (arrow_resolved a) (arrow_available a).

Definition with_resolved (a : Arrow) (resolved : Resolved) (available : option Available) : Arrow :=
  mkArrow (arrow_namespace a) (arrow_meta a) (arrow_variables a) (arrow_netbridge a)
    (arrow_targets a) (arrow_readme a) (InstalledAt a) (UserInstalled a) (LastUsedAt a)
    (arrow_kind a) resolved available.

(** [AdvanceArrow.names] *)
Definition names (resolved : Resolved) (available : option Available) : bool :=
  match available with
  | None => true
  | Some t => String.eqb (available_ref t) (resolved_ref resolved) &&
              String.eqb (available_commit t) (resolved_commit resolved)
  end.

Definition AddArrow_Emit (ns : Namespace) (m : ManifestFields) (direct : bool)
  (kind : SelectorKind) (resolved : Resolved) : Arrow :=
  mkArrow ns (m_meta m) (m_variables m) (m_netbridge m) (m_targets m) (m_readme m)
    None direct None kind resolved None.

Definition AdvanceArrow_Emit (m : ManifestFields) (resolved : Resolved) (keep : bool) (a : Arrow)
  : Arrow :=
  with_resolved (with_manifest a m) resolved
    (if negb keep || names resolved (arrow_available a) then None else arrow_available a).

Definition RecordAvailable_Emit (available : option Available) (a : Arrow) : Arrow :=
  with_resolved a (arrow_resolved a) available.

(** [EmitEvent]; the ones that read the row panic ([None]) when there is none. *)
Definition EmitEvent (c : command) (current : option Arrow) : option Arrow :=
  match c, current with
  | AddArrow ns m direct kind resolved, _ => Some (AddArrow_Emit ns m direct kind resolved)
  | _, None => None
  | AdvanceArrow _ m resolved keep, Some a => Some (AdvanceArrow_Emit m resolved keep a)
  | RefreshManifest _ m, Some a => Some (with_manifest a m)
  | MarkInstalled _ at_, Some a => Some (with_installed_at a at_)
  | MarkUninstalled _, Some a => Some (with_installed_at a None)
  | MarkLastUsed _ at_, Some a => Some (with_last_used_at a at_)
  | SetUserInstalled _, Some a => Some (with_user_installed a)
  | RecordAvailable _ available _, Some a => Some (RecordAvailable_Emit available a)
  end.

Abbreviation rows := (gmap Namespace Arrow).

Inductive applied := Committed (st : rows) | Rejected (e : sentinel) | Panicked.

(** What the store of aggregates does with a command *)
Definition Apply (c : command) (st : rows) : applied :=
  match Validate c (st !! AggregateID c) with
  | Some e => Rejected e
  | None =>
    match EmitEvent c (st !! AggregateID c) with
    | Some a => Committed (<[AggregateID c := a]> st)
    | None => Panicked
    end
  end.

(** ** The calls *)

(** An entry of the vault (engine/vault/vault_entry.go); the marks discovery sets in
    [Meta] stay zero here. *)
Record ManifestFile := mkManifestFile {
  Content : string;
  Filename : string;
  file_meta : option (ArrowMeta * list OS);
  file_ref : string;
  file_commit : string;
  file_default : bool;
  file_channels : option (list ChannelInfo);
  file_default_at : option Z;
}.

Inductive reaction := ArrowAdded | ArrowUpdated | ArrowRemoved.

Inductive event_kind := CatalogUpserted | CatalogRemoved.

Inductive call :=
(* the store of aggregates; [Send] does not wait for the projections *)
| Exists (ns : Namespace)
| Get (ns : Namespace)
| SendWait (c : command)
| Send (c : command)
| Forget (ns : Namespace)
(* the vault *)
| GetArrow (key : Namespace)
| PutArrow (key : Namespace) (file : ManifestFile)
| DeleteArrow (key : Namespace)
| PutArrowNotFound (key : Namespace) (commit : string)
| ListVersions (ns : Namespace)
| DeleteWorkDir (ns : Namespace)
(* the manifold *)
| Snapshot (ns : Namespace)
| FreshSnapshot (ns : Namespace)
| ListChannels (ns : Namespace)
| ResolveArrow (ns : Namespace)
| ParseArrow (content : string)
(* the wizard and the runtime repository *)
| Probe (ns : Namespace) (steps : StepList) (vars : gmap string string)
| MarkPreinstalled (ns : Namespace)
| ForgetRuntime (ns : Namespace)
| BadgeHeld (ns : Namespace)
| SetVersionOutdated (ns : Namespace) (outdated : bool)
(* the read model, what reacts to an event, and the clients *)
| Project (a : Arrow)
| ProjectForget (a : Arrow)
| React (k : reaction) (fn : nat) (a : Arrow)
| Broadcast (k : event_kind) (a : Arrow)
(* a goroutine of its own *)
| GoRefresh (ns : Namespace)
| GoRecheck (ns : Namespace) (heldCommit : string)
| GoCheck (a : Arrow)
(* the hook on a refreshed manifest *)
| OnRefreshed (a : Arrow).

Definition answer (c : call) : Type :=
  match c with
  | Exists _ => result error bool
  | Get _ | ParseArrow _ => result error Arrow
  | GetArrow _ => ManifestFile * option error
  | ListVersions _ => list string
  | Snapshot _ | FreshSnapshot _ => result error RefSnapshot
  | ListChannels _ => result error (list ChannelInfo)
  | ResolveArrow _ => result error (Arrow * string * string)
  | SendWait _ | Send _ | Forget _ | PutArrow _ _ | DeleteArrow _ | PutArrowNotFound _ _
  | DeleteWorkDir _ | Probe _ _ _ | MarkPreinstalled _ | ForgetRuntime _
  | SetVersionOutdated _ _ | Project _ | ProjectForget _ | React _ _ _ => result error unit
  | BadgeHeld _ => bool
  | Broadcast _ _ | GoRefresh _ | GoRecheck _ _ | GoCheck _ | OnRefreshed _ => unit
  end.

Abbreviation P := (prog answer).

Definition sendWait (c : command) : P (result error unit) := ask (SendWait c).

(** ** Errors (advance/errors.go, store/resolver.go, store/store.go) *)

Definition appSentinels : list sentinel :=
  [ErrNotFound; ErrAlreadyExists; ErrStateViolation; ErrMethodNotFound; ErrFetchFailed;
   ErrInvalidNamespace; ErrDependentsExist; ErrInvalidManifest; ErrPlatformNotSupported;
   ErrMissingVariable; ErrReservedVariable; ErrInvalidConfig].

Definition MapResolveErr (e : error) : error :=
  if errors_Is e ErrNoSupportedPlatform then ErrPlatformNotSupported :: e
  else if errors_Is e ErrRulesetInvalidManifest then ErrInvalidManifest :: e
  else if errors_Is e ErrResolverNotFound then ErrNotFound :: e
  else if existsb (errors_Is e) appSentinels then e
  else ErrFetchFailed :: e.

Definition wrapManifoldErr (e : error) : error :=
  if errors_Is e ErrResolverNotFound then ErrNotFound :: e
  else if errors_Is e ErrResolverFetchFailed then ErrFetchFailed :: e
  else if errors_Is e ErrManifoldInvalidManifest then ErrInvalidManifest :: e
  else if errors_Is e ErrArrowNotInCollection then ErrNotFound :: e
  else e.

Definition MapGetErr (e : error) : error :=
  if errors_Is e ErrAxNotFound then [ErrNotFound] else e.

Definition mapSendErr {A} (r : result error A) : result error A :=
  match r with
  | Ok a => Ok a
  | Err e => if errors_Is e ErrAxValidation || errors_Is e ErrAxPipelineFailed
             then Err [ErrStateViolation] else Err e
  end.

Definition CacheError (e : error) : error :=
  if errors_Is e ErrWorkDirCollision then ErrAlreadyExists :: e else e.

(** The errors of the versioning component *)
Definition version_sentinels (e : version_error) : error :=
  match e with
  | Versioning.ErrUnknownSelector => [Errors.ErrUnknownSelector]
  | Versioning.ErrNotAdmitted => [Errors.ErrNotAdmitted]
  end.

(** ** Reading a manifest at a commit (manifold.go, store/selector.go) *)

(** [DraftedElsewhere] and [ResolveArrowAtCommit] of the manifold *)
Definition DraftedElsewhere (a : Arrow) (ref : string) : bool :=
  if String.eqb (arrow_namespace a) "" || String.eqb ref "" ||
     negb (String.eqb (Origin a) ArrowOriginInferred) then false
  else negb (String.eqb (Ref (arrow_namespace a)) ref) &&
       negb (equal_fold (Ref (arrow_namespace a)) ref).

Definition NotARelease : error := [ErrResolverNotFound].

Definition with_namespace (a : Arrow) (ns : Namespace) : Arrow :=
  mkArrow ns (arrow_meta a) (arrow_variables a) (arrow_netbridge a) (arrow_targets a)
    (arrow_readme a) (InstalledAt a) (UserInstalled a) (LastUsedAt a) (arrow_kind a)
    (arrow_resolved a) (arrow_available a).

Definition ResolveArrowAtCommit (ns : Namespace) (ref commit : string)
  : P (result error (Arrow * string * string)) :=
  r ← ask (ResolveArrow (WithRef ns commit));
  r ← (match r with
       | Err e =>
         if negb (String.eqb ref "") && negb (String.eqb ref commit) &&
            negb (errors_Is e ErrManifoldInvalidManifest)
         then ask (ResolveArrow (WithRef ns ref)) else mret (Err e)
       | Ok _ => mret r
       end : P (result error (Arrow * string * string)));
  match r with
  | Err e => mret (Err e)
  | Ok (a, raw, filename) =>
    if DraftedElsewhere a ref then mret (Err NotARelease)
    else mret (Ok (with_namespace a ns, raw, filename))
  end.

Section catalog.
Context (has_vault has_manifold : bool).

(** [CachedAtCommit]: the copy the vault holds of that release *)
Fixpoint cached_in (identity : Namespace) (target : Available) (keys : list Namespace)
  : P (option (Arrow * ManifestFile)) :=
  match keys with
  | [] => mret None
  | key :: keys' =>
    r ← ask (GetArrow key);
    let file := r.1 in
    if match r.2 with Some e => negb (errors_Is e ErrStale) | None => false end
    then cached_in identity target keys'
    else if negb (String.eqb (file_ref file) (available_ref target)) ||
            String.eqb (file_commit file) "" ||
            negb (equal_fold (file_commit file) (available_commit target))
    then cached_in identity target keys'
    else
      parsed ← ask (ParseArrow (Content file));
      match parsed with
      | Err _ => cached_in identity target keys'
      | Ok a => mret (Some (with_namespace a identity, file))
      end
  end.

Definition CachedAtCommit (identity : Namespace) (target : Available)
  : P (option (Arrow * ManifestFile)) :=
  if negb has_vault || String.eqb (available_commit target) "" then mret None
  else cached_in identity target [identity; WithRef identity (available_ref target)].

Definition holdsManifest (key : Namespace) : P bool :=
  r ← ask (GetArrow key);
  mret (match r.2 with None => true | Some e => errors_Is e ErrStale end).

Definition RecordAbsent (identity : Namespace) (target : Available) : P unit :=
  let key := WithRef identity (available_ref target) in
  if negb has_vault || String.eqb (available_commit target) "" then mret ()
  else
    holds ← holdsManifest key;
    if holds : bool then mret ()
    else _ ← ask (PutArrowNotFound key (available_commit target)); mret ().

Definition KnownAbsent (identity : Namespace) (target : Available) : P bool :=
  if negb has_vault || String.eqb (available_commit target) "" then mret false
  else
    r ← ask (GetArrow (WithRef identity (available_ref target)));
    mret (match r.2 with
          | Some e => errors_Is e ErrConfirmedAbsent && negb (String.eqb (file_commit r.1) "") &&
                      equal_fold (file_commit r.1) (available_commit target)
          | None => false
          end).

Definition fetchManifestAt (identity : Namespace) (target : Available)
  : P (result error (Arrow * string * string)) :=
  r ← ResolveArrowAtCommit identity (available_ref target) (available_commit target);
  match r with
  | Ok m => mret (Ok m)
  | Err e =>
    let mapped := wrapManifoldErr e in
    _ ← (if errors_Is mapped ErrNotFound then RecordAbsent identity target else mret ());
    mret (Err mapped)
  end.

(** [storeService.manifestAt] *)
Definition store_manifestAt (identity : Namespace) (target : Available)
  : P (result error (Arrow * string * string)) :=
  cached ← CachedAtCommit identity target;
  match cached with
  | Some (a, file) => mret (Ok (a, Content file, Filename file))
  | None =>
    absent ← KnownAbsent identity target;
    if absent : bool then mret (Err [ErrNotFound]) else fetchManifestAt identity target
  end.

(** [Cacheable] and the release it was read at *)
Definition sorted_oses (targets : list (OS * Target)) : list OS :=
  sort_func (λ a b, String.compare (os_string a) (os_string b)) (map fst targets).

Definition Cacheable (a : Arrow) (raw filename : string) : ManifestFile :=
  mkManifestFile raw filename (Some (arrow_meta a, sorted_oses (arrow_targets a)))
    "" "" false None None.

Definition at_release (file : ManifestFile) (release : Available) : ManifestFile :=
  mkManifestFile (Content file) (Filename file) (file_meta file) (available_ref release)
    (available_commit release) (file_default file) (file_channels file) (file_default_at file).

Definition cacheableAt (m : Arrow) (raw filename : string) (release : Available) : ManifestFile :=
  at_release (Cacheable m raw filename) release.

(** ** Resolving an install (store/selector.go) *)

(** [CacheWhenAbsent] given, [Preview] given, and a namespace without a ref *)
Record installOpts := mkInstallOpts { cacheWhenAbsent : bool; preview : bool; refless : bool }.

Definition channelsOf (identity : Namespace) : P (option (list ChannelInfo)) :=
  r ← ask (ListChannels identity);
  mret (match r with Ok (c :: cs) => Some (c :: cs) | _ => None end).

Definition as_default (file : ManifestFile) (is_default : bool) (channels : option (list ChannelInfo))
  : ManifestFile :=
  mkManifestFile (Content file) (Filename file) (file_meta file) (file_ref file)
    (file_commit file) is_default channels (file_default_at file).

Definition cachePreview (identity : Namespace) (target : Available)
  (m : Arrow * string * string) (refless : bool) : P unit :=
  if negb has_vault then mret ()
  else
    let '(a, raw, filename) := m in
    channels ← (if refless && has_manifold then channelsOf identity else mret None);
    _ ← ask (PutArrow identity (as_default (cacheableAt a raw filename target) refless channels));
    mret ().

Definition fetchAtCommit (identity : Namespace) (target : Available) (cache : bool)
  : P (result error Arrow) :=
  m ←? store_manifestAt identity target;
  let '(a, raw, filename) := m in
  if negb cache then mret (Ok a)
  else
    installed ←? ask (Exists identity);
    if installed : bool then mret (Ok a)
    else
      _ ←? ask (DeleteArrow identity);
      r ← ask (PutArrow identity (cacheableAt a raw filename target));
      mret (match r with Err e => Err (CacheError e) | Ok _ => Ok a end).

Definition readTarget (identity : Namespace) (target : Available) (o : installOpts)
  : P (result error Arrow) :=
  if preview o then
    m ←? store_manifestAt identity target;
    _ ← cachePreview identity target m (refless o);
    mret (Ok m.1.1)
  else fetchAtCommit identity target (cacheWhenAbsent o).

Definition resolvedAt (target : Available) : Resolved :=
  mkResolved (available_ref target) (available_commit target) (available_commit target).

Definition targetSentinel (kind : SelectorKind) : sentinel :=
  if bool_decide (Family kind = SelectorChannel) then ErrNotFound else ErrInvalidNamespace.

Definition resolved_as (a : Arrow) (kind : SelectorKind) (resolved : Resolved) : Arrow :=
  mkArrow (arrow_namespace a) (arrow_meta a) (arrow_variables a) (arrow_netbridge a)
    (arrow_targets a) (arrow_readme a) (InstalledAt a) (UserInstalled a) (LastUsedAt a)
    kind resolved (arrow_available a).

Definition installAt (identity : Namespace) (kind : SelectorKind) (snap : RefSnapshot)
  (o : installOpts) : P (result error Arrow) :=
  match Versioning.Target kind (Ref identity) snap with
  | Err e => mret (Err (targetSentinel kind :: version_sentinels e))
  | Ok target =>
    a ←? readTarget identity target o;
    mret (Ok (resolved_as a kind (resolvedAt target)))
  end.

Definition classifyInstall (ns : Namespace) (snap : RefSnapshot)
  : result error (Namespace * SelectorKind) :=
  let? ns := (if String.eqb (Ref ns) "" then
                match DefaultChannel snap with
                | Ok channel => Ok (WithRef ns channel)
                | Err e => Err (ErrNotFound :: version_sentinels e)
                end
              else Ok ns) in
  match ClassifySelector (Ref ns) snap with
  | Err e => Err (ErrInvalidNamespace :: version_sentinels e)
  | Ok SelectorCommit => Ok (WithRef ns (to_lower (Ref ns)), SelectorCommit)
  | Ok kind => Ok (ns, kind)
  end.

(** [identify]; the snapshot it was given is its last result. *)
Definition identify (ns : Namespace) (take : call) (taken : answer take → result error RefSnapshot)
  : P (result error (Namespace * SelectorKind * RefSnapshot)) :=
  r ← ask take;
  mret (match taken r with
        | Err e => Err (wrapManifoldErr e)
        | Ok snap =>
          match classifyInstall ns snap with
          | Err e => Err e
          | Ok (identity, kind) => Ok (identity, kind, snap)
          end
        end).

Definition fresh_or_cached (ns : Namespace) : P (result error (Namespace * SelectorKind * RefSnapshot)) :=
  if String.eqb (Ref ns) "" then identify ns (FreshSnapshot ns) id
  else identify ns (Snapshot ns) id.

(** [fallbackSelectors] without the selector that was tried, its first element *)
Fixpoint fallback_channels (selectors : list string) (channels : list ChannelInfo) : list string :=
  match channels with
  | [] => selectors
  | c :: channels' =>
    if negb (IsDefaultBranchFallback c) && negb (bool_decide (ChannelName c ∈ selectors))
    then fallback_channels (selectors ++ [ChannelName c]) channels'
    else fallback_channels selectors channels'
  end.

Definition fallbackSelectors (snap : RefSnapshot) (tried : string) : list string :=
  let selectors := fallback_channels [tried] (NewestFirst (ChannelsOf snap)) in
  tail (if negb (String.eqb (Head snap) "") && negb (bool_decide (Head snap ∈ selectors))
        then selectors ++ [Head snap] else selectors).

Fixpoint fallback_in (ns : Namespace) (snap : RefSnapshot) (o : installOpts)
  (selectors : list string) : P (option (Namespace * Arrow)) :=
  match selectors with
  | [] => mret None
  | selector :: selectors' =>
    match ClassifySelector selector snap with
    | Err _ => fallback_in ns snap o selectors'
    | Ok kind =>
      let identity := WithRef ns selector in
      r ← installAt identity kind snap o;
      match r with
      | Ok a => mret (Some (identity, a))
      | Err _ => fallback_in ns snap o selectors'
      end
    end
  end.

Definition installFallback (ns : Namespace) (tried : string) (snap : RefSnapshot)
  (o : installOpts) : P (option (Namespace * Arrow)) :=
  fallback_in ns snap o (fallbackSelectors snap tried).

Definition ResolveInstall (ns : Namespace) (cache preview : bool)
  : P (result error (Namespace * Arrow)) :=
  let o := mkInstallOpts cache preview (String.eqb (Ref ns) "") in
  id ←? fresh_or_cached ns;
  let '(identity, kind, snap) := id in
  r ← installAt identity kind snap o;
  match r with
  | Ok a => mret (Ok (identity, a))
  | Err e =>
    if negb (String.eqb (Ref ns) "") || negb (errors_Is e ErrNotFound) then mret (Err e)
    else
      fallback ← installFallback ns (Ref identity) snap o;
      mret (match fallback with Some found => Ok found | None => Err e end)
  end.

(** ** Adopting and checking (store/selector.go) *)

Record Adoption := mkAdoption {
  Identity : Namespace;
  adoption_kind : SelectorKind;
  adoption_resolved : Resolved;
  adoption_manifest : string;
  adoption_filename : string;
}.

Definition admitSentinel (e : version_error) : sentinel :=
  match e with Versioning.ErrNotAdmitted => ErrInvalidNamespace | _ => ErrNotFound end.

Definition ResolveAdoption (ns : Namespace) (resolvedRef : string) : P (result error Adoption) :=
  if String.eqb (trim_space resolvedRef) "" then mret (Err [ErrInvalidNamespace])
  else
    id ←? identify ns (FreshSnapshot ns) id;
    let '(identity, kind, snap) := id in
    match Admit kind (Ref identity) resolvedRef snap with
    | Err e => mret (Err (admitSentinel e :: version_sentinels e))
    | Ok declared =>
      m ←? store_manifestAt identity declared;
      let '(_, raw, filename) := m in
      mret (Ok (mkAdoption identity kind (resolvedAt declared) raw filename))
    end.

(** What [CheckDrift] and the judge of [CheckAvailable] make of a snapshot: what to
    offer, unless its manifest is known to be absent *)
Definition offered (ns : Namespace) (drift : option Available) : P (option Available) :=
  match drift with
  | None => mret None
  | Some target =>
    absent ← KnownAbsent ns target;
    mret (if absent : bool then None else Some target)
  end.

Definition CheckDrift (a : Arrow) : P (option (option Available)) :=
  r ← ask (FreshSnapshot (arrow_namespace a));
  match r with
  | Err _ => mret None
  | Ok snap =>
    match Drift (arrow_kind a) (Ref (arrow_namespace a)) (arrow_resolved a) snap with
    | Err _ => mret None
    | Ok drift => available ← offered (arrow_namespace a) drift; mret (Some available)
    end
  end.

(** ** Advancing a row (advance/advance.go) *)

Definition maxWriteAttempts := 3.

Definition replaceCachedManifest (ns : Namespace) (file : ManifestFile) : P (result error unit) :=
  _ ←? ask (DeleteArrow ns);
  r ← ask (PutArrow ns file);
  mret (match r with Err e => Err (CacheError e) | Ok _ => Ok () end).

(** The attempts of [sendRetryingConflicts], [left] of them after this one *)
Fixpoint resend (left : nat) (c : command) : P (result error unit) :=
  r ← sendWait c;
  match r, left with
  | Err e, S left' => if errors_Is e ErrAxPipelineFailed then resend left' c else mret r
  | _, _ => mret r
  end.

Definition sendRetryingConflicts : command → P (result error unit) := resend (maxWriteAttempts - 1).

Definition sendAdvance (ns : Namespace) (m : Arrow) (resolved : Resolved) (keepNewer : bool)
  : P (result error unit) :=
  r ← sendRetryingConflicts (AdvanceArrow ns (manifestOf m) resolved keepNewer);
  mret (mapSendErr r).

Definition sendAdopted (ns : Namespace) (m : Arrow) (kind : SelectorKind) (resolved : Resolved)
  : P (result error unit) :=
  r ← sendWait (AddArrow ns (manifestOf m) true kind resolved);
  mret (match r with
        | Err e => if errors_Is e ErrAxValidation || errors_Is e ErrAxPipelineFailed
                   then Err [ErrAlreadyExists] else mapSendErr r
        | Ok _ => Ok ()
        end).

(** [advancer.manifestAt] *)
Definition advance_manifestAt (ns : Namespace) (target : Available) (reuse : bool)
  : P (result error (Arrow * string * string)) :=
  cached ← (if reuse then CachedAtCommit ns target else mret None);
  match cached with
  | Some (m, file) => mret (Ok (m, Content file, Filename file))
  | None =>
    r ← ResolveArrowAtCommit ns (available_ref target) (available_commit target);
    match r with
    | Ok m => mret (Ok m)
    | Err e =>
      _ ← (if errors_Is e ErrResolverNotFound then RecordAbsent ns target else mret ());
      mret (Err (MapResolveErr e))
    end
  end.

Definition Advance (ns : Namespace) (target : Available) : P (result error unit) :=
  if String.eqb (available_commit target) "" then mret (Err [ErrInvalidNamespace])
  else
    exists_ ←? ask (Exists ns);
    if negb exists_ then mret (Err [ErrNotFound])
    else
      r ← advance_manifestAt ns target true;
      match r with
      | Err e => mret (Err (MapResolveErr e))
      | Ok (m, raw, filename) =>
        _ ←? replaceCachedManifest ns (cacheableAt m raw filename target);
        sendAdvance ns m (resolvedAt target) true
      end.

(** [sameManifest]: both encodings succeed and agree.  The encoder is the JSON
    library. *)
Section adopt.
Context (marshal : ManifestFields → option string).

Definition sameManifest (row parsed : Arrow) : bool :=
  match marshal (manifestOf row), marshal (manifestOf parsed) with
  | Some a, Some b => String.eqb a b
  | _, _ => false
  end.

Definition adoptOnto (ns : Namespace) (current m : Arrow) (resolved : Resolved)
  (cache : ManifestFile) : P (result error unit) :=
  let resolved := if String.eqb (resolved_commit resolved) "" &&
                     String.eqb (resolved_ref resolved) (resolved_ref (arrow_resolved current))
                  then arrow_resolved current else resolved in
  let advance := negb (bool_decide (arrow_resolved current = resolved)) in
  if negb advance && sameManifest current m then mret (Ok ())
  else
    _ ←? replaceCachedManifest ns cache;
    if advance then sendAdvance ns m resolved false
    else
      r ← sendRetryingConflicts (RefreshManifest ns (manifestOf m));
      mret (mapSendErr r).

Definition Adopt (ns : Namespace) (kind : SelectorKind) (resolved : Resolved)
  (manifest filename : string) : P (result error unit) :=
  if match ValidateNamespace ns with Some _ => true | None => false end ||
     String.eqb (Ref ns) "" || HasEmptyComponent (Ref ns)
  then mret (Err [ErrInvalidNamespace])
  else if String.eqb filename "" then mret (Err [ErrInvalidManifest])
  else
    parsed ← ask (ParseArrow manifest);
    match parsed with
    | Err e => mret (Err (ErrInvalidManifest :: e))
    | Ok m =>
      let cache := cacheableAt m manifest filename
                     (mkAvailable (resolved_ref resolved) (resolved_commit resolved)) in
      exists_ ←? ask (Exists ns);
      if negb exists_ then
        _ ←? replaceCachedManifest ns cache;
        sendAdopted ns m kind resolved
      else
        got ← ask (Get ns);
        match got with
        | Err e => mret (Err (MapGetErr e))
        | Ok current =>
          _ ←? adoptOnto ns current m resolved cache;
          if UserInstalled current then mret (Ok ())
          else r ← sendWait (SetUserInstalled ns); mret (mapSendErr r)
        end
    end.

Definition AdoptInstalled (ns : Namespace) (resolvedRef : string) : P (result error unit) :=
  r ← ResolveAdoption ns resolvedRef;
  match r with
  | Err e => mret (Err (MapResolveErr e))
  | Ok a => Adopt (Identity a) (adoption_kind a) (adoption_resolved a) (adoption_manifest a)
              (adoption_filename a)
  end.
End adopt.

(** ** Recording what is ahead (advance/available.go, advance/target.go) *)

(** What a judge answers: an error, no trustworthy answer, or what to offer *)
Inductive judgement := JudgeError (e : error) | Unanswered | Judged (available : option Available).

Definition retryableWrite (e : error) : bool :=
  errors_Is e ErrAxPipelineFailed || errors_Is e ErrAxValidation.

(** [RecordAvailable], with [left] attempts after this one; what it returns beside
    the error is what the judge answered last. *)
Fixpoint record_available (left : nat) (ns : Namespace) (judge : Arrow → P judgement)
  : P (judgement * result error unit) :=
  got ← ask (Get ns);
  match got with
  | Err e => mret (Unanswered, Err (MapGetErr e))
  | Ok current =>
    j ← judge current;
    match j with
    | JudgeError e => mret (Unanswered, Err e)
    | Unanswered => mret (Unanswered, Ok ())
    | Judged available =>
      if bool_decide (arrow_available current = available) then mret (Judged available, Ok ())
      else
        r ← sendWait (RecordAvailable ns available (arrow_resolved current));
        match r, left with
        | Err e, S left' => if retryableWrite e then record_available left' ns judge
                            else mret (Judged available, r)
        | _, _ => mret (Judged available, r)
        end
    end
  end.

Definition RecordAvailable_op : Namespace → (Arrow → P judgement) → P (judgement * result error unit) :=
  record_available (maxWriteAttempts - 1).

Definition check_judge (ns : Namespace) (snap : RefSnapshot) (current : Arrow) : P judgement :=
  match Drift (arrow_kind current) (Ref ns) (arrow_resolved current) snap with
  | Err e => mret (JudgeError (ErrNotFound :: version_sentinels e))
  | Ok drift => available ← offered ns drift; mret (Judged available)
  end.

Section badge.
(** [versionOutdatedSync] was passed to the constructor *)
Context (synced : bool).

Definition syncVersionOutdated (ns : Namespace) (outdated : bool) : P unit :=
  if negb synced then mret () else _ ← ask (SetVersionOutdated ns outdated); mret ().

Definition syncBadgeFromRow (ns : Namespace) : P unit :=
  held ← ask (BadgeHeld ns);
  if held : bool then mret ()
  else
    row ← ask (Get ns);
    match row with
    | Err _ => mret ()
    | Ok a => syncVersionOutdated ns (match arrow_available a with Some _ => true | None => false end)
    end.

Definition CheckAvailable (ns : Namespace) : P (result error (option Available)) :=
  exists_ ←? ask (Exists ns);
  if negb exists_ then mret (Err [ErrNotFound])
  else
    r ← ask (FreshSnapshot ns);
    match r with
    | Err e => mret (Err (MapResolveErr e))
    | Ok snap =>
      r ← RecordAvailable_op ns (check_judge ns snap);
      match mapSendErr r.2 with
      | Err e => mret (Err e)
      | Ok _ =>
        _ ← syncBadgeFromRow ns;
        mret (Ok (match r.1 with Judged available => available | _ => None end))
      end
    end.

(** ** The passive check (arrow.go) *)

Definition drift_judge (current : Arrow) : P judgement :=
  r ← CheckDrift current;
  mret (match r with None => Unanswered | Some available => Judged available end).

Definition runVersionCheck (a : Arrow) : P unit :=
  r ← RecordAvailable_op (arrow_namespace a) drift_judge;
  match r.1 with
  | Judged _ => syncBadgeFromRow (arrow_namespace a)
  | _ => mret ()
  end.
End badge.

Definition TargetUnmoved (ns : Namespace) (target : Available) : P (result error bool) :=
  got ← ask (Get ns);
  match got with
  | Err e => mret (Err (MapGetErr e))
  | Ok current =>
    r ← ask (FreshSnapshot ns);
    mret (match r with
          | Err e => Err (MapResolveErr e)
          | Ok snap =>
            Ok (bool_decide (RefCommit (arrow_kind current) (Ref ns) (available_ref target) snap =
                             Some (available_commit target)))
          end)
  end.

Definition RefreshToTarget (ns : Namespace) (target : Available) : P (result error Arrow) :=
  if String.eqb (available_commit target) "" then mret (Err [ErrInvalidNamespace])
  else
    exists_ ←? ask (Exists ns);
    if negb exists_ then mret (Err [ErrNotFound])
    else
      r ← advance_manifestAt ns target false;
      match r with
      | Err e => mret (Err (MapResolveErr e))
      | Ok (m, raw, filename) =>
        _ ←? replaceCachedManifest ns (cacheableAt m raw filename target);
        sent ← sendRetryingConflicts (RefreshManifest ns (manifestOf m));
        mret (match mapSendErr sent with Err e => Err e | Ok _ => Ok (with_namespace m ns) end)
      end.

Definition AddDependency (ns : Namespace) : P (result error Namespace) :=
  r ← ResolveInstall ns true false;
  match r with
  | Err e => mret (Err (MapResolveErr e))
  | Ok (identity, a) =>
    exists_ ←? (ask (Exists identity) : P (result error bool));
    if exists_ then mret (Ok identity)
    else
      sent ← sendWait (AddArrow identity (manifestOf a) false (arrow_kind a)
                              (arrow_resolved a));
      mret (match sent with
            | Err e => if errors_Is e ErrAxValidation then Ok identity
                       else match mapSendErr sent with Err e' => Err e' | Ok _ => Ok identity end
            | Ok _ => Ok identity
            end)
  end.

(** ** Adding and removing (arrow.go, preinstalled.go) *)

Section repository.
(** The detection of installed software was wired ([preinstalledOpts.enabled]), the
    platform it looks at, and the callbacks registered on each kind of event *)
Context (preinstalled_enabled : bool) (preinstalled_os : OS).
Context (addedFns updatedFns removedFns : list nat).
(** [versionOutdatedSync] was passed to the constructor *)
Context (synced : bool).

Definition preinstalledSteps (a : Arrow) : StepList :=
  if negb preinstalled_enabled then None
  else match target_of a preinstalled_os with
       | None => None
       | Some t => Preinstalled (Lifecycle t)
       end.

Definition runsWithoutInstall (a : Arrow) : bool :=
  preinstalled_enabled &&
  match target_of a preinstalled_os with
  | None => false
  | Some t => match steps_of (Install (Lifecycle t)), steps_of (Execute (Lifecycle t)) with
              | [], _ :: _ => true | _, _ => false end
  end.

Fixpoint default_vars (vars : gmap string string) (declared : list DeclaredVariable)
  : gmap string string :=
  match declared with
  | [] => vars
  | v :: declared' =>
    default_vars (if String.eqb (var_default v) "" then vars
                  else <[var_name v := var_default v]> vars) declared'
  end.

Definition preinstalledVars (ns : Namespace) (a : Arrow) : gmap string string :=
  default_vars (<[VarArrowNamespace := ns]> (<[VarPlatform := os_string preinstalled_os]>
    (<[VarRef := RefOr (arrow_resolved a) (Ref ns)]> ∅))) (arrow_variables a).

Definition markIfPreinstalled (ns : Namespace) (a : Arrow) : P (result error unit) :=
  let steps := preinstalledSteps a in
  let probes := match steps_of steps with [] => false | _ :: _ => true end in
  if negb probes && negb (runsWithoutInstall a) then mret (Ok ())
  else
    catalogued ←? (ask (Exists ns) : P (result error bool));
    if catalogued then mret (Ok ())
    else if negb probes then ask (MarkPreinstalled ns)
    else
      probed ← (ask (Probe ns steps (preinstalledVars ns a)) : P (result error unit));
      match probed with
      | Err _ => ask (ForgetRuntime ns) : P (result error unit)
      | Ok _ => ask (MarkPreinstalled ns)
      end.

(** The error of [Get] need not say the row is missing for the row to be missing;
    anything else is returned. *)
Definition addArrowCommand (ns : Namespace) (a : Arrow) (directInstall : bool)
  : P (result error unit) :=
  existing ← ask (Get ns);
  match existing with
  | Ok row => if UserInstalled row then mret (Ok ()) else sendWait (SetUserInstalled ns)
  | Err e =>
    if negb (errors_Is e ErrAxNotFound) then mret (Err e)
    else
      sent ← sendWait (AddArrow ns (manifestOf a) directInstall (arrow_kind a)
                              (arrow_resolved a));
      mret (match sent with
            | Ok _ => Ok ()
            | Err e => if errors_Is e ErrAxValidation || errors_Is e ErrAxPipelineFailed
                       then Err [ErrAlreadyExists] else Err e
            end)
  end.

Definition Add (ns : Namespace) : P (result error unit) :=
  r ← ResolveInstall ns true false;
  match r with
  | Err e => mret (Err (MapResolveErr e))
  | Ok (identity, a) =>
    _ ←? markIfPreinstalled identity a;
    addArrowCommand identity a true
  end.

Definition Remove (ns : Namespace) : P (result error unit) :=
  exists_ ←? ask (Exists ns);
  if negb exists_ then mret (Err [ErrNotFound]) else ask (Forget ns).

Definition MarkInstalled_op (ns : Namespace) (at_ : option Z) : P (result error unit) :=
  ask (Send (MarkInstalled ns at_)).

Definition MarkUninstalled_op (ns : Namespace) : P (result error unit) :=
  ask (Send (MarkUninstalled ns)).

Definition MarkLastUsed_op (ns : Namespace) (at_ : option Z) : P (result error unit) :=
  ask (Send (MarkLastUsed ns at_)).

Definition CheckVersionNow (ns : Namespace) : P unit :=
  r ← ask (Get ns);
  match r with Err _ => mret () | Ok a => ask (GoCheck a) end.

(** ** The projections of the events (arrow.go) *)

Fixpoint run_callbacks (k : reaction) (fns : list nat) (a : Arrow) : P unit :=
  match fns with
  | [] => mret ()
  | fn :: fns' => _ ← ask (React k fn a); run_callbacks k fns' a
  end.

Definition runAdded : Arrow → P unit := run_callbacks ArrowAdded addedFns.
Definition runUpdated : Arrow → P unit := run_callbacks ArrowUpdated updatedFns.
Definition runRemoved : Arrow → P unit := run_callbacks ArrowRemoved removedFns.

Definition project (a : Arrow) (react : option (Arrow → P unit)) : P unit :=
  _ ← (match react with Some f => f a | None => mret () end);
  r ← ask (Project a);
  match r with Err _ => mret () | Ok _ => ask (Broadcast CatalogUpserted a) end.

Definition deleteWorkDir (ns : Namespace) : P unit :=
  if negb has_vault then mret () else _ ← ask (DeleteWorkDir ns); mret ().

Definition projectForgotten (a : Arrow) : P unit :=
  r ← ask (ProjectForget a);
  match r with
  | Err _ => mret ()
  | Ok _ =>
    _ ← runRemoved a;
    _ ← deleteWorkDir (arrow_namespace a);
    ask (Broadcast CatalogRemoved a)
  end.

(** [registerProjections]: what the subscriber of a command's topic runs *)
Definition projection (c : command) (a : Arrow) : P unit :=
  match c with
  | AddArrow _ _ _ _ _ => project a (Some runAdded)
  | AdvanceArrow _ _ _ _ | RefreshManifest _ _ => project a (Some runUpdated)
  | MarkInstalled _ _ | MarkUninstalled _ | RecordAvailable _ _ _ | SetUserInstalled _
  | MarkLastUsed _ _ => project a None
  end.
End repository.

(** ** Resolving a manifest that is not catalogued (store/resolver.go) *)

Definition resolveAt (ns : Namespace) : P (result error (Arrow * string * string)) :=
  r ← ask (ResolveArrow ns);
  mret (match r with
        | Err e => Err e
        | Ok m => if DraftedElsewhere m.1.1 (Ref ns) then Err NotARelease else Ok m
        end).

Definition cacheConfirmedAbsent (ns : Namespace) (e : error) : P unit :=
  if negb (errors_Is e ErrResolverNotFound) then mret ()
  else _ ← ask (PutArrowNotFound ns ""); mret ().

Definition parseManifest (content : string) : P (result error Arrow) :=
  r ← ask (ParseArrow content);
  mret (rmap_err wrapManifoldErr r).

Definition fetchFromManifold (ns : Namespace) : P (result error Arrow) :=
  r ← resolveAt ns;
  mret (match r with Err e => Err (wrapManifoldErr e) | Ok m => Ok m.1.1 end).

Definition fetchAndCache (ns : Namespace) : P (result error Arrow) :=
  if negb has_manifold then mret (Err [])
  else
    r ← resolveAt ns;
    match r with
    | Err e => _ ← cacheConfirmedAbsent ns e; mret (Err (wrapManifoldErr e))
    | Ok (fresh, raw, filename) =>
      put ← ask (PutArrow ns (Cacheable fresh raw filename));
      mret (match put with Err e => Err (CacheError e) | Ok _ => Ok fresh end)
    end.

Definition resolveStale (ns : Namespace) (content : string) : P (result error Arrow) :=
  if negb has_manifold then mret (Err [])
  else
    stale ← parseManifest content;
    match stale with
    | Err _ => fetchAndCache ns
    | Ok a => _ ← ask (GoRefresh ns); mret (Ok a)
    end.

(** The goroutine of [resolveStale] *)
Definition refreshArrow (notified : bool) (ns : Namespace) : P unit :=
  r ← resolveAt ns;
  match r with
  | Err _ => mret ()
  | Ok (fresh, raw, filename) =>
    put ← ask (PutArrow ns (Cacheable fresh raw filename));
    match put with
    | Err _ => mret ()
    | Ok _ => if notified then ask (OnRefreshed (with_namespace fresh ns)) else mret ()
    end
  end.

Definition resolveWithVault (ns : Namespace) : P (result error Arrow) :=
  r ← ask (GetArrow ns);
  match r.2 with
  | None => parseManifest (Content r.1)
  | Some e =>
    if errors_Is e ErrConfirmedAbsent then mret (Err (wrapManifoldErr [ErrResolverNotFound]))
    else if errors_Is e ErrStale then resolveStale ns (Content r.1)
    else if errors_Is e ErrNotCached then fetchAndCache ns
    else mret (Err e)
  end.

Definition resolve (ns : Namespace) : P (result error Arrow) :=
  if negb has_vault && negb has_manifold then mret (Err [])
  else if negb has_vault then fetchFromManifold ns
  else resolveWithVault ns.

(** ** Views of a repository that is not catalogued (store/held.go, store.go) *)

Definition readHeld (key : Namespace) : P (option (Arrow * ManifestFile)) :=
  r ← ask (GetArrow key);
  if match r.2 with Some e => negb (errors_Is e ErrStale) | None => false end then mret None
  else
    parsed ← ask (ParseArrow (Content r.1));
    mret (match parsed with
          | Err _ => None
          | Ok a =>
            let a := with_namespace a key in
            Some (if String.eqb (file_commit r.1) "" then a
                  else resolved_as a (arrow_kind a)
                         (mkResolved (file_ref r.1) (file_commit r.1) (file_commit r.1)), r.1)
          end).

(** [a.After(b)]; the zero time is before every other. *)
Definition after_time (a b : option Z) : bool :=
  match a, b with Some x, Some y => Z.ltb y x | Some _, None => true | None, _ => false end.

Definition held : Type := option (Arrow * ManifestFile).

Fixpoint held_default_in (ns : Namespace) (refs : list string) (best filed : held) : P held :=
  match refs with
  | [] => mret (match best with Some _ => best | None => filed end)
  | ref :: refs' =>
    r ← readHeld (WithRef ns ref);
    match r with
    | None => held_default_in ns refs' best filed
    | Some (a, file) =>
      let best' :=
        if file_default file &&
           match best with
           | None => true
           | Some (_, bestFile) => after_time (file_default_at file) (file_default_at bestFile)
           end
        then Some (a, file) else best in
      held_default_in ns refs' best' (match filed with None => Some (a, file) | Some _ => filed end)
    end
  end.

Definition heldDefault (ns : Namespace) : P held :=
  if negb has_vault || negb has_manifold then mret None
  else refs ← ask (ListVersions ns); held_default_in ns refs None None.

Definition heldPreview (ns : Namespace) : P (option Arrow) :=
  r ← heldDefault ns;
  match r with
  | None => mret None
  | Some (a, file) => _ ← ask (GoRecheck ns (file_commit file)); mret (Some a)
  end.

(** The channels are kept as the list itself, not its JSON. *)
Definition HeldChannels (ns : Namespace) : P (option (list ChannelInfo)) :=
  r ← heldDefault (BareNamespace ns);
  match r with
  | None => mret None
  | Some (_, file) =>
    match file_channels file with
    | None => mret None
    | Some channels =>
      _ ← ask (GoRecheck (BareNamespace ns) (file_commit file)); mret (Some channels)
    end
  end.

(** The goroutine of [recheck] *)
Definition recheck (notified : bool) (ns : Namespace) (heldCommit : string) : P unit :=
  r ← ResolveInstall ns false true;
  match r with
  | Err _ => mret ()
  | Ok (identity, fresh) =>
    if notified && negb (String.eqb (resolved_commit (arrow_resolved fresh)) heldCommit)
    then ask (OnRefreshed (with_namespace fresh identity)) else mret ()
  end.

Definition resolveRefless (ns : Namespace) : P (result error Arrow) :=
  preview ← heldPreview ns;
  match preview with
  | Some a => mret (Ok a)
  | None =>
    r ←? ResolveInstall ns false true;
    mret (Ok (with_namespace r.2 r.1))
  end.

Definition resolveAtRef (ns : Namespace) : P (result error Arrow) :=
  r ← resolve ns;
  match r with
  | Ok a => mret (Ok a)
  | Err e =>
    if negb has_manifold then mret (Err e)
    else
      selected ← ResolveInstall ns false true;
      mret (match selected with Err _ => Err e | Ok found => Ok found.2 end)
  end.

Definition resolveUncatalogued (ns : Namespace) : P (result error Arrow) :=
  if String.eqb (Ref ns) "" then resolveRefless ns
  else a ←? resolveAtRef ns; mret (Ok (with_namespace a ns)).

Definition ListChannels_op (ns : Namespace) : P (result error (list ChannelInfo)) :=
  r ← HeldChannels ns;
  match r with Some channels => mret (Ok channels) | None => ask (ListChannels ns) end.
End catalog.

(** ** Facts *)

(** Whatever failed, the caller can tell what kind of failure it was. *)
Lemma MapResolveErr_classified e : ∃ s, s ∈ appSentinels ∧ s ∈ MapResolveErr e.
Proof.
  unfold MapResolveErr.
  destruct (errors_Is e ErrNoSupportedPlatform); [exists ErrPlatformNotSupported; set_solver|].
  destruct (errors_Is e ErrRulesetInvalidManifest); [exists ErrInvalidManifest; set_solver|].
  destruct (errors_Is e ErrResolverNotFound); [exists ErrNotFound; set_solver|].
  destruct (existsb (errors_Is e) appSentinels) eqn:Hx; [|exists ErrFetchFailed; set_solver].
  apply existsb_exists in Hx as (s & Hin%list_elem_of_In & Hs%errors_Is_true). by exists s.
Qed.

(** A manifest whose YAML does not parse carries the manifold's sentinel only: the
    advance calls it a failed fetch, the store an invalid manifest. *)
Lemma unparsed_manifest_differs :
  MapResolveErr [ErrManifoldInvalidManifest] = [ErrFetchFailed; ErrManifoldInvalidManifest] ∧
  wrapManifoldErr [ErrManifoldInvalidManifest] = [ErrInvalidManifest; ErrManifoldInvalidManifest].
Proof. split; reflexivity. Qed.
