(* ===== verification/CatalogRuns.v ===== *)
(** * The catalog's rows under interleaved writers

    Any number of the programs of [Catalog] run at once over one store of
    aggregates, a call at a time.  The store answers its own calls, and may fail any
    of them; the vault, the manifold and the rest answer what they like.  The ref
    lists the manifold answered are logged, which the code does not do. *)

From S2P Require Import Prelude Errors GoStrings Domain Channels Versioning Steps Manifest Prog Catalog.

(** ** The store *)

Record state := mkState { st_rows : rows; snapshots : list (Namespace * RefSnapshot) }.

Definition set_rows (s : state) (r : rows) : state := mkState r (snapshots s).

Definition log_snapshot (s : state) (ns : Namespace) (r : result error RefSnapshot) : state :=
  match r with
  | Ok snap => mkState (st_rows s) ((ns, snap) :: snapshots s)
  | Err _ => s
  end.

(** A command is refused exactly when it does not validate; one that is accepted may
    still answer an error, with or without its event having been committed. *)
Definition served_send (s : state) (c : command) (r : result error unit) (s' : state) : Prop :=
  match Apply c (st_rows s) with
  | Rejected e => s' = s ∧ r = Err [e]
  | Committed rows' =>
    match r with
    | Ok _ => s' = set_rows s rows'
    | Err e => errors_Is e ErrAxValidation = false ∧ (s' = s ∨ s' = set_rows s rows')
    end
  | Panicked => False
  end.

(** Whether the call may be answered so, from one state to the other *)
Definition served (s : state) (c : call) : answer c → state → Prop :=
  match c with
  | Exists ns => λ (r : result error bool) s', s' = s ∧
      match r with Ok b => b = bool_decide (is_Some (st_rows s !! ns)) | Err _ => True end
  | Get ns => λ (r : result error Arrow) s', s' = s ∧
      match r with
      | Ok a => st_rows s !! ns = Some a
      | Err e => errors_Is e ErrAxNotFound = true → st_rows s !! ns = None
      end
  | SendWait c => λ r s', served_send s c r s'
  | Send c => λ r s', served_send s c r s'
  | Forget ns => λ (r : result error unit) s',
      match r with
      | Ok _ => s' = set_rows s (delete ns (st_rows s))
      | Err _ => s' = s ∨ s' = set_rows s (delete ns (st_rows s))
      end
  | Snapshot ns => λ r s', s' = log_snapshot s ns r
  | FreshSnapshot ns => λ r s', s' = log_snapshot s ns r
  | _ => λ _ s', s' = s
  end.

(** ** What a recorded answer rests on *)

(** A check of the selector found it ahead of [judged] in a ref list the host served
    for that row. *)
Definition judged_ahead (log : list (Namespace * RefSnapshot)) (ns : Namespace)
  (judged : Resolved) (t : Available) : Prop :=
  ∃ snap kind, (ns, snap) ∈ log ∧ Drift kind (Ref ns) judged snap = Ok (Some t).

(** The place of a goroutine: the ref lists it was served, or [None] once the store
    answered a row under another key, which it never does. *)
Definition place : Type := option (list (Namespace * RefSnapshot)).

Definition may_call (l : place) (c : call) : Prop :=
  match l, c with
  | Some log, (SendWait (RecordAvailable ns (Some t) judged)
              | Send (RecordAvailable ns (Some t) judged)) => judged_ahead log ns judged t
  | _, _ => True
  end.

Definition seen (l : place) (ns : Namespace) (r : result error RefSnapshot) : place :=
  match l, r with
  | Some log, Ok snap => Some ((ns, snap) :: log)
  | _, _ => l
  end.

Definition called (l : place) (c : call) : answer c → place :=
  match c with
  | Snapshot ns => λ r, seen l ns r
  | FreshSnapshot ns => λ r, seen l ns r
  | Get ns => λ (r : result error Arrow),
      match r with
      | Ok a => if bool_decide (arrow_namespace a = ns) then l else None
      | Err _ => l
      end
  | _ => λ _, l
  end.

Definition judging : protocol answer place := mkProtocol may_call called.

(** ** Goroutines *)

Definition run_ {A} (p : P A) : P unit := _ ← p; mret ().

(** Every way the catalog's own code runs *)
Inductive goroutine (has_vault has_manifold : bool) (marshal : ManifestFields → option string)
  : P unit → Prop :=
| go_add enabled os ns : goroutine has_vault has_manifold marshal
    (run_ (Add has_vault has_manifold enabled os ns))
| go_remove ns : goroutine has_vault has_manifold marshal (run_ (Remove ns))
| go_advance ns t : goroutine has_vault has_manifold marshal (run_ (Advance has_vault ns t))
| go_adopt ns kind r m f : goroutine has_vault has_manifold marshal
    (run_ (Adopt marshal ns kind r m f))
| go_adopt_installed ns ref : goroutine has_vault has_manifold marshal
    (run_ (AdoptInstalled has_vault marshal ns ref))
| go_check synced ns : goroutine has_vault has_manifold marshal
    (run_ (CheckAvailable has_vault synced ns))
| go_version_check synced a : goroutine has_vault has_manifold marshal
    (runVersionCheck has_vault synced a)
| go_unmoved ns t : goroutine has_vault has_manifold marshal (run_ (TargetUnmoved ns t))
| go_refresh ns t : goroutine has_vault has_manifold marshal
    (run_ (RefreshToTarget has_vault ns t))
| go_dependency ns : goroutine has_vault has_manifold marshal
    (run_ (AddDependency has_vault has_manifold ns))
| go_installed ns at_ : goroutine has_vault has_manifold marshal (run_ (MarkInstalled_op ns at_))
| go_uninstalled ns : goroutine has_vault has_manifold marshal (run_ (MarkUninstalled_op ns))
| go_last_used ns at_ : goroutine has_vault has_manifold marshal (run_ (MarkLastUsed_op ns at_))
| go_check_now ns : goroutine has_vault has_manifold marshal (CheckVersionNow ns)
| go_resolve ns : goroutine has_vault has_manifold marshal
    (run_ (resolveUncatalogued has_vault has_manifold ns))
| go_channels ns : goroutine has_vault has_manifold marshal
    (run_ (ListChannels_op has_vault has_manifold ns))
| go_recheck notified ns c : goroutine has_vault has_manifold marshal
    (recheck has_vault has_manifold notified ns c)
| go_stale notified ns : goroutine has_vault has_manifold marshal (refreshArrow notified ns)
| go_project added updated c a : goroutine has_vault has_manifold marshal
    (projection added updated c a)
| go_forgotten removed a : goroutine has_vault has_manifold marshal
    (projectForgotten has_vault removed a).

Record config := mkConfig { threads : list (P unit); shared : state }.

Section machine.
Context (has_vault has_manifold : bool) (marshal : ManifestFields → option string).

Inductive step : config → config → Prop :=
| step_go ts s p : goroutine has_vault has_manifold marshal p →
    step (mkConfig ts s) (mkConfig (ts ++ [p]) s)
| step_call ts s i c k r s' : ts !! i = Some (Call c k) → served s c r s' →
    step (mkConfig ts s) (mkConfig (<[i := k r]> ts) s').

Inductive reachable : config → Prop :=
| reach_start : reachable (mkConfig [] (mkState ∅ []))
| reach_step c c' : reachable c → step c c' → reachable c'.
End machine.

(** ** The programs that record no answer *)

(** [quiet] calls are allowed in every place. *)
Definition quiet (c : call) : Prop :=
  match c with
  | SendWait (RecordAvailable _ _ _) | Send (RecordAvailable _ _ _) => False
  | _ => True
  end.

Lemma quiet_may_call c l : quiet c → may_call l c.
Proof. destruct l; [|done]. destruct c as [| |c|c| | | | | | | | | | | | | | | | | | | | | | | | | ]; try done; by destruct c. Qed.

Lemma quiet_follows {A} (p : P A) l Q :
  calls_only quiet p → (∀ a l', Q a l') → follows judging l p Q.
Proof.
  intros Hp HQ. revert l. induction p as [a|c k IH]; intros l; [apply HQ|].
  destruct Hp as [Hc Hk]. split; [by apply quiet_may_call|]. intros r. by apply IH.
Qed.

Create HintDb quiet.
Ltac quiet_step :=
  first
    [ exact I
    | solve [auto with quiet nocore]
    | apply calls_only_bind; [|intros]
    | apply calls_only_bind_ok; [|intros]
    | match goal with
      | |- calls_only _ (match ?x with _ => _ end) => destruct x
      | |- calls_only _ (let '(_, _) := ?x in _) => destruct x
      | |- calls_only _ (if ?b then _ else _) => destruct b
      | |- calls_only _ (ask _) => split; [exact I|intros; exact I]
      | |- calls_only _ (Call _ _) => split; [exact I|intros]
      | |- calls_only _ (sendWait _) => split; [exact I|intros; exact I]
      end ].
Ltac quiet := repeat (cbv zeta; quiet_step).

Section quiet.
Context (has_vault has_manifold : bool) (marshal : ManifestFields → option string).

Lemma ResolveArrowAtCommit_quiet ns ref commit : calls_only quiet (ResolveArrowAtCommit ns ref commit).
Proof. unfold ResolveArrowAtCommit. quiet. Qed.
#[local] Hint Resolve ResolveArrowAtCommit_quiet : quiet.

Lemma cached_in_quiet identity t keys : calls_only quiet (cached_in identity t keys).
Proof. induction keys; simpl; quiet. Qed.
#[local] Hint Resolve cached_in_quiet : quiet.

Lemma CachedAtCommit_quiet ns t : calls_only quiet (CachedAtCommit has_vault ns t).
Proof. unfold CachedAtCommit. quiet. Qed.
#[local] Hint Resolve CachedAtCommit_quiet : quiet.

Lemma RecordAbsent_quiet ns t : calls_only quiet (RecordAbsent has_vault ns t).
Proof. unfold RecordAbsent, holdsManifest. quiet. Qed.
#[local] Hint Resolve RecordAbsent_quiet : quiet.

Lemma KnownAbsent_quiet ns t : calls_only quiet (KnownAbsent has_vault ns t).
Proof. unfold KnownAbsent. quiet. Qed.
#[local] Hint Resolve KnownAbsent_quiet : quiet.

Lemma store_manifestAt_quiet ns t : calls_only quiet (store_manifestAt has_vault ns t).
Proof. unfold store_manifestAt, fetchManifestAt. quiet. Qed.
#[local] Hint Resolve store_manifestAt_quiet : quiet.

Lemma fetchAtCommit_quiet ns t cache : calls_only quiet (fetchAtCommit has_vault ns t cache).
Proof. unfold fetchAtCommit. quiet. Qed.
#[local] Hint Resolve fetchAtCommit_quiet : quiet.

Lemma installAt_quiet ns kind snap o :
  calls_only quiet (installAt has_vault has_manifold ns kind snap o).
Proof. unfold installAt, readTarget, cachePreview, channelsOf. quiet. Qed.
#[local] Hint Resolve installAt_quiet : quiet.

Lemma fallback_in_quiet ns snap o l :
  calls_only quiet (fallback_in has_vault has_manifold ns snap o l).
Proof. induction l; simpl; quiet. Qed.
#[local] Hint Resolve fallback_in_quiet : quiet.

Lemma ResolveInstall_quiet ns cache preview :
  calls_only quiet (ResolveInstall has_vault has_manifold ns cache preview).
Proof. unfold ResolveInstall, fresh_or_cached, identify, installFallback. quiet. Qed.
#[local] Hint Resolve ResolveInstall_quiet : quiet.

Lemma ResolveAdoption_quiet ns ref : calls_only quiet (ResolveAdoption has_vault ns ref).
Proof. unfold ResolveAdoption, identify. quiet. Qed.
#[local] Hint Resolve ResolveAdoption_quiet : quiet.

Lemma resend_quiet n c : quiet (SendWait c) → calls_only quiet (resend n c).
Proof.
  intros Hc. induction n; cbn [resend]; (apply calls_only_bind; [by split|intros r]); quiet.
Qed.

Lemma sendAdvance_quiet ns m r keep : calls_only quiet (sendAdvance ns m r keep).
Proof. unfold sendAdvance, sendRetryingConflicts. quiet. all: by apply resend_quiet. Qed.
#[local] Hint Resolve sendAdvance_quiet : quiet.

Lemma refresh_quiet ns m : calls_only quiet (sendRetryingConflicts (RefreshManifest ns m)).
Proof. by apply resend_quiet. Qed.
#[local] Hint Resolve refresh_quiet : quiet.

Lemma replaceCachedManifest_quiet ns f : calls_only quiet (replaceCachedManifest ns f).
Proof. unfold replaceCachedManifest. quiet. Qed.
#[local] Hint Resolve replaceCachedManifest_quiet : quiet.

Lemma advance_manifestAt_quiet ns t reuse : calls_only quiet (advance_manifestAt has_vault ns t reuse).
Proof. unfold advance_manifestAt. quiet. Qed.
#[local] Hint Resolve advance_manifestAt_quiet : quiet.

Lemma adoptOnto_quiet ns cur m r f : calls_only quiet (adoptOnto marshal ns cur m r f).
Proof. unfold adoptOnto. quiet. Qed.
#[local] Hint Resolve adoptOnto_quiet : quiet.

Lemma Adopt_quiet ns kind r m f : calls_only quiet (Adopt marshal ns kind r m f).
Proof. unfold Adopt, sendAdopted. quiet. Qed.
#[local] Hint Resolve Adopt_quiet : quiet.

Lemma held_default_in_quiet ns refs best filed : calls_only quiet (held_default_in ns refs best filed).
Proof. revert best filed. induction refs; intros; simpl; unfold readHeld; quiet. Qed.
#[local] Hint Resolve held_default_in_quiet : quiet.

Lemma resolve_quiet ns : calls_only quiet (resolve has_vault has_manifold ns).
Proof.
  unfold resolve, fetchFromManifold, resolveWithVault, resolveStale, fetchAndCache, parseManifest,
    resolveAt, cacheConfirmedAbsent. quiet.
Qed.
#[local] Hint Resolve resolve_quiet : quiet.

Lemma run_callbacks_quiet k fns a : calls_only quiet (run_callbacks k fns a).
Proof. induction fns; simpl; quiet. Qed.
#[local] Hint Resolve run_callbacks_quiet : quiet.

(** What goes on beside the checks records no answer. *)
Lemma goroutine_quiet p :
  goroutine has_vault has_manifold marshal p →
  calls_only quiet p ∨
  (∃ synced ns, p = run_ (CheckAvailable has_vault synced ns)) ∨
  (∃ synced a, p = runVersionCheck has_vault synced a).
Proof.
  intros []; eauto; left; unfold run_.
  - unfold Add, markIfPreinstalled, addArrowCommand. quiet.
  - unfold Remove. quiet.
  - unfold Advance. quiet.
  - quiet.
  - unfold AdoptInstalled. quiet.
  - unfold TargetUnmoved. quiet.
  - unfold RefreshToTarget. quiet.
  - unfold AddDependency. quiet.
  - unfold MarkInstalled_op. quiet.
  - unfold MarkUninstalled_op. quiet.
  - unfold MarkLastUsed_op. quiet.
  - unfold CheckVersionNow. quiet.
  - unfold resolveUncatalogued, resolveRefless, heldPreview, heldDefault, resolveAtRef. quiet.
  - unfold ListChannels_op, HeldChannels, heldDefault. quiet.
  - unfold recheck. quiet.
  - unfold refreshArrow, resolveAt. quiet.
  - unfold projection, project, runAdded, runUpdated. quiet.
  - unfold projectForgotten, runRemoved, deleteWorkDir. quiet.
Qed.
End quiet.

(** ** The programs that record what is ahead *)

Lemma called_None c r : called None c r = None.
Proof. destruct c; try done; [simpl in r; destruct r; simpl; by try case_bool_decide]. Qed.

Lemma follows_None {A} (p : P A) : follows judging None p (λ _ l, l = None).
Proof.
  induction p as [a|c k IH]; [done|]. split; [done|]. intros r.
  change (moves judging None c r) with (called None c r). rewrite called_None. apply IH.
Qed.

Lemma judged_ahead_mono log log' ns r t :
  log ⊆ log' → judged_ahead log ns r t → judged_ahead log' ns r t.
Proof. intros Hl (snap & kind & Hin & Hd). exists snap, kind. split; [by apply Hl|done]. Qed.

(** What a judge of [ns] has to establish *)
Definition judges (ns : Namespace) (judge : Arrow → P judgement) (log : list (Namespace * RefSnapshot))
  : Prop :=
  ∀ current log', log ⊆ log' → arrow_namespace current = ns →
  follows judging (Some log') (judge current) (λ j l,
    match l, j with
    | Some log'', Judged (Some t) => log' ⊆ log'' ∧ judged_ahead log'' ns (arrow_resolved current) t
    | Some log'', _ => log' ⊆ log''
    | None, _ => True
    end).

Lemma record_available_follows n ns judge log log' :
  judges ns judge log → log ⊆ log' →
  follows judging (Some log') (record_available n ns judge) (λ _ _, True).
Proof.
  intros Hj. revert log'. induction n as [|n IH]; intros log' Hl; cbn [record_available];
    (apply follows_ask_bind; [done|]); (intros [current|e]; [|done]);
    simpl; (case_bool_decide as Hns; [|eapply follows_mono; [apply follows_None|done]]);
    apply follows_bind; (eapply follows_mono; [by apply Hj|]);
    intros [e| |available] [log''|] Hjudged;
    try (eapply follows_mono; [apply follows_None|done]); try done.
  all: case_bool_decide; [done|]; unfold sendWait; apply follows_ask_bind;
    [simpl; destruct available; [apply Hjudged|done]|].
  - by intros [[]|e].
  - intros [[]|e]; [done|]. cbn. destruct (retryableWrite e); [|done].
    apply IH. destruct available; set_solver.
Qed.

Lemma offered_follows v ns drift log Q :
  (∀ a, a = drift ∨ a = None → Q a (Some log)) →
  follows judging (Some log) (offered v ns drift) Q.
Proof.
  intros HQ. unfold offered. destruct drift as [t|]; [|apply HQ; auto].
  apply follows_bind. unfold KnownAbsent. destruct (negb v || _); [by apply HQ; auto|].
  apply follows_ask_bind; [done|]. intros r. apply follows_ret.
  destruct (match r.2 with Some _ => _ | None => _ end); apply HQ; auto.
Qed.

Lemma check_judges v ns snap log : (ns, snap) ∈ log → judges ns (check_judge v ns snap) log.
Proof.
  intros Hin current log' Hl Hns. unfold check_judge.
  destruct (Drift _ _ _ _) as [drift|e] eqn:Hd; [|apply follows_ret; set_solver].
  apply follows_bind. apply offered_follows. intros a Ha. apply follows_ret.
  destruct Ha as [->| ->]; [|set_solver]. destruct drift as [t|]; [|set_solver].
  split; [set_solver|].
  exists snap, (arrow_kind current). split; [by apply Hl|done].
Qed.

Lemma drift_judges v ns log : judges ns (drift_judge v) log.
Proof.
  intros current log' _ Hns. unfold drift_judge, CheckDrift.
  apply follows_bind, follows_ask_bind; [done|]. intros [snap|e]; [|repeat apply follows_ret; set_solver].
  simpl. destruct (Drift _ _ _ _) as [drift|e] eqn:Hd; [|apply follows_ret; set_solver].
  apply follows_bind. apply offered_follows. intros a Ha. apply follows_ret, follows_ret.
  destruct Ha as [->| ->]; [|set_solver]. destruct drift as [t|]; [|set_solver].
  split; [set_solver|]. rewrite Hns in *. exists snap, (arrow_kind current).
  split; [apply list_elem_of_here|done].
Qed.

Lemma syncBadge_quiet synced ns : calls_only quiet (syncBadgeFromRow synced ns).
Proof. unfold syncBadgeFromRow, syncVersionOutdated. quiet. Qed.

Lemma CheckAvailable_follows v synced ns log :
  follows judging (Some log) (CheckAvailable v synced ns) (λ _ _, True).
Proof.
  unfold CheckAvailable. apply follows_bind_ok. apply (follows_ask judging _ (Exists ns)); [done|].
  intros [b|e]; [|done]. destruct b; [|done].
  cbn [negb].
  apply follows_ask_bind; [done|]. intros [snap|e]; [|done].
  change (moves _ _ _ _) with (Some ((ns, snap) :: log)).
  unfold RecordAvailable_op. apply follows_bind. eapply follows_mono.
  { eapply record_available_follows; [by apply check_judges, list_elem_of_here|done]. }
  intros [j r] l _. cbn [fst snd]. destruct (mapSendErr r); [|done].
  apply quiet_follows; [|done]. apply calls_only_bind; [apply syncBadge_quiet|done].
Qed.

Lemma goroutine_follows v m marshal p :
  goroutine v m marshal p → follows judging (Some []) p (λ _ _, True).
Proof.
  intros [H|[(synced & ns & ->)|(synced & a & ->)]]%goroutine_quiet.
  - by apply quiet_follows.
  - apply follows_bind. eapply follows_mono; [apply CheckAvailable_follows|done].
  - unfold runVersionCheck, RecordAvailable_op. apply follows_bind.
    eapply follows_mono; [by eapply record_available_follows; [apply drift_judges|]|].
    intros [j r] l _. cbn [fst]. destruct j; [done|done|].
    apply quiet_follows; [apply syncBadge_quiet|done].
Qed.

(** ** What a row says *)

Definition good_row (log : list (Namespace * RefSnapshot)) (ns : Namespace) (a : Arrow) : Prop :=
  arrow_namespace a = ns ∧
  ∀ t, arrow_available a = Some t →
    names (arrow_resolved a) (Some t) = false ∧ ∃ judged, judged_ahead log ns judged t.

Definition good_rows (s : state) : Prop :=
  ∀ ns a, st_rows s !! ns = Some a → good_row (snapshots s) ns a.

(** What a step may do to a row that stays: its identity and selector kind are kept,
    nobody's install is forgotten, and what it offers is taken back or was just found
    ahead of what it has installed. *)
Definition evolves (s s' : state) : Prop :=
  ∀ ns a, st_rows s !! ns = Some a →
  st_rows s' !! ns = None ∨
  ∃ a', st_rows s' !! ns = Some a' ∧
    arrow_namespace a' = arrow_namespace a ∧ arrow_kind a' = arrow_kind a ∧
    (UserInstalled a = true → UserInstalled a' = true) ∧
    (arrow_available a' = arrow_available a ∨ arrow_available a' = None ∨
     arrow_resolved a' = arrow_resolved a ∧
     ∃ t, arrow_available a' = Some t ∧ judged_ahead (snapshots s) ns (arrow_resolved a) t).

Lemma drift_not_installed kind sel r snap t :
  Drift kind sel r snap = Ok (Some t) → names r (Some t) = false.
Proof.
  destruct (decide (kind = SelectorCommit)) as [->|Hk]; [done|].
  rewrite drift_target by done. intros H.
  destruct (match Versioning.Target _ _ _ with Ok _ => _ | Err _ => _ end) as [t'|]; [|done].
  simpl in *. destruct (_ && _) eqn:Hn; [done|]. destruct (isDowngrade _ _ _ _); [done|].
  by simplify_eq.
Qed.

Lemma evolves_refl s : evolves s s.
Proof. intros ns a Ha. right. exists a. split_and!; auto. Qed.

Lemma good_row_mono log log' ns a : log ⊆ log' → good_row log ns a → good_row log' ns a.
Proof.
  intros Hl [Hns Hav]. split; [done|]. intros t Ht.
  destruct (Hav t Ht) as (? & r & ?). eauto using judged_ahead_mono.
Qed.

(** What a command that validates does to its row *)
Lemma Apply_row c st st' log :
  Apply c st = Committed st' →
  ∃ a', st' = <[AggregateID c := a']> st ∧
    (may_call (Some log) (SendWait c) → (∀ a, st !! AggregateID c = Some a → good_row log (AggregateID c) a) →
      good_row log (AggregateID c) a') ∧
    ∀ a, st !! AggregateID c = Some a →
      arrow_namespace a' = arrow_namespace a ∧ arrow_kind a' = arrow_kind a ∧
      (UserInstalled a = true → UserInstalled a' = true) ∧
      (may_call (Some log) (SendWait c) →
        arrow_available a' = arrow_available a ∨ arrow_available a' = None ∨
        arrow_resolved a' = arrow_resolved a ∧
        ∃ t, arrow_available a' = Some t ∧
          judged_ahead log (AggregateID c) (arrow_resolved a) t).
Proof.
  unfold Apply. destruct (Validate c _) eqn:Hv; [done|].
  destruct (EmitEvent c _) as [a'|] eqn:He; [|done]. intros [= <-]. exists a'. split; [done|].
  destruct c as [ns m d k r|ns m r keep|ns m|ns t|ns|ns t|ns|ns av j]; simpl in *;
    unfold AddArrow_Validate, RecordAvailable_Validate, requireRow in Hv;
    destruct (st !! ns) as [a|] eqn:Ha; try done; injection He as <-.
  - split; [done|]. intros ? [=].
  - split.
    + intros _ Hg. destruct (Hg a eq_refl) as [Hns Hav]. split; [done|]. simpl. intros t Ht.
      destruct keep; simpl in Ht; [|done]. destruct (names r (arrow_available a)) eqn:Hn; [done|].
      rewrite Ht in Hn. destruct (Hav t Ht) as [_ ?]. done.
    + intros ? [= <-]. simpl. split_and!; auto. destruct (_ || _); auto.
  - split; [intros _ Hg; by destruct (Hg a eq_refl)|]. intros ? [= <-]. simpl. auto 10.
  - split; [intros _ Hg; by destruct (Hg a eq_refl)|]. intros ? [= <-]. simpl. auto 10.
  - split; [intros _ Hg; by destruct (Hg a eq_refl)|]. intros ? [= <-]. simpl. auto 10.
  - split; [intros _ Hg; by destruct (Hg a eq_refl)|]. intros ? [= <-]. simpl. auto 10.
  - split; [intros _ Hg; by destruct (Hg a eq_refl)|]. intros ? [= <-]. simpl. auto 10.
  - case_bool_decide as Hj; [|done]. subst j. split.
    + intros Hm Hg. destruct (Hg a eq_refl) as [Hns _]. split; [done|]. simpl. intros t ->.
      simpl in Hm. split; [|by eauto]. destruct Hm as (snap & kind & _ & Hd).
      by eapply drift_not_installed.
    + intros ? [= <-]. simpl. split_and!; auto. intros Hm.
      destruct av as [t|]; [|auto]. right. right. split; [done|]. by exists t.
Qed.

(** One answered call *)
Lemma served_send_sound s c r s' log :
  served_send s c r s' → may_call (Some log) (SendWait c) → log ⊆ snapshots s → good_rows s →
  snapshots s' = snapshots s ∧ good_rows s' ∧ evolves s s'.
Proof.
  unfold served_send. intros Hs Hm Hl Hg.
  assert (may_call (Some (snapshots s)) (SendWait c)) as Hm'.
  { destruct c as [| | | | | | |? [t|] ?]; try done. simpl in *. by eapply judged_ahead_mono. }
  destruct (Apply c (st_rows s)) as [rows'|e|] eqn:Ha; [|by destruct Hs as [-> _];
    split_and!; auto using evolves_refl|done].
  destruct (Apply_row _ _ _ (snapshots s) Ha) as (a' & -> & Hgood & Hev).
  assert (s' = s ∨ s' = set_rows s (<[AggregateID c := a']> (st_rows s))) as [->| ->].
  { destruct r; [by right|]. apply Hs. }
  { split_and!; auto using evolves_refl. }
  split_and!; [done| |].
  - intros ns a. simpl. destruct (decide (ns = AggregateID c)) as [->|Hne].
    + rewrite lookup_insert_eq. intros [= <-]. apply Hgood; [done|]. by intros; apply Hg.
    + rewrite lookup_insert_ne by done. apply Hg.
  - intros ns a Hrow. right. simpl. destruct (decide (ns = AggregateID c)) as [->|Hne].
    + rewrite lookup_insert_eq. exists a'. destruct (Hev a Hrow) as (? & ? & ? & ?). split_and!; auto.
    + rewrite lookup_insert_ne by done. exists a. auto 10.
Qed.

Lemma forgotten_sound s ns : good_rows s →
  good_rows (set_rows s (delete ns (st_rows s))) ∧ evolves s (set_rows s (delete ns (st_rows s))).
Proof.
  intros Hg. split; intros ns' a; simpl.
  - intros [_ Ha]%lookup_delete_Some. by apply Hg.
  - intros Ha. destruct (decide (ns' = ns)) as [->|Hne]; [left; apply lookup_delete_eq|].
    right. exists a. rewrite lookup_delete_ne by done. auto 10.
Qed.

Lemma log_snapshot_sound s ns r : good_rows s →
  snapshots s ⊆ snapshots (log_snapshot s ns r) ∧
  good_rows (log_snapshot s ns r) ∧ evolves s (log_snapshot s ns r).
Proof.
  intros Hg. destruct r as [snap|e]; simpl; [|split_and!; auto using evolves_refl].
  split_and!; [set_solver| |intros ns' a Ha; right; exists a; auto 10].
  intros ns' a Ha. eapply good_row_mono; [|by apply Hg]. simpl. set_solver.
Qed.

Lemma served_sound s c r s' log :
  served s c r s' → may_call (Some log) c → log ⊆ snapshots s → good_rows s →
  snapshots s ⊆ snapshots s' ∧ good_rows s' ∧ evolves s s' ∧
  ∃ log', called (Some log) c r = Some log' ∧ log' ⊆ snapshots s'.
Proof.
  intros Hs Hm Hl Hg.
  assert (called (Some log) c r = Some log → s' = s →
    snapshots s ⊆ snapshots s' ∧ good_rows s' ∧ evolves s s' ∧
    ∃ log', called (Some log) c r = Some log' ∧ log' ⊆ snapshots s') as Hsame.
  { intros Hc ->. split_and!; eauto using evolves_refl. }
  destruct c; simpl in Hs; try (apply Hsame; [done|]; try exact Hs; by apply Hs).
  - destruct Hs as [-> Hr]. apply Hsame; [|done]. destruct r as [a|e]; [|done].
    simpl. destruct (Hg _ _ Hr) as [Hns _]. by rewrite bool_decide_true.
  - edestruct served_send_sound as (Hsn & Hg' & He); [exact Hs|exact Hm|exact Hl|exact Hg|].
    rewrite Hsn. split_and!; eauto.
  - edestruct (served_send_sound s c r) as (Hsn & Hg' & He);
      [exact Hs|by destruct c as [| | | | | | |? [|] ?]|exact Hl|exact Hg|].
    rewrite Hsn. split_and!; eauto.
  - destruct (forgotten_sound s ns Hg). destruct r as [[]|e]; [subst s'|destruct Hs as [->| ->]];
      try (split_and!; simpl; eauto using evolves_refl).
  - subst s'. destruct (log_snapshot_sound s ns r Hg) as (Hin & Hg' & He).
    split_and!; [done..|]. destruct r as [snap|e]; simpl; [|eauto].
    eexists. split; [done|]. set_solver.
  - subst s'. destruct (log_snapshot_sound s ns r Hg) as (Hin & Hg' & He).
    split_and!; [done..|]. destruct r as [snap|e]; simpl; [|eauto].
    eexists. split; [done|]. set_solver.
Qed.

(** ** The invariant of the machine *)

Section invariant.
Context (has_vault has_manifold : bool) (marshal : ManifestFields → option string).

Abbreviation reachable := (reachable has_vault has_manifold marshal).
Abbreviation step := (step has_vault has_manifold marshal).

Definition placed (s : state) (p : P unit) : Prop :=
  ∃ log, log ⊆ snapshots s ∧ follows judging (Some log) p (λ _ _, True).

Definition config_inv (c : config) : Prop :=
  good_rows (shared c) ∧ Forall (placed (shared c)) (threads c).

Lemma step_sound c c' : config_inv c → step c c' → config_inv c' ∧ evolves (shared c) (shared c').
Proof.
  intros [Hg Hts] Hstep. destruct Hstep as [ts s p Hp|ts s i c k r s' Hi Hs]; simpl in *.
  - split; [|apply evolves_refl]. split; [done|]. apply Forall_app. split; [done|].
    constructor; [|done]. exists []. split; [set_solver|]. by eapply goroutine_follows.
  - destruct (Forall_lookup_1 _ _ _ _ Hts Hi) as (log & Hl & Hallowed & Hk).
    destruct (served_sound s c r s' log) as (Hin & Hg' & He & log' & Hc & Hl'); [done..|].
    split; [|done]. split; [done|]. simpl. apply Forall_insert.
    + eapply Forall_impl; [exact Hts|]. intros p (l & ? & ?). exists l. split; [set_solver|done].
    + exists log'. split; [done|]. rewrite <- Hc. apply Hk.
Qed.

Lemma catalog_inv c : reachable c → config_inv c.
Proof.
  induction 1 as [|c c' _ IH Hstep]; [|by eapply step_sound].
  split; [|constructor]. intros ns a. simpl. by rewrite lookup_empty.
Qed.

(** C17. However installs, updates, adoptions and version checks interleave, each
    row is kept under its own namespace, and what it offers is not what it has
    installed and was found ahead by a check of its selector in a ref list its host
    served.  A step keeps a row's identity, its selector kind and the mark of the
    user who installed it; and it makes a row offer something new only if that was
    found ahead of the very release the row has installed at that moment, so an
    answer about a release the row has left is never recorded. *)
Theorem catalog_rows_sound c :
  reachable c →
  good_rows (shared c) ∧ ∀ c', step c c' → evolves (shared c) (shared c').
Proof.
  intros Hc. apply catalog_inv in Hc. split; [apply Hc|]. intros c' Hs.
  by apply step_sound.
Qed.
End invariant.

(** ** Runs that are not interrupted *)

Fixpoint served_all (s : state) (l : list (event answer)) (s' : state) : Prop :=
  match l with
  | [] => s = s'
  | existT c r :: l' => ∃ s1, served s c r s1 ∧ served_all s1 l' s'
  end.

Lemma served_all_reaches v m marshal ts s i p l s' :
  reachable v m marshal (mkConfig ts s) → ts !! i = Some p → trace p l () → served_all s l s' →
  ∃ ts', reachable v m marshal (mkConfig ts' s').
Proof.
  revert ts s l. induction p as [a|c k IH]; intros ts s l Hr Hi Ht Hs; simpl in Ht.
  - destruct Ht as [-> _]. simpl in Hs. subst s'. eauto.
  - destruct Ht as (r & l' & -> & Ht). destruct Hs as (s1 & Hs1 & Hs).
    eapply IH; [|apply list_lookup_insert_eq; by eapply lookup_lt_Some|exact Ht|exact Hs].
    eapply reach_step; [exact Hr|]. by econstructor.
Qed.

Lemma goroutine_reaches v m marshal ts s p l s' :
  reachable v m marshal (mkConfig ts s) → goroutine v m marshal p → trace p l () →
  served_all s l s' → ∃ ts', reachable v m marshal (mkConfig ts' s').
Proof.
  intros Hr Hp Ht Hs. eapply (served_all_reaches v m marshal (ts ++ [p]) s (length ts));
    [eapply reach_step; [exact Hr|by constructor]|by apply list_lookup_middle|exact Ht|exact Hs].
Qed.

(** The run against a store that does not fail, the calls that leave it answered by
    [out] *)
Definition outside (out : ∀ c, option (answer c)) (s : state) (c : call)
  : option (answer c * state) :=
  match out c with Some r => Some (r, s) | None => None end.

Definition answered (out : ∀ c, option (answer c)) (s : state) (c : call)
  : option (answer c * state) :=
  match c with
  | Exists ns => Some (Ok (bool_decide (is_Some (st_rows s !! ns))), s)
  | Get ns =>
    Some (match st_rows s !! ns with Some a => Ok a | None => Err [ErrAxNotFound] end, s)
  | SendWait c | Send c =>
    match Apply c (st_rows s) with
    | Committed rows' => Some (Ok (), set_rows s rows')
    | Rejected e => Some (Err [e], s)
    | Panicked => None
    end
  | Forget ns => Some (Ok (), set_rows s (delete ns (st_rows s)))
  | Snapshot ns => r ← out (Snapshot ns); Some (r, log_snapshot s ns r)
  | FreshSnapshot ns => r ← out (FreshSnapshot ns); Some (r, log_snapshot s ns r)
  | x => outside out s x
  end.

Fixpoint play {A} (out : ∀ c, option (answer c)) (s : state) (p : P A) : option (A * state) :=
  match p with
  | Return a => Some (a, s)
  | Call c k =>
    match answered out s c with
    | Some (r, s') => play out s' (k r)
    | None => None
    end
  end.

Lemma answered_served out s c r s' : answered out s c = Some (r, s') → served s c r s'.
Proof.
  destruct c; simpl; unfold outside; intros H;
    try (destruct (out _) as [r'|]; simpl in H; by simplify_eq).
  all: try (by simplify_eq).
  - injection H as <- <-. split; [done|]. by destruct (st_rows s !! ns).
  - unfold served_send. destruct (Apply _ _); by simplify_eq.
  - unfold served_send. destruct (Apply _ _); by simplify_eq.
Qed.

Lemma play_served {A} out s (p : P A) a s' :
  play out s p = Some (a, s') → ∃ l, trace p l a ∧ served_all s l s'.
Proof.
  revert s. induction p as [a'|c k IH]; intros s H; simpl in H.
  - injection H as <- <-. by exists [].
  - destruct (answered out s c) as [[r s1]|] eqn:Ha; [|done].
    destruct (IH _ _ H) as (l & Ht & Hs). exists (existT c r :: l). split; [by eexists _, _|].
    exists s1. split; [by eapply answered_served|done].
Qed.

Lemma play_reaches v m marshal out ts s p s' :
  reachable v m marshal (mkConfig ts s) → goroutine v m marshal p → play out s p = Some ((), s') →
  ∃ ts', reachable v m marshal (mkConfig ts' s').
Proof.
  intros Hr Hp (l & Ht & Hs)%play_served. by eapply goroutine_reaches.
Qed.

(** *** A row that is adopted and then checked *)

Definition sample_ns : Namespace := "github.com/user/app@stable".
Definition sample_snapshot : RefSnapshot :=
  mkSnapshot (<["v1.0.0" := "c100"]> (<["v1.1.0" := "c110"]> ∅)) (<["main" := "c200"]> ∅) "main".
Definition sample_installed : Resolved := mkResolved "v1.0.0" "c100" "c100".
Definition sample_manifest : Arrow :=
  mkArrow "" no_meta [] [] [] "" None false None SelectorPin (mkResolved "" "" "") None.

(** Everything that is not asked of the store succeeds. *)
Definition sample_out (c : call) : option (answer c) :=
  match c with
  | PutArrow _ _ | DeleteArrow _ | PutArrowNotFound _ _
  | DeleteWorkDir _ | Probe _ _ _ | MarkPreinstalled _ | ForgetRuntime _ | Project _
  | ProjectForget _ | React _ _ _ | SetVersionOutdated _ _ => Some (Ok ())
  | ParseArrow _ => Some (Ok sample_manifest)
  | Snapshot _ | FreshSnapshot _ => Some (Ok sample_snapshot)
  | BadgeHeld _ => Some false
  | _ => None
  end.

Definition adopted_row : Arrow :=
  mkArrow sample_ns no_meta [] [] [] "" None true None SelectorChannel sample_installed None.

Definition offering_row : Arrow :=
  with_resolved adopted_row sample_installed (Some (mkAvailable "v1.1.0" "c110")).

Definition sample_marshal (m : ManifestFields) : option string := Some (m_readme m).

Lemma sample_reachable :
  ∃ ts, reachable false true sample_marshal
    (mkConfig ts (mkState {[sample_ns := offering_row]} [(sample_ns, sample_snapshot)])).
Proof.
  assert (∃ ts, reachable false true sample_marshal
    (mkConfig ts (mkState {[sample_ns := adopted_row]} []))) as [ts Hr].
  { eapply (play_reaches _ _ _ sample_out); [apply reach_start|
      apply (go_adopt _ _ _ sample_ns SelectorChannel sample_installed "readme" "arrow.yaml")|].
    vm_compute. reflexivity. }
  eapply (play_reaches _ _ _ sample_out); [exact Hr|apply (go_check _ _ _ false sample_ns)|].
  vm_compute. reflexivity.
Qed.

Lemma catalog_rows_sound_witness :
  ∃ ts, let c := mkConfig ts (mkState {[sample_ns := offering_row]} [(sample_ns, sample_snapshot)]) in
    reachable false true sample_marshal c ∧ good_rows (shared c).
Proof.
  destruct sample_reachable as [ts H]. exists ts. split; [exact H|].
  exact (proj1 (catalog_rows_sound _ _ _ _ H)).
Defined.
