(* ===== verification/CatalogInstalls.v ===== *)
(** * What an install resolves to, and what an adoption leaves

    A run of one program of [Catalog] with the answers it got: an install records
    what its selector points at in the ref list it read, so a check of the same list
    finds nothing ahead of it; it leaves the cached manifest of a catalogued row
    alone; and adopting the same state again writes nothing. *)

From S2P Require Import Prelude Errors GoStrings Domain Channels Versioning Steps Manifest Prog Catalog CatalogRuns.

(** ** Installs *)

Abbreviation history := (list (event answer)).

(** Whether the manifest cached under a key may be replaced after these calls *)
Definition may_cache (h : history) (c : call) : Prop :=
  match c with
  | DeleteArrow key | PutArrow key _ => existT (Exists key) (Ok false) ∈ h
  | _ => True
  end.

(** What a program may do that only reads and marks absences *)
Definition reads_only (c : call) : Prop :=
  match c with DeleteArrow _ | PutArrow _ _ => False | _ => True end.

Lemma reads_only_may_cache h c : reads_only c → may_cache h c.
Proof. by destruct c. Qed.

Lemma reads_only_follows {A} h (p : P A) :
  calls_only reads_only p → follows (histories may_cache) h p (λ _, extends h).
Proof. intros Hp. eapply calls_only_follows; [exact Hp|]. apply reads_only_may_cache. Qed.

#[local] Hint Resolve extends_trans elem_of_extends : history.
#[local] Hint Extern 1 (_ ∈ _) => eapply elem_of_extends : history.

Section install.
Context (has_vault has_manifold : bool).

Ltac reads := repeat (cbv zeta; first
  [ exact I
  | apply calls_only_bind; [|intros]
  | apply calls_only_bind_ok; [|intros]
  | match goal with
    | |- calls_only _ (match ?x with _ => _ end) => destruct x
    | |- calls_only _ (let '(_, _) := ?x in _) => destruct x
    | |- calls_only _ (if ?b then _ else _) => destruct b
    | |- calls_only _ (Call _ _) => split; [exact I|intros]
    | |- calls_only _ (ask _) => split; [exact I|intros; exact I]
    end
  | assumption ]).

Lemma cached_in_reads identity t keys : calls_only reads_only (cached_in identity t keys).
Proof. induction keys; cbn [cached_in]; reads. Qed.

Lemma RecordAbsent_reads ns t : calls_only reads_only (RecordAbsent has_vault ns t).
Proof. unfold RecordAbsent, holdsManifest. reads. Qed.

Lemma store_manifestAt_reads ns t : calls_only reads_only (store_manifestAt has_vault ns t).
Proof.
  unfold store_manifestAt, CachedAtCommit, KnownAbsent, fetchManifestAt, ResolveArrowAtCommit.
  pose proof (cached_in_reads ns t). pose proof (RecordAbsent_reads ns t). reads.
  all: auto.
Qed.

Lemma fetchAtCommit_follows h identity target cache :
  follows (histories may_cache) h (fetchAtCommit has_vault identity target cache)
    (λ _, extends h).
Proof.
  unfold fetchAtCommit. apply follows_bind_ok.
  eapply follows_mono; [apply reads_only_follows, store_manifestAt_reads|].
  intros [[[a raw] f]|e] h1 Hh1; [|done]. destruct cache; [|done].
  unfold bind_ok. apply (follows_logged may_cache (Exists identity)); [done|].
  intros [[]|e] h2 Hh2 Hin; [apply follows_ret; eauto with history| |apply follows_ret; eauto with history].
  apply (follows_logged may_cache (DeleteArrow identity)); [exact Hin|].
  intros [[]|e] h3 Hh3 _; [|apply follows_ret; eauto with history].
  apply (follows_logged may_cache (PutArrow identity _)); [simpl; eauto with history|].
  intros r h4 Hh4 _. apply follows_ret. eauto with history.
Qed.

(** *** What an install resolves to *)

(** [identity], with its selector classified against [snap]: the ref of [ns], or one
    of the repository's when it has none; a commit is spelled in lower case. *)
Definition identified (ns identity : Namespace) (kind : SelectorKind) (snap : RefSnapshot) : Prop :=
  BareNamespace identity = BareNamespace ns ∧
  ∃ selector, ClassifySelector selector snap = Ok kind ∧
    (Ref identity = selector ∨ kind = SelectorCommit ∧ Ref identity = to_lower selector) ∧
    (Ref ns ≠ "" → selector = Ref ns).

(** What its row records: what the selector points at in [snap] *)
Definition points_at (identity : Namespace) (a : Arrow) (snap : RefSnapshot) : Prop :=
  ∃ target, Versioning.Target (arrow_kind a) (Ref identity) snap = Ok target ∧
    arrow_resolved a = resolvedAt target.

Lemma installAt_follows h identity kind snap cache rl :
  follows (histories may_cache) h
    (installAt has_vault has_manifold identity kind snap (mkInstallOpts cache false rl))
    (λ r h', extends h h' ∧ ∀ a, r = Ok a →
      arrow_kind a = kind ∧ points_at identity a snap).
Proof.
  unfold installAt, readTarget. cbn [preview cacheWhenAbsent].
  destruct (Versioning.Target _ _ _) as [target|e] eqn:Ht.
  - apply follows_bind_ok. eapply follows_mono; [apply fetchAtCommit_follows|].
    intros [a|e] h' Hh'; (split; [done|]); [|done].
    intros ? [= <-]. split; [done|]. by exists target.
  - apply follows_ret. split; [by exists []; rewrite app_nil_r|done].
Qed.

Lemma classifyInstall_identified ns snap identity kind :
  classifyInstall ns snap = Ok (identity, kind) → identified ns identity kind snap.
Proof.
  unfold classifyInstall. intros (ns' & Hns & H)%rbind_ok.
  assert (BareNamespace ns' = BareNamespace ns ∧ (Ref ns ≠ "" → ns' = ns)) as [Hb Hns'].
  { destruct (String.eqb_spec (Ref ns) "") as [He|]; [|simplify_eq; auto].
    destruct (DefaultChannel snap) as [ch|]; [|done]. simplify_eq.
    split; [apply BareNamespace_WithRef|done]. }
  destruct (ClassifySelector (Ref ns') snap) as [k|e] eqn:Hk; [|done].
  assert (identity = ns' ∧ kind = k ∨
    kind = SelectorCommit ∧ k = SelectorCommit ∧ identity = WithRef ns' (to_lower (Ref ns')))
    as [[-> ->]|(-> & -> & ->)] by (destruct k; simplify_eq; auto).
  - split; [done|]. exists (Ref ns'). split_and!; auto. by intros ->%Hns'.
  - split; [by rewrite BareNamespace_WithRef|]. exists (Ref ns').
    rewrite Ref_WithRef. split_and!; auto. by intros ->%Hns'.
Qed.

(** The call that reads the ref list of a repository *)
Definition reads_refs (ns : Namespace) (snap : RefSnapshot) (e : event answer) : Prop :=
  e = existT (FreshSnapshot ns) (Ok snap : answer (FreshSnapshot ns)) ∨
  Ref ns ≠ "" ∧ e = existT (Snapshot ns) (Ok snap : answer (Snapshot ns)).

Lemma fresh_or_cached_follows ns :
  follows (histories may_cache) [] (fresh_or_cached ns)
    (λ r h, ∀ identity kind snap, r = Ok (identity, kind, snap) →
      identified ns identity kind snap ∧ ∃ e, e ∈ h ∧ reads_refs ns snap e).
Proof.
  unfold fresh_or_cached, identify. destruct (String.eqb_spec (Ref ns) "") as [He|He].
  - apply (follows_logged may_cache (FreshSnapshot ns)); [done|]. intros [snap|e] h _ Hin; [|done].
    apply follows_ret. intros identity kind snap'. simpl.
    destruct (classifyInstall ns snap) as [[i k]|] eqn:Hc; [|done]. intros [= <- <- <-].
    split; [by apply classifyInstall_identified|]. eexists. split; [exact Hin|by left].
  - apply (follows_logged may_cache (Snapshot ns)); [done|]. intros [snap|e] h _ Hin; [|done].
    apply follows_ret. intros identity kind snap'. simpl.
    destruct (classifyInstall ns snap) as [[i k]|] eqn:Hc; [|done]. intros [= <- <- <-].
    split; [by apply classifyInstall_identified|]. eexists. split; [exact Hin|by right].
Qed.

Lemma fallback_in_follows h ns snap cache rl selectors :
  Ref ns = "" →
  follows (histories may_cache) h
    (fallback_in has_vault has_manifold ns snap (mkInstallOpts cache false rl) selectors)
    (λ r h', extends h h' ∧ ∀ identity a, r = Some (identity, a) →
      identified ns identity (arrow_kind a) snap ∧ points_at identity a snap).
Proof.
  intros Hns. revert h. induction selectors as [|sel selectors IH]; intros h; cbn [fallback_in].
  { apply follows_ret. split; [by exists []; rewrite app_nil_r|done]. }
  destruct (ClassifySelector sel snap) as [kind|] eqn:Hk; [|apply IH].
  apply follows_bind. eapply follows_mono; [apply installAt_follows|].
  intros [a|e] h' [Hh' Ha].
  - destruct (Ha a eq_refl) as [Hkind Hp]. apply follows_ret. split; [done|].
    intros identity a' [= <- <-]. split; [|done]. rewrite Hkind.
    split; [apply BareNamespace_WithRef|]. exists sel. rewrite Ref_WithRef.
    split_and!; [done|by left|done].
  - eapply follows_mono; [apply IH|]. intros r h'' [? ?]. split; [eauto with history|done].
Qed.

Lemma ResolveInstall_follows ns cache :
  follows (histories may_cache) [] (ResolveInstall has_vault has_manifold ns cache false)
    (λ r h, ∀ identity a, r = Ok (identity, a) →
      ∃ snap e, e ∈ h ∧ reads_refs ns snap e ∧
        identified ns identity (arrow_kind a) snap ∧ points_at identity a snap).
Proof.
  unfold ResolveInstall. apply follows_bind_ok.
  eapply follows_mono; [apply fresh_or_cached_follows|].
  intros [[[identity kind] snap]|e] h Hid; [|done].
  destruct (Hid identity kind snap eq_refl) as [Hident (ev & Hin & Hev)].
  apply follows_bind. eapply follows_mono; [apply installAt_follows|].
  intros [a|e] h' [Hh' Ha].
  - destruct (Ha a eq_refl) as [<- Hp]. apply follows_ret. intros ? ? [= <- <-].
    exists snap, ev. split; [|done]. eauto with history.
  - destruct (String.eqb_spec (Ref ns) "") as [Hns|]; [|done].
    cbn [negb orb]. destruct (negb (errors_Is e ErrNotFound)); [done|]. unfold installFallback.
    apply follows_bind. eapply follows_mono; [by apply fallback_in_follows|].
    intros [[i a]|] h'' [Hh'' Hf]; apply follows_ret; [|done]. intros ? ? [= <- <-].
    destruct (Hf _ _ eq_refl). exists snap, ev. split; [|done].
    eapply elem_of_extends; [exact Hh''|]. eauto with history.
Qed.

Lemma points_at_current identity a snap :
  points_at identity a snap → Drift (arrow_kind a) (Ref identity) (arrow_resolved a) snap = Ok None.
Proof.
  intros (target & Ht & Hr). destruct (decide (arrow_kind a = SelectorCommit)) as [->|Hk]; [done|].
  rewrite drift_target, Ht, Hr by done. simpl. by rewrite !String.eqb_refl.
Qed.

(** C19. An install settles on a selector of the repository it was asked for, the ref
    the caller gave when there is one, and records what that selector points at in
    the ref list it read, live when the channel had to be chosen: judged against the
    same list, the row it adds has nothing ahead of it.  And it replaces the manifest
    cached under an identity only after the catalog said it has no row for it. *)
Theorem install_is_current ns cache l r :
  trace (ResolveInstall has_vault has_manifold ns cache false) l r →
  (∀ l1 c ans l2, l = l1 ++ existT c ans :: l2 → may_cache l1 c) ∧
  ∀ identity a, r = Ok (identity, a) →
    ∃ snap e, e ∈ l ∧ reads_refs ns snap e ∧
      identified ns identity (arrow_kind a) snap ∧ points_at identity a snap ∧
      Drift (arrow_kind a) (Ref identity) (arrow_resolved a) snap = Ok None.
Proof.
  intros Ht. destruct (follows_trace _ _ _ _ _ _ (ResolveInstall_follows ns cache) Ht) as [Hacc HQ].
  split; [by apply (accepts_histories _ [])|].
  intros identity a ->. destruct (HQ identity a eq_refl) as (snap & e & Hin & ? & ? & Hp).
  exists snap, e. split_and!; auto using points_at_current.
  rewrite after_histories in Hin. done.
Qed.
End install.

Definition sample_install_out (c : call) : option (answer c) :=
  match c with
  | ResolveArrow _ => Some (Ok (sample_manifest, "readme", "arrow.yaml"))
  | x => sample_out x
  end.

Definition installed_row : Arrow :=
  resolved_as (with_namespace sample_manifest sample_ns) SelectorOrderedChannel
    (resolvedAt (mkAvailable "v1.1.0" "c110")).

Lemma install_is_current_witness :
  ∃ l a, trace (ResolveInstall false true "github.com/user/app" true false) l (Ok (sample_ns, a)) ∧
    arrow_resolved a = resolvedAt (mkAvailable "v1.1.0" "c110") ∧
    ∃ snap, Drift (arrow_kind a) "stable" (arrow_resolved a) snap = Ok None.
Proof.
  destruct (play_served sample_install_out (mkState ∅ [])
    (ResolveInstall false true "github.com/user/app" true false)
    (Ok (sample_ns, installed_row)) (mkState ∅ [("github.com/user/app", sample_snapshot)]))
    as (l & Ht & _); [vm_compute; reflexivity|].
  exists l, installed_row. split; [exact Ht|]. split; [reflexivity|].
  destruct (proj2 (install_is_current false true "github.com/user/app" true l _ Ht) _ _ eq_refl)
    as (snap & _ & _ & _ & _ & _ & Hd).
  exists snap. exact Hd.
Defined.

(** ** Adoption *)

(** What holds after a run against the store of [CatalogRuns], every call on the way
    being allowed by [ok]; a manifest parses to the same arrow each time. *)
Section wp.
Context (parse : string → result error Arrow).

Definition parsed (c : call) : answer c → Prop :=
  match c with
  | ParseArrow content => λ r, r = parse content
  | _ => λ _, True
  end.

Fixpoint wp {A} (ok : call → Prop) (s : state) (p : P A) (Q : A → state → Prop) : Prop :=
  match p with
  | Return a => Q a s
  | Call c k => ok c ∧ ∀ r s', served s c r s' → parsed c r → wp ok s' (k r) Q
  end.

Fixpoint all_parsed (l : history) : Prop :=
  match l with
  | [] => True
  | existT c r :: l' => parsed c r ∧ all_parsed l'
  end.

Lemma wp_trace {A} ok s (p : P A) Q l a s' :
  wp ok s p Q → trace p l a → served_all s l s' → all_parsed l →
  Q a s' ∧ Forall (λ e : event answer, ok (projT1 e)) l.
Proof.
  revert s l. induction p as [a'|c k IH]; intros s l Hw Ht Hs Hp; simpl in Ht.
  - destruct Ht as [-> ->]. simpl in Hs. by subst s'.
  - destruct Ht as (r & l' & -> & Ht). destruct Hs as (s1 & Hs1 & Hs), Hp as [Hpr Hp].
    destruct Hw as [Hok Hw]. destruct (IH r s1 l') as [HQ Hl]; auto.
Qed.

Lemma wp_mono {A} ok s (p : P A) (Q Q' : A → state → Prop) :
  wp ok s p Q → (∀ a s', Q a s' → Q' a s') → wp ok s p Q'.
Proof.
  intros Hw HQ. revert s Hw. induction p as [a|c k IH]; intros s Hw; [by apply HQ|].
  destruct Hw as [Hok Hw]. split; [done|]. intros r s' Hs Hp. apply IH; auto.
Qed.

Lemma wp_bind {A B} ok s (p : P A) (f : A → P B) Q :
  wp ok s p (λ a s', wp ok s' (f a) Q) → wp ok s (p ≫= f) Q.
Proof.
  revert s. induction p as [a|c k IH]; intros s Hw; [done|].
  destruct Hw as [Hok Hw]. split; [done|]. intros r s' Hs Hp. apply IH; auto.
Qed.

Lemma wp_ret {A} ok s (a : A) (Q : A → state → Prop) : Q a s → wp ok s (mret a) Q.
Proof. done. Qed.

Lemma wp_call {A} c ok s (f : answer c → P A) Q :
  ok c → (∀ r s', served s c r s' → parsed c r → wp ok s' (f r) Q) → wp ok s (ask c ≫= f) Q.
Proof. done. Qed.
End wp.
Arguments wp parse {A} ok s p Q : simpl never.

Section adoption.
Context (parse : string → result error Arrow) (marshal : ManifestFields → option string).

Abbreviation wp := (wp parse).

Definition writes_nothing (c : call) : Prop :=
  match c with
  | SendWait _ | Send _ | Forget _ | PutArrow _ _ | DeleteArrow _ | PutArrowNotFound _ _ => False
  | _ => True
  end.

(** The row holds the manifest [m] and [resolved], and the user installed it.  A
    release declared without its commit is held at the commit the row learned. *)
Definition adopted (ns : Namespace) (m : Arrow) (resolved : Resolved) (s : state) : Prop :=
  ∃ a, st_rows s !! ns = Some a ∧ UserInstalled a = true ∧
    marshal (manifestOf a) = marshal (manifestOf m) ∧
    (arrow_resolved a = resolved ∨
     resolved_commit resolved = "" ∧ resolved_ref (arrow_resolved a) = resolved_ref resolved).

(** A second adoption of the same state *)
Lemma Adopt_settled ns kind m resolved manifest filename s :
  (∀ m, is_Some (marshal m)) → parse manifest = Ok m → adopted ns m resolved s →
  wp writes_nothing s (Adopt marshal ns kind resolved manifest filename) (λ _ s', s' = s).
Proof.
  intros Hm Hparse (a & Hrow & Hu & Hsame & Hres). unfold Adopt.
  destruct (_ || _); [done|]. destruct (String.eqb filename ""); [done|].
  apply (wp_call _ (ParseArrow manifest)); [done|]. intros r s' -> ->. rewrite Hparse.
  unfold bind_ok. apply (wp_call _ (Exists ns)); [done|]. intros [b|e] s' [-> Hb] _; [|done].
  rewrite Hb, bool_decide_true by eauto. cbn [negb].
  apply (wp_call _ (Get ns)); [done|]. intros [cur|e] s' [-> Hcur] _; [|done].
  assert (cur = a) as -> by congruence. unfold adoptOnto.
  set (res := if _ && _ then arrow_resolved _ else resolved).
  assert (res = arrow_resolved a) as ->.
  { unfold res. destruct Hres as [<-|[Hc Hr]]; [by destruct (_ && _)|].
    by rewrite Hc, Hr, !String.eqb_refl. }
  rewrite bool_decide_true by done. cbn [negb andb].
  assert (sameManifest marshal a m = true) as ->.
  { unfold sameManifest. rewrite Hsame. destruct (Hm (manifestOf m)) as [x ->].
    apply String.eqb_refl. }
  apply wp_bind, wp_ret. rewrite Hu. done.
Qed.

Lemma mapSendErr_ok (r : result error unit) : mapSendErr r = Ok () → r = Ok ().
Proof. destruct r as [[]|e]; [done|]. simpl. by destruct (_ || _). Qed.

(** A write that is sent again while the pipeline fails: what the row keeps to, and
    what the event makes of it *)
Lemma resend_writes n c s (K Q : Arrow → Prop) :
  (∃ a, st_rows s !! AggregateID c = Some a ∧ K a) →
  (∀ a, K a → Validate c (Some a) = None ∧
    ∃ a', EmitEvent c (Some a) = Some a' ∧ K a' ∧ Q a') →
  wp (λ _, True) s (resend n c) (λ r s', mapSendErr r = Ok () →
    ∃ a, st_rows s' !! AggregateID c = Some a ∧ Q a).
Proof.
  intros Hrow Hc. revert s Hrow.
  induction n as [|n IH]; intros s (a & Ha & HK); cbn [resend]; unfold sendWait;
    (apply (wp_call _ (SendWait c)); [done|]); intros r s' Hs _;
    destruct (Hc a HK) as (Hv & a' & He & HK' & HQ); simpl in Hs;
    unfold served_send, Apply in Hs; rewrite Ha, Hv, He in Hs.
  - destruct r as [[]|e]; apply wp_ret; [|simpl; by destruct (_ || _)]. intros _. subst s'. simpl.
    exists a'. by rewrite lookup_insert_eq.
  - destruct r as [[]|e].
    + apply wp_ret. intros _. subst s'. simpl. exists a'. by rewrite lookup_insert_eq.
    + destruct (errors_Is e ErrAxPipelineFailed); [|apply wp_ret; simpl; by destruct (_ || _)].
      apply IH. destruct Hs as [_ [->| ->]]; [by exists a|]. exists a'. simpl.
      by rewrite lookup_insert_eq.
Qed.

Lemma replaceCachedManifest_wp ns file s :
  wp (λ _, True) s (replaceCachedManifest ns file) (λ _ s', s' = s).
Proof.
  unfold replaceCachedManifest, bind_ok. apply (wp_call _ (DeleteArrow ns)); [done|].
  intros [[]|e] s' -> _; [|done]. apply (wp_call _ (PutArrow ns file)); [done|].
  by intros r s' -> _.
Qed.

(** The row holds what was declared, but for the mark of the user. *)
Definition holds_declared (m : Arrow) (resolved : Resolved) (a : Arrow) : Prop :=
  marshal (manifestOf a) = marshal (manifestOf m) ∧
  (arrow_resolved a = resolved ∨
   resolved_commit resolved = "" ∧ resolved_ref (arrow_resolved a) = resolved_ref resolved).

Lemma manifestOf_with_manifest a m : manifestOf (with_manifest a (manifestOf m)) = manifestOf m.
Proof. by destruct m. Qed.

(** What an adoption leaves of a row that is there *)
Lemma adoptOnto_wp ns cur m resolved file s :
  st_rows s !! ns = Some cur →
  wp (λ _, True) s (adoptOnto marshal ns cur m resolved file) (λ r s', r = Ok () →
    ∃ a, st_rows s' !! ns = Some a ∧
      UserInstalled a = UserInstalled cur ∧ holds_declared m resolved a).
Proof.
  intros Hcur. unfold adoptOnto. set (res := if _ && _ then arrow_resolved cur else resolved).
  assert (res = resolved ∨ res = arrow_resolved cur ∧ resolved_commit resolved = "" ∧
    resolved_ref (arrow_resolved cur) = resolved_ref resolved) as Hres.
  { unfold res. destruct (String.eqb_spec (resolved_commit resolved) ""); [|by left].
    destruct (String.eqb_spec (resolved_ref resolved) (resolved_ref (arrow_resolved cur))); auto. }
  cbv zeta. unfold bind_ok. case_bool_decide as Hr; cbn [negb andb].
  - assert (arrow_resolved cur = resolved ∨ resolved_commit resolved = "" ∧
      resolved_ref (arrow_resolved cur) = resolved_ref resolved) as Hdecl.
    { destruct Hres as [He|(_ & ? & ?)]; [left; by rewrite Hr|by right]. }
    destruct (sameManifest marshal cur m) eqn:Hsame.
    + apply wp_ret. intros _. exists cur. split_and!; [done..|]. split; [|done].
      unfold sameManifest in Hsame. destruct (marshal (manifestOf cur)); [|done].
      destruct (marshal (manifestOf m)); [|done]. by apply String.eqb_eq in Hsame as ->.
    + apply wp_bind. eapply wp_mono; [apply replaceCachedManifest_wp|].
      intros [[]|e] s' ->; [|done]. apply wp_bind.
      eapply wp_mono; [apply (resend_writes _ (RefreshManifest ns (manifestOf m)) _
        (λ a, UserInstalled a = UserInstalled cur ∧ arrow_resolved a = arrow_resolved cur)
        (λ a, UserInstalled a = UserInstalled cur ∧ holds_declared m resolved a))|].
      * by exists cur.
      * intros a [Hu Ha]. split; [done|]. eexists. split; [done|].
        split; [done|]. split; [done|]. split; [by rewrite manifestOf_with_manifest|].
        simpl. by rewrite Ha.
      * intros r s' Hs'. exact Hs'.
  - destruct Hres as [->|[He _]]; [|by rewrite He in Hr].
    apply wp_bind. eapply wp_mono; [apply replaceCachedManifest_wp|].
    intros [[]|e] s' ->; [|done]. unfold sendAdvance, sendRetryingConflicts. apply wp_bind.
    eapply wp_mono; [apply (resend_writes _ (AdvanceArrow ns (manifestOf m) resolved false) _
      (λ a, UserInstalled a = UserInstalled cur)
      (λ a, UserInstalled a = UserInstalled cur ∧ holds_declared m resolved a))|].
    + by exists cur.
    + intros a Hu. split; [done|]. eexists. split; [done|]. split; [done|]. split; [done|].
      split; [|by left]. by destruct m.
    + intros r s' Hs'. exact Hs'.
Qed.

(** The row after one write that is not retried *)
Lemma send_writes c s s' :
  served_send s c (Ok ()) s' →
  ∃ a', EmitEvent c (st_rows s !! AggregateID c) = Some a' ∧
    st_rows s' !! AggregateID c = Some a'.
Proof.
  unfold served_send, Apply. destruct (Validate c _) eqn:Hv; [by intros []|].
  destruct (EmitEvent c _) as [a'|] eqn:He; [|done]. intros ->. exists a'. split; [done|].
  simpl. by rewrite lookup_insert_eq.
Qed.

Lemma Adopt_leaves ns kind m resolved manifest filename s :
  parse manifest = Ok m →
  wp (λ _, True) s (Adopt marshal ns kind resolved manifest filename)
    (λ r s', r = Ok () → adopted ns m resolved s').
Proof.
  intros Hparse. unfold Adopt. destruct (_ || _); [done|]. destruct (String.eqb filename ""); [done|].
  apply (wp_call _ (ParseArrow manifest)); [done|]. intros r s' -> ->. rewrite Hparse.
  unfold bind_ok. apply (wp_call _ (Exists ns)); [done|]. intros [[]|e] s' [-> Hb] _; [| |done].
  - apply (wp_call _ (Get ns)); [done|]. intros [cur|e] s' [-> Hcur] _; [|done].
    apply wp_bind. eapply wp_mono; [by apply adoptOnto_wp|].
    intros [[]|e] s' Hs'; [|done]. destruct (Hs' eq_refl) as (a & Ha & Hu & Hm & Hres).
    destruct (UserInstalled cur) eqn:Hcu; [by apply wp_ret; intros _; exists a|].
    unfold sendWait. apply (wp_call _ (SendWait (SetUserInstalled ns))); [done|].
    intros r s2 Hs2 _. apply wp_ret. intros ->%mapSendErr_ok.
    destruct (send_writes _ _ _ Hs2) as (a' & He & Ha'). simpl in He, Ha'. rewrite Ha in He.
    exists a'. injection He as <-. done.
  - apply wp_bind. eapply wp_mono; [apply replaceCachedManifest_wp|].
    intros [[]|e] s' ->; [|done]. unfold sendAdopted, sendWait.
    apply (wp_call _ (SendWait (AddArrow ns (manifestOf m) true kind resolved))); [done|].
    intros r s2 Hs2 _. apply wp_ret. intros Hok.
    assert (r = Ok ()) as ->.
    { destruct r as [[]|e]; [done|]. destruct (_ || _); [done|]. by apply mapSendErr_ok in Hok. }
    destruct (send_writes _ _ _ Hs2) as (a' & He & Ha'). simpl in He, Ha'.
    exists a'. injection He as <-. split_and!; [done..|by destruct m|by left].
Qed.

(** C20. Adopting what is already installed settles: an adoption that succeeds leaves a
    row the user installed that holds the manifest and the release it declared, and
    adopting the same state again, at the next start of the daemon, writes nothing
    to the catalog or the vault, however many commits were lost or sent twice on the
    way. *)
Theorem adoption_settles ns kind m resolved manifest filename s s1 s2 l1 l2 r :
  (∀ m, is_Some (marshal m)) → parse manifest = Ok m →
  trace (Adopt marshal ns kind resolved manifest filename) l1 (Ok ()) →
  served_all s l1 s1 → all_parsed parse l1 →
  trace (Adopt marshal ns kind resolved manifest filename) l2 r →
  served_all s1 l2 s2 → all_parsed parse l2 →
  adopted ns m resolved s1 ∧ s2 = s1 ∧ Forall (λ e : event answer, writes_nothing (projT1 e)) l2.
Proof.
  intros Hm Hp Ht1 Hs1 Hp1 Ht2 Hs2 Hp2.
  destruct (wp_trace _ _ _ _ _ _ _ _ (Adopt_leaves ns kind m resolved manifest filename s Hp)
    Ht1 Hs1 Hp1) as [Hadopted _].
  specialize (Hadopted eq_refl). split; [done|].
  by apply (wp_trace _ _ _ _ _ _ _ _
    (Adopt_settled ns kind m resolved manifest filename s1 Hm Hp Hadopted) Ht2 Hs2 Hp2).
Qed.
End adoption.

Lemma play_parsed {A} parse out s (p : P A) a s' :
  (∀ content r, out (ParseArrow content) = Some r → r = parse content) →
  play out s p = Some (a, s') → ∃ l, trace p l a ∧ served_all s l s' ∧ all_parsed parse l.
Proof.
  intros Hout. revert s. induction p as [a'|c k IH]; intros s H; simpl in H.
  - injection H as <- <-. by exists [].
  - destruct (answered out s c) as [[r s1]|] eqn:Ha; [|done].
    destruct (IH _ _ H) as (l & Ht & Hs & Hp). exists (existT c r :: l).
    split; [by eexists _, _|]. split; [by exists s1; split; [by eapply answered_served|]|].
    split; [|done]. destruct c; try done. simpl in Ha. unfold outside in Ha.
    destruct (out (ParseArrow content)) as [r'|] eqn:Ho; [|done].
    injection Ha as <- <-. by apply Hout.
Qed.

Lemma adoption_settles_witness :
  ∃ s1 s2, adopted sample_marshal sample_ns sample_manifest sample_installed s1 ∧ s2 = s1.
Proof.
  set (parse := λ _ : string, Ok sample_manifest : result error Arrow).
  assert (∀ content r, sample_out (ParseArrow content) = Some r → r = parse content) as Hout
    by (intros content r H; injection H as <-; reflexivity).
  destruct (play_parsed parse sample_out (mkState ∅ [])
    (Adopt sample_marshal sample_ns SelectorChannel sample_installed "readme" "arrow.yaml")
    (Ok ()) (mkState {[sample_ns := adopted_row]} []) Hout) as (l1 & Ht1 & Hs1 & Hp1);
    [vm_compute; reflexivity|].
  destruct (play_parsed parse sample_out (mkState {[sample_ns := adopted_row]} [])
    (Adopt sample_marshal sample_ns SelectorChannel sample_installed "readme" "arrow.yaml")
    (Ok ()) (mkState {[sample_ns := adopted_row]} []) Hout) as (l2 & Ht2 & Hs2 & Hp2);
    [vm_compute; reflexivity|].
  exists (mkState {[sample_ns := adopted_row]} []), (mkState {[sample_ns := adopted_row]} []).
  destruct (adoption_settles parse sample_marshal sample_ns SelectorChannel sample_manifest
    sample_installed "readme" "arrow.yaml" _ _ _ l1 l2 _ (λ m, mk_is_Some _ _ eq_refl) eq_refl
    Ht1 Hs1 Hp1 Ht2 Hs2 Hp2) as (Ha & He & _).
  split; [exact Ha|exact He].
Defined.
