(* ===== verification/CatalogTable.v ===== *)
(** * The read model of the catalog (internal/app/repositories/arrow/internal/store)

    The tables of store/internal/storage as finite maps under their primary keys, each
    transaction a function; the projector that keeps them in step with the aggregates
    (store/internal/projections); and the reads of store.go.  The manifest column is
    the arrow itself rather than its JSON, and the full-text search is left out. *)

From S2P Require Import Prelude Errors GoStrings Domain Steps Manifest Catalog.

(** ** The tables (storage/rows.go) *)

(** A row of catalog_arrow_versions, the key being the bare namespace and the ref; its
    column last_version_check_at, which is written on its own, is a map of its own. *)
Record arrowVersionRow := mkVersionRow {
  installed_at : Z;
  last_used_at : Z;
  user_installed : bool;
  manifest : Arrow;
}.

(** A row of catalog_arrows *)
Record arrowRow := mkArrowRow {
  row_meta : ArrowMeta;
  provenance : string;
  row_user_installed : bool;
  updated_at : Z;
}.

Definition ProvenanceInstalled := "installed".
Definition ProvenanceDependency := "dependency".

(** The entries of the full-text index are its indexed columns. *)
Record tables := mkTables {
  versions : gmap (string * string) arrowVersionRow;
  last_version_check_at : gmap (string * string) Z;
  arrows : gmap string arrowRow;
  tags_table : gset (string * string);
  os_table : gset (string * string * string);
  fts : gmap string (string * string * string);
}.

Definition no_tables : tables := mkTables ∅ ∅ ∅ ∅ ∅ ∅.

(** [Time.Unix()]: whole seconds, and those of year 1 for the zero time *)
Definition second : Z := 1000000000.
Definition zero_unix : Z := -62135596800.
Definition unix (t : option Z) : Z := match t with None => zero_unix | Some n => n / second end.

(** ** The preferred version (storage.go) *)

Definition version : Type := string * arrowVersionRow.

(** [versionOrder]: user_installed DESC, installed_at DESC, ref DESC *)
Definition bool_cmp (a b : bool) : comparison :=
  match a, b with true, false => Gt | false, true => Lt | _, _ => Eq end.

Definition versionOrder (a b : version) : comparison :=
  cmp_then (bool_cmp (user_installed b.2) (user_installed a.2))
    (cmp_then (Z.compare (installed_at b.2) (installed_at a.2)) (String.compare b.1 a.1)).

(** The version rows of a namespace, in order *)
Definition version_rows (t : tables) (bare : string) : list version :=
  sort_func versionOrder
    (map (λ p, (p.1.2, p.2)) (map_to_list (filter (λ p, p.1.1 = bare) (versions t)))).

Definition no_arrow : Arrow :=
  mkArrow "" no_meta [] [] [] "" None false None SelectorPin (mkResolved "" "" "") None.

Definition provenanceOf (a : Arrow) : string :=
  if UserInstalled a then ProvenanceInstalled else ProvenanceDependency.

Definition latestInstalledAt (rows : list version) : Z :=
  match rows with
  | [] => 0
  | r :: rows' => foldl Z.max (installed_at r.2) (map (λ r, installed_at r.2) rows')
  end.

Definition replaceTags (t : tables) (bare : string) (tags : list string) : tables :=
  mkTables (versions t) (last_version_check_at t) (arrows t)
    (list_to_set (map (pair bare) (dedupe tags)) ∪ filter (λ p, p.1 ≠ bare) (tags_table t))
    (os_table t) (fts t).

Definition replaceFTS (t : tables) (bare : string) (a : Arrow) : tables :=
  mkTables (versions t) (last_version_check_at t) (arrows t) (tags_table t) (os_table t)
    (<[bare := (Name (arrow_meta a), Description (arrow_meta a),
                String.concat " " (Tags (arrow_meta a)))]> (fts t)).

Definition preferred (t : tables) (bare : string) : Arrow :=
  match version_rows t bare with [] => no_arrow | (_, r) :: _ => manifest r end.

Definition refreshParent (t : tables) (bare : string) : tables :=
  let a := preferred t bare in
  let t := mkTables (versions t) (last_version_check_at t)
    (<[bare := mkArrowRow (arrow_meta a) (provenanceOf a) (UserInstalled a)
                 (latestInstalledAt (version_rows t bare))]> (arrows t))
    (tags_table t) (os_table t) (fts t) in
  replaceFTS (replaceTags t bare (Tags (arrow_meta a))) bare a.

(** ** Writes *)

Definition replaceOS (t : tables) (bare ref : string) (targets : list (OS * Target)) : tables :=
  mkTables (versions t) (last_version_check_at t) (arrows t) (tags_table t)
    (list_to_set (map (λ o, (bare, ref, os_string o)) (sorted_oses targets)) ∪
     filter (λ p, p.1 ≠ (bare, ref)) (os_table t)) (fts t).

(** The upsert leaves the time of the last check of a row that was there. *)
Definition writeVersion (t : tables) (bare : string) (ns : Namespace) (a : Arrow) : tables :=
  let ref := Ref ns in
  let checks := last_version_check_at t in
  replaceOS
    (mkTables (<[(bare, ref) := mkVersionRow (unix (InstalledAt a)) (unix (LastUsedAt a))
                                  (UserInstalled a) a]> (versions t))
       (match versions t !! (bare, ref) with
        | Some _ => checks | None => <[(bare, ref) := 0%Z]> checks end)
       (arrows t) (tags_table t) (os_table t) (fts t))
    bare ref (arrow_targets a).

Definition SaveVersion (t : tables) (ns : Namespace) (a : Arrow) : tables :=
  let bare := BareNamespace ns in
  refreshParent (writeVersion t bare ns a) bare.

Definition clearVersions (t : tables) (bare : string) : tables :=
  mkTables (filter (λ p, p.1.1 ≠ bare) (versions t))
    (filter (λ p, p.1.1 ≠ bare) (last_version_check_at t)) (arrows t) (tags_table t)
    (filter (λ p, p.1.1 ≠ bare) (os_table t)) (fts t).

(** [VersionRef] and [ViewModel] *)
Record VersionRef := mkVersionRef {
  ref_namespace : Namespace;
  Metadata : Arrow;
  LastVersionCheckAt : Z;
}.

Record ViewModel := mkViewModel {
  vm_namespace : Namespace;
  vm_metadata : Arrow;
  Versions : list VersionRef;
  Provenance : string;
}.

Definition Save (t : tables) (vm : ViewModel) : tables :=
  let bare := BareNamespace (vm_namespace vm) in
  refreshParent
    (foldl (λ t v, writeVersion t bare (ref_namespace v) (Metadata v)) (clearVersions t bare)
       (Versions vm)) bare.

Definition deleteNamespace (t : tables) (bare : string) : tables :=
  mkTables (filter (λ p, p.1.1 ≠ bare) (versions t))
    (filter (λ p, p.1.1 ≠ bare) (last_version_check_at t)) (delete bare (arrows t))
    (filter (λ p, p.1 ≠ bare) (tags_table t)) (filter (λ p, p.1.1 ≠ bare) (os_table t))
    (delete bare (fts t)).

(** Times are nanoseconds; [ttl] too. *)
Definition ClaimVersionCheck (t : tables) (ns : Namespace) (now ttl : Z) : bool * tables :=
  let cutoff := ((now - ttl) / second)%Z in
  let key := (BareNamespace ns, Ref ns) in
  match last_version_check_at t !! key with
  | Some checked =>
    if Z.ltb checked cutoff then
      (true, mkTables (versions t) (<[key := (now / second)%Z]> (last_version_check_at t))
               (arrows t) (tags_table t) (os_table t) (fts t))
    else (false, t)
  | None => (false, t)
  end.

Definition NeedsVersionCheck (t : tables) (ns : Namespace) (lastCheckedAt now ttl : Z)
  : bool * tables :=
  if Z.ltb (now - lastCheckedAt) ttl then (false, t) else ClaimVersionCheck t ns now ttl.

(** ** Reads *)

Definition loadVersions (t : tables) (bare : string) : list VersionRef :=
  map (λ v : version, mkVersionRef (arrow_namespace (manifest v.2)) (manifest v.2)
         (default 0%Z (last_version_check_at t !! (bare, v.1)))) (version_rows t bare).

(** One element of [assemble] *)
Definition assemble_one (bare : string) (row : arrowRow) (vs : list VersionRef) : ViewModel :=
  mkViewModel bare (match vs with [] => no_arrow | v :: _ => Metadata v end) vs (provenance row).

Definition FindByKey (t : tables) (bare : string) : option ViewModel :=
  row ← arrows t !! bare;
  Some (assemble_one bare row (loadVersions t bare)).

Definition FindAll (t : tables) : list ViewModel :=
  map (λ p : string * arrowRow, assemble_one p.1 p.2 (loadVersions t p.1))
    (sort_func (λ a b, String.compare a.1 b.1) (map_to_list (arrows t))).

(** [ftsPhrase] *)
Fixpoint double_quotes (s : string) : string :=
  match s with
  | EmptyString => EmptyString
  | String c s' => if Ascii.eqb c "034" then String c (String c (double_quotes s'))
                   else String c (double_quotes s')
  end.

Definition ftsPhrase (text : string) : string :=
  String "034" (double_quotes text +:+ String "034" "").

(** ** The projector (projections.go) *)

Definition removeVersion (vs : list VersionRef) (ns : Namespace) : list VersionRef :=
  filter (λ v, ref_namespace v ≠ ns) vs.

Definition Projector_Apply (t : tables) (a : Arrow) : tables :=
  SaveVersion t (arrow_namespace a) a.

(** The two transactions of [Forget], between which others may write: its read, *)
Definition Forget_read (t : tables) (ns : Namespace) : option ViewModel := FindByKey t (BareNamespace ns).

(** and what it writes, given what it read *)
Definition Forget_write (t : tables) (existing : option ViewModel) (ns : Namespace) : tables :=
  match existing with
  | None => t
  | Some vm =>
    let vm := mkViewModel (vm_namespace vm) (vm_metadata vm) (removeVersion (Versions vm) ns)
                (Provenance vm) in
    match Versions vm with
    | [] => deleteNamespace t (BareNamespace ns)
    | _ :: _ => Save t vm
    end
  end.

(** ** The reads of the store (store.go) *)

Definition sameCommitSelector (v : VersionRef) (ns : Namespace) : bool :=
  bool_decide (arrow_kind (Metadata v) = SelectorCommit) &&
  equal_fold (Ref (ref_namespace v)) (Ref ns).

Fixpoint findVersionRef (vs : list VersionRef) (ns : Namespace) : option VersionRef :=
  match vs with
  | [] => None
  | v :: vs' =>
    if String.eqb (ref_namespace v) ns || sameCommitSelector v ns then Some v
    else findVersionRef vs' ns
  end.

Definition cataloguedRow (vm : option ViewModel) (ns : Namespace) : option Arrow :=
  match vm with
  | None => None
  | Some vm =>
    match Versions vm with
    | [] => None
    | _ :: _ =>
      if String.eqb (Ref ns) "" then Some (vm_metadata vm)
      else match findVersionRef (Versions vm) ns with
           | None => None
           | Some v => Some (with_namespace (Metadata v) (ref_namespace v))
           end
    end
  end.

Definition store_Get (t : tables) (ns : Namespace) : result error Arrow :=
  match cataloguedRow (FindByKey t (BareNamespace ns)) ns with
  | Some row => Ok row
  | None => Err [ErrNotFound]
  end.

Definition store_GetManifest (t : tables) (ns : Namespace) : result error Arrow :=
  match FindByKey t (BareNamespace ns) with
  | None => Err [ErrNotFound]
  | Some vm =>
    if String.eqb (Ref ns) "" then Ok (vm_metadata vm)
    else match findVersionRef (Versions vm) ns with
         | None => Err [ErrNotFound]
         | Some v => Ok (Metadata v)
         end
  end.

Definition ResolveCatalogued (t : tables) (ns : Namespace) : result error Namespace :=
  match FindByKey t (BareNamespace ns) with
  | None => Err [ErrNotFound]
  | Some vm =>
    match Versions vm with
    | [] => Err [ErrNotFound]
    | v :: _ =>
      if String.eqb (Ref ns) "" then Ok (ref_namespace v)
      else match findVersionRef (Versions vm) ns with
           | Some v => Ok (ref_namespace v)
           | None => Err [ErrNotFound]
           end
    end
  end.

Definition hasUserInstalled (vs : list VersionRef) : bool :=
  existsb (λ v, UserInstalled (Metadata v)) vs.

Definition refsOf (vs : list VersionRef) : list string := map (λ v, Ref (ref_namespace v)) vs.

(** A view of [List]: the arrow and its versions, each absent until the runtime is
    asked *)
Record VersionView := mkVersionView {
  view_namespace : Namespace;
  view_metadata : Arrow;
  view_state : ArrowState;
}.

Definition resolveVersionStates (vs : list VersionRef) : list VersionView :=
  map (λ v, mkVersionView (ref_namespace v) (Metadata v) ArrowStateAbsent) vs.

Definition toArrowView (vm : ViewModel) (userInstalled : option bool)
  : option (Namespace * Arrow * list VersionView) :=
  if match userInstalled with
     | Some b => negb (Bool.eqb (hasUserInstalled (Versions vm)) b) | None => false end
  then None
  else Some (vm_namespace vm, vm_metadata vm, resolveVersionStates (Versions vm)).

Definition store_List (t : tables) (userInstalled : option bool)
  : list (Namespace * Arrow * list VersionView) :=
  omap (λ vm, toArrowView vm userInstalled) (FindAll t).

(** ** Lookups *)

Lemma elem_of_version_rows t bare ref r :
  (ref, r) ∈ version_rows t bare ↔ versions t !! (bare, ref) = Some r.
Proof.
  unfold version_rows. rewrite elem_of_sort_func, list_elem_of_fmap. split.
  - intros ([[b f] r'] & [= -> ->] & H%elem_of_map_to_list).
    apply map_lookup_filter_Some in H as [? Hb]. simpl in Hb. by subst b.
  - intros H. exists ((bare, ref), r). split; [done|].
    apply elem_of_map_to_list, map_lookup_filter_Some. done.
Qed.

Lemma version_rows_nil t bare :
  version_rows t bare = [] ↔ ∀ ref, versions t !! (bare, ref) = None.
Proof.
  split.
  - intros H ref. destruct (versions t !! (bare, ref)) as [r|] eqn:Hr; [|done].
    apply elem_of_version_rows in Hr. rewrite H in Hr. by apply not_elem_of_nil in Hr.
  - intros H. destruct (version_rows t bare) as [|[ref r] l] eqn:Hl; [done|].
    assert ((ref, r) ∈ version_rows t bare) as Hin by (rewrite Hl; apply list_elem_of_here).
    apply elem_of_version_rows in Hin. by rewrite H in Hin.
Qed.

(** The order of the versions of a namespace depends on its rows alone. *)
Lemma version_rows_ext t t' bare :
  (∀ ref, versions t !! (bare, ref) = versions t' !! (bare, ref)) →
  version_rows t bare = version_rows t' bare.
Proof.
  intros H. unfold version_rows. do 3 f_equal. apply map_eq. intros [b ref].
  rewrite !map_lookup_filter. destruct (decide (b = bare)) as [->|Hb]; [by rewrite H|].
  destruct (versions t !! (b, ref)), (versions t' !! (b, ref)); simpl;
    by rewrite ?option_guard_False.
Qed.

#[export] Instance bool_cmp_total : TotalCmp bool_cmp.
Proof. split; [by intros [] []|by intros [] [] []]. Qed.

#[export] Instance versionOrder_total : TotalCmp versionOrder.
Proof.
  unfold versionOrder. apply total_cmp_then; [|apply total_cmp_then].
  - apply (total_cmp_on (λ v : version, user_installed v.2) (λ x y, bool_cmp y x) _).
  - apply (total_cmp_on (λ v : version, installed_at v.2) (λ x y, Z.compare y x) _).
  - apply (total_cmp_on (λ v : version, v.1) (λ x y, String.compare y x) _).
Qed.

(** The preferred version of a namespace is above every other. *)
Lemma preferred_first t bare ref r l :
  version_rows t bare = (ref, r) :: l →
  versions t !! (bare, ref) = Some r ∧
  ∀ ref' r', versions t !! (bare, ref') = Some r' → versionOrder (ref, r) (ref', r') ≠ Gt.
Proof.
  intros Hl. split.
  - apply elem_of_version_rows. rewrite Hl. apply list_elem_of_here.
  - intros ref' r' Hr'%elem_of_version_rows. unfold version_rows in Hl, Hr'.
    rewrite elem_of_sort_func in Hr'. exact (sort_func_head versionOrder _ _ _ Hl _ Hr').
Qed.

(** ** The tables and the rows they mirror *)

Definition version_os (r : arrowVersionRow) : list string :=
  map (λ p, os_string p.1) (arrow_targets (manifest r)).

(** The version rows and their platforms *)
Record base (t : tables) (m : rows) : Prop := {
  base_row bare ref r : versions t !! (bare, ref) = Some r →
    let a := manifest r in
    ref ≠ "" ∧ BareNamespace (arrow_namespace a) = bare ∧ Ref (arrow_namespace a) = ref ∧
    m !! arrow_namespace a = Some a ∧
    installed_at r = unix (InstalledAt a) ∧ user_installed r = UserInstalled a;
  base_arrow ns a : m !! ns = Some a →
    arrow_namespace a = ns ∧ ∃ r, versions t !! (BareNamespace ns, Ref ns) = Some r ∧ manifest r = a;
  base_os bare ref os : (bare, ref, os) ∈ os_table t ↔
    ∃ r, versions t !! (bare, ref) = Some r ∧ os ∈ version_os r;
  base_checks k : is_Some (last_version_check_at t !! k) ↔ is_Some (versions t !! k);
}.

(** The rows derived from the versions of one namespace *)
Record derived (t : tables) (bare : string) : Prop := {
  derived_parent : arrows t !! bare =
    match version_rows t bare with
    | [] => None
    | _ :: _ => let a := preferred t bare in
      Some (mkArrowRow (arrow_meta a) (provenanceOf a) (UserInstalled a)
              (latestInstalledAt (version_rows t bare)))
    end;
  derived_tags tag : (bare, tag) ∈ tags_table t ↔
    version_rows t bare ≠ [] ∧ tag ∈ Tags (arrow_meta (preferred t bare));
  derived_fts : fts t !! bare =
    match version_rows t bare with
    | [] => None
    | _ :: _ => let a := arrow_meta (preferred t bare) in
      Some (Name a, Description a, String.concat " " (Tags a))
    end;
}.

Record mirrors (t : tables) (m : rows) : Prop := {
  mirrors_base : base t m;
  mirrors_derived bare : derived t bare;
}.

Lemma preferred_ext t t' bare :
  (∀ ref, versions t !! (bare, ref) = versions t' !! (bare, ref)) → preferred t bare = preferred t' bare.
Proof. intros H. unfold preferred. by rewrite (version_rows_ext t t'). Qed.

(** A namespace whose rows are left alone keeps what is derived from them. *)
Lemma derived_frame t t' bare :
  (∀ ref, versions t !! (bare, ref) = versions t' !! (bare, ref)) →
  arrows t !! bare = arrows t' !! bare → fts t !! bare = fts t' !! bare →
  (∀ tag, (bare, tag) ∈ tags_table t ↔ (bare, tag) ∈ tags_table t') →
  derived t bare → derived t' bare.
Proof.
  intros Hv Ha Hf Ht [H1 H2 H3].
  split; intros; rewrite <-?(version_rows_ext t t' bare Hv), <-?(preferred_ext t t' bare Hv).
  - by rewrite <- Ha.
  - by rewrite <- Ht.
  - by rewrite <- Hf.
Qed.

Lemma refreshParent_versions t bare : versions (refreshParent t bare) = versions t.
Proof. done. Qed.

Lemma refreshParent_base t bare m : base t m → base (refreshParent t bare) m.
Proof. intros [? ? ? ?]. by split. Qed.

Lemma refreshParent_derived t bare : version_rows t bare ≠ [] → derived (refreshParent t bare) bare.
Proof.
  intros Hne. assert (version_rows (refreshParent t bare) bare = version_rows t bare) as Hv
    by by apply version_rows_ext.
  assert (preferred (refreshParent t bare) bare = preferred t bare) as Hp by by apply preferred_ext.
  split; intros; rewrite ?Hv, ?Hp.
  - simpl. rewrite lookup_insert_eq. by destruct (version_rows t bare).
  - simpl. rewrite elem_of_union, elem_of_list_to_set, list_elem_of_fmap, elem_of_filter. simpl.
    split.
    + intros [(x & [= ->] & Hx)|[[] _]]; [|done]. by rewrite elem_of_dedupe in Hx.
    + intros [_ Hx]. left. exists tag. split; [done|]. by rewrite elem_of_dedupe.
  - simpl. rewrite lookup_insert_eq. by destruct (version_rows t bare).
Qed.

Lemma refreshParent_other t bare bare' :
  bare' ≠ bare → derived t bare' → derived (refreshParent t bare) bare'.
Proof.
  intros Hb. apply derived_frame; [done|simpl..].
  - by rewrite lookup_insert_ne.
  - by rewrite lookup_insert_ne.
  - intros tag. rewrite elem_of_union, elem_of_list_to_set, list_elem_of_fmap, elem_of_filter. simpl.
    naive_solver.
Qed.

Lemma writeVersion_other t bare ns a bare' :
  bare' ≠ bare → derived t bare' → derived (writeVersion t bare ns a) bare'.
Proof.
  intros Hb. apply derived_frame; [|done..]. intros ref. simpl.
  rewrite lookup_insert_ne; [done|]. by intros [= ->].
Qed.

Lemma elem_of_sorted_oses os targets :
  os ∈ map os_string (sorted_oses targets) ↔ os ∈ map (λ p : OS * Target, os_string p.1) targets.
Proof.
  rewrite !list_elem_of_fmap. unfold sorted_oses. split.
  - intros (o & -> & Ho). rewrite elem_of_sort_func in Ho.
    apply list_elem_of_fmap in Ho as (p & -> & ?). eauto.
  - intros (p & -> & Hp). exists p.1. split; [done|]. rewrite elem_of_sort_func.
    apply list_elem_of_fmap. eauto.
Qed.

Lemma namespace_eq ns ns' :
  Ref ns ≠ "" → Ref ns' ≠ "" → BareNamespace ns = BareNamespace ns' → Ref ns = Ref ns' → ns = ns'.
Proof.
  intros H H' Hb Hr. rewrite <- (WithRef_Ref ns), <- (WithRef_Ref ns') by done.
  rewrite !WithRef_nonempty by done. by rewrite Hb, Hr.
Qed.

Lemma writeVersion_base t m a :
  let ns := arrow_namespace a in
  Ref ns ≠ "" → base t m → base (writeVersion t (BareNamespace ns) ns a) (<[ns := a]> m).
Proof.
  intros ns Hns [H1 H2 H3 H4]. split.
  - intros bare ref r. simpl. destruct (decide ((bare, ref) = (BareNamespace ns, Ref ns))) as [[= -> ->]|Hne].
    + rewrite lookup_insert_eq. intros [= <-]. simpl. fold ns. rewrite lookup_insert_eq.
      by split_and!.
    + rewrite lookup_insert_ne by done. intros Hr. destruct (H1 _ _ _ Hr) as (? & <- & <- & ? & ? & ?).
      split_and!; try done. rewrite lookup_insert_ne; [done|]. intros He. by rewrite He in Hne.
  - intros ns' a'. destruct (decide (ns' = ns)) as [->|Hne].
    + rewrite lookup_insert_eq. intros [= <-]. split; [done|]. eexists. simpl.
      rewrite lookup_insert_eq. done.
    + rewrite lookup_insert_ne by done. intros Ha. destruct (H2 _ _ Ha) as [Hn (r & Hr & Hm)].
      split; [done|]. exists r. split; [|done]. simpl. rewrite lookup_insert_ne; [done|].
      intros [= Hb Hf]. destruct (H1 _ _ _ Hr) as (? & _). symmetry in Hb, Hf.
      apply Hne. apply namespace_eq; congruence.
  - intros bare ref os. simpl.
    rewrite elem_of_union, elem_of_list_to_set, elem_of_filter, H3.
    destruct (decide ((bare, ref) = (BareNamespace ns, Ref ns))) as [[= -> ->]|Hne].
    + rewrite lookup_insert_eq. split.
      * intros [(o & [= ->] & Ho)%list_elem_of_fmap|[[] _]]; [|done].
        eexists. split; [done|]. unfold version_os. simpl. apply elem_of_sorted_oses.
        apply list_elem_of_fmap. eauto.
      * intros (r & [= <-] & Hos). left. apply elem_of_sorted_oses, list_elem_of_fmap in Hos as (o & -> & Ho).
        apply list_elem_of_fmap. eauto.
    + rewrite lookup_insert_ne by done. split.
      * intros [(o & [= -> -> ->] & _)%list_elem_of_fmap|[_ H]]; [by destruct Hne|done].
      * intros H. right. split; [simpl; congruence|done].
  - intros k. simpl. destruct (versions t !! _) as [r|] eqn:Hr; rewrite !lookup_insert_is_Some', H4;
      [|done]. split; [by right|]. intros [<-|?]; [by exists r|done].
Qed.

(** *** Saving and forgetting *)

Lemma clear_base t m bare :
  base t m → base (clearVersions t bare) (filter (λ p : Namespace * Arrow, BareNamespace p.1 ≠ bare) m).
Proof.
  intros [H1 H2 H3 H4]. split.
  - intros b ref r. simpl. intros [Hr Hb]%map_lookup_filter_Some.
    destruct (H1 _ _ _ Hr) as (? & <- & ? & ? & ? & ?). split_and!; try done.
    by apply map_lookup_filter_Some.
  - intros ns a [Ha Hb]%map_lookup_filter_Some. destruct (H2 _ _ Ha) as [? (r & Hr & ?)].
    split; [done|]. exists r. split; [|done]. by apply map_lookup_filter_Some.
  - intros b ref os. simpl. rewrite elem_of_filter, H3. simpl. split.
    + intros (Hb & r & Hr & Hos). exists r. split; [|done]. by apply map_lookup_filter_Some.
    + intros (r & [Hr Hb]%map_lookup_filter_Some & Hos). split; [done|]. eauto.
  - intros k. simpl. specialize (H4 k). rewrite !map_lookup_filter.
    destruct (decide (k.1 = bare)) as [He|He];
      destruct (last_version_check_at t !! k), (versions t !! k); simpl;
      rewrite ?option_guard_False, ?option_guard_True by (simpl; auto);
      unfold is_Some in *; naive_solver.
Qed.

(** A version as [loadVersions] reads it *)
Definition read_back (bare : string) (v : VersionRef) : Prop :=
  ref_namespace v = arrow_namespace (Metadata v) ∧ BareNamespace (ref_namespace v) = bare ∧
  Ref (ref_namespace v) ≠ "".

Definition writes (t : tables) (bare : string) (vs : list VersionRef) : tables :=
  foldl (λ t v, writeVersion t bare (ref_namespace v) (Metadata v)) t vs.

Lemma writes_base t m bare vs :
  Forall (read_back bare) vs → base t m →
  base (writes t bare vs) (foldl (λ m v, <[ref_namespace v := Metadata v]> m) m vs).
Proof.
  intros Hvs. revert t m. induction Hvs as [|v vs (Hns & <- & Href) Hvs IH]; intros t m Hb; [done|].
  simpl. apply IH. rewrite Hns in *. by apply writeVersion_base.
Qed.

Lemma writes_other t bare vs bare' :
  bare' ≠ bare → derived t bare' → derived (writes t bare vs) bare'.
Proof.
  intros Hne. revert t. induction vs as [|v vs IH]; intros t Hd; simpl; [done|].
  by apply IH, writeVersion_other.
Qed.

Lemma writes_not_empty t bare vs :
  vs ≠ [] → version_rows (writes t bare vs) bare ≠ [].
Proof.
  intros Hvs Hnil. rewrite version_rows_nil in Hnil.
  assert (∀ vs t, (∃ ref, is_Some (versions t !! (bare, ref))) →
    ∃ ref, is_Some (versions (writes t bare vs) !! (bare, ref))) as Hkeep.
  { clear. induction vs as [|v vs IH]; intros t [ref Hr]; simpl; [eauto|]. apply IH.
    exists ref. simpl. by apply lookup_insert_is_Some'; right. }
  destruct vs as [|v vs]; [done|]. destruct (Hkeep vs (writeVersion t bare (ref_namespace v) (Metadata v)))
    as [ref [r Hr]].
  { exists (Ref (ref_namespace v)). simpl. rewrite lookup_insert_eq. by eexists. }
  specialize (Hnil ref). change (versions (writes (writeVersion t bare (ref_namespace v) (Metadata v)) bare vs)
    !! (bare, ref) = None) in Hnil. by rewrite Hr in Hnil.
Qed.

(** Inserting the rows of [m'] that [m] lacks *)
Lemma foldl_insert_rows (vs : list VersionRef) (m m' : rows) :
  m ⊆ m' → Forall (λ v, m' !! ref_namespace v = Some (Metadata v)) vs →
  (∀ ns a, m' !! ns = Some a → m !! ns = Some a ∨ ∃ v, v ∈ vs ∧ ref_namespace v = ns) →
  foldl (λ m v, <[ref_namespace v := Metadata v]> m) m vs = m'.
Proof.
  intros Hsub Hvs. revert m Hsub. induction Hvs as [|v vs Hv Hvs IH]; intros m Hsub Hcov; simpl.
  - apply map_eq. intros ns. destruct (m' !! ns) as [a|] eqn:Ha.
    + destruct (Hcov ns a Ha) as [?|(v & Hin & _)]; [done|]. by apply not_elem_of_nil in Hin.
    + destruct (m !! ns) as [a|] eqn:Hm; [|done]. by rewrite (lookup_weaken _ _ _ _ Hm Hsub) in Ha.
  - apply IH.
    + by apply insert_subseteq_l.
    + intros ns a Ha. destruct (decide (ns = ref_namespace v)) as [->|Hne].
      * left. rewrite lookup_insert_eq. congruence.
      * rewrite lookup_insert_ne by done. destruct (Hcov ns a Ha) as [?|(w & [->|?]%elem_of_cons & ?)];
          naive_solver.
Qed.

Lemma loadVersions_rows t m bare v :
  base t m → v ∈ loadVersions t bare ↔
    ∃ r, versions t !! (bare, Ref (ref_namespace v)) = Some r ∧
      v = mkVersionRef (arrow_namespace (manifest r)) (manifest r)
            (default 0%Z (last_version_check_at t !! (bare, Ref (ref_namespace v)))).
Proof.
  intros [H1 _ _ _]. unfold loadVersions. rewrite list_elem_of_fmap. split.
  - intros ([ref r] & -> & Hr%elem_of_version_rows). simpl.
    destruct (H1 _ _ _ Hr) as (_ & _ & Href & _). rewrite Href. eauto.
  - intros (r & Hr & ->). eexists (_, r). split; [done|]. by apply elem_of_version_rows.
Qed.

Lemma loadVersions_base t m bare v :
  base t m → v ∈ loadVersions t bare →
  read_back bare v ∧ m !! ref_namespace v = Some (Metadata v).
Proof.
  intros Hb (r & Hr & Hv)%(loadVersions_rows t m bare v Hb).
  destruct (base_row _ _ Hb _ _ _ Hr) as (? & ? & Href & ? & _).
  rewrite Hv. simpl. split; [|done]. unfold read_back. simpl. split_and!; [done..|congruence].
Qed.

Lemma base_loaded t m ns a :
  base t m → m !! ns = Some a →
  ∃ v, v ∈ loadVersions t (BareNamespace ns) ∧ ref_namespace v = ns ∧ Metadata v = a.
Proof.
  intros Hb Ha. destruct (base_arrow _ _ Hb _ _ Ha) as [Hns (r & Hr & Hm)].
  exists (mkVersionRef ns a (default 0%Z (last_version_check_at t !! (BareNamespace ns, Ref ns)))).
  split; [|done].
  apply (loadVersions_rows t m (BareNamespace ns) _ Hb). simpl. exists r. split; [done|].
  by rewrite Hm, Hns.
Qed.

Lemma Apply_mirrors t m a :
  Ref (arrow_namespace a) ≠ "" → mirrors t m →
  mirrors (Projector_Apply t a) (<[arrow_namespace a := a]> m).
Proof.
  intros Hns [Hb Hd]. unfold Projector_Apply, SaveVersion. cbv zeta. split.
  - by apply refreshParent_base, writeVersion_base.
  - intros bare. destruct (decide (bare = BareNamespace (arrow_namespace a))) as [->|Hne].
    + apply refreshParent_derived. rewrite version_rows_nil. intros H.
      specialize (H (Ref (arrow_namespace a))). simpl in H. by rewrite lookup_insert_eq in H.
    + by apply refreshParent_other, writeVersion_other.
Qed.

Lemma deleteNamespace_derived t bare bare' :
  derived t bare' → derived (deleteNamespace t bare) bare'.
Proof.
  intros Hd. destruct (decide (bare' = bare)) as [->|Hne].
  - assert (version_rows (deleteNamespace t bare) bare = []) as Hnil.
    { apply version_rows_nil. intros ref. simpl. apply map_lookup_filter_None_2. right. by intros ? _ []. }
    split; rewrite ?Hnil; simpl; [by rewrite lookup_delete_eq| |by rewrite lookup_delete_eq].
    intros tag. rewrite elem_of_filter. simpl. naive_solver.
  - revert Hd. apply derived_frame; simpl.
    + intros ref. rewrite map_lookup_filter. destruct (versions t !! _); [|done]. simpl.
      by rewrite option_guard_True.
    + by rewrite lookup_delete_ne.
    + by rewrite lookup_delete_ne.
    + intros tag. rewrite elem_of_filter. naive_solver.
Qed.

Lemma clear_other t bare bare' :
  bare' ≠ bare → derived t bare' → derived (clearVersions t bare) bare'.
Proof.
  intros Hne. apply derived_frame; [|done..]. intros ref. simpl.
  rewrite map_lookup_filter. destruct (versions t !! _); [|done]. simpl. by rewrite option_guard_True.
Qed.

Lemma FindByKey_Some t m bare vm :
  mirrors t m → FindByKey t bare = Some vm →
  vm_namespace vm = bare ∧ Versions vm = loadVersions t bare ∧ Versions vm ≠ [] ∧
  vm_metadata vm = preferred t bare.
Proof.
  intros [_ Hd]. unfold FindByKey. rewrite (derived_parent _ _ (Hd bare)).
  unfold loadVersions, preferred. destruct (version_rows t bare) as [|[ref r] l]; [done|].
  simpl. by intros [= <-].
Qed.

Lemma FindByKey_None t m bare :
  mirrors t m → FindByKey t bare = None → ∀ ns a, m !! ns = Some a → BareNamespace ns ≠ bare.
Proof.
  intros [Hb Hd]. unfold FindByKey. rewrite (derived_parent _ _ (Hd bare)).
  destruct (version_rows t bare) eqn:Hv; [|done]. intros _ ns a Ha Hns.
  rewrite version_rows_nil in Hv. destruct (base_arrow _ _ Hb _ _ Ha) as [_ (r & Hr & _)].
  rewrite Hns, Hv in Hr. done.
Qed.

Lemma Forget_mirrors t m ns :
  Ref ns ≠ "" → mirrors t m → mirrors (Forget_write t (Forget_read t ns) ns) (delete ns m).
Proof.
  intros Hns Hmir. pose proof Hmir as [Hb Hd]. unfold Forget_read.
  set (bare := BareNamespace ns). destruct (FindByKey t bare) as [vm|] eqn:Hf; simpl.
  2:{ rewrite delete_id; [done|]. destruct (m !! ns) eqn:Ha; [|done].
      by destruct (FindByKey_None t m bare Hmir Hf _ _ Ha). }
  destruct (FindByKey_Some t m bare vm Hmir Hf) as (Hvm & Hvs & _ & _). rewrite Hvs, Hvm.
  set (left := removeVersion (loadVersions t bare) ns).
  assert (∀ v, v ∈ left → read_back bare v ∧ delete ns m !! ref_namespace v = Some (Metadata v)) as Hleft.
  { intros v [Hne Hin]%list_elem_of_filter. destruct (loadVersions_base t m bare v Hb Hin).
    split; [done|]. by rewrite lookup_delete_ne by done. }
  set (kept := filter (λ p : Namespace * Arrow, BareNamespace p.1 ≠ bare) m).
  assert (foldl (λ m v, <[ref_namespace v := Metadata v]> m) kept left = delete ns m) as Hfold.
  { apply foldl_insert_rows.
    - apply map_subseteq_spec. intros ns' a [Ha Hbare]%map_lookup_filter_Some. simpl in Hbare.
      rewrite lookup_delete_ne; [done|]. by intros <-.
    - apply Forall_forall. intros v Hv. by apply Hleft.
    - intros ns' a [Hne Ha]%lookup_delete_Some.
      destruct (decide (BareNamespace ns' = bare)) as [He|]; [right|left].
      + destruct (base_loaded t m ns' a Hb Ha) as (v & Hin & Hv & _). rewrite He in Hin.
        exists v. split; [|done]. apply list_elem_of_filter. split; [congruence|done].
      + by apply map_lookup_filter_Some. }
  destruct left as [|v vs] eqn:Hl.
  - simpl in Hfold. rewrite <- Hfold. split.
    + destruct (clear_base t m bare Hb) as [C1 C2 C3 C4]. by split.
    + intros bare'. by apply deleteNamespace_derived.
  - unfold Save. simpl vm_namespace. simpl Versions. rewrite <- Hl in *.
    assert (BareNamespace bare = bare) as -> by apply BareNamespace_idemp.
    split.
    + apply refreshParent_base. rewrite <- Hfold. apply writes_base; [|by apply clear_base].
      apply Forall_forall. intros w Hw. by apply Hleft.
    + intros bare'. destruct (decide (bare' = bare)) as [->|Hne].
      * apply refreshParent_derived, writes_not_empty. by rewrite Hl.
      * by apply refreshParent_other, writes_other, clear_other.
Qed.

Lemma Claim_mirrors t m ns now ttl : mirrors t m → mirrors (ClaimVersionCheck t ns now ttl).2 m.
Proof.
  intros [[H1 H2 H3 H4] Hd]. unfold ClaimVersionCheck. cbv zeta.
  destruct (last_version_check_at t !! _) as [c|] eqn:Hc; [|by split]. case_match; [|by split].
  split; [split; try done|].
  - intros k. simpl. rewrite lookup_insert_is_Some', H4. split; [|by right].
    intros [<-|?]; [by apply H4|done].
  - intros bare. specialize (Hd bare). revert Hd. by apply derived_frame.
Qed.

(** *** What a forget writes depends on the versions it read, not on their checks *)

Definition seen (vm : option ViewModel) : option (Namespace * list (Namespace * Arrow)) :=
  (λ vm, (vm_namespace vm, map (λ v, (ref_namespace v, Metadata v)) (Versions vm))) <$> vm.

Lemma seen_remove vs vs' ns :
  map (λ v, (ref_namespace v, Metadata v)) vs = map (λ v, (ref_namespace v, Metadata v)) vs' →
  map (λ v, (ref_namespace v, Metadata v)) (removeVersion vs ns) =
  map (λ v, (ref_namespace v, Metadata v)) (removeVersion vs' ns).
Proof.
  unfold removeVersion. revert vs'. induction vs as [|v vs IH]; intros [|v' vs'] Heq; try done.
  injection Heq as Hn Hm Heq. rewrite !filter_cons, Hn. specialize (IH vs' Heq).
  case_decide; cbn [map]; [by rewrite Hm, Hn, IH|done].
Qed.

Lemma writes_seen t bare vs vs' :
  map (λ v, (ref_namespace v, Metadata v)) vs = map (λ v, (ref_namespace v, Metadata v)) vs' →
  writes t bare vs = writes t bare vs'.
Proof.
  unfold writes. revert t vs'. induction vs as [|v vs IH]; intros t [|v' vs'] Heq; try done.
  injection Heq as Hn Hm Heq. cbn [foldl]. rewrite Hn, Hm. by apply IH.
Qed.

Lemma Forget_write_seen t r r' ns : seen r = seen r' → Forget_write t r ns = Forget_write t r' ns.
Proof.
  destruct r as [vm|], r' as [vm'|]; try done. intros [= Hns Hvs]. unfold Forget_write. cbv zeta. cbn [Versions].
  pose proof (seen_remove _ _ ns Hvs) as Hrem.
  destruct (removeVersion (Versions vm) ns) as [|v vs] eqn:H1, (removeVersion (Versions vm') ns) as [|v' vs'] eqn:H2; try done.
  unfold Save. cbn [vm_namespace Versions]. rewrite Hns. f_equal. exact (writes_seen _ _ _ _ Hrem).
Qed.

Lemma loadVersions_seen t t' bare :
  (∀ ref, versions t !! (bare, ref) = versions t' !! (bare, ref)) →
  map (λ v, (ref_namespace v, Metadata v)) (loadVersions t bare) =
  map (λ v, (ref_namespace v, Metadata v)) (loadVersions t' bare).
Proof.
  intros Hv. unfold loadVersions. rewrite (version_rows_ext t t' bare Hv), !map_map. by apply map_ext.
Qed.

(** A namespace whose rows are left alone is read as before. *)
Lemma Forget_read_seen t t' m m' ns :
  mirrors t m → mirrors t' m' → (∀ ref, versions t !! (BareNamespace ns, ref) = versions t' !! (BareNamespace ns, ref)) →
  seen (Forget_read t ns) = seen (Forget_read t' ns).
Proof.
  intros [_ Hd] [_ Hd'] Hv. unfold Forget_read, FindByKey.
  rewrite (derived_parent _ _ (Hd (BareNamespace ns))), (derived_parent _ _ (Hd' (BareNamespace ns))).
  rewrite <- (version_rows_ext t t' _ Hv). destruct (version_rows t (BareNamespace ns)); [done|]. cbn.
  by rewrite (loadVersions_seen t t' _ Hv).
Qed.

Lemma Apply_versions t a bare ref :
  bare ≠ BareNamespace (arrow_namespace a) →
  versions (Projector_Apply t a) !! (bare, ref) = versions t !! (bare, ref).
Proof. intros Hne. unfold Projector_Apply, SaveVersion. cbv zeta. cbn. rewrite lookup_insert_ne; [done|congruence]. Qed.

Lemma writes_versions t bare vs bare' ref :
  bare' ≠ bare → versions (writes t bare vs) !! (bare', ref) = versions t !! (bare', ref).
Proof.
  intros Hne. unfold writes. revert t. induction vs as [|v vs IH]; intros t; cbn [foldl]; [done|].
  rewrite IH. cbn. rewrite lookup_insert_ne; [done|congruence].
Qed.

Lemma Forget_versions t m ns bare ref :
  mirrors t m → bare ≠ BareNamespace ns →
  versions (Forget_write t (Forget_read t ns) ns) !! (bare, ref) = versions t !! (bare, ref).
Proof.
  intros Hm Hne. unfold Forget_read. destruct (FindByKey t (BareNamespace ns)) as [vm|] eqn:Hf; [|done].
  destruct (FindByKey_Some _ _ _ _ Hm Hf) as (Hvm & _).
  assert (filter (λ p : (string * string) * arrowVersionRow, p.1.1 ≠ BareNamespace ns) (versions t) !! (bare, ref) =
    versions t !! (bare, ref)) as Hfilter.
  { rewrite map_lookup_filter. destruct (versions t !! _); [|done]. simpl. by rewrite option_guard_True. }
  unfold Forget_write. cbv zeta. cbn [Versions]. destruct (removeVersion (Versions vm) ns) as [|v vs]; [exact Hfilter|].
  unfold Save. cbn [vm_namespace Versions]. rewrite Hvm, BareNamespace_idemp.
  change (versions (writes (clearVersions t (BareNamespace ns)) (BareNamespace ns) (v :: vs)) !! (bare, ref) = versions t !! (bare, ref)).
  rewrite writes_versions by done. exact Hfilter.
Qed.

(** *** What the projections make of a history *)

Inductive projected :=
| Applied (a : Arrow)
| ForgetReads (ns : Namespace)
| ForgetWrites (ns : Namespace)
| Claimed (ns : Namespace) (now ttl : Z).

(** The tables, and what the forgets that have not written yet have read *)
Record projecting := mkProjecting {
  tables_of : tables;
  pending : gmap Namespace (option ViewModel);
}.

Definition no_projecting : projecting := mkProjecting no_tables ∅.

Definition project_tables (p : projecting) (e : projected) : projecting :=
  let t := tables_of p in
  match e with
  | Applied a => mkProjecting (Projector_Apply t a) (pending p)
  | ForgetReads ns => mkProjecting t (<[ns := Forget_read t ns]> (pending p))
  | ForgetWrites ns =>
    match pending p !! ns with
    | Some existing => mkProjecting (Forget_write t existing ns) (delete ns (pending p))
    | None => p
    end
  | Claimed ns now ttl => mkProjecting (ClaimVersionCheck t ns now ttl).2 (pending p)
  end.

Definition project_rows (m : rows) (e : projected) : rows :=
  match e with
  | Applied a => <[arrow_namespace a := a]> m
  | ForgetWrites ns => delete ns m
  | ForgetReads _ | Claimed _ _ _ => m
  end.

(** No forget among [reading] is of a version of the same namespace. *)
Definition apart (reading : gset Namespace) (ns : Namespace) : Prop :=
  ∀ ns', ns' ∈ reading → ns' ≠ ns → BareNamespace ns' ≠ BareNamespace ns.

(** Every catalogued identity has a ref; a forget writes once it has read, and no version of
    its namespace is written between the two. *)
Fixpoint unraced (reading : gset Namespace) (es : list projected) : Prop :=
  match es with
  | [] => True
  | Applied a :: es =>
    Ref (arrow_namespace a) ≠ "" ∧ apart reading (arrow_namespace a) ∧ arrow_namespace a ∉ reading ∧ unraced reading es
  | ForgetReads ns :: es => Ref ns ≠ "" ∧ unraced ({[ns]} ∪ reading) es
  | ForgetWrites ns :: es => ns ∈ reading ∧ apart reading ns ∧ unraced (reading ∖ {[ns]}) es
  | Claimed _ _ _ :: es => unraced reading es
  end.

(** The tables mirror the rows, and what a forget read is what it would read now. *)
Record keeps_up (p : projecting) (reading : gset Namespace) (m : rows) : Prop := {
  keeps_mirror : mirrors (tables_of p) m;
  keeps_reading ns : is_Some (pending p !! ns) ↔ ns ∈ reading;
  keeps_ref ns : ns ∈ reading → Ref ns ≠ "";
  keeps_seen ns existing : pending p !! ns = Some existing → seen existing = seen (Forget_read (tables_of p) ns);
}.

Lemma no_tables_mirrors : mirrors no_tables ∅.
Proof.
  split; [split|intros bare].
  - intros bare ref r. simpl. by rewrite lookup_empty.
  - intros ns a. by rewrite lookup_empty.
  - intros bare ref os. simpl. split; [set_solver|]. intros (r & Hr & _). by rewrite lookup_empty in Hr.
  - intros k. simpl. by rewrite !lookup_empty.
  - assert (version_rows no_tables bare = []) as Hv
      by (apply version_rows_nil; intros; apply lookup_empty).
    split; rewrite ?Hv; simpl; [by rewrite lookup_empty|set_solver|by rewrite lookup_empty].
Qed.

Lemma keeps_up_project es : ∀ p reading m,
  unraced reading es → keeps_up p reading m →
  mirrors (tables_of (foldl project_tables p es)) (foldl project_rows m es).
Proof.
  induction es as [|[a|ns|ns|ns now ttl] es IH]; intros p reading m Hes [Hm Hr Hrefs Hseen]; cbn [foldl];
    cbn [unraced] in Hes; [done| | | |].
  - destruct Hes as (Href & Hapart & Hnot & Hes). eapply IH; [exact Hes|].
    pose proof (Apply_mirrors _ _ a Href Hm) as Hm'.
    split; [exact Hm'|done|done|]. cbn [pending tables_of project_tables]. intros ns existing Hns.
    rewrite (Hseen _ _ Hns). apply (Forget_read_seen _ _ _ _ _ Hm Hm'). intros ref. symmetry. apply Apply_versions.
    assert (ns ∈ reading) as Hin by (apply Hr; by eexists). apply Hapart; [done|]. by intros ->.
  - destruct Hes as [Href Hes]. eapply IH; [exact Hes|]. split; cbn [pending tables_of project_tables]; [done| | |].
    + intros ns'. rewrite lookup_insert_is_Some', elem_of_union, elem_of_singleton, Hr. naive_solver.
    + intros ns'. rewrite elem_of_union, elem_of_singleton. intros [->|?]; auto.
    + intros ns' existing [(<- & <-)|[_ Hns]]%lookup_insert_Some; [done|by apply Hseen].
  - destruct Hes as (Hin & Hapart & Hes). eapply IH; [exact Hes|]. cbn [project_tables project_rows].
    destruct (proj2 (Hr ns) Hin) as [existing Hns]. rewrite Hns.
    rewrite (Forget_write_seen _ _ _ ns (Hseen _ _ Hns)).
    pose proof (Forget_mirrors _ _ ns (Hrefs _ Hin) Hm) as Hm'.
    split; cbn [pending tables_of]; [exact Hm'| | |].
    + intros ns'. rewrite lookup_delete_is_Some, elem_of_difference, elem_of_singleton, Hr. naive_solver.
    + intros ns' [? _]%elem_of_difference. by apply Hrefs.
    + intros ns' existing' [Hne Hns']%lookup_delete_Some. rewrite (Hseen _ _ Hns').
      apply (Forget_read_seen _ _ _ _ _ Hm Hm'). intros ref. symmetry. apply (Forget_versions _ m); [done|].
      apply Hapart; [apply Hr; by eexists|done].
  - eapply IH; [exact Hes|]. pose proof (Claim_mirrors _ _ ns now ttl Hm) as Hm'.
    split; cbn [pending tables_of project_tables]; [exact Hm'|done|done|].
    intros ns' existing Hns. rewrite (Hseen _ _ Hns). apply (Forget_read_seen _ _ _ _ _ Hm Hm'). intros ref.
    unfold ClaimVersionCheck. by repeat case_match.
Qed.

Lemma project_mirrors es :
  unraced ∅ es → mirrors (tables_of (foldl project_tables no_projecting es)) (foldl project_rows ∅ es).
Proof.
  intros Hes. apply (keeps_up_project es no_projecting ∅ ∅); [done|].
  split; cbn [pending tables_of no_projecting]; [apply no_tables_mirrors| |set_solver|].
  - intros ns. rewrite lookup_empty. split; [by intros []|set_solver].
  - intros ns existing. by rewrite lookup_empty.
Qed.

(** What [ResolveCatalogued] may answer for [ns] over the rows [m] *)
Definition preferred_row (m : rows) (bare : string) (ns : Namespace) : Prop :=
  BareNamespace ns = bare ∧ ∃ a, m !! ns = Some a ∧
  ∀ ns' a', m !! ns' = Some a' → BareNamespace ns' = bare →
    cmp_then (bool_cmp (UserInstalled a') (UserInstalled a))
      (cmp_then (Z.compare (unix (InstalledAt a')) (unix (InstalledAt a)))
         (String.compare (Ref ns') (Ref ns))) ≠ Gt.

Definition named_row (m : rows) (ns found : Namespace) : Prop :=
  ∃ a, m !! found = Some a ∧ BareNamespace found = BareNamespace ns ∧
    (found = ns ∨ arrow_kind a = SelectorCommit ∧ equal_fold (Ref found) (Ref ns) = true).

Lemma findVersionRef_spec vs ns :
  match findVersionRef vs ns with
  | Some v => v ∈ vs ∧ (ref_namespace v = ns ∨ sameCommitSelector v ns = true)
  | None => ∀ v, v ∈ vs → ref_namespace v ≠ ns ∧ sameCommitSelector v ns = false
  end.
Proof.
  induction vs as [|v vs IH]; simpl; [by intros v ?%not_elem_of_nil|].
  destruct (String.eqb_spec (ref_namespace v) ns) as [He|He]; simpl.
  { split; [apply list_elem_of_here|by left]. }
  destruct (sameCommitSelector v ns) eqn:Hs; simpl.
  { split; [apply list_elem_of_here|by right]. }
  destruct (findVersionRef vs ns) as [w|].
  - destruct IH. split; [by apply list_elem_of_further|done].
  - intros w [->|?]%elem_of_cons; [done|by apply IH].
Qed.

Lemma first_version_preferred t m bare ref r l :
  base t m → version_rows t bare = (ref, r) :: l → preferred_row m bare (arrow_namespace (manifest r)).
Proof.
  intros Hb Hl. destruct (preferred_first _ _ _ _ _ Hl) as [Hr Hfirst].
  destruct (base_row _ _ Hb _ _ _ Hr) as (_ & Hbare & Href & Hm & Hi & Hu).
  split; [done|]. exists (manifest r). split; [done|]. intros ns' a' Ha' Hns'.
  destruct (base_arrow _ _ Hb _ _ Ha') as [_ (r' & Hr' & <-)]. rewrite Hns' in Hr'.
  specialize (Hfirst _ _ Hr'). unfold versionOrder in Hfirst. simpl in Hfirst.
  destruct (base_row _ _ Hb _ _ _ Hr') as (_ & _ & _ & _ & Hi' & Hu').
  by rewrite Hi, Hu, Hi', Hu' in Hfirst; rewrite Href.
Qed.

Lemma findVersionRef_named t m ns :
  base t m →
  match findVersionRef (loadVersions t (BareNamespace ns)) ns with
  | Some v => named_row m ns (ref_namespace v)
  | None => ∀ found, ¬ named_row m ns found
  end.
Proof.
  intros Hb. pose proof (findVersionRef_spec (loadVersions t (BareNamespace ns)) ns) as H.
  destruct (findVersionRef _ ns) as [v|].
  - destruct H as [Hin Hv]. destruct (loadVersions_base t m _ v Hb Hin) as [(_ & Hbare & _) Hm].
    exists (Metadata v). split; [done|]. split; [done|]. destruct Hv as [?|Hv]; [by left|right].
    unfold sameCommitSelector in Hv. by bool_simpl.
  - intros found (a & Ha & Hbare & Hf).
    destruct (base_loaded t m found a Hb Ha) as (v & Hin & Hv & Hmeta). rewrite Hbare in Hin.
    destruct (H v Hin) as [Hne Hs]. unfold sameCommitSelector in Hs. rewrite Hv, Hmeta in Hs.
    destruct Hf as [->|[Hk He]]; [done|]. by rewrite Hk, He, bool_decide_true in Hs.
Qed.

Lemma ResolveCatalogued_spec t m ns :
  mirrors t m →
  match ResolveCatalogued t ns with
  | Ok found => if String.eqb (Ref ns) "" then preferred_row m (BareNamespace ns) found
                else named_row m ns found
  | Err e => e = [ErrNotFound] ∧
      if String.eqb (Ref ns) "" then ∀ ns' a, m !! ns' = Some a → BareNamespace ns' ≠ BareNamespace ns
      else ∀ found, ¬ named_row m ns found
  end.
Proof.
  intros Hmir. pose proof Hmir as [Hb _]. unfold ResolveCatalogued.
  destruct (FindByKey t (BareNamespace ns)) as [vm|] eqn:Hf.
  - destruct (FindByKey_Some _ _ _ _ Hmir Hf) as (_ & -> & Hne & _).
    pose proof (findVersionRef_named t m ns Hb) as Hfound.
    destruct (loadVersions t (BareNamespace ns)) as [|v vs] eqn:Hl.
    { pose proof (FindByKey_Some _ _ _ _ Hmir Hf) as (_ & He & Hn & _). by rewrite He, Hl in Hn. }
    destruct (String.eqb (Ref ns) "").
    + unfold loadVersions in Hl. destruct (version_rows t _) as [|[ref r] l] eqn:Hv; [done|].
      injection Hl as <- _. simpl. by eapply first_version_preferred.
    + by destruct (findVersionRef (v :: vs) ns).
  - pose proof (FindByKey_None _ _ _ Hmir Hf) as Hn. split; [done|].
    destruct (String.eqb (Ref ns) ""); [done|]. intros found (a & Ha & Hbare & _).
    by apply (Hn found a).
Qed.

(** C18. The read model mirrors the aggregates.  After any history of projections that
    succeed, in the order they commit, in which rows are written and claimed for a check, and
    forgotten by a read and a later write between which no version of the same namespace is
    written (claims, and the writes and forgets of other namespaces, may come there), the
    tables hold exactly the rows the events left, each with the platforms of its targets, and
    the parent row, the tags and the search entry of a namespace are those of its preferred
    version, and are there exactly when it has one.  A refless namespace resolves to that
    version, the one the user installed first, then the one installed last; one with a ref to
    its own row, or to a commit's row spelled in another case; and nothing is found only when
    there is no such row. *)
Theorem read_model_mirrors es :
  unraced ∅ es →
  let t := tables_of (foldl project_tables no_projecting es) in
  let m := foldl project_rows ∅ es in
  mirrors t m ∧
  ∀ ns, match ResolveCatalogued t ns with
        | Ok found => if String.eqb (Ref ns) "" then preferred_row m (BareNamespace ns) found
                      else named_row m ns found
        | Err e => e = [ErrNotFound] ∧
            if String.eqb (Ref ns) "" then ∀ ns' a, m !! ns' = Some a → BareNamespace ns' ≠ BareNamespace ns
            else ∀ found, ¬ named_row m ns found
        end.
Proof.
  intros Hes t m. assert (mirrors t m) as Hm by by apply project_mirrors.
  split; [done|]. intros ns. by apply ResolveCatalogued_spec.
Qed.

Definition sample_row (ns : Namespace) (user : bool) (at_ : option Z) (kind : SelectorKind) : Arrow :=
  mkArrow ns no_meta [] [] [] "" at_ user None kind (mkResolved "" "" "") None.

(** A forget between whose transactions a check is claimed and another row written *)
Definition sample_history : list projected :=
  [Applied (sample_row "h/u/app@v1" false (Some (9 * second)%Z) SelectorTagPin);
   Applied (sample_row "h/u/app@stable" true None SelectorOrderedChannel);
   Applied (sample_row "h/u/app@v2" true None SelectorTagPin);
   ForgetReads "h/u/app@v2";
   Claimed "h/u/app@v1" (7200 * second)%Z (3600 * second)%Z;
   Applied (sample_row "h/u/other@v1" true None SelectorTagPin);
   ForgetWrites "h/u/app@v2"].

Lemma read_model_mirrors_witness :
  unraced ∅ sample_history ∧
  ResolveCatalogued (tables_of (foldl project_tables no_projecting sample_history)) "h/u/app" = Ok "h/u/app@stable" ∧
  preferred_row (foldl project_rows ∅ sample_history) "h/u/app" "h/u/app@stable".
Proof.
  assert (unraced ∅ sample_history) as H.
  { assert (∀ ns (P : Namespace → Prop), P ns → ∀ ns', ns' ∈ ({[ns]} ∪ ∅ : gset Namespace) → P ns') as Hone by set_solver.
    cbn [unraced sample_history]. split_and!; try (vm_compute; discriminate); try set_solver.
    all: unfold apart; apply Hone; vm_compute; congruence. }
  assert (ResolveCatalogued (tables_of (foldl project_tables no_projecting sample_history)) "h/u/app" =
    Ok "h/u/app@stable") as Hr by (vm_compute; reflexivity).
  split; [exact H|]. split; [exact Hr|].
  pose proof (proj2 (read_model_mirrors sample_history H) "h/u/app") as Hs. rewrite Hr in Hs. exact Hs.
Defined.

(** ** Where the code falls short of what it says *)

(** Forgetting one version of a namespace saves the others anew, which forgets when
    they were last checked. *)
Lemma forget_resets_checks :
  let t := tables_of (foldl project_tables no_projecting
    [Applied (sample_row "h/u/app@v1" true None SelectorTagPin);
     Applied (sample_row "h/u/app@v2" true None SelectorTagPin);
     Claimed "h/u/app@v1" (7200 * second)%Z (3600 * second)%Z]) in
  last_version_check_at t !! ("h/u/app", "v1") = Some 7200%Z ∧
  last_version_check_at (Forget_write t (Forget_read t "h/u/app@v2") "h/u/app@v2") !! ("h/u/app", "v1") = Some 0%Z.
Proof. vm_compute. split; reflexivity. Qed.

(** The projector reads the versions and saves them in two transactions: a version
    another subscriber saved in between is lost. *)
Lemma forget_loses_version :
  let t p := tables_of (foldl project_tables no_projecting p) in
  let history := [Applied (sample_row "h/u/app@v1" true None SelectorTagPin);
     Applied (sample_row "h/u/app@v2" true None SelectorTagPin); ForgetReads "h/u/app@v2";
     Applied (sample_row "h/u/app@v3" true None SelectorTagPin)] in
  ResolveCatalogued (t history) "h/u/app@v3" = Ok "h/u/app@v3" ∧
  ResolveCatalogued (t (history ++ [ForgetWrites "h/u/app@v2"])) "h/u/app@v3" = Err [ErrNotFound].
Proof. vm_compute. split; reflexivity. Qed.

(** A commit's row spelled in another case is found before the row of that very name. *)
Lemma commit_shadows_row :
  let t := tables_of (foldl project_tables no_projecting
    [Applied (sample_row "h/u/app@ABCDEF1" false None SelectorTagPin);
     Applied (sample_row "h/u/app@abcdef1" true None SelectorCommit)]) in
  ResolveCatalogued t "h/u/app@ABCDEF1" = Ok "h/u/app@abcdef1".
Proof. vm_compute. reflexivity. Qed.
