(* ===== verification/Netbridge.v ===== *)
(** * Port allocation (internal/engine/netbridge)

    A port is an aggregate, written by two commands through the store of events
    (internal/commands); a read model is projected from their events
    (internal/projections, internal/store).  The service looks for a port both the
    read model and the operating system leave free, forwards it through the router
    (internal/strategies) and records it.  Its operations are programs of calls; the
    machine they run on is a store, a read model, and the events not projected yet. *)

From S2P Require Import Prelude Errors GoStrings Manifest Prog.

(** ** The aggregate and its commands (internal/ports, internal/commands) *)

Record PortAllocation := mkAllocation {
  Port : Z;
  alloc_protocol : Protocol;
  OwnerKey : string;
  Forwarded : bool;
}.

#[export] Instance PortAllocation_eq_dec : EqDecision PortAllocation.
Proof. solve_decision. Defined.

(** The zero value *)
Definition unallocated : PortAllocation := mkAllocation 0 (ProtocolOther "") "" false.

Inductive command :=
| AllocatePort (port : Z) (protocol : Protocol) (owner : string) (forwarded : bool)
| DeallocatePort (port : Z).

Definition AggregateID (c : command) : string :=
  match c with AllocatePort port _ _ _ => itoa port | DeallocatePort port => itoa port end.

Inductive event_name := PortAllocated | PortDeallocated.

Definition EventName (c : command) : event_name :=
  match c with AllocatePort _ _ _ _ => PortAllocated | DeallocatePort _ => PortDeallocated end.

(** Whether the command is valid against the current state, [None] being no aggregate *)
Definition Validate (c : command) (current : option PortAllocation) : bool :=
  match c, current with
  | AllocatePort _ _ _ _, Some a => Z.eqb (Port a) 0
  | AllocatePort _ _ _ _, None => true
  | DeallocatePort _, Some _ => true
  | DeallocatePort _, None => false
  end.

Definition EmitEvent (c : command) : PortAllocation :=
  match c with
  | AllocatePort port protocol owner forwarded => mkAllocation port protocol owner forwarded
  | DeallocatePort _ => unallocated
  end.

(** What the store publishes once a command is persisted *)
Record port_event := mkEvent {
  Name : event_name;
  Aggregate : PortAllocation;
  PreviousAggregate : PortAllocation;
}.

(** ** The read model (internal/store, internal/projections) *)

Abbreviation read_model := (gmap Z PortAllocation).

Definition Save (rm : read_model) (item : PortAllocation) : read_model := <[Port item := item]> rm.
Definition Delete (rm : read_model) (id : Z) : read_model := delete id rm.
Definition FindByKey (rm : read_model) (id : Z) : option PortAllocation := rm !! id.
Definition FindAll (rm : read_model) : list PortAllocation := (map_to_list rm).*2.

Definition HandlePortEvent (evt : port_event) (rm : read_model) : read_model :=
  match Name evt with
  | PortAllocated => Save rm (Aggregate evt)
  | PortDeallocated => Delete rm (Port (PreviousAggregate evt))
  end.

(** ** The calls *)

Inductive Strategy := UPnP | NATPMP.

#[export] Instance Strategy_eq_dec : EqDecision Strategy.
Proof. solve_decision. Defined.

Inductive call :=
(* the read model *)
| RowAt (port : Z)
| AllRows
| SaveRow (item : PortAllocation)
(* the store of aggregates *)
| GetPort (id : string)
| SendPort (c : command)
| WaitPublish
(* the operating system: net.Listen and net.ListenPacket on every address *)
| Listen (network : string) (port : Z)
(* the discovery that is, or is not, over within the wait *)
| Discovered
(* the router: the gateway, its NAT-PMP client, its UPnP devices *)
| DiscoverGateway
| GetExternalAddress
| AddNATMapping (protocol : string) (internal external lifetime : Z)
| DiscoverIGDs
| LocalIP
| AddUPnPMapping (external : Z) (protocol : string) (internal : Z) (client : string) (lease : Z)
| DeleteUPnPMapping (external : Z) (protocol : string).

Definition answer (c : call) : Type :=
  match c with
  | RowAt _ => result error (option PortAllocation)
  | AllRows => result error (list PortAllocation)
  | SaveRow _ => result error unit
  | GetPort _ => result error PortAllocation
  | SendPort _ => result error unit
  | WaitPublish => unit
  | Listen _ _ => bool
  | Discovered => option (list Strategy)
  | DiscoverGateway | GetExternalAddress | AddNATMapping _ _ _ _ => result error unit
  | DiscoverIGDs => result error nat
  | LocalIP => result error string
  | AddUPnPMapping _ _ _ _ _ | DeleteUPnPMapping _ _ => result error unit
  end.

Abbreviation P := (prog answer).

(** [FindByOwner] of internal/store/port_store.go *)
Definition FindByOwner (owner : string) : P (result error (list PortAllocation)) :=
  bind_ok (ask AllRows : P (result error (list PortAllocation))) (λ all,
    mret (Ok (filter (λ a, OwnerKey a = owner) all))).

(** ** The strategies (internal/strategies) *)

Definition natpmpProtocols (p : Protocol) : list string :=
  match p with
  | ProtocolTCP => ["tcp"]
  | ProtocolUDP => ["udp"]
  | ProtocolTCPUDP => ["tcp"; "udp"]
  | ProtocolOther _ => []
  end.

Definition upnpProtocols (p : Protocol) : list string :=
  match p with
  | ProtocolTCP => ["TCP"]
  | ProtocolUDP => ["UDP"]
  | ProtocolTCPUDP => ["TCP"; "UDP"]
  | ProtocolOther _ => []
  end.

(** [for _, x := range xs { if err := f(x); err != nil { return err } }] *)
Fixpoint for_each {A} (f : A → P (result error unit)) (xs : list A) : P (result error unit) :=
  match xs with
  | [] => mret (Ok ())
  | x :: xs' => bind_ok (f x) (λ _, for_each f xs')
  end.

Definition natpmp_mapping (port lifetime : Z) (protocol : Protocol) : P (result error unit) :=
  bind_ok (ask DiscoverGateway : P (result error unit)) (λ _,
    for_each (λ proto, ask (AddNATMapping proto port port lifetime) : P (result error unit))
      (natpmpProtocols protocol)).

Definition natpmp_Forward (port : Z) : Protocol → P (result error unit) :=
  natpmp_mapping port 3600.

Definition natpmp_Reverse (port : Z) : Protocol → P (result error unit) :=
  natpmp_mapping port 0.

Definition natpmp_Available : P bool :=
  gw ← (ask DiscoverGateway : P (result error unit));
  match gw with
  | Err _ => mret false
  | Ok _ =>
    r ← (ask GetExternalAddress : P (result error unit));
    mret (is_ok r)
  end.

(** Go's conversion to [uint16] *)
Definition uint16 (n : Z) : Z := n `mod` 65536.

Definition upnp_in_range (port : Z) : bool := Z.leb 1 port && Z.leb port 65535.

Definition upnp_Forward (port : Z) (protocol : Protocol) : P (result error unit) :=
  bind_ok (ask DiscoverIGDs : P (result error nat)) (λ igds,
    if Nat.eqb igds 0 then mret (Err [ErrNoIGD])
    else bind_ok (ask LocalIP : P (result error string)) (λ ip,
      if negb (upnp_in_range port) then mret (Err [])
      else for_each (λ proto,
             ask (AddUPnPMapping (uint16 port) proto (uint16 port) ip 3600) : P (result error unit))
             (upnpProtocols protocol))).

Definition upnp_Reverse (port : Z) (protocol : Protocol) : P (result error unit) :=
  bind_ok (ask DiscoverIGDs : P (result error nat)) (λ igds,
    if Nat.eqb igds 0 then mret (Err [ErrNoIGD])
    else if negb (upnp_in_range port) then mret (Err [])
    else for_each (λ proto, ask (DeleteUPnPMapping (uint16 port) proto) : P (result error unit))
           (upnpProtocols protocol)).

Definition upnp_Available : P bool :=
  r ← (ask DiscoverIGDs : P (result error nat));
  match r with
  | Err _ => mret false
  | Ok igds => mret (Nat.ltb 0 igds)
  end.

Definition Forward (s : Strategy) : Z → Protocol → P (result error unit) :=
  match s with UPnP => upnp_Forward | NATPMP => natpmp_Forward end.

Definition Reverse (s : Strategy) : Z → Protocol → P (result error unit) :=
  match s with UPnP => upnp_Reverse | NATPMP => natpmp_Reverse end.

Definition Available (s : Strategy) : P bool :=
  match s with UPnP => upnp_Available | NATPMP => natpmp_Available end.

(** The discovery [Build] starts when it is given no strategies (builder.go) *)
Fixpoint probe_strategies (all : list Strategy) : P (list Strategy) :=
  match all with
  | [] => mret []
  | s :: all' =>
    ok ← Available s;
    active ← probe_strategies all';
    mret (if ok : bool then s :: active else active)
  end.

Definition discoverStrategies (forwarding : bool) (given : option (list Strategy))
  : P (list Strategy) :=
  if negb forwarding then mret []
  else match given with
       | Some l => mret l
       | None => probe_strategies [UPnP; NATPMP]
       end.

(** ** Looking for a port (allocation.go) *)

Definition osBindTest (port : Z) (protocol : Protocol) : P bool :=
  tcp ← (if bool_decide (protocol = ProtocolTCP ∨ protocol = ProtocolTCPUDP)
         then (ask (Listen "tcp" port) : P bool) else mret true);
  if negb tcp then mret false
  else if bool_decide (protocol = ProtocolUDP ∨ protocol = ProtocolTCPUDP)
       then (ask (Listen "udp" port) : P bool) else mret true.

Definition isPortAvailable (port : Z) (protocol : Protocol) : P (result error bool) :=
  bind_ok (ask (RowAt port) : P (result error (option PortAllocation))) (λ alloc,
    match alloc with
    | Some _ => mret (Ok false)
    | None => ok ← osBindTest port protocol; mret (Ok ok)
    end).

(** The loop over the range *)
Fixpoint scan (candidates : list Z) (protocol : Protocol) : P (result error Z) :=
  match candidates with
  | [] => mret (Err [ErrNoPortAvailable])
  | candidate :: rest =>
    bind_ok (isPortAvailable candidate protocol) (λ ok : bool,
      if ok then mret (Ok candidate) else scan rest protocol)
  end.

(** [portStart], ..., [portEnd] *)
Definition port_range (portStart portEnd : Z) : list Z := seqZ portStart (portEnd - portStart + 1).

Definition findAvailablePort (preferred portStart portEnd : Z) (protocol : Protocol)
  : P (result error Z) :=
  if negb (Z.eqb preferred 0) && (Z.ltb preferred 1 || Z.ltb 65535 preferred)
  then mret (Err [ErrPortOutOfRange])
  else if Z.ltb 0 preferred
  then bind_ok (isPortAvailable preferred protocol) (λ ok : bool,
         if ok then mret (Ok preferred) else scan (port_range portStart portEnd) protocol)
  else scan (port_range portStart portEnd) protocol.

(** ** The service (netbridge.go) *)

(** The fields [mu] guards, and the range *)
Record netbridgeService := mkService {
  strats : list Strategy;
  stratsReady : bool;
  portStart : Z;
  portEnd : Z;
}.

(** [resolvePortRange] of builder.go, the configured range being an argument *)
Definition resolvePortRange (given configured : Z * Z) : Z * Z :=
  if Z.ltb 0 given.1 && Z.ltb 0 given.2 then given else configured.

Definition newNetbridge (range : Z * Z) : netbridgeService := mkService [] false range.1 range.2.

Definition resolveStrategies (n : netbridgeService) : P (list Strategy * netbridgeService) :=
  if stratsReady n then mret (strats n, n)
  else
    found ← (ask Discovered : P (option (list Strategy)));
    match found with
    | Some l => mret (l, mkService l true (portStart n) (portEnd n))
    | None => mret ([], n)
    end.

(** Whether some strategy forwarded the port: the first that does is the last tried *)
Fixpoint forwardAny (ss : list Strategy) (port : Z) (protocol : Protocol) : P bool :=
  match ss with
  | [] => mret false
  | s :: ss' =>
    r ← Forward s port protocol;
    if is_ok r then mret true else forwardAny ss' port protocol
  end.

Fixpoint reverseAll (ss : list Strategy) (port : Z) (protocol : Protocol) : P unit :=
  match ss with
  | [] => mret ()
  | s :: ss' => _ ← Reverse s port protocol; reverseAll ss' port protocol
  end.

Definition adoptIfClaimed (port : Z) : P bool :=
  r ← (ask (GetPort (itoa port)) : P (result error PortAllocation));
  match r with
  | Err _ => mret false
  | Ok current =>
    if Z.eqb (Port current) 0 then mret false
    else saved ← (ask (SaveRow current) : P (result error unit)); mret (is_ok saved)
  end.

Definition maxAllocateAttempts : nat := 64.

Fixpoint allocate_loop (attempts : nat) (n : netbridgeService) (owner : string)
  (protocol : Protocol) (preferred : Z) : P (result error Z * netbridgeService) :=
  match attempts with
  | O => mret (Err [ErrNoPortAvailable], n)
  | S attempts' =>
    found ← findAvailablePort preferred (portStart n) (portEnd n) protocol;
    match found with
    | Err e => mret (Err e, n)
    | Ok port =>
      claimed ← adoptIfClaimed port;
      if claimed : bool then allocate_loop attempts' n owner protocol preferred
      else
        '(ss, n') ← resolveStrategies n;
        forwarded ← forwardAny ss port protocol;
        sent ← (ask (SendPort (AllocatePort port protocol owner forwarded)) : P (result error unit));
        match sent with
        | Err e => mret (Err e, n')
        | Ok _ =>
          _ ← (ask WaitPublish : P unit);
          mret (Ok port, n')
        end
    end
  end.

Definition Allocate : netbridgeService → string → Protocol → Z → P (result error Z * netbridgeService) :=
  allocate_loop maxAllocateAttempts.

(** The loop over the owner's rows, to the first command that fails *)
Fixpoint deallocate_loop (n : netbridgeService) (allocations : list PortAllocation)
  : P (result error unit * netbridgeService) :=
  match allocations with
  | [] => mret (Ok (), n)
  | alloc :: rest =>
    '(ss, n') ← resolveStrategies n;
    _ ← reverseAll ss (Port alloc) (alloc_protocol alloc);
    sent ← (ask (SendPort (DeallocatePort (Port alloc))) : P (result error unit));
    match sent with
    | Err e => mret (Err e, n')
    | Ok _ => deallocate_loop n' rest
    end
  end.

Definition DeallocateByOwner (n : netbridgeService) (owner : string)
  : P (result error unit * netbridgeService) :=
  found ← FindByOwner owner;
  match found with
  | Err e => mret (Err e, n)
  | Ok allocations =>
    '(r, n') ← deallocate_loop n allocations;
    match r with
    | Err e => mret (Err e, n')
    | Ok _ => _ ← (ask WaitPublish : P unit); mret (Ok (), n')
    end
  end.

(** ** The machine *)

(** The aggregates by id, what the store has yet to publish of each, in order, and
    the read model *)
Record state := mkState {
  aggs : gmap string PortAllocation;
  queue : gmap string (list port_event);
  rows : read_model;
}.

Definition queued (s : state) (id : string) : list port_event := default [] (queue s !! id).

Definition set_rows (s : state) (r : read_model) : state := mkState (aggs s) (queue s) r.

(** Persisting an accepted command *)
Definition commit (c : command) (s : state) : state :=
  let id := AggregateID c in
  mkState (<[id := EmitEvent c]> (aggs s))
    (<[id := queued s id ++
        [mkEvent (EventName c) (EmitEvent c) (default unallocated (aggs s !! id))]]> (queue s))
    (rows s).

(** A projection runs between any two calls; the error of a write of its is dropped. *)
Inductive projects : state → state → Prop :=
| projected s id e q : queue s !! id = Some (e :: q) →
    projects s (mkState (aggs s) (<[id := q]> (queue s)) (HandlePortEvent e (rows s)))
| projection_lost s id e q : queue s !! id = Some (e :: q) →
    projects s (mkState (aggs s) (<[id := q]> (queue s)) (rows s)).

Definition served_send (s : state) (c : command) (r : result error unit) (s' : state) : Prop :=
  if Validate c (aggs s !! AggregateID c) then
    match r with
    | Ok _ => s' = commit c s
    | Err _ => s' = s ∨ s' = commit c s
    end
  else s' = s ∧ r = Err [ErrAxValidation].

Definition served (s : state) (c : call) : answer c → state → Prop :=
  match c with
  | RowAt p => λ (r : result error (option PortAllocation)) s', s' = s ∧
      match r with Ok o => o = FindByKey (rows s) p | Err _ => True end
  | AllRows => λ (r : result error (list PortAllocation)) s', s' = s ∧
      match r with Ok l => l ≡ₚ FindAll (rows s) | Err _ => True end
  | SaveRow a => λ (r : result error unit) s',
      match r with Ok _ => s' = set_rows s (Save (rows s) a) | Err _ => s' = s end
  | GetPort id => λ (r : result error PortAllocation) s', s' = s ∧
      match r with Ok a => aggs s !! id = Some a | Err _ => True end
  | SendPort c => λ r s', served_send s c r s'
  | WaitPublish => λ _ s', rtc projects s s' ∧ ∀ id, queued s' id = []
  | _ => λ _ s', s' = s
  end.

(** A run of a program to its end, and one that is cut short *)
Fixpoint exec {A} (s : state) (p : P A) (a : A) (s' : state) : Prop :=
  match p with
  | Return a' => a = a' ∧ rtc projects s s'
  | Call c k => ∃ s1 r s2, rtc projects s s1 ∧ served s1 c r s2 ∧ exec s2 (k r) a s'
  end.

Fixpoint crashes {A} (s : state) (p : P A) (s' : state) : Prop :=
  rtc projects s s' ∨
  match p with
  | Return _ => False
  | Call c k => ∃ s1 r s2, rtc projects s s1 ∧ served s1 c r s2 ∧ crashes s2 (k r) s'
  end.

(** What the daemon runs, one at a time: [mu] is held from the first call to the last. *)
Inductive operation (n : netbridgeService) : P (result error Z * netbridgeService) → Prop :=
| op_allocate owner protocol preferred : operation n (Allocate n owner protocol preferred)
| op_deallocate owner : operation n
    ('(r, n') ← DeallocateByOwner n owner; mret (match r with Ok _ => Ok 0%Z | Err e => Err e end, n')).

(** A restart publishes nothing of what was queued, and an in-memory read model starts
    empty. *)
Inductive reachable : netbridgeService → state → Prop :=
| reach_initial range : (1 ≤ range.1)%Z → reachable (newNetbridge range) (mkState ∅ ∅ ∅)
| reach_operation n s p r n' s' : reachable n s → operation n p → exec s p (r, n') s' →
    reachable n' s'
| reach_restart n s p s' range rows' : reachable n s → operation n p → crashes s p s' →
    (1 ≤ range.1)%Z → rows' = rows s' ∨ rows' = ∅ →
    reachable (newNetbridge range) (mkState (aggs s') ∅ rows').

(** The allocation a port has *)
Definition holder (a : gmap string PortAllocation) (p : Z) : option PortAllocation :=
  match a !! itoa p with
  | Some x => if Z.eqb (Port x) 0 then None else Some x
  | None => None
  end.

Definition live (s : state) : Z → option PortAllocation := holder (aggs s).

(** ** Reasoning about runs *)

(** Whatever the machine answers, a run that starts here keeps to [Inv] and ends in [Q]. *)
Fixpoint wp {A} (Inv : state → Prop) (s : state) (p : P A) (Q : A → state → Prop) : Prop :=
  (∀ s', rtc projects s s' → Inv s') ∧
  match p with
  | Return a => ∀ s', rtc projects s s' → Q a s'
  | Call c k => ∀ s1 r s2, rtc projects s s1 → served s1 c r s2 → wp Inv s2 (k r) Q
  end.

Lemma wp_exec {A} Inv s (p : P A) Q a s' : wp Inv s p Q → exec s p a s' → Q a s'.
Proof.
  revert s. induction p as [a'|c k IH]; intros s [_ Hw] He; simpl in *.
  - destruct He as [-> Hs]. by apply Hw.
  - destruct He as (s1 & r & s2 & H1 & H2 & He). eapply IH; [|exact He]. by eapply Hw.
Qed.

Lemma wp_crashes {A} Inv s (p : P A) Q s' : wp Inv s p Q → crashes s p s' → Inv s'.
Proof.
  revert s. induction p as [a'|c k IH]; intros s [Hi Hw] [Hr|He]; simpl in *; auto; [done|].
  destruct He as (s1 & r & s2 & H1 & H2 & He). eapply IH; [|exact He]. by eapply Hw.
Qed.

Lemma hoare_mono {A} Inv s (p : P A) (Q Q' : A → state → Prop) :
  wp Inv s p Q → (∀ a s', Q a s' → Q' a s') → wp Inv s p Q'.
Proof.
  revert s. induction p as [a|c k IH]; intros s [Hi Hw] HQ; simpl in *; (split; [done|]).
  - auto.
  - intros s1 r s2 H1 H2. eapply IH; eauto.
Qed.

Lemma hoare_bind {A B} Inv s (p : P A) (f : A → P B) Q :
  wp Inv s p (λ a s', wp Inv s' (f a) Q) → wp Inv s (p ≫= f) Q.
Proof.
  revert s. induction p as [a|c k IH]; intros s [Hi Hw].
  - simpl. by apply Hw.
  - split; [done|]. intros s1 r s2 H1 H2. apply IH. by eapply Hw.
Qed.

Definition stable (I : state → Prop) : Prop := ∀ s s', projects s s' → I s → I s'.

Lemma stable_rtc I s s' : stable I → rtc projects s s' → I s → I s'.
Proof. intros HI Hs. induction Hs; eauto. Qed.

Lemma hoare_ret {A} (Inv I : state → Prop) s (a : A) (Q : A → state → Prop) :
  stable I → I s → (∀ s', I s' → Inv s') → (∀ s', I s' → Q a s') → wp Inv s (mret a) Q.
Proof.
  intros HI Hs Hi HQ. split; intros s' Hr; [apply Hi|apply HQ]; by eapply stable_rtc.
Qed.

Lemma hoare_call {A} (Inv I : state → Prop) s c (f : answer c → P A) Q :
  stable I → I s → (∀ s', I s' → Inv s') →
  (∀ s1 r s2, I s1 → served s1 c r s2 → wp Inv s2 (f r) Q) →
  wp Inv s (ask c ≫= f) Q.
Proof.
  intros HI Hs Hi Hf. split; [intros s' Hr; apply Hi; by eapply stable_rtc|].
  intros s1 r s2 Hr Hsv. eapply Hf; [|exact Hsv]. by eapply stable_rtc.
Qed.

(** The calls that leave the machine as it was *)
Definition quiet (c : call) : Prop :=
  match c with SaveRow _ | SendPort _ | WaitPublish => False | _ => True end.

Lemma quiet_served s c r s' : quiet c → served s c r s' → s' = s.
Proof. destruct c; simpl; intros Hq Hs; by destruct Hs || done. Qed.

Lemma wp_quiet {A} (Inv I : state → Prop) s (p : P A) :
  stable I → I s → (∀ s', I s' → Inv s') → calls_only quiet p → wp Inv s p (λ _, I).
Proof.
  intros HI Hs Hi. revert s Hs. induction p as [a|c k IH]; intros s Hs Hp.
  - apply (hoare_ret Inv I); auto.
  - destruct Hp as [Hc Hk]. split; [intros s' Hr; apply Hi; by eapply stable_rtc|].
    intros s1 r s2 Hr Hsv. apply quiet_served in Hsv as ->; [|done].
    apply IH; [by eapply stable_rtc|apply Hk].
Qed.

(** ** The invariant *)

#[export] Instance itoa_inj : Inj (=) (=) itoa.
Proof. apply pretty_Z_inj. Qed.

(** The port an event is about; a second release of a port is about none. *)
Definition target (e : port_event) : Z :=
  match Name e with
  | PortAllocated => Port (Aggregate e)
  | PortDeallocated => Port (PreviousAggregate e)
  end.

Definition homed (p : Z) (e : port_event) : Prop :=
  target e = p ∨ Name e = PortDeallocated ∧ target e = 0%Z.

(** What is queued about a port *)
Definition about (p : Z) (l : list port_event) : list port_event := filter (λ e, target e = p) l.

(** The read model of a port, against its aggregate and what is queued about it: a
    live allocation is the only one the row may show or be about to show, and the row of a
    port that is free shows it until its release is published. *)
Definition consistent (p : Z) (a row : option PortAllocation) (pend : list port_event) : Prop :=
  (∀ x, row = Some x → Port x = p) ∧
  match a with
  | Some a => Port a = p ∧ (row = None ∨ row = Some a) ∧
      Forall (λ e, Name e = PortAllocated ∧ Aggregate e = a) pend
  | None => pend = [] ∨ row ≠ None ∧ ∃ l d, pend = l ++ [d] ∧ Name d = PortDeallocated ∧
      Forall (λ e, Name e = PortAllocated) l
  end.

(** What an event makes of the row it is about *)
Definition shown (e : port_event) : option PortAllocation :=
  match Name e with PortAllocated => Some (Aggregate e) | PortDeallocated => None end.

Lemma consistent_lost p a row e pend :
  consistent p a row (e :: pend) → consistent p a row pend.
Proof.
  intros [Hp H]. split; [done|]. destruct a as [a|].
  - destruct H as (Ha & Hr & Hf). apply Forall_cons in Hf as [_ Hf]. done.
  - destruct H as [?|(Hr & l & d & Hl & Hd & Hf)]; [done|].
    destruct l as [|e' l]; simplify_eq/=; [by left|right].
    apply Forall_cons in Hf as [_ Hf]. eauto 6.
Qed.

Lemma consistent_projected p a row e pend :
  target e = p → consistent p a row (e :: pend) → consistent p a (shown e) pend.
Proof.
  unfold target, shown. intros Ht [Hp H]. destruct a as [a|].
  - destruct H as (Ha & Hr & Hf). apply Forall_cons in Hf as [[Hn He] Hf]. rewrite Hn, He.
    split; [by intros x [= ->]|]. auto.
  - destruct H as [?|(Hr & l & d & Hl & Hd & Hf)]; [done|].
    destruct l as [|e' l]; simplify_eq/=; [rewrite Hd; split; [done|by left]|].
    apply Forall_cons in Hf as [He Hf]. rewrite He in *.
    split; [by intros x [= <-]|]. right. split; [done|]. eauto.
Qed.

Record wf (s : state) : Prop := mkWf {
  wf_port p : consistent p (live s p) (rows s !! p) (about p (queued s (itoa p)));
  wf_homed p : Forall (homed p) (queued s (itoa p));
  wf_ids id e : e ∈ queued s id → ∃ p, (1 ≤ p)%Z ∧ id = itoa p;
  wf_rows p a : rows s !! p = Some a → (1 ≤ p)%Z;
}.

Lemma queued_insert s id q id' r :
  queued (mkState (aggs s) (<[id := q]> (queue s)) r) id' = if decide (id = id') then q else queued s id'.
Proof. unfold queued; simpl. rewrite lookup_insert. by case_decide. Qed.

(** Dropping the head of a queue, its event being projected or lost *)
Lemma wf_dequeue s id e q rows' :
  wf s → queue s !! id = Some (e :: q) →
  (rows' = HandlePortEvent e (rows s) ∨ rows' = rows s) →
  wf (mkState (aggs s) (<[id := q]> (queue s)) rows').
Proof.
  intros [Hport Hhome Hids Hrows] Hq Hr.
  assert (queued s id = e :: q) as Hqd by (unfold queued; by rewrite Hq).
  destruct (Hids id e) as (p0 & Hp0 & ->); [rewrite Hqd; left|].
  pose proof (Hhome p0) as Hh. rewrite Hqd in Hh. apply Forall_cons in Hh as [He Hh].
  assert (∀ p, p ≠ p0 → rows' !! p = rows s !! p) as Hother.
  { intros p Hp. destruct Hr as [->| ->]; [|done]. unfold HandlePortEvent, homed, target in *.
    destruct (Name e); [|destruct He as [He|[_ He]]].
    - unfold Save. destruct He as [He|[? _]]; [|done]. rewrite He. by apply lookup_insert_ne.
    - unfold Delete. rewrite He. by apply lookup_delete_ne.
    - unfold Delete. rewrite He. destruct (decide (p = 0%Z)) as [->|]; [|by apply lookup_delete_ne].
      rewrite lookup_delete_eq. destruct (rows s !! 0%Z) eqn:H0; [|done].
      by apply Hrows in H0. }
  assert (rows' !! p0 = rows s !! p0 ∨ target e = p0 ∧ rows' !! p0 = shown e) as Hhere.
  { destruct Hr as [->| ->]; [|by left]. unfold HandlePortEvent, shown.
    destruct He as [He|[Hn He]].
    - right. split; [done|]. unfold target in He. destruct (Name e); rewrite <- He.
      + apply lookup_insert_eq.
      + apply lookup_delete_eq.
    - left. unfold target in He. rewrite Hn in *. rewrite He. apply lookup_delete_ne. lia. }
  split.
  - intros p. rewrite queued_insert. change (live _ p) with (live s p). cbn [rows].
    case_decide as Hp; [apply itoa_inj in Hp as <-|].
    2: { rewrite Hother by congruence. apply Hport. }
    specialize (Hport p0). rewrite Hqd in Hport. unfold about in Hport.
    destruct Hhere as [->|[Ht ->]].
    + destruct (decide (target e = p0)).
      * rewrite filter_cons_True in Hport by done. by eapply consistent_lost.
      * by rewrite filter_cons_False in Hport.
    + rewrite filter_cons_True in Hport by done. by eapply consistent_projected.
  - intros p. rewrite queued_insert. case_decide as Hp; [by apply itoa_inj in Hp as <-|apply Hhome].
  - intros id e'. rewrite queued_insert. case_decide; [subst|apply Hids]. eauto.
  - cbn [rows]. intros p a Hp. destruct (decide (p = p0)) as [->|]; [done|].
    rewrite Hother in Hp by done. eauto.
Qed.

Lemma wf_stable : stable wf.
Proof. intros s s' [] Hw; eapply wf_dequeue; eauto. Qed.

Lemma projects_aggs s s' : projects s s' → aggs s' = aggs s.
Proof. by intros []. Qed.

Lemma projects_live s s' p : projects s s' → live s' p = live s p.
Proof. intros H. unfold live, holder. by rewrite (projects_aggs _ _ H). Qed.

Lemma wf_initial a r :
  (∀ p x, r !! p = Some x → (1 ≤ p)%Z ∧ Port x = p) →
  (∀ p x, live (mkState a ∅ r) p = Some x → Port x = p ∧ (r !! p = None ∨ r !! p = Some x)) →
  wf (mkState a ∅ r).
Proof.
  intros Hr Ha. assert (∀ id, queued (mkState a ∅ r) id = []) as Hq.
  { intros id. unfold queued; simpl. by rewrite lookup_empty. }
  split; try (intros p; rewrite Hq).
  - split; [intros x Hx; by apply Hr|]. destruct (live _ p) eqn:Hl; [|by left].
    apply Ha in Hl as [??]. done.
  - done.
  - intros e He. by apply not_elem_of_nil in He.
  - cbn [rows]. intros p x Hp. by apply Hr in Hp as [??].
Qed.

Lemma wf_restart s rows' : wf s → rows' = rows s ∨ rows' = ∅ → wf (mkState (aggs s) ∅ rows').
Proof.
  intros Hw Hr. apply wf_initial.
  - intros p x Hx. destruct Hr as [->| ->]; [|by rewrite lookup_empty in Hx].
    split; [by eapply wf_rows|]. by eapply (wf_port _ Hw p).
  - intros p x Hl. change (live _ p) with (live s p) in Hl.
    pose proof (wf_port _ Hw p) as [_ Hc]. rewrite Hl in Hc. destruct Hc as (Hp & Hrow & _).
    split; [done|]. destruct Hr as [->| ->]; [done|left; apply lookup_empty].
Qed.

Lemma live_commit c s p :
  live (commit c s) p =
    if decide (AggregateID c = itoa p) then
      if Z.eqb (Port (EmitEvent c)) 0 then None else Some (EmitEvent c)
    else live s p.
Proof. unfold live, holder; simpl. rewrite lookup_insert. by case_decide. Qed.

Lemma queued_commit c s id :
  queued (commit c s) id =
    if decide (AggregateID c = id) then
      queued s id ++ [mkEvent (EventName c) (EmitEvent c) (default unallocated (aggs s !! id))]
    else queued s id.
Proof.
  unfold queued at 1; simpl. rewrite lookup_insert. case_decide; [by subst|done].
Qed.

(** A command that keeps its port consistent keeps the machine well formed. *)
Lemma wf_commit c s p :
  wf s → AggregateID c = itoa p → (1 ≤ p)%Z →
  (let e := mkEvent (EventName c) (EmitEvent c) (default unallocated (aggs s !! itoa p)) in
   homed p e ∧
   consistent p (if Z.eqb (Port (EmitEvent c)) 0 then None else Some (EmitEvent c))
     (rows s !! p) (about p (queued s (itoa p) ++ [e]))) →
  wf (commit c s).
Proof.
  intros Hw Hid Hp [Hhome Hcon]. split.
  - intros q. rewrite live_commit, queued_commit, Hid. cbn [rows commit].
    case_decide as Hq; [apply itoa_inj in Hq as <-|apply (wf_port _ Hw)]. done.
  - intros q. rewrite queued_commit, Hid.
    case_decide as Hq; [apply itoa_inj in Hq as <-|apply (wf_homed _ Hw)].
    apply Forall_app. split; [apply (wf_homed _ Hw)|]. by constructor.
  - intros id e. rewrite queued_commit, Hid. case_decide as Hq; [subst; eauto|apply (wf_ids _ Hw)].
  - apply (wf_rows _ Hw).
Qed.

(** *** What holds when each command is sent *)

(** The port was found free of rows. *)
Definition unlisted (p : Z) (s : state) : Prop := live s p = None → rows s !! p = None.

(** The row was read, or its port has been released since. *)
Definition listed (a : PortAllocation) (s : state) : Prop :=
  live s (Port a) = None ∨ live s (Port a) = Some a ∧ rows s !! Port a = Some a.

Lemma projects_row s s' p :
  wf s → projects s s' →
  rows s' !! p = rows s !! p ∨
  ∃ e q, queued s (itoa p) = e :: q ∧ rows s' !! p = shown e ∧ (target e = p).
Proof.
  intros Hw Hs. destruct Hs as [s id e q Hq|s id e q Hq]; [|by left]. cbn [rows].
  assert (queued s id = e :: q) as Hqd by (unfold queued; by rewrite Hq).
  destruct (wf_ids _ Hw id e) as (p0 & Hp0 & ->); [rewrite Hqd; left|].
  pose proof (wf_homed _ Hw p0) as He. rewrite Hqd in He. apply Forall_cons in He as [He _].
  unfold HandlePortEvent, homed, target, shown, Save, Delete in *.
  destruct (decide (p = p0)) as [->|Hne].
  - destruct He as [He|[Hn He]].
    + right. exists e, q. split; [done|]. destruct (Name e); rewrite He; split; try done.
      * apply lookup_insert_eq.
      * apply lookup_delete_eq.
    + left. rewrite Hn in *. rewrite He. apply lookup_delete_ne. lia.
  - left. destruct He as [He|[Hn He]].
    + destruct (Name e); rewrite He; [by apply lookup_insert_ne|by apply lookup_delete_ne].
    + rewrite Hn in *. rewrite He. destruct (decide (p = 0%Z)) as [->|]; [|by apply lookup_delete_ne].
      rewrite lookup_delete_eq. destruct (rows s !! 0%Z) eqn:H0; [|done].
      by apply (wf_rows _ Hw) in H0.
Qed.

Lemma unlisted_stable p s s' : wf s → projects s s' → unlisted p s → unlisted p s'.
Proof.
  intros Hw Hs Hu Hl. rewrite (projects_live _ _ _ Hs) in Hl. specialize (Hu Hl).
  destruct (projects_row _ _ p Hw Hs) as [->|(e & q & Hq & _ & Ht)]; [done|].
  pose proof (wf_port _ Hw p) as [_ Hc]. rewrite Hl, Hu, Hq in Hc. unfold about in Hc.
  rewrite filter_cons_True in Hc by done. destruct Hc as [?|[? _]]; done.
Qed.

Lemma listed_stable a s s' : wf s → projects s s' → listed a s → listed a s'.
Proof.
  unfold listed. intros Hw Hs [Hl|[Hl Hr]]; rewrite (projects_live _ _ _ Hs); [by left|].
  right. split; [done|].
  destruct (projects_row _ _ (Port a) Hw Hs) as [->|(e & q & Hq & -> & Ht)]; [done|].
  pose proof (wf_port _ Hw (Port a)) as [_ Hc]. rewrite Hl, Hq in Hc. unfold about in Hc.
  rewrite filter_cons_True in Hc by done. destruct Hc as (_ & _ & Hf).
  apply Forall_cons in Hf as [[Hn He] _]. unfold shown. by rewrite Hn, He.
Qed.

Lemma live_aggs s s' p : aggs s' = aggs s → live s' p = live s p.
Proof. unfold live, holder. by intros ->. Qed.

Lemma live_none s p a : aggs s !! itoa p = Some a → live s p = None → Port a = 0%Z.
Proof. unfold live, holder. intros ->. by destruct (Z.eqb_spec (Port a) 0). Qed.

Lemma live_valid_allocate s port protocol owner forwarded :
  Validate (AllocatePort port protocol owner forwarded) (aggs s !! itoa port) = true ↔
  live s port = None.
Proof.
  unfold live, holder, Validate. destruct (aggs s !! itoa port) as [a|]; [|done].
  by destruct (Z.eqb (Port a) 0).
Qed.

(** The port, and nothing else, is given to the owner. *)
Definition granted (s0 : state) (port : Z) (protocol : Protocol) (owner : string) (s : state) : Prop :=
  (1 ≤ port)%Z ∧ live s0 port = None ∧
  ∃ forwarded, aggs s = <[itoa port := mkAllocation port protocol owner forwarded]> (aggs s0).

Lemma send_allocate s port protocol owner forwarded r s' :
  wf s → (1 ≤ port)%Z → unlisted port s →
  served_send s (AllocatePort port protocol owner forwarded) r s' →
  wf s' ∧ match r with
          | Ok _ => granted s port protocol owner s'
          | Err _ => aggs s' = aggs s ∨ granted s port protocol owner s'
          end.
Proof.
  intros Hw Hp Hu Hs. unfold served_send in Hs. cbn [AggregateID] in Hs.
  pose proof (live_valid_allocate s port protocol owner forwarded) as Hv.
  destruct (Validate _ _); [|by destruct Hs as [-> ->]; auto].
  assert (live s port = None) as Hl by (by apply Hv).
  set (c := AllocatePort port protocol owner forwarded) in *.
  assert (wf (commit c s)) as Hwc.
  { apply (wf_commit c s port); [done..|]. cbn [EmitEvent c Port EventName].
    pose proof (wf_port _ Hw port) as [_ Hc]. rewrite Hl in Hc. rewrite (Hu Hl) in *.
    destruct Hc as [Hc|[? _]]; [|done]. split; [by left|].
    unfold about in *. rewrite filter_app, Hc. rewrite filter_cons_True, app_nil_l by done.
    destruct (Z.eqb_spec port 0) as [->|]; [done|]. split; [done|].
    split; [done|]. split; [by left|]. by constructor. }
  assert (granted s port protocol owner (commit c s)) by (split_and!; [done..|by exists forwarded]).
  destruct r; [subst|destruct Hs as [->| ->]]; auto.
Qed.

Lemma send_deallocate s a r s' :
  wf s → listed a s → (1 ≤ Port a)%Z →
  served_send s (DeallocatePort (Port a)) r s' →
  wf s' ∧ (s' = s ∧ is_ok r = false ∨ s' = commit (DeallocatePort (Port a)) s).
Proof.
  intros Hw Hli Hp Hs. unfold served_send in Hs. cbn [AggregateID] in Hs.
  set (c := DeallocatePort (Port a)) in *.
  destruct (Validate _ _) eqn:Hv; [|by destruct Hs as [-> ->]; auto].
  assert (wf (commit c s)) as Hwc.
  { apply (wf_commit c s (Port a)); [done..|]. cbn.
    pose proof (wf_port _ Hw (Port a)) as [Hr Hc].
    destruct (aggs s !! itoa (Port a)) as [b|] eqn:Hb; [|done]. cbn [default].
    unfold about in *. rewrite filter_app. destruct Hli as [Hl|[Hl Hrow]]; rewrite Hl in Hc.
    - apply (live_none _ _ _ Hb) in Hl. split; [by right|].
      rewrite filter_cons_False by (unfold target; simpl; lia).
      simpl. rewrite app_nil_r. done.
    - assert (b = a) as ->.
      { unfold live, holder in Hl. rewrite Hb in Hl. by destruct (Z.eqb (Port b) 0); simplify_eq. }
      split; [by left|]. rewrite filter_cons_True by done. split; [done|]. right.
      split; [by rewrite Hrow|]. destruct Hc as (_ & _ & Hf).
      exists (filter (λ e, target e = Port a) (queued s (itoa (Port a)))). eexists. split; [done|].
      split; [done|]. eapply Forall_impl; [exact Hf|]. by intros e [? _]. }
  destruct r; [subst; auto|destruct Hs as [->| ->]]; auto.
Qed.

(** ** The operations keep the invariant *)

(** Between two commands of an operation *)
Definition steady (a0 : gmap string PortAllocation) (J : state → Prop) (s : state) : Prop :=
  wf s ∧ aggs s = a0 ∧ J s.

Lemma steady_stable a0 J :
  (∀ s s', wf s → projects s s' → J s → J s') → stable (steady a0 J).
Proof.
  intros HJ s s' Hs (Hw & Ha & Hj). split; [by eapply wf_stable|].
  rewrite (projects_aggs _ _ Hs). split; [done|by eapply HJ].
Qed.

Lemma steady_true a0 : stable (steady a0 (λ _, True)).
Proof. by apply steady_stable. Qed.

Lemma steady_unlisted a0 p : stable (steady a0 (unlisted p)).
Proof. apply steady_stable. intros s s'. apply unlisted_stable. Qed.

Lemma steady_listed a0 l : stable (steady a0 (λ s, Forall (λ a, listed a s) l)).
Proof.
  apply steady_stable. intros s s' Hw Hs Hl. eapply Forall_impl; [exact Hl|].
  intros a. by apply listed_stable.
Qed.

Lemma steady_wf a0 J s : steady a0 J s → wf s.
Proof. by intros (? & _). Qed.

#[local] Hint Resolve steady_true steady_unlisted steady_listed steady_wf : steady.

Ltac quiet := repeat (cbv zeta; first
  [ exact I
  | apply calls_only_bind; [|intros]
  | apply calls_only_bind_ok; [|intros]
  | match goal with
    | |- calls_only _ (match ?x with _ => _ end) => destruct x
    | |- calls_only _ (let '(_, _) := ?x in _) => destruct x
    | |- calls_only _ (if ?b then _ else _) => destruct b
    | |- calls_only _ (ask _) => split; [exact I|intros; exact I]
    end
  | solve [eauto] ]).

Lemma osBindTest_quiet port protocol : calls_only quiet (osBindTest port protocol).
Proof. unfold osBindTest. quiet. Qed.

Lemma for_each_quiet {A} (f : A → P (result error unit)) xs :
  (∀ x, calls_only quiet (f x)) → calls_only quiet (for_each f xs).
Proof. intros Hf. induction xs; cbn [for_each]; quiet. Qed.

Lemma Forward_quiet s port protocol : calls_only quiet (Forward s port protocol).
Proof.
  destruct s; cbn [Forward]; unfold upnp_Forward, natpmp_Forward, natpmp_mapping; quiet;
    apply for_each_quiet; intros; quiet.
Qed.

Lemma Reverse_quiet s port protocol : calls_only quiet (Reverse s port protocol).
Proof.
  destruct s; cbn [Reverse]; unfold upnp_Reverse, natpmp_Reverse, natpmp_mapping; quiet;
    apply for_each_quiet; intros; quiet.
Qed.

Lemma resolveStrategies_quiet n : calls_only quiet (resolveStrategies n).
Proof. unfold resolveStrategies. quiet. Qed.

Lemma forwardAny_quiet ss port protocol : calls_only quiet (forwardAny ss port protocol).
Proof.
  pose proof Forward_quiet. induction ss; cbn [forwardAny]; quiet.
Qed.

Lemma reverseAll_quiet ss port protocol : calls_only quiet (reverseAll ss port protocol).
Proof.
  pose proof Reverse_quiet. induction ss; cbn [reverseAll]; quiet.
Qed.

(** [p] runs while nothing is sent, then [f] goes on from the same assertion. *)
Lemma wp_quiet_bind {A B} a0 J s (p : P A) (f : A → P B) Q :
  stable (steady a0 J) → steady a0 J s → calls_only quiet p →
  (∀ a s', steady a0 J s' → wp wf s' (f a) Q) → wp wf s (p ≫= f) Q.
Proof.
  intros HI Hs Hp Hf. apply hoare_bind. eapply hoare_mono; [by apply (wp_quiet wf (steady a0 J)); eauto with steady|].
  intros a s'. apply Hf.
Qed.

Lemma isPortAvailable_unlisted a0 s port protocol :
  steady a0 (λ _, True) s →
  wp wf s (isPortAvailable port protocol) (λ r s', steady a0 (λ s', r = Ok true → unlisted port s') s').
Proof.
  intros Hs. unfold isPortAvailable.
  apply (hoare_call wf (steady a0 (λ _, True)) s (RowAt port)); eauto with steady.
  intros s1 r s2 H1 [-> Hr]. destruct r as [[a|]|e].
  1, 3: apply (hoare_ret wf (steady a0 (λ _, True))); eauto with steady;
    by intros s' (? & ? & _).
  eapply (wp_quiet_bind a0 (unlisted port)); [auto with steady| |apply osBindTest_quiet|].
  { destruct H1 as (? & ? & _). split_and!; [done..|]. by intros _. }
  intros ok s' Hs'. apply (hoare_ret wf (steady a0 (unlisted port))); eauto with steady.
  intros s'' (? & ? & ?). by split_and!.
Qed.

Definition found_unlisted (a0 : gmap string PortAllocation) (r : result error Z) (s : state) : Prop :=
  steady a0 (λ s, ∀ port, r = Ok port → (1 ≤ port)%Z ∧ unlisted port s) s.

Lemma found_err a0 s e : steady a0 (λ _, True) s → wp wf s (mret (Err e)) (found_unlisted a0).
Proof.
  intros Hs. apply (hoare_ret wf (steady a0 (λ _, True))); eauto with steady.
  by intros s' (? & ? & _).
Qed.

(** A candidate is taken when it is available; otherwise the search goes on. *)
Lemma wp_candidate a0 s port protocol (rest : P (result error Z)) :
  (1 ≤ port)%Z → steady a0 (λ _, True) s →
  (∀ s', steady a0 (λ _, True) s' → wp wf s' rest (found_unlisted a0)) →
  wp wf s (bind_ok (isPortAvailable port protocol) (λ ok : bool, if ok then mret (Ok port) else rest))
    (found_unlisted a0).
Proof.
  intros Hp Hs Hrest. apply hoare_bind.
  eapply hoare_mono; [by apply (isPortAvailable_unlisted a0)|].
  intros [[]|e] s' (Hw & Ha & Hu).
  - apply (hoare_ret wf (steady a0 (unlisted port))); eauto with steady.
    + split_and!; auto.
    + intros s'' (? & ? & ?). split_and!; [done..|]. by intros ? [= <-].
  - by apply Hrest.
  - by apply found_err.
Qed.

Lemma scan_unlisted a0 s candidates protocol :
  Forall (λ p, 1 ≤ p)%Z candidates → steady a0 (λ _, True) s →
  wp wf s (scan candidates protocol) (found_unlisted a0).
Proof.
  intros Hc. revert s. induction Hc as [|p l Hp _ IH]; intros s Hs; cbn [scan].
  - by apply found_err.
  - by apply wp_candidate.
Qed.

Lemma port_range_positive a b : (1 ≤ a)%Z → Forall (λ p, 1 ≤ p)%Z (port_range a b).
Proof. intros Ha. apply Forall_forall. unfold port_range. intros p Hp%elem_of_seqZ. lia. Qed.

Lemma findAvailablePort_unlisted a0 s preferred a b protocol :
  (1 ≤ a)%Z → steady a0 (λ _, True) s →
  wp wf s (findAvailablePort preferred a b protocol) (found_unlisted a0).
Proof.
  intros Ha Hs. pose proof (port_range_positive a b Ha) as Hr. unfold findAvailablePort.
  destruct (negb _ && _) eqn:He; [by apply found_err|].
  destruct (Z.ltb_spec 0 preferred); [|by apply scan_unlisted].
  apply wp_candidate; [lia|done|]. intros s' Hs'. by apply scan_unlisted.
Qed.

Lemma wf_adopt s a : wf s → live s (Port a) = Some a → (1 ≤ Port a)%Z →
  wf (set_rows s (Save (rows s) a)).
Proof.
  intros [Hport Hhome Hids Hrows] Hl Hp. split; [|exact Hhome|exact Hids|].
  - intros p. change (queued _ _) with (queued s (itoa p)).
    change (live _ p) with (live s p). cbn [rows set_rows]. unfold Save.
    destruct (decide (p = Port a)) as [->|Hne]; [|rewrite lookup_insert_ne by done; apply Hport].
    specialize (Hport (Port a)). rewrite Hl in *. rewrite lookup_insert_eq.
    destruct Hport as (_ & ? & _ & ?). split; [by intros x [= <-]|]. auto.
  - cbn [rows set_rows]. unfold Save. intros p x Hx. rewrite lookup_insert in Hx.
    case_decide; [by subst|by eapply Hrows].
Qed.

(** Adopting leaves the aggregates alone, and what was not listed still is not. *)
Lemma adoptIfClaimed_steady a0 s port :
  (1 ≤ port)%Z → steady a0 (unlisted port) s →
  wp wf s (adoptIfClaimed port) (λ claimed s',
    steady a0 (λ s', claimed = false → unlisted port s') s').
Proof.
  intros Hp Hs. unfold adoptIfClaimed.
  assert (∀ s1 b, steady a0 (unlisted port) s1 → wp wf s1 (mret b) (λ claimed s',
    steady a0 (λ s', claimed = false → unlisted port s') s')) as Hret.
  { intros s1 b H1. apply (hoare_ret wf (steady a0 (unlisted port))); eauto with steady.
    by intros s' (? & ? & ?). }
  apply (hoare_call wf (steady a0 (unlisted port)) s (GetPort (itoa port))); eauto with steady.
  intros s1 r s2 H1 [-> Hr]. destruct r as [a|e]; [|by apply Hret].
  destruct (Z.eqb_spec (Port a) 0) as [|Hne]; [by apply Hret|].
  assert (∀ s', aggs s' = a0 → live s' port = Some a) as Hlive.
  { destruct H1 as (_ & H1 & _). intros s' Hs'. unfold live, holder.
    rewrite Hs', <- H1, Hr. by destruct (Z.eqb_spec (Port a) 0). }
  apply (hoare_call wf (steady a0 (unlisted port)) s1 (SaveRow a)); eauto with steady.
  intros s2 sv s3 H2 Hsv. destruct sv as [[]|e]; [|simpl in Hsv; subst s3; by apply Hret].
  simpl in Hsv. subst s3. destruct H2 as (Hw & Ha & _). pose proof (wf_port _ Hw port) as [_ Hc].
  rewrite (Hlive _ Ha) in Hc. destruct Hc as (Hpa & _).
  apply (hoare_ret wf (steady a0 (λ _, True))); eauto with steady.
  - split; [|done]. apply wf_adopt; [done| |lia]. rewrite Hpa. auto.
  - by intros s' (? & ? & _).
Qed.

Lemma resolveStrategies_steady {A} a0 J s n (f : list Strategy * netbridgeService → P A) Q :
  stable (steady a0 J) → steady a0 J s →
  (∀ ss n' s', portStart n' = portStart n → portEnd n' = portEnd n → steady a0 J s' →
    wp wf s' (f (ss, n')) Q) →
  wp wf s (resolveStrategies n ≫= f) Q.
Proof.
  intros HJ Hs Hf. unfold resolveStrategies. destruct (stratsReady n); [by apply Hf|].
  apply hoare_bind. apply (hoare_call wf (steady a0 J) s Discovered); eauto with steady.
  intros s1 r s2 H1 ->. destruct r as [l|];
    (apply (hoare_ret wf (steady a0 J)); eauto with steady; intros; by apply Hf).
Qed.

(** Between two operations: well formed, with the aggregates a run may leave *)
Definition leaves (Q : gmap string PortAllocation → Prop) (s : state) : Prop := wf s ∧ Q (aggs s).

Lemma leaves_stable Q : stable (leaves Q).
Proof.
  intros s s' Hs [Hw HQ]. split; [by eapply wf_stable|]. by rewrite (projects_aggs _ _ Hs).
Qed.

Lemma steady_leaves a0 J (Q : gmap string PortAllocation → Prop) s : steady a0 J s → Q a0 → leaves Q s.
Proof. intros (Hw & <- & _) HQ. by split. Qed.

Lemma leaves_wf Q s : leaves Q s → wf s.
Proof. by intros []. Qed.

#[local] Hint Resolve leaves_stable leaves_wf : steady.

Lemma wp_leave {A} s (a : A) (Q : A → gmap string PortAllocation → Prop) :
  wf s → Q a (aggs s) → wp wf s (mret a) (λ a s', leaves (Q a) s').
Proof. intros Hw HQ. apply (hoare_ret wf (leaves (Q a))); eauto with steady. by split. Qed.

(** [WaitPublish], then the result *)
Lemma wp_published {A} s (a : A) (Q : A → gmap string PortAllocation → Prop) :
  wf s → Q a (aggs s) →
  wp wf s (_ ← (ask WaitPublish : P unit); mret a) (λ a s', leaves (Q a) s').
Proof.
  intros Hw HQ. apply (hoare_call wf (leaves (Q a)) s WaitPublish); eauto with steady; [by split|].
  intros s1 [] s2 H1 [Hr _]. assert (leaves (Q a) s2) as [??] by
    (eapply stable_rtc; eauto with steady). by apply wp_leave.
Qed.

(** The aggregates an allocation can leave *)
Definition allocated (a0 : gmap string PortAllocation) (owner : string) (protocol : Protocol)
  (rn : result error Z * netbridgeService) (a : gmap string PortAllocation) : Prop :=
  (1 ≤ portStart rn.2)%Z ∧
  let grant port := (1 ≤ port)%Z ∧ holder a0 port = None ∧
    ∃ forwarded, a = <[itoa port := mkAllocation port protocol owner forwarded]> a0 in
  match rn.1 with
  | Ok port => grant port
  | Err _ => a = a0 ∨ ∃ port, grant port
  end.

Lemma Allocate_leaves s n owner protocol preferred :
  wf s → (1 ≤ portStart n)%Z →
  wp wf s (Allocate n owner protocol preferred)
    (λ rn s', leaves (allocated (aggs s) owner protocol rn) s').
Proof.
  intros Hw Hn. set (a0 := aggs s). assert (steady a0 (λ _, True) s) as Hs by done. clearbody a0.
  unfold Allocate. revert s Hw Hs.
  induction maxAllocateAttempts as [|k IH]; intros s Hw Hs; cbn [allocate_loop].
  { apply (wp_leave s _ (allocated a0 owner protocol)); [done|]. split; [done|]. left. by destruct Hs as (_ & ? & _). }
  apply hoare_bind. eapply hoare_mono; [by apply (findAvailablePort_unlisted a0)|].
  intros [port|e] s1 H1.
  2: { apply (wp_leave s1 _ (allocated a0 owner protocol)); [by destruct H1|]. split; [done|]. left. by destruct H1 as (_ & ? & _). }
  assert (1 ≤ port)%Z as Hp by (destruct H1 as (_ & _ & H1); by apply H1).
  assert (steady a0 (unlisted port) s1) as H1'.
  { destruct H1 as (? & ? & H1). split_and!; [done..|]. by apply H1. }
  apply hoare_bind. eapply hoare_mono; [by apply adoptIfClaimed_steady|].
  intros [] s2 (Hw2 & Ha2 & Hu2); [by apply IH|].
  apply (resolveStrategies_steady a0 (unlisted port)); [auto with steady|split_and!; auto|].
  intros ss n' s3 Hn1 Hn2 H3.
  apply (wp_quiet_bind a0 (unlisted port)); [auto with steady|done|apply forwardAny_quiet|].
  intros forwarded s4 H4.
  apply (hoare_call wf (steady a0 (unlisted port)) s4 (SendPort (AllocatePort port protocol owner forwarded)));
    eauto with steady.
  intros s5 r s6 (Hw5 & Ha5 & Hu5) Hsv.
  apply send_allocate in Hsv as [Hw6 Hr]; [|done..]. rewrite <- Ha5.
  destruct r as [[]|e].
  - apply (wp_published s6 _ (allocated (aggs s5) owner protocol)); [done|].
    split; [simpl; lia|]. exact Hr.
  - apply (wp_leave s6 _ (allocated (aggs s5) owner protocol)); [done|].
    split; [simpl; lia|]. destruct Hr as [Hr|Hr]; [by left|right].
    exists port. exact Hr.
Qed.

(** The aggregates a release can leave: no port but the owner's is released, and once
    it succeeds, every port of theirs that had a row is. *)
Definition released (s0 : state) (owner : string)
  (rn : result error unit * netbridgeService) (a : gmap string PortAllocation) : Prop :=
  (1 ≤ portStart rn.2)%Z ∧
  (∀ p, holder a p = live s0 p ∨
     holder a p = None ∧ ∃ x, live s0 p = Some x ∧ OwnerKey x = owner) ∧
  match rn.1 with
  | Ok _ => ∀ p x, live s0 p = Some x → rows s0 !! p = Some x → OwnerKey x = owner → holder a p = None
  | Err _ => True
  end.

(** Half way through the loop: the rows left are listed, the others are released. *)
Definition releasing (s0 : state) (owner : string) (rest : list PortAllocation) (s : state) : Prop :=
  wf s ∧
  (∀ p, live s p = live s0 p ∨ live s p = None ∧ ∃ x, live s0 p = Some x ∧ OwnerKey x = owner) ∧
  Forall (λ a, (1 ≤ Port a)%Z ∧ OwnerKey a = owner ∧ listed a s) rest ∧
  (∀ p x, live s0 p = Some x → rows s0 !! p = Some x → OwnerKey x = owner →
     live s p = None ∨ x ∈ rest).

Lemma releasing_stable s0 owner rest : stable (releasing s0 owner rest).
Proof.
  intros s s' Hs (Hw & Hp & Hf & Hc). split; [by eapply wf_stable|].
  split; [intros p; rewrite (projects_live _ _ _ Hs); apply Hp|].
  split; [|intros p; rewrite (projects_live _ _ _ Hs); apply Hc].
  eapply Forall_impl; [exact Hf|]. intros a (? & ? & ?). split_and!; [done..|].
  by eapply listed_stable.
Qed.

Lemma releasing_wf s0 owner rest s : releasing s0 owner rest s → wf s.
Proof. by intros []. Qed.

#[local] Hint Resolve releasing_stable releasing_wf : steady.

(** A port that is released stays listed for the rest, as any other does. *)
Lemma listed_commit_deallocate p a s :
  listed a s → listed a (commit (DeallocatePort p) s).
Proof.
  intros Hl. unfold listed. rewrite !live_commit. cbn [AggregateID].
  case_decide as Hp; [by left|]. done.
Qed.

Lemma releasing_commit s0 owner a rest s :
  releasing s0 owner (a :: rest) s → wf (commit (DeallocatePort (Port a)) s) →
  releasing s0 owner rest (commit (DeallocatePort (Port a)) s).
Proof.
  intros (Hw & Hp & Hf & Hc) Hw'. apply Forall_cons in Hf as [(H1 & Ho & Hl) Hf].
  assert (∀ p, live (commit (DeallocatePort (Port a)) s) p =
    if decide (p = Port a) then None else live s p) as Hlive.
  { intros p. rewrite live_commit. cbn [AggregateID EmitEvent].
    destruct (decide (itoa (Port a) = itoa p)) as [<-%itoa_inj|Hne]; [by rewrite decide_True|].
    rewrite decide_False; [done|]. congruence. }
  split; [done|]. split; [|split].
  - intros p. rewrite Hlive. case_decide as Hpa; [subst p|apply Hp].
    destruct Hl as [Hl|[Hl _]].
    + destruct (Hp (Port a)) as [He|[_ Hx]]; [left; congruence|by right].
    + right. split; [done|]. exists a. split; [|done].
      destruct (Hp (Port a)) as [<-|[? _]]; [done|congruence].
  - eapply Forall_impl; [exact Hf|]. intros b (? & ? & ?). split_and!; [done..|].
    by apply listed_commit_deallocate.
  - intros p x Hx Hr Hox. rewrite Hlive. case_decide as Hpa; [by left|].
    destruct (Hc p x Hx Hr Hox) as [?|Hin]; [by left|].
    apply elem_of_cons in Hin as [->|Hin]; [|by right].
    destruct (Hp p) as [Hpp|[? _]]; [|by left].
    exfalso. apply Hpa. rewrite Hx in Hpp. pose proof (wf_port _ Hw p) as [_ Hq].
    rewrite Hpp in Hq. by destruct Hq as [-> _].
Qed.

Lemma deallocate_loop_leaves s0 owner rest n s :
  (1 ≤ portStart n)%Z → releasing s0 owner rest s →
  wp wf s (deallocate_loop n rest) (λ rn s', (1 ≤ portStart rn.2)%Z ∧
    ∃ rest', releasing s0 owner rest' s' ∧ (is_ok rn.1 = true → rest' = [])).
Proof.
  revert n s. induction rest as [|a rest IH]; intros n s Hn Hs; cbn [deallocate_loop].
  { apply (hoare_ret wf (releasing s0 owner [])); eauto with steady. }
  assert (∀ J : list Strategy * netbridgeService → state → Prop,
    (∀ ss n' s', (1 ≤ portStart n')%Z → releasing s0 owner (a :: rest) s' → J (ss, n') s') →
    wp wf s (resolveStrategies n) J) as Hres.
  { intros J HJ. unfold resolveStrategies. destruct (stratsReady n).
    - apply (hoare_ret wf (releasing s0 owner (a :: rest))); eauto with steady.
    - apply (hoare_call wf (releasing s0 owner (a :: rest)) s Discovered); eauto with steady.
      intros s1 r s2 H1 ->. destruct r;
        apply (hoare_ret wf (releasing s0 owner (a :: rest))); eauto with steady. }
  apply hoare_bind, Hres. intros ss n' s1 Hn' H1. apply hoare_bind.
  eapply hoare_mono; [apply (wp_quiet wf (releasing s0 owner (a :: rest))); eauto with steady;
    apply reverseAll_quiet|].
  intros [] s2 H2.
  apply (hoare_call wf (releasing s0 owner (a :: rest)) s2 (SendPort (DeallocatePort (Port a))));
    eauto with steady.
  intros s3 r s4 H3 Hsv. pose proof H3 as (Hw3 & _ & Hf3 & _).
  pose proof Hf3 as [(Hp & _ & Hl) _]%Forall_cons.
  apply send_deallocate in Hsv as [Hw4 Hsv]; [|done..].
  destruct Hsv as [[-> Hr]| ->].
  - destruct r as [|e]; [done|].
    apply (hoare_ret wf (releasing s0 owner (a :: rest))); eauto with steady.
    intros s' Hs'. split; [done|]. by exists (a :: rest).
  - assert (releasing s0 owner rest (commit (DeallocatePort (Port a)) s3)) as H4
      by (by apply releasing_commit).
    destruct r as [[]|e]; [by apply IH|].
    apply (hoare_ret wf (releasing s0 owner rest)); eauto with steady.
    intros s' Hs'. split; [done|]. by exists rest.
Qed.

Lemma releasing_initial s0 s owner l :
  wf s0 → steady (aggs s0) (λ s, ∀ p x, live s0 p = Some x → rows s0 !! p = Some x → rows s !! p = Some x) s →
  l ≡ₚ FindAll (rows s) → releasing s0 owner (filter (λ a, OwnerKey a = owner) l) s.
Proof.
  intros Hw0 (Hw & Ha & Hk) Hl. assert (∀ p, live s p = live s0 p) as Hlive.
  { intros p. by apply live_aggs. }
  assert (∀ x, x ∈ l ↔ rows s !! Port x = Some x) as Hin.
  { intros x. rewrite Hl. unfold FindAll. rewrite list_elem_of_fmap. split.
    - intros ([p y] & -> & Hy). apply elem_of_map_to_list in Hy. simpl.
      pose proof (wf_port _ Hw p) as [Hp _]. by rewrite (Hp _ Hy).
    - intros Hx. exists (Port x, x). split; [done|]. by apply elem_of_map_to_list. }
  split; [done|]. split; [intros p; left; apply Hlive|]. split.
  - apply Forall_forall. intros a Ha'. apply list_elem_of_filter in Ha' as [Ho Ha'].
    apply Hin in Ha'. split; [by eapply wf_rows|]. split; [done|]. unfold listed.
    pose proof (wf_port _ Hw (Port a)) as [_ Hc]. destruct (live s (Port a)) as [x|]; [|by left].
    destruct Hc as (_ & [Hr|Hr] & _); [congruence|].
    right. rewrite Hr in Ha'. simplify_eq. auto.
  - intros p x Hx Hr Ho. right. apply list_elem_of_filter. split; [done|]. apply Hin.
    pose proof (wf_port _ Hw0 p) as [Hp _]. rewrite (Hp _ Hr). auto.
Qed.

Lemma DeallocateByOwner_leaves s n owner :
  wf s → (1 ≤ portStart n)%Z →
  wp wf s (DeallocateByOwner n owner) (λ rn s', leaves (released s owner rn) s').
Proof.
  intros Hw Hn.
  set (J := λ s', ∀ p x, live s p = Some x → rows s !! p = Some x → rows s' !! p = Some x).
  assert (stable (steady (aggs s) J)) as HJ.
  { intros s1 s2 Hs (Hw1 & Ha & Hj). split; [by eapply wf_stable|].
    rewrite (projects_aggs _ _ Hs). split; [done|]. intros p x Hx Hr.
    assert (Port x = p) as <- by (pose proof (wf_port _ Hw p) as [Hp _]; auto).
    assert (live s1 (Port x) = Some x) as Hx1 by (rewrite <- Hx; by apply live_aggs).
    assert (listed x s1) as Hl by (right; auto).
    eapply listed_stable in Hl; [|done..]. destruct Hl as [Hl|[_ Hl]]; [|done].
    rewrite (projects_live _ _ _ Hs) in Hl. congruence. }
  unfold DeallocateByOwner, FindByOwner. apply hoare_bind.
  apply (hoare_call wf (steady (aggs s) J) s AllRows); eauto with steady.
  { split_and!; [done..|]. by intros p x _. }
  intros s1 r s2 H1 [-> Hr]. destruct r as [l|e].
  2: { apply (hoare_ret wf (steady (aggs s) J)); eauto with steady.
    intros s2 (Hw2 & Ha2 & _). apply (wp_leave s2 _ (released s owner)); [done|].
    split; [done|]. split; [|done]. intros p. left. unfold live. by rewrite Ha2. }
  pose proof (releasing_initial s s1 owner l Hw H1 Hr) as H2.
  apply (hoare_ret wf (releasing s owner (filter (λ a, OwnerKey a = owner) l))); eauto with steady.
  intros s2 H3. apply hoare_bind. eapply hoare_mono; [by apply deallocate_loop_leaves|].
  intros [r n'] s4 [Hn' (rest & H4 & Hrest)].
  assert (released s owner (r, n') (aggs s4)) as Hrel.
  { split; [done|]. destruct H4 as (_ & Hp & _ & Hc). split; [exact Hp|].
    destruct r as [[]|e]; [|done]. intros p x Hx Hrow Ho. rewrite Hrest in Hc by done.
    destruct (Hc p x Hx Hrow Ho) as [?|Hin]; [done|]. by apply not_elem_of_nil in Hin. }
  destruct r as [[]|e].
  - apply (wp_published s4 _ (released s owner)); [by destruct H4|done].
  - apply (wp_leave s4 _ (released s owner)); [by destruct H4|done].
Qed.

Lemma reachable_wf n s : reachable n s → wf s ∧ (1 ≤ portStart n)%Z.
Proof.
  intros Hr. induction Hr as [range Hr|n s p r n' s' _ [Hw Hn] Ho He|
    n s p s' range rows' _ [Hw Hn] Ho Hc Hr Hrows].
  - split; [|done]. apply wf_initial; intros p x Hx; [by rewrite lookup_empty in Hx|].
    unfold live, holder in Hx; simpl in Hx. by rewrite lookup_empty in Hx.
  - destruct Ho.
    + pose proof (wp_exec _ _ _ _ _ _ (Allocate_leaves s n owner protocol preferred Hw Hn) He)
        as [? [? _]]. done.
    + eapply wp_exec in He; [|apply hoare_bind; eapply hoare_mono;
        [by apply (DeallocateByOwner_leaves s n owner)|]].
      2: { intros [r0 n0] s0 H0. apply (hoare_ret wf (leaves (released s owner (r0, n0))) s0 _
        (λ rn s', wf s' ∧ (1 ≤ portStart rn.2)%Z)); eauto with steady.
        intros s1 [? [? _]]. done. }
      done.
  - split; [|done]. apply wf_restart; [|done]. destruct Ho.
    + eapply wp_crashes; [|exact Hc]. by apply Allocate_leaves.
    + eapply wp_crashes; [|exact Hc]. apply hoare_bind. eapply hoare_mono;
        [by apply DeallocateByOwner_leaves|].
      intros [r0 n0] s0 H0. eapply (hoare_ret wf (leaves _) s0 _ (λ _ _, True));
        [apply leaves_stable|exact H0|apply leaves_wf|done].
Qed.

(** ** A machine that fails nothing *)

(** Every projection of an id, in order, and then of every id *)
Definition drain (id : string) (q : list port_event) (s : state) : state :=
  mkState (aggs s) (<[id := []]> (queue s)) (foldl (λ r e, HandlePortEvent e r) (rows s) q).

Definition publish (s : state) : state :=
  foldl (λ s '(id, q), drain id q s) s (map_to_list (queue s)).

Lemma drain_projects id q s : queue s !! id = Some q → rtc projects s (drain id q s).
Proof.
  revert s. induction q as [|e q IH]; intros s Hq; unfold drain; cbn [foldl].
  - rewrite insert_id by done. by destruct s.
  - eapply rtc_l; [by apply projected|].
    specialize (IH (mkState (aggs s) (<[id := q]> (queue s)) (HandlePortEvent e (rows s)))).
    unfold drain in IH; cbn [aggs queue rows] in IH.
    rewrite insert_insert_eq in IH. apply IH. by rewrite lookup_insert_eq.
Qed.

Lemma publish_projects s :
  rtc projects s (publish s) ∧ ∀ id, queued (publish s) id = [].
Proof.
  unfold publish. assert (∀ l s, NoDup l.*1 → (∀ id q, (id, q) ∈ l → queue s !! id = Some q) →
    let s' := foldl (λ s '(id, q), drain id q s) s l in
    rtc projects s s' ∧ ∀ id, queued s' id = if decide (id ∈ l.*1) then [] else queued s id) as H.
  { clear s. intros l. induction l as [|[id q] l IH]; intros s Hnd Hl s'.
    - split; [apply rtc_refl|]. intros id. by rewrite decide_False by apply not_elem_of_nil.
    - cbn [fmap list_fmap fst] in Hnd. apply NoDup_cons in Hnd as [Hid Hnd].
      destruct (IH (drain id q s)) as [Hp He]; [done| |].
      { intros id' q' Hin. cbn [drain queue]. rewrite lookup_insert_ne; [apply Hl; by right|].
        intros ->. apply Hid. apply list_elem_of_fmap. by exists (id', q'). }
      split; [etransitivity; [apply drain_projects, Hl; left|exact Hp]|].
      intros id'. subst s'. cbn [foldl]. rewrite He. unfold queued, drain; cbn [queue].
      rewrite lookup_insert. destruct (decide (id' ∈ l.*1)) as [Hin|Hnin].
      + by rewrite decide_True by (cbn; by right).
      + destruct (decide (id = id')) as [->|Hne]; [by rewrite decide_True by (cbn; left)|].
        rewrite decide_False; [done|]. cbn. intros [?|?]%elem_of_cons; congruence. }
  destruct (H (map_to_list (queue s)) s) as [Hp He].
  - apply NoDup_fst_map_to_list.
  - intros id q. apply elem_of_map_to_list.
  - split; [exact Hp|]. intros id. rewrite He. case_decide as Hid; [done|].
    unfold queued. destruct (queue s !! id) as [q|] eqn:Hq; [|done].
    exfalso. apply Hid, list_elem_of_fmap. exists (id, q). split; [done|]. by apply elem_of_map_to_list.
Qed.

Section healthy.
(** What the operating system, the discovery and the router answer *)
Context (world : ∀ c, answer c).

Definition serve (s : state) (c : call) : answer c * state :=
  match c with
  | RowAt p => (Ok (FindByKey (rows s) p), s)
  | AllRows => (Ok (FindAll (rows s)), s)
  | SaveRow a => (Ok (), set_rows s (Save (rows s) a))
  | GetPort id =>
      (match aggs s !! id with Some a => Ok a | None => Err [ErrAxNotFound] end, s)
  | SendPort c =>
      if Validate c (aggs s !! AggregateID c) then (Ok (), commit c s)
      else (Err [ErrAxValidation], s)
  | WaitPublish => ((), publish s)
  | c => (world c, s)
  end.

Lemma serve_served s c : served s c (serve s c).1 (serve s c).2.
Proof.
  destruct c; cbn; try done.
  - destruct (aggs s !! id) eqn:H; simpl; auto.
  - unfold served_send. destruct (Validate _ _) eqn:H; simpl; by rewrite H || rewrite ?H; auto.
  - apply publish_projects.
Qed.

Fixpoint play {A} (s : state) (p : P A) : A * state :=
  match p with
  | Return a => (a, s)
  | Call c k => play (serve s c).2 (k (serve s c).1)
  end.

Lemma play_exec {A} s (p : P A) : exec s p (play s p).1 (play s p).2.
Proof.
  revert s. induction p as [a|c k IH]; intros s; simpl; [split; [done|apply rtc_refl]|].
  exists s, (serve s c).1, (serve s c).2. split; [apply rtc_refl|]. split; [apply serve_served|apply IH].
Qed.

Lemma play_seq {A B} s (p : P A) (f : A → P B) :
  play s (p ≫= f) = play (play s p).2 (f (play s p).1).
Proof. revert s. induction p as [a|c k IH]; intros s; [done|]. simpl. apply IH. Qed.

(** What the bind test finds *)
Definition bindable (protocol : Protocol) (port : Z) : bool :=
  (if bool_decide (protocol = ProtocolTCP ∨ protocol = ProtocolTCPUDP)
   then (world (Listen "tcp" port) : bool) else true) &&
  (if bool_decide (protocol = ProtocolUDP ∨ protocol = ProtocolTCPUDP)
   then (world (Listen "udp" port) : bool) else true).

Lemma play_osBindTest s port protocol :
  play s (osBindTest port protocol) = (bindable protocol port, s).
Proof.
  unfold osBindTest, bindable.
  destruct (bool_decide (protocol = ProtocolTCP ∨ _)); simpl;
    [destruct (world (Listen "tcp" port) : bool); simpl; [|done]|];
    by destruct (bool_decide (protocol = ProtocolUDP ∨ _)).
Qed.

(** Free for all the read model and the operating system know *)
Definition open (s : state) (protocol : Protocol) (port : Z) : Prop :=
  rows s !! port = None ∧ bindable protocol port = true.

#[local] Instance open_dec s protocol port : Decision (open s protocol port).
Proof. unfold open. apply _. Defined.

Lemma play_isPortAvailable s port protocol :
  play s (isPortAvailable port protocol) = (Ok (bool_decide (open s protocol port)), s).
Proof.
  assert (bool_decide (open s protocol port) =
    match rows s !! port with Some _ => false | None => bindable protocol port end) as ->.
  { unfold open. case_bool_decide as Ho.
    - by destruct Ho as [-> ->].
    - destruct (rows s !! port); [done|]. destruct (bindable protocol port); [|done]. by destruct Ho. }
  unfold isPortAvailable, bind_ok. rewrite play_seq. cbn [play ask serve fst snd].
  unfold FindByKey. destruct (rows s !! port) as [a|]; [done|].
  by rewrite play_seq, play_osBindTest.
Qed.

(** The first of a list, or that there is none *)
Definition first (l : list Z) : result error Z :=
  match l with p :: _ => Ok p | [] => Err [ErrNoPortAvailable] end.

Lemma play_candidate s protocol port l (rest : P (result error Z)) :
  play s rest = (first (filter (open s protocol) l), s) →
  play s (bind_ok (isPortAvailable port protocol) (λ ok : bool, if ok then mret (Ok port) else rest)) =
    (first (filter (open s protocol) (port :: l)), s).
Proof.
  intros Hrest. unfold bind_ok. rewrite play_seq, play_isPortAvailable. cbn [fst snd].
  destruct (decide (open s protocol port)) as [Ho|Ho].
  - by rewrite bool_decide_true, filter_cons_True by done.
  - by rewrite bool_decide_false, filter_cons_False by done.
Qed.

Lemma play_scan s protocol l : play s (scan l protocol) = (first (filter (open s protocol) l), s).
Proof.
  induction l as [|p l IH]; [done|]. cbn [scan]. by apply play_candidate.
Qed.

(** The order ports are tried in *)
Definition candidates (n : netbridgeService) (preferred : Z) : list Z :=
  (if Z.ltb 0 preferred then [preferred] else []) ++ port_range (portStart n) (portEnd n).

Lemma play_findAvailablePort s n preferred protocol :
  (0 ≤ preferred ≤ 65535)%Z →
  play s (findAvailablePort preferred (portStart n) (portEnd n) protocol) =
    (first (filter (open s protocol) (candidates n preferred)), s).
Proof.
  intros Hp. unfold findAvailablePort, candidates.
  replace (negb _ && _) with false by lia.
  destruct (Z.ltb_spec 0 preferred); [|apply play_scan].
  apply play_candidate, play_scan.
Qed.

(** Free indeed, and taken by an allocation the read model does not know of *)
Definition vacant (s : state) (protocol : Protocol) (port : Z) : Prop :=
  open s protocol port ∧ live s port = None.

Definition stale (s : state) (protocol : Protocol) (port : Z) : Prop :=
  open s protocol port ∧ live s port ≠ None.

#[local] Instance vacant_dec s protocol port : Decision (vacant s protocol port).
Proof. unfold vacant. apply _. Defined.

#[local] Instance stale_dec s protocol port : Decision (stale s protocol port).
Proof. unfold stale. apply _. Defined.

(** Adopting a stale port closes it, and nothing else. *)
Lemma open_adopt s a protocol p :
  open (set_rows s (Save (rows s) a)) protocol p ↔ open s protocol p ∧ p ≠ Port a.
Proof.
  unfold open, Save. cbn [rows set_rows]. destruct (decide (p = Port a)) as [->|Hne].
  - rewrite lookup_insert_eq. naive_solver.
  - rewrite lookup_insert_ne by done. naive_solver.
Qed.

Lemma play_adopt s port :
  wf s →
  play s (adoptIfClaimed port) =
    match live s port with
    | Some a => (true, set_rows s (Save (rows s) a))
    | None => (false, s)
    end.
Proof.
  intros Hw. unfold adoptIfClaimed. rewrite play_seq. cbn [play ask serve fst snd].
  unfold live, holder. destruct (aggs s !! itoa port) as [a|]; [|done].
  by destruct (Z.eqb (Port a) 0).
Qed.

Lemma play_resolveStrategies s n : (play s (resolveStrategies n)).2 = s.
Proof.
  unfold resolveStrategies. destruct (stratsReady n); [done|]. rewrite play_seq. simpl.
  by destruct (world Discovered).
Qed.

Lemma play_quiet {A} s (p : P A) : calls_only quiet p → (play s p).2 = s.
Proof.
  revert s. induction p as [a|c k IH]; intros s Hp; [done|]. destruct Hp as [Hc Hk]. simpl.
  rewrite (quiet_served _ _ _ _ Hc (serve_served s c)). apply IH, Hk.
Qed.

Lemma filter_shorter (Q Q' : Z → Prop) `{∀ x, Decision (Q x), ∀ x, Decision (Q' x)} l p :
  p ∈ l → Q p → ¬ Q' p → (∀ x, Q' x → Q x) → length (filter Q' l) < length (filter Q l).
Proof.
  intros Hp HQ HQ' Himp. induction l as [|y l IH]; [by apply not_elem_of_nil in Hp|].
  assert (length (filter Q' l) ≤ length (filter Q l)) as Hle.
  { clear IH Hp. induction l as [|z l IHl]; [done|]. rewrite !filter_cons.
    repeat case_decide; simpl; try lia. by exfalso; eauto. }
  apply elem_of_cons in Hp as [->|Hp]; rewrite !filter_cons.
  - rewrite decide_False, decide_True by done. simpl. lia.
  - specialize (IH Hp). repeat case_decide; simpl; try lia. by exfalso; eauto.
Qed.

Lemma filter_vacant s protocol (l : list Z) :
  filter (vacant s protocol) l = filter (λ p, live s p = None) (filter (open s protocol) l).
Proof. rewrite list_filter_filter. apply list_filter_iff. unfold vacant. naive_solver. Qed.

Lemma candidates_positive n preferred p :
  (1 ≤ portStart n)%Z → p ∈ candidates n preferred → (1 ≤ p)%Z.
Proof.
  intros Hn Hp. apply elem_of_app in Hp as [Hp|Hp].
  - destruct (Z.ltb_spec 0 preferred); [|by apply not_elem_of_nil in Hp].
    apply list_elem_of_singleton in Hp. lia.
  - eapply (proj1 (Forall_forall _ _) (port_range_positive (portStart n) (portEnd n) Hn)); eauto.
Qed.

(** Once the stale port found is adopted, the same ports are vacant and one less is stale. *)
Lemma adopt_progress s a protocol (l : list Z) :
  live s (Port a) = Some a → open s protocol (Port a) → Port a ∈ l →
  let s' := set_rows s (Save (rows s) a) in
  filter (vacant s' protocol) l = filter (vacant s protocol) l ∧
  length (filter (stale s' protocol) l) < length (filter (stale s protocol) l).
Proof.
  intros Hl Ho Hin s'. assert (∀ p, open s' protocol p ↔ open s protocol p ∧ p ≠ Port a) as Hopen
    by (intros p; apply open_adopt). split.
  - apply list_filter_iff. intros p. unfold vacant. rewrite Hopen.
    change (live s' p) with (live s p). split; [naive_solver|].
    intros [? ?]. split_and!; [done| |done]. congruence.
  - apply (filter_shorter _ _ _ (Port a)); [done| | |].
    + split; [done|]. by rewrite Hl.
    + intros [Hop _]. apply Hopen in Hop. by destruct Hop.
    + intros p [Hop ?]. split; [by apply Hopen in Hop as [? _]|done].
Qed.

Lemma allocate_loop_first k n s owner protocol preferred :
  wf s → (1 ≤ portStart n)%Z → (0 ≤ preferred ≤ 65535)%Z →
  length (filter (stale s protocol) (candidates n preferred)) < k →
  (play s (allocate_loop k n owner protocol preferred)).1.1 =
    first (filter (vacant s protocol) (candidates n preferred)).
Proof.
  intros Hw Hn Hp. revert s Hw. induction k as [|k IH]; intros s Hw Hk; [lia|].
  cbn [allocate_loop]. rewrite play_seq, play_findAvailablePort by done. cbn [fst snd].
  destruct (filter (open s protocol) (candidates n preferred)) as [|port l] eqn:Hf; cbn [first].
  { by rewrite filter_vacant, Hf. }
  assert (port ∈ filter (open s protocol) (candidates n preferred)) as Hport by (rewrite Hf; left).
  apply list_elem_of_filter in Hport as [Ho Hin].
  rewrite play_seq, play_adopt by done. destruct (live s port) as [a|] eqn:Hl; cbn [fst snd].
  - pose proof (wf_port _ Hw port) as [_ Hc]. rewrite Hl in Hc. destruct Hc as (<- & _).
    destruct (adopt_progress s a protocol (candidates n preferred)) as [Hv Hs]; [done..|].
    rewrite IH; [by rewrite Hv| |lia].
    apply wf_adopt; [done..|]. by eapply candidates_positive.
  - rewrite filter_vacant, Hf, filter_cons_True by done. cbn [first].
    rewrite play_seq, play_resolveStrategies.
    destruct (play s (resolveStrategies n)).1 as [ss n'].
    rewrite play_seq, (play_quiet s _ (forwardAny_quiet _ _ _)), play_seq.
    cbn [play ask serve fst snd]. cbn [AggregateID].
    by rewrite (proj2 (live_valid_allocate _ _ _ _ _) Hl).
Qed.

End healthy.

(** ** Ports and their owners *)

(** C21. Allocating takes a port nobody holds and gives it to the caller; in every state
    the daemon can reach, restarts and lost projections included, every port that was
    held stays with the allocation it had. *)
Theorem port_granted_once n s owner protocol preferred r n' s' :
  reachable n s → exec s (Allocate n owner protocol preferred) (r, n') s' →
  (∀ q a, live s q = Some a → live s' q = Some a) ∧
  match r with
  | Ok port => live s port = None ∧ (∃ forwarded,
      live s' port = Some (mkAllocation port protocol owner forwarded)) ∧
      ∀ q, q ≠ port → live s' q = live s q
  | Err _ => True
  end.
Proof.
  intros [Hw Hn]%reachable_wf He.
  pose proof (wp_exec _ _ _ _ _ _ (Allocate_leaves s n owner protocol preferred Hw Hn) He)
    as [Hw' [_ Hr]]. cbn [fst snd] in Hr.
  assert (∀ port f, holder (aggs s) port = None →
    aggs s' = <[itoa port := mkAllocation port protocol owner f]> (aggs s) →
    (∀ q, q ≠ port → live s' q = live s q) ∧ (∀ q a, live s q = Some a → live s' q = Some a))
    as Hkeep.
  { intros port f Hl Ha. assert (∀ q, q ≠ port → live s' q = live s q) as Ho.
    { intros q Hq. unfold live, holder. rewrite Ha, lookup_insert_ne; [done|].
      by intros <-%itoa_inj. }
    split; [done|]. intros q a Hq. destruct (decide (q = port)) as [->|]; [|by rewrite Ho].
    unfold live in Hq. congruence. }
  destruct r as [port|e].
  - destruct Hr as (Hp & Hl & f & Ha). destruct (Hkeep port f Hl Ha) as [Ho Hk].
    split; [exact Hk|]. split; [exact Hl|]. split; [|exact Ho]. exists f.
    unfold live, holder. rewrite Ha, lookup_insert_eq. cbn [Port].
    by destruct (Z.eqb_spec port 0); [lia|].
  - split; [|done]. destruct Hr as [Ha|(port & _ & Hl & f & Ha)].
    + intros q a Hq. rewrite <- Hq. by apply live_aggs.
    + by apply (Hkeep port f).
Qed.

(** Releasing an owner's ports releases nobody else's, whatever fails on the way; when
    it succeeds every port of theirs that the read model listed is free, and none is
    held that was not. *)
Lemma release_frees_the_owners n s owner r n' s' :
  reachable n s → exec s (DeallocateByOwner n owner) (r, n') s' →
  (∀ q a, live s q = Some a → OwnerKey a ≠ owner → live s' q = Some a) ∧
  (∀ q, live s q = None → live s' q = None) ∧
  (is_ok r = true → ∀ q a, live s q = Some a → rows s !! q = Some a → OwnerKey a = owner →
     live s' q = None).
Proof.
  intros [Hw Hn]%reachable_wf He.
  pose proof (wp_exec _ _ _ _ _ _ (DeallocateByOwner_leaves s n owner Hw Hn) He)
    as [_ [_ [Hp Hr]]]. cbn [fst snd] in Hr. split_and!.
  - intros q a Hq Ho. destruct (Hp q) as [Hpq|(_ & x & Hx & Hox)]; [unfold live; congruence|].
    congruence.
  - intros q Hq. destruct (Hp q) as [Hpq|(_ & x & Hx & _)]; [unfold live; congruence|congruence].
  - destruct r as [[]|e]; [|done]. intros _ q a. by apply Hr.
Qed.

(** On a machine that fails nothing, the port allocated is the first vacant one, the
    preferred port before the range in order, and there is an error exactly when none is
    vacant: as long as fewer ports than the attempts are held unknown to the read model. *)
Lemma allocates_first_vacant world s n owner protocol preferred :
  wf s → (1 ≤ portStart n)%Z → (0 ≤ preferred ≤ 65535)%Z →
  length (filter (stale world s protocol) (candidates n preferred)) < maxAllocateAttempts →
  (play world s (Allocate n owner protocol preferred)).1.1 =
    first (filter (vacant world s protocol) (candidates n preferred)).
Proof. apply allocate_loop_first. Qed.

(** *** Examples of these *)

(** A host where every port can be bound but 49152, no router, on a range of four *)
Definition example_world (c : call) : answer c :=
  match c with
  | Listen _ p => negb (Z.eqb p 49152)
  | Discovered => Some []
  | SaveRow _ | SendPort _ | DiscoverGateway | GetExternalAddress | AddNATMapping _ _ _ _
  | AddUPnPMapping _ _ _ _ _ | DeleteUPnPMapping _ _ => Ok ()
  | RowAt _ => Ok None
  | AllRows => Ok []
  | GetPort _ => Err []
  | WaitPublish => ()
  | DiscoverIGDs => Ok 0
  | LocalIP => Ok ""
  end.

Definition example_service : netbridgeService := newNetbridge (49152, 49155)%Z.

Definition example_first := play example_world (mkState ∅ ∅ ∅)
  (Allocate example_service "a" ProtocolTCP 0).

Lemma example_first_reachable : reachable example_first.1.2 example_first.2.
Proof.
  eapply (reach_operation example_service _ _ (Ok 49153%Z)).
  - by apply reach_initial.
  - apply op_allocate.
  - replace (Ok 49153%Z, example_first.1.2) with example_first.1 by (vm_compute; reflexivity).
    apply play_exec.
Qed.

Lemma port_granted_once_witness :
  let second := play example_world example_first.2
    (Allocate example_first.1.2 "b" ProtocolTCP 49153) in
  second.1.1 = Ok 49154%Z ∧
  live second.2 49153 = Some (mkAllocation 49153 ProtocolTCP "a" false) ∧
  live second.2 49154 = Some (mkAllocation 49154 ProtocolTCP "b" false).
Proof.
  intros second. split; [vm_compute; reflexivity|].
  destruct (port_granted_once _ _ "b" ProtocolTCP 49153 (Ok 49154%Z) second.1.2 second.2
    example_first_reachable) as (Hkeep & _ & [f Hf] & _).
  - replace (Ok 49154%Z, second.1.2) with second.1 by (vm_compute; reflexivity). apply play_exec.
  - split; [apply Hkeep; vm_compute; reflexivity|].
    rewrite Hf. vm_compute in Hf. by simplify_eq.
Defined.

Lemma release_frees_the_owners_witness :
  let second := play example_world example_first.2
    (DeallocateByOwner example_first.1.2 "a") in
  live example_first.2 49153 ≠ None ∧ live second.2 49153 = None ∧ is_ok second.1.1 = true.
Proof.
  intros second. split; [vm_compute; discriminate|].
  destruct (release_frees_the_owners _ _ "a" second.1.1 second.1.2 second.2
    example_first_reachable) as (_ & _ & Hfree).
  - rewrite <- surjective_pairing. apply play_exec.
  - split; [|vm_compute; reflexivity].
    apply (Hfree ltac:(vm_compute; reflexivity) _ (mkAllocation 49153 ProtocolTCP "a" false));
      vm_compute; reflexivity.
Defined.

Lemma allocates_first_vacant_witness :
  (play example_world example_first.2 (Allocate example_service "b" ProtocolUDP 0)).1.1 = Ok 49154%Z.
Proof.
  rewrite (allocates_first_vacant example_world example_first.2 example_service "b" ProtocolUDP 0).
  - vm_compute. reflexivity.
  - apply (reachable_wf _ _ example_first_reachable).
  - done.
  - lia.
  - vm_compute. lia.
Defined.

(** A release whose projection is lost: the store has the port free, its row stays, a
    second release is accepted and changes nothing, and the port is never offered again. *)
Definition lost_release : state :=
  mkState (<[itoa 49153 := unallocated]> ∅) ∅
    (<[49153%Z := mkAllocation 49153 ProtocolTCP "a" false]> ∅).

Lemma lost_release_reachable : ∃ n, reachable n lost_release.
Proof.
  exists example_service.
  assert (∀ rows', rows' = rows (commit (DeallocatePort 49153) example_first.2) →
    reachable example_service (mkState (aggs (commit (DeallocatePort 49153) example_first.2)) ∅ rows'))
    as H.
  { intros rows' ->. eapply reach_restart; [apply example_first_reachable|by apply (op_deallocate _ "a")| |done|by left].
    simpl. right. exists example_first.2, (Ok [mkAllocation 49153 ProtocolTCP "a" false]), example_first.2.
    split; [apply rtc_refl|]. split; [split; [done|by vm_compute]|].
    right. exists example_first.2, (Ok ()), (commit (DeallocatePort 49153) example_first.2).
    split; [apply rtc_refl|]. split; [by vm_compute|]. left. apply rtc_refl. }
  specialize (H _ eq_refl). by vm_compute in H.
Qed.

Lemma lost_release_stays :
  let again := play example_world lost_release (DeallocateByOwner example_service "a") in
  is_ok again.1.1 = true ∧ rows again.2 = rows lost_release ∧
  (play example_world again.2 (Allocate example_service "b" ProtocolTCP 49153)).1.1 = Ok 49154%Z.
Proof. vm_compute. done. Qed.

(** ** What is checked before a port is recorded *)

Abbreviation history := (list (event answer)).

(** No row has the port, and each protocol's socket could be bound. *)
Definition checked (h : history) (port : Z) (protocol : Protocol) : Prop :=
  existT (RowAt port) (Ok None) ∈ h ∧
  (protocol = ProtocolTCP ∨ protocol = ProtocolTCPUDP → existT (Listen "tcp" port) true ∈ h) ∧
  (protocol = ProtocolUDP ∨ protocol = ProtocolTCPUDP → existT (Listen "udp" port) true ∈ h).

(** A port is recorded for who asked once checked, and a UPnP device is given its number
    unchanged by the conversion to 16 bits. *)
Definition may_record (owner : string) (protocol : Protocol) (h : history) (c : call) : Prop :=
  match c with
  | SendPort (AllocatePort port protocol' owner' _) =>
      protocol' = protocol ∧ owner' = owner ∧ checked h port protocol
  | SendPort (DeallocatePort _) => False
  | AddUPnPMapping external _ internal _ _ =>
      external = internal ∧ (1 ≤ external ≤ 65535)%Z ∧ checked h external protocol
  | AddNATMapping _ internal external lifetime =>
      external = internal ∧ lifetime = 3600%Z ∧ checked h external protocol
  | DeleteUPnPMapping _ _ => False
  | _ => True
  end.

Section checks.
Context (owner : string) (protocol : Protocol).

Abbreviation keeps h p Q := (follows (histories (may_record owner protocol)) h p Q).

Lemma checked_extends h h' port : extends h h' → checked h port protocol → checked h' port protocol.
Proof. intros Hh (? & ? & ?). split_and!; eauto using elem_of_extends. Qed.

Lemma keeps_ask {A} h c (f : answer c → P A) Q :
  may_record owner protocol h c →
  (∀ r h', extends h h' → existT c r ∈ h' → keeps h' (f r) Q) → keeps h (ask c ≫= f) Q.
Proof. apply follows_logged. Qed.

#[local] Hint Resolve extends_refl extends_trans elem_of_extends checked_extends : checks.

Lemma osBindTest_keeps h port :
  existT (RowAt port) (Ok None) ∈ h →
  keeps h (osBindTest port protocol) (λ ok h', extends h h' ∧ (ok = true → checked h' port protocol)).
Proof.
  intros Hrow. unfold osBindTest. apply follows_bind.
  apply (follows_mono _ h _ (λ tcp h', extends h h' ∧ (tcp = true →
    protocol = ProtocolTCP ∨ protocol = ProtocolTCPUDP → existT (Listen "tcp" port) true ∈ h'))).
  { case_bool_decide as Ht; [|by apply follows_ret; split; [apply extends_refl|]].
    apply (keeps_ask h (Listen "tcp" port) mret); [done|]. intros ok h1 H1 Hin.
    apply follows_ret. split; [done|]. by intros ->. }
  intros [] h1 [H1 Htcp]; cbn [negb].
  2: { apply follows_ret. done. }
  case_bool_decide as Hu.
  - apply (keeps_ask h1 (Listen "udp" port) mret); [done|]. intros ok h2 H2 Hin.
    apply follows_ret. split; [eauto with checks|]. intros ->.
    split_and!; eauto with checks.
  - apply follows_ret. split; [done|]. intros _. split_and!; eauto with checks. done.
Qed.

Lemma isPortAvailable_keeps h port :
  keeps h (isPortAvailable port protocol) (λ r h', extends h h' ∧ (r = Ok true → checked h' port protocol)).
Proof.
  unfold isPortAvailable, bind_ok. apply (keeps_ask h (RowAt port)); [done|].
  intros [[a|]|e] h1 H1 Hin; [by apply follows_ret| |by apply follows_ret].
  apply follows_bind. eapply follows_mono; [by apply osBindTest_keeps|].
  intros ok h2 [H2 Hc]. apply follows_ret. split; [eauto with checks|]. intros [= ->]. auto.
Qed.

(** A search that ends with a port found it among [l], and checked it. *)
Definition found_in (l : list Z) (h : history) (r : result error Z) (h' : history) : Prop :=
  extends h h' ∧ ∀ port, r = Ok port → port ∈ l ∧ checked h' port protocol.

Lemma candidate_keeps h port l (rest : P (result error Z)) :
  (∀ h', keeps h' rest (found_in l h')) →
  keeps h (bind_ok (isPortAvailable port protocol) (λ ok : bool, if ok then mret (Ok port) else rest))
    (found_in (port :: l) h).
Proof.
  intros Hrest. apply follows_bind_ok. eapply follows_mono; [apply isPortAvailable_keeps|].
  intros [[]|e] h1 [H1 Hc]; [|eapply follows_mono; [apply Hrest|]|by split].
  - apply follows_ret. split; [done|]. intros ? [= <-]. split; [left|auto].
  - intros r h2 [H2 Hr]. split; [eauto with checks|]. intros p Hp.
    destruct (Hr p Hp). split; [by right|done].
Qed.

Lemma scan_keeps h l : keeps h (scan l protocol) (found_in l h).
Proof.
  revert h. induction l as [|p l IH]; intros h; cbn [scan].
  - apply follows_ret. split; [apply extends_refl|done].
  - by apply candidate_keeps.
Qed.

Lemma findAvailablePort_keeps h n preferred :
  keeps h (findAvailablePort preferred (portStart n) (portEnd n) protocol)
    (λ r h', (r ≠ Err [ErrPortOutOfRange] → (0 ≤ preferred ≤ 65535)%Z) ∧
       found_in (candidates n preferred) h r h').
Proof.
  unfold findAvailablePort, candidates. destruct (negb _ && _) eqn:Hb.
  { apply follows_ret. split; [done|]. split; [apply extends_refl|done]. }
  eapply (follows_mono _ _ _ (found_in _ h)); [|intros r h' H; split; [intros _; lia|exact H]].
  destruct (Z.ltb_spec 0 preferred); [|apply scan_keeps].
  apply candidate_keeps. intros h'. apply scan_keeps.
Qed.

Lemma for_each_keeps {A} h (xs : list A) (g : A → P (result error unit)) :
  (∀ x h', extends h h' → keeps h' (g x) (λ _, extends h')) →
  keeps h (for_each g xs) (λ _, extends h).
Proof.
  intros Hg. assert (∀ h', extends h h' → keeps h' (for_each g xs) (λ _, extends h')) as H;
    [|by apply H, extends_refl].
  induction xs as [|x xs IH]; intros h' Hh'; cbn [for_each]; [apply follows_ret, extends_refl|].
  apply follows_bind_ok. eapply follows_mono; [by apply Hg|].
  intros [a|e] h2 H2; [|done]. eapply follows_mono; [apply IH; eauto with checks|].
  eauto with checks.
Qed.
Lemma Forward_keeps h s port :
  checked h port protocol → keeps h (Forward s port protocol) (λ _, extends h).
Proof.
  intros Hc. destruct s; cbn [Forward].
  - unfold upnp_Forward, bind_ok. apply (keeps_ask h DiscoverIGDs); [done|].
    intros [igds|e] h1 H1 _; [|by apply follows_ret]. destruct (Nat.eqb igds 0); [by apply follows_ret|].
    apply (keeps_ask h1 LocalIP); [done|].
    intros [ip|e] h2 H2 _; [|apply follows_ret; eauto with checks].
    destruct (upnp_in_range port) eqn:Hp; cbn [negb]; [|apply follows_ret; eauto with checks].
    unfold upnp_in_range in Hp. assert (uint16 port = port) as -> by (apply Z.mod_small; lia).
    eapply follows_mono; [apply for_each_keeps|eauto with checks].
    intros proto h3 H3. apply (keeps_ask h3 (AddUPnPMapping port proto port ip 3600) mret).
    + split_and!; [done|lia..|]. eauto with checks.
    + intros r h4 H4 _. by apply follows_ret.
  - unfold natpmp_Forward, natpmp_mapping, bind_ok. apply (keeps_ask h DiscoverGateway); [done|].
    intros [[]|e] h1 H1 _; [|by apply follows_ret].
    eapply follows_mono; [apply for_each_keeps|eauto with checks].
    intros proto h3 H3. apply (keeps_ask h3 (AddNATMapping proto port port 3600) mret).
    + split_and!; [done..|]. eauto with checks.
    + intros r h4 H4 _. by apply follows_ret.
Qed.

Lemma forwardAny_keeps h ss port :
  checked h port protocol → keeps h (forwardAny ss port protocol) (λ _, extends h).
Proof.
  revert h. induction ss as [|s ss IH]; intros h Hc; cbn [forwardAny].
  { apply follows_ret, extends_refl. }
  apply follows_bind. eapply follows_mono; [by apply Forward_keeps|].
  intros r h1 H1. cbv beta in H1. destruct (is_ok r); [by apply follows_ret|].
  eapply follows_mono; [apply IH; eauto with checks|eauto with checks].
Qed.

Lemma adoptIfClaimed_keeps h port : keeps h (adoptIfClaimed port) (λ _, extends h).
Proof.
  unfold adoptIfClaimed. apply (keeps_ask h (GetPort (itoa port))); [done|].
  intros [a|e] h1 H1 _; [|by apply follows_ret]. destruct (Z.eqb _ _); [by apply follows_ret|].
  apply (keeps_ask h1 (SaveRow a)); [done|]. intros r h2 H2 _. apply follows_ret. eauto with checks.
Qed.

Lemma resolveStrategies_keeps h n :
  keeps h (resolveStrategies n) (λ r h', extends h h' ∧ portStart r.2 = portStart n ∧ portEnd r.2 = portEnd n).
Proof.
  unfold resolveStrategies. destruct (stratsReady n).
  { apply follows_ret. split; [apply extends_refl|done]. }
  apply (keeps_ask h Discovered); [done|]. intros [l|] h1 H1 _; by apply follows_ret.
Qed.

(** What an allocation that returns a port has done *)
Definition recorded (n : netbridgeService) (preferred : Z) (h : history)
  (rn : result error Z * netbridgeService) (h' : history) : Prop :=
  extends h h' ∧ ∀ port, rn.1 = Ok port →
    (0 ≤ preferred ≤ 65535)%Z ∧ port ∈ candidates n preferred ∧
    ∃ forwarded, existT (SendPort (AllocatePort port protocol owner forwarded)) (Ok ()) ∈ h'.

Lemma recorded_err n preferred h h' e n' :
  extends h h' → keeps h' (mret (Err e, n')) (recorded n preferred h).
Proof. intros Hh. apply follows_ret. by split. Qed.

Lemma allocate_loop_keeps k n preferred h :
  keeps h (allocate_loop k n owner protocol preferred) (recorded n preferred h).
Proof.
  revert h. induction k as [|k IH]; intros h; cbn [allocate_loop].
  { apply recorded_err, extends_refl. }
  apply follows_bind. eapply follows_mono; [apply findAvailablePort_keeps|].
  intros [port|e] h1 (Hpref & H1 & Hport); [|by apply recorded_err].
  destruct (Hport port eq_refl) as [Hin Hc].
  apply follows_bind. eapply follows_mono; [apply adoptIfClaimed_keeps|].
  intros [] h2 H2.
  { eapply follows_mono; [apply IH|]. intros r h3 [H3 Hr]. split; eauto with checks. }
  apply follows_bind. eapply follows_mono; [apply resolveStrategies_keeps|].
  intros [ss n'] h3 (H3 & _). apply follows_bind.
  eapply follows_mono; [apply forwardAny_keeps; eauto with checks|].
  intros forwarded h4 H4. cbv beta in H2, H4.
  assert (extends h1 h4) as H14 by (by do 2 (eapply extends_trans; [eassumption|])).
  assert (extends h h4) as H04 by (by eapply extends_trans).
  clear H1 H2 H3 H4.
  apply (keeps_ask h4 (SendPort (AllocatePort port protocol owner forwarded)));
    [split_and!; [done..|eauto with checks]|].
  intros [[]|e] h5 H5 Hsent; [|apply recorded_err; eauto with checks].
  apply (keeps_ask h5 WaitPublish); [done|]. intros _ h6 H6 _. apply follows_ret.
  split; [eauto with checks|]. cbn [fst]. intros ? [= <-].
  split; [by apply Hpref|]. split; [done|]. eauto with checks.
Qed.

End checks.

(** Whatever the calls answer, a port is recorded, and mapped on the router, only after no row had
    it and its sockets could be bound, and its number fits in 16 bits wherever it is
    converted; the port returned is the preferred one or in the range, so between 1 and
    65535 if the range is, and its command was accepted. *)
Lemma recorded_port_was_checked n owner protocol preferred l r n' :
  trace (Allocate n owner protocol preferred) l (r, n') →
  (∀ l1 c a l2, l = l1 ++ existT c a :: l2 → may_record owner protocol l1 c) ∧
  ∀ port, r = Ok port →
    (0 < preferred ∧ port = preferred ∨ portStart n ≤ port ≤ portEnd n)%Z ∧
    (1 ≤ portStart n → portEnd n ≤ 65535 → 1 ≤ port ≤ 65535)%Z ∧
    ∃ forwarded, existT (SendPort (AllocatePort port protocol owner forwarded)) (Ok ()) ∈ l.
Proof.
  intros Ht.
  pose proof (follows_trace _ _ _ _ _ _
    (allocate_loop_keeps owner protocol maxAllocateAttempts n preferred []) Ht) as [Ha [_ Hr]].
  rewrite after_histories in Hr. split.
  - intros l1 c a l2 Hl. by eapply (proj1 (accepts_histories _ [] l) Ha).
  - intros port Hp. destruct (Hr port Hp) as (Hpref & Hin & Hsent).
    assert (0 < preferred ∧ port = preferred ∨ portStart n ≤ port ≤ portEnd n)%Z as Hw.
    { unfold candidates, port_range in Hin. apply elem_of_app in Hin as [Hin|Hin%elem_of_seqZ]; [|lia].
      destruct (Z.ltb_spec 0 preferred); [|by apply not_elem_of_nil in Hin].
      apply list_elem_of_singleton in Hin. lia. }
    split; [exact Hw|]. split; [lia|done].
Qed.

Fixpoint play_trace {A} (w : ∀ c, answer c) (s : state) (p : P A) : history :=
  match p with
  | Return _ => []
  | Call c k => existT c (serve w s c).1 :: play_trace w (serve w s c).2 (k (serve w s c).1)
  end.

Lemma play_traced {A} w s (p : P A) : trace p (play_trace w s p) (play w s p).1.
Proof. revert s. induction p as [a|c k IH]; intros s; simpl; eauto. Qed.

Lemma recorded_port_was_checked_witness :
  ∃ f, existT (SendPort (AllocatePort 49153 ProtocolTCP "a" f)) (Ok ())
    ∈ play_trace example_world (mkState ∅ ∅ ∅) (Allocate example_service "a" ProtocolTCP 0).
Proof.
  destruct (recorded_port_was_checked example_service "a" ProtocolTCP 0
    (play_trace example_world (mkState ∅ ∅ ∅) (Allocate example_service "a" ProtocolTCP 0))
    example_first.1.1 example_first.1.2) as [_ Hp].
  - rewrite <- surjective_pairing. apply play_traced.
  - apply (Hp 49153%Z). vm_compute. reflexivity.
Defined.
