(* ===== verification/VaultPaths.v ===== *)
(** * How the vault names things on disk (internal/engine/vault/pathsafe.go)

    A namespace is the name of a workdir under one root and of a cache entry in
    another directory.  Its selector is one path component, percent-encoded so that no
    other selector maps to it even where case is folded; a name too long is cut and
    ends in a digest.  Earlier layouts are still found.  The digest is an argument, the
    directories are answers. *)

From S2P Require Import Prelude Errors GoStrings GoFilepath Domain.

(** ** Escapes (net/url, and [fmt]'s [%%%02X]) *)

Definition is_upper (c : ascii) : bool := byte_in "A" "Z" c.

Definition hex_digit (n : N) : ascii :=
  if (n <? 10)%N then ascii_of_N (n + 48) else ascii_of_N (n + 55).

Definition pct (c : ascii) : string :=
  String "%" (String (hex_digit (N_of_ascii c / 16)) (String (hex_digit (N_of_ascii c mod 16)) "")).

Definition unhex (c : ascii) : option N :=
  if byte_in "0" "9" c then Some (N_of_ascii c - 48)%N
  else if byte_in "a" "f" c then Some (N_of_ascii c - 87)%N
  else if byte_in "A" "F" c then Some (N_of_ascii c - 55)%N
  else None.

(** [url.PathUnescape]: a percent sign that two hexadecimal digits do not follow is an
    error. *)
Fixpoint PathUnescape (s : string) : option string :=
  match s with
  | "" => Some ""
  | String c s' =>
    if Ascii.eqb c "%" then
      match s' with
      | String h (String l s'') =>
        match unhex h, unhex l with
        | Some h, Some l => String (ascii_of_N (16 * h + l)) <$> PathUnescape s''
        | _, _ => None
        end
      | _ => None
      end
    else String c <$> PathUnescape s'
  end.

(** Whether [url.PathEscape] escapes the byte *)
Definition shouldEscape (c : ascii) : bool :=
  negb (is_alpha c || is_digit c || contains_byte c "-_.~$&+:=@").

Fixpoint PathEscape (s : string) : string :=
  match s with
  | "" => ""
  | String c s' => (if shouldEscape c then pct c else String c "") +:+ PathEscape s'
  end.

(** ** Selectors as path components *)

Definition windowsReserved : string :=
  "<>:" +:+ String "034" "|?*\%".

Definition identityReserved : string := windowsReserved +:+ "/~".

Definition maxNameLen : nat := 96.
Definition maxComponentLen : nat := 255.
Definition hashedMarker : ascii := "~".
Definition hashLen : nat := 32.

(** A control byte, below 0x20 *)
Definition is_control (c : ascii) : bool := (N_of_ascii c <? 32)%N.

Definition dot_or_space (c : ascii) : bool := Ascii.eqb c "." || Ascii.eqb c " ".

Definition mustEscapeIdentity (c : ascii) (last : bool) : bool :=
  if is_control c || (127 <=? N_of_ascii c)%N || is_upper c || contains_byte c identityReserved
  then true
  else last && dot_or_space c.


Fixpoint encodeRefSegment (ref : string) : string :=
  match ref with
  | "" => ""
  | String c ref' =>
    (if mustEscapeIdentity c (is_empty ref') then pct c else String c "") +:+ encodeRefSegment ref'
  end.

(** [strings.LastIndexByte] *)
Fixpoint last_index (c : ascii) (s : string) : option nat :=
  match s with
  | "" => None
  | String d s' =>
    match last_index c s' with
    | Some i => Some (S i)
    | None => if Ascii.eqb d c then Some 0 else None
    end
  end.

Section hashed.
(** [hex.EncodeToString] of [sha256.Sum256] *)
Context (hex_sha256 : string → string).

(** Where a long name is cut: before an escape the limit would split *)
Definition cut_at (name : string) : nat :=
  let cut := maxNameLen - 1 - hashLen in
  match last_index "%" (take_bytes cut name) with
  | Some i => if cut - 2 <=? i then i else cut
  | None => cut
  end.

Definition capName (name : string) (ns : Namespace) : string :=
  if String.length name <=? maxNameLen then name
  else take_bytes (cut_at name) name +:+ String hashedMarker (take_bytes hashLen (hex_sha256 ns)).

Definition encodeNS (ns : Namespace) : string :=
  match cut_byte "@" ns with
  | None => capName (PathEscape ns) ns
  | Some (bare, ref) => capName (PathEscape bare +:+ "@" +:+ encodeRefSegment ref) ns
  end.

Definition isHashed (name : string) : bool := contains_byte hashedMarker name.

(** [strings.ReplaceAll(s, ":", "%3A")] *)
Fixpoint escape_colons (s : string) : string :=
  match s with
  | "" => ""
  | String c s' => (if Ascii.eqb c ":" then pct c else String c "") +:+ escape_colons s'
  end.

Definition legacyEncodeNS (ns : Namespace) : string :=
  match cut_byte "@" ns with
  | None => PathEscape ns
  | Some (bare, ref) => PathEscape bare +:+ "@" +:+ escape_colons (PathEscape ref)
  end.

(** *** The layout before identities were one component *)

Definition isWindowsDeviceName (component : string) : bool :=
  let stem := to_upper (match cut_byte "." component with Some (s, _) => s | None => component end) in
  if bool_decide (stem ∈ ["CON"; "PRN"; "AUX"; "NUL"]) then true
  else
    match stem with
    | String a (String b (String c (String d ""))) =>
      let name := String a (String b (String c "")) in
      (String.eqb name "COM" || String.eqb name "LPT") && byte_in "1" "9" d
    | _ => false
    end.

(** The byte [c] of a component, with what it is in it *)
Definition mustEscape (component : string) (c : ascii) (first last standalone : bool) : bool :=
  if is_control c || contains_byte c windowsReserved then true
  else if last && dot_or_space c then true
  else first && standalone && isWindowsDeviceName component.

Fixpoint escape_from (component : string) (first standalone : bool) (s : string) : string :=
  match s with
  | "" => ""
  | String c s' =>
    (if mustEscape component c first (is_empty s') standalone then pct c else String c "") +:+
    escape_from component false standalone s'
  end.

Definition escapeComponent (component : string) (standalone : bool) : string :=
  escape_from component true standalone component.

Definition escapeRefDir (ref : string) : string :=
  match split_byte "/" ref with
  | [] => ""
  | c :: cs => join "/" (escapeComponent c false :: map (λ c, escapeComponent c true) cs)
  end.

(** ** Workdirs *)

Definition identityDir (ns : Namespace) : string :=
  match cut_byte "@" ns with
  | None => ns
  | Some (bare, ref) =>
    let '(parent, repo) := path_Split bare in
    parent +:+ capName (repo +:+ "@" +:+ encodeRefSegment ref) ns
  end.

Definition legacyIdentityDir (ns : Namespace) : string :=
  match cut_byte "@" ns with
  | None => ns
  | Some (bare, ref) => bare +:+ "@" +:+ escapeRefDir ref
  end.

Definition legacyIdentityDirs (ns : Namespace) : list string :=
  let add dirs rel :=
    if negb (String.eqb rel (identityDir ns)) && negb (bool_decide (rel ∈ dirs))
    then dirs ++ [rel] else dirs in
  add (add [] (legacyIdentityDir ns)) ns.

Fixpoint decode_components (components : list string) : option (list string) :=
  match components with
  | [] => Some []
  | c :: cs =>
    decoded ← PathUnescape c;
    rest ← decode_components cs;
    Some (decoded :: rest)
  end.

Definition decodeNSDir (rel : string) : Namespace :=
  match cut_byte "@" rel with
  | None => rel
  | Some (bare, ref) =>
    match decode_components (split_byte "/" ref) with
    | None => rel
    | Some components => bare +:+ "@" +:+ join "/" components
    end
  end.

(** The directories: what [os.ReadDir] lists of one, [None] being an error, and whether
    [os.Stat] finds something *)
Record filesystem := mkFilesystem {
  ReadDir : string → option (list string);
  exists_at : string → bool;
}.

Definition hasEntry (entries : list string) (name : string) : bool := bool_decide (name ∈ entries).

Section root.
Context (namespacesPath : string) (fs : filesystem).

Definition underNamespaces (rel : string) : result error string :=
  let base := Clean namespacesPath in
  let resolved := Join [base; rel] in
  if String.prefix (base +:+ "/") resolved then Ok resolved else Err [ErrInvalidNamespace].

Definition hasExactEntry (path : string) : bool :=
  match ReadDir fs (Dir path) with
  | None => false
  | Some entries => hasEntry entries (Base path)
  end.

Fixpoint exists_components (dir : string) (components : list string) : bool :=
  match components with
  | [] => true
  | c :: cs =>
    match ReadDir fs dir with
    | None => false
    | Some entries => if hasEntry entries c then exists_components (Join [dir; c]) cs else false
    end
  end.

Definition existsExactly (rel : string) : bool :=
  exists_components (Clean namespacesPath) (split_byte "/" rel).

Fixpoint first_legacy (dirs : list string) : option string :=
  match dirs with
  | [] => None
  | rel :: dirs' =>
    match underNamespaces rel with
    | Ok legacy => if existsExactly rel then Some legacy else first_legacy dirs'
    | Err _ => first_legacy dirs'
    end
  end.

Definition namespacePath (ns : Namespace) : result error string :=
  match underNamespaces (identityDir ns) with
  | Err e => Err e
  | Ok current =>
    if hasExactEntry current then Ok current
    else
      match first_legacy (legacyIdentityDirs ns) with
      | Some legacy => Ok legacy
      | None => if exists_at fs current then Err [ErrWorkDirCollision] else Ok current
      end
  end.
End root.
End hashed.

Example encode_ex1 : encodeRefSegment "release/1.0" = "release%2F1.0". Proof. reflexivity. Qed.
Example encode_ex2 : encodeRefSegment "v1." = "v1%2E" ∧ encodeRefSegment ".." = ".%2E". Proof. done. Qed.
Example escape_ex : PathEscape "github.com/u/r" = "github.com%2Fu%2Fr". Proof. reflexivity. Qed.
Example device_ex : escapeRefDir "a/aux.txt" = "a/%61ux.txt" ∧ escapeRefDir "../x" = ".%2E/x".
Proof. done. Qed.
Example identity_ex : identityDir (λ s, s) "github.com/u/r@V1" = "github.com/u/r@%561". Proof. reflexivity. Qed.

(** ** Escaping is undone by unescaping *)

(** [t] is [s] with any of its bytes escaped, percent signs among them. *)
Inductive escaped : string → string → Prop :=
| escaped_nil : escaped "" ""
| escaped_pct c s t : escaped s t → escaped (String c s) (pct c +:+ t)
| escaped_plain c s t : c ≠ "%"%char → escaped s t → escaped (String c s) (String c t).

#[local] Hint Constructors escaped : escapes.

Lemma PathUnescape_pct c s : PathUnescape (pct c +:+ s) = String c <$> PathUnescape s.
Proof. destruct c as [[] [] [] [] [] [] [] []]; reflexivity. Qed.

Lemma PathUnescape_pct_lower c s :
  PathUnescape (to_lower (pct c +:+ s)) = String c <$> PathUnescape (to_lower s).
Proof. destruct c as [[] [] [] [] [] [] [] []]; reflexivity. Qed.

Lemma PathUnescape_plain c s : c ≠ "%"%char → PathUnescape (String c s) = String c <$> PathUnescape s.
Proof. intros Hc. cbn [PathUnescape]. by rewrite (proj2 (Ascii.eqb_neq c "%") Hc). Qed.

Lemma PathUnescape_escaped s t : escaped s t → PathUnescape t = Some s.
Proof.
  induction 1 as [|c s t _ IH|c s t Hc _ IH]; [done| |].
  - by rewrite PathUnescape_pct, IH.
  - by rewrite PathUnescape_plain, IH.
Qed.

Lemma escaped_app s1 t1 s2 t2 : escaped s1 t1 → escaped s2 t2 → escaped (s1 +:+ s2) (t1 +:+ t2).
Proof.
  intros H1 H2. induction H1 as [|c s t _ IH|c s t Hc _ IH]; [done| |].
  - change (String c s +:+ s2) with (String c (s +:+ s2)). rewrite string_app_assoc.
    by apply escaped_pct.
  - by apply escaped_plain.
Qed.

(** One byte through an encoder that escapes percent signs *)
Lemma escaped_byte (b : bool) c s t :
  (c = "%"%char → b = true) → escaped s t →
  escaped (String c s) ((if b then pct c else String c "") +:+ t).
Proof.
  intros Hb Ht. destruct b; [by apply escaped_pct|]. apply escaped_plain; [|done].
  intros Hc. by specialize (Hb Hc).
Qed.

Lemma PathEscape_escaped s : escaped s (PathEscape s).
Proof.
  induction s as [|c s IH]; [constructor|]. cbn [PathEscape]. apply escaped_byte; [|done].
  by intros ->.
Qed.

Lemma encodeRefSegment_escaped s : escaped s (encodeRefSegment s).
Proof.
  induction s as [|c s IH]; [constructor|]. cbn [encodeRefSegment]. apply escaped_byte; [|done].
  by intros ->.
Qed.

Lemma escape_from_escaped component first standalone s :
  escaped s (escape_from component first standalone s).
Proof.
  revert first. induction s as [|c s IH]; intros first; [constructor|]. cbn [escape_from].
  apply escaped_byte; [|apply IH]. by intros ->.
Qed.

(** *** What an encoded selector holds *)

Lemma exists_byte_impl f g s :
  (∀ c, f c = true → g c = true) → exists_byte f s = true → exists_byte g s = true.
Proof.
  intros H. induction s as [|c s IH]; simpl; [done|]. rewrite !orb_true_iff.
  intros [Hc|Hs]; [left; auto|right; auto].
Qed.

(** Bytes an encoded selector never holds: those it escapes, and no hexadecimal digit or
    percent sign is one *)
Definition kept_out (c : ascii) : bool :=
  is_control c || (127 <=? N_of_ascii c)%N || contains_byte c "<>:|?*\/~".

Lemma pct_keeps_out c : exists_byte kept_out (pct c) = false.
Proof. destruct c as [[] [] [] [] [] [] [] []]; reflexivity. Qed.

Lemma kept_out_escaped c last : mustEscapeIdentity c last = false → kept_out c = false.
Proof.
  destruct last; destruct c as [[] [] [] [] [] [] [] []]; vm_compute; intros H;
    first [exact H|reflexivity|discriminate].
Qed.

Lemma encodeRefSegment_keeps_out s : exists_byte kept_out (encodeRefSegment s) = false.
Proof.
  induction s as [|c s IH]; [done|]. cbn [encodeRefSegment]. rewrite exists_byte_app, IH, orb_false_r.
  destruct (mustEscapeIdentity c _) eqn:Hm; [apply pct_keeps_out|]. simpl. rewrite orb_false_r.
  by eapply kept_out_escaped.
Qed.

Lemma encodeRefSegment_without c s : kept_out c = true → contains_byte c (encodeRefSegment s) = false.
Proof.
  intros Hc. apply not_true_is_false. intros H.
  assert (exists_byte kept_out (encodeRefSegment s) = true) as Hk.
  { revert H. apply exists_byte_impl. intros d Hd. apply Ascii.eqb_eq in Hd. by subst. }
  by rewrite encodeRefSegment_keeps_out in Hk.
Qed.

Lemma encodeRefSegment_unfolds s : PathUnescape (to_lower (encodeRefSegment s)) = Some s.
Proof.
  induction s as [|c s IH]; [done|]. cbn [encodeRefSegment].
  destruct (mustEscapeIdentity c (is_empty s)) eqn:Hm.
  - by rewrite PathUnescape_pct_lower, IH.
  - assert (c ≠ "%"%char ∧ lower_byte c = c) as [Hc Hl].
    { revert Hm. generalize (is_empty s). intros b Hm. split; [by intros ->|].
      unfold lower_byte. change (byte_in "A" "Z" c) with (is_upper c).
      destruct (is_upper c) eqn:Hu; [|done].
      unfold mustEscapeIdentity in Hm. by rewrite Hu, orb_true_r in Hm. }
    change (String c "" +:+ ?t) with (String c t).
    change (to_lower (String c ?t)) with (String (lower_byte c) (to_lower t)).
    by rewrite Hl, PathUnescape_plain, IH.
Qed.

Lemma encodeRefSegment_fold_inj a b :
  to_lower (encodeRefSegment a) = to_lower (encodeRefSegment b) → a = b.
Proof.
  intros H. pose proof (encodeRefSegment_unfolds a) as Ha.
  rewrite H, encodeRefSegment_unfolds in Ha. by simplify_eq.
Qed.

(** The encoding of a selector as a path component is undone by unescaping it, also
    once its case is folded, so no two selectors get the same component, not even on a
    file system that folds case; and it holds no separator, no marker of a cut name and
    nothing Windows refuses. *)
Lemma selectors_kept_apart a b :
  PathUnescape (encodeRefSegment a) = Some a ∧
  (equal_fold (encodeRefSegment a) (encodeRefSegment b) = true → a = b) ∧
  exists_byte kept_out (encodeRefSegment a) = false.
Proof.
  split_and!.
  - apply PathUnescape_escaped, encodeRefSegment_escaped.
  - unfold equal_fold. intros H%String.eqb_eq. by apply encodeRefSegment_fold_inj.
  - apply encodeRefSegment_keeps_out.
Qed.

Lemma selectors_kept_apart_witness : encodeRefSegment "V1" ≠ encodeRefSegment "v1".
Proof.
  intros H. destruct (selectors_kept_apart "V1" "v1") as (_ & Hinj & _).
  discriminate (Hinj ltac:(rewrite H; reflexivity)).
Defined.

(** ** Names cut to length *)

Lemma take_bytes_without c n s : contains_byte c s = false → contains_byte c (take_bytes n s) = false.
Proof.
  unfold contains_byte. revert s. induction n as [|n IH]; intros [|d s]; simpl; [done..|].
  rewrite !orb_false_iff. intros [? ?]. auto.
Qed.

Lemma cut_at_le name : cut_at name ≤ maxNameLen - 1 - hashLen.
Proof.
  unfold cut_at. destruct (last_index _ _) as [i|] eqn:Hi; [|done].
  assert (∀ s, last_index "%" s = Some i → i < String.length s) as Hlt.
  { clear. intros s. revert i. induction s as [|c s IH]; intros i; simpl; [done|].
    destruct (last_index "%" s) as [j|]; [intros [= <-]; specialize (IH j eq_refl); lia|].
    destruct (Ascii.eqb c "%"); [intros [= <-]; lia|done]. }
  apply Hlt in Hi. rewrite take_bytes_length in Hi.
  destruct (_ <=? i); [|done]. lia.
Qed.

Section digest.
Context (hex_sha256 : string → string).

(** What the code relies on of the digest: 64 bytes, none a separator or a marker *)
Definition hex_law : Prop := ∀ s,
  String.length (hex_sha256 s) = 64 ∧ contains_byte "/" (hex_sha256 s) = false.

(** Two identities whose names would end alike *)
Definition same_digest (a b : Namespace) : Prop :=
  take_bytes hashLen (hex_sha256 a) = take_bytes hashLen (hex_sha256 b).

Context (law : hex_law).

Lemma capName_length name ns : String.length (capName hex_sha256 name ns) ≤ maxNameLen.
Proof.
  unfold capName. destruct (Nat.leb_spec (String.length name) maxNameLen); [done|].
  rewrite string_length_app. cbn [String.length]. rewrite !take_bytes_length.
  pose proof (cut_at_le name). destruct (law ns) as [-> _].
  unfold maxNameLen, hashLen in *. lia.
Qed.

Lemma capName_without c name ns :
  c ≠ hashedMarker → contains_byte c (hex_sha256 ns) = false →
  contains_byte c name = false → contains_byte c (capName hex_sha256 name ns) = false.
Proof.
  intros Hc Hd Hn. unfold capName. destruct (_ <=? _); [done|].
  unfold contains_byte. rewrite exists_byte_app. cbn [exists_byte].
  fold (contains_byte c (take_bytes (cut_at name) name)).
  rewrite take_bytes_without by done. rewrite (proj2 (Ascii.eqb_neq c hashedMarker) Hc), !orb_false_l.
  by apply (take_bytes_without c).
Qed.

(** Names that hold no marker are told apart once capped, but for a digest they share. *)
Lemma capName_inj n1 n2 a b :
  isHashed n1 = false → isHashed n2 = false →
  capName hex_sha256 n1 a = capName hex_sha256 n2 b → n1 = n2 ∨ same_digest a b.
Proof.
  unfold isHashed, capName. intros H1 H2.
  assert (∀ n x d, contains_byte hashedMarker n = false →
    n = x +:+ String hashedMarker d → False) as Hno.
  { intros n x d Hn ->. unfold contains_byte in Hn. rewrite exists_byte_app in Hn.
    cbn [exists_byte] in Hn. by rewrite Ascii.eqb_refl, orb_true_r in Hn. }
  destruct (_ <=? _), (_ <=? _); intros H;
    [by left|by destruct (Hno _ _ _ H1 H)|by destruct (Hno _ _ _ H2 (eq_sym H))|right].
  assert (∀ n, contains_byte hashedMarker n = false →
    contains_byte hashedMarker (take_bytes (cut_at n) n) = false) as Ht
    by (intros; by apply take_bytes_without).
  pose proof (cut_byte_no_sep hashedMarker _ (take_bytes hashLen (hex_sha256 a)) (Ht n1 H1)) as E1.
  pose proof (cut_byte_no_sep hashedMarker _ (take_bytes hashLen (hex_sha256 b)) (Ht n2 H2)) as E2.
  rewrite H, E2 in E1. by simplify_eq.
Qed.

Lemma isHashed_capName n ns :
  isHashed n = false → isHashed (capName hex_sha256 n ns) = negb (String.length n <=? maxNameLen).
Proof.
  unfold isHashed, capName. destruct (_ <=? _); [done|]. intros _. unfold contains_byte.
  rewrite exists_byte_app. cbn [exists_byte]. by rewrite Ascii.eqb_refl, orb_true_r.
Qed.

(** ** The components of a workdir *)

(** What the last component is of a namespace with a selector *)
Definition identity_name (repo ref : string) : string := repo +:+ "@" +:+ encodeRefSegment ref.

Definition components (ns : Namespace) : list string := split_byte "/" (identityDir hex_sha256 ns).

Lemma contains_byte_app c s t : contains_byte c (s +:+ t) = contains_byte c s || contains_byte c t.
Proof. apply exists_byte_app. Qed.

Lemma identity_name_without c repo ref :
  c ≠ "@"%char → kept_out c = true → contains_byte c repo = false →
  contains_byte c (identity_name repo ref) = false.
Proof.
  intros Hc Hk Hr. unfold identity_name. rewrite !contains_byte_app, Hr, encodeRefSegment_without by done.
  unfold contains_byte. cbn [exists_byte]. by rewrite (proj2 (Ascii.eqb_neq c "@") Hc).
Qed.

Definition last_component (ns : Namespace) (repo : string) : string :=
  match cut_byte "@" ns with
  | None => repo
  | Some (_, ref) => capName hex_sha256 (identity_name repo ref) ns
  end.

Lemma components_segments ns ps p :
  segments ns = ps ++ [p] → components ns = ps ++ [last_component ns p].
Proof.
  intros Hs. assert (Forall (λ p, contains_byte "/" p = false) (ps ++ [p])) as Hf
    by (rewrite <- Hs; apply split_byte_no_sep).
  assert (BareNamespace ns = join "/" (ps ++ [p])) as Hb by (by rewrite <- Hs, segments_join).
  unfold components, identityDir, last_component. unfold BareNamespace in Hb.
  destruct (cut_byte "@" ns) as [[bare ref]|]; [subst bare|].
  2: { rewrite Hb. apply split_join; [by destruct ps|done]. }
  destruct (path_Split_join ps p
    (capName hex_sha256 (identity_name p ref) ns) Hf) as [H2 H1].
  destruct (path_Split _) as [parent repo]. cbn [fst snd] in *. subst repo.
  fold (identity_name p ref). rewrite H1. apply split_join; [by destruct ps|].
  apply Forall_app in Hf as [Hps Hp]. apply Forall_cons in Hp as [Hp _].
  apply Forall_app. split; [done|]. repeat constructor.
  apply capName_without; [done|apply law|]. by apply identity_name_without.
Qed.

(** A name with a selector is not that of a segment: it holds an at sign, or the marker. *)
Lemma last_component_marked ns repo :
  is_Some (cut_byte "@" ns) → isHashed repo = false →
  contains_byte "@" (last_component ns repo) = true ∨ isHashed (last_component ns repo) = true.
Proof.
  intros [[bare ref] Hc] Hr. unfold last_component. rewrite Hc.
  rewrite isHashed_capName by (by apply identity_name_without).
  unfold capName. destruct (_ <=? _); [left|by right].
  unfold identity_name. rewrite !contains_byte_app. unfold contains_byte at 2. simpl.
  by rewrite orb_true_r.
Qed.

Lemma segments_without ns q :
  q ∈ segments ns → contains_byte "@" q = false ∧ (isHashed (BareNamespace ns) = false → isHashed q = false).
Proof.
  intros Hq. assert (∀ c, contains_byte c (BareNamespace ns) = false → contains_byte c q = false) as H.
  { intros c. rewrite <- (segments_join ns). induction (segments ns) as [|x l IH]; [by apply not_elem_of_nil in Hq|].
    destruct l as [|y l].
    - apply list_elem_of_singleton in Hq as ->. done.
    - rewrite join_cons, !contains_byte_app, !orb_false_iff. intros (Hx & _ & Hl).
      apply elem_of_cons in Hq as [->|Hq]; auto. }
  split; [apply H, BareNamespace_no_at|apply H].
Qed.

Lemma cut_byte_inj a b : cut_byte "@" a = cut_byte "@" b → BareNamespace a = BareNamespace b → a = b.
Proof.
  intros Hc Hb. unfold BareNamespace in Hb.
  destruct (cut_byte "@" a) as [[l r]|] eqn:Ha.
  - symmetry in Hc. apply cut_byte_some in Ha as [-> _], Hc as [-> _]. done.
  - by rewrite <- Hc in Hb.
Qed.

Lemma last_component_inj a b p q :
  isHashed p = false → isHashed q = false →
  contains_byte "@" p = false → contains_byte "@" q = false →
  last_component a p = last_component b q →
  same_digest a b ∨
  p = q ∧ snd <$> cut_byte "@" a = snd <$> cut_byte "@" b.
Proof.
  intros Hp Hq Hap Haq H.
  destruct (cut_byte "@" a) as [[ba ra]|] eqn:Ha, (cut_byte "@" b) as [[bb rb]|] eqn:Hb.
  - unfold last_component in H. rewrite Ha, Hb in H.
    apply capName_inj in H as [H|H]; [right| |by apply identity_name_without..]; [|by left].
    unfold identity_name in H.
    pose proof (cut_byte_no_sep "@" p (encodeRefSegment ra) Hap) as E1.
    pose proof (cut_byte_no_sep "@" q (encodeRefSegment rb) Haq) as E2.
    change (p +:+ String "@" ?x) with (p +:+ "@" +:+ x) in E1.
    change (q +:+ String "@" ?x) with (q +:+ "@" +:+ x) in E2.
    rewrite H, E2 in E1. simplify_eq. split; [done|]. cbn. f_equal.
    apply encodeRefSegment_fold_inj. congruence.
  - exfalso. destruct (last_component_marked a p) as [Hm|Hm]; [by rewrite Ha|done|..];
      rewrite H in Hm; unfold last_component in Hm; rewrite Hb in Hm; congruence.
  - exfalso. destruct (last_component_marked b q) as [Hm|Hm]; [by rewrite Hb|done|..];
      rewrite <- H in Hm; unfold last_component in Hm; rewrite Ha in Hm; congruence.
  - right. unfold last_component in H. by rewrite Ha, Hb in H.
Qed.

(** ** Which identities share a directory *)

(** The last segment, apart *)
Lemma segments_last ns : ∃ ps p, segments ns = ps ++ [p].
Proof.
  destruct (segments ns) as [|x l] eqn:Hs using rev_ind; [|by exists l, x].
  by pose proof (split_byte_not_nil "/" (BareNamespace ns)).
Qed.

(** A namespace no digest of which can be mistaken for a name *)
Definition plain (ns : Namespace) : Prop :=
  ValidateNamespace ns = None ∧ isHashed (BareNamespace ns) = false.

Lemma components_inj a b :
  plain a → plain b → ¬ (a ≠ b ∧ same_digest a b) → components a = components b → a = b.
Proof.
  intros [Hva Hha] [Hvb Hhb] Hd H.
  destruct (segments_last a) as (ps & p & Ha), (segments_last b) as (qs & q & Hb).
  rewrite (components_segments a ps p Ha), (components_segments b qs q Hb) in H.
  apply app_inj_tail in H as [<- H].
  destruct (segments_without a p) as [Hap Hhp]; [rewrite Ha; apply elem_of_app; right; left|].
  destruct (segments_without b q) as [Hbq Hhq]; [rewrite Hb; apply elem_of_app; right; left|].
  destruct (last_component_inj a b p q) as [Hs|[<- Hc]]; auto.
  - destruct (decide (a = b)); [done|]. by destruct Hd.
  - assert (BareNamespace a = BareNamespace b) as Hbare
      by (by rewrite <- (segments_join a), <- (segments_join b), Ha, Hb).
    apply cut_byte_inj; [|done]. unfold BareNamespace in Hbare.
    destruct (cut_byte "@" a) as [[]|], (cut_byte "@" b) as [[]|]; simplify_eq/=; congruence.
Qed.

Lemma components_inside a b rest :
  plain a → plain b → components a = components b ++ rest → rest ≠ [] →
  cut_byte "@" b = None ∧ take 3 (segments a) = segments b ∧ length (segments a) = 4.
Proof.
  intros [Hva Hha] [Hvb Hhb] H Hr.
  apply ValidateNamespace_ok in Hva as (_ & Hla & _), Hvb as (_ & Hlb & _).
  destruct (segments_last a) as (ps & p & Ha), (segments_last b) as (qs & q & Hb).
  rewrite (components_segments a ps p Ha), (components_segments b qs q Hb) in H.
  rewrite Ha, Hb, !length_app in *. cbn [length] in *.
  pose proof (f_equal length H) as Hl. rewrite !length_app in Hl. cbn [length] in Hl.
  assert (length rest ≠ 0) by (by destruct rest).
  assert (length ps = 3 ∧ length qs = 2 ∧ length rest = 1) as (Hps & Hqs & Hrest) by lia.
  destruct rest as [|r []]; try done. apply app_inj_tail in H as [H _].
  assert (cut_byte "@" b = None) as Hn.
  { destruct (cut_byte "@" b) as [x|] eqn:Hc; [exfalso|done].
    destruct (segments_without b q) as [_ Hhq]; [rewrite Hb; apply elem_of_app; right; left|].
    destruct (segments_without a (last_component b q)) as [H1 H2].
    { rewrite Ha, H. apply elem_of_app. left. apply elem_of_app. right. left. }
    specialize (H2 Hha). destruct (last_component_marked b q); [by rewrite Hc|auto|congruence..]. }
  split; [done|]. split; [|lia].
  rewrite H, take_app_le by (rewrite length_app; simpl; lia).
  rewrite take_ge by (rewrite length_app; simpl; lia). unfold last_component. by rewrite Hn.
Qed.
End digest.

(** A digest good enough for two names *)
Definition example_digest (s : string) : string :=
  let block := "0123456789abcdef0123456789abcdef" in
  if String.eqb s "github.com/u/repo/arrow@v1" then block +:+ block
  else "f" +:+ take_bytes 31 block +:+ block.

Lemma example_digest_law : hex_law example_digest.
Proof. intros s. unfold example_digest. by destruct (String.eqb s _). Qed.

(** A selector-less repository holds the workdirs of the arrows it hosts. *)
Lemma hosted_inside :
  components example_digest "github.com/u/repo/arrow@v1" =
    components example_digest "github.com/u/repo" ++ ["arrow@v1"].
Proof. reflexivity. Qed.

(** ** Workdirs on disk *)

Section disk.
Context (hex_sha256 : string → string) (namespacesPath : string) (root : list string).

(** The root: an absolute path that is not the top *)
Context (Hroot : Clean namespacesPath = rooted_path root) (Hnonempty : root ≠ []) (Hnormal : Forall normal root).

Lemma prefix_some p s : String.prefix p s = true → ∃ r, s = p +:+ r.
Proof.
  revert s. induction p as [|c p IH]; intros s H; [by exists s|].
  destruct s as [|d s]; [done|]. simpl in H. destruct (ascii_dec c d) as [->|]; [|done].
  destruct (IH s H) as [r ->]. by exists r.
Qed.

Lemma prefix_app p r : String.prefix p (p +:+ r) = true.
Proof.
  induction p as [|c p IH]; [by destruct r|]. simpl. by destruct (ascii_dec c c).
Qed.

(** Whatever is asked for, what is found is inside the root, component by component. *)
Lemma underNamespaces_inside rel d :
  underNamespaces namespacesPath rel = Ok d →
  ∃ parts, parts ≠ [] ∧ Forall normal parts ∧ d = rooted_path (root ++ parts).
Proof.
  unfold underNamespaces. rewrite Hroot, Join_rooted by done.
  set (kept := rev (foldl (clean_step true) (rev root) (split_byte Separator rel))).
  assert (Forall normal kept) as Hk.
  { apply Forall_rev, clean_fold_rooted; [by apply Forall_rev|apply split_byte_no_sep]. }
  clearbody kept. destruct (String.prefix _ _) eqn:Hp; [|done]. intros [= <-].
  apply prefix_some in Hp as [r Hr].
  assert (kept ≠ []) as Hne.
  { intros ->. unfold rooted_path in Hr. simpl in Hr. injection Hr as Hr.
    destruct root as [|x l]; [done|]. apply Forall_cons in Hnormal as [(Hx & _) _].
    destruct l; destruct x; done. }
  pose proof (split_rooted_all kept Hne Hk) as Hs. rewrite Hr, string_app_assoc in Hs.
  change ("/" +:+ r) with (String Separator r) in Hs. rewrite split_rooted in Hs by done.
  injection Hs as Hs. exists (split_byte Separator r). rewrite Hs.
  split; [apply split_byte_not_nil|]. split; [|done].
  rewrite <- Hs in Hk. by apply Forall_app in Hk as [_ ?].
Qed.

(** A relative path without dots is kept as it is. *)
Lemma underNamespaces_normal rel :
  Forall normal (split_byte Separator rel) →
  underNamespaces namespacesPath rel = Ok (rooted_path (root ++ split_byte Separator rel)).
Proof.
  intros Hr. unfold underNamespaces. rewrite Hroot, Join_rooted_normal by done.
  assert (rooted_path (root ++ split_byte Separator rel) = rooted_path root +:+ "/" +:+ rel) as ->.
  { unfold rooted_path. rewrite <- (join_split Separator rel) at 2. rewrite string_app_assoc. f_equal.
    pose proof (split_byte_not_nil Separator rel) as Hne. clear Hr.
    destruct root as [|x l]; [done|]. clear Hnonempty Hnormal Hroot. revert x.
    induction l as [|y l IH]; intros x.
    - cbn [app]. destruct (split_byte Separator rel) as [|z zs]; [done|]. by rewrite join_cons.
    - cbn [app]. rewrite !join_cons, !string_app_assoc. f_equal. f_equal. apply IH. }
  rewrite <- string_app_assoc. by rewrite prefix_app.
Qed.

(** A directory lists no dots, and no name with a separator. *)
Definition lists_names (fs : filesystem) : Prop :=
  ∀ dir entries name, ReadDir fs dir = Some entries → name ∈ entries → normal name.

Lemma exists_components_normal fs dir l :
  lists_names fs → exists_components fs dir l = true → Forall normal l.
Proof.
  intros Hfs. revert dir. induction l as [|c l IH]; intros dir H; [done|].
  simpl in H. destruct (ReadDir fs dir) as [entries|] eqn:Hd; [|done].
  unfold hasEntry in H. case_bool_decide as Hc; [|done]. constructor; [|by eapply IH].
  by eapply Hfs.
Qed.

(** A directory of an earlier layout that is used is one that exists under its own name. *)
Lemma first_legacy_found fs dirs d :
  lists_names fs → first_legacy namespacesPath fs dirs = Some d →
  ∃ rel, rel ∈ dirs ∧ existsExactly namespacesPath fs rel = true ∧
    Forall normal (split_byte Separator rel) ∧ d = rooted_path (root ++ split_byte Separator rel).
Proof.
  intros Hfs. induction dirs as [|rel dirs IH]; [done|]. cbn [first_legacy].
  destruct (underNamespaces namespacesPath rel) as [legacy|e] eqn:Hu.
  - destruct (existsExactly namespacesPath fs rel) eqn:He.
    + intros [= <-]. exists rel. assert (Forall normal (split_byte Separator rel)) as Hn
        by (by eapply exists_components_normal).
      rewrite underNamespaces_normal in Hu by done. simplify_eq. split_and!; [left|done..].
    + intros (rel' & ? & ?)%IH. exists rel'. split; [by right|done].
  - intros (rel' & ? & ?)%IH. exists rel'. split; [by right|done].
Qed.
End disk.

(** No segment climbs. *)
Definition dotless (ns : Namespace) : Prop := Forall normal (segments ns).

Lemma components_normal hex_sha256 ns :
  hex_law hex_sha256 → dotless ns → Forall normal (components hex_sha256 ns).
Proof.
  intros Hlaw Hd. destruct (segments_last ns) as (ps & p & Hs).
  unfold dotless in Hd. rewrite Hs in Hd. apply Forall_app in Hd as [Hps Hp].
  apply Forall_cons in Hp as [Hp _].
  pose proof (split_byte_no_sep "/" (identityDir hex_sha256 ns)) as Hsep.
  fold (components hex_sha256 ns) in Hsep.
  rewrite (components_segments hex_sha256 Hlaw ns ps p Hs) in *.
  apply Forall_app in Hsep as [_ Hsep]. apply Forall_cons in Hsep as [Hsep _].
  apply Forall_app. split; [done|]. constructor; [|done].
  destruct (cut_byte "@" ns) as [[bare ref]|] eqn:Hc.
  2: { unfold last_component. by rewrite Hc. }
  assert (contains_byte "@" (last_component hex_sha256 ns p) = true ∨
    contains_byte "~" (last_component hex_sha256 ns p) = true) as Hm.
  { unfold last_component, capName. rewrite Hc. destruct (_ <=? _); [left|right].
    - unfold identity_name. rewrite !contains_byte_app. unfold contains_byte at 2. simpl.
      by rewrite orb_true_r.
    - rewrite contains_byte_app. unfold contains_byte at 2. cbn [exists_byte].
      by rewrite Ascii.eqb_refl, orb_true_r. }
  split_and!; [| | |exact Hsep]; intros He; rewrite He in Hm; by destruct Hm.
Qed.

(** No directory of an earlier layout is used for it: its own is there, or none of those. *)
Definition settled (hex_sha256 : string → string) (namespacesPath : string) (fs : filesystem) (ns : Namespace) : Prop :=
  (∃ own, underNamespaces namespacesPath (identityDir hex_sha256 ns) = Ok own ∧ hasExactEntry fs own = true) ∨
  ∀ rel, rel ∈ legacyIdentityDirs hex_sha256 ns → existsExactly namespacesPath fs rel = false.

Lemma first_legacy_none namespacesPath fs dirs :
  (∀ rel, rel ∈ dirs → existsExactly namespacesPath fs rel = false) → first_legacy namespacesPath fs dirs = None.
Proof.
  induction dirs as [|rel dirs IH]; intros Hno; cbn [first_legacy]; [done|].
  rewrite IH by (intros; by apply Hno, list_elem_of_further). rewrite Hno by apply list_elem_of_here.
  by destruct (underNamespaces _ _).
Qed.

Lemma settled_own hex_sha256 namespacesPath root fs ns d :
  Clean namespacesPath = rooted_path root → root ≠ [] → Forall normal root → hex_law hex_sha256 →
  dotless ns → settled hex_sha256 namespacesPath fs ns → namespacePath hex_sha256 namespacesPath fs ns = Ok d →
  d = rooted_path (root ++ components hex_sha256 ns).
Proof.
  intros Hroot Hne Hnorm Hlaw Hdot Hset Hd. unfold namespacePath in Hd.
  pose proof (underNamespaces_normal namespacesPath root Hroot Hne Hnorm (identityDir hex_sha256 ns)
    (components_normal _ ns Hlaw Hdot)) as Hu.
  rewrite Hu in Hd. fold (components hex_sha256 ns) in Hd.
  destruct Hset as [(own & Hown & He)|Hno].
  { rewrite Hu in Hown. injection Hown as <-. rewrite He in Hd. by injection Hd. }
  rewrite (first_legacy_none _ _ _ Hno) in Hd. by repeat case_match; simplify_eq.
Qed.

Lemma rooted_path_inside l l' rest :
  l ≠ [] → l' ≠ [] → Forall normal l → Forall normal l' →
  rooted_path l = rooted_path l' +:+ "/" +:+ rest → l = l' ++ split_byte Separator rest.
Proof.
  intros Hl Hl' Hn Hn' H. pose proof (split_rooted_all l Hl Hn) as Hs. rewrite H in Hs.
  change ("/" +:+ rest) with (String Separator rest) in Hs. rewrite split_rooted in Hs by done.
  by injection Hs as <-.
Qed.

(** C24. The workdirs of two identities are never the same, and one is inside the other only
    where the other is a repository without a selector and the first an arrow it hosts.  The
    identities are valid ones no segment of which is a dot or a double dot (such a segment
    does reach the workdir of others, [dotted_workdir_holds_others]), with no name that holds
    the marker of a digest and no digest in common, and neither workdir is found under an
    earlier layout; the root is an absolute path that is not the top. *)
Theorem workdirs_kept_apart hex_sha256 namespacesPath root fs a b da db :
  Clean namespacesPath = rooted_path root → root ≠ [] → Forall normal root → hex_law hex_sha256 →
  plain a → plain b → dotless a → dotless b → (a ≠ b → ¬ same_digest hex_sha256 a b) →
  settled hex_sha256 namespacesPath fs a → settled hex_sha256 namespacesPath fs b →
  namespacePath hex_sha256 namespacesPath fs a = Ok da →
  namespacePath hex_sha256 namespacesPath fs b = Ok db →
  (da = db → a = b) ∧
  (∀ rest, da = db +:+ "/" +:+ rest → WithRef b "" = b ∧ GetQUID a = b ∧ IsQuiverHosted a = true).
Proof.
  intros Hroot Hne Hnorm Hlaw Ha Hb Hda Hdb Hd Hsa Hsb Hpa Hpb.
  rewrite (settled_own _ _ root _ _ _ Hroot Hne Hnorm Hlaw Hda Hsa Hpa),
    (settled_own _ _ root _ _ _ Hroot Hne Hnorm Hlaw Hdb Hsb Hpb).
  assert (∀ ns, dotless ns → root ++ components hex_sha256 ns ≠ [] ∧ Forall normal (root ++ components hex_sha256 ns)) as Hok.
  { intros ns Hns. split; [by destruct root|]. apply Forall_app. split; [done|by apply components_normal]. }
  destruct (Hok a Hda) as [Hla Hna], (Hok b Hdb) as [Hlb Hnb]. split.
  - intros H. eapply components_inj; eauto; [by intros [? ?]; apply Hd|].
    apply (app_inv_head root). pose proof (split_rooted_all _ Hla Hna) as E1. pose proof (split_rooted_all _ Hlb Hnb) as E2.
    rewrite H in E1. rewrite E1 in E2. by injection E2.
  - intros rest H. apply rooted_path_inside in H; [|done..]. rewrite <- app_assoc in H. apply app_inv_head in H.
    destruct (components_inside hex_sha256 Hlaw a b (split_byte Separator rest)) as (Hc & Ht & Hl); auto.
    { apply split_byte_not_nil. }
    assert (BareNamespace b = b) as Hbare by (unfold BareNamespace; by rewrite Hc).
    split_and!; [done| |unfold IsQuiverHosted; by rewrite Hl].
    unfold GetQUID. rewrite Hl. simpl (3 <=? 4). cbv iota. by rewrite Ht, segments_join.
Qed.

(** A disk with no workdir on it *)
Definition empty_fs : filesystem := mkFilesystem (λ _, None) (λ _, false).

Lemma workdirs_kept_apart_witness :
  namespacePath example_digest "/data/ns" empty_fs "github.com/u/repo/arrow@v1" = Ok "/data/ns/github.com/u/repo/arrow@v1" ∧
  namespacePath example_digest "/data/ns" empty_fs "github.com/u/repo" = Ok "/data/ns/github.com/u/repo" ∧
  GetQUID "github.com/u/repo/arrow@v1" = "github.com/u/repo".
Proof.
  assert (namespacePath example_digest "/data/ns" empty_fs "github.com/u/repo/arrow@v1" =
    Ok "/data/ns/github.com/u/repo/arrow@v1") as Ha by (vm_compute; reflexivity).
  assert (namespacePath example_digest "/data/ns" empty_fs "github.com/u/repo" = Ok "/data/ns/github.com/u/repo") as Hb
    by (vm_compute; reflexivity).
  split; [exact Ha|]. split; [exact Hb|].
  assert (∀ ns, settled example_digest "/data/ns" empty_fs ns) as Hset by (intros ns; right; intros rel _; unfold existsExactly; pose proof (split_byte_not_nil "/" rel) as Hnil; by destruct (split_byte "/" rel)).
  destruct (workdirs_kept_apart example_digest "/data/ns" ["data"; "ns"] empty_fs "github.com/u/repo/arrow@v1" "github.com/u/repo"
    "/data/ns/github.com/u/repo/arrow@v1" "/data/ns/github.com/u/repo") as [_ Hin];
    [reflexivity|done|by repeat constructor|apply example_digest_law|by split|by split|by repeat constructor|by repeat constructor| |
     apply Hset|apply Hset|exact Ha|exact Hb|].
  - intros _. unfold same_digest. vm_compute. discriminate.
  - destruct (Hin "arrow@v1" eq_refl) as (_ & Hq & _). exact Hq.
Defined.

(** C25. The directory a namespace gets lies inside the root whatever the namespace. Where
    no segment of it is a dot, that is its own path, or that of an earlier layout that
    exists under exactly its name, component by component; and the only refusal is of a
    path that is there under another spelling. *)
Theorem workdir_is_own hex_sha256 namespacesPath root fs ns :
  Clean namespacesPath = rooted_path root → root ≠ [] → Forall normal root →
  hex_law hex_sha256 → lists_names fs →
  let own := rooted_path (root ++ components hex_sha256 ns) in
  (∀ d, namespacePath hex_sha256 namespacesPath fs ns = Ok d →
     ∃ parts, parts ≠ [] ∧ Forall normal parts ∧ d = rooted_path (root ++ parts)) ∧
  (dotless ns →
   match namespacePath hex_sha256 namespacesPath fs ns with
   | Ok d => d = own ∨ hasExactEntry fs own = false ∧
       ∃ rel, rel ∈ legacyIdentityDirs hex_sha256 ns ∧
         existsExactly namespacesPath fs rel = true ∧ d = rooted_path (root ++ split_byte "/" rel)
   | Err e => e = [ErrWorkDirCollision] ∧ hasExactEntry fs own = false ∧ exists_at fs own = true
   end).
Proof.
  intros Hroot Hne Hnorm Hlaw Hfs own. unfold namespacePath. split.
  - intros d. destruct (underNamespaces _ _) as [current|] eqn:Hu; [|done].
    apply (underNamespaces_inside _ root) in Hu as (parts & ? & ? & ->); [|done..].
    destruct (hasExactEntry _ _); [intros [= <-]; eauto|].
    destruct (first_legacy _ _ _) as [legacy|] eqn:Hl.
    + intros [= <-]. apply (first_legacy_found _ root) in Hl as (rel & _ & _ & ? & ->); [|done..].
      exists (split_byte Separator rel). split_and!; [apply split_byte_not_nil|done..].
    + destruct (exists_at _ _); [done|]. intros [= <-]. eauto.
  - intros Hd. rewrite (underNamespaces_normal _ root) by (done || by apply components_normal).
    fold (components hex_sha256 ns) own.
    change (rooted_path (root ++ split_byte Separator (identityDir hex_sha256 ns))) with own.
    destruct (hasExactEntry fs own) eqn:He; [by left|].
    destruct (first_legacy _ _ _) as [legacy|] eqn:Hl.
    + apply (first_legacy_found _ root) in Hl as (rel & ? & ? & _ & ->); [|done..].
      right. split; [done|]. by exists rel.
    + destruct (exists_at fs own); [done|by left].
Qed.

(** A file system with the workdir of one identity, under its earlier layout *)
Definition example_fs : filesystem := mkFilesystem
  (λ dir, if String.eqb dir "/data/ns" then Some ["github.com"]
          else if String.eqb dir "/data/ns/github.com" then Some ["u"]
          else if String.eqb dir "/data/ns/github.com/u" then Some ["r@release"]
          else if String.eqb dir "/data/ns/github.com/u/r@release" then Some ["1.0"]
          else None)
  (λ dir, false).

Lemma workdir_is_own_witness :
  namespacePath example_digest "/data/ns/" example_fs "github.com/u/r@release/1.0" =
    Ok "/data/ns/github.com/u/r@release/1.0".
Proof.
  destruct (workdir_is_own example_digest "/data/ns/" ["data"; "ns"] example_fs "github.com/u/r@release/1.0")
    as [_ H]; [done|done| |apply example_digest_law| |].
  - by repeat constructor.
  - intros dir entries name. cbn [ReadDir example_fs].
    repeat (destruct (String.eqb dir _); [intros [= <-] ->%list_elem_of_singleton; by repeat constructor|]).
    done.
  - assert (dotless "github.com/u/r@release/1.0") as Hd by (by repeat constructor).
    specialize (H Hd). by vm_compute in H |- *.
Defined.

(** A namespace whose last segment is a double dot is valid, and its workdir is that of
    the whole host. *)
Lemma dotted_workdir_holds_others :
  ValidateNamespace "github.com/user/.." = None ∧
  namespacePath example_digest "/data/ns" example_fs "github.com/user/.." = Ok "/data/ns/github.com" ∧
  String.prefix "/data/ns/github.com/" "/data/ns/github.com/u/r@release/1.0" = true.
Proof. by vm_compute. Qed.
