(* ===== verification/VaultIndex.v ===== *)
(** * The search index of the vault (internal/engine/vault/index.go, index_query.go, index_model.go)

    The tables of the index as finite maps and sets under their primary keys, each
    transaction a function that may fail, and the search over them.  The pattern match
    and the ranking of the full-text table are the database's: arguments, the first
    with the laws SQLite documents. *)

From S2P Require Import Prelude Errors GoStrings Domain Steps Manifest.

(** ** Rows (index_model.go) *)

Record IndexMeta := mkIndexMeta {
  meta_arrow : ArrowMeta;
  meta_os : list OS;
  meta_stars : Z;
  meta_source : string;
  meta_branch : string;
}.

Record IndexRow := mkIndexRow {
  indexed_namespace : Namespace;
  indexed_ref : string;
  indexed_meta : IndexMeta;
  seen_at_time : Z;
}.

Record IndexQuery := mkIndexQuery { query_text : string; query_os : OS; query_limit : Z }.

(** The columns of vault_arrows after the key; those of the metadata are the ones the
    table stores of it. *)
Record arrowIndexRow := mkArrowIndexRow {
  col_name : string;
  col_description : string;
  col_license : string;
  col_url : string;
  col_media : ArrowMedia;
  col_stars : Z;
  col_source : string;
  col_filename : string;
  col_branch : string;
  col_seen_at : Z;
  col_row_expire_at : Z;
  col_generator : string;
  col_confidence : string;
}.

Abbreviation key := (string * string)%type.

(** The full-text table has no key of its own. *)
Record index := mkIndex {
  vault_arrows : gmap key arrowIndexRow;
  vault_arrow_tags : gset (key * string);
  vault_arrow_os : gset (key * string);
  vault_arrows_fts : list (key * (string * string * string));
}.

Definition set_generator (g : option ArrowGenerator) : string * string :=
  match g with None => ("", "") | Some g => (generator_name g, generator_confidence g) end.

Definition row_generator (r : arrowIndexRow) : option ArrowGenerator :=
  if String.eqb (col_generator r) "" && String.eqb (col_confidence r) "" then None
  else Some (mkArrowGenerator (col_generator r) (col_confidence r) []).

(** [Time.Unix], of a time in nanoseconds *)
Definition unix_seconds (t : Z) : Z := t / 1000000000.

(** [domain.OS] of a stored string *)
Definition os_of_string (s : string) : OS :=
  match filter (λ os, os_string os = s) AllOS with
  | os :: _ => os
  | [] => OSOther s
  end.

(** ** Writes (index.go) *)

Definition dedupeTags : list string → list string := dedupe.

(** [tx.Create] of rows whose key is all they hold: one that is there is an error. *)
Fixpoint insert_new {A} `{Countable A} (rows : list A) (table : gset A) : option (gset A) :=
  match rows with
  | [] => Some table
  | r :: rows' => if bool_decide (r ∈ table) then None else insert_new rows' ({[r]} ∪ table)
  end.

Definition replaceChildRows (k : key) (meta : IndexMeta) (i : index) : option index :=
  tags ← insert_new (map (pair k) (dedupeTags (Tags (meta_arrow meta))))
    (filter (λ r, r.1 ≠ k) (vault_arrow_tags i));
  oses ← insert_new (map (λ os, (k, os_string os)) (meta_os meta)) (filter (λ r, r.1 ≠ k) (vault_arrow_os i));
  Some (mkIndex (vault_arrows i) tags oses (vault_arrows_fts i)).

Definition replaceFTS (k : key) (meta : IndexMeta) (i : index) : index :=
  mkIndex (vault_arrows i) (vault_arrow_tags i) (vault_arrow_os i)
    (filter (λ r, r.1 ≠ k) (vault_arrows_fts i) ++
      [(k, (Name (meta_arrow meta), Description (meta_arrow meta),
            join " " (dedupeTags (Tags (meta_arrow meta)))))]).

(** [upsert]: a transaction, so an error leaves the index as it was *)
Definition upsert (ns : Namespace) (filename : string) (meta : IndexMeta) (now ttl : Z) (i : index)
  : option index :=
  let k := (BareNamespace ns, Ref ns) in
  let a := meta_arrow meta in
  let '(generator, confidence) := set_generator (Generator a) in
  let row := mkArrowIndexRow (Name a) (Description a) (License a) (URL a) (Media a)
    (meta_stars meta) (meta_source meta) filename (meta_branch meta)
    (unix_seconds now) (unix_seconds (now + ttl)) generator confidence in
  i ← replaceChildRows k meta
    (mkIndex (<[k := row]> (vault_arrows i)) (vault_arrow_tags i) (vault_arrow_os i) (vault_arrows_fts i));
  Some (replaceFTS k meta i).

(** Keeping the keys that satisfy a predicate in every table *)
Definition keep_keys (Q : key → Prop) `{∀ k, Decision (Q k)} (i : index) : index :=
  mkIndex (filter (λ p, Q p.1) (vault_arrows i)) (filter (λ r, Q r.1) (vault_arrow_tags i))
    (filter (λ r, Q r.1) (vault_arrow_os i)) (filter (λ r, Q r.1) (vault_arrows_fts i)).

Definition deleteKey (k : key) : index → index := keep_keys (λ k', k' ≠ k).

Definition forget (ns : Namespace) : index → index := keep_keys (λ k, k.1 ≠ BareNamespace ns).

Definition evictExpired (now : Z) (i : index) : index :=
  let expired := filter (λ p : key * arrowIndexRow, (col_row_expire_at p.2 <= unix_seconds now)%Z)
    (map_to_list (vault_arrows i)) in
  foldl (λ i p, deleteKey p.1 i) i expired.

(** ** Search (index_query.go) *)

(** [strings.NewReplacer] of the three bytes a pattern gives a meaning *)
Definition like_special (c : ascii) : bool := contains_byte c "\%_".

Fixpoint escape_like (s : string) : string :=
  match s with
  | "" => ""
  | String c s' =>
    if like_special c then String "\" (String c (escape_like s')) else String c (escape_like s')
  end.

Definition likePattern (token : string) : string := "%" +:+ escape_like token +:+ "%".

Definition trigramLength : nat := 3.

(** A token as a quoted phrase, its quotes doubled *)
Definition quote : ascii := "034".

Fixpoint double_quotes (s : string) : string :=
  match s with
  | "" => ""
  | String c s' =>
    if Ascii.eqb c quote then String c (String c (double_quotes s')) else String c (double_quotes s')
  end.

(** [ftsRankQuery], on tokens of ASCII *)
Definition ftsRankQuery (tokens : list string) : string :=
  join " OR " (map (λ t, String quote (double_quotes t +:+ String quote ""))
    (filter (λ t, trigramLength <= String.length t) tokens)).

(** [strings.Fields] *)
Fixpoint fields (s : string) : list string :=
  match s with
  | "" => []
  | String c s' =>
    if is_space c then fields s'
    else
      let rest := fields s' in
      let goes_on := match s' with String d _ => negb (is_space d) | "" => false end in
      match rest with
      | f :: fs => if goes_on then String c f :: fs else String c "" :: rest
      | [] => [String c ""]
      end
  end.

Record scanned := mkScanned { scan_key : key; scan_row : arrowIndexRow }.

Section search.
(** [like pattern text] is [text LIKE pattern ESCAPE '\'], [score] the rank of a key for
    a full-text query, if it has one. *)
Context (like : string → string → bool) (score : string → key → option Z).

Definition termMatch (i : index) (token : string) (r : scanned) : bool :=
  let p := likePattern token in
  like p (scan_key r).1 || like p (col_name (scan_row r)) || like p (col_description (scan_row r)) ||
  bool_decide (Exists (λ t, t.1 = scan_key r ∧ like p t.2 = true) (elements (vault_arrow_tags i))).

Definition matches (i : index) (tokens : list string) (os : OS) (now : Z) (r : scanned) : bool :=
  Z.ltb (unix_seconds now) (col_row_expire_at (scan_row r)) &&
  forallb (λ t, termMatch i t r) tokens &&
  (String.eqb (os_string os) "" || bool_decide ((scan_key r, os_string os) ∈ vault_arrow_os i)).

(** ORDER BY: what is scored first, by score, then stars DESC, namespace, ref *)
Definition search_order (query : string) (a b : scanned) : comparison :=
  let by_score :=
    if String.eqb query "" then Eq
    else match score query (scan_key a), score query (scan_key b) with
         | Some x, Some y => Z.compare x y
         | Some _, None => Lt
         | None, Some _ => Gt
         | None, None => Eq
         end in
  cmp_then by_score
    (cmp_then (Z.compare (col_stars (scan_row b)) (col_stars (scan_row a)))
      (cmp_then (String.compare (scan_key a).1 (scan_key b).1)
        (String.compare (scan_key a).2 (scan_key b).2))).

(** The rows of [searchSQL] *)
Definition searchSQL (i : index) (tokens : list string) (os : OS) (now : Z) : list scanned :=
  sort_func (search_order (ftsRankQuery tokens))
    (filter (λ r, matches i tokens os now r = true)
      (map (λ p, mkScanned p.1 p.2) (map_to_list (vault_arrows i)))).

Fixpoint first_namespaces (limit : nat) (seen : gset string) (rows : list scanned) : list scanned :=
  match rows with
  | [] => []
  | r :: rows' =>
    if negb (bool_decide ((scan_key r).1 ∈ seen)) && (size seen =? limit)
    then first_namespaces limit seen rows'
    else r :: first_namespaces limit ({[ (scan_key r).1 ]} ∪ seen) rows'
  end.

Definition firstNamespaces (rows : list scanned) (limit : nat) : list scanned :=
  first_namespaces limit ∅ rows.

(** The tags and platforms come back sorted, whatever order they were written in. *)
Definition hydrate (i : index) (rows : list scanned) : list IndexRow :=
  map (λ s,
    let k := scan_key s in let r := scan_row s in
    let tags := sort_func String.compare
      (map snd (filter (λ t, t.1 = k) (elements (vault_arrow_tags i)))) in
    let oses := sort_func String.compare
      (map snd (filter (λ t, t.1 = k) (elements (vault_arrow_os i)))) in
    mkIndexRow k.1 k.2
      (mkIndexMeta
        (mkArrowMeta (col_name r) (col_description r) (col_license r) (col_url r) [] [] tags
          (col_media r) (row_generator r))
        (map os_of_string oses) (col_stars r) (col_source r) (col_branch r))
      (col_seen_at r)) rows.

Definition defaultSearchLimit : Z := 25.

Definition search (i : index) (q : IndexQuery) (now : Z) : list IndexRow :=
  match fields (query_text q) with
  | [] => []
  | tokens =>
    let limit := if Z.leb (query_limit q) 0 then defaultSearchLimit else query_limit q in
    hydrate i (firstNamespaces (searchSQL i tokens (query_os q) now) (Z.to_nat limit))
  end.
End search.

Example fields_ex : fields "  a bc  d " = ["a"; "bc"; "d"]. Proof. reflexivity. Qed.
Example pattern_ex : likePattern "50%_\" = "%50\%\_\\%". Proof. reflexivity. Qed.

(** ** The pattern of a token *)

(** What SQLite documents of LIKE with an escape byte: a percent sign matches any text,
    an escaped byte itself, and a byte without a meaning itself, case folded. *)
Class LikeLaws (like : string → string → bool) := {
  like_nil s : like "" s = true ↔ s = "";
  like_any p s : like (String "%" p) s = true ↔ ∃ a b, s = a +:+ b ∧ like p b = true;
  like_escaped c p s : like (String "\" (String c p)) s = true ↔
    ∃ d s', s = String d s' ∧ lower_byte d = lower_byte c ∧ like p s' = true;
  like_literal c p s : like_special c = false →
    like (String c p) s = true ↔
    ∃ d s', s = String d s' ∧ lower_byte d = lower_byte c ∧ like p s' = true;
}.

(** The token occurs in the text, whatever the case. *)
Definition occurs (token text : string) : Prop :=
  ∃ a b c, text = a +:+ b +:+ c ∧ equal_fold b token = true.

Section like.
Context (like : string → string → bool) `{!LikeLaws like}.

Lemma like_escape t p s :
  like (escape_like t +:+ p) s = true ↔
  ∃ a b, s = a +:+ b ∧ equal_fold a t = true ∧ like p b = true.
Proof.
  revert s. induction t as [|c t IH]; intros s; cbn [escape_like].
  - split.
    + intros H. by exists "", s.
    + intros (a & b & -> & Ha & Hb). apply String.eqb_eq in Ha. destruct a; [done|discriminate].
  - assert (like ((if like_special c then String "\" (String c (escape_like t))
      else String c (escape_like t)) +:+ p) s = true ↔
      ∃ d s', s = String d s' ∧ lower_byte d = lower_byte c ∧ like (escape_like t +:+ p) s' = true) as ->.
    { destruct (like_special c) eqn:Hc; [apply like_escaped|by apply like_literal]. }
    split.
    + intros (d & s' & -> & Hd & Hs). apply IH in Hs as (a & b & -> & Ha & Hb).
      exists (String d a), b. split_and!; [done| |done]. apply String.eqb_eq in Ha.
      apply String.eqb_eq. unfold to_lower in *. cbn [map_bytes]. by rewrite Hd, Ha.
    + intros (a & b & -> & Ha & Hb). apply String.eqb_eq in Ha. unfold to_lower in Ha.
      destruct a as [|d a]; [done|]. cbn [map_bytes] in Ha. injection Ha as Hd Ha.
      exists d, (a +:+ b). split_and!; [done..|]. apply IH. exists a, b. split_and!; [done| |done].
      by apply String.eqb_eq.
Qed.

(** The pattern matches exactly the texts the token occurs in: its percent signs,
    underscores and backslashes are literal. *)
Lemma likePattern_occurs token text : like (likePattern token) text = true ↔ occurs token text.
Proof.
  unfold likePattern, occurs. change ("%" +:+ ?x) with (String "%" x). rewrite like_any. split.
  - intros (a & r & -> & H). apply like_escape in H as (b & c & -> & Hb & _). by exists a, b, c.
  - intros (a & b & c & -> & Hb). exists a, (b +:+ c). split; [done|]. apply like_escape.
    exists b, c. split_and!; [done..|]. apply like_any. exists c, "".
    split; [by rewrite string_app_nil_r|]. by apply like_nil.
Qed.
End like.

(** ** Keys that are kept *)

Definition keys (rows : list scanned) : list string := map (λ r, (scan_key r).1) rows.

Lemma first_namespaces_sublist limit seen rows : sublist (first_namespaces limit seen rows) rows.
Proof.
  revert seen. induction rows as [|r rows IH]; intros seen; simpl; [constructor|].
  destruct (_ && _); constructor; apply IH.
Qed.

(** At most [limit] namespaces, each with all its rows; and all of them when they fit *)
Lemma first_namespaces_bound limit seen rows :
  size seen ≤ limit →
  size (list_to_set (keys (first_namespaces limit seen rows)) ∪ seen : gset string) ≤ limit.
Proof.
  revert seen. induction rows as [|r rows IH]; intros seen Hs; cbn [first_namespaces].
  - cbn. by rewrite (left_id_L ∅ (∪)).
  - assert (∀ rest, list_to_set (keys (r :: rest)) ∪ seen =
      (list_to_set (keys rest) ∪ ({[(scan_key r).1]} ∪ seen) : gset string)) as Hcons
      by (intros rest; unfold keys; set_solver).
    case_bool_decide as Hr; cbn [negb andb]; [rewrite Hcons; apply IH; by replace (_ ∪ seen) with seen by set_solver|].
    destruct (Nat.eqb_spec (size seen) limit) as [He|He]; [by apply IH|].
    rewrite Hcons. apply IH. rewrite size_union by set_solver. rewrite size_singleton. lia.
Qed.

(** A namespace is left out only once the limit is reached by others before it. *)
Lemma first_namespaces_all limit seen rows :
  size (list_to_set (keys rows) ∪ seen : gset string) ≤ limit → first_namespaces limit seen rows = rows.
Proof.
  revert seen. induction rows as [|r rows IH]; intros seen Hs; [done|]. cbn [first_namespaces].
  assert (list_to_set (keys (r :: rows)) ∪ seen =
      (list_to_set (keys rows) ∪ ({[(scan_key r).1]} ∪ seen) : gset string)) as Hcons
      by (unfold keys; set_solver).
  rewrite Hcons in Hs. rewrite (IH ({[(scan_key r).1]} ∪ seen)) by done.
  case_bool_decide as Hr; cbn [negb andb]; [done|].
  destruct (Nat.eqb_spec (size seen) limit) as [He|He]; [exfalso|done].
  assert (size ({[(scan_key r).1]} ∪ seen) = S (size seen)) as Hsz
    by (rewrite size_union by set_solver; by rewrite size_singleton).
  assert (size ({[(scan_key r).1]} ∪ seen) ≤
    size (list_to_set (keys rows) ∪ ({[(scan_key r).1]} ∪ seen) : gset string)); [|lia].
  apply subseteq_size. set_solver.
Qed.

(** A namespace that is shown has every row of it that matches shown. *)
Lemma first_namespaces_whole limit seen rows r r' :
  r ∈ first_namespaces limit seen rows → r' ∈ rows → (scan_key r').1 = (scan_key r).1 →
  r' ∈ first_namespaces limit seen rows.
Proof.
  assert (∀ seen rows, (scan_key r').1 ∈ seen → r' ∈ rows → r' ∈ first_namespaces limit seen rows) as Hseen.
  { clear. intros seen rows. revert seen. induction rows as [|x rows IH]; intros seen Hs Hr; [by apply not_elem_of_nil in Hr|].
    cbn [first_namespaces]. apply elem_of_cons in Hr as [->|Hr].
    - rewrite bool_decide_true by done. left.
    - destruct (_ && _); [by apply IH|right]. apply IH; [set_solver|done]. }
  revert seen. induction rows as [|x rows IH]; intros seen Hr Hr' Hk; [by apply not_elem_of_nil in Hr|].
  cbn [first_namespaces] in *.
  destruct (negb (bool_decide ((scan_key x).1 ∈ seen)) && (size seen =? limit)) eqn:Hd.
  - apply elem_of_cons in Hr' as [->|Hr']; [exfalso|by apply IH].
    apply andb_true_iff in Hd as [Hn He]. apply negb_true_iff, bool_decide_eq_false in Hn.
    apply Nat.eqb_eq in He. rewrite Hk in Hn. clear IH Hseen. revert Hr.
    induction rows as [|y rows IH]; cbn [first_namespaces]; [apply not_elem_of_nil|].
    destruct (decide ((scan_key y).1 ∈ seen)) as [Hy|Hy].
    + rewrite bool_decide_true by done. cbn [negb andb].
      replace ({[(scan_key y).1]} ∪ seen) with seen by set_solver.
      intros [->|Hr]%elem_of_cons; [done|by apply IH].
    + rewrite bool_decide_false by done. rewrite He, Nat.eqb_refl. cbn [negb andb].
      exact IH.
  - apply elem_of_cons in Hr' as [->|Hr']; [left|]. right.
    apply elem_of_cons in Hr as [->|Hr]; [apply Hseen; [set_solver|done]|by apply IH].
Qed.

(** ** What a search finds *)

(** A row that has not expired, each token of the query somewhere in its text, for the
    platform asked for *)
Definition found (i : index) (tokens : list string) (os : OS) (now : Z) (k : key) (r : arrowIndexRow) : Prop :=
  vault_arrows i !! k = Some r ∧ (unix_seconds now < col_row_expire_at r)%Z ∧
  (∀ t, t ∈ tokens → occurs t k.1 ∨ occurs t (col_name r) ∨ occurs t (col_description r) ∨
     ∃ tag, (k, tag) ∈ vault_arrow_tags i ∧ occurs t tag) ∧
  (os_string os ≠ "" → (k, os_string os) ∈ vault_arrow_os i).

Section search_facts.
Context (like : string → string → bool) `{!LikeLaws like} (score : string → key → option Z).

Lemma termMatch_spec i t r :
  termMatch like i t r = true ↔
  occurs t (scan_key r).1 ∨ occurs t (col_name (scan_row r)) ∨ occurs t (col_description (scan_row r)) ∨
    ∃ tag, (scan_key r, tag) ∈ vault_arrow_tags i ∧ occurs t tag.
Proof.
  unfold termMatch. rewrite !orb_true_iff, !(likePattern_occurs like), bool_decide_eq_true, Exists_exists.
  assert ((∃ x, x ∈ elements (vault_arrow_tags i) ∧ x.1 = scan_key r ∧ like (likePattern t) x.2 = true) ↔
    ∃ tag, (scan_key r, tag) ∈ vault_arrow_tags i ∧ occurs t tag) as ->.
  { split.
    - intros ([k tag] & Hin & Hk & Hl). simpl in Hk. subst k. exists tag.
      split; [by apply elem_of_elements|]. by apply (likePattern_occurs like).
    - intros (tag & Hin & Ho). exists (scan_key r, tag). split; [by apply elem_of_elements|].
      split; [done|]. by apply (likePattern_occurs like). }
  tauto.
Qed.

Lemma searchSQL_found i tokens os now k r :
  mkScanned k r ∈ searchSQL like score i tokens os now ↔ found i tokens os now k r.
Proof.
  unfold searchSQL. rewrite elem_of_sort_func, list_elem_of_filter, list_elem_of_fmap.
  assert ((∃ p, mkScanned k r = mkScanned p.1 p.2 ∧ p ∈ map_to_list (vault_arrows i)) ↔
    vault_arrows i !! k = Some r) as ->.
  { split.
    - intros ([k' r'] & [= -> ->] & H). by apply elem_of_map_to_list.
    - intros H. exists (k, r). split; [done|]. by apply elem_of_map_to_list. }
  unfold matches, found. cbn [scan_key scan_row].
  rewrite !andb_true_iff, Z.ltb_lt, orb_true_iff, bool_decide_eq_true, String.eqb_eq.
  assert (forallb (λ t, termMatch like i t (mkScanned k r)) tokens = true ↔
    ∀ t, t ∈ tokens → termMatch like i t (mkScanned k r) = true) as ->.
  { rewrite forallb_forall. setoid_rewrite list_elem_of_In. done. }
  setoid_rewrite termMatch_spec. cbn [scan_key scan_row].
  destruct (decide (os_string os = "")); tauto.
Qed.

(** The namespaces some row of which is found *)
Definition found_namespaces (i : index) (tokens : list string) (os : OS) (now : Z) : gset string :=
  list_to_set (keys (searchSQL like score i tokens os now)).

Definition limit_of (q : IndexQuery) : Z :=
  if Z.leb (query_limit q) 0 then defaultSearchLimit else query_limit q.

Lemma search_rows i q now row :
  row ∈ search like score i q now ↔
  fields (query_text q) ≠ [] ∧ ∃ s, row ∈ hydrate i [s] ∧
    s ∈ firstNamespaces (searchSQL like score i (fields (query_text q)) (query_os q) now)
          (Z.to_nat (limit_of q)).
Proof.
  unfold search. destruct (fields (query_text q)) as [|t ts].
  { split; [by intros ?%not_elem_of_nil|]. by intros []. }
  fold (limit_of q). unfold hydrate at 1. rewrite list_elem_of_fmap. split.
  - intros (s & -> & Hs). split; [done|]. exists s. split; [left|done].
  - intros (_ & s & Hr & Hs). exists s. split; [|done].
    by apply list_elem_of_singleton in Hr.
Qed.

Lemma hydrate_key i s row :
  row ∈ hydrate i [s] → indexed_namespace row = (scan_key s).1 ∧ indexed_ref row = (scan_key s).2.
Proof. by intros ->%list_elem_of_singleton. Qed.
End search_facts.

(** A search shows rows that are found only, of at most as many namespaces as its
    limit; a namespace it shows has all its found rows shown; and where the namespaces
    found fit in the limit, every row found is shown.  A row is found when it has not
    expired and every word of the query occurs, case folded and its punctuation literal,
    in its namespace, name, description or a tag. *)
Lemma search_exact like `{!LikeLaws like} score i q now :
  let rows := search like score i q now in
  let tokens := fields (query_text q) in
  (∀ row, row ∈ rows → ∃ r, found i tokens (query_os q) now (indexed_namespace row, indexed_ref row) r ∧
     row ∈ hydrate i [mkScanned (indexed_namespace row, indexed_ref row) r]) ∧
  (Z.of_nat (size (list_to_set (map indexed_namespace rows) : gset string)) ≤ limit_of q)%Z ∧
  (tokens ≠ [] → ∀ k r, found i tokens (query_os q) now k r →
     (∃ row, row ∈ rows ∧ indexed_namespace row = k.1) ∨
       (Z.of_nat (size (found_namespaces like score i tokens (query_os q) now)) ≤ limit_of q)%Z →
     ∃ row, row ∈ rows ∧ indexed_namespace row = k.1 ∧ indexed_ref row = k.2).
Proof.
  intros rows tokens. assert (0 < limit_of q)%Z as Hl.
  { unfold limit_of, defaultSearchLimit. destruct (Z.leb_spec (query_limit q) 0); lia. }
  split_and!.
  - intros row Hrow. apply search_rows in Hrow as (_ & [k r] & Hh & Hs).
    pose proof (hydrate_key _ _ _ Hh) as [-> ->]. cbn [scan_key]. exists r. rewrite <- surjective_pairing.
    split; [|done]. apply (searchSQL_found like score).
    eapply elem_of_sublist; [exact Hs|apply first_namespaces_sublist].
  - subst rows. unfold search. fold tokens (limit_of q).
    destruct tokens as [|t ts]; [cbn [map list_to_set]; rewrite size_empty; lia|].
    set (kept := firstNamespaces _ _).
    assert (map indexed_namespace (hydrate i kept) = keys kept) as ->.
    { unfold hydrate, keys. by rewrite map_map. }
    pose proof (first_namespaces_bound (Z.to_nat (limit_of q)) ∅
      (searchSQL like score i (t :: ts) (query_os q) now)) as Hb.
    fold (firstNamespaces (searchSQL like score i (t :: ts) (query_os q) now) (Z.to_nat (limit_of q))) in Hb.
    fold kept in Hb. rewrite size_empty, (right_id_L ∅ (∪)) in Hb. lia.
  - intros Ht k r Hf Hor.
    assert (mkScanned k r ∈ firstNamespaces (searchSQL like score i tokens (query_os q) now)
      (Z.to_nat (limit_of q))) as Hin.
    { apply (searchSQL_found like score) in Hf. unfold firstNamespaces. destruct Hor as [(row & Hrow & Hk)|Hs].
      - apply search_rows in Hrow as (_ & s & Hh & Hs). apply hydrate_key in Hh as [Hn _].
        eapply first_namespaces_whole; [exact Hs|done|]. cbn [scan_key]. congruence.
      - rewrite first_namespaces_all; [done|]. unfold found_namespaces in Hs.
        rewrite (right_id_L ∅ (∪)). lia. }
    eexists. split; [apply search_rows; split; [done|]; eexists; split; [left|exact Hin]|]. done.
Qed.

(** A matcher that has the laws: by cases on the pattern *)
Fixpoint like_example (p s : string) : bool :=
  match p with
  | "" => String.eqb s ""
  | String c p' =>
    if Ascii.eqb c "%" then
      (fix any (s : string) : bool :=
         like_example p' s || match s with "" => false | String _ s' => any s' end) s
    else if Ascii.eqb c "\" then
      match p' with
      | String d p'' =>
        match s with
        | String e s' => Ascii.eqb (lower_byte e) (lower_byte d) && like_example p'' s'
        | "" => false
        end
      | "" => false
      end
    else if Ascii.eqb c "_" then
      match s with String _ s' => like_example p' s' | "" => false end
    else
      match s with
      | String e s' => Ascii.eqb (lower_byte e) (lower_byte c) && like_example p' s'
      | "" => false
      end
  end.

Lemma like_example_byte c p s :
  match s with
  | String e s' => Ascii.eqb (lower_byte e) (lower_byte c) && like_example p s'
  | "" => false
  end = true ↔ ∃ d s', s = String d s' ∧ lower_byte d = lower_byte c ∧ like_example p s' = true.
Proof.
  destruct s as [|e s']; [split; [done|by intros (? & ? & ? & _)]|].
  rewrite andb_true_iff, Ascii.eqb_eq. naive_solver.
Qed.

#[export] Instance like_example_laws : LikeLaws like_example.
Proof.
  split.
  - intros s. apply String.eqb_eq.
  - intros p s. induction s as [|c s IH].
    + change (like_example p "" || false = true ↔ ∃ a b, "" = a +:+ b ∧ like_example p b = true).
      rewrite orb_false_r. split; [intros H; by exists "", ""|].
      intros (a & b & Hab & H). destruct a; [|done]. by destruct b.
    + change (like_example p (String c s) || like_example (String "%" p) s = true ↔
        ∃ a b, String c s = a +:+ b ∧ like_example p b = true).
      rewrite orb_true_iff, IH. split.
      * intros [H|(a & b & -> & H)]; [by exists "", (String c s)|by exists (String c a), b].
      * intros (a & b & Hab & H). destruct a as [|d a]; [left; by rewrite Hab|right].
        injection Hab as -> ->. eauto.
  - intros c p s. apply (like_example_byte c p s).
  - intros c p s Hc. unfold like_special, contains_byte in Hc. cbn [exists_byte] in Hc.
    rewrite !orb_false_iff in Hc. destruct Hc as (H1 & H2 & H3 & _).
    cbn [like_example]. rewrite H1, H2, H3. apply like_example_byte.
Qed.

(** ** What a write leaves *)

Lemma insert_new_spec {A} `{Countable A} (rows : list A) table table' :
  insert_new rows table = Some table' ↔
  NoDup rows ∧ (∀ r, r ∈ rows → r ∉ table) ∧ table' = list_to_set rows ∪ table.
Proof.
  revert table. induction rows as [|r rows IH]; intros table; simpl.
  - split.
    + intros [= <-]. split_and!; [constructor|by intros ? ?%not_elem_of_nil|set_solver].
    + intros (_ & _ & ->). f_equal. set_solver.
  - case_bool_decide as Hr.
    + split; [done|]. intros (_ & Hd & _). destruct (Hd r); [left|done].
    + rewrite IH, NoDup_cons. split.
      * intros (Hn & Hd & ->). split_and!; [intros Hin; apply (Hd r Hin); set_solver|done| |set_solver].
        intros x [->|Hx]%elem_of_cons; [done|]. specialize (Hd x Hx). set_solver.
      * intros ([Hnr Hn] & Hd & ->). split_and!; [done| |set_solver].
        intros x Hx [->%elem_of_singleton|Ht]%elem_of_union; [done|]. by apply (Hd x); [right|].
Qed.

(** The rows of a key are those of the metadata; other keys keep theirs. *)
Definition holds (i i' : index) (k : key) (meta : IndexMeta) : Prop :=
  (∀ k' t, (k', t) ∈ vault_arrow_tags i' ↔
     if decide (k' = k) then t ∈ Tags (meta_arrow meta) else (k', t) ∈ vault_arrow_tags i) ∧
  (∀ k' o, (k', o) ∈ vault_arrow_os i' ↔
     if decide (k' = k) then o ∈ map os_string (meta_os meta) else (k', o) ∈ vault_arrow_os i).

Lemma elem_of_child {A B} `{Countable A, Countable B} (k k' : A) (f : B) (l : list B) (t : gset (A * B)) :
  (k', f) ∈ (list_to_set (map (pair k) l) ∪ filter (λ r, r.1 ≠ k) t : gset (A * B)) ↔
  if decide (k' = k) then f ∈ l else (k', f) ∈ t.
Proof.
  rewrite elem_of_union, elem_of_list_to_set, list_elem_of_fmap, elem_of_filter. cbn [fst].
  case_decide as Hk; [subst|]; naive_solver.
Qed.

Lemma replaceChildRows_holds k meta i i' :
  replaceChildRows k meta i = Some i' →
  NoDup (map os_string (meta_os meta)) ∧ holds i i' k meta ∧
  vault_arrows i' = vault_arrows i ∧ vault_arrows_fts i' = vault_arrows_fts i.
Proof.
  unfold replaceChildRows. intros (tags & Ht & H)%bind_Some.
  apply bind_Some in H as (oses & Ho & [= <-]).
  apply insert_new_spec in Ht as (_ & _ & ->), Ho as (Hn & _ & ->).
  replace (map (λ os, (k, os_string os)) (meta_os meta)) with (map (pair k) (map os_string (meta_os meta)))
    in * by (by rewrite map_map).
  split; [by apply NoDup_fmap_1 in Hn|]. split; [|done]. split; intros k' x; cbn.
  - rewrite elem_of_child. case_decide; [|done]. apply elem_of_dedupe.
  - apply elem_of_child.
Qed.

Lemma replaceChildRows_some k meta i :
  NoDup (map os_string (meta_os meta)) → is_Some (replaceChildRows k meta i).
Proof.
  intros Hn. unfold replaceChildRows.
  assert (∀ (l : list string) (t : gset (key * string)), NoDup l →
    insert_new (map (pair k) l) (filter (λ r, r.1 ≠ k) t) =
      Some (list_to_set (map (pair k) l) ∪ filter (λ r, r.1 ≠ k) t)) as Hins.
  { intros l t Hl. apply insert_new_spec. split_and!; [apply NoDup_fmap_2; [by intros ?? [=]|done]| |done].
    intros r (x & -> & _)%list_elem_of_fmap [Hr _]%elem_of_filter. done. }
  replace (map (λ os, (k, os_string os)) (meta_os meta)) with (map (pair k) (map os_string (meta_os meta)))
    by (by rewrite map_map).
  rewrite Hins by done. rewrite Hins by apply NoDup_dedupe. done.
Qed.

(** Every child row and every full-text row belongs to a row. *)
Definition wf_index (i : index) : Prop :=
  (∀ k t, (k, t) ∈ vault_arrow_tags i → is_Some (vault_arrows i !! k)) ∧
  (∀ k o, (k, o) ∈ vault_arrow_os i → is_Some (vault_arrows i !! k)) ∧
  NoDup (map fst (vault_arrows_fts i)) ∧
  (∀ k, is_Some (vault_arrows i !! k) ↔ k ∈ map fst (vault_arrows_fts i)).

Lemma NoDup_fst_filter {A B} (Q : A → Prop) `{∀ r : A * B, Decision (Q r.1)} (l : list (A * B)) :
  NoDup (map fst l) → NoDup (map fst (filter (λ r, Q r.1) l)).
Proof.
  induction l as [|[k x] l IH]; [done|]. cbn [map fst]. intros [Hk Hn]%NoDup_cons.
  rewrite filter_cons. case_decide; [|by apply IH]. cbn [map fst]. constructor; [|by apply IH].
  intros (r & -> & [_ Hr]%list_elem_of_filter)%list_elem_of_fmap. apply Hk, list_elem_of_fmap. by exists r.
Qed.

Lemma elem_of_fst_filter {A B} (Q : A → Prop) `{∀ r : A * B, Decision (Q r.1)} (l : list (A * B)) k :
  k ∈ map fst (filter (λ r, Q r.1) l) ↔ Q k ∧ k ∈ map fst l.
Proof.
  rewrite !list_elem_of_fmap. setoid_rewrite list_elem_of_filter. split.
  - intros (r & -> & HQ & Hr). eauto.
  - intros (HQ & r & -> & Hr). eauto.
Qed.

Lemma keep_keys_wf (Q : key → Prop) `{∀ k, Decision (Q k)} i : wf_index i → wf_index (keep_keys Q i).
Proof.
  intros (Ht & Ho & Hn & Hf). unfold keep_keys. split_and!; cbn.
  - intros k t [HQ Hin]%elem_of_filter. destruct (Ht k t Hin) as [r Hr].
    exists r. by apply map_lookup_filter_Some.
  - intros k t [HQ Hin]%elem_of_filter. destruct (Ho k t Hin) as [r Hr].
    exists r. by apply map_lookup_filter_Some.
  - by apply NoDup_fst_filter.
  - intros k. rewrite elem_of_fst_filter, <- Hf. split.
    + intros [r [Hr HQ]%map_lookup_filter_Some]. eauto.
    + intros [HQ [r Hr]]. exists r. by apply map_lookup_filter_Some.
Qed.

(** The row an upsert writes *)
Definition upserted_row (filename : string) (meta : IndexMeta) (now ttl : Z) : arrowIndexRow :=
  let a := meta_arrow meta in
  mkArrowIndexRow (Name a) (Description a) (License a) (URL a) (Media a)
    (meta_stars meta) (meta_source meta) filename (meta_branch meta)
    (unix_seconds now) (unix_seconds (now + ttl))
    (set_generator (Generator a)).1 (set_generator (Generator a)).2.

Lemma upsert_written ns filename meta now ttl i i' :
  upsert ns filename meta now ttl i = Some i' →
  let k := (BareNamespace ns, Ref ns) in
  NoDup (map os_string (meta_os meta)) ∧ holds i i' k meta ∧
  vault_arrows i' = <[k := upserted_row filename meta now ttl]> (vault_arrows i) ∧
  (wf_index i → wf_index i').
Proof.
  intros H k. unfold upsert in H. unfold upserted_row.
  destruct (set_generator (Generator (meta_arrow meta))) as [g c]. cbn [fst snd].
  apply bind_Some in H as (i1 & H1 & [= <-]). fold k in H1 |- *.
  apply replaceChildRows_holds in H1 as (Hn & Hh & Ha & Hf). cbn in Ha, Hf.
  split; [done|]. split; [exact Hh|]. split; [exact Ha|]. intros (Ht & Ho & Hnf & Hff).
  destruct Hh as [Hht Hho]. cbn in Hht, Hho. split_and!; cbn.
  - intros k' t Hin%Hht. rewrite Ha. destruct (decide (k' = k)) as [->|Hne]; [rewrite lookup_insert_eq; eauto|].
    rewrite lookup_insert_ne by done. eauto.
  - intros k' t Hin%Hho. rewrite Ha. destruct (decide (k' = k)) as [->|Hne]; [rewrite lookup_insert_eq; eauto|].
    rewrite lookup_insert_ne by done. eauto.
  - rewrite Hf, map_app. apply NoDup_app. split_and!; [by apply (NoDup_fst_filter (λ x, x ≠ k))| |apply NoDup_singleton].
    intros x Hx Hk. apply (elem_of_fst_filter (λ x, x ≠ k)) in Hx as [Hx _].
    by apply list_elem_of_singleton in Hk.
  - intros k'. rewrite Ha, Hf, map_app, elem_of_app, (elem_of_fst_filter (λ x, x ≠ k)), <- Hff, lookup_insert. cbn.
    rewrite list_elem_of_singleton. case_decide; [subst|]; naive_solver.
Qed.

Lemma delete_keys_spec i (l : list (key * arrowIndexRow)) :
  let i' := foldl (λ i p, deleteKey p.1 i) i l in
  (∀ k, vault_arrows i' !! k = if decide (k ∈ map fst l) then None else vault_arrows i !! k) ∧
  (∀ k t, (k, t) ∈ vault_arrow_tags i' ↔ k ∉ map fst l ∧ (k, t) ∈ vault_arrow_tags i) ∧
  (∀ k o, (k, o) ∈ vault_arrow_os i' ↔ k ∉ map fst l ∧ (k, o) ∈ vault_arrow_os i) ∧
  (wf_index i → wf_index i').
Proof.
  revert i. induction l as [|[k0 r0] l IH]; intros i; cbn [foldl map fst].
  { split_and!; [by intros k|..]; try done; intros k t; split; try done;
      [intros H; split; [apply not_elem_of_nil|done]|by intros []| |by intros []].
    intros H; split; [apply not_elem_of_nil|done]. }
  destruct (IH (deleteKey k0 i)) as (Ha & Ht & Ho & Hw). split_and!.
  - intros k. rewrite Ha. unfold deleteKey, keep_keys; cbn [vault_arrows].
    destruct (decide (k ∈ map fst l)) as [Hk|Hk]; [by rewrite decide_True by (by right)|].
    destruct (decide (k = k0)) as [->|Hne].
    + rewrite decide_True by left. apply map_lookup_filter_None. right. by intros x _ [].
    + rewrite decide_False by (rewrite elem_of_cons; naive_solver).
      apply option_eq. intros x. rewrite map_lookup_filter_Some. naive_solver.
  - intros k t. rewrite Ht. unfold deleteKey, keep_keys; cbn [vault_arrow_tags].
    rewrite elem_of_filter, elem_of_cons. naive_solver.
  - intros k t. rewrite Ho. unfold deleteKey, keep_keys; cbn [vault_arrow_os].
    rewrite elem_of_filter, elem_of_cons. naive_solver.
  - intros Hi. by apply Hw, keep_keys_wf.
Qed.

(** Which rows a sweep evicts *)
Definition expired_at (now : Z) (i : index) (k : key) : Prop :=
  ∃ r, vault_arrows i !! k = Some r ∧ (col_row_expire_at r <= unix_seconds now)%Z.

Lemma expired_keys now i k :
  k ∈ map fst (filter (λ p : key * arrowIndexRow, (col_row_expire_at p.2 <= unix_seconds now)%Z)
    (map_to_list (vault_arrows i))) ↔ expired_at now i k.
Proof.
  rewrite list_elem_of_fmap. unfold expired_at. split.
  - intros ([k' r] & -> & [He Hr%elem_of_map_to_list]%list_elem_of_filter). eauto.
  - intros (r & Hr & He). exists (k, r). split; [done|]. apply list_elem_of_filter.
    split; [done|]. by apply elem_of_map_to_list.
Qed.

(** The index keeps the tags and the platforms of rows it has, and one full-text row
    of each.  Filing a manifest replaces the row of its key and its children, and no
    other key's; it fails exactly when a platform is given twice, while tags may repeat.
    Forgetting a namespace leaves nothing of it, and eviction leaves exactly the rows
    that have not expired. *)
Lemma index_maintained i :
  wf_index i →
  (∀ ns filename meta now ttl,
     let k := (BareNamespace ns, Ref ns) in
     (upsert ns filename meta now ttl i = None ↔ ¬ NoDup (map os_string (meta_os meta))) ∧
     ∀ i', upsert ns filename meta now ttl i = Some i' →
       wf_index i' ∧ holds i i' k meta ∧
       vault_arrows i' = <[k := upserted_row filename meta now ttl]> (vault_arrows i)) ∧
  (∀ ns, wf_index (forget ns i) ∧
     ∀ k, vault_arrows (forget ns i) !! k =
       if decide (k.1 = BareNamespace ns) then None else vault_arrows i !! k) ∧
  (∀ now, wf_index (evictExpired now i) ∧
     ∀ k r, vault_arrows (evictExpired now i) !! k = Some r ↔
       vault_arrows i !! k = Some r ∧ (unix_seconds now < col_row_expire_at r)%Z).
Proof.
  intros Hw. split_and!.
  - intros ns filename meta now ttl k. split.
    + split.
      * intros Hn Hd. unfold upsert in Hn. destruct (set_generator _) as [g c].
        destruct (replaceChildRows_some k meta
          (mkIndex (<[k := mkArrowIndexRow (Name (meta_arrow meta)) (Description (meta_arrow meta))
            (License (meta_arrow meta)) (URL (meta_arrow meta)) (Media (meta_arrow meta)) (meta_stars meta)
            (meta_source meta) filename (meta_branch meta) (unix_seconds now) (unix_seconds (now + ttl)) g c]>
            (vault_arrows i)) (vault_arrow_tags i) (vault_arrow_os i) (vault_arrows_fts i)) Hd) as [x Hx].
        unfold k in Hx. by rewrite Hx in Hn.
      * intros Hd. destruct (upsert _ _ _ _ _ _) as [i'|] eqn:Hu; [|done].
        by apply upsert_written in Hu as (? & _).
    + intros i' Hu. apply upsert_written in Hu as (_ & Hh & Ha & Hi). auto.
  - intros ns. split; [by apply keep_keys_wf|]. intros k. unfold forget, keep_keys; cbn [vault_arrows].
    case_decide as Hk; [apply map_lookup_filter_None; right; by intros x _ []|].
    apply option_eq. intros x. rewrite map_lookup_filter_Some. naive_solver.
  - intros now. unfold evictExpired.
    destruct (delete_keys_spec i (filter (λ p : key * arrowIndexRow,
      (col_row_expire_at p.2 <= unix_seconds now)%Z) (map_to_list (vault_arrows i)))) as (Ha & _ & _ & Hi).
    split; [by apply Hi|]. intros k r. rewrite Ha.
    destruct (decide _) as [Hk|Hk]; rewrite expired_keys in Hk; unfold expired_at in Hk.
    + split; [done|]. intros [Hr Hl]. destruct Hk as (r' & Hr' & He). simplify_eq. lia.
    + split; [|by intros []]. intros Hr. split; [done|].
      destruct (Z.leb_spec (col_row_expire_at r) (unix_seconds now)); [|done].
      destruct Hk. eauto.
Qed.

(** *** Examples of these *)

Definition example_meta : IndexMeta :=
  mkIndexMeta (mkArrowMeta "Steam CMD" "a 100% client" "" "" [] [] ["game"; "game"] (mkArrowMedia "" "") None)
    [OSLinuxAMD64] 3 "vault" "".

Definition example_index : index :=
  default (mkIndex ∅ ∅ ∅ [])
    (upsert "github.com/u/steamcmd@v1" "ARROW.md" example_meta 0 10000000000 (mkIndex ∅ ∅ ∅ [])).

Lemma empty_index_wf : wf_index (mkIndex ∅ ∅ ∅ []).
Proof.
  split_and!; cbn.
  - intros k t. by rewrite elem_of_empty.
  - intros k t. by rewrite elem_of_empty.
  - constructor.
  - intros k. rewrite lookup_empty. split; [by intros []|by intros ?%not_elem_of_nil].
Qed.

Lemma example_index_wf : wf_index example_index.
Proof.
  unfold example_index. destruct (upsert _ _ _ _ _ _) as [i|] eqn:H; [|apply empty_index_wf].
  apply upsert_written in H as (_ & _ & _ & H). apply H, empty_index_wf.
Qed.

Lemma index_maintained_witness : vault_arrows (evictExpired 20000000000 example_index) = ∅.
Proof.
  apply map_empty. intros k. apply eq_None_not_Some. intros [r Hr].
  destruct (index_maintained example_index example_index_wf) as (_ & _ & He).
  destruct (He 20000000000%Z) as [_ He']. apply He' in Hr as [Hr Hl].
  apply elem_of_map_to_list in Hr. vm_compute in Hr.
  apply list_elem_of_singleton in Hr. simplify_eq. vm_compute in Hl. done.
Defined.

Lemma search_exact_witness :
  let q := mkIndexQuery "100% steam" (OSOther "") 0 in
  map indexed_ref (search like_example (λ _ _, None) example_index q 0) = ["v1"] ∧
  ∃ row, row ∈ search like_example (λ _ _, None) example_index q 0 ∧
    indexed_namespace row = "github.com/u/steamcmd".
Proof.
  intros q. split; [vm_compute; reflexivity|].
  destruct (search_exact like_example (λ _ _, None) example_index q 0) as (_ & _ & Hall).
  destruct (Hall ltac:(vm_compute; discriminate) ("github.com/u/steamcmd", "v1")
    (upserted_row "ARROW.md" example_meta 0 10000000000)) as (row & Hrow & Hn & _).
  - apply (searchSQL_found like_example (λ _ _, None)). vm_compute. left.
  - right. vm_compute. discriminate.
  - eauto.
Defined.
