(* ===== verification/Vault.v ===== *)
(** * The vault's cache of manifests and its workdirs (internal/engine/vault)

    store.go, manifest.go and sweep.go: a manifest's bytes and a sidecar of metadata per
    namespace in one directory, read under two names, written by renaming a temporary
    file, expired by a clock; and the workdirs.  The operations are programs of calls on
    the file system, the clock and the locks of namespaces.  A sidecar is its metadata
    rather than its JSON. *)

From S2P Require Import Prelude Errors GoStrings GoFilepath Domain Steps Manifest Prog VaultPaths VaultIndex.

(** ** Entries (vault_entry.go) *)

Record ManifestFile := mkManifestFile {
  Content : string;
  manifest_filename : string;
  manifest_meta : option IndexMeta;
  manifest_ref : string;
  manifest_commit : string;
  manifest_default : bool;
  manifest_channels : string;
  manifest_default_at : Z;
}.

Definition no_manifest : ManifestFile := mkManifestFile "" "" None "" "" false "" 0.

Record VaultMetadata := mkMetadata {
  CachedAt : Z;
  Filename : string;
  meta_namespace : Namespace;
  NotFound : bool;
  meta_ref : string;
  meta_commit : string;
  meta_default : bool;
  meta_default_at : Z;
  meta_channels : string;
}.

(** What a file of the vault holds *)
Inductive file := Sidecar (m : VaultMetadata) | Bytes (b : string).

(** ** The calls *)

Inductive call :=
| Now
| Lock (key : string)
| Unlock (key : string)
(* the directory of the cache *)
| MkdirVault
| ReadFile (name : string)
| CreateTemp
| WriteTemp (tmp : string) (data : file)
| CloseTemp (tmp : string)
| Rename (tmp name : string)
| RemoveFile (name : string)
| ListVault
(* the directories of the namespaces *)
| Tree
| MkdirAll (dir : string)
| RemoveAll (dir : string)
| ListDir (dir : string)
| RemoveAt (path : string)
(* the index *)
| Upsert (ns : Namespace) (filename : string) (meta : IndexMeta) (now ttl : Z)
| Evict (now : Z).

Definition answer (c : call) : Type :=
  match c with
  | Now => Z
  | Lock _ | Unlock _ => unit
  | ReadFile _ => result error file
  | CreateTemp => result error string
  | ListVault => result error (list (string * bool))
  | Tree => filesystem
  | ListDir _ => result error (list string)
  | MkdirVault | WriteTemp _ _ | CloseTemp _ | Rename _ _ | RemoveFile _ | MkdirAll _
  | RemoveAll _ | RemoveAt _ | Upsert _ _ _ _ _ | Evict _ => result error unit
  end.

Abbreviation P := (prog answer).
Abbreviation U := (P (result error unit)).

(** [mu.Lock(); defer mu.Unlock()] of a namespace *)
Definition locked {A} (key : string) (p : P A) : P A :=
  _ ← (ask (Lock key) : P unit);
  deferring p (ask (Unlock key) : P unit).

(** [filepath.Ext] *)
Fixpoint Ext (path : string) : string :=
  match path with
  | "" => ""
  | String c rest =>
    let e := Ext rest in
    if negb (is_empty e) then e
    else if Ascii.eqb c "." && negb (contains_byte "/" rest) then path else ""
  end.

Definition trim_suffix (s suffix : string) : string := default s (cut_suffix s suffix).

Definition metaSuffix : string := ".meta.json".

(** ** Files (manifest.go) *)

Definition readMeta (name : string) : P (result error VaultMetadata) :=
  bind_ok (ask (ReadFile name) : P (result error file)) (λ data,
    match data with
    | Sidecar m => mret (Ok m)
    | Bytes _ => mret (Err [])
    end).

(** A temporary file takes the name once it is written and closed. *)
Definition atomicWrite (name : string) (data : file) : U :=
  bind_ok (ask CreateTemp : P (result error string)) (λ tmp,
    written ← (ask (WriteTemp tmp data) : U);
    closed ← (ask (CloseTemp tmp) : U);
    match written, closed with
    | Err e, _ => _ ← (ask (RemoveFile tmp) : U); mret (Err e)
    | Ok _, Err e => _ ← (ask (RemoveFile tmp) : U); mret (Err e)
    | Ok _, Ok _ =>
      renamed ← (ask (Rename tmp name) : U);
      match renamed with
      | Err e => _ ← (ask (RemoveFile tmp) : U); mret (Err e)
      | Ok _ => mret (Ok ())
      end
    end).

Section vault.
(** The digest of long names, whether metadata can be marshalled, where the namespaces
    are, and how long an entry and a row of the index last *)
Context (hex_sha256 : string → string) (marshals : VaultMetadata → bool).
Context (namespacesPath : string) (ttl indexTTL : Z).

Definition metaFilePath (ns : Namespace) : string := encodeNS hex_sha256 ns +:+ metaSuffix.

Definition manifestFilePath (ns : Namespace) (filename : string) : string :=
  encodeNS hex_sha256 ns +:+ Ext filename.

Definition cacheNames (ns : Namespace) : list string :=
  let current := encodeNS hex_sha256 ns in
  let legacy := legacyEncodeNS ns in
  if String.eqb current legacy || (maxComponentLen <? String.length (legacy +:+ metaSuffix))
  then [current] else [current; legacy].

Fixpoint read_cached (names : list string) (err : error) : P (result error (VaultMetadata * string)) :=
  match names with
  | [] => mret (Err err)
  | name :: names' =>
    r ← readMeta (name +:+ metaSuffix);
    match r with
    | Ok meta => mret (Ok (meta, name))
    | Err e => if errors_Is e ErrOSNotExist then read_cached names' e else mret (Err e)
    end
  end.

Definition readCachedMeta (ns : Namespace) : P (result error (VaultMetadata * string)) :=
  read_cached (cacheNames ns) [ErrOSNotExist].

(** A manifest with the error that may come beside it *)
Abbreviation read := (ManifestFile * option error)%type.

Definition expired (now : Z) (meta : VaultMetadata) : bool := Z.ltb ttl (now - CachedAt meta).

Definition getArrow (ns : Namespace) : P read :=
  locked ns (
    found ← readCachedMeta ns;
    match found with
    | Err e =>
      mret (no_manifest, Some (if errors_Is e ErrOSNotExist then [ErrNotCached] else e))
    | Ok (meta, name) =>
      if NotFound meta then
        now ← (ask Now : P Z);
        if expired now meta then mret (no_manifest, Some [ErrNotCached])
        else mret (mkManifestFile "" "" None "" (meta_commit meta) false "" 0, Some [ErrConfirmedAbsent])
      else
        content ← (ask (ReadFile (name +:+ Ext (Filename meta))) : P (result error file));
        match content with
        | Err e =>
          mret (no_manifest, Some (if errors_Is e ErrOSNotExist then [ErrNotCached] else e))
        | Ok data =>
          let bytes := match data with Bytes b => b | Sidecar _ => "" end in
          let f := mkManifestFile bytes (Filename meta) None (meta_ref meta) (meta_commit meta)
            (meta_default meta) (meta_channels meta) (meta_default_at meta) in
          now ← (ask Now : P Z);
          mret (f, if expired now meta then Some [ErrStale] else None)
        end
    end).

(** [json.Marshal] of a sidecar, and its write *)
Definition write_meta (ns : Namespace) (meta : VaultMetadata) : U :=
  if marshals meta then atomicWrite (metaFilePath ns) (Sidecar meta) else mret (Err []).

Definition putArrowNotFound (ns : Namespace) (commit : string) : U :=
  locked ns (
    bind_ok (ask MkdirVault : U) (λ _,
      now ← (ask Now : P Z);
      write_meta ns (mkMetadata now "" ns true "" commit false 0 ""))).

(** What an entry keeps of the one it replaces *)
Definition keepPrevious (ns : Namespace) (f : ManifestFile) : P (ManifestFile * Z) :=
  defaultAt ← (if manifest_default f then (ask Now : P Z) else mret 0%Z);
  prev ← readCachedMeta ns;
  match prev with
  | Err _ => mret (f, defaultAt)
  | Ok (prev, _) =>
    let kept := negb (manifest_default f) && meta_default prev in
    mret (mkManifestFile (Content f) (manifest_filename f) (manifest_meta f) (manifest_ref f)
            (manifest_commit f) (manifest_default f || meta_default prev)
            (if String.eqb (manifest_channels f) "" then meta_channels prev else manifest_channels f)
            (manifest_default_at f),
          if kept then meta_default_at prev else defaultAt)
  end.

Definition namespacePath_in (ns : Namespace) : P (result error string) :=
  fs ← (ask Tree : P filesystem);
  mret (namespacePath hex_sha256 namespacesPath fs ns).

Definition putArrow (ns : Namespace) (f : ManifestFile) : U :=
  locked ns (
    bind_ok (ask MkdirVault : U) (λ _,
    bind_ok (namespacePath_in ns) (λ workdir,
    bind_ok (atomicWrite (manifestFilePath ns (manifest_filename f)) (Bytes (Content f))) (λ _,
      '(f, defaultAt) ← keepPrevious ns f;
      now ← (ask Now : P Z);
      bind_ok (write_meta ns (mkMetadata now (manifest_filename f) ns false (manifest_ref f)
                 (manifest_commit f) (manifest_default f) defaultAt (manifest_channels f))) (λ _,
        indexed ← match manifest_meta f with
                  | None => mret (Ok ())
                  | Some meta =>
                    now ← (ask Now : P Z);
                    (ask (Upsert ns (manifest_filename f) meta now indexTTL) : U)
                  end;
        match indexed with
        | Err e => mret (Err e)
        | Ok _ => (ask (MkdirAll workdir) : U)
        end))))).

(** [os.Remove], whose file may be gone *)
Definition remove_if_there (name : string) : U :=
  r ← (ask (RemoveFile name) : U);
  match r with
  | Err e => if errors_Is e ErrOSNotExist then mret (Ok ()) else mret (Err e)
  | Ok _ => mret (Ok ())
  end.

Definition deleteCacheEntry (name : string) : U :=
  found ← readMeta (name +:+ metaSuffix);
  match found with
  | Err e => if errors_Is e ErrOSNotExist then mret (Ok ()) else mret (Err e)
  | Ok meta =>
    bind_ok (remove_if_there (name +:+ Ext (Filename meta))) (λ _,
      remove_if_there (name +:+ metaSuffix))
  end.

Fixpoint delete_entries (names : list string) : U :=
  match names with
  | [] => mret (Ok ())
  | name :: names' => bind_ok (deleteCacheEntry name) (λ _, delete_entries names')
  end.

Definition deleteArrow (ns : Namespace) : U := locked ns (delete_entries (cacheNames ns)).

(** ** Listing (store.go, manifest.go) *)

Definition cachedNamespace (metaName : string) : P (option Namespace) :=
  let encoded := trim_suffix metaName metaSuffix in
  if isHashed encoded then
    found ← readMeta metaName;
    mret (match found with
          | Ok meta => if String.eqb (meta_namespace meta) "" then None else Some (meta_namespace meta)
          | Err _ => None
          end)
  else mret (PathUnescape encoded).

Definition is_meta_entry (e : string * bool) : bool := negb e.2 && has_suffix e.1 metaSuffix.

Fixpoint versions_among (bare : Namespace) (entries : list (string * bool)) : P (list string) :=
  match entries with
  | [] => mret []
  | e :: entries' =>
    if negb (is_meta_entry e) then versions_among bare entries'
    else
      candidate ← cachedNamespace e.1;
      rest ← versions_among bare entries';
      mret (match candidate with
            | Some ns =>
              if String.eqb (BareNamespace ns) bare && negb (String.eqb (Ref ns) "")
              then Ref ns :: rest else rest
            | None => rest
            end)
  end.

Definition listVersions (ns : Namespace) : P (result error (list string)) :=
  entries ← (ask ListVault : P (result error (list (string * bool))));
  match entries with
  | Err e => if errors_Is e ErrOSNotExist then mret (Ok []) else mret (Err e)
  | Ok entries => versions ← versions_among (BareNamespace ns) entries; mret (Ok versions)
  end.

(** ** Expiry (sweep.go) *)

Definition sweepCacheEntry (name : string) : P unit :=
  ns ← cachedNamespace (name +:+ metaSuffix);
  match ns with
  | None => mret ()
  | Some ns => locked ns (_ ← deleteCacheEntry name; mret ())
  end.

Fixpoint sweep_entries (entries : list (string * bool)) : P unit :=
  match entries with
  | [] => mret ()
  | e :: entries' =>
    if negb (is_meta_entry e) then sweep_entries entries'
    else
      found ← readMeta e.1;
      match found with
      | Err _ => sweep_entries entries'
      | Ok meta =>
        now ← (ask Now : P Z);
        if expired now meta
        then _ ← sweepCacheEntry (trim_suffix e.1 metaSuffix); sweep_entries entries'
        else sweep_entries entries'
      end
  end.

Definition sweepArrows : P unit :=
  entries ← (ask ListVault : P (result error (list (string * bool))));
  match entries with
  | Err _ => mret ()
  | Ok entries => sweep_entries entries
  end.

(** ** The vault's operations (store.go) *)

Definition invalid {A} : result error A := Err [ErrInvalidNamespace].

Definition valid (ns : Namespace) : bool :=
  match ValidateNamespace ns with None => true | Some _ => false end.

Definition WorkDir (ns : Namespace) : P (result error string) :=
  if negb (valid ns) then mret invalid
  else
    bind_ok (namespacePath_in ns) (λ dir,
    bind_ok (ask (MkdirAll dir) : U) (λ _, mret (Ok dir))).

Definition GetArrow (ns : Namespace) : P read :=
  if negb (valid ns) then mret (no_manifest, Some [ErrInvalidNamespace]) else getArrow ns.

Definition PutArrow (ns : Namespace) (f : ManifestFile) : U :=
  if negb (valid ns) then mret invalid else putArrow ns f.

Definition PutArrowNotFound (ns : Namespace) (commit : string) : U :=
  if negb (valid ns) then mret invalid else putArrowNotFound ns commit.

Definition DeleteArrow (ns : Namespace) : U :=
  if negb (valid ns) then mret invalid else deleteArrow ns.

Definition ListVersions (ns : Namespace) : P (result error (list string)) :=
  if negb (valid (BareNamespace ns)) then mret (Ok []) else listVersions ns.

(** Files of the macOS Finder *)
Definition is_finder_file (name : string) : bool :=
  String.eqb name ".DS_Store" || (2 <? String.length name) && String.prefix "._" name.

Fixpoint remove_each (dir : string) (names : list string) : P unit :=
  match names with
  | [] => mret ()
  | name :: names' =>
    _ ← (if is_finder_file name then (ask (RemoveAt (Join [dir; name])) : U) else mret (Ok ()));
    remove_each dir names'
  end.

Definition removeMacOSMetadata (dir : string) : P unit :=
  entries ← (ask (ListDir dir) : P (result error (list string)));
  match entries with
  | Err _ => mret ()
  | Ok names => remove_each dir names
  end.

(** The parents that are left empty, from the directory up; [None] when the fuel is out.
    A path has fewer components than bytes, so its length is fuel for it. *)
Fixpoint prune (fuel : nat) (parent : string) : P (option unit) :=
  match fuel with
  | O => mret None
  | S fuel =>
    if String.eqb parent namespacesPath then mret (Some ())
    else
      _ ← removeMacOSMetadata parent;
      entries ← (ask (ListDir parent) : P (result error (list string)));
      match entries with
      | Ok [] =>
        removed ← (ask (RemoveAt parent) : U);
        match removed with
        | Err _ => mret (Some ())
        | Ok _ => prune fuel (Dir parent)
        end
      | _ => mret (Some ())
      end
  end.

Definition DeleteWorkDir (ns : Namespace) : P (option (result error unit)) :=
  if negb (valid ns) then mret (Some invalid)
  else
    found ← namespacePath_in ns;
    match found with
    | Err e => mret (Some (if errors_Is e ErrWorkDirCollision then Ok () else Err e))
    | Ok dir =>
      removed ← (ask (RemoveAll dir) : U);
      match removed with
      | Err e => mret (Some (Err e))
      | Ok _ => done ← prune (S (String.length dir)) (Dir dir); mret (Ok <$> done)
      end
    end.

(** ** A machine that fails nothing *)

Record state := mkState { files : gmap string file; clock : Z; tree : filesystem }.

Definition set_files (s : state) (f : gmap string file) : state := mkState f (clock s) (tree s).

(** The one temporary name of a program at work *)
Definition temporary : string := "1.tmp".

Definition serve (s : state) (c : call) : answer c * state :=
  match c with
  | Now => (clock s, s)
  | Lock _ | Unlock _ => ((), s)
  | MkdirVault | MkdirAll _ | RemoveAll _ | RemoveAt _ | Upsert _ _ _ _ _ | Evict _ => (Ok (), s)
  | ReadFile name =>
    (match files s !! name with Some f => Ok f | None => Err [ErrOSNotExist] end, s)
  | CreateTemp => (Ok temporary, set_files s (<[temporary := Bytes ""]> (files s)))
  | WriteTemp tmp data => (Ok (), set_files s (<[tmp := data]> (files s)))
  | CloseTemp _ => (Ok (), s)
  | Rename tmp name =>
    match files s !! tmp with
    | Some f => (Ok (), set_files s (<[name := f]> (delete tmp (files s))))
    | None => (Err [ErrOSNotExist], s)
    end
  | RemoveFile name =>
    match files s !! name with
    | Some _ => (Ok (), set_files s (delete name (files s)))
    | None => (Err [ErrOSNotExist], s)
    end
  | ListVault => (Ok (map (λ p, (p.1, false)) (map_to_list (files s))), s)
  | Tree => (tree s, s)
  | ListDir dir =>
    (match ReadDir (tree s) dir with Some l => Ok l | None => Err [ErrOSNotExist] end, s)
  end.

Fixpoint play {A} (s : state) (p : P A) : A * state :=
  match p with
  | Return a => (a, s)
  | Call c k => play (serve s c).2 (k (serve s c).1)
  end.

Lemma play_bind {A B} s (p : P A) (f : A → P B) :
  play s (p ≫= f) = play (play s p).2 (f (play s p).1).
Proof. revert s. induction p as [a|c k IH]; intros s; [done|]. simpl. apply IH. Qed.
End vault.

(** ** The names of an entry *)

Fixpoint last_byte (s : string) : option ascii :=
  match s with
  | "" => None
  | String c "" => Some c
  | String _ s' => last_byte s'
  end.

Lemma last_byte_app x c y : last_byte (x +:+ String c y) = last_byte (String c y).
Proof.
  induction x as [|d x IH]; [done|]. simpl in *. destruct (x +:+ String c y)%string eqn:E; [|done].
  by destruct x.
Qed.

Lemma append_cancel_r a b e : a +:+ e = b +:+ e → a = b.
Proof.
  intros H. assert (String.length a = String.length b) as Hl.
  { apply (f_equal String.length) in H. rewrite !string_length_app in H. lia. }
  revert b H Hl. induction a as [|c a IH]; intros [|d b] H Hl; try done.
  injection H as -> H. f_equal. apply IH; [done|]. simpl in Hl. lia.
Qed.

(** What is added to the name of an entry *)
Definition endings : list string := [metaSuffix; ".md"; ".yaml"; ""].

Definition ends_in (s e : string) : Prop := ∃ x, s = x +:+ e.

Lemma endings_apart n1 n2 e1 e2 :
  e1 ∈ endings → e2 ∈ endings →
  (∀ e, e ∈ endings → e ≠ "" → ¬ ends_in n1 e ∧ ¬ ends_in n2 e) →
  n1 +:+ e1 = n2 +:+ e2 → n1 = n2 ∧ e1 = e2.
Proof.
  intros H1 H2 Hn H. destruct (decide (e1 = e2)) as [->|Hne]; [by apply append_cancel_r in H|exfalso].
  destruct (decide (e1 = "")) as [->|Hz1].
  { rewrite string_app_nil_r in H. destruct (Hn e2 H2) as [Hc _]; [congruence|]. apply Hc. by exists n2. }
  destruct (decide (e2 = "")) as [->|Hz2].
  { rewrite string_app_nil_r in H. destruct (Hn e1 H1) as [_ Hc]; [congruence|]. apply Hc. by exists n1. }
  apply (f_equal last_byte) in H. unfold endings in *.
  rewrite !elem_of_cons in H1, H2.
  destruct H1 as [->|[->|[->|[->|H1]]]], H2 as [->|[->|[->|[->|H2]]]]; try done;
    try (by apply not_elem_of_nil in H1); try (by apply not_elem_of_nil in H2);
    unfold metaSuffix in *; rewrite !last_byte_app in H; discriminate.
Qed.

Lemma escape_colons_app a b : escape_colons (a +:+ b) = escape_colons a +:+ escape_colons b.
Proof.
  induction a as [|c a IH]; [done|]. cbn [String.append escape_colons].
  by rewrite IH, string_app_assoc.
Qed.

Lemma escape_colons_pct c : escape_colons (pct c) = pct c.
Proof. destruct c as [[] [] [] [] [] [] [] []]; reflexivity. Qed.

Lemma escape_colons_escaped s : escaped s (escape_colons (PathEscape s)).
Proof.
  induction s as [|c s IH]; [constructor|]. cbn [PathEscape]. rewrite escape_colons_app.
  destruct (shouldEscape c) eqn:Hc; [rewrite escape_colons_pct; by constructor|].
  cbn [escape_colons]. rewrite string_app_nil_r. apply escaped_byte; [by intros ->|done].
Qed.

Lemma escape_colons_without s :
  contains_byte "~" s = false → contains_byte "~" (escape_colons s) = false.
Proof.
  unfold contains_byte. induction s as [|c s IH]; [done|]. cbn [exists_byte escape_colons].
  intros [Hc Hs]%orb_false_iff. rewrite exists_byte_app, IH, orb_false_r by done.
  destruct (Ascii.eqb_spec c ":") as [->|]; [done|]. cbn [exists_byte]. by rewrite Hc.
Qed.

Lemma PathEscape_without s :
  contains_byte "~" s = false → contains_byte "~" (PathEscape s) = false.
Proof.
  unfold contains_byte. induction s as [|c s IH]; [done|]. cbn [exists_byte PathEscape].
  intros [Hc Hs]%orb_false_iff. rewrite exists_byte_app, IH, orb_false_r by done.
  destruct (shouldEscape c).
  - clear. destruct c as [[] [] [] [] [] [] [] []]; reflexivity.
  - cbn [exists_byte]. by rewrite Hc.
Qed.

(** The name of an entry before it is cut *)
Definition whole_name (ns : Namespace) : string :=
  match cut_byte "@" ns with
  | None => PathEscape ns
  | Some (bare, ref) => PathEscape bare +:+ "@" +:+ encodeRefSegment ref
  end.

Lemma encodeNS_whole hex ns : encodeNS hex ns = capName hex (whole_name ns) ns.
Proof. unfold encodeNS, whole_name. by destruct (cut_byte "@" ns) as [[]|]. Qed.

Lemma at_escaped bare ref b r :
  escaped bare b → escaped ref r → escaped (bare +:+ String "@" ref) (b +:+ "@" +:+ r).
Proof. intros Hb Hr. apply escaped_app; [done|]. by constructor. Qed.

Lemma whole_name_escaped ns : escaped ns (whole_name ns).
Proof.
  unfold whole_name. destruct (cut_byte "@" ns) as [[bare ref]|] eqn:Hc; [|apply PathEscape_escaped].
  apply cut_byte_some in Hc as [-> _].
  apply at_escaped; [apply PathEscape_escaped|apply encodeRefSegment_escaped].
Qed.

Lemma legacy_escaped ns : escaped ns (legacyEncodeNS ns).
Proof.
  unfold legacyEncodeNS. destruct (cut_byte "@" ns) as [[bare ref]|] eqn:Hc; [|apply PathEscape_escaped].
  apply cut_byte_some in Hc as [-> _].
  apply at_escaped; [apply PathEscape_escaped|apply escape_colons_escaped].
Qed.

Lemma cut_parts_without c ns bare ref :
  cut_byte "@" ns = Some (bare, ref) → contains_byte c ns = false →
  contains_byte c bare = false ∧ contains_byte c ref = false.
Proof.
  intros [-> _]%cut_byte_some. rewrite contains_byte_app. intros [? H]%orb_false_iff.
  unfold contains_byte in H. cbn [exists_byte] in H. apply orb_false_iff in H as [_ ?]. done.
Qed.

Lemma whole_name_unmarked ns : isHashed ns = false → isHashed (whole_name ns) = false.
Proof.
  unfold isHashed, hashedMarker, whole_name. intros H.
  destruct (cut_byte "@" ns) as [[bare ref]|] eqn:Hc; [|by apply PathEscape_without].
  apply (cut_parts_without "~") in Hc as [Hb _]; [|done].
  rewrite !contains_byte_app, PathEscape_without, encodeRefSegment_without by done. done.
Qed.

Lemma legacy_unmarked ns : isHashed ns = false → isHashed (legacyEncodeNS ns) = false.
Proof.
  unfold isHashed, hashedMarker, legacyEncodeNS. intros H.
  destruct (cut_byte "@" ns) as [[bare ref]|] eqn:Hc; [|by apply PathEscape_without].
  apply (cut_parts_without "~") in Hc as [Hb Hr]; [|done].
  rewrite !contains_byte_app, PathEscape_without by done.
  by rewrite escape_colons_without by (by apply PathEscape_without).
Qed.

Section cache.
Context (hex_sha256 : string → string) (marshals : VaultMetadata → bool).
Context (namespacesPath : string) (ttl indexTTL : Z).

Abbreviation names := (cacheNames hex_sha256).

(** A name reads back as its namespace, unless it was cut and ends in its digest. *)
Lemma cacheNames_read ns n :
  isHashed ns = false → n ∈ names ns →
  isHashed n = false ∧ PathUnescape n = Some ns ∨ isHashed n = true ∧ n = encodeNS hex_sha256 ns.
Proof.
  intros Hm Hn. assert (n = encodeNS hex_sha256 ns ∨ n = legacyEncodeNS ns) as [->| ->].
  { unfold cacheNames in Hn. destruct (_ || _); rewrite ?elem_of_cons in Hn;
      destruct Hn as [->|Hn]; auto; [by apply not_elem_of_nil in Hn|].
    destruct Hn as [->|Hn]; [auto|by apply not_elem_of_nil in Hn]. }
  - pose proof (whole_name_unmarked ns Hm) as Hw. rewrite encodeNS_whole, isHashed_capName by done.
    unfold capName. destruct (_ <=? _); [left|by right].
    split; [done|]. apply PathUnescape_escaped, whole_name_escaped.
  - left. split; [by apply legacy_unmarked|]. apply PathUnescape_escaped, legacy_escaped.
Qed.

Lemma names_apart a b n :
  isHashed a = false → isHashed b = false → (a ≠ b → ¬ same_digest hex_sha256 a b) →
  n ∈ names a → n ∈ names b → a = b.
Proof.
  intros Ha Hb Hd Hna Hnb.
  destruct (cacheNames_read a n Ha Hna) as [[H1 E1]|[H1 E1]],
    (cacheNames_read b n Hb Hnb) as [[H2 E2]|[H2 E2]]; try congruence.
  destruct (decide (a = b)) as [|Hne]; [done|]. rewrite E1, !encodeNS_whole in E2.
  apply capName_inj in E2 as [E|E]; [| |by apply whole_name_unmarked..].
  - pose proof (PathUnescape_escaped _ _ (whole_name_escaped a)) as Ea.
    rewrite E, (PathUnescape_escaped _ _ (whole_name_escaped b)) in Ea. by simplify_eq.
  - by destruct (Hd Hne).
Qed.

(** A namespace whose files are told from those of others: no marker in it, and no name
    of it that ends as a file of another does *)
Definition tame (ns : Namespace) : Prop :=
  ValidateNamespace ns = None ∧ isHashed ns = false ∧
  ∀ n e, n ∈ names ns → e ∈ endings → e ≠ "" → ¬ ends_in n e.

(** The files of an entry *)
Definition slot (ns : Namespace) (name : string) : Prop :=
  ∃ n e, n ∈ names ns ∧ e ∈ endings ∧ name = n +:+ e.

Lemma slots_apart a b name :
  tame a → tame b → (a ≠ b → ¬ same_digest hex_sha256 a b) →
  slot a name → slot b name → a = b.
Proof.
  intros (_ & Ha & Hta) (_ & Hb & Htb) Hd (n & e & Hn & He & ->) (n' & e' & Hn' & He' & H).
  apply endings_apart in H as [-> _]; [by apply (names_apart a b n')|done..|].
  intros x Hx Hxe. split; [by apply Hta|by apply Htb].
Qed.

Lemma slot_not_temporary ns : tame ns → ¬ slot ns temporary.
Proof.
  intros (Hv & Hm & _) (n & e & Hn & He & H).
  assert (e = "") as ->.
  { unfold endings in He. rewrite !elem_of_cons in He.
    destruct He as [->|[->|[->|[->|He]]]]; [..|done|by apply not_elem_of_nil in He];
      apply (f_equal last_byte) in H; unfold metaSuffix in H; by rewrite last_byte_app in H. }
  rewrite string_app_nil_r in H. subst n.
  destruct (cacheNames_read ns temporary Hm Hn) as [[_ H]|[H _]]; [|done].
  assert (ns = "1.tmp") as -> by (by vm_compute in H; simplify_eq). by vm_compute in Hv.
Qed.

(** ** What the cache holds of a namespace *)

(** The sidecar that is read, and under which name *)
Fixpoint sidecar (f : gmap string file) (l : list string) : option (VaultMetadata * string) :=
  match l with
  | [] => None
  | n :: l' =>
    match f !! (n +:+ metaSuffix) with
    | Some (Sidecar m) => Some (m, n)
    | _ => sidecar f l'
    end
  end.

(** An entry: its metadata, and its bytes where it has some and they are there *)
Definition view (f : gmap string file) (ns : Namespace) : option (VaultMetadata * option string) :=
  match sidecar f (names ns) with
  | None => None
  | Some (m, n) =>
    Some (m, if NotFound m then None
             else match f !! (n +:+ Ext (Filename m)) with
                  | Some (Bytes b) => Some b
                  | Some (Sidecar _) => Some ""
                  | None => None
                  end)
  end.

(** Manifests end as those the program writes do, and only metadata has the name of it. *)
Definition wf (f : gmap string file) : Prop :=
  (∀ name m, f !! name = Some (Sidecar m) → Ext (Filename m) ∈ endings) ∧
  (∀ ns n b, tame ns → n ∈ names ns → f !! (n +:+ metaSuffix) ≠ Some (Bytes b)) ∧
  f !! temporary = None.

Lemma metaSuffix_ending : metaSuffix ∈ endings.
Proof. left. Qed.

#[local] Hint Resolve metaSuffix_ending : core.

Lemma sidecar_frame f f' l :
  (∀ n, n ∈ l → f' !! (n +:+ metaSuffix) = f !! (n +:+ metaSuffix)) → sidecar f' l = sidecar f l.
Proof.
  induction l as [|n l IH]; intros H; [done|]. cbn [sidecar].
  rewrite H by left. rewrite IH; [done|]. intros m Hm. apply H. by right.
Qed.

Lemma sidecar_some f l m n : sidecar f l = Some (m, n) → n ∈ l ∧ f !! (n +:+ metaSuffix) = Some (Sidecar m).
Proof.
  induction l as [|n' l IH]; [done|]. cbn [sidecar].
  destruct (f !! (n' +:+ metaSuffix)) as [[m'|b]|] eqn:Hf; intros H.
  - simplify_eq. split; [left|done].
  - destruct (IH H). split; [by right|done].
  - destruct (IH H). split; [by right|done].
Qed.

(** An entry is what its own files say. *)
Lemma view_frame f f' ns :
  wf f → (∀ name, slot ns name → f' !! name = f !! name) → view f' ns = view f ns.
Proof.
  intros (Hext & _) H. unfold view.
  rewrite (sidecar_frame f) by (intros n Hn; apply H; by exists n, metaSuffix).
  destruct (sidecar f (names ns)) as [[m n]|] eqn:Hs; [|done].
  apply sidecar_some in Hs as [Hn Hs]. rewrite H; [done|].
  exists n, (Ext (Filename m)). split_and!; [done|by eapply Hext|done].
Qed.

(** ** Each operation on it *)

Lemma play_readMeta s name :
  play s (readMeta name) =
    (match files s !! name with
     | Some (Sidecar m) => Ok m
     | Some (Bytes _) => Err []
     | None => Err [ErrOSNotExist]
     end, s).
Proof.
  unfold readMeta, bind_ok. rewrite play_bind. cbn [play ask serve fst snd].
  by destruct (files s !! name) as [[m|b]|].
Qed.

Lemma play_read_cached s ns l :
  wf (files s) → tame ns → (∀ n, n ∈ l → n ∈ names ns) →
  play s (read_cached l [ErrOSNotExist]) =
    (match sidecar (files s) l with Some r => Ok r | None => Err [ErrOSNotExist] end, s).
Proof.
  intros (_ & Hw & _) Ht. induction l as [|n l IH]; intros Hl; [done|]. cbn [read_cached sidecar].
  rewrite play_bind, play_readMeta. cbn [fst snd].
  destruct (files s !! (n +:+ metaSuffix)) as [[m|b]|] eqn:Hf; [done|exfalso|].
  - eapply Hw; [exact Ht|apply Hl; left|exact Hf].
  - rewrite errors_Is_cons. apply IH. intros x Hx. apply Hl. by right.
Qed.

Lemma play_readCachedMeta s ns :
  wf (files s) → tame ns →
  play s (readCachedMeta hex_sha256 ns) =
    (match sidecar (files s) (names ns) with Some r => Ok r | None => Err [ErrOSNotExist] end, s).
Proof. intros Hw Ht. by apply (play_read_cached s ns). Qed.

(** What reading an entry gives at a time *)
Definition get_result (now : Z) (v : option (VaultMetadata * option string)) : ManifestFile * option error :=
  match v with
  | None => (no_manifest, Some [ErrNotCached])
  | Some (m, content) =>
    if NotFound m then
      if expired ttl now m then (no_manifest, Some [ErrNotCached])
      else (mkManifestFile "" "" None "" (meta_commit m) false "" 0, Some [ErrConfirmedAbsent])
    else
      match content with
      | None => (no_manifest, Some [ErrNotCached])
      | Some b =>
        (mkManifestFile b (Filename m) None (meta_ref m) (meta_commit m) (meta_default m)
           (meta_channels m) (meta_default_at m),
         if expired ttl now m then Some [ErrStale] else None)
      end
  end.

Lemma play_locked {A} s key (p : P A) : play s (locked key p) = play s p.
Proof.
  unfold locked, deferring. rewrite play_bind. cbn [play ask serve fst snd].
  rewrite play_bind. destruct (play s p) as [a s']. done.
Qed.

Lemma play_getArrow s ns :
  wf (files s) → tame ns →
  play s (getArrow hex_sha256 ttl ns) = (get_result (clock s) (view (files s) ns), s).
Proof.
  intros Hw Ht. unfold getArrow. rewrite play_locked, play_bind, play_readCachedMeta by done.
  unfold view. cbn [fst snd]. destruct (sidecar (files s) (names ns)) as [[m n]|]; [|done].
  cbn [get_result]. destruct (NotFound m) eqn:Hnf; cbn [get_result].
  - rewrite play_bind. cbn [play ask serve fst snd]. by destruct (expired ttl (clock s) m).
  - rewrite play_bind. cbn [play ask serve fst snd].
    by destruct (files s !! (n +:+ Ext (Filename m))) as [[m'|b]|].
Qed.

Lemma play_bind_ok {E A B} s (p : P (result E A)) (f : A → P (result E B)) :
  play s (bind_ok p f) =
    match (play s p).1 with
    | Ok a => play (play s p).2 (f a)
    | Err e => (Err e, (play s p).2)
    end.
Proof. unfold bind_ok. rewrite play_bind. by destruct (play s p).1. Qed.

Lemma play_atomicWrite s name data :
  files s !! temporary = None →
  play s (atomicWrite name data) = (Ok (), set_files s (<[name := data]> (files s))).
Proof.
  intros Ht. unfold atomicWrite. rewrite play_bind_ok. cbn [play ask serve fst snd].
  rewrite !play_bind. cbn [play ask serve fst snd set_files files]. rewrite play_bind.
  cbn [play ask serve fst snd set_files files]. rewrite lookup_insert_eq. cbn [fst snd].
  rewrite !insert_insert_eq, delete_insert_eq, delete_id by done. done.
Qed.

(** Writing the sidecar of a namespace makes it its entry. *)
Lemma sidecar_written f ns m :
  sidecar (<[metaFilePath hex_sha256 ns := Sidecar m]> f) (names ns) = Some (m, encodeNS hex_sha256 ns).
Proof.
  unfold cacheNames, metaFilePath. destruct (_ || _); cbn [sidecar]; by rewrite lookup_insert_eq.
Qed.

Lemma metaFilePath_slot ns : slot ns (metaFilePath hex_sha256 ns).
Proof.
  exists (encodeNS hex_sha256 ns), metaSuffix. split_and!; [|done|done].
  unfold cacheNames. destruct (_ || _); left.
Qed.

Lemma manifestFilePath_slot ns filename :
  Ext filename ∈ endings → slot ns (manifestFilePath hex_sha256 ns filename).
Proof.
  intros He. exists (encodeNS hex_sha256 ns), (Ext filename). split_and!; [|done|done].
  unfold cacheNames. destruct (_ || _); left.
Qed.

Lemma wf_write_meta f ns m :
  wf f → tame ns → Ext (Filename m) ∈ endings →
  wf (<[metaFilePath hex_sha256 ns := Sidecar m]> f).
Proof.
  intros (Hext & Hb & Ht) Hn He. split_and!.
  - intros name m' H. rewrite lookup_insert in H. case_decide; [by simplify_eq|by eapply Hext].
  - intros ns' n b Ht' Hn'. rewrite lookup_insert. case_decide; [done|by eapply Hb].
  - rewrite lookup_insert_ne; [done|]. intros E. apply (slot_not_temporary ns Hn). rewrite <- E.
    apply metaFilePath_slot.
Qed.

Lemma wf_write_bytes f ns filename b :
  wf f → tame ns → Ext filename ∈ [".md"; ".yaml"] →
  wf (<[manifestFilePath hex_sha256 ns filename := Bytes b]> f).
Proof.
  intros (Hext & Hb & Ht) Hn He.
  assert (Ext filename ∈ endings ∧ last_byte (Ext filename) ≠ last_byte metaSuffix ∧ Ext filename ≠ "")
    as (He' & Hl & Hz).
  { rewrite !elem_of_cons in He. destruct He as [->|[->|He]]; [| |by apply not_elem_of_nil in He];
      (split; [by repeat constructor|done]). }
  split_and!.
  - intros name m H. rewrite lookup_insert in H. case_decide; [done|by eapply Hext].
  - intros ns' n b' Ht' Hn'. rewrite lookup_insert. case_decide as E; [exfalso|by eapply Hb].
    unfold manifestFilePath in E. apply (f_equal last_byte) in E.
    destruct (Ext filename) as [|c e] eqn:Hx; [done|]. unfold metaSuffix in E.
    rewrite !last_byte_app in E. done.
  - rewrite lookup_insert_ne; [done|]. intros E. apply (slot_not_temporary ns Hn). rewrite <- E.
    by apply manifestFilePath_slot.
Qed.

Lemma paths_apart ns filename :
  Ext filename ∈ [".md"; ".yaml"] → manifestFilePath hex_sha256 ns filename ≠ metaFilePath hex_sha256 ns.
Proof.
  unfold manifestFilePath, metaFilePath, metaSuffix. rewrite !elem_of_cons.
  intros [->|[->|H]] E; [..|by apply not_elem_of_nil in H];
    apply (f_equal last_byte) in E; by rewrite !last_byte_app in E.
Qed.

Lemma wf_subset f f' : f' ⊆ f → wf f → wf f'.
Proof.
  intros Hs (Hext & Hb & Ht). split_and!.
  - intros name m H. by eapply Hext, lookup_weaken.
  - intros ns n b Hns Hn H. by eapply Hb, lookup_weaken.
  - by eapply lookup_weaken_None.
Qed.

(** The entry that a confirmed absence leaves *)
Definition absent_entry (now : Z) (ns : Namespace) (commit : string) : VaultMetadata :=
  mkMetadata now "" ns true "" commit false 0 "".

(** The entry a manifest leaves over a previous one: a default, its date and the channels
    outlive it *)
Definition put_entry (now : Z) (ns : Namespace) (f : ManifestFile) (prev : option VaultMetadata) : VaultMetadata :=
  let was := match prev with Some m => meta_default m | None => false end in
  mkMetadata now (manifest_filename f) ns false (manifest_ref f) (manifest_commit f)
    (manifest_default f || was)
    (if manifest_default f then now
     else match prev with Some m => if meta_default m then meta_default_at m else 0%Z | None => 0%Z end)
    (if String.eqb (manifest_channels f) "" then match prev with Some m => meta_channels m | None => "" end
     else manifest_channels f).

Hypothesis marshals_all : ∀ m, marshals m = true.

Lemma play_write_meta s ns m :
  files s !! temporary = None →
  play s (write_meta hex_sha256 marshals ns m) =
    (Ok (), set_files s (<[metaFilePath hex_sha256 ns := Sidecar m]> (files s))).
Proof. intros Ht. unfold write_meta. rewrite marshals_all. by apply play_atomicWrite. Qed.

Lemma view_sidecar f ns : fst <$> view f ns = fst <$> sidecar f (names ns).
Proof. unfold view. by destruct (sidecar f (names ns)) as [[]|]. Qed.

Lemma play_keepPrevious s ns f :
  wf (files s) → tame ns →
  play s (keepPrevious hex_sha256 ns f) =
    (let e := put_entry (clock s) ns f (fst <$> view (files s) ns) in
     (mkManifestFile (Content f) (manifest_filename f) (manifest_meta f) (manifest_ref f)
        (manifest_commit f) (meta_default e) (meta_channels e) (manifest_default_at f),
      meta_default_at e), s).
Proof.
  intros Hw Ht. rewrite view_sidecar. unfold keepPrevious. rewrite play_bind.
  assert (∀ d, play s ((if manifest_default f then (ask Now : P Z) else mret d) : P Z) =
               (if manifest_default f then clock s else d, s)) as ->
    by (intros d; by destruct (manifest_default f)).
  cbn [fst snd]. rewrite play_bind, play_readCachedMeta by done. cbn [fst snd].
  destruct f as [c fn mt r cm d ch da], (sidecar (files s) (names ns)) as [[m n]|];
    cbn; destruct d, (String.eqb_spec ch ""); subst; cbn; try done.
  all: by destruct (meta_default m).
Qed.

Lemma play_putArrowNotFound s ns commit :
  wf (files s) →
  play s (putArrowNotFound hex_sha256 marshals ns commit) =
    (Ok (), set_files s (<[metaFilePath hex_sha256 ns :=
                            Sidecar (absent_entry (clock s) ns commit)]> (files s))).
Proof.
  intros (_ & _ & Ht). unfold putArrowNotFound. rewrite play_locked, play_bind_ok.
  cbn [play ask serve fst snd]. rewrite play_bind. cbn [play ask serve fst snd].
  by apply play_write_meta.
Qed.

Lemma play_putArrow s ns f dir :
  wf (files s) → tame ns → Ext (manifest_filename f) ∈ [".md"; ".yaml"] →
  namespacePath hex_sha256 namespacesPath (tree s) ns = Ok dir →
  play s (putArrow hex_sha256 marshals namespacesPath indexTTL ns f) =
    (Ok (), set_files s
       (<[metaFilePath hex_sha256 ns := Sidecar (put_entry (clock s) ns f (fst <$> view (files s) ns))]>
          (<[manifestFilePath hex_sha256 ns (manifest_filename f) := Bytes (Content f)]> (files s)))).
Proof.
  intros Hw Ht He Hdir. pose proof Hw as (_ & _ & Htmp).
  pose proof (wf_write_bytes (files s) ns (manifest_filename f) (Content f) Hw Ht He) as Hw'.
  unfold putArrow. rewrite play_locked, play_bind_ok. cbn [play ask serve fst snd].
  rewrite play_bind_ok. unfold namespacePath_in. rewrite play_bind.
  cbn [play ask serve fst snd]. cbn [mret prog_ret play fst snd]. rewrite Hdir. cbn [fst snd].
  rewrite play_bind_ok, play_atomicWrite by done. cbn [fst snd].
  set (s' := set_files s _). rewrite play_bind, (play_keepPrevious s') by done. cbn [fst snd].
  rewrite play_bind. cbn [play ask serve fst snd].
  rewrite play_bind_ok, (play_write_meta s') by apply Hw'. cbn [fst snd].
  assert (fst <$> view (files s') ns = fst <$> view (files s) ns) as ->.
  { rewrite !view_sidecar. f_equal. apply sidecar_frame. intros n Hn. cbn.
    apply lookup_insert_ne. unfold manifestFilePath, metaSuffix. intros E.
    apply (f_equal last_byte) in E. rewrite !elem_of_cons in He.
    destruct He as [Hx|[Hx|He]]; [..|by apply not_elem_of_nil in He];
      rewrite Hx, !last_byte_app in E; done. }
  rewrite play_bind. cbn [put_entry manifest_meta manifest_filename].
  by destruct (manifest_meta f).
Qed.

Lemma play_remove_if_there s name :
  play s (remove_if_there name) = (Ok (), set_files s (delete name (files s))).
Proof.
  unfold remove_if_there. rewrite play_bind. cbn [play ask serve fst snd].
  destruct (files s !! name) as [x|] eqn:H; [done|].
  cbn [fst snd]. rewrite errors_Is_cons, delete_id by done. by destruct s.
Qed.

(** What an operation on a namespace does to the files *)
Definition touches (ns : Namespace) (f f' : gmap string file) : Prop :=
  ∀ name, ¬ slot ns name → f' !! name = f !! name.

Lemma touches_trans ns f g h : touches ns f g → touches ns g h → touches ns f h.
Proof. intros H1 H2 name Hn. by rewrite H2, H1. Qed.

Lemma touches_insert ns f name x : slot ns name → touches ns f (<[name := x]> f).
Proof. intros Hs name' Hn. apply lookup_insert_ne. by intros <-. Qed.

Lemma touches_delete ns f name : slot ns name → touches ns f (delete name f).
Proof. intros Hs name' Hn. apply lookup_delete_ne. by intros <-. Qed.

Lemma play_deleteCacheEntry s ns n :
  wf (files s) → tame ns → n ∈ names ns →
  ∃ f', play s (deleteCacheEntry n) = (Ok (), set_files s f') ∧ f' ⊆ files s ∧
    f' !! (n +:+ metaSuffix) = None ∧ touches ns (files s) f'.
Proof.
  intros (Hext & Hb & Ht) Hns Hn. unfold deleteCacheEntry. rewrite play_bind, play_readMeta.
  cbn [fst snd]. destruct (files s !! (n +:+ metaSuffix)) as [[m|b]|] eqn:Hf.
  - rewrite play_bind_ok, play_remove_if_there. cbn [fst snd]. rewrite play_remove_if_there.
    cbn [files set_files]. eexists. split_and!; [done| |apply lookup_delete_eq|].
    + etrans; apply delete_subseteq.
    + eapply touches_trans; apply touches_delete; exists n; eauto.
  - by destruct (Hb ns n b).
  - rewrite errors_Is_cons. exists (files s). split_and!; [by destruct s|done|done|done].
Qed.

Lemma play_delete_entries ns l s :
  wf (files s) → tame ns → (∀ n, n ∈ l → n ∈ names ns) →
  ∃ f', play s (delete_entries l) = (Ok (), set_files s f') ∧ f' ⊆ files s ∧
    (∀ n, n ∈ l → f' !! (n +:+ metaSuffix) = None) ∧ touches ns (files s) f'.
Proof.
  intros Hw Hns. revert s Hw. induction l as [|n l IH]; intros s Hw Hl.
  { exists (files s). split_and!; [by destruct s|done|by intros n ?%not_elem_of_nil|done]. }
  cbn [delete_entries]. rewrite play_bind_ok.
  destruct (play_deleteCacheEntry s ns n) as (f & -> & Hs & Hf & Htf); [done|done|apply Hl; left|].
  cbn [fst snd].
  destruct (IH (set_files s f)) as (f' & -> & Hs' & Hf' & Htf').
  { by apply (wf_subset (files s)). } { intros x Hx. apply Hl. by right. }
  exists f'. split_and!; [done|by etrans| |by eapply touches_trans].
  intros x [->|Hx]%elem_of_cons; [by eapply lookup_weaken_None|by apply Hf'].
Qed.

Lemma sidecar_none f l : (∀ n, n ∈ l → f !! (n +:+ metaSuffix) = None) → sidecar f l = None.
Proof.
  induction l as [|n l IH]; intros H; [done|]. cbn [sidecar]. rewrite H by left.
  apply IH. intros x Hx. apply H. by right.
Qed.

Lemma play_deleteArrow s ns :
  wf (files s) → tame ns →
  ∃ f', play s (deleteArrow hex_sha256 ns) = (Ok (), set_files s f') ∧ wf f' ∧
    view f' ns = None ∧ touches ns (files s) f'.
Proof.
  intros Hw Hns. unfold deleteArrow. rewrite play_locked.
  destruct (play_delete_entries ns (names ns) s) as (f' & -> & Hs & Hf & Ht); [done..|].
  exists f'. split_and!; [done|by eapply wf_subset| |done].
  unfold view. by rewrite sidecar_none.
Qed.

(** ** The cache as a map *)

(** What a map from namespaces to entries promises *)
Inductive command :=
| Get (ns : Namespace)
| Put (ns : Namespace) (f : ManifestFile)
| PutNotFound (ns : Namespace) (commit : string)
| Delete (ns : Namespace).

Definition subject (c : command) : Namespace :=
  match c with Get ns | Put ns _ | PutNotFound ns _ | Delete ns => ns end.

Abbreviation entries := (gmap string (VaultMetadata * option string)).

Definition spec_step (now : Z) (c : command) (m : entries) : (ManifestFile * option error) * entries :=
  match c with
  | Get ns => (get_result now (m !! ns), m)
  | Put ns f => ((no_manifest, None), <[ns := (put_entry now ns f (fst <$> m !! ns), Some (Content f))]> m)
  | PutNotFound ns commit =>
    ((no_manifest, None), <[ns := (absent_entry now ns commit, None)]> m)
  | Delete ns => ((no_manifest, None), delete ns m)
  end.

(** Each command by the vault's operation, whose error comes beside no manifest *)
Definition run_command (c : command) : P (ManifestFile * option error) :=
  let outcome (r : result error unit) :=
    (no_manifest, match r with Ok _ => None | Err e => Some e end) in
  match c with
  | Get ns => GetArrow hex_sha256 ttl ns
  | Put ns f => r ← PutArrow hex_sha256 marshals namespacesPath indexTTL ns f; mret (outcome r)
  | PutNotFound ns commit => r ← PutArrowNotFound hex_sha256 marshals ns commit; mret (outcome r)
  | Delete ns => r ← DeleteArrow hex_sha256 ns; mret (outcome r)
  end.

(** The namespaces that share the cache *)
Context (scope : Namespace → Prop).
Hypothesis scope_tame : ∀ ns, scope ns → tame ns.
Hypothesis no_shared_digest : ∀ a b, scope a → scope b → a ≠ b → ¬ same_digest hex_sha256 a b.

(** The files hold the entries of a map. *)
Definition holds (m : entries) (f : gmap string file) : Prop :=
  wf f ∧ ∀ ns, scope ns → m !! ns = view f ns.

Lemma view_untouched ns a f f' :
  wf f → scope ns → scope a → ns ≠ a → touches ns f f' → view f' a = view f a.
Proof.
  intros Hw Hns Ha Hne Ht. apply view_frame; [done|]. intros name Hn. apply Ht. intros Hn'.
  apply Hne. apply (slots_apart ns a name); auto.
Qed.

Lemma holds_insert m f f' ns e :
  holds m f → scope ns → wf f' → view f' ns = Some e → touches ns f f' → holds (<[ns := e]> m) f'.
Proof.
  intros [Hw Hm] Hns Hw' Hv Ht. split; [done|]. intros a Ha. rewrite lookup_insert.
  case_decide as E; [by subst|]. rewrite Hm by done. symmetry. by apply (view_untouched ns).
Qed.

Lemma holds_delete m f f' ns :
  holds m f → scope ns → wf f' → view f' ns = None → touches ns f f' → holds (delete ns m) f'.
Proof.
  intros [Hw Hm] Hns Hw' Hv Ht. split; [done|]. intros a Ha. destruct (decide (ns = a)) as [<-|E].
  { by rewrite lookup_delete_eq. }
  rewrite lookup_delete_ne, Hm by done. symmetry. by apply (view_untouched ns).
Qed.

Lemma encodeNS_named ns : encodeNS hex_sha256 ns ∈ names ns.
Proof. unfold cacheNames. destruct (_ || _); left. Qed.

(** What a written pair of files shows *)
Lemma view_put ns f (g : gmap string file) e :
  Ext (manifest_filename f) ∈ [".md"; ".yaml"] → NotFound e = false → Filename e = manifest_filename f →
  view (<[metaFilePath hex_sha256 ns := Sidecar e]>
          (<[manifestFilePath hex_sha256 ns (manifest_filename f) := Bytes (Content f)]> g)) ns =
    Some (e, Some (Content f)).
Proof.
  intros He Hn Hf. unfold view. rewrite sidecar_written, Hn, Hf.
  change (encodeNS hex_sha256 ns +:+ Ext (manifest_filename f))
    with (manifestFilePath hex_sha256 ns (manifest_filename f)).
  rewrite lookup_insert_ne, lookup_insert_eq; [done|]. intros E. by eapply paths_apart.
Qed.

Lemma view_put_absent ns g now commit :
  view (<[metaFilePath hex_sha256 ns := Sidecar (absent_entry now ns commit)]> g) ns =
    Some (absent_entry now ns commit, None).
Proof. unfold view. by rewrite sidecar_written. Qed.

(** A manifest that can be put: its file ends as manifests do *)
Definition puttable (c : command) : Prop :=
  match c with Put _ f => Ext (manifest_filename f) ∈ [".md"; ".yaml"] | _ => True end.

Lemma ending_of_manifest e : e ∈ [".md"; ".yaml"] → e ∈ endings.
Proof.
  rewrite !elem_of_cons. intros [->|[->|H]]; [by repeat constructor..|by apply not_elem_of_nil in H].
Qed.

Lemma tame_valid ns : scope ns → valid ns = true.
Proof. intros Hs. unfold valid. by destruct (scope_tame ns Hs) as [-> _]. Qed.

(** One command *)
Lemma command_refines s c m dir :
  holds m (files s) → scope (subject c) → puttable c →
  namespacePath hex_sha256 namespacesPath (tree s) (subject c) = Ok dir →
  ∃ f', play s (run_command c) = ((spec_step (clock s) c m).1, set_files s f') ∧
        holds (spec_step (clock s) c m).2 f'.
Proof.
  intros Hh Hsc Hp Hdir. pose proof Hh as [Hw Hm]. pose proof (scope_tame _ Hsc) as Ht.
  pose proof (tame_valid _ Hsc) as Hv.
  destruct c as [ns|ns f|ns commit|ns]; cbn [subject puttable spec_step fst snd run_command] in *.
  - unfold GetArrow. rewrite Hv. exists (files s). rewrite Hm by done. split; [|done].
    cbn [negb]. rewrite play_getArrow by done. by destruct s.
  - rewrite play_bind. unfold PutArrow. rewrite Hv. cbn [negb].
    rewrite (play_putArrow s ns f dir) by done. cbn [fst snd]. eexists. split; [done|].
    rewrite Hm by done. apply (holds_insert m (files s)); try done; [|by apply view_put|].
    + apply wf_write_meta; [by apply wf_write_bytes|done|]. cbn. by apply ending_of_manifest.
    + eapply touches_trans; apply touches_insert;
        [apply manifestFilePath_slot; by apply ending_of_manifest|apply metaFilePath_slot].
  - rewrite play_bind. unfold PutArrowNotFound. rewrite Hv. cbn [negb].
    rewrite play_putArrowNotFound by done. cbn [fst snd]. eexists. split; [done|].
    apply (holds_insert m (files s)); try done; [|apply view_put_absent|].
    + apply wf_write_meta; [done..|]. by repeat constructor.
    + apply touches_insert, metaFilePath_slot.
  - rewrite play_bind. unfold DeleteArrow. rewrite Hv. cbn [negb].
    destruct (play_deleteArrow s ns Hw Ht) as (f' & -> & Hw' & Hv' & Ht'). cbn [fst snd].
    eexists. split; [done|]. by apply (holds_delete m (files s)).
Qed.

(** ** Runs of commands *)

Definition at_time (s : state) (now : Z) : state := mkState (files s) now (tree s).

Fixpoint run_commands (s : state) (l : list (Z * command)) : list (ManifestFile * option error) * state :=
  match l with
  | [] => ([], s)
  | (now, c) :: l' =>
    let r := play (at_time s now) (run_command c) in
    let rs := run_commands r.2 l' in
    (r.1 :: rs.1, rs.2)
  end.

Fixpoint spec_run (m : entries) (l : list (Z * command)) : list (ManifestFile * option error) * entries :=
  match l with
  | [] => ([], m)
  | (now, c) :: l' =>
    let r := spec_step now c m in
    let rs := spec_run r.2 l' in
    (r.1 :: rs.1, rs.2)
  end.

(** C22. Where nothing fails and one command runs at a time, the vault's cache is a map from
    namespaces to entries.  Take any run of gets, puts, confirmed absences and deletes, each
    finished before the next begins, at any times, on a disk that does every read and write and
    with metadata that can always be encoded; let the namespaces be tame ones whose files are
    told apart (no name of one ends as a file of the cache does, no two share a digest) and
    whose workdir the vault can tell, and the manifests that are put have file names that end
    in .md or .yaml.  Then every answer is the map's, errors and staleness included, and the
    files go on holding its entries.  (A put whose second write fails leaves its bytes beside
    the metadata before it, [bytes_without_their_metadata].) *)
Theorem cache_is_a_map s m l :
  holds m (files s) →
  Forall (λ p, scope (subject p.2) ∧ puttable p.2 ∧
               ∃ dir, namespacePath hex_sha256 namespacesPath (tree s) (subject p.2) = Ok dir) l →
  (run_commands s l).1 = (spec_run m l).1 ∧ holds (spec_run m l).2 (files (run_commands s l).2).
Proof.
  revert s m. induction l as [|[now c] l IH]; intros s m Hh Hl; [done|].
  apply Forall_cons in Hl as [(Hsc & Hp & dir & Hdir) Hl]. cbn [run_commands spec_run fst snd].
  destruct (command_refines (at_time s now) c m dir) as (f' & E & Hh'); [done..|].
  rewrite E. cbn [fst snd clock at_time] in *.
  destruct (IH (set_files (at_time s now) f') (spec_step now c m).2) as [E1 H1]; [done..|].
  split; [by rewrite E1|done].
Qed.
End cache.

(** The cache of an arrow and its version, and of another *)
Definition example_manifest : ManifestFile :=
  mkManifestFile "# Arrow" "ARROW.md" None "v1" "c0ffee" true "v1" 0.

Definition example_scope (ns : Namespace) : Prop := ns = "github.com/u/repo" ∨ ns = "github.com/u/repo/arrow@v1".

Lemma example_names :
  cacheNames example_digest "github.com/u/repo" = ["github.com%2Fu%2Frepo"] ∧
  cacheNames example_digest "github.com/u/repo/arrow@v1" = ["github.com%2Fu%2Frepo%2Farrow@v1"].
Proof. split; vm_compute; reflexivity. Qed.

(** No ending of a file ends where one of those names does. *)
Lemma example_scope_tame ns : example_scope ns → tame example_digest ns.
Proof.
  destruct example_names as [H1 H2].
  intros [->| ->]; (split_and!; [vm_compute; reflexivity|vm_compute; reflexivity|]);
    intros n e Hn He Hz [x Hx]; rewrite ?H1, ?H2 in Hn; apply list_elem_of_singleton in Hn; subst n;
    unfold endings in He; rewrite !elem_of_cons in He;
    destruct He as [->|[->|[->|[->|He]]]]; try done; try (by apply not_elem_of_nil in He);
    apply (f_equal last_byte) in Hx; unfold metaSuffix in Hx; by rewrite last_byte_app in Hx.
Qed.

Lemma cache_is_a_map_witness :
  let s := mkState ∅ 0 example_fs in
  let l := [(1%Z, Put "github.com/u/repo/arrow@v1" example_manifest); (2%Z, PutNotFound "github.com/u/repo" "c0");
            (3%Z, Get "github.com/u/repo"); (99%Z, Get "github.com/u/repo/arrow@v1")] in
  (run_commands example_digest (λ _, true) "/data/ns" 50 50 s l).1 =
    [(no_manifest, None); (no_manifest, None);
     (mkManifestFile "" "" None "" "c0" false "" 0, Some [ErrConfirmedAbsent]);
     (mkManifestFile "# Arrow" "ARROW.md" None "v1" "c0ffee" true "v1" 1, Some [ErrStale])].
Proof.
  intros s l. destruct (cache_is_a_map example_digest (λ _, true) "/data/ns" 50 50 (λ _, eq_refl)
    example_scope example_scope_tame) with (s := s) (m := ∅ : gmap string (VaultMetadata * option string)) (l := l)
    as [E _].
  - intros a b [->| ->] [->| ->] Hne; try done; unfold same_digest; vm_compute; discriminate.
  - split; [split_and!|].
    + intros name m H. change (files s) with (∅ : gmap string file) in H. by rewrite lookup_empty in H.
    + intros ns n b _ _ H. change (files s) with (∅ : gmap string file) in H. by rewrite lookup_empty in H.
    + reflexivity.
    + intros ns [->| ->]; reflexivity.
  - repeat constructor; try (by repeat constructor); try (by left); try (by right);
      eexists; vm_compute; reflexivity.
  - rewrite E. reflexivity.
Defined.

(** ** Deleting a workdir *)

Section deletion.
Context (hex_sha256 : string → string) (root : list string) (ns : Namespace).
Context (Hroot : root ≠ []) (Hnormal : Forall normal root).

Abbreviation namespacesPath := (rooted_path root).
Abbreviation history := (list (event answer)).

Definition inside (d : string) : Prop :=
  ∃ parts, parts ≠ [] ∧ Forall normal parts ∧ d = rooted_path (root ++ parts).

(** Directories list names. *)
Definition lawful (h : history) : Prop :=
  ∀ d names, existT (ListDir d) (Ok names : answer (ListDir d)) ∈ h → Forall normal names.

(** What may be removed, and when *)
Definition removable (h : history) (c : call) : Prop :=
  lawful h →
  match c with
  | RemoveAll d =>
    inside d ∧ ∃ fs, existT Tree (fs : answer Tree) ∈ h ∧ namespacePath hex_sha256 namespacesPath fs ns = Ok d
  | RemoveAt p =>
    inside p ∧
    (existT (ListDir p) (Ok [] : answer (ListDir p)) ∈ h ∨
     ∃ d names name, existT (ListDir d) (Ok names : answer (ListDir d)) ∈ h ∧ name ∈ names ∧
       is_finder_file name = true ∧ p = Join [d; name])
  | _ => True
  end.

Lemma finder_file_inside parts name :
  Forall normal parts → normal name → Join [rooted_path (root ++ parts); name] = rooted_path (root ++ parts ++ [name]).
Proof.
  intros Hp Hn. assert (split_byte Separator name = [name]) as E
    by (destruct Hn as (_ & _ & _ & Hn); by apply split_byte_single).
  rewrite Join_rooted_normal, E, <- app_assoc; [done| | |rewrite E; by apply Forall_singleton].
  - by destruct root.
  - by apply Forall_app.
Qed.

Lemma follows_remove_each h parts names l Q :
  Forall normal parts → (∀ name, name ∈ l → name ∈ names) →
  existT (ListDir (rooted_path (root ++ parts))) (Ok names : answer (ListDir (rooted_path (root ++ parts)))) ∈ h →
  (∀ h', extends h h' → Q () h') →
  follows (histories removable) h (remove_each (rooted_path (root ++ parts)) l) Q.
Proof.
  intros Hp. revert h. induction l as [|name l IH]; intros h Hl Hin HQ.
  { apply follows_ret, HQ, extends_refl. }
  assert (∀ h', extends h h' → follows (histories removable) h' (remove_each (rooted_path (root ++ parts)) l) Q) as Hrest.
  { intros h' He. apply IH; [|by eapply elem_of_extends|].
    - intros x Hx. apply Hl. by right.
    - intros h'' He'. apply HQ. by eapply extends_trans. }
  cbn [remove_each]. destruct (is_finder_file name) eqn:Hf; [|apply Hrest, extends_refl].
  apply follows_logged; [|intros r h' He _; by apply Hrest].
  intros Hlist. specialize (Hlist _ _ Hin). rewrite Forall_forall in Hlist.
  assert (name ∈ names) as Hn by (apply Hl; left). split.
  - exists (parts ++ [name]). split_and!; [by destruct parts| |apply finder_file_inside; auto].
    apply Forall_app. split; [done|]. constructor; [by apply Hlist|done].
  - right. by exists (rooted_path (root ++ parts)), names, name.
Qed.

Lemma follows_prune fuel h parts Q :
  Forall normal parts → length parts < fuel → (∀ h', extends h h' → Q (Some ()) h') →
  follows (histories removable) h (prune namespacesPath fuel (rooted_path (root ++ parts))) Q.
Proof.
  revert h parts. induction fuel as [|fuel IH]; intros h parts Hp Hfuel HQ; [lia|].
  cbn [prune]. destruct (String.eqb_spec (rooted_path (root ++ parts)) namespacesPath) as [|Hne].
  { apply follows_ret, HQ, extends_refl. }
  destruct (exists_last (l := parts)) as (above & part & ->).
  { intros ->. by rewrite app_nil_r in Hne. }
  apply follows_bind. unfold removeMacOSMetadata.
  apply follows_logged; [done|]. intros r h1 He1 Hin1.
  assert (∀ h2, extends h h2 →
    follows (histories removable) h2
      (entries ← (ask (ListDir (rooted_path (root ++ above ++ [part]))) : P (result error (list string)));
       match entries with
       | Ok [] =>
         removed ← (ask (RemoveAt (rooted_path (root ++ above ++ [part]))) : U);
         match removed with
         | Err _ => mret (Some ())
         | Ok _ => prune namespacesPath fuel (Dir (rooted_path (root ++ above ++ [part])))
         end
       | _ => mret (Some ())
       end) Q) as Hrest.
  { intros h2 He2. apply follows_logged; [done|]. intros r2 h3 He3 Hin3.
    assert (extends h h3) as He by (by eapply extends_trans).
    destruct r2 as [[|x l]|e]; try by apply follows_ret, HQ.
    apply follows_logged.
    - intros Hlaws. split; [|by left]. exists (above ++ [part]). split_and!; [by destruct above|done|done].
    - intros [u|e] h4 He4 _; [|apply follows_ret, HQ; by eapply extends_trans].
      apply Forall_app in Hp as [Ha Hpart]. apply Forall_cons in Hpart as [Hpart _].
      rewrite app_assoc, Dir_rooted; [|by apply Forall_app|done].
      apply IH; [done| |intros h' He'; apply HQ; eapply extends_trans; [exact He|by eapply extends_trans]].
      rewrite length_app in Hfuel. simpl in Hfuel. lia. }
  destruct r as [names|e]; [|by apply follows_ret, Hrest].
  eapply follows_remove_each; [exact Hp|by intros ? ?|exact Hin1|].
  intros h' He'. apply Hrest. by eapply extends_trans.
Qed.

Lemma namespacePath_inside fs d : namespacePath hex_sha256 namespacesPath fs ns = Ok d → inside d.
Proof.
  assert (Clean namespacesPath = rooted_path root) as Hc.
  { destruct (Clean_rooted namespacesPath) as [-> _]; [unfold IsAbs, rooted_path; by destruct (join "/" root)|].
    unfold clean_parts. rewrite split_rooted_all by done. f_equal.
    change ("" :: root) with ([""] ++ root). rewrite foldl_app.
    change (foldl (clean_step true) [] [""]) with (@nil string).
    rewrite clean_fold_normal, app_nil_r by done. apply rev_involutive. }
  unfold namespacePath. destruct (underNamespaces _ _) as [current|e] eqn:Hu; [|done].
  assert (inside current) as Hin by (by eapply (underNamespaces_inside _ root)).
  destruct (hasExactEntry fs current); [by intros [= <-]|].
  destruct (first_legacy _ _ _) as [legacy|] eqn:Hl.
  - intros [= <-]. revert Hl. generalize (legacyIdentityDirs hex_sha256 ns).
    induction l as [|rel l IH]; [done|]. cbn [first_legacy].
    destruct (underNamespaces namespacesPath rel) as [x|e] eqn:Hx; [|exact IH].
    destruct (existsExactly _ _ _); [|exact IH]. intros [= <-]. by eapply (underNamespaces_inside _ root).
  - destruct (exists_at fs current); [done|]. by intros [= <-].
Qed.
End deletion.

(** C23. Deleting a namespace's workdir, whatever the file system answers: what is removed
    with its contents is the directory the namespace has, under the root and never the
    root; what else is removed is a parent inside the root that was just listed and is
    empty, or a file of the Finder in one; and the climb ends. *)
Theorem workdir_deletion_stays_in hex_sha256 root ns :
  root ≠ [] → Forall normal root →
  follows (histories (removable hex_sha256 root ns)) [] (DeleteWorkDir hex_sha256 (rooted_path root) ns)
    (λ r h, r ≠ None ∧ (valid ns = false → h = [])).
Proof.
  intros Hroot Hnormal. unfold DeleteWorkDir. destruct (valid ns); [|by apply follows_ret]. cbn [negb].
  apply follows_bind, follows_logged; [done|]. intros fs h He Hfs. apply follows_ret.
  destruct (namespacePath hex_sha256 (rooted_path root) fs ns) as [d|e] eqn:Hd; [|by apply follows_ret].
  pose proof (namespacePath_inside hex_sha256 root ns Hroot Hnormal fs d Hd) as Hin.
  apply follows_logged; [intros _; split; [done|by exists fs]|].
  intros [[]|e] h' He' _; [|by apply follows_ret].
  destruct Hin as (parts & Hne & Hp & ->).
  destruct (exists_last Hne) as (above & part & ->).
  assert (length (above ++ [part]) ≤ String.length (rooted_path (root ++ above ++ [part]))) as Hlen.
  { etrans; [|apply rooted_path_length; by apply Forall_app]. rewrite (length_app root). lia. }
  apply Forall_app in Hp as [Ha Hpart]. apply Forall_cons in Hpart as [Hpart _].
  apply follows_bind. rewrite app_assoc, Dir_rooted; [|by apply Forall_app|done].
  apply follows_prune; [done..| |by intros; apply follows_ret].
  rewrite length_app in Hlen. rewrite app_assoc in Hlen. cbn [length] in Hlen. lia.
Qed.

Lemma workdir_deletion_stays_in_witness :
  follows (histories (removable example_digest ["data"; "ns"] "github.com/u/r@release/1.0")) []
    (DeleteWorkDir example_digest "/data/ns" "github.com/u/r@release/1.0")
    (λ r h, r ≠ None ∧ (valid "github.com/u/r@release/1.0" = false → h = [])).
Proof.
  apply (workdir_deletion_stays_in example_digest ["data"; "ns"]); [done|by repeat constructor].
Defined.

(** ** What the code does and may not mean to *)

(** An answer to each call that lets it succeed, a directory being empty *)
Definition fine (c : call) : answer c :=
  match c with
  | Now => 100%Z
  | Lock _ | Unlock _ => ()
  | ReadFile _ => Err [ErrOSNotExist]
  | CreateTemp => Ok temporary
  | ListVault => Ok []
  | Tree => mkFilesystem (λ _, None) (λ _, false)
  | ListDir _ => Ok []
  | MkdirVault | WriteTemp _ _ | CloseTemp _ | Rename _ _ | RemoveFile _ | MkdirAll _
  | RemoveAll _ | RemoveAt _ | Upsert _ _ _ _ _ | Evict _ => Ok ()
  end.

Definition answered {A} (answers : ∀ c, nat → option (answer c)) (p : P A) (Q : list (event answer) → A → Prop) : Prop :=
  match run answers 0 p with Some (l, a) => Q l a | None => False end.

(** A namespaces path that ends in a slash is no parent that is reached, so empty
    directories above it are removed too. *)
Lemma unclean_root_climbs :
  answered (λ c _, Some (fine c)) (prune "/data/ns/" 4 "/data/ns/a") (λ l _,
    existT (RemoveAt "/data") (Ok () : answer (RemoveAt "/data")) ∈ l).
Proof. unfold answered. cbn. repeat constructor. Qed.

(** The sweep judges an entry before it has its lock: one that was put again in between
    goes with its bytes. *)
Lemma swept_after_refresh :
  let old := mkMetadata 0 "ARROW.md" "a/b" false "v1" "c0" false 0 "" in
  let new := mkMetadata 100 "ARROW.md" "a/b" false "v1" "c1" false 0 "" in
  answered (λ c n,
      match c with
      | ReadFile _ as c => Some (Ok (Sidecar (if n =? 1 then old else new)))
      | ListVault => Some (Ok [("a%2Fb.meta.json", false)])
      | c => Some (fine c)
      end) (sweepArrows 50) (λ l _,
    expired 50 100 new = false ∧
    existT (ReadFile "a%2Fb.meta.json") (Ok (Sidecar new) : answer (ReadFile _)) ∈ l ∧
    existT (RemoveFile "a%2Fb.md") (Ok () : answer (RemoveFile "a%2Fb.md")) ∈ l ∧
    existT (RemoveFile "a%2Fb.meta.json") (Ok () : answer (RemoveFile "a%2Fb.meta.json")) ∈ l).
Proof. unfold answered. cbn. repeat constructor. Qed.

(** A put that fails once the bytes are in place leaves them under the metadata before. *)
Lemma bytes_without_their_metadata :
  answered (λ c n,
      match c with
      | CreateTemp => Some (if n <=? 5 then Ok temporary else Err [])
      | c => Some (fine c)
      end) (putArrow example_digest (λ _, true) "/data/ns" 50 "a/b" example_manifest) (λ l r,
    r = Err [] ∧ existT (Rename temporary "a%2Fb.md") (Ok () : answer (Rename temporary "a%2Fb.md")) ∈ l).
Proof. unfold answered. vm_compute. split; [done|]. repeat constructor. Qed.

(** A version's name may end as a file of another version does: dropping one that was
    confirmed absent removes the bytes of the other. *)
Lemma versions_share_a_file :
  manifestFilePath example_digest "a/b@v1" "ARROW.md" = "a%2Fb@v1.md" ∧
  answered (λ c _,
      match c with
      | ReadFile _ as c => Some (Ok (Sidecar (mkMetadata 0 "" "a/b@v1.md" true "" "c0" false 0 "")))
      | c => Some (fine c)
      end) (deleteArrow example_digest "a/b@v1.md") (λ l _,
    existT (RemoveFile "a%2Fb@v1.md") (Ok () : answer (RemoveFile "a%2Fb@v1.md")) ∈ l).
Proof. split; [done|]. unfold answered. vm_compute. repeat constructor. Qed.

(** A version found under both its names is listed twice. *)
Lemma version_listed_twice :
  answered (λ c _,
      match c with
      | ListVault => Some (Ok [("a%2Fb@V1.meta.json", false); ("a%2Fb@%561.meta.json", false)])
      | c => Some (fine c)
      end) (ListVersions "github.com/a/b") (λ _ r, r = Ok []) ∧
  answered (λ c _,
      match c with
      | ListVault => Some (Ok [("x.io%2Fa%2Fb@V1.meta.json", false); ("x.io%2Fa%2Fb@%561.meta.json", false)])
      | c => Some (fine c)
      end) (ListVersions "x.io/a/b") (λ _ r, r = Ok ["V1"; "V1"]).
Proof. split; unfold answered; vm_compute; reflexivity. Qed.
