(* ===== verification/Ruleset.v ===== *)
(** * The rules of a manifest (internal/engine/manifold/ruleset)

    What a manifest must satisfy before it is compiled and after.  A rule returns what it
    finds wrong, where and by which rule; the text of a message is left out.  The rules run
    concurrently and the ranges over maps have no order, so the order of what is found is
    one of many; whether anything is found is not. *)

From S2P Require Import Prelude GoStrings GoPath GoFilepath GoRegexp Domain Steps Manifest Targets Runtime RuntimeDrain RuntimeRepo Assembler.

Record RuleError := mkRuleError { Field : string; Rule : string }.

Abbreviation RuleErrors := (list RuleError).

(** One error unless a condition holds *)
Definition unless (ok : bool) (field rule : string) : RuleErrors :=
  if ok then [] else [mkRuleError field rule].

(** [fmt.Sprintf("%s[%d]", name, i)] and [fmt.Sprintf("%s[%s]", name, key)] *)
Definition at_index (name : string) (i : nat) : string := name +:+ "[" +:+ pretty i +:+ "]".
Definition at_key (name key : string) : string := name +:+ "[" +:+ key +:+ "]".

(** [for i, x := range l] *)
Definition each {A} (f : nat → A → RuleErrors) (l : list A) : RuleErrors :=
  concat (imap f l).

(** ** Helpers (arrow/helpers.go) *)

Definition containsPathTraversal (path : string) : bool := contains path "..".

Fixpoint duplicates (names : list string) (seen reported : gset string) (e : RuleError) : RuleErrors :=
  match names with
  | [] => []
  | name :: names' =>
    if bool_decide (name ∈ seen) && negb (bool_decide (name ∈ reported))
    then e :: duplicates names' ({[name]} ∪ seen) ({[name]} ∪ reported) e
    else duplicates names' ({[name]} ∪ seen) reported e
  end.

Definition checkDuplicates (names : list string) (field rule : string) : RuleErrors :=
  duplicates names ∅ ∅ (mkRuleError field rule).

(** ** Rules before compilation *)

Definition MaxNameLength : nat := 255.
Definition MaxDescriptionLength : nat := 1000.
Definition MaxReadmeLength : N := 256000.

(** metadata.go *)
Definition MetadataRule (m : Arrow) : RuleErrors :=
  (if String.eqb (Manifest.Name (arrow_meta m)) "" then [mkRuleError "metadata.name" "required"]
   else unless (String.length (Manifest.Name (arrow_meta m)) <=? MaxNameLength) "metadata.name" "max_length") ++
  unless (String.length (Description (arrow_meta m)) <=? MaxDescriptionLength) "metadata.description" "max_length" ++
  unless (N.of_nat (String.length (arrow_readme m)) <=? MaxReadmeLength)%N "readme" "max_length".

Definition IsSelect (t : VariableType) : bool :=
  match t with VariableTypeSelect => true | _ => false end.

(** variables.go *)
Definition VariablesRule (m : Arrow) : RuleErrors :=
  each (λ i v,
    match ValidateVariable v with
    | Some _ => [mkRuleError (at_index "variables" i) "invalid_variable"]
    | None =>
      unless (negb (IsSelect (var_type v)) || negb (length (var_values v) =? 0))
        (at_index "variables" i +:+ ".values") "missing_values"
    end) (arrow_variables m) ++
  checkDuplicates (map var_name (arrow_variables m)) "variables" "duplicate_name".

(** netbridge.go *)
Definition NetbridgeRule (m : Arrow) : RuleErrors :=
  each (λ i p, match ValidatePort p with
               | Some _ => [mkRuleError (at_index "netbridge" i) "invalid_port"]
               | None => []
               end) (arrow_netbridge m) ++
  checkDuplicates
    (map port_name (filter (λ p, ValidatePort p = None) (arrow_netbridge m))) "netbridge" "duplicate_name".

(** base_integrity.go: [n] iterations are left. *)
Fixpoint chain_loop (n : nat) (ts : targets) (key current : string) (seen : gset string) : RuleErrors :=
  match n with
  | O => [mkRuleError (at_key "targets" key +:+ ".base") "cyclic_base"]
  | S n' =>
    let base := match ts !! current with Some t => Base t | None => "" end in
    if String.eqb base "" then []
    else if bool_decide (base ∈ seen)
    then [mkRuleError (at_key "targets" key +:+ ".base") "cyclic_base"]
    else
      match ts !! base with
      | None => [mkRuleError (at_key "targets" key +:+ ".base") "missing_base"]
      | Some _ => chain_loop n' ts key base ({[current]} ∪ seen)
      end
  end.

Definition checkBaseChain (key : string) (ts : targets) : RuleErrors :=
  chain_loop (S (size ts)) ts key key ∅.

Definition BaseIntegrityRule (ts : targets) : RuleErrors :=
  concat (map (λ p, checkBaseChain p.1 ts) (map_to_list ts)).

(** The step lists of a target and their names *)
Definition phases (lc : TargetLifecycle) : list (string * StepList) :=
  [("install", Install lc); ("update", Update lc); ("execute", Execute lc); ("stop", Stop lc);
   ("uninstall", Uninstall lc); ("preinstalled", Preinstalled lc)].

(** *** overrideable_keys.go *)

Definition isValidOverrideableKey (k : string) : bool := String.eqb k "*" || contains_byte "/" k.

Definition checkKeys {T} (osArch : gmap string T) (field : string) : RuleErrors :=
  concat (map (λ p, unless (isValidOverrideableKey p.1) field "invalid_overrideable_key") (map_to_list osArch)).

Definition step_field (targetKey phase : string) (i : nat) (name : string) : string :=
  at_index (at_key "targets" targetKey +:+ ".lifecycle." +:+ phase) i +:+ "." +:+ name.

Definition checkStepKeys (f : string → string) (s : Step) : RuleErrors :=
  match s with
  | RunStep _ command elevated timeout _ =>
    checkKeys (OSArch command) (f "command") ++ checkKeys (OSArch timeout) (f "timeout") ++
    checkKeys (OSArch elevated) (f "elevated")
  | FetchStep _ url to checksum timeout =>
    checkKeys (OSArch url) (f "url") ++ checkKeys (OSArch to) (f "to") ++
    checkKeys (OSArch checksum) (f "checksum") ++ checkKeys (OSArch timeout) (f "timeout")
  | ExtractStep _ from to timeout | PortableStep _ from to timeout _ =>
    checkKeys (OSArch from) (f "from") ++ checkKeys (OSArch to) (f "to") ++
    checkKeys (OSArch timeout) (f "timeout")
  | SignalStep _ signal timeout =>
    checkKeys (OSArch signal) (f "signal") ++ checkKeys (OSArch timeout) (f "timeout")
  | _ => []
  end.

Definition checkStepListKeys (targetKey phase : string) (steps : StepList) : RuleErrors :=
  each (λ i s, checkStepKeys (step_field targetKey phase i) s) (steps_of steps).

Definition checkTargetKeys (targetKey : string) (t : PrecompiledTarget) : RuleErrors :=
  concat (map (λ p, checkKeys (OSArch p.2) (at_key "targets" targetKey +:+ ".exports." +:+ p.1))
            (map_to_list (pre_exports t))) ++
  concat (map (λ p, checkStepListKeys targetKey p.1 p.2) (phases (pre_lifecycle t))) ++
  concat (map (λ p, checkStepListKeys targetKey ("methods." +:+ p.1) (method_steps p.2))
            (map_to_list (pre_methods t))).

Definition OverrideableKeysRule (ts : targets) : RuleErrors :=
  concat (map (λ p, checkTargetKeys p.1 p.2) (map_to_list ts)).

(** *** overrideable_coverage.go *)

Definition matchesTargetKey (key : string) (os : OS) : bool :=
  if String.eqb key "*" then true else path_matches key (os_string os).

Definition targetScope (targetKey : string) : list OS :=
  let scope := filter (λ os, matchesTargetKey targetKey os = true) AllOS in
  if length scope =? 0 then AllOS else scope.

Definition osArchCoversOS (osArch : gmap string string) (os : OS) : bool :=
  existsb (λ p, path_matches p.1 (os_string os)) (map_to_list osArch).

Definition coversScope (osArch : gmap string string) (scope : list OS) : bool :=
  match osArch !! "*" with
  | Some _ => true
  | None => forallb (osArchCoversOS osArch) scope
  end.

Definition checkStringCoverage (ov : Overrideable string) (field : string) (scope : list OS) : RuleErrors :=
  if negb (String.eqb (Default ov) "") then []
  else unless (coversScope (OSArch ov) scope) field "insufficient_coverage".

Definition isPopulated (ov : Overrideable string) : bool :=
  negb (String.eqb (Default ov) "") || negb (size (OSArch ov) =? 0).

(** A field that need not be there *)
Definition checkOptionalCoverage (ov : Overrideable string) (field : string) (scope : list OS) : RuleErrors :=
  if isPopulated ov then checkStringCoverage ov field scope else [].

Definition checkStepCoverage (f : string → string) (scope : list OS) (s : Step) : RuleErrors :=
  match s with
  | RunStep _ command _ timeout _ =>
    checkStringCoverage command (f "command") scope ++ checkOptionalCoverage timeout (f "timeout") scope
  | FetchStep _ url to checksum timeout =>
    checkStringCoverage url (f "url") scope ++ checkStringCoverage to (f "to") scope ++
    checkOptionalCoverage checksum (f "checksum") scope ++ checkOptionalCoverage timeout (f "timeout") scope
  | ExtractStep _ from to timeout | PortableStep _ from to timeout _ =>
    checkStringCoverage from (f "from") scope ++ checkStringCoverage to (f "to") scope ++
    checkOptionalCoverage timeout (f "timeout") scope
  | SignalStep _ _ timeout => checkOptionalCoverage timeout (f "timeout") scope
  | _ => []
  end.

Definition checkStepListCoverage (targetKey phase : string) (steps : StepList) (scope : list OS) : RuleErrors :=
  each (λ i s, checkStepCoverage (step_field targetKey phase i) scope s) (steps_of steps).

Definition checkTargetCoverage (targetKey : string) (t : PrecompiledTarget) : RuleErrors :=
  let scope := targetScope targetKey in
  concat (map (λ p, checkStringCoverage p.2 (at_key "targets" targetKey +:+ ".exports." +:+ p.1) scope)
            (map_to_list (pre_exports t))) ++
  concat (map (λ p, checkStepListCoverage targetKey p.1 p.2 scope) (phases (pre_lifecycle t))) ++
  concat (map (λ p, checkStepListCoverage targetKey ("methods." +:+ p.1) (method_steps p.2) scope)
            (map_to_list (pre_methods t))).

Definition OverrideableCoverageRule (ts : targets) : RuleErrors :=
  concat (map (λ p, if String.prefix "_" p.1 then [] else checkTargetCoverage p.1 p.2) (map_to_list ts)).

(** ** orchestrator.go and ruleset.go: before compilation *)

Definition AllPrecompile : list (Arrow → targets → RuleErrors) :=
  [λ m _, MetadataRule m; λ m _, VariablesRule m; λ m _, NetbridgeRule m; λ _ ts, BaseIntegrityRule ts;
   λ _ ts, OverrideableKeysRule ts; λ _ ts, OverrideableCoverageRule ts].

Definition ValidatePrecompile (m : Arrow) (ts : targets) : RuleErrors :=
  concat (map (λ rule, rule m ts) AllPrecompile).

(** ** Rules after compilation *)

(** The targets, by the operating system they are for *)
Abbreviation by_os := (list (OS * Target)).

Definition each_target (f : string → Target → RuleErrors) (ts : by_os) : RuleErrors :=
  concat (map (λ p, f (os_string p.1) p.2) ts).

Definition in_target (key rest : string) : string := at_key "targets" key +:+ rest.

(** tools_services.go *)
Definition checkTargetToolServiceOverlap (key : string) (t : Target) : RuleErrors :=
  let toolNS : gset string := list_to_set (map (λ e, BareNamespace (edge_namespace e)) (Tools t)) in
  concat (map (λ e, unless (negb (bool_decide (BareNamespace (edge_namespace e) ∈ toolNS)))
                      (at_key "targets" key) "tools_services_overlap") (Services t)).

(** export_static.go *)
Definition containsVar (s : string) : bool := contains s "${".

Definition checkTargetExportStaticValues (key : string) (t : Target) : RuleErrors :=
  concat (map (λ p, unless (negb (containsVar p.2)) (in_target key (".exports." +:+ p.1)) "export_var_interpolation")
            (map_to_list (Exports t))).

(** service_package.go *)
Definition ServicePackageRule (ts : by_os) : RuleErrors :=
  let executes (p : OS * Target) := match Execute (Lifecycle p.2) with Some _ => true | None => false end in
  unless (negb (existsb executes ts && existsb (λ p, negb (executes p)) ts)) "targets" "mixed_kind".

(** lifecycle_pairs.go *)
Definition isAnchoredByPrefix (v prefix : string) : bool :=
  String.eqb v prefix || String.prefix (prefix +:+ "/") v.

Definition isWorkdirAnchoredValue (v : string) : bool :=
  if containsPathTraversal v then false
  else isAnchoredByPrefix v "${INSTALL_PATH}" || isAnchoredByPrefix v "${WORKDIR}".

Definition isWorkdirAnchoredTo (to : Overrideable string) : bool :=
  isWorkdirAnchoredValue (Default to) &&
  forallb (λ p, isWorkdirAnchoredValue p.2) (map_to_list (OSArch to)).

Definition isWorkdirAnchoredPlacement (s : Step) : bool :=
  match s with
  | FetchStep _ _ to _ _ | ExtractStep _ _ to _ | PortableStep _ _ to _ _ => isWorkdirAnchoredTo to
  | _ => false
  end.

Definition isWorkdirOnlyInstall (steps : StepList) : bool :=
  forallb isWorkdirAnchoredPlacement (steps_of steps).

Definition checkLifecyclePairs (key : string) (t : Target) : RuleErrors :=
  let lc := Lifecycle t in
  let hasInstall := has_steps (Install lc) in
  let hasUninstall := has_steps (Uninstall lc) in
  let missingUninstall := hasInstall && negb hasUninstall && negb (isWorkdirOnlyInstall (Install lc)) in
  let missingInstall := hasUninstall && negb hasInstall in
  unless (negb (missingUninstall || missingInstall)) (in_target key ".lifecycle.install") "missing_pair" ++
  unless (negb (has_steps (Stop lc) && negb (has_steps (Execute lc)))) (in_target key ".lifecycle.stop") "missing_pair".

(** service_consumer_lifecycle.go *)
Definition checkServiceConsumerLifecycle (key : string) (t : Target) : RuleErrors :=
  if length (Services t) =? 0 then []
  else unless (has_steps (Execute (Lifecycle t)) && has_steps (Stop (Lifecycle t)))
         (in_target key ".lifecycle") "service_consumer_missing_lifecycle".

(** *** The step lists of a compiled target, in the order the rules name them *)

Definition named_groups (method_name : string → string) (t : Target) : list (string * StepList) :=
  map (λ p, ("lifecycle." +:+ p.1, p.2)) (phases (Lifecycle t)) ++
  map (λ p, (method_name p.1, method_steps p.2)) (map_to_list (Methods t)).

(** timeout_format.go: [^\d+[sm]$] *)
Definition timeoutRe : re := RSeq (RPlus RDigit) (RByte (λ c, Ascii.eqb c "s" || Ascii.eqb c "m")).

Definition extractStepTimeout (s : Step) : string :=
  match s with
  | RunStep _ _ _ timeout _ | FetchStep _ _ _ _ timeout | ExtractStep _ _ _ timeout
  | PortableStep _ _ _ timeout _ | SignalStep _ _ timeout => Default timeout
  | _ => ""
  end.

Definition matches_re (r : re) (s : string) : bool :=
  match full_match r s with Some _ => true | None => false end.

Definition checkStepListTimeouts (key prefix : string) (steps : StepList) : RuleErrors :=
  each (λ i s,
    let timeout := extractStepTimeout s in
    unless (String.eqb timeout "" || matches_re timeoutRe timeout)
      (at_index (in_target key ("." +:+ prefix)) i +:+ ".timeout") "invalid_timeout") (steps_of steps).

Definition checkTimeoutFormat (key : string) (t : Target) : RuleErrors :=
  concat (map (λ g, checkStepListTimeouts key g.1 g.2)
            (named_groups (λ name, at_key "methods" name +:+ ".steps") t)).

(** method_states.go *)
Definition validMethodStates : list ArrowState := [ArrowStateReady; ArrowStateRunning].

Definition checkMethodAvailableIn (key name : string) (m : Method) : RuleErrors :=
  concat (map (λ state, unless (bool_decide (state ∈ validMethodStates))
                          (in_target key ("." +:+ at_key "methods" name +:+ ".available_in")) "invalid_state")
            (AvailableIn m)).

Definition checkMethodStates (key : string) (t : Target) : RuleErrors :=
  concat (map (λ p, checkMethodAvailableIn key p.1 p.2) (map_to_list (Methods t))).

(** no_dependencies_step.go *)
Definition is_dependencies (s : Step) : bool :=
  match s with DependenciesStep _ => true | _ => false end.

Definition checkNoDepsSteps (key : string) (t : Target) : RuleErrors :=
  concat (map (λ p, each (λ i s, unless (negb (is_dependencies s))
                                   (at_index (in_target key (".lifecycle." +:+ p.1)) i) "no_dependencies_step")
                      (steps_of p.2)) (phases (Lifecycle t))).

(** *** run_ui.go *)

Definition uiListenKinds : list string := ["unix"; "pipe"].
Definition uiListenVarRef : string := "${" +:+ VarArrowUIListen +:+ "}".
Definition preinstalledGroup : string := "lifecycle.preinstalled".

Definition overrideableMentions (o : Overrideable string) (needle : string) : bool :=
  existsb (λ v, contains v needle) (field_values o).

Definition run_ui_unless (ok : bool) (field : string) : RuleErrors := unless ok field "run_ui".

Definition checkRunUIListen (field : string) (listen : list string) : RuleErrors :=
  concat (map (λ kind, run_ui_unless (bool_decide (kind ∈ uiListenKinds)) field) listen) ++
  run_ui_unless (negb (bool_decide ("pipe" ∈ listen) && negb (bool_decide ("unix" ∈ listen)))) field.

Definition checkRunUISource (field : string) (ui : UIOptions) : RuleErrors :=
  (if negb (length (ui_listen ui) =? 0) && negb (String.eqb (ui_static ui) "") then run_ui_unless false field
   else if Listens ui then checkRunUIListen field (ui_listen ui)
   else run_ui_unless (IsLocal (ui_static ui)) field) ++
  run_ui_unless (String.eqb (ui_path ui) "" || String.prefix "/" (ui_path ui)) field.

Definition checkRunUIStep (name field : string) (s : Step) : RuleErrors :=
  match s with
  | RunStep _ command _ _ ui =>
    let listens := match ui with Some ui => Listens ui | None => false end in
    run_ui_unless (negb (overrideableMentions command uiListenVarRef) || listens) field ++
    match ui with
    | None => []
    | Some ui =>
      if String.eqb name preinstalledGroup then run_ui_unless false field else checkRunUISource field ui
    end
  | _ => []
  end.

Definition checkRunUIGroup (key name : string) (steps : StepList) : RuleErrors :=
  each (λ i s, checkRunUIStep name (at_index (in_target key ("." +:+ name)) i) s) (steps_of steps).

Definition runUIGroups (t : Target) : list (string * StepList) :=
  named_groups (λ name, "methods." +:+ name +:+ ".steps") t.

(** *** variable_refs.go *)

Definition buildKnownVars (m : Arrow) : gset string :=
  {["WORKDIR"; "INSTALL_PATH"; "ARROW_NAMESPACE"; "PLATFORM"; "REF"; VarArrowUIListen; VarArrowApp]} ∪
  list_to_set (map var_name (arrow_variables m)) ∪ list_to_set (map port_name (arrow_netbridge m)).

Definition buildPreinstalledKnownVars (m : Arrow) : gset string :=
  {["ARROW_NAMESPACE"; "PLATFORM"; "REF"]} ∪
  list_to_set (map var_name (filter (λ v, var_default v ≠ "") (arrow_variables m))).

Definition extractVarTokens (s : string) : list string := map (group 1) (find_all varTokenRe s).

Definition checkSingleValueTokens (prefix field v : string) (known : gset string) : RuleErrors :=
  concat (map (λ token,
    unless (contains token "." || contains token ":" || bool_decide (token ∈ known))
      (prefix +:+ "." +:+ field) "unresolved_variable") (extractVarTokens v)).

Definition checkVarTokens (prefix field : string) (values : list string) (known : gset string) : RuleErrors :=
  concat (map (λ v, checkSingleValueTokens prefix field v known) values).

(** The fields whose references are checked *)
Definition checked_fields (s : Step) : list (string * Overrideable string) :=
  match s with
  | RunStep _ command _ _ _ => [("command", command)]
  | FetchStep _ url to _ _ => [("url", url); ("to", to)]
  | ExtractStep _ from to _ | PortableStep _ from to _ _ => [("from", from); ("to", to)]
  | _ => []
  end.

Definition checkCompiledStepVars (prefix : string) (s : Step) (known : gset string) : RuleErrors :=
  concat (map (λ p, checkVarTokens prefix p.1 (field_values p.2) known) (checked_fields s)).

Definition checkStepListVars (prefix : string) (steps : StepList) (known : gset string) : RuleErrors :=
  concat (map (λ s, checkCompiledStepVars prefix s known) (steps_of steps)).

Definition checkCompiledTargetVariableRefs (known preinstalledKnown : gset string) (key : string) (t : Target) : RuleErrors :=
  let prefix := at_key "targets" key in
  let lc := Lifecycle t in
  concat (map (λ steps, checkStepListVars prefix steps known)
            [Install lc; Update lc; Execute lc; Stop lc; Uninstall lc]) ++
  checkStepListVars prefix (Preinstalled lc) preinstalledKnown ++
  concat (map (λ p, checkStepListVars (prefix +:+ "." +:+ at_key "methods" p.1) (method_steps p.2) known)
            (map_to_list (Methods t))).

Definition VariableRefsRule (m : Arrow) (ts : by_os) : RuleErrors :=
  each_target (checkCompiledTargetVariableRefs (buildKnownVars m) (buildPreinstalledKnownVars m)) ts.

(** *** expose_entries.go, portable_name.go, domain/expose.go and domain/file_name.go *)

Definition is_alnum (c : ascii) : bool := is_alpha c || is_digit c.

Definition name_byte (c : ascii) : bool := is_alnum c || contains_byte c "._+-".

(** [^[A-Za-z0-9][A-Za-z0-9._+-]{0,63}$] *)
Definition exposeNameRe (name : string) : bool :=
  match name with
  | "" => false
  | String c rest => is_alnum c && negb (exists_byte (λ d, negb (name_byte d)) rest) && (String.length rest <=? 63)
  end.

Definition ExposeAuto : string := "auto".

Inductive ExposeKind := ExposeKindCLI | ExposeKindDesktop.

Definition kind_string (k : ExposeKind) : string :=
  match k with ExposeKindCLI => "cli" | ExposeKindDesktop => "desktop" end.

Definition ExposeExternalRoots : list string := ["LOCALAPPDATA"; "PROGRAMFILES"; "PROGRAMFILES(X86)"; "APPDATA"].

Definition is_slash (c : ascii) : bool := Ascii.eqb c "/" || Ascii.eqb c "\".

Fixpoint split_root (roots : list string) (path : string) : option (string * string) :=
  match roots with
  | [] => None
  | root :: roots' =>
    match cut_prefix ("${" +:+ root +:+ "}") path with
    | Some (String c (String _ _ as rest)) => if is_slash c then Some (root, rest) else split_root roots' path
    | _ => split_root roots' path
    end
  end.

Definition SplitExposeRoot (path : string) : option (string * string) := split_root ExposeExternalRoots path.

(** What is up to the last slash of either kind, and what is after *)
Fixpoint splitLast (p : string) : string * string :=
  match p with
  | "" => ("", "")
  | String c p' =>
    let '(dir, file) := splitLast p' in
    if negb (String.eqb dir "") || is_slash c then (String c dir, file) else ("", String c file)
  end.

(** Where an entry is, and an error in one of its fields *)
Record exposeAt := mkExposeAt { at_os : OS; at_kind : ExposeKind; at_nth : nat }.

Definition expose_unless (ok : bool) (a : exposeAt) (field rule : string) : RuleErrors :=
  unless ok (at_index (in_target (os_string (at_os a)) (".expose." +:+ kind_string (at_kind a))) (at_nth a) +:+
             "." +:+ field) rule.

Definition checkExposeName (a : exposeAt) (name : string) : RuleErrors :=
  expose_unless (exposeNameRe name) a "name" "invalid_name".

Definition checkExternalPath (a : exposeAt) (path rest : string) : RuleErrors :=
  let '(dir, file) := splitLast rest in
  expose_unless (negb (containsPathTraversal path)) a "path" "path_traversal" ++
  expose_unless (negb (contains rest "${" || exists_byte (λ c, contains_byte c "*?[") dir ||
                       negb (has_suffix (to_lower file) ".exe"))) a "path" "invalid_desktop_path".

Definition workdirAnchored (path : string) : bool :=
  String.prefix "${INSTALL_PATH}" path || String.prefix "${WORKDIR}" path.

Definition IsDarwin (o : OS) : bool :=
  match o with OSDarwinAMD64 | OSDarwinARM64 => true | _ => false end.

Definition is_desktop (k : ExposeKind) : bool := match k with ExposeKindDesktop => true | _ => false end.

Definition checkWorkdirPath (a : exposeAt) (path : string) : RuleErrors :=
  expose_unless (workdirAnchored path) a "path" "invalid_path" ++
  expose_unless (negb (containsPathTraversal path)) a "path" "path_traversal" ++
  expose_unless (negb (is_desktop (at_kind a) && IsDarwin (at_os a) && negb (has_suffix path ".app")))
    a "path" "invalid_desktop_path".

Definition checkExposePath (a : exposeAt) (path : string) : RuleErrors :=
  if String.eqb path ExposeAuto then []
  else
    match SplitExposeRoot path with
    | Some (_, rest) =>
      if is_desktop (at_kind a) && IsWindows (at_os a) then checkExternalPath a path rest
      else checkWorkdirPath a path
    | None => checkWorkdirPath a path
    end.

Definition isValidExposeIcon (icon : string) : bool :=
  if String.eqb icon "" || String.prefix "http://" icon || String.prefix "https://" icon then true
  else negb (String.eqb icon ExposeAuto) && negb (containsPathTraversal icon) && workdirAnchored icon.

Definition checkExposeIcon (a : exposeAt) (icon : string) : RuleErrors :=
  expose_unless (isValidExposeIcon icon) a "icon" "invalid_expose_icon".

Definition checkExposeEntries (os : OS) (kind : ExposeKind) (entries : list ExposeEntry) : RuleErrors :=
  each (λ i e,
    let a := mkExposeAt os kind i in
    checkExposeName a (entry_name e) ++ checkExposePath a (entry_path e) ++ checkExposeIcon a (entry_icon e)) entries ++
  checkDuplicates (map entry_name entries)
    (in_target (os_string os) (".expose." +:+ kind_string kind)) "duplicate_name".

Definition checkExpose (os : OS) (t : Target) : RuleErrors :=
  checkExposeEntries os ExposeKindCLI (default [] (CLI (TargetExpose t))) ++
  checkExposeEntries os ExposeKindDesktop (default [] (Desktop (TargetExpose t))).

Definition IsWindowsReservedName (name : string) : bool :=
  let stem := to_upper (match cut_byte "." name with Some (stem, _) => stem | None => name end) in
  if bool_decide (stem ∈ ["CON"; "PRN"; "AUX"; "NUL"]) then true
  else
    match cut_prefix "COM" stem, cut_prefix "LPT" stem with
    | Some (String c ""), _ | _, Some (String c "") => byte_in "1" "9" c
    | _, _ => false
    end.

Definition validPortableName (name : string) : bool :=
  exposeNameRe name && negb (has_suffix name ".") && negb (IsWindowsReservedName name).

Definition checkStepListPortableNames (key prefix : string) (steps : StepList) : RuleErrors :=
  each (λ i s,
    match s with
    | PortableStep _ _ _ _ name =>
      unless (String.eqb name "" || validPortableName name)
        (at_index (in_target key ("." +:+ prefix)) i +:+ ".name") "invalid_name"
    | _ => []
    end) (steps_of steps).

Definition checkPortableNames (key : string) (t : Target) : RuleErrors :=
  concat (map (λ g, checkStepListPortableNames key g.1 g.2)
            (named_groups (λ name, at_key "methods" name +:+ ".steps") t)).

(** ** orchestrator.go and ruleset.go: after compilation *)

Definition AllCompiled : list (Arrow → by_os → RuleErrors) :=
  [λ _, each_target checkTargetToolServiceOverlap; λ _, each_target checkTargetExportStaticValues;
   VariableRefsRule; λ _, ServicePackageRule; λ _, each_target checkLifecyclePairs;
   λ _, each_target checkServiceConsumerLifecycle; λ _, each_target checkTimeoutFormat;
   λ _, each_target checkMethodStates; λ _, each_target checkNoDepsSteps;
   λ _, each_target (λ key t, concat (map (λ g, checkRunUIGroup key g.1 g.2) (runUIGroups t)));
   λ _ ts, concat (map (λ p, checkExpose p.1 p.2) ts); λ _, each_target checkPortableNames].

Definition ValidateCompiled (m : Arrow) (ts : by_os) : RuleErrors :=
  concat (map (λ rule, rule m ts) AllCompiled) ++
  unless (negb (length ts =? 0)) "targets" "no_supported_platform".

(** ** Collections (ruleset.go, collection/) *)

Record CollectionArrowEntry := mkEntry { entry_source : string; entry_ns : Namespace; AUID : string }.

Definition CheckArrowEntries (entries : list CollectionArrowEntry) : RuleErrors :=
  each (λ i e,
    let path := entry_source e in
    let ns := entry_ns e in
    unless (String.eqb path "" || String.eqb ns "") (at_index "arrows" i) "exclusive_fields" ++
    unless (negb (String.eqb path "" && String.eqb ns "")) (at_index "arrows" i) "required_field" ++
    unless (String.eqb (AUID e) "" || String.eqb ns "") (at_index "arrows" i +:+ ".auid") "auid_with_namespace" ++
    unless (negb (exists_byte (λ c, contains_byte c "/@") (AUID e))) (at_index "arrows" i +:+ ".auid") "invalid_auid" ++
    unless (negb (exists_byte (λ c, contains_byte c "\?#") path || contains path ".."))
      (at_index "arrows" i +:+ ".path") "invalid_path") entries.

Fixpoint duplicate_namespaces (arrows : list Namespace) (seen : gset string) : RuleErrors :=
  match arrows with
  | [] => []
  | ns :: arrows' =>
    unless (negb (bool_decide (ns ∈ seen))) "arrows" "duplicate_namespace" ++
    duplicate_namespaces arrows' ({[ns]} ∪ seen)
  end.

Definition CheckDuplicateNamespaces (arrows : list Namespace) : RuleErrors := duplicate_namespaces arrows ∅.

Definition ValidateCollection (name description : string) (arrows : list Namespace) : RuleErrors :=
  if String.eqb name "" then [mkRuleError "name" "required"]
  else if String.eqb description "" then [mkRuleError "description" "required"]
  else if length arrows =? 0 then [mkRuleError "arrows" "required"]
  else CheckDuplicateNamespaces arrows.

Example timeout_ex : map (matches_re timeoutRe) ["30s"; "5m"; "s"; "30"; "1h"; "10s "] =
  [true; true; false; false; false; false].
Proof. reflexivity. Qed.
Example split_ex : splitLast "App\bin/app.exe" = ("App\bin/", "app.exe") ∧ splitLast "app.exe" = ("", "app.exe").
Proof. done. Qed.
Example root_ex : SplitExposeRoot "${APPDATA}\App\app.exe" = Some ("APPDATA", "App\app.exe") ∧
  SplitExposeRoot "${APPDATA}/" = None ∧ SplitExposeRoot "${HOME}/x" = None.
Proof. done. Qed.
Example reserved_ex : map IsWindowsReservedName ["nul.txt"; "com1"; "COM0"; "lpt9.a.b"; "console"; "com12"] =
  [true; true; false; true; false; false].
Proof. reflexivity. Qed.

(** ** Nothing found *)

Lemma unless_nil ok f r : unless ok f r = [] ↔ ok = true.
Proof. unfold unless. by destruct ok. Qed.

Lemma app_nil {A} (l k : list A) : l ++ k = [] ↔ l = [] ∧ k = [].
Proof. destruct l; naive_solver. Qed.

Lemma concat_nil {A B} (f : A → list B) l : concat (map f l) = [] ↔ ∀ x, x ∈ l → f x = [].
Proof.
  induction l as [|x l IH]; simpl; [split; [by intros _ x ?%not_elem_of_nil|done]|].
  rewrite app_nil, IH. setoid_rewrite elem_of_cons. naive_solver.
Qed.

Lemma each_nil {A} (f : nat → A → RuleErrors) l :
  each f l = [] ↔ ∀ i x, l !! i = Some x → f i x = [].
Proof.
  unfold each. revert f. induction l as [|x l IH]; intros f; simpl; [done|].
  rewrite app_nil, (IH (f ∘ S)). split.
  - intros [H0 H] [|i] y; simpl; [by intros [= <-]|apply H].
  - intros H. split; [by apply (H 0)|]. intros i y Hy. by apply (H (S i)).
Qed.

(** A rule of the members only *)
Lemma each_nil_elem {A} (f : nat → A → RuleErrors) (Q : A → Prop) l :
  (∀ i x, f i x = [] ↔ Q x) → each f l = [] ↔ ∀ x, x ∈ l → Q x.
Proof.
  intros HQ. rewrite each_nil. split.
  - intros H x [i Hi]%list_elem_of_lookup. by apply (HQ i x), H.
  - intros H i x Hi. apply HQ, H. by eapply list_elem_of_lookup_2.
Qed.

Lemma each_target_nil f ts : each_target f ts = [] ↔ ∀ os t, (os, t) ∈ ts → f (os_string os) t = [].
Proof. unfold each_target. rewrite concat_nil. split; [intros H os t|intros H [os t]]; apply H. Qed.

Lemma duplicates_none names seen e :
  duplicates names seen ∅ e = [] ↔ NoDup names ∧ ∀ n, n ∈ names → n ∉ seen.
Proof.
  revert seen. induction names as [|n names IH]; intros seen; simpl.
  { split; [intros _; split; [constructor|by intros n ?%not_elem_of_nil]|done]. }
  rewrite (bool_decide_eq_false_2 (n ∈ ∅)) by set_solver. rewrite andb_true_r, NoDup_cons.
  case_bool_decide as Hn.
  - split; [done|]. intros [_ H]. destruct (H n); [left|done].
  - rewrite IH. setoid_rewrite elem_of_cons. setoid_rewrite elem_of_union.
    setoid_rewrite elem_of_singleton. split.
    + intros [Hnd H]. split_and!; [|done|].
      * intros Hin. destruct (H n Hin). by left.
      * intros m [->|Hm]; [done|]. intros Hs. destruct (H m Hm). by right.
    + intros [[Hni Hnd] H]. split; [done|]. intros m Hm [->|Hs]; [done|].
      by destruct (H m); [right|].
Qed.

Lemma checkDuplicates_nil names field rule : checkDuplicates names field rule = [] ↔ NoDup names.
Proof. unfold checkDuplicates. rewrite duplicates_none. split; [by intros []|]. intros H. split; [done|set_solver]. Qed.

(** ** Chains of bases *)

Lemma base_chain_fun ts key l t l' t' :
  base_chain ts key l t → base_chain ts key l' t' → l' = l ∧ t' = t.
Proof.
  intros H. revert l' t'. induction H as [key t Hk Hb|key t l p Hk Hb H IH]; intros l' t' H';
    inversion H' as [key2 t2 Hk2 Hb2|key2 t2 l2 p2 Hk2 Hb2 H2]; subst; rewrite Hk in Hk2;
    simplify_eq; try done.
  by destruct (IH _ _ H2) as [-> ->].
Qed.

(** The keys of a chain are as many as its targets. *)
Lemma base_chain_keys ts key l t :
  base_chain ts key l t →
  ∃ ks : list string, length ks = length l ∧ NoDup ks ∧
    ∀ k, k ∈ ks → is_Some (ts !! k) ∧ ∃ l' t', base_chain ts k l' t' ∧ length l' ≤ length l.
Proof.
  induction 1 as [key t Hk Hb|key t l p Hk Hb H (ks & Hl & Hnd & Hks)].
  - exists [key]. split_and!; [done|by apply NoDup_singleton|].
    intros k ->%list_elem_of_singleton. split; [by eexists|]. exists [t], t.
    split; [by apply chain_root|done].
  - exists (key :: ks). pose proof (chain_base ts key t l p Hk Hb H) as Hc.
    split_and!; [by simpl; rewrite Hl| |].
    + apply NoDup_cons. split; [|done]. intros Hin. destruct (Hks key Hin) as (_ & l' & t' & Hc' & Hlen).
      destruct (base_chain_fun _ _ _ _ _ _ Hc Hc') as [-> _]. simpl in Hlen. lia.
    + intros k [->|Hin]%elem_of_cons.
      * split; [by eexists|]. by exists (t :: l), (mergeTargets p t).
      * destruct (Hks k Hin) as (? & l' & t' & ? & ?). split; [done|]. exists l', t'. simpl. split; [done|lia].
Qed.

Lemma base_chain_short ts key l t : base_chain ts key l t → length l ≤ size ts.
Proof.
  intros (ks & <- & Hnd & Hks)%base_chain_keys. rewrite <- size_dom.
  rewrite <- (size_list_to_set (C:=gset string) ks) by done. apply subseteq_size.
  intros k Hk%elem_of_list_to_set. apply elem_of_dom. by destruct (Hks k Hk).
Qed.

Lemma chain_loop_sound n ts key current seen :
  is_Some (ts !! current) → chain_loop n ts key current seen = [] →
  ∃ l t, base_chain ts current l t.
Proof.
  revert current seen. induction n as [|n IH]; intros current seen [t Ht] H; [done|].
  cbn [chain_loop] in H. rewrite Ht in H. destruct (String.eqb_spec (Base t) "") as [Hb|Hb].
  { exists [t], t. by apply chain_root. }
  case_bool_decide; [done|]. destruct (ts !! Base t) as [p|] eqn:Hp; [|done].
  destruct (IH _ _ (mk_is_Some _ _ Hp) H) as (l & p' & Hc). exists (t :: l), (mergeTargets p' t).
  by apply chain_base.
Qed.

Lemma chain_loop_complete n ts key current seen l t :
  base_chain ts current l t → length l ≤ n →
  (∀ v, v ∈ seen → ∀ l' t', base_chain ts v l' t' → length l < length l') →
  chain_loop n ts key current seen = [].
Proof.
  intros H. revert n seen. induction H as [current t Hk Hb|current t l p Hk Hb H IH]; intros n seen Hn Hs.
  - destruct n; [simpl in Hn; lia|]. cbn [chain_loop]. by rewrite Hk, Hb.
  - destruct n; [simpl in Hn; lia|]. cbn [chain_loop]. rewrite Hk.
    destruct (String.eqb_spec (Base t) ""); [done|]. case_bool_decide as Hin.
    { specialize (Hs _ Hin _ _ H). simpl in Hs. lia. }
    assert (is_Some (ts !! Base t)) as [x ->] by (inversion H; by eexists).
    apply IH; [simpl in Hn; lia|]. intros v [->%elem_of_singleton|Hv]%elem_of_union l' t' Hc.
    + destruct (base_chain_fun _ _ _ _ _ _ (chain_base _ _ _ _ _ Hk Hb H) Hc) as [-> _]. simpl. lia.
    + specialize (Hs v Hv l' t' Hc). simpl in Hs. lia.
Qed.

Lemma checkBaseChain_nil ts key :
  is_Some (ts !! key) → checkBaseChain key ts = [] ↔ ∃ l t, base_chain ts key l t.
Proof.
  intros Hk. split; [by apply chain_loop_sound|]. intros (l & t & H).
  eapply chain_loop_complete; [exact H| |by intros v ?%elem_of_empty].
  apply base_chain_short in H. lia.
Qed.

Lemma base_chain_edge ts a l t b :
  base_chain ts a l t → base_edge ts a b → ∃ l' t', base_chain ts b l' t' ∧ length l = S (length l').
Proof.
  intros H (x & Hx & Hne & <-). inversion H as [k t1 Hk Hb|k t1 l1 p Hk Hb H1]; subst; rewrite Hx in Hk; simplify_eq.
  by exists l1, p.
Qed.

Lemma base_chain_rtc ts a b l t :
  rtc (base_edge ts) a b → base_chain ts a l t → ∃ l' t', base_chain ts b l' t' ∧ length l' ≤ length l.
Proof.
  intros H. revert l t. induction H as [a|a b c He _ IH]; intros l t Hc; [by exists l, t|].
  destruct (base_chain_edge _ _ _ _ _ Hc He) as (l' & t' & Hc' & Hl).
  destruct (IH _ _ Hc') as (l2 & t2 & ? & ?). exists l2, t2. split; [done|lia].
Qed.

Lemma base_chain_acyclic ts k l t : base_chain ts k l t → ¬ tc (base_edge ts) k k.
Proof.
  intros Hc H.
  assert (∃ b, base_edge ts k b ∧ rtc (base_edge ts) b k) as (b & He & Hr).
  { inversion H as [? ? He|? b ? He Hr]; subst; [by exists k|]. exists b. split; [done|by apply tc_rtc]. }
  destruct (base_chain_edge _ _ _ _ _ Hc He) as (l' & t' & Hc' & Hl).
  destruct (base_chain_rtc _ _ _ _ _ Hr Hc') as (l2 & t2 & Hc2 & Hl2).
  destruct (base_chain_fun _ _ _ _ _ _ Hc Hc2) as [-> _]. lia.
Qed.

(** Flattening succeeds on the chains there are. *)
Lemma flatten_ok ts key t :
  flattenBaseChain (chain_fuel ts) key ts = Some (Ok t) ↔ ∃ l, base_chain ts key l t.
Proof.
  destruct (flatten_total key ts) as [r Hr]. pose proof Hr as Hs.
  apply walk_sound in Hs; [|by intros v ?%elem_of_empty]. rewrite Hr. split.
  - intros [= ->]. exact Hs.
  - intros [l Hc]. destruct r as [t'|e].
    + destruct Hs as [l' Hc']. by destruct (base_chain_fun _ _ _ _ _ _ Hc Hc') as [_ ->].
    + exfalso. destruct e as [| |k|k|]; try done; destruct Hs as [Hk Hs];
        destruct (base_chain_rtc _ _ _ _ _ Hk Hc) as (l' & t' & Hc' & _).
      * by eapply base_chain_acyclic.
      * inversion Hc'; congruence.
Qed.

(** ** What compiling an accepted manifest can refuse *)

Definition refuses_ties {A} (r : result target_error A) : Prop :=
  match r with Ok _ => True | Err e => is_ambiguous e = true end.

Lemma ties_ok {A} (a : A) : refuses_ties (Ok a).
Proof. done. Qed.

Lemma ties_bind {A B} (r : result target_error A) (k : A → result target_error B) :
  refuses_ties r → (∀ a, refuses_ties (k a)) → refuses_ties (rbind r k).
Proof. destruct r; simpl; auto. Qed.

Lemma ties_wrap {A} c (r : result target_error A) : refuses_ties r → refuses_ties (wrap c r).
Proof. by destruct r. Qed.

Lemma ties_value {T} (o : Overrideable T) os : refuses_ties (resolveOverrideable o os).
Proof.
  unfold resolveOverrideable, resolveOverrideable_in. destruct (foldl _ _ _) as [[[r b] t] v].
  destruct (negb _); [done|]. by destruct (Z.leb _ _).
Qed.

Create HintDb ties.
#[local] Hint Resolve ties_ok ties_wrap ties_value : ties.

Ltac ties :=
  repeat first
    [ apply ties_bind; [|intros] | progress auto with ties
    | match goal with |- refuses_ties (match ?x with _ => _ end) => destruct x end ].

Lemma ties_field {T} (o : Overrideable T) os field : refuses_ties (resolveField o os field).
Proof. unfold resolveField. ties. Qed.

#[local] Hint Resolve ties_field : ties.

Lemma ties_step s os : refuses_ties (resolveStep s os).
Proof.
  destruct s; cbn [resolveStep]; [unfold resolveRunStep|unfold resolveFetchStep|unfold resolveExtractStep
    |unfold resolvePortableStep|unfold resolveSignalStep|..]; unfold resolveFromToTimeout; ties.
Qed.

#[local] Hint Resolve ties_step : ties.

Lemma ties_steps i steps os : refuses_ties (resolveSteps i steps os).
Proof. revert i. induction steps as [|s steps IH]; intros i; cbn [resolveSteps]; ties. Qed.

#[local] Hint Resolve ties_steps : ties.

Lemma ties_list steps os : refuses_ties (resolveStepList steps os).
Proof. destruct steps; cbn [resolveStepList]; ties. Qed.

#[local] Hint Resolve ties_list : ties.

Lemma ties_exports l os : refuses_ties (resolveExports_in l os).
Proof. induction l as [|[k v] l IH]; cbn [resolveExports_in]; ties. Qed.

Lemma ties_methods l os : refuses_ties (resolveMethods_in l os).
Proof. induction l as [|[k v] l IH]; cbn [resolveMethods_in]; ties. Qed.

Lemma ties_target t os : refuses_ties (buildResolvedTarget t os).
Proof.
  unfold buildResolvedTarget, resolveExports, resolveMethods, resolveLifecycle.
  pose proof (ties_exports (map_to_list (pre_exports t)) os).
  pose proof (ties_methods (map_to_list (pre_methods t)) os). ties.
Qed.

Lemma pick_member sel keys b t r :
  pick sel keys = (b, t, r) → b = "" ∨ b ∈ keys ∧ sel b = true.
Proof.
  unfold pick. revert b t r. induction keys as [|k keys IH] using rev_ind; intros b t r.
  { intros [= <- <- <-]. by left. }
  rewrite foldl_app. simpl. destruct (foldl _ _ keys) as [[b0 t0] r0]. specialize (IH b0 t0 r0 eq_refl).
  assert (∀ x, x ∈ keys → x ∈ keys ++ [k]) as Hin by (intros x Hx; apply elem_of_app; by left).
  unfold pick_step. destruct (sel k) eqn:Hs; simpl.
  - destruct (Z.ltb _ _); [|destruct (Z.eqb _ _)]; intros [= <- <- <-].
    + right. split; [apply elem_of_app; right; left|done].
    + destruct IH as [?|[? ?]]; [by left|right; auto].
    + destruct IH as [?|[? ?]]; [by left|right; auto].
  - intros [= <- <- <-]. destruct IH as [?|[? ?]]; [by left|right; auto].
Qed.

Lemma findWinner_cases ts os :
  match findWinner ts os with
  | Ok k => is_Some (ts !! k) ∧ IsAbstractTarget k = false ∧ matchesTarget k os = true
  | Err e => e = ErrNoTargetForOS ∨ is_ambiguous e = true
  end.
Proof.
  unfold findWinner. rewrite findWinner_in_pick.
  destruct (pick _ _) as [[b t] r] eqn:Hp. destruct (negb (String.eqb t "")); [by right|].
  destruct (String.eqb_spec b "") as [|Hb]; [by left|].
  apply pick_member in Hp as [|[Hin Hs]]; [done|]. apply elem_of_map_fst in Hin.
  unfold target_selected in Hs. apply andb_true_iff in Hs as [Ha Hm]. split_and!; [done| |done].
  by apply negb_true_iff.
Qed.

Lemma BaseIntegrityRule_nil ts :
  BaseIntegrityRule ts = [] ↔ ∀ key, is_Some (ts !! key) → ∃ l t, base_chain ts key l t.
Proof.
  unfold BaseIntegrityRule. rewrite concat_nil. split.
  - intros H key [t Ht]. apply checkBaseChain_nil; [by eexists|].
    apply (H (key, t)). by apply elem_of_map_to_list.
  - intros H [key t] Hin%elem_of_map_to_list. simpl. apply checkBaseChain_nil; [by eexists|].
    apply H. by eexists.
Qed.

Lemma compile_all_refuses oses ts :
  BaseIntegrityRule ts = [] →
  match compile_all oses ts with
  | Some (Ok _) => True
  | Some (Err (CompileAmbiguous os e)) => is_ambiguous e = true
  | _ => False
  end.
Proof.
  intros Hb. induction oses as [|os oses IH]; [done|]. cbn [compile_all]. unfold SelectTarget.
  pose proof (findWinner_cases ts os) as Hw. destruct (findWinner ts os) as [k|e].
  - destruct Hw as (Hk & _). destruct (proj1 (BaseIntegrityRule_nil ts) Hb k Hk) as (l & t & Hc).
    rewrite (proj2 (flatten_ok ts k t)) by eauto. pose proof (ties_target t os) as Hties.
    destruct (buildResolvedTarget t os) as [r|e].
    + by destruct (compile_all oses ts) as [[?|[]]|].
    + simpl in Hties. destruct (is_no_target e); [exact IH|]. by rewrite Hties.
  - destruct Hw as [->|Hw]; [exact IH|]. destruct (is_no_target e); [exact IH|]. by rewrite Hw.
Qed.

(** C27. The rule on bases accepts a manifest exactly when flattening succeeds on every one
    of its targets, though it follows the chains on its own; and once it has accepted,
    compiling ends and can only refuse a tie between equally specific keys. *)
Theorem accepted_bases_compile (ts : targets) :
  (BaseIntegrityRule ts = [] ↔
   ∀ key, is_Some (ts !! key) → ∃ t, flattenBaseChain (chain_fuel ts) key ts = Some (Ok t)) ∧
  (BaseIntegrityRule ts = [] →
   match Compile ts with
   | Some (Ok _) => True
   | Some (Err (CompileAmbiguous os e)) => is_ambiguous e = true
   | _ => False
   end).
Proof.
  split.
  - rewrite BaseIntegrityRule_nil. setoid_rewrite flatten_ok. naive_solver.
  - intros Hb. pose proof (compile_all_refuses AllOS ts Hb) as H. unfold Compile.
    by destruct (compile_all AllOS ts) as [[?|[]]|].
Qed.

Lemma accepted_bases_compile_witness :
  let ts := {[ "_b" := sample_target ""; "linux/*" := sample_target "_b" ]} : targets in
  match Compile ts with Some (Ok _) => True | Some (Err (CompileAmbiguous os e)) => is_ambiguous e = true | _ => False end.
Proof.
  intros ts. apply (proj2 (accepted_bases_compile ts)). vm_compute. reflexivity.
Defined.

(** ** Values that are there on every platform *)

(** A value is declared for a platform, if only as empty. *)
Definition declares (o : Overrideable string) (os : OS) : Prop :=
  Default o ≠ "" ∨ ∃ k v, OSArch o !! k = Some v ∧ matchesTarget k os = true.

Lemma checkStringCoverage_nil ov field scope :
  checkStringCoverage ov field scope = [] ↔ Default ov ≠ "" ∨ coversScope (OSArch ov) scope = true.
Proof.
  unfold checkStringCoverage. destruct (String.eqb_spec (Default ov) "") as [E|E]; simpl.
  - rewrite unless_nil. naive_solver.
  - naive_solver.
Qed.

Lemma path_matches_target k os : path_matches k (os_string os) = true → matchesTarget k os = true.
Proof. unfold matchesTarget. by destruct (String.eqb k "*"). Qed.

Lemma coversScope_declares ov scope os :
  coversScope (OSArch ov) scope = true → os ∈ scope → declares ov os.
Proof.
  unfold coversScope. intros H Hos. right. destruct (OSArch ov !! "*") as [v|] eqn:Hs.
  { by exists "*", v. }
  rewrite forallb_forall in H. apply list_elem_of_In, H in Hos. unfold osArchCoversOS in Hos.
  apply existsb_exists in Hos as ([k v] & Hin & Hm). exists k, v. split; [|by apply path_matches_target].
  apply elem_of_map_to_list. by apply list_elem_of_In.
Qed.

Lemma covered_declares ov field scope os :
  checkStringCoverage ov field scope = [] → os ∈ scope → declares ov os.
Proof.
  intros [H|H]%checkStringCoverage_nil Hos; [by left|by eapply coversScope_declares].
Qed.

(** What a declared value resolves to is never a default that is not there. *)
Lemma declared_resolves ov os v :
  os_string os ≠ "" → declares ov os → resolveOverrideable ov os = Ok v →
  v = "" → ∃ k, OSArch ov !! k = Some "" ∧ matchesTarget k os = true.
Proof.
  intros Hos Hd Hr ->. destruct (override_most_specific (OSArch ov) (map_to_list (OSArch ov)) (Default ov) os Hos)
    as [H _]; [done|]. apply H in Hr as [(k & ((_ & Hm) & _) & Hk)|[Hv Hn]]; [by exists k|].
  destruct Hd as [Hd|(k & v & Hk & Hm)]; [by destruct Hd|]. destruct (Hn k). split; [by eexists|done].
Qed.

(** *** The steps of a target *)

Definition lifecycle_steps (lc : TargetLifecycle) : list Step := concat (map (λ p, steps_of p.2) (phases lc)).

Definition method_steps_of (ms : gmap string Method) : list Step :=
  concat (map (λ p, steps_of (method_steps p.2)) (map_to_list ms)).

Lemma elem_of_concat_map {A B} (f : A → list B) l y : y ∈ concat (map f l) ↔ ∃ x, x ∈ l ∧ y ∈ f x.
Proof.
  induction l as [|x l IH]; simpl; [split; [by intros ?%not_elem_of_nil|by intros (x & ?%not_elem_of_nil & _)]|].
  rewrite elem_of_app, IH. setoid_rewrite elem_of_cons. naive_solver.
Qed.

Lemma elem_of_lifecycle_steps lc s :
  s ∈ lifecycle_steps lc ↔
  ∃ f, f ∈ [Install; Update; Execute; Stop; Uninstall; Preinstalled] ∧ s ∈ steps_of (f lc).
Proof.
  unfold lifecycle_steps, phases. rewrite elem_of_concat_map. split.
  - intros ([n l] & Hin & Hs). rewrite !elem_of_cons in Hin.
    destruct Hin as [E|[E|[E|[E|[E|[E|E]]]]]]; try (by apply not_elem_of_nil in E); simplify_eq/=;
      (eexists; split; [|exact Hs]); set_solver.
  - intros (f & Hin & Hs). rewrite !elem_of_cons in Hin.
    destruct Hin as [E|[E|[E|[E|[E|[E|E]]]]]]; try (by apply not_elem_of_nil in E); subst f;
      (eexists (_, _); split; [|exact Hs]); rewrite !elem_of_cons; eauto 10.
Qed.

Lemma elem_of_method_steps_of ms s :
  s ∈ method_steps_of ms ↔ ∃ k m, ms !! k = Some m ∧ s ∈ steps_of (method_steps m).
Proof.
  unfold method_steps_of. rewrite elem_of_concat_map. setoid_rewrite <- elem_of_map_to_list. split.
  - intros ([k m] & ? & ?). eauto.
  - intros (k & m & ? & ?). by exists (k, m).
Qed.

Definition pre_steps (t : PrecompiledTarget) : list Step :=
  lifecycle_steps (pre_lifecycle t) ++ method_steps_of (pre_methods t).

Definition target_steps (t : Target) : list Step :=
  lifecycle_steps (Lifecycle t) ++ method_steps_of (Methods t).

Lemma resolveSteps_from i steps os rs :
  resolveSteps i steps os = Ok rs → Forall2 (λ s r, resolveStep s os = Ok r) steps rs.
Proof.
  revert i rs. induction steps as [|s steps IH]; intros i rs H; simpl in H; [by simplify_eq; constructor|].
  apply rbind_ok in H as (r & Hr%wrap_ok & H). apply rbind_ok in H as (rs' & Hrs & H). simplify_eq.
  constructor; [done|by eapply IH].
Qed.

Lemma resolveStepList_from l os l' r :
  resolveStepList l os = Ok l' → r ∈ steps_of l' → ∃ s, s ∈ steps_of l ∧ resolveStep s os = Ok r.
Proof.
  destruct l as [steps|]; simpl; [|intros; simplify_eq; by apply not_elem_of_nil in H0].
  intros H. apply rbind_ok in H as (rs & H & ?). simplify_eq. simpl. intros [i Hi]%list_elem_of_lookup.
  apply resolveSteps_from in H. destruct (Forall2_lookup_r _ _ _ _ _ H Hi) as (s & Hs & Hr).
  exists s. split; [by eapply list_elem_of_lookup_2|done].
Qed.

Lemma resolveLifecycle_from lc os lc' r :
  resolveLifecycle lc os = Ok lc' → r ∈ lifecycle_steps lc' → ∃ s, s ∈ lifecycle_steps lc ∧ resolveStep s os = Ok r.
Proof.
  unfold resolveLifecycle. intros H.
  apply rbind_ok in H as (? & H1%wrap_ok & H). apply rbind_ok in H as (? & H2%wrap_ok & H).
  apply rbind_ok in H as (? & H3%wrap_ok & H). apply rbind_ok in H as (? & H4%wrap_ok & H).
  apply rbind_ok in H as (? & H5%wrap_ok & H). apply rbind_ok in H as (? & H6%wrap_ok & H). simplify_eq.
  rewrite elem_of_lifecycle_steps. setoid_rewrite elem_of_lifecycle_steps.
  intros (f & Hf & Hr). pose proof Hf as Hf'. rewrite !elem_of_cons in Hf'.
  destruct Hf' as [E|[E|[E|[E|[E|[E|E]]]]]]; try (by apply not_elem_of_nil in E); subst f; simpl in Hr;
    (eapply resolveStepList_from in Hr as (s & ? & ?); [|eassumption]); eauto 10.
Qed.

Lemma resolveMethods_from ms os ms' r :
  resolveMethods ms os = Ok ms' → r ∈ method_steps_of ms' → ∃ s, s ∈ method_steps_of ms ∧ resolveStep s os = Ok r.
Proof.
  rewrite elem_of_method_steps_of. unfold resolveMethods, method_steps_of.
  setoid_rewrite elem_of_concat_map. generalize (map_to_list ms). intros l. revert ms'.
  induction l as [|[k m] l IH]; intros ms' H; simpl in H.
  { simplify_eq. intros (k & m & Hk & _). by rewrite lookup_empty in Hk. }
  apply rbind_ok in H as (steps & Hs%wrap_ok & H). apply rbind_ok in H as (rest & Hr & H). simplify_eq.
  intros (k' & m' & Hk & Hin). rewrite lookup_insert in Hk. case_decide.
  - simplify_eq. simpl in Hin. eapply resolveStepList_from in Hin as (s & ? & ?); [|done].
    exists s. split; [|done]. exists (k', m). split; [left|done].
  - destruct (IH _ Hr) as (s & (x & ? & ?) & ?); [by eauto|]. exists s. split; [|done].
    exists x. split; [by right|done].
Qed.

Lemma buildResolvedTarget_from t os t' r :
  buildResolvedTarget t os = Ok t' → r ∈ target_steps t' → ∃ s, s ∈ pre_steps t ∧ resolveStep s os = Ok r.
Proof.
  unfold buildResolvedTarget, target_steps, pre_steps. intros H.
  apply rbind_ok in H as (? & _ & H). apply rbind_ok in H as (lc & Hl & H).
  apply rbind_ok in H as (ms & Hm & H). simplify_eq. simpl. setoid_rewrite elem_of_app.
  intros [Hr|Hr]; [eapply resolveLifecycle_from in Hr as (s & ? & ?)|eapply resolveMethods_from in Hr as (s & ? & ?)];
    eauto.
Qed.

Lemma mergeTargets_steps p c s : s ∈ pre_steps (mergeTargets p c) → s ∈ pre_steps p ∨ s ∈ pre_steps c.
Proof.
  unfold pre_steps. rewrite !elem_of_app, !elem_of_lifecycle_steps, !elem_of_method_steps_of.
  intros [(f & Hf & Hs)|(k & m & Hk & Hs)].
  - assert (f (pre_lifecycle (mergeTargets p c)) = mergeStepList (f (pre_lifecycle p)) (f (pre_lifecycle c))) as E.
    { rewrite !elem_of_cons in Hf.
      by destruct Hf as [->|[->|[->|[->|[->|[->|?%not_elem_of_nil]]]]]]. }
    rewrite E in Hs. unfold mergeStepList in Hs. destruct (f (pre_lifecycle c)) eqn:Hc.
    + right. left. exists f. by rewrite Hc.
    + left. left. by exists f.
  - simpl in Hk. unfold mergeMethods in Hk. apply lookup_union_Some_raw in Hk as [Hk|[_ Hk]]; eauto 10.
Qed.

(** Every step of a flattened target was declared by one of the chain. *)
Lemma base_chain_steps ts key l t s :
  base_chain ts key l t → s ∈ pre_steps t →
  ∃ k p, rtc (base_edge ts) key k ∧ ts !! k = Some p ∧ s ∈ pre_steps p.
Proof.
  induction 1 as [key t Hk Hb|key t l p Hk Hb H IH]; intros Hs; [by exists key, t|].
  apply mergeTargets_steps in Hs as [Hs|Hs]; [|by exists key, t].
  destruct (IH Hs) as (k & q & Hr & Hq & Hin). exists k, q. split_and!; [|done..].
  eapply rtc_l; [|exact Hr]. by exists t.
Qed.

(** The values a step cannot do without, and those it may leave out *)
Definition required_fields (s : Step) : list (Overrideable string) := map snd (checked_fields s).

Definition optional_fields (s : Step) : list (Overrideable string) :=
  match s with
  | RunStep _ _ _ timeout _ | ExtractStep _ _ _ timeout | PortableStep _ _ _ timeout _
  | SignalStep _ _ timeout => [timeout]
  | FetchStep _ _ _ checksum timeout => [checksum; timeout]
  | _ => []
  end.

(** A step has its values on a platform. *)
Definition covered (os : OS) (s : Step) : Prop :=
  (∀ o, o ∈ required_fields s → declares o os) ∧
  (∀ o, o ∈ optional_fields s → isPopulated o = true → declares o os).

Lemma checkOptionalCoverage_nil ov field scope os :
  checkOptionalCoverage ov field scope = [] → os ∈ scope → isPopulated ov = true → declares ov os.
Proof. unfold checkOptionalCoverage. intros H Hos E. rewrite E in H. by eapply covered_declares. Qed.

Lemma checkStepCoverage_covered f scope s os :
  checkStepCoverage f scope s = [] → os ∈ scope → covered os s.
Proof.
  intros H Hos. unfold covered. destruct s; cbn in H |- *; rewrite ?app_nil in H; destruct_and?;
    (split; intros o Ho; rewrite ?elem_of_cons in Ho; destruct_or?; subst;
     try (by apply not_elem_of_nil in Ho); eauto using covered_declares, checkOptionalCoverage_nil).
  all: intros; eapply checkOptionalCoverage_nil; eauto.
Qed.

Lemma targetScope_matches key os : os ∈ AllOS → matchesTargetKey key os = true → os ∈ targetScope key.
Proof.
  intros Ha Hm. unfold targetScope.
  assert (os ∈ filter (λ os, matchesTargetKey key os = true) AllOS) as Hin
    by (by apply list_elem_of_filter).
  destruct (filter _ _); [by apply not_elem_of_nil in Hin|done].
Qed.

Lemma coverage_steps ts k p s os :
  OverrideableCoverageRule ts = [] → ts !! k = Some p → IsAbstractTarget k = false →
  os ∈ targetScope k → s ∈ pre_steps p → covered os s.
Proof.
  unfold OverrideableCoverageRule. rewrite concat_nil. intros H Hk Ha Hos Hs.
  specialize (H (k, p) ltac:(by apply elem_of_map_to_list)). unfold IsAbstractTarget in Ha. simpl in H.
  rewrite Ha in H. unfold checkTargetCoverage in H. rewrite !app_nil, !concat_nil in H.
  destruct H as (_ & Hl & Hm). unfold pre_steps in Hs. apply elem_of_app in Hs as [Hs|Hs].
  - unfold lifecycle_steps in Hs. apply elem_of_concat_map in Hs as (x & Hx & Hs).
    specialize (Hl x Hx). unfold checkStepListCoverage in Hl. rewrite each_nil in Hl.
    apply list_elem_of_lookup in Hs as [i Hi]. by eapply checkStepCoverage_covered; [apply (Hl i)|].
  - unfold method_steps_of in Hs. apply elem_of_concat_map in Hs as (x & Hx & Hs).
    specialize (Hm x Hx). unfold checkStepListCoverage in Hm. rewrite each_nil in Hm.
    apply list_elem_of_lookup in Hs as [i Hi]. by eapply checkStepCoverage_covered; [apply (Hm i)|].
Qed.

(** In a manifest whose coverage was accepted, every step a platform gets was declared
    by a target of its chain of bases; and where that target is not abstract and its own
    key is for the platform, each value the step cannot do without, and each optional one
    that has a value anywhere, has one there. *)
Lemma accepted_steps_have_values (ts : targets) os key r s' :
  OverrideableCoverageRule ts = [] → os ∈ AllOS → findWinner ts os = Ok key →
  SelectTarget ts os = Some (Ok r) → s' ∈ target_steps r →
  ∃ k p s, rtc (base_edge ts) key k ∧ ts !! k = Some p ∧ s ∈ pre_steps p ∧ resolveStep s os = Ok s' ∧
    (IsAbstractTarget k = false → k = key ∨ matchesTarget k os = true → covered os s).
Proof.
  intros Hc Ha Hw Hr Hs'. apply SelectTarget_ok in Hr as (key' & l & pre & Hw' & Hch & Hb).
  rewrite Hw in Hw'. injection Hw' as <-.
  eapply buildResolvedTarget_from in Hs' as (s & Hs & Hres); [|done].
  destruct (base_chain_steps _ _ _ _ _ Hch Hs) as (k & p & Hrt & Hk & Hin).
  exists k, p, s. split_and!; [done..|]. intros Hab Hm.
  eapply coverage_steps; [done..| |done]. apply targetScope_matches; [done|].
  destruct Hm as [->|Hm]; [|exact Hm]. pose proof (findWinner_cases ts os) as H. rewrite Hw in H.
  by destruct H as (_ & _ & ?).
Qed.

Definition install_only (base : string) (l : list Step) : PrecompiledTarget :=
  mkPrecompiled base (mkRequirement 0 0 0) None None ∅
    (mkTargetLifecycle (Some l) None None None None None) ∅ (mkExpose None None).

(** A step whose command is there on Windows only *)
Definition windows_only : Step :=
  RunStep (mkBasicStep "install" true) (mkOverrideable "" {[ "windows/*" := "setup.exe" ]})
    (flat false) (flat "") None.

Lemma accepted_steps_have_values_witness :
  let ts := {[ "windows/*" := install_only "" [windows_only] ]} : targets in
  ∃ r k p s, SelectTarget ts OSWindowsAMD64 = Some (Ok r) ∧ Install (Lifecycle r) ≠ None ∧
    ts !! k = Some p ∧ s ∈ pre_steps p ∧ covered OSWindowsAMD64 s.
Proof.
  intros ts. assert (OverrideableCoverageRule ts = []) as Hc by (vm_compute; reflexivity).
  assert (findWinner ts OSWindowsAMD64 = Ok "windows/*") as Hw by (vm_compute; reflexivity).
  destruct (SelectTarget ts OSWindowsAMD64) as [[r|e]|] eqn:Hr; [|vm_compute in Hr; discriminate..].
  assert (∃ s', s' ∈ target_steps r ∧ Install (Lifecycle r) ≠ None) as (s' & Hs' & Hi).
  { vm_compute in Hr. injection Hr as <-. eexists. split; [vm_compute; left|done]. }
  destruct (accepted_steps_have_values ts OSWindowsAMD64 "windows/*" r s')
    as (k & p & s & Hrt & Hk & Hin & _ & Hcov); [done|by repeat constructor|done..|].
  assert (k = "windows/*") as ->.
  { inversion Hrt as [|? b ? He]; [done|]. subst. destruct He as (t & Ht & Hne & _).
    vm_compute in Ht. injection Ht as <-. by destruct Hne. }
  exists r, "windows/*", p, s. split_and!; [done..|]. apply Hcov; [done|by left].
Defined.

(** What an abstract target declares is not looked at, where it is declared or where it is
    inherited: this manifest is accepted, and its install on Linux runs nothing. *)
Lemma abstract_base_not_covered :
  let ts := {[ "_common" := install_only "" [windows_only];
               "*" := mkPrecompiled "_common" (mkRequirement 0 0 0) None None ∅
                 (mkTargetLifecycle None None None None None None) ∅ (mkExpose None None) ]} : targets in
  OverrideableCoverageRule ts = [] ∧ BaseIntegrityRule ts = [] ∧ OverrideableKeysRule ts = [] ∧
  ∃ r, SelectTarget ts OSLinuxAMD64 = Some (Ok r) ∧
    Install (Lifecycle r) = Some [RunStep (mkBasicStep "install" true) (flat "") (flat false) (flat "") None].
Proof. intros ts. split_and!; [vm_compute; reflexivity..|]. eexists. split; vm_compute; reflexivity. Qed.
