(* ===== verification/RulesetRefs.v ===== *)
(** * The references of an accepted manifest

    The rule on references against the assembler that supplies them: what a manifest may
    refer to without being refused is there when its steps are expanded, but for what one
    theorem lists. *)

From S2P Require Import Prelude GoStrings GoRegexp Domain Steps Manifest Targets Runtime RuntimeDrain RuntimeRepo Assembler Ruleset.

(** ** The rule *)

Lemma elem_of_extractVarTokens name v : name ∈ extractVarTokens v ↔ name ∈ collectTokens v.
Proof. unfold extractVarTokens, collectTokens. by rewrite elem_of_list_to_set. Qed.

(** A reference to a variable or a port, not to an export of a dependency *)
Definition plain_name (name : string) : Prop := contains name "." = false ∧ contains name ":" = false.

Lemma checkVarTokens_nil prefix field values known :
  checkVarTokens prefix field values known = [] ↔
  ∀ v name, v ∈ values → name ∈ extractVarTokens v → plain_name name → name ∈ known.
Proof.
  unfold checkVarTokens. rewrite concat_nil. unfold checkSingleValueTokens.
  setoid_rewrite concat_nil. setoid_rewrite unless_nil. unfold plain_name. split.
  - intros H v name Hv Hn [Hd Hc]. specialize (H v Hv name Hn). rewrite Hd, Hc in H.
    by apply bool_decide_eq_true_1 in H.
  - intros H v Hv name Hn. destruct (contains name ".") eqn:Hd; [done|].
    destruct (contains name ":") eqn:Hc; [done|]. apply bool_decide_eq_true_2. by eapply H.
Qed.

(** The names a step refers to where the rule looks *)
Definition step_reads (s : Step) (name : string) : Prop :=
  ∃ f o v, (f, o) ∈ checked_fields s ∧ v ∈ field_values o ∧ name ∈ extractVarTokens v.

Lemma checkStepListVars_nil prefix steps known :
  checkStepListVars prefix steps known = [] ↔
  ∀ s name, s ∈ steps_of steps → step_reads s name → plain_name name → name ∈ known.
Proof.
  unfold checkStepListVars, checkCompiledStepVars, step_reads. rewrite concat_nil.
  setoid_rewrite concat_nil. setoid_rewrite checkVarTokens_nil. split.
  - intros H s name Hs (f & o & v & Ho & Hv & Hn). by apply (H s Hs (f, o) Ho v).
  - intros H s Hs [f o] Ho v name Hv Hn Hp. eapply H; eauto 10.
Qed.

(** Every list of steps but the probe's *)
Definition run_steps (t : Target) (s : Step) : Prop :=
  (∃ f, f ∈ [Install; Update; Execute; Stop; Uninstall] ∧ s ∈ steps_of (f (Lifecycle t))) ∨
  (∃ k m, Methods t !! k = Some m ∧ s ∈ steps_of (method_steps m)).

Lemma checkCompiledTargetVariableRefs_nil known preKnown key t :
  checkCompiledTargetVariableRefs known preKnown key t = [] ↔
  (∀ s name, run_steps t s → step_reads s name → plain_name name → name ∈ known) ∧
  (∀ s name, s ∈ steps_of (Preinstalled (Lifecycle t)) → step_reads s name → plain_name name →
     name ∈ preKnown).
Proof.
  unfold checkCompiledTargetVariableRefs. cbv zeta. rewrite !app_nil, !concat_nil, checkStepListVars_nil.
  split.
  - intros (Hl & Hpre & Hm). split; [|done]. intros s name [(f & Hf & Hs)|(k & x & Hk & Hs)] Hr Hp.
    + specialize (Hl (f (Lifecycle t))). rewrite checkStepListVars_nil in Hl.
      eapply Hl; try done. exact (list_elem_of_fmap_2 (λ f, f (Lifecycle t)) _ f Hf).
    + specialize (Hm (k, x)). rewrite checkStepListVars_nil in Hm.
      eapply Hm; try done. by apply elem_of_map_to_list.
  - intros [H Hpre]. split_and!; [|done|].
    + intros l Hl. apply (list_elem_of_fmap (λ f, f (Lifecycle t)) [Install; Update; Execute; Stop; Uninstall])
        in Hl as (f & -> & Hf).
      apply checkStepListVars_nil. intros s name Hs. apply H. left. eauto.
    + intros [k x] Hk%elem_of_map_to_list. apply checkStepListVars_nil. intros s name Hs. apply H.
      right. eauto.
Qed.

Lemma VariableRefsRule_nil m ts :
  VariableRefsRule m ts = [] ↔
  ∀ os t, (os, t) ∈ ts →
    (∀ s name, run_steps t s → step_reads s name → plain_name name → name ∈ buildKnownVars m) ∧
    (∀ s name, s ∈ steps_of (Preinstalled (Lifecycle t)) → step_reads s name → plain_name name →
       name ∈ buildPreinstalledKnownVars m).
Proof.
  unfold VariableRefsRule. rewrite each_target_nil. split; intros H os t Ht; specialize (H os t Ht).
  - by apply checkCompiledTargetVariableRefs_nil in H.
  - by apply checkCompiledTargetVariableRefs_nil.
Qed.

Lemma step_reads_fields s name :
  step_reads s name → ∃ raw, raw ∈ step_fields s ∧ name ∈ collectTokens raw.
Proof.
  intros (f & o & v & Ho & Hv & Hn%elem_of_extractVarTokens). exists v. split; [|done].
  destruct s; simpl in Ho; rewrite ?elem_of_cons in Ho; destruct_or?; simplify_eq;
    try (by apply not_elem_of_nil in Ho); cbn [step_fields]; rewrite ?elem_of_app; auto.
Qed.

(** The steps of a method are steps the rule looks at, but for that on dependencies. *)
Lemma StepsForMethod_run target method steps states s :
  StepsForMethod target method = Ok (steps, states) → s ∈ steps →
  run_steps target s ∨ is_dependencies s = true.
Proof.
  assert (∀ f, f ∈ [Install; Update; Execute; Stop; Uninstall] → s ∈ steps_of (f (Lifecycle target)) →
    run_steps target s) as Hf by (intros f ? ?; left; eauto).
  unfold StepsForMethod. cbv zeta. intros H Hs.
  repeat match type of H with
  | (if ?b then _ else _) = Ok _ => destruct b
  | (match ?x with _ => _ end) = Ok _ => destruct x eqn:?
  end; try done; simplify_eq.
  all: try (left; eapply Hf; [|exact Hs]; clear; by repeat constructor).
  - apply elem_of_cons in Hs as [->|Hs]; [by right|]. left. eapply Hf; [|exact Hs]. left.
  - left. right. eauto.
Qed.

(** ** What a layer adds stays *)

Definition grows (vars vars' : Vars) : Prop := ∀ x, is_Some (vars !! x) → is_Some (vars' !! x).

Lemma grows_refl vars : grows vars vars.
Proof. by intros x. Qed.

Lemma grows_trans a b c : grows a b → grows b c → grows a c.
Proof. intros H1 H2 x Hx. by apply H2, H1. Qed.

Lemma grows_insert k v vars : grows vars (<[k := v]> vars).
Proof. intros x Hx. rewrite lookup_insert. case_decide; [by eexists|done]. Qed.

Lemma grows_union a vars : grows vars (a ∪ vars).
Proof. intros x [v Hv]. destruct (a !! x) as [u|] eqn:Ha.
  - exists u. by apply lookup_union_Some_l.
  - exists v. by rewrite lookup_union_r.
Qed.

Lemma grows_foldl {A} (f : Vars → A → Vars) l vars :
  (∀ v a, grows v (f v a)) → grows vars (foldl f vars l).
Proof.
  intros Hf. revert vars. induction l as [|a l IH]; intros vars; [apply grows_refl|].
  simpl. eapply grows_trans; [apply Hf|apply IH].
Qed.

#[local] Hint Resolve grows_refl grows_insert grows_union : core.

Lemma grows_defaults vars declared : grows vars (applyDefaults vars declared).
Proof. apply grows_foldl. intros u v. by destruct (String.eqb _ _). Qed.

Lemma defaults_there vars declared v :
  v ∈ declared → var_default v ≠ "" → is_Some (applyDefaults vars declared !! var_name v).
Proof.
  intros Hv Hd. revert vars. induction declared as [|u l IH]; intros vars; [by apply not_elem_of_nil in Hv|].
  apply elem_of_cons in Hv as [<-|Hv]; [|by apply IH].
  unfold applyDefaults. cbn [foldl]. destruct (String.eqb_spec (var_default v) ""); [done|].
  apply (grows_defaults _ l). rewrite lookup_insert_eq. by eexists.
Qed.

Section layers.
Context {W : Type} `{Asynx W} (env : AssemblerEnv (W := W)).

Lemma grows_dependencies edges vars w vars' w' :
  dependenciesVars env edges vars w = (vars', w') → grows vars vars'.
Proof.
  revert vars w. induction edges as [|e edges IH]; intros vars w Hd; cbn [dependenciesVars] in Hd;
    [by r_ret Hd|].
  r_step Hd. eapply grows_trans; [|by eapply IH]. clear IH Hd. unfold dependencyVars in Hm. cbv zeta in Hm.
  r_step Hm. destruct a0 as [d|]; [|by r_ret Hm]. destruct (target_of _ _); [|by r_ret Hm].
  r_step Hm. r_ret Hm. eapply grows_trans; [|by apply grows_foldl].
  destruct (env_WorkDir env) as [f|]; [|by r_ret Hm1]. r_step Hm1. r_ret Hm1. by case_match.
Qed.

(** A required port has a number, held or allocated. *)
Lemma ports_there Allocate ns ports held vars w vars' w' :
  allocatePorts_in (W:=W) Allocate ns ports held vars w = (Ok vars', w') →
  grows vars vars' ∧
  ∀ p, p ∈ ports → port_required p = true → is_Some ((held ∪ vars') !! port_name p).
Proof.
  revert vars w. induction ports as [|p ports IH]; intros vars w Ha; cbn [allocatePorts_in] in Ha.
  { r_ret Ha. split; [done|]. by intros p ?%not_elem_of_nil. }
  destruct (negb (String.eqb (value_of held (port_name p)) "")) eqn:Hh.
  - destruct (IH _ _ Ha) as [Hg Hp]. split; [done|]. intros q [->|Hq]%elem_of_cons Hr; [|by apply Hp].
    unfold value_of in Hh. destruct (held !! port_name p) as [x|] eqn:Hx; [|done].
    exists x. by apply lookup_union_Some_l.
  - r_step Ha. destruct a as [n|].
    + destruct (IH _ _ Ha) as [Hg Hp]. split; [eapply grows_trans; [apply grows_insert|exact Hg]|].
      intros q [->|Hq]%elem_of_cons Hr; [|by apply Hp]. apply grows_union, Hg.
      rewrite lookup_insert_eq. by eexists.
    + destruct (port_required p) eqn:Hreq; [r_fail Ha|]. destruct (IH _ _ Ha) as [Hg Hp].
      split; [done|]. intros q [->|Hq]%elem_of_cons Hr; [congruence|by apply Hp].
Qed.

Lemma grows_socket ns steps vars w vars' w' :
  socketVars env ns steps vars w = (Ok vars', w') →
  grows vars vars' ∧
  (env_Prepare env ≠ None → hasListenUI steps = true → is_Some (vars' !! VarArrowUIListen)).
Proof.
  unfold socketVars. destruct (env_Prepare env) as [f|]; [|intros Hs; by r_ret Hs].
  destruct (hasListenUI steps); [|intros Hs; by r_ret Hs]. intros Hs. r_step Hs.
  destruct a as [socket|e]; [|r_fail Hs]. r_ret Hs. split; [done|]. intros _ _.
  rewrite lookup_insert_eq. by eexists.
Qed.

Lemma grows_target_ref ref vars : grows vars (withTargetRef ref vars).
Proof. unfold withTargetRef. destruct ref as [r|]; [|done]. by destruct (String.eqb r ""). Qed.

(** What an accepted manifest may refer to and not find: the application, which the
    wizard supplies; the socket where no step of the method listens; a port that is not
    required *)
Definition left_open (arrow : Arrow) (steps : list Step) (name : string) : Prop :=
  name = VarArrowApp ∨
  name = VarArrowUIListen ∧ (env_Prepare env = None ∨ hasListenUI steps = false) ∨
  ∃ p, p ∈ arrow_netbridge arrow ∧ port_name p = name ∧ port_required p = false.

Lemma target_in_elem ts os t : target_in ts os = Some t → (os, t) ∈ ts.
Proof.
  induction ts as [|[o u] ts IH]; [done|]. simpl. case_decide as E.
  - intros [= ->]. subst. left.
  - intros H'. right. by apply IH.
Qed.

Lemma is_Some_known arrow target ns userVars steps w vars w' name :
  env_WorkDir env ≠ None → env_Allocate env ≠ None →
  ResolveVariables env ns arrow target userVars steps w = (Ok vars, w') →
  name ∈ ReferencedVariables steps → name ∈ buildKnownVars arrow →
  is_Some (vars !! name) ∨ left_open arrow steps name.
Proof.
  intros Hwd Hal (built & listening & deps & stored & ports & w1 & w2 & w3 & w4 &
    Hb & Hl & Hd & Hs & Ha & -> & Hreq)%ResolveVariables_ok Href Hk.
  pose proof (builtIns_ok env _ _ _ _ _ Hb) as (Hns & Hpl & Hrf & _ & _ & Hw).
  apply grows_socket in Hl as [Hl Hui]. apply grows_dependencies in Hd.
  assert (grows deps (applyDefaults deps (arrow_variables arrow))) as Hdef by apply grows_defaults.
  unfold allocatePorts in Ha. destruct (env_Allocate env) as [Allocate|]; [|done].
  apply ports_there in Ha as [Hp Hports].
  assert (grows (stored ∪ ports) (applyUserVars (stored ∪ ports) userVars)) as Hu by apply grows_union.
  assert (grows listening (applyUserVars (stored ∪ ports) userVars)) as Hall.
  { intros x Hx. apply Hu, grows_union, Hp, Hdef, Hd, Hx. }
  unfold buildKnownVars in Hk. rewrite !elem_of_union, !elem_of_list_to_set in Hk.
  destruct Hk as [[Hk|Hk]|Hk].
  - rewrite !elem_of_singleton in Hk.
    destruct (env_WorkDir env) as [f|]; [|done]. destruct Hw as (wa & dir & wb & _ & Hwd' & Hip).
    assert (∀ x y, built !! x = Some y → is_Some (applyUserVars (stored ∪ ports) userVars !! x)) as Hbt.
    { intros x y Hx. apply Hall, Hl. by eexists. }
    destruct_or?; subst; try (left; by eapply Hbt); [|by right; left].
    destruct (env_Prepare env) as [f'|] eqn:He; [|right; right; left; by auto].
    destruct (hasListenUI steps) eqn:Hh; [|right; right; left; by auto].
    left. by apply Hall, Hui.
  - apply list_elem_of_fmap in Hk as (v & -> & Hv). left.
    destruct (decide (var_default v = "")) as [Hdf|Hdf].
    + pose proof (requireReferenced_none _ _ _ _ Hreq Hv Hdf Href) as Hne. unfold value_of in Hne.
      destruct (_ !! var_name v); [by eexists|done].
    + apply Hu, grows_union, Hp. by apply defaults_there.
  - apply list_elem_of_fmap in Hk as (p & -> & Hpin). destruct (port_required p) eqn:Hr.
    + left. apply Hu. by apply Hports.
    + right. right. right. eauto.
Qed.
End layers.

(** C26. In a run that is assembled from a manifest whose references were accepted, every
    plain reference that a step makes in its command, its addresses or its paths has a
    value, whatever the caller sent and the ports and the vault answered; but for the
    application, the socket of an interface where no step listens, and a port that is not
    required. *)
Theorem accepted_references_supplied {W} `{Asynx W} (env : AssemblerEnv (W := W)) ns method userVars ref w x w' :
  env_WorkDir env ≠ None → env_Allocate env ≠ None →
  Assemble env ns method userVars ref w = (Ok x, w') →
  ∃ arrow w1, env_getArrow env ns w = (Ok arrow, w1) ∧
    (VariableRefsRule arrow (arrow_targets arrow) = [] →
     ∀ s name, s ∈ Resolved_Steps x → step_reads s name → plain_name name →
       is_Some (Resolved_Variables x !! name) ∨ left_open env arrow (Resolved_Steps x) name).
Proof.
  intros Hwd Hal (arrow & target & vars & w1 & w2 & Hg & Ht & Hst & Hr & -> & _)%Assemble_ok.
  exists arrow, w1. split; [done|]. intros Hrule s name Hs Hread Hp.
  apply target_in_elem in Ht. destruct (proj1 (VariableRefsRule_nil _ _) Hrule _ _ Ht) as [Hknown _].
  destruct (StepsForMethod_run _ _ _ _ _ Hst Hs) as [Hrun|Hdep].
  - destruct (step_reads_fields s name Hread) as (raw & Hraw & Hn).
    destruct (is_Some_known env arrow target ns userVars _ _ _ _ name Hwd Hal Hr) as [Hin|Hopen]; auto.
    { apply elem_of_ReferencedVariables. eauto. }
    { by apply (Hknown s). }
    left. by apply grows_target_ref.
  - destruct s; try done. by destruct Hread as (? & ? & ? & ?%not_elem_of_nil & _).
Qed.

Lemma accepted_references_supplied_witness :
  let env := sample_env [declare "TOKEN" "t0"] in
  ∃ x, (Assemble env "x/app@1" MethodExecute ∅ None ∅).1 = Ok x ∧ is_Some (Resolved_Variables x !! "PORT").
Proof.
  intros env. destruct (Assemble env "x/app@1" MethodExecute ∅ None ∅)
    as [[x|e] w'] eqn:Ha; [|vm_compute in Ha; discriminate].
  exists x. split; [reflexivity|].
  destruct (accepted_references_supplied env _ _ _ _ _ _ _ ltac:(done) ltac:(done) Ha) as (arrow & w1 & Hg & H).
  simpl in Hg. injection Hg as <- <-.
  assert (Resolved_Steps x = [NewRunStep "Serve" "./serve --token ${TOKEN} --port ${PORT} --ref ${REF}" false "" true])
    as Hs by (vm_compute in Ha; by injection Ha as <- _).
  destruct (H ltac:(vm_compute; reflexivity)
    (NewRunStep "Serve" "./serve --token ${TOKEN} --port ${PORT} --ref ${REF}" false "" true) "PORT")
    as [Hin|[?|[[? _]|(p & Hp & _ & Hr)]]]; [| | |exact Hin|discriminate|discriminate|].
  - rewrite Hs. left.
  - eexists _, _, _. split; [left|]. split; [left|]. vm_compute. right. left.
  - by split.
  - apply list_elem_of_singleton in Hp as ->. discriminate.
Defined.

(** ** What the rules let through *)

(** A checksum is expanded like the other fields of a fetch, and the assembler collects
    its references, yet the rule does not look at it. *)
Lemma checksum_not_checked m :
  let s := FetchStep (mkBasicStep "get" true) (flat "https://x/y") (flat "${WORKDIR}") (flat "${TYPO}") (flat "") in
  checkCompiledStepVars "" s (buildKnownVars m) = [] ∧ "TYPO" ∈ collectStepReferences s.
Proof.
  intros s. split; [|vm_compute; by repeat constructor].
  unfold checkCompiledStepVars. apply concat_nil. intros [f o] Ho.
  apply checkVarTokens_nil. intros v name Hv Hn _. unfold buildKnownVars.
  assert (v = "https://x/y" ∨ v = "${WORKDIR}" ∨ v = "") as Hvs.
  { simpl in Ho. rewrite !elem_of_cons in Ho. destruct_or?; simplify_eq; try (by apply not_elem_of_nil in Ho);
      unfold field_values in Hv; simpl in Hv; rewrite map_to_list_empty in Hv; simpl in Hv;
      apply list_elem_of_singleton in Hv; auto. }
  destruct Hvs as [->|[->| ->]]; vm_compute in Hn; [by apply not_elem_of_nil in Hn| |by apply not_elem_of_nil in Hn].
  apply list_elem_of_singleton in Hn as ->. set_solver.
Qed.

(** The socket may be referred to by a fetch of a method where nothing listens. *)
Lemma socket_in_a_fetch :
  let s := FetchStep (mkBasicStep "get" true) (flat "https://x/${ARROW_UI_LISTEN}") (flat "${WORKDIR}") (flat "") (flat "") in
  checkRunUIGroup "linux/amd64" "lifecycle.install" (Some [s]) = [] ∧
  VarArrowUIListen ∈ collectStepReferences s ∧ hasListenUI [s] = false.
Proof. split_and!; [reflexivity|vm_compute; by repeat constructor|reflexivity]. Qed.

(** An exposed path need not have a slash after its root, where a placement must, so it
    may lead beside the workdir. *)
Lemma exposed_beside_workdir :
  let a := mkExposeAt OSLinuxAMD64 ExposeKindCLI 0 in
  checkExposePath a "${WORKDIR}-of-another/bin/tool" = [] ∧
  isWorkdirAnchoredValue "${WORKDIR}-of-another/bin/tool" = false ∧
  Expand {[ "WORKDIR" := "/data/ns/x" ]} "${WORKDIR}-of-another/bin/tool" = Some "/data/ns/x-of-another/bin/tool".
Proof. split_and!; vm_compute; reflexivity. Qed.
