(* ===== verification/RulesetFacts.v ===== *)
(** * What the rules of a manifest accept

    The rules after compilation, and those on what a manifest declares, said once without
    the order they look in and what they write. *)

From S2P Require Import Prelude GoStrings GoRegexp GoFilepath Domain Steps Manifest Targets Assembler Ruleset RulesetRefs.

(** ** What is accepted, said without the rules *)

Lemma VariablesRule_nil m :
  VariablesRule m = [] ↔
  (∀ v, v ∈ arrow_variables m → ValidateVariable v = None ∧ (var_type v = VariableTypeSelect → var_values v ≠ [])) ∧
  NoDup (map var_name (arrow_variables m)).
Proof.
  unfold VariablesRule. rewrite app_nil, checkDuplicates_nil.
  rewrite (each_nil_elem _ (λ v, ValidateVariable v = None ∧ (var_type v = VariableTypeSelect → var_values v ≠ []))).
  { done. }
  intros i v. destruct (ValidateVariable v); [naive_solver|]. rewrite unless_nil, orb_true_iff, !negb_true_iff.
  rewrite Nat.eqb_neq. destruct (var_type v), (var_values v); simpl; naive_solver.
Qed.

Lemma NetbridgeRule_nil m :
  NetbridgeRule m = [] ↔
  (∀ p, p ∈ arrow_netbridge m → ValidatePort p = None) ∧ NoDup (map port_name (arrow_netbridge m)).
Proof.
  unfold NetbridgeRule. rewrite app_nil, checkDuplicates_nil.
  rewrite (each_nil_elem _ (λ p, ValidatePort p = None)) by (intros i p; by destruct (ValidatePort p)).
  split; intros [H1 H2]; (split; [done|]); [rewrite filter_all in H2 by done|rewrite filter_all by done]; done.
Qed.

(** Each step a phase or a method has, at its index *)
Lemma groups_nil (f : string → StepList → RuleErrors) (Q : string → Step → Prop) name t :
  (∀ n l, f n l = [] ↔ ∀ s, s ∈ steps_of l → Q n s) →
  concat (map (λ g, f g.1 g.2) (named_groups name t)) = [] ↔
  ∀ n l s, (n, l) ∈ named_groups name t → s ∈ steps_of l → Q n s.
Proof.
  intros Hf. rewrite concat_nil. split.
  - intros H n l s Hin. by apply (proj1 (Hf n l) (H (n, l) Hin)).
  - intros H [n l] Hin. apply Hf. intros s. by apply H.
Qed.

(** Every step of a target is in one of its groups, and only those. *)
Lemma elem_of_named_groups name t s :
  (∃ n l, (n, l) ∈ named_groups name t ∧ s ∈ steps_of l) ↔ s ∈ target_steps t.
Proof.
  unfold named_groups, target_steps, lifecycle_steps, method_steps_of.
  rewrite elem_of_app, !elem_of_concat_map. setoid_rewrite elem_of_app. split.
  - intros (n & l & [Hin|Hin] & Hs); apply list_elem_of_fmap in Hin as (p & [= -> ->] & Hp); eauto.
  - intros [(p & Hp & Hs)|(p & Hp & Hs)]; (eexists _, _; split; [|exact Hs]).
    + left. apply list_elem_of_fmap. by exists p.
    + right. apply list_elem_of_fmap. by exists p.
Qed.

Lemma groups_nil_steps (f : string → StepList → RuleErrors) (Q : Step → Prop) name t :
  (∀ n l, f n l = [] ↔ ∀ s, s ∈ steps_of l → Q s) →
  concat (map (λ g, f g.1 g.2) (named_groups name t)) = [] ↔ ∀ s, s ∈ target_steps t → Q s.
Proof.
  intros Hf. rewrite (groups_nil f (λ _, Q)) by done. setoid_rewrite <- (elem_of_named_groups name t).
  naive_solver.
Qed.

(** A compiled target that the rules on compiled targets let pass *)
Definition well_formed_target (t : Target) : Prop :=
  let lc := Lifecycle t in
  let bare := map (λ e, BareNamespace (edge_namespace e)) in
  (∀ ns, ns ∈ bare (Tools t) → ns ∉ bare (Services t)) ∧
  (∀ k v, Exports t !! k = Some v → containsVar v = false) ∧
  (has_steps (Install lc) = true → has_steps (Uninstall lc) = false →
     ∀ s, s ∈ steps_of (Install lc) → isWorkdirAnchoredPlacement s = true) ∧
  (has_steps (Uninstall lc) = true → has_steps (Install lc) = true) ∧
  (has_steps (Stop lc) = true → has_steps (Execute lc) = true) ∧
  (Services t ≠ [] → has_steps (Execute lc) = true ∧ has_steps (Stop lc) = true) ∧
  (∀ s, s ∈ target_steps t → extractStepTimeout s ≠ "" → matches_re timeoutRe (extractStepTimeout s) = true) ∧
  (∀ k m state, Methods t !! k = Some m → state ∈ AvailableIn m → state = ArrowStateReady ∨ state = ArrowStateRunning) ∧
  (∀ s, s ∈ lifecycle_steps lc → is_dependencies s = false) ∧
  (∀ b from to timeout name, PortableStep b from to timeout name ∈ target_steps t → name ≠ "" →
     validPortableName name = true).

Lemma overlap_nil key t :
  checkTargetToolServiceOverlap key t = [] ↔
  ∀ ns, ns ∈ map (λ e, BareNamespace (edge_namespace e)) (Tools t) →
        ns ∉ map (λ e, BareNamespace (edge_namespace e)) (Services t).
Proof.
  unfold checkTargetToolServiceOverlap. rewrite concat_nil. split.
  - intros H ns Hns (e & -> & He)%list_elem_of_fmap. specialize (H e He).
    apply unless_nil, negb_true_iff, bool_decide_eq_false_1 in H. apply H. by apply elem_of_list_to_set.
  - intros H e He. apply unless_nil, negb_true_iff, bool_decide_eq_false_2.
    intros Hin%elem_of_list_to_set. apply (H _ Hin). by apply (list_elem_of_fmap_2 (λ e, BareNamespace (edge_namespace e))).
Qed.

Lemma exports_nil key t :
  checkTargetExportStaticValues key t = [] ↔ ∀ k v, Exports t !! k = Some v → containsVar v = false.
Proof.
  unfold checkTargetExportStaticValues. rewrite concat_nil. split.
  - intros H k v Hk%elem_of_map_to_list. apply negb_true_iff. by apply (proj1 (unless_nil _ _ _) (H (k, v) Hk)).
  - intros H [k v] Hk%elem_of_map_to_list. apply unless_nil, negb_true_iff. by eapply H.
Qed.

Lemma pairs_nil key t :
  checkLifecyclePairs key t = [] ↔
  let lc := Lifecycle t in
  (has_steps (Install lc) = true → has_steps (Uninstall lc) = false →
     ∀ s, s ∈ steps_of (Install lc) → isWorkdirAnchoredPlacement s = true) ∧
  (has_steps (Uninstall lc) = true → has_steps (Install lc) = true) ∧
  (has_steps (Stop lc) = true → has_steps (Execute lc) = true).
Proof.
  unfold checkLifecyclePairs. cbv zeta. rewrite app_nil, !unless_nil.
  assert (isWorkdirOnlyInstall (Install (Lifecycle t)) = true ↔
    ∀ s, s ∈ steps_of (Install (Lifecycle t)) → isWorkdirAnchoredPlacement s = true) as <-.
  { unfold isWorkdirOnlyInstall. rewrite forallb_forall. by setoid_rewrite list_elem_of_In. }
  destruct (has_steps (Install _)), (has_steps (Uninstall _)), (has_steps (Stop _)), (has_steps (Execute _)),
    (isWorkdirOnlyInstall _); simpl; naive_solver.
Qed.

Lemma consumer_nil key t :
  checkServiceConsumerLifecycle key t = [] ↔
  (Services t ≠ [] → has_steps (Execute (Lifecycle t)) = true ∧ has_steps (Stop (Lifecycle t)) = true).
Proof.
  unfold checkServiceConsumerLifecycle. destruct (Services t) as [|e l]; [naive_solver|].
  cbn [length Nat.eqb]. rewrite unless_nil, andb_true_iff. naive_solver.
Qed.

Lemma timeouts_nil key t :
  checkTimeoutFormat key t = [] ↔
  ∀ s, s ∈ target_steps t → extractStepTimeout s ≠ "" → matches_re timeoutRe (extractStepTimeout s) = true.
Proof.
  unfold checkTimeoutFormat. apply (groups_nil_steps (checkStepListTimeouts key)
    (λ s, extractStepTimeout s ≠ "" → matches_re timeoutRe (extractStepTimeout s) = true)).
  intros n l. unfold checkStepListTimeouts. apply each_nil_elem. intros i s. rewrite unless_nil, orb_true_iff, String.eqb_eq.
  destruct (decide (extractStepTimeout s = "")); naive_solver.
Qed.

Lemma states_nil key t :
  checkMethodStates key t = [] ↔
  ∀ k m state, Methods t !! k = Some m → state ∈ AvailableIn m → state = ArrowStateReady ∨ state = ArrowStateRunning.
Proof.
  assert (∀ state, bool_decide (state ∈ validMethodStates) = true ↔ state = ArrowStateReady ∨ state = ArrowStateRunning) as Hv.
  { intros state. rewrite bool_decide_eq_true. unfold validMethodStates. rewrite elem_of_cons, list_elem_of_singleton. done. }
  unfold checkMethodStates. rewrite concat_nil. unfold checkMethodAvailableIn. split.
  - intros H k m state Hk%elem_of_map_to_list Hs. apply Hv.
    apply (proj1 (unless_nil _ _ _) (proj1 (concat_nil _ _) (H (k, m) Hk) state Hs)).
  - intros H [k m] Hk%elem_of_map_to_list. apply concat_nil. intros state Hs. apply unless_nil, Hv. by eapply H.
Qed.

Lemma no_dependencies_nil key t :
  checkNoDepsSteps key t = [] ↔ ∀ s, s ∈ lifecycle_steps (Lifecycle t) → is_dependencies s = false.
Proof.
  unfold checkNoDepsSteps, lifecycle_steps. rewrite concat_nil. setoid_rewrite elem_of_concat_map. split.
  - intros H s (p & Hp & Hs). specialize (H p Hp).
    rewrite (each_nil_elem _ (λ s, is_dependencies s = false)) in H by (intros; by rewrite unless_nil, negb_true_iff).
    by apply H.
  - intros H p Hp. apply (each_nil_elem _ (λ s, is_dependencies s = false)).
    { intros. by rewrite unless_nil, negb_true_iff. }
    intros s Hs. apply H. eauto.
Qed.

Lemma portable_nil key t :
  checkPortableNames key t = [] ↔
  ∀ b from to timeout name, PortableStep b from to timeout name ∈ target_steps t → name ≠ "" →
     validPortableName name = true.
Proof.
  unfold checkPortableNames.
  rewrite (groups_nil_steps (checkStepListPortableNames key)
    (λ s, ∀ b from to timeout name, s = PortableStep b from to timeout name → name ≠ "" → validPortableName name = true)).
  { naive_solver. }
  intros n l. apply each_nil_elem. intros i s. destruct s; try (split; [intros _ *; discriminate|done]).
  rewrite unless_nil, orb_true_iff, String.eqb_eq. split.
  - intros [?|?] b' f' t' o' n' [= <- <- <- <- <-]; done.
  - intros H. destruct (decide (Name = "")); [by left|right; by eapply H].
Qed.

(** What an exposed entry may be *)
Definition well_formed_entry (a : exposeAt) (e : ExposeEntry) : Prop :=
  exposeNameRe (entry_name e) = true ∧ checkExposePath a (entry_path e) = [] ∧
  isValidExposeIcon (entry_icon e) = true.

Definition well_exposed (os : OS) (t : Target) : Prop :=
  ∀ kind entries, (kind, entries) ∈ [(ExposeKindCLI, CLI (TargetExpose t)); (ExposeKindDesktop, Desktop (TargetExpose t))] →
    NoDup (map entry_name (default [] entries)) ∧
    ∀ i e, default [] entries !! i = Some e → well_formed_entry (mkExposeAt os kind i) e.

Lemma expose_nil os t : checkExpose os t = [] ↔ well_exposed os t.
Proof.
  assert (∀ kind entries, checkExposeEntries os kind entries = [] ↔
    NoDup (map entry_name entries) ∧ ∀ i e, entries !! i = Some e → well_formed_entry (mkExposeAt os kind i) e) as Hk.
  { intros kind entries. unfold checkExposeEntries. rewrite app_nil, checkDuplicates_nil, each_nil.
    assert (∀ i e, checkExposeName (mkExposeAt os kind i) (entry_name e) ++
      checkExposePath (mkExposeAt os kind i) (entry_path e) ++ checkExposeIcon (mkExposeAt os kind i) (entry_icon e) = [] ↔
      well_formed_entry (mkExposeAt os kind i) e) as He.
    { intros i e. unfold well_formed_entry, checkExposeName, checkExposeIcon, expose_unless.
      by rewrite !app_nil, !unless_nil. }
    setoid_rewrite He. tauto. }
  unfold checkExpose, well_exposed. rewrite app_nil, !Hk. split.
  - intros [H1 H2] kind entries. rewrite elem_of_cons, list_elem_of_singleton. by intros [[= -> ->]|[= -> ->]].
  - intros H. split; apply H; [left|right; left].
Qed.

(** A run step may have an interface, and refer to its socket, as long as its group is not
    the probe and the interface is one thing. *)
Definition well_surfaced (group : string) (s : Step) : Prop :=
  match s with
  | RunStep _ command _ _ ui =>
    (overrideableMentions command uiListenVarRef = true → ∃ u, ui = Some u ∧ Listens u = true) ∧
    (∀ u, ui = Some u → group ≠ preinstalledGroup ∧ (ui_path u = "" ∨ String.prefix "/" (ui_path u) = true) ∧
       (ui_listen u = [] ∨ ui_static u = "") ∧
       (ui_static u = "" → (∀ k, k ∈ ui_listen u → k ∈ uiListenKinds) ∧ ("pipe" ∈ ui_listen u → "unix" ∈ ui_listen u)) ∧
       (ui_static u ≠ "" → IsLocal (ui_static u) = true))
  | _ => True
  end.

Lemma surface_source_nil field u :
  checkRunUISource field u = [] ↔
  (ui_path u = "" ∨ String.prefix "/" (ui_path u) = true) ∧ (ui_listen u = [] ∨ ui_static u = "") ∧
  (ui_static u = "" → (∀ k, k ∈ ui_listen u → k ∈ uiListenKinds) ∧ ("pipe" ∈ ui_listen u → "unix" ∈ ui_listen u)) ∧
  (ui_static u ≠ "" → IsLocal (ui_static u) = true).
Proof.
  unfold checkRunUISource, run_ui_unless, Listens. rewrite app_nil, unless_nil, orb_true_iff, String.eqb_eq.
  assert (checkRunUIListen field (ui_listen u) = [] ↔
    (∀ k, k ∈ ui_listen u → k ∈ uiListenKinds) ∧ ("pipe" ∈ ui_listen u → "unix" ∈ ui_listen u)) as Hl.
  { unfold checkRunUIListen, run_ui_unless. rewrite app_nil, concat_nil, unless_nil, negb_true_iff.
    setoid_rewrite unless_nil. setoid_rewrite bool_decide_eq_true.
    destruct (decide ("pipe" ∈ ui_listen u)) as [Hp|Hp], (decide ("unix" ∈ ui_listen u)) as [Hu|Hu];
      rewrite ?(bool_decide_eq_true_2 _ Hp), ?(bool_decide_eq_true_2 _ Hu), ?(bool_decide_eq_false_2 _ Hp), ?(bool_decide_eq_false_2 _ Hu);
      naive_solver. }
  destruct (String.eqb_spec (ui_static u) "") as [Hs|Hs].
  - rewrite andb_false_r, Hl. naive_solver.
  - destruct (ui_listen u); cbn [length Nat.eqb negb andb]; rewrite unless_nil; naive_solver.
Qed.

Lemma surface_nil group field s : checkRunUIStep group field s = [] ↔ well_surfaced group s.
Proof.
  destruct s as [b command e tm ui| | | | | | |]; try done. cbn [checkRunUIStep well_surfaced].
  unfold run_ui_unless at 1. rewrite app_nil, unless_nil, orb_true_iff, negb_true_iff.
  assert ((match ui with
           | None => []
           | Some ui => if String.eqb group preinstalledGroup then run_ui_unless false field else checkRunUISource field ui
           end = []) ↔ ∀ u, ui = Some u → group ≠ preinstalledGroup ∧ checkRunUISource field u = []) as ->.
  { destruct ui as [u|]; [|naive_solver]. destruct (String.eqb_spec group preinstalledGroup); naive_solver. }
  setoid_rewrite surface_source_nil.
  apply and_iff_compat_r. destruct (overrideableMentions command uiListenVarRef).
  2: { split; [done|by left]. }
  destruct ui as [u|]; [destruct (Listens u) eqn:Hu|].
  - split; [by eauto|by right].
  - split; [by intros []|]. intros H. by destruct (H eq_refl) as (v & [= <-] & Hv); rewrite Hu in Hv.
  - split; [by intros []|]. intros H. by destruct (H eq_refl) as (v & ? & _).
Qed.

(** Every reference of a target is known, those of a probe among what a probe is given. *)
Definition references_known (m : Arrow) (t : Target) : Prop :=
  (∀ s name, run_steps t s → step_reads s name → plain_name name → name ∈ buildKnownVars m) ∧
  (∀ s name, s ∈ steps_of (Preinstalled (Lifecycle t)) → step_reads s name → plain_name name →
     name ∈ buildPreinstalledKnownVars m).

Definition well_surfaced_target (t : Target) : Prop :=
  ∀ n l s, (n, l) ∈ runUIGroups t → s ∈ steps_of l → well_surfaced n s.

Lemma run_ui_nil key t :
  concat (map (λ g, checkRunUIGroup key g.1 g.2) (runUIGroups t)) = [] ↔ well_surfaced_target t.
Proof.
  unfold runUIGroups, well_surfaced_target. apply (groups_nil (checkRunUIGroup key) well_surfaced).
  intros n l. unfold checkRunUIGroup. apply each_nil_elem. intros i s. apply surface_nil.
Qed.

Definition executes (t : Target) : bool :=
  match Execute (Lifecycle t) with Some _ => true | None => false end.

Lemma ServicePackageRule_nil ts :
  ServicePackageRule ts = [] ↔ ∀ p q, p ∈ ts → q ∈ ts → executes p.2 = executes q.2.
Proof.
  unfold ServicePackageRule. cbv zeta. fold (executes). rewrite unless_nil, negb_true_iff. split.
  - intros H p q Hp Hq. apply andb_false_iff in H. rewrite <- !not_true_iff_false, !existsb_exists in H.
    destruct (executes p.2) eqn:Ep, (executes q.2) eqn:Eq; try done; exfalso; destruct H as [H|H]; apply H.
    + exists p. split; [by apply list_elem_of_In|exact Ep].
    + exists q. split; [by apply list_elem_of_In|]. unfold executes in Eq. by rewrite Eq.
    + exists q. split; [by apply list_elem_of_In|exact Eq].
    + exists p. split; [by apply list_elem_of_In|]. unfold executes in Ep. by rewrite Ep.
  - intros H. apply not_true_iff_false. intros [H1 H2]%andb_true_iff.
    apply existsb_exists in H1 as (p & Hp%list_elem_of_In & Ep). apply existsb_exists in H2 as (q & Hq%list_elem_of_In & Eq).
    specialize (H p q Hp Hq). unfold executes in H. rewrite Ep in H. by rewrite <- H in Eq.
Qed.

Lemma target_rules_nil key t :
  well_formed_target t ↔
  checkTargetToolServiceOverlap key t = [] ∧ checkTargetExportStaticValues key t = [] ∧
  checkLifecyclePairs key t = [] ∧ checkServiceConsumerLifecycle key t = [] ∧ checkTimeoutFormat key t = [] ∧
  checkMethodStates key t = [] ∧ checkNoDepsSteps key t = [] ∧ checkPortableNames key t = [].
Proof.
  rewrite overlap_nil, exports_nil, pairs_nil, consumer_nil, timeouts_nil, states_nil, no_dependencies_nil, portable_nil.
  unfold well_formed_target. cbv zeta. tauto.
Qed.

(** A compiled manifest is accepted exactly when it has a target, every reference of
    its steps is known, all of its targets are services or none, and each of them is well
    formed: its pairs of lifecycle steps are complete, its tools and services differ, its
    exports are plain, its timeouts, names, interfaces and exposed entries are what they
    may be, and its methods are for states in which one may be called. *)
Lemma compiled_accepted_exactly m ts :
  ValidateCompiled m ts = [] ↔
  ts ≠ [] ∧ (∀ p q, p ∈ ts → q ∈ ts → executes p.2 = executes q.2) ∧
  ∀ os t, (os, t) ∈ ts → references_known m t ∧ well_formed_target t ∧ well_exposed os t ∧ well_surfaced_target t.
Proof.
  unfold ValidateCompiled, AllCompiled. cbn [map concat].
  rewrite !app_nil, !each_target_nil, VariableRefsRule_nil, ServicePackageRule_nil, unless_nil, concat_nil.
  split.
  - intros [(H1 & H2 & H3 & H4 & H5 & H6 & H7 & H8 & H9 & H10 & H11 & H12 & _) Hn]. split_and!; [by destruct ts|done|].
    intros os t Ht. split_and!; [by apply H3 in Ht| | |].
    + apply (target_rules_nil (os_string os)). split_and!; eauto.
    + apply expose_nil. by apply (H11 (os, t)).
    + apply (run_ui_nil (os_string os)). by apply H10.
  - intros (Hn & Hk & H). split; [|by destruct ts].
    assert (∀ os t, (os, t) ∈ ts → well_formed_target t) as Hw by (intros os t Ht; by apply H in Ht as (_ & ? & _)).
    split_and!; try done; try (intros os t Ht%Hw%(target_rules_nil (os_string os)); tauto).
    + intros os t Ht. by apply H in Ht as (? & _).
    + intros os t Ht. apply run_ui_nil. by apply H in Ht as (_ & _ & _ & ?).
    + intros [os t] Ht. apply expose_nil. by apply H in Ht as (_ & _ & ? & _).
Qed.
