(* ===== verification/Unpack.v ===== *)
(** * Unpacking an archive into one directory (internal/engine/wizard/internal/workfs and
    internal/engine/wizard/internal/unpack: guard, archive)

    The guard every entry of an archive goes through: the names it may have, how much of
    it is written, and where its links lead ([Guard] and its operations), and the two
    formats whose entries it vets one after the other ([extractTar], [extractZip]).  An
    operation threads the guard and is a program of calls on the directory it holds open
    ([Root...]), on the reader of the archive and on the file system.  The host is a Unix
    one; the rules of other hosts on names are a value it may be given. *)

From S2P Require Import Prelude Errors GoStrings GoFilepath Prog Ruleset.

(** ** workfs.go *)

Definition RelInside (rel : string) : bool := negb (String.eqb rel ".." || String.prefix "../" rel).

Definition Inside (dir path : string) : bool :=
  match Rel dir path with Some rel => RelInside rel | None => false end.

Definition Relocate (path from to : string) : string :=
  if is_empty path then path
  else
    match Rel from path with
    | Some rel => if RelInside rel then Join [to; rel] else path
    | None => path
    end.

(** ** names.go *)

Definition windowsInvalidChars : string := "<>:" +:+ String "034" "|?*".

Definition IsAbsolute (path : string) : bool := String.prefix "/" path || String.prefix "\" path || IsAbs path.

(** [unicode.IsControl]: below a space, DEL, and U+0080 to U+009F, whose first byte in
    UTF-8 is 0xC2 *)
Fixpoint has_control (part : string) : bool :=
  match part with
  | "" => false
  | String c part' =>
    (N_of_ascii c <? 32)%N || (N_of_ascii c =? 127)%N ||
    match part' with
    | String d _ => (N_of_ascii c =? 194)%N && (128 <=? N_of_ascii d)%N && (N_of_ascii d <=? 159)%N
    | "" => false
    end || has_control part'
  end.

Definition reservedOnWindows (part : string) : bool :=
  IsWindowsReservedName part || has_suffix part "." || has_suffix part " " ||
  exists_byte (λ c, contains_byte c windowsInvalidChars) part || has_control part.

Definition windowsSafe (parts : list string) : bool := forallb (λ p, negb (reservedOnWindows p)) parts.

(** [strings.FieldsFunc] at the separators of both kinds *)
Fixpoint path_fields (s : string) : list string :=
  match s with
  | "" => []
  | String c s' =>
    if is_slash c then path_fields s'
    else
      match s' with
      | "" => [String c ""]
      | String d _ =>
        if is_slash d then String c "" :: path_fields s'
        else match path_fields s' with p :: ps => String c p :: ps | [] => [String c ""] end
      end
  end.

Definition cleanName (name : string) : result error string :=
  if IsAbsolute name then Err [ErrEscape]
  else
    let cleaned := Clean name in
    if RelInside cleaned then Ok cleaned else Err [ErrEscape].

Definition entryName (name : string) : result error string :=
  let? cleaned := cleanName name in
  if String.eqb cleaned "." then Err [] else Ok cleaned.

(** ** guard.go *)

Record HostRules := mkHostRules { WindowsNames : bool; FoldCase : bool; TypedLinks : bool }.

Definition hostRules (goos : string) : HostRules :=
  if String.eqb goos "windows" then mkHostRules true true true
  else if String.eqb goos "darwin" then mkHostRules false true false
  else mkHostRules false false false.

Definition copyChunk : Z := 1048576.
Definition maxEntriesLimit : Z := 1000000.

(** [written] and [maxBytes] are 64 bits wide; [untyped] is of names and targets. *)
Record Guard := mkGuard {
  dest : string;
  maxBytes : Z;
  written : Z;
  maxEntries : Z;
  entries : Z;
  links : list string;
  tops : gset string;
  skipEscaping : bool;
  rules : HostRules;
  seen : gmap string string;
  untyped : list (string * string);
}.

Definition set_written (g : Guard) (n : Z) : Guard :=
  mkGuard (dest g) (maxBytes g) n (maxEntries g) (entries g) (links g) (tops g) (skipEscaping g) (rules g) (seen g) (untyped g).
Definition set_entries (g : Guard) (n : Z) : Guard :=
  mkGuard (dest g) (maxBytes g) (written g) (maxEntries g) n (links g) (tops g) (skipEscaping g) (rules g) (seen g) (untyped g).
Definition set_links (g : Guard) (l : list string) : Guard :=
  mkGuard (dest g) (maxBytes g) (written g) (maxEntries g) (entries g) l (tops g) (skipEscaping g) (rules g) (seen g) (untyped g).
Definition set_tops (g : Guard) (t : gset string) : Guard :=
  mkGuard (dest g) (maxBytes g) (written g) (maxEntries g) (entries g) (links g) t (skipEscaping g) (rules g) (seen g) (untyped g).
Definition set_seen (g : Guard) (m : gmap string string) : Guard :=
  mkGuard (dest g) (maxBytes g) (written g) (maxEntries g) (entries g) (links g) (tops g) (skipEscaping g) (rules g) m (untyped g).
Definition set_untyped (g : Guard) (l : list (string * string)) : Guard :=
  mkGuard (dest g) (maxBytes g) (written g) (maxEntries g) (entries g) (links g) (tops g) (skipEscaping g) (rules g) (seen g) l.

(** The guard [guard_Open] makes of the resolved destination *)
Definition newGuard (resolved : string) (maxBytes : Z) (r : HostRules) (skip : bool) : Guard :=
  mkGuard resolved maxBytes 0 maxEntriesLimit 0 [] ∅ skip r ∅ [].

(** ** What an operation calls *)

(** What the file system says of a path: whether there is something and it is a link
    ([os.Lstat]), where a link leads ([os.Readlink]), and what a path resolves to
    ([filepath.EvalSymlinks]) *)
Inductive eval_error := NotThere | OtherFailure.

Record tree := mkTree {
  Lstat : string → option bool;
  Readlink : string → option string;
  EvalSymlinks : string → result eval_error string;
}.

(** How [io.CopyN] ends, short of what it was asked for *)
Inductive read_end := ReadEOF | ReadFailed.

Inductive call :=
| CtxErr
| MkdirDest (dest : string)
| EvalDest (dest : string)
| OpenRoot (dest : string)
| Tree
| RootRemove (name : string)
| RootMkdirAll (name : string)
| RootCreate (name : string)
| RootChmod (name : string)
| RootSymlink (target name : string)
| RootLink (source name : string)
| RootLstat (name : string)
| RootIsDir (name : string)
| RootReadlink (name : string)
| CopyN (n : Z)
| CloseFile
| OpenEntry (name : string)
| ReadTarget
| CloseEntry
| LstatKind (path : string)
| ReadDir (path : string).

Inductive file_kind := Directory | Regular | OtherKind.

(** [RootLstat] says whether what is there is a link, [RootIsDir] whether it leads to a
    directory, [ReadDir] names and whether each is a directory. *)
Definition answer (c : call) : Type :=
  match c with
  | CtxErr => option error
  | Tree => tree
  | CopyN _ => Z * option read_end
  | EvalDest _ | RootReadlink _ | ReadTarget => result error string
  | RootLstat _ | RootIsDir _ => result error bool
  | LstatKind _ => option file_kind
  | ReadDir _ => option (list (string * bool))
  | _ => result error unit
  end.

Abbreviation P := (prog answer).

(** ** Operations on the guard *)

Inductive stop := Failed (e : error) | OutOfFuel.

(** What it returns, and the guard it leaves *)
Definition op (A : Type) : Type := Guard → P (result stop A * Guard).

#[export] Instance op_ret : MRet op := λ A a g, mret (Ok a, g).
#[export] Instance op_bind : MBind op := λ A B f m g,
  '(r, g') ← m g;
  match r with Ok a => f a g' | Err s => mret (Err s, g') end.

Definition throw {A} (s : stop) : op A := λ g, mret (Err s, g).
Definition of_result {A} (r : result error A) : op A :=
  match r with Ok a => mret a | Err e => throw (Failed e) end.
Definition get : op Guard := λ g, mret (Ok g, g).
Definition modify (f : Guard → Guard) : op unit := λ g, mret (Ok (), f g).
Definition asking {A} (p : P A) : op A := λ g, a ← p; mret (Ok a, g).
Definition trying {A} (p : P (result error A)) : op A := r ← asking p; of_result r.

(** The error of an operation as a value *)
Definition catch {A} (m : op A) : op (result error A) := λ g,
  '(r, g') ← m g;
  mret (match r with
        | Ok a => Ok (Ok a)
        | Err (Failed e) => Ok (Err e)
        | Err OutOfFuel => Err OutOfFuel
        end, g').

(** [errors.Join] *)
Definition join_errors {A B} (r : result error A) (r' : result error B) : result error unit :=
  match r, r' with
  | Ok _, Ok _ => Ok ()
  | Err e, Ok _ | Ok _, Err e => Err e
  | Err e, Err e' => Err (e ++ e')
  end.

Abbreviation unit_call c := (ask c : P (result error unit)).

(** *** Admitting a name *)

(** Prefix after prefix, each claimed under its lower case; the claims made before one
    that collides stay. *)
Fixpoint claimFolded (prefix : string) (parts : list string) (m : gmap string string) : option error * gmap string string :=
  match parts with
  | [] => (None, m)
  | part :: parts' =>
    let prefix := Join [prefix; part] in
    let key := to_lower prefix in
    let taken := match m !! key with Some s => negb (String.eqb s prefix) | None => false end in
    if taken then (Some [ErrNameCollision], m) else claimFolded prefix parts' (<[key := prefix]> m)
  end.

Definition admitName (cleaned : string) : op unit :=
  g ← get;
  let parts := path_fields cleaned in
  if WindowsNames (rules g) && negb (windowsSafe parts) then throw (Failed [ErrReservedName])
  else if negb (FoldCase (rules g)) then mret ()
  else
    let '(collision, m) := claimFolded "" parts (seen g) in
    _ ← modify (λ g, set_seen g m);
    match collision with Some e => throw (Failed e) | None => mret () end.

Definition Guard_admit (cleaned : string) : op unit :=
  _ ← admitName cleaned;
  _ ← modify (λ g, set_entries g (entries g + 1));
  g ← get;
  if Z.ltb (maxEntries g) (entries g) then throw (Failed [ErrTooMany]) else mret ().

Definition Guard_entry (name : string) : op string :=
  cleaned ← of_result (entryName name);
  _ ← Guard_admit cleaned;
  mret cleaned.

Definition recordTop (cleaned : string) : op unit :=
  modify (λ g, set_tops g ({[ match cut_byte "/" cleaned with Some (top, _) => top | None => cleaned end ]} ∪ tops g)).

Definition TopLevel (g : Guard) : list string := sort_func String.compare (elements (tops g)).

Definition Guard_place (cleaned : string) : op unit :=
  _ ← asking (unit_call (RootRemove cleaned));
  let parent := Dir cleaned in
  if String.eqb parent "." then mret () else trying (unit_call (RootMkdirAll parent)).

(** *** Contents *)

Definition wrap64 (z : Z) : Z := (z + 2 ^ 63) mod 2 ^ 64 - 2 ^ 63.

Definition copy_request (g : Guard) : Z := Z.min copyChunk (wrap64 (wrap64 (maxBytes g - written g) + 1)).

Fixpoint Copy (fuel : nat) : op unit :=
  match fuel with
  | O => throw OutOfFuel
  | S fuel =>
    cancelled ← asking (ask CtxErr : P (option error));
    match cancelled with
    | Some e => throw (Failed e)
    | None =>
      g ← get;
      '(n, short) ← asking (ask (CopyN (copy_request g)) : P (Z * option read_end));
      _ ← modify (λ g, set_written g (wrap64 (written g + n)));
      g ← get;
      if Z.ltb (maxBytes g) (written g) then throw (Failed [ErrTooLarge])
      else
        match short with
        | Some ReadEOF => mret ()
        | Some ReadFailed => throw (Failed [])
        | None => Copy fuel
        end
    end
  end.

Definition Guard_Dir (name : string) : op unit :=
  cleaned ← of_result (cleanName name);
  if String.eqb cleaned "." then mret ()
  else
    _ ← Guard_admit cleaned;
    _ ← trying (unit_call (RootMkdirAll cleaned));
    recordTop cleaned.

Definition Guard_File (fuel : nat) (name : string) : op unit :=
  cleaned ← Guard_entry name;
  _ ← Guard_place cleaned;
  _ ← trying (unit_call (RootCreate cleaned));
  copied ← catch (Copy fuel);
  closed ← asking (unit_call CloseFile);
  match join_errors copied closed with
  | Err e => _ ← asking (unit_call (RootRemove cleaned)); throw (Failed e)
  | Ok _ =>
    _ ← trying (unit_call (RootChmod cleaned));
    recordTop cleaned
  end.

(** ** links.go *)

Definition maxLinkHops : nat := 40.

Definition checkLinkTarget (cleaned target : string) : result error unit :=
  if is_empty target then Err []
  else if IsAbsolute target || negb (RelInside (Join [Dir cleaned; target])) then Err [ErrEscape]
  else Ok ().

Definition tolerateEscape (g : Guard) (e : error) : result error unit :=
  if skipEscaping g && errors_Is e ErrEscape then Ok () else Err e.

Definition linkTarget (name target : string) : string := Join [Dir name; target].

(** The first parent that resolves, with what is missing below it; a path has no more
    parents than bytes. *)
Fixpoint resolveExisting (fuel : nat) (t : tree) (missing path : string) : result stop string :=
  match fuel with
  | O => Err OutOfFuel
  | S fuel =>
    match EvalSymlinks t path with
    | Ok resolved => Ok (Join [resolved; missing])
    | Err OtherFailure => Err (Failed [])
    | Err NotThere => resolveExisting fuel t (Join [Base path; missing]) (Dir path)
    end
  end.

Definition physical (t : tree) (g : Guard) (cleaned target : string) : result stop string :=
  let path := Join [dest g; Dir cleaned] in
  let? parent := resolveExisting (S (String.length path)) t "" path in
  let physical := Join [parent; Base cleaned] in
  if negb (Inside (dest g) physical) || negb (Inside (dest g) (Join [parent; target]))
  then Err (Failed [ErrEscape]) else Ok physical.

Definition trackUntyped (name target : string) : op unit :=
  g ← get;
  if negb (TypedLinks (rules g)) then mret ()
  else
    there ← asking (ask (RootIsDir (linkTarget name target)) : P (result error bool));
    match there with
    | Ok _ => mret ()
    | Err _ => modify (λ g, set_untyped g (untyped g ++ [(name, target)]))
    end.

Definition Guard_Symlink (name target : string) : op unit :=
  cleaned ← Guard_entry name;
  g ← get;
  match checkLinkTarget cleaned target with
  | Err e => of_result (tolerateEscape g e)
  | Ok _ =>
    t ← asking (ask Tree : P tree);
    match physical t g cleaned target with
    | Err OutOfFuel => throw OutOfFuel
    | Err (Failed e) => of_result (tolerateEscape g e)
    | Ok physical =>
      _ ← Guard_place cleaned;
      _ ← trying (unit_call (RootSymlink target cleaned));
      _ ← modify (λ g, set_links g (links g ++ [physical]));
      _ ← trackUntyped cleaned target;
      recordTop cleaned
    end
  end.

Definition rejectSymlink (source : string) : op unit :=
  is_link ← trying (ask (RootLstat source) : P (result error bool));
  if is_link : bool then throw (Failed []) else mret ().

Definition Guard_Hardlink (name target : string) : op unit :=
  cleaned ← Guard_entry name;
  source ← of_result (cleanName target);
  if String.eqb source "." then throw (Failed [])
  else
    _ ← rejectSymlink source;
    _ ← Guard_place cleaned;
    _ ← trying (unit_call (RootLink source cleaned));
    recordTop cleaned.

(** *** Following a link the way the kernel does *)

Section resolver.
Context (t : tree) (dest : string).

Definition contain (path : string) (complete : bool) : result error (string * bool) :=
  if Inside dest path then Ok (path, complete) else Err [ErrEscape].

(** Where a path leads and whether all of it was there; and the links left to follow *)
Definition outcome : Type := result error (string * bool) * nat.

(** Component after component; [inner] follows a link found on the way. *)
Fixpoint walk (inner : option (nat → string → string → outcome)) (cur : string) (parts : list string) (hops : nat) : outcome :=
  match parts with
  | [] => (Ok (cur, true), hops)
  | part :: rest =>
    if is_empty part || String.eqb part "." then walk inner cur rest hops
    else if String.eqb part ".." then
      match contain (Dir cur) true with
      | Ok (next, _) => walk inner next rest hops
      | Err e => (Err e, hops)
      end
    else
      let next := Join [cur; part] in
      match Lstat t next with
      | None => (contain (Join (next :: rest)) false, hops)
      | Some false => walk inner next rest hops
      | Some true =>
        match hops, inner with
        | S hops', Some resolve =>
          match Readlink t next with
          | None => (Err [], hops')
          | Some target' =>
            match resolve hops' cur target' with
            | (Ok (next', true), hops'') => walk inner next' rest hops''
            | (Ok (next', false), hops'') => (contain (Join (next' :: rest)) false, hops'')
            | (Err e, hops'') => (Err e, hops'')
            end
          end
        | _, _ => (Err [ErrEscape], hops)
        end
      end
  end.

(** [hops] counts over the whole resolution; [depth] is how deep one link may lead into
    another, not one deeper than there are hops. *)
Fixpoint resolve (depth : nat) : nat → string → string → outcome := λ hops dir target,
  if IsAbsolute target then (Err [ErrEscape], hops)
  else walk (match depth with O => None | S depth' => Some (resolve depth') end) dir (split_byte "/" target) hops.
End resolver.

Definition verifyLink (g : Guard) (link : string) : P (result error unit) :=
  t ← (ask Tree : P tree);
  match Readlink t link with
  | None => mret (Ok ())
  | Some target =>
    match (resolve t (dest g) maxLinkHops maxLinkHops (Dir link) target).1 with
    | Ok _ => mret (Ok ())
    | Err e =>
      _ ← unit_call (RootRemove (default "" (Rel (dest g) link)));
      mret (tolerateEscape g e)
    end
  end.

Definition retype (link : string * string) : P (result error unit) :=
  let '(name, target) := link in
  current ← (ask (RootReadlink name) : P (result error string));
  match current with
  | Err _ => mret (Ok ())
  | Ok current =>
    if negb (String.eqb current target) then mret (Ok ())
    else
      is_dir ← (ask (RootIsDir (linkTarget name target)) : P (result error bool));
      match is_dir with
      | Ok true =>
        _ ←? unit_call (RootRemove name);
        unit_call (RootSymlink target name)
      | _ => mret (Ok ())
      end
  end.

Fixpoint join_each {A} (f : A → P (result error unit)) (l : list A) : P (result error unit) :=
  match l with
  | [] => mret (Ok ())
  | x :: l' =>
    r ← f x;
    rs ← join_each f l';
    mret (join_errors r rs)
  end.

Definition Verify (g : Guard) : P (result error unit) :=
  typed ← join_each retype (untyped g);
  verified ← join_each (verifyLink g) (links g);
  mret (join_errors typed verified).

(** ** archive: extract.go and archive.go *)

Inductive Typeflag := TypeDir | TypeReg | TypeSymlink | TypeLink | OtherType.

Record Header := mkHeader { Typeflag_ : Typeflag; hName : string; Linkname : string }.

Definition tar_entry (fuel : nat) (h : Header) : op unit :=
  match Typeflag_ h with
  | TypeDir => Guard_Dir (hName h)
  | TypeReg => Guard_File fuel (hName h)
  | TypeSymlink => Guard_Symlink (hName h) (Linkname h)
  | TypeLink => Guard_Hardlink (hName h) (Linkname h)
  | OtherType => Copy fuel
  end.

Definition check_ctx : op unit :=
  cancelled ← asking (ask CtxErr : P (option error));
  match cancelled with Some e => throw (Failed e) | None => mret () end.

(** The headers the reader yields, and the error it ends with when that is not [io.EOF] *)
Fixpoint extractTar (fuel : nat) (headers : list Header) (last : option error) : op unit :=
  _ ← check_ctx;
  match headers with
  | [] => match last with None => mret () | Some e => throw (Failed e) end
  | h :: headers' =>
    _ ← tar_entry fuel h;
    extractTar fuel headers' last
  end.

Record zip_file := mkZipFile { zName : string; zIsDir : bool; zIsSymlink : bool }.

Definition zipSymlink (name : string) : op unit :=
  target ← trying (ask ReadTarget : P (result error string));
  Guard_Symlink name target.

Definition zipEntry (fuel : nat) (f : zip_file) : op unit :=
  _ ← check_ctx;
  if zIsDir f then Guard_Dir (zName f)
  else
    _ ← trying (unit_call (OpenEntry (zName f)));
    r ← catch (if zIsSymlink f then zipSymlink (zName f) else Guard_File fuel (zName f));
    _ ← asking (unit_call CloseEntry);
    of_result r.

Fixpoint extractZip (fuel : nat) (files : list zip_file) : op unit :=
  match files with
  | [] => mret ()
  | f :: files' =>
    _ ← zipEntry fuel f;
    extractZip fuel files'
  end.

Definition singleName (path : string) : string :=
  let base := Base path in
  trim_suffix base (Ext base).

(** What the readers make of the bytes of an archive: the files a zip lists, or the
    headers of a tar below its codec, or one file *)
Inductive contents :=
| ZipContents (files : result error (list zip_file))
| TarContents (opened : result error (list Header * option error))
| SingleContents (opened : result error unit).

Definition extract (fuel : nat) (src singleFile : string) (c : contents) : op unit :=
  match c with
  | ZipContents files => files ← of_result files; extractZip fuel files
  | TarContents opened => '(headers, last) ← of_result opened; extractTar fuel headers last
  | SingleContents opened =>
    _ ← of_result opened;
    Guard_File fuel (if is_empty singleFile then singleName src else singleFile)
  end.

(** *** The format of an archive, by its name or by its first bytes *)

Inductive layout := layoutTar | layoutZip | layoutSingle.
Inductive codec := codecNone | codecGzip | codecXz | codecBzip2 | codecZstd.

Definition suffixTable : list (string * (layout * codec)) :=
  [(".tar.gz", (layoutTar, codecGzip)); (".tgz", (layoutTar, codecGzip)); (".tar.xz", (layoutTar, codecXz));
   (".txz", (layoutTar, codecXz)); (".tar.bz2", (layoutTar, codecBzip2)); (".tbz", (layoutTar, codecBzip2));
   (".tbz2", (layoutTar, codecBzip2)); (".tar.zst", (layoutTar, codecZstd)); (".tar", (layoutTar, codecNone));
   (".zip", (layoutZip, codecNone)); (".gz", (layoutSingle, codecGzip)); (".xz", (layoutSingle, codecXz));
   (".bz2", (layoutSingle, codecBzip2)); (".zst", (layoutSingle, codecZstd))].

Definition fromSuffix (path : string) : option (layout * codec) :=
  snd <$> find (λ '(suffix, _), has_suffix (to_lower (Base path)) suffix) suffixTable.

Definition bytes (l : list N) : string := String.string_of_list_ascii (map ascii_of_N l).

Definition codecFromMagic (head : string) : codec :=
  if String.prefix (bytes [31; 139]%N) head then codecGzip
  else if String.prefix (bytes [253; 55; 122; 88; 90; 0]%N) head then codecXz
  else if String.prefix "BZh" head then codecBzip2
  else if String.prefix (bytes [40; 181; 47; 253]%N) head then codecZstd
  else codecNone.

Definition isTarHeader (head : string) : bool := String.eqb (String.substring 257 5 head) "ustar".

(** [head c] is the first 512 bytes the source has below the codec [c]. *)
Definition fromMagic (head : codec → result error string) : result error (layout * codec) :=
  let? raw := head codecNone in
  if String.prefix ("PK" +:+ bytes [3; 4]%N) raw || String.prefix ("PK" +:+ bytes [5; 6]%N) raw
  then Ok (layoutZip, codecNone)
  else
    match codecFromMagic raw with
    | codecNone => if isTarHeader raw then Ok (layoutTar, codecNone) else Err [ErrUnknownFormat]
    | c =>
      let? inner := head c in
      Ok (if isTarHeader inner then layoutTar else layoutSingle, c)
    end.

Definition detect (path : string) (head : codec → result error string) : result error (layout * codec) :=
  match fromSuffix path with Some a => Ok a | None => fromMagic head end.

(** ** The applications an unpacked directory holds: tree.go *)

Record App := mkApp { aName : string; aEntry : string }.

Definition ResourceForkDir : string := "__MACOSX".

(** The name without its suffix, when it has one and is longer *)
Definition cut_suffix_fold (name suffix : string) : option string :=
  let n := (String.length name - String.length suffix)%nat in
  if (String.length suffix <? String.length name)%nat &&
     equal_fold (String.substring n (String.length suffix) name) suffix
  then Some (String.substring 0 n name) else None.

Definition isKind (path : string) (dir : bool) : P bool :=
  kind ← (ask (LstatKind path) : P (option file_kind));
  mret (match kind with
        | Some Directory => dir
        | Some Regular => negb dir
        | _ => false
        end).

Definition nestedApps (suffix wrapper : string) : P (list App) :=
  kind ← (ask (LstatKind wrapper) : P (option file_kind));
  match kind with
  | Some Directory =>
    listed ← (ask (ReadDir wrapper) : P (option (list (string * bool))));
    mret (omap (λ '(name, is_dir), if is_dir : bool then (λ n, mkApp n (Join [wrapper; name])) <$> cut_suffix_fold name suffix else None)
      (default [] listed))
  | _ => mret []
  end.

(** The applications at the top, and the other names *)
Fixpoint split_apps (dir suffix : string) (dirs : bool) (names : list string) : P (list App * list string) :=
  match names with
  | [] => mret ([], [])
  | name :: names' =>
    if String.eqb name ResourceForkDir then split_apps dir suffix dirs names'
    else
      let entry := Join [dir; name] in
      is_app ← match cut_suffix_fold name suffix with
               | Some _ => isKind entry dirs
               | None => mret false
               end;
      '(apps, wrappers) ← split_apps dir suffix dirs names';
      mret (match cut_suffix_fold name suffix, is_app : bool with
            | Some n, true => (mkApp n entry :: apps, wrappers)
            | _, _ => (apps, entry :: wrappers)
            end)
  end.

Fixpoint concat_each {A B} (f : A → P (list B)) (l : list A) : P (list B) :=
  match l with
  | [] => mret []
  | x :: l' => ys ← f x; zs ← concat_each f l'; mret (ys ++ zs)
  end.

Definition Apps (g : Guard) (dir suffix : string) (dirs : bool) : P (list App) :=
  '(apps, wrappers) ← split_apps dir suffix dirs (TopLevel g);
  if negb dirs then mret apps
  else
    nested ← concat_each (nestedApps suffix) wrappers;
    mret (apps ++ nested).

(** ** The whole of it *)

Definition guard_Open (destination : string) (maxBytes : Z) (r : HostRules) (skip : bool) : P (result error Guard) :=
  _ ←? unit_call (MkdirDest destination);
  resolved ←? (ask (EvalDest destination) : P (result error string));
  _ ←? unit_call (OpenRoot resolved);
  mret (Ok (newGuard resolved maxBytes r skip)).

Definition bundleSuffix : string := ".app".

Definition Unpack (fuel : nat) (src dir name : string) (maxBytes : Z) (r : HostRules) (c : contents)
  : P (result stop (list App)) :=
  opened ← guard_Open dir maxBytes r false;
  match opened with
  | Err e => mret (Err (Failed e))
  | Ok g =>
    '(extracted, g) ← extract fuel src name c g;
    match extracted with
    | Err OutOfFuel => mret (Err OutOfFuel)
    | Ok _ | Err (Failed _) =>
      verified ← Verify g;
      match join_errors (match extracted with Err (Failed e) => Err e | _ => Ok () end) verified with
      | Err e => mret (Err (Failed e))
      | Ok _ => apps ← Apps g dir bundleSuffix true; mret (Ok apps)
      end
    end
  end.

(** ** Paths below a directory *)

Lemma prefix_iff p s : String.prefix p s = true ↔ ∃ r, s = (p +:+ r)%string.
Proof.
  revert s. induction p as [|c p IH]; intros s.
  - destruct s; (split; [intros _; eexists; reflexivity|done]).
  - destruct s as [|d s]; [split; [done|by intros [r Hr]]|]. cbn [String.prefix].
    destruct (ascii_dec c d) as [->|Hc].
    + rewrite IH. split; intros [r Hr]; exists r; [by subst|by injection Hr].
    + split; [done|]. intros [r Hr]. by injection Hr as ->.
Qed.

Lemma RelInside_split s : RelInside s = negb (bool_decide (head (split_byte "/" s) = Some "..")).
Proof.
  unfold RelInside. f_equal. apply eq_true_iff_eq. rewrite orb_true_iff, String.eqb_eq, prefix_iff, bool_decide_eq_true.
  split.
  - intros [->|[r ->]]; done.
  - intros Hh. rewrite <- (join_split "/" s). destruct (split_byte "/" s) as [|p ps]; [done|].
    injection Hh as ->. destruct ps as [|q ps]; [by left|right]. exists (join "/" (q :: ps)). apply join_cons.
Qed.

Lemma RelInside_join parts :
  Forall (λ p, contains_byte Separator p = false) parts →
  RelInside (join "/" parts) = negb (bool_decide (head parts = Some "..")).
Proof.
  intros Hp. destruct parts as [|p parts]; [done|]. rewrite RelInside_split.
  change "/" with (String Separator ""). by rewrite split_join.
Qed.

Lemma IsAbs_app p s : p ≠ "" → IsAbs (p +:+ s) = IsAbs p.
Proof.
  destruct p as [|c p]; [done|]. intros _. unfold IsAbs, Separator. cbn [String.append String.prefix].
  destruct (ascii_dec _ c); [|done]. by destruct p, s.
Qed.

(** The name of something below a directory *)
Definition below (name : string) : Prop := ∃ parts, parts ≠ [] ∧ Forall normal parts ∧ name = join "/" parts.
Definition at_or_below (name : string) : Prop := name = "." ∨ below name.

Lemma at_or_below_join parts : Forall normal parts → at_or_below (if String.eqb (join "/" parts) "" then "." else join "/" parts).
Proof.
  intros Hp. destruct (String.eqb_spec (join "/" parts) "") as [|Hn]; [by left|]. right.
  exists parts. split_and!; [by intros ->|done|done].
Qed.

Lemma cleaned_below path : IsAbs path = false → RelInside (Clean path) = true → at_or_below (Clean path).
Proof.
  unfold Clean. intros ->. destruct (clean_parts_relative path) as (up & down & E & Hu & Hd).
  pose proof (clean_parts_no_sep false path) as Hs. rewrite E in Hs |- *.
  destruct (String.eqb_spec (join "/" (up ++ down)) "") as [|Hne]; [by left|].
  rewrite RelInside_join by done. intros Hi. destruct Hu as [|u up <- _]; [|done]. right.
  exists down. split_and!; [by intros ->|done|done].
Qed.

Lemma entry_below name cleaned : entryName name = Ok cleaned → below cleaned.
Proof.
  unfold entryName, cleanName, IsAbsolute. destruct (_ || _) eqn:Ha; [done|]. apply orb_false_iff in Ha as [_ Ha].
  destruct (RelInside _) eqn:Hr; [|done]. simpl. destruct (String.eqb_spec (Clean name) ".") as [|Hd]; [done|].
  intros [= <-]. by destruct (cleaned_below name Ha Hr).
Qed.

Lemma cleanName_below name cleaned : cleanName name = Ok cleaned → at_or_below cleaned.
Proof.
  unfold cleanName, IsAbsolute. destruct (_ || _) eqn:Ha; [done|]. apply orb_false_iff in Ha as [_ Ha].
  destruct (RelInside _) eqn:Hr; [|done]. intros [= <-]. by apply cleaned_below.
Qed.

Lemma parent_of_below name : below name → Dir name = "." ∨ below (Dir name).
Proof.
  intros (parts & Hn & Hp & ->). induction parts as [|p parts _] using rev_ind; [done|].
  apply Forall_app in Hp as [Hps Hp]. rewrite Dir_relative; [|done|by inversion Hp].
  case_decide; [by left|right; by exists parts].
Qed.

Lemma differing_down base targ up down :
  differing base targ = (up, down) → ∃ shared, base = shared ++ up ∧ targ = shared ++ down.
Proof.
  revert targ. induction base as [|b base IH]; intros targ; [intros [= <- <-]; by exists []|].
  destruct targ as [|t targ]; [intros [= <- <-]; by exists []|]. simpl.
  destruct (String.eqb_spec b t) as [->|Hbt]; [|intros [= <- <-]; by exists []].
  intros (shared & -> & ->)%IH. by exists (t :: shared).
Qed.

(** What comes after something in a cleaned path goes down, if it does not go up. *)
Lemma clean_rest_normal rooted path shared down :
  clean_parts rooted path = shared ++ down → head down ≠ Some ".." → Forall normal down.
Proof.
  destruct rooted.
  - intros E _. assert (Forall normal (clean_parts true path)) as Hp.
    { apply Forall_rev, clean_fold_rooted; [done|]. apply split_byte_no_sep. }
    rewrite E in Hp. by apply Forall_app in Hp as [_ ?].
  - destruct (clean_parts_relative path) as (up & down' & -> & Hu & Hd). revert shared.
    induction Hu as [|u up <- Hu IH]; intros shared E Hh.
    + simpl in E. rewrite E in Hd. by apply Forall_app in Hd as [_ ?].
    + destruct shared as [|s shared]; [simpl in E; by subst down|]. injection E as _ E. by apply (IH shared).
Qed.

Lemma dots_up u up down : RelInside (join "/" (map (λ _ : string, "..") (u :: up) ++ down)) = false.
Proof.
  rewrite RelInside_split. change (map (λ _ : string, "..") (u :: up) ++ down) with (".." :: (map (λ _ : string, "..") up ++ down)).
  destruct (map (λ _ : string, "..") up ++ down) as [|x xs]; [done|]. by rewrite join_cons.
Qed.

Lemma clean_parts_no_dot path : "." ∉ clean_parts false path.
Proof.
  destruct (clean_parts_relative path) as (up & down & -> & Hu & Hd). intros [H|H]%elem_of_app.
  - rewrite Forall_forall in Hu. by specialize (Hu _ H).
  - rewrite Forall_forall in Hd. by destruct (Hd _ H) as (_ & ? & _).
Qed.

Lemma Inside_Rel dir path rel : Rel dir path = Some rel → RelInside rel = true → at_or_below rel.
Proof.
  unfold Rel. destruct (String.eqb_spec (Clean dir) (Clean path)) as [|Hne]; [intros [= <-]; by left|].
  destruct (negb _) eqn:Hab; [done|]. apply negb_false_iff, Bool.eqb_prop in Hab.
  set (targ := match IsAbs dir with true => _ | false => _ end).
  destruct (differing _ targ) as [up down] eqn:Hd. apply differing_down in Hd as (shared & Hb & Ht).
  destruct up as [|u up]; cycle 1.
  { intros Hr Hin. assert (rel = join "/" (map (λ _ : string, "..") (u :: up) ++ down)) as ->.
    { repeat case_match; congruence. } by rewrite dots_up in Hin. }
  intros [= <-] Hin. right. rewrite app_nil_r in Hb. subst shared. simpl map. simpl app.
  assert (targ = clean_parts (IsAbs dir) path ∨ targ = ["."] ∧ clean_parts false path = [] ∧ IsAbs dir = false) as [->|(-> & E & Ea)].
  { subst targ. destruct (IsAbs dir), (clean_parts _ path) eqn:E; auto. }
  - exists down. split_and!; [|eapply clean_rest_normal; [exact Ht|]|done].
    + intros ->. rewrite app_nil_r in Ht. apply Hne. unfold Clean. by rewrite <- Hab, Ht.
    + intros Hh. rewrite RelInside_join, Hh in Hin; [done|].
      pose proof (clean_parts_no_sep (IsAbs dir) path) as Hs. rewrite Ht in Hs. by apply Forall_app in Hs as [_ ?].
  - exfalso. rewrite Ea in *. destruct (clean_parts false dir) as [|p ps] eqn:Ed.
    + apply Hne. unfold Clean. by rewrite <- Hab, Ea, Ed, E.
    + injection Ht as <- Ht. apply (clean_parts_no_dot dir). rewrite Ed. by left.
Qed.

(** ** What an operation names *)

(** Each name handed to the open directory is of something below it; a link leads to a
    relative path that stays below it. *)
Definition safe_link (target name : string) : Prop :=
  below name ∧ IsAbs target = false ∧ at_or_below (Join [Dir name; target]).

Definition safe_call (c : call) : Prop :=
  match c with
  | RootMkdirAll name | RootCreate name | RootChmod name | RootLstat name => below name
  | RootLink source name => below source ∧ below name
  | RootSymlink target name => safe_link target name
  | RootRemove name | RootIsDir name | RootReadlink name => at_or_below name
  | _ => True
  end.

Definition names : protocol answer unit := mkProtocol (λ _, safe_call) (λ _ _ _, ()).

Definition links_inside (d : string) (g : Guard) : Prop :=
  dest g = d ∧ Forall (λ l, Inside d l = true) (links g) ∧ Forall (λ l, safe_link l.2 l.1) (untyped g).

Section keeps.
Context (d : string).
Implicit Types (g : Guard).

Definition keeps {A} (m : op A) (Q : A → Prop) : Prop := ∀ g,
  links_inside d g →
  follows names () (m g) (λ '(r, g') _, links_inside d g' ∧ match r with Ok a => Q a | Err _ => True end).

Lemma keeps_bind {A B} (m : op A) (f : A → op B) Q Q' :
  keeps m Q → (∀ a, Q a → keeps (f a) Q') → keeps (m ≫= f) Q'.
Proof.
  intros Hm Hf g Hg. apply follows_bind. eapply follows_mono; [by apply Hm|].
  intros [[a|s] g'] [] [Hg' Ha]; [by apply Hf|by apply follows_ret].
Qed.

Lemma keeps_ret {A} (a : A) (Q : A → Prop) : Q a → keeps (mret a) Q.
Proof. intros Ha g Hg. by apply follows_ret. Qed.

Lemma keeps_throw {A} s (Q : A → Prop) : keeps (throw s) Q.
Proof. intros g Hg. by apply follows_ret. Qed.

Lemma keeps_result {A} (r : result error A) (Q : A → Prop) : (∀ a, r = Ok a → Q a) → keeps (of_result r) Q.
Proof. destruct r; intros H; [apply keeps_ret; by apply H|apply keeps_throw]. Qed.

Lemma keeps_asking {A} (p : P A) (Q : A → Prop) : follows names () p (λ a _, Q a) → keeps (asking p) Q.
Proof.
  intros Hp g Hg. apply follows_bind. eapply follows_mono; [exact Hp|]. intros a [] Ha. by apply follows_ret.
Qed.

Lemma keeps_trying {A} (p : P (result error A)) (Q : A → Prop) :
  follows names () p (λ r _, ∀ a, r = Ok a → Q a) → keeps (trying p) Q.
Proof. intros Hp. eapply keeps_bind; [apply keeps_asking, Hp|]. intros r Hr. by apply keeps_result. Qed.

Lemma keeps_modify f : (∀ g, links_inside d g → links_inside d (f g)) → keeps (modify f) (λ _, True).
Proof. intros Hf g Hg. split; [by apply Hf|done]. Qed.

Lemma keeps_get : keeps get (links_inside d).
Proof. intros g Hg. split; exact Hg. Qed.

Lemma keeps_catch {A} (m : op A) Q : keeps m Q → keeps (catch m) (λ _, True).
Proof.
  intros Hm g Hg. apply follows_bind. eapply follows_mono; [by apply Hm|].
  intros [[a|[e|]] g'] [] [Hg' _]; by split.
Qed.

Lemma guard_fields_inside f :
  (∀ g, dest (f g) = dest g ∧ links (f g) = links g ∧ untyped (f g) = untyped g) →
  ∀ g, links_inside d g → links_inside d (f g).
Proof. intros Hf g Hg. destruct (Hf g) as (E1 & E2 & E3). unfold links_inside. by rewrite E1, E2, E3. Qed.

Lemma keeps_fields f :
  (∀ g, dest (f g) = dest g ∧ links (f g) = links g ∧ untyped (f g) = untyped g) → keeps (modify f) (λ _, True).
Proof. intros Hf. by apply keeps_modify, guard_fields_inside. Qed.

Lemma admit_keeps cleaned : keeps (Guard_admit cleaned) (λ _, True).
Proof.
  unfold Guard_admit, admitName. eapply (keeps_bind _ _ (λ _, True)).
  - eapply keeps_bind; [apply keeps_get|]. intros g _. destruct (_ && _); [apply keeps_throw|].
    destruct (negb _); [by apply keeps_ret|]. destruct (claimFolded _ _ _) as [collision m].
    eapply keeps_bind; [by apply keeps_fields|]. intros _ _. destruct collision; [apply keeps_throw|by apply keeps_ret].
  - intros _ _. eapply keeps_bind; [by apply keeps_fields|]. intros _ _. eapply keeps_bind; [apply keeps_get|].
    intros g _. destruct (_ <? _)%Z; [apply keeps_throw|by apply keeps_ret].
Qed.

Lemma entry_keeps name : keeps (Guard_entry name) below.
Proof.
  eapply keeps_bind; [apply keeps_result; intros a Ha; exact (entry_below _ _ Ha)|]. intros cleaned Hc.
  eapply keeps_bind; [apply admit_keeps|]. intros _ _. by apply keeps_ret.
Qed.

Lemma place_keeps cleaned : below cleaned → keeps (Guard_place cleaned) (λ _, True).
Proof.
  intros Hb. eapply keeps_bind; [apply (keeps_asking _ (λ _, True)); split; [by right|done]|]. intros _ _. cbv zeta.
  destruct (String.eqb_spec (Dir cleaned) ".") as [|Hd]; [by apply keeps_ret|]. apply keeps_trying.
  split; [|done]. by destruct (parent_of_below _ Hb).
Qed.

Lemma Copy_keeps fuel : keeps (Copy fuel) (λ _, True).
Proof.
  induction fuel as [|fuel IH]; [apply keeps_throw|]. cbn [Copy].
  eapply keeps_bind; [by apply (keeps_asking _ (λ _, True))|]. intros [e|] _; [apply keeps_throw|].
  eapply keeps_bind; [apply keeps_get|]. intros g _.
  eapply keeps_bind; [by apply (keeps_asking _ (λ _, True))|]. intros [n short] _.
  eapply keeps_bind; [by apply keeps_fields|]. intros _ _. eapply keeps_bind; [apply keeps_get|]. intros g' _.
  destruct (_ <? _)%Z; [apply keeps_throw|]. destruct short as [[]|]; [by apply keeps_ret|apply keeps_throw|exact IH].
Qed.

Lemma recordTop_keeps cleaned : keeps (recordTop cleaned) (λ _, True).
Proof. by apply keeps_fields. Qed.

(** The next step of an operation, when what it returns does not matter *)
Ltac keep_step := eapply (keeps_bind _ _ (λ _, True)); [|intros ? _].

Lemma Guard_Dir_keeps name : keeps (Guard_Dir name) (λ _, True).
Proof.
  eapply (keeps_bind _ _ at_or_below); [apply keeps_result, cleanName_below|]. intros cleaned Hc.
  destruct (String.eqb_spec cleaned ".") as [|Hd]; [by apply keeps_ret|]. destruct Hc as [|Hc]; [done|].
  keep_step; [apply admit_keeps|]. keep_step; [by apply keeps_trying|]. apply recordTop_keeps.
Qed.

Lemma Guard_File_keeps fuel name : keeps (Guard_File fuel name) (λ _, True).
Proof.
  eapply keeps_bind; [apply entry_keeps|]. intros cleaned Hc. keep_step; [by apply place_keeps|].
  keep_step; [by apply keeps_trying|]. keep_step; [eapply keeps_catch, Copy_keeps|].
  keep_step; [by apply keeps_asking|]. destruct (join_errors _ _).
  - keep_step; [by apply keeps_trying|]. apply recordTop_keeps.
  - keep_step; [apply keeps_asking; split; [by right|done]|]. apply keeps_throw.
Qed.

Lemma checked_target cleaned target : below cleaned → checkLinkTarget cleaned target = Ok () → safe_link target cleaned.
Proof.
  intros Hc. unfold checkLinkTarget. destruct (is_empty target); [done|].
  destruct (_ || _) eqn:Ht; [done|]. intros _. apply orb_false_iff in Ht as [Ha Hr].
  unfold IsAbsolute in Ha. apply orb_false_iff in Ha as [_ Ha]. apply negb_false_iff in Hr.
  split_and!; [done|done|].
  assert (∀ p, IsAbs p = false → p ≠ "" → Join [p; target] = Clean (p +:+ String "/" target)) as HJ.
  { intros p _ Hp. cbn [Join]. by rewrite (proj2 (String.eqb_neq _ _) Hp). }
  assert (IsAbs (Dir cleaned) = false ∧ Dir cleaned ≠ "") as [Hd Hd'].
  { destruct (parent_of_below _ Hc) as [->|(ps & Hn & Hp & ->)]; [done|]. destruct ps as [|p ps]; [done|].
    inversion Hp; subst. rewrite IsAbs_join by done. split; [done|].
    destruct H1 as (Hp' & _). by destruct p, ps. }
  rewrite HJ in Hr |- * by done. apply cleaned_below; [by rewrite IsAbs_app|done].
Qed.

Lemma physical_inside t g cleaned target p : physical t g cleaned target = Ok p → Inside (dest g) p = true.
Proof.
  unfold physical. destruct (resolveExisting _ _ _ _) as [parent|]; [|done]. cbn [rbind].
  destruct (_ || _) eqn:Hi; [done|]. intros [= <-]. apply orb_false_iff in Hi as [Hi _]. by apply negb_false_iff.
Qed.

Lemma tolerated_keeps g e : keeps (of_result (tolerateEscape g e)) (λ _, True).
Proof. by apply keeps_result. Qed.

Lemma trackUntyped_keeps name target : safe_link target name → keeps (trackUntyped name target) (λ _, True).
Proof.
  intros Hl. eapply keeps_bind; [apply keeps_get|]. intros g _. destruct (negb _); [by apply keeps_ret|].
  keep_step; [apply keeps_asking; split; [by destruct Hl as (_ & _ & ?)|done]|].
  destruct a; [by apply keeps_ret|]. apply keeps_modify. intros g' (Hd & Hi & Hu). split_and!; [done|done|].
  apply Forall_app. by split; [|apply Forall_singleton].
Qed.

Lemma Guard_Symlink_keeps name target : keeps (Guard_Symlink name target) (λ _, True).
Proof.
  eapply keeps_bind; [apply entry_keeps|]. intros cleaned Hc.
  eapply keeps_bind; [apply keeps_get|]. intros g [Hg _].
  destruct (checkLinkTarget cleaned target) as [[]|e] eqn:Ht; [|apply tolerated_keeps].
  apply (checked_target _ _ Hc) in Ht. keep_step; [by apply keeps_asking|].
  destruct (physical a g cleaned target) as [p|[e|]] eqn:Hp; [|apply tolerated_keeps|apply keeps_throw].
  apply physical_inside in Hp. rewrite Hg in Hp. keep_step; [by apply place_keeps|].
  keep_step; [by apply keeps_trying|]. keep_step.
  - apply keeps_modify. intros g' (Hd & Hi & Hu). split_and!; [done| |done].
    apply Forall_app. by split; [|apply Forall_singleton].
  - keep_step; [by apply trackUntyped_keeps|]. apply recordTop_keeps.
Qed.

Lemma Guard_Hardlink_keeps name target : keeps (Guard_Hardlink name target) (λ _, True).
Proof.
  eapply keeps_bind; [apply entry_keeps|]. intros cleaned Hc.
  eapply (keeps_bind _ _ at_or_below); [apply keeps_result, cleanName_below|]. intros source Hs.
  destruct (String.eqb_spec source ".") as [|Hd]; [apply keeps_throw|]. destruct Hs as [|Hs]; [done|].
  keep_step.
  { keep_step; [by apply keeps_trying|]. destruct a; [apply keeps_throw|by apply keeps_ret]. }
  keep_step; [by apply place_keeps|]. keep_step; [by apply keeps_trying|]. apply recordTop_keeps.
Qed.

Lemma check_ctx_keeps : keeps check_ctx (λ _, True).
Proof. keep_step; [by apply keeps_asking|]. destruct a; [apply keeps_throw|by apply keeps_ret]. Qed.

Lemma tar_entry_keeps fuel h : keeps (tar_entry fuel h) (λ _, True).
Proof.
  unfold tar_entry. destruct (Typeflag_ h); auto using Guard_Dir_keeps, Guard_File_keeps, Guard_Symlink_keeps,
    Guard_Hardlink_keeps, Copy_keeps.
Qed.

Lemma extractTar_keeps fuel headers last : keeps (extractTar fuel headers last) (λ _, True).
Proof.
  induction headers as [|h headers IH]; (keep_step; [apply check_ctx_keeps|]).
  - destruct last; [apply keeps_throw|by apply keeps_ret].
  - keep_step; [apply tar_entry_keeps|]. exact IH.
Qed.

Lemma zipEntry_keeps fuel f : keeps (zipEntry fuel f) (λ _, True).
Proof.
  keep_step; [apply check_ctx_keeps|]. destruct (zIsDir f); [apply Guard_Dir_keeps|].
  keep_step; [by apply keeps_trying|]. eapply keeps_bind.
  - eapply (keeps_catch _ (λ _, True)). destruct (zIsSymlink f); [|apply Guard_File_keeps].
    keep_step; [by apply keeps_trying|]. apply Guard_Symlink_keeps.
  - intros r _. keep_step; [by apply keeps_asking|]. by apply keeps_result.
Qed.

Lemma extract_keeps fuel src single c : keeps (extract fuel src single c) (λ _, True).
Proof.
  destruct c as [files|opened|opened]; (keep_step; [by apply keeps_result|]).
  - induction a as [|f a IH]; [by apply keeps_ret|]. keep_step; [apply zipEntry_keeps|]. exact IH.
  - destruct a. apply extractTar_keeps.
  - apply Guard_File_keeps.
Qed.
End keeps.

(** ** Verifying, and the whole of it *)

Abbreviation named p := (follows names () p (λ _ _, True)).

Lemma named_bind {A B} (p : P A) (f : A → P B) : named p → (∀ a, named (f a)) → named (p ≫= f).
Proof. intros Hp Hf. apply follows_bind. eapply follows_mono; [exact Hp|]. intros a [] _. apply Hf. Qed.

Lemma join_each_named {A} (f : A → P (result error unit)) l : Forall (λ x, named (f x)) l → named (join_each f l).
Proof.
  induction 1 as [|x l Hx _ IH]; [done|]. apply named_bind; [done|]. intros r. by apply named_bind.
Qed.

Lemma retype_named name target : safe_link target name → named (retype (name, target)).
Proof.
  intros (Hb & Ha & Ht). apply named_bind; [split; [by right|done]|]. intros [current|]; [|done].
  destruct (negb _); [done|]. apply named_bind; [by split|]. intros [[]|]; [|done|done].
  apply named_bind; [split; [by right|done]|]. intros [|]; done.
Qed.

Lemma verifyLink_named g link : Inside (dest g) link = true → named (verifyLink g link).
Proof.
  unfold Inside. destruct (Rel (dest g) link) as [rel|] eqn:Hr; [|done]. intros Hi.
  apply named_bind; [done|]. intros t. destruct (Readlink t link); [|done].
  destruct (resolve _ _ _ _ _ _).1; [done|]. rewrite Hr. apply named_bind; [|done].
  split; [by eapply Inside_Rel|done].
Qed.

Lemma Verify_named g : links_inside (dest g) g → named (Verify g).
Proof.
  intros (_ & Hl & Hu). apply named_bind; [|intros r; apply named_bind; [|done]]; apply join_each_named.
  - eapply Forall_impl; [exact Hu|]. intros [name target]. apply retype_named.
  - eapply Forall_impl; [exact Hl|]. apply verifyLink_named.
Qed.

Lemma Apps_named g dir suffix dirs : named (Apps g dir suffix dirs).
Proof.
  apply named_bind.
  - induction (TopLevel g) as [|name names IH]; [done|]. cbn [split_apps]. destruct (String.eqb _ _); [done|].
    apply named_bind; [destruct (cut_suffix_fold _ _); [by apply named_bind|done]|]. intros is_app.
    apply named_bind; [exact IH|by intros []].
  - intros [apps wrappers]. destruct (negb dirs); [done|]. apply named_bind; [|done].
    induction wrappers as [|w wrappers IH]; [done|]. apply named_bind; [|intros ?; by apply named_bind].
    apply named_bind; [done|]. intros [[]|]; [by apply named_bind|done..].
Qed.

Lemma named_calls_only {A} (p : P A) Q : follows names () p Q → calls_only safe_call p.
Proof. induction p as [a|c k IH]; intros Hp; [done|]. destruct Hp as [Hc Hk]. split; [done|]. intros r. exact (IH r (Hk r)). Qed.

Lemma Open_new dir maxBytes r skip :
  follows names () (guard_Open dir maxBytes r skip) (λ res _, ∀ g, res = Ok g → links_inside (dest g) g).
Proof.
  split; [done|]. intros [|]; [|done]. split; [done|]. intros [resolved|]; [|done]. split; [done|].
  intros [|]; [|done]. intros g [= <-]. split_and!; [done|apply Forall_nil_2..].
Qed.

(** C28. Whatever an archive lists and whatever the system answers, unpacking it hands the
    directory it holds open only names of things below it, made of plain components: no
    name is absolute, climbs, or is the directory itself where something is made; and a
    link it makes leads to a relative path that stays below it. *)
Theorem entries_stay_inside fuel src dir name maxBytes r c :
  calls_only safe_call (Unpack fuel src dir name maxBytes r c).
Proof.
  eapply (named_calls_only _ (λ _ _, True)). apply follows_bind. eapply follows_mono; [apply Open_new|].
  intros [g|] [] Hg; [|done]. apply follows_bind. eapply follows_mono; [apply (extract_keeps (dest g)); by apply Hg|].
  intros [extracted g'] [] [Hg' _]. assert (links_inside (dest g') g') as Hl by by destruct (Hg') as [-> _].
  destruct extracted as [[]|[e|]]; [| |done]; (apply named_bind; [by apply Verify_named|]); intros verified;
    (destruct (join_errors _ _); [|done]); (apply named_bind; [apply Apps_named|done]).
Qed.
