(* ===== verification/UnpackFacts.v ===== *)
(** * What unpacking an archive keeps to: its budget, and names that fold alike

    Triples for the operations of [Unpack], against a world that counts what is written or
    remembers what is made. *)

From S2P Require Import Prelude Errors GoStrings GoFilepath Prog Ruleset Unpack.

Section triple.
Context {S : Type} (served : S → ∀ c, answer c → S → Prop).
(** What holds of an operation that stops short *)
Context (stops : stop → Guard → S → Prop).

Definition triple {A} (Pre : Guard → S → Prop) (m : op A) (Post : A → Guard → S → Prop) : Prop := ∀ g s,
  Pre g s →
  wlp served s (m g) (λ '(r, g') s', match r with Ok a => Post a g' s' | Err e => stops e g' s' end).

Lemma triple_bind {A B} (m : op A) (f : A → op B) Pre Mid Post :
  triple Pre m Mid → (∀ a, triple (Mid a) (f a) Post) → triple Pre (m ≫= f) Post.
Proof.
  intros Hm Hf g s Hg. apply wlp_bind. eapply wlp_mono; [by apply Hm|].
  intros [[a|e] g'] s' H; [by apply Hf|exact H].
Qed.

Lemma triple_pre {A} (m : op A) (Pre Pre' : Guard → S → Prop) Post :
  (∀ g s, Pre g s → Pre' g s) → triple Pre' m Post → triple Pre m Post.
Proof. intros H Hm g s Hg. by apply Hm, H. Qed.

Lemma triple_post {A} (m : op A) Pre (Post Post' : A → Guard → S → Prop) :
  triple Pre m Post → (∀ a g s, Post a g s → Post' a g s) → triple Pre m Post'.
Proof.
  intros Hm H g s Hg. eapply wlp_mono; [by apply Hm|]. intros [[a|e] g'] s' Hp; [by apply H|exact Hp].
Qed.

Lemma triple_ret {A} (a : A) (Pre : Guard → S → Prop) (Post : A → Guard → S → Prop) :
  (∀ g s, Pre g s → Post a g s) → triple Pre (mret a) Post.
Proof. intros H g s Hg. by apply H. Qed.

Lemma triple_throw {A} e (Pre : Guard → S → Prop) (Post : A → Guard → S → Prop) :
  (∀ g s, Pre g s → stops e g s) → triple Pre (throw e) Post.
Proof. intros H g s Hg. by apply H. Qed.

Lemma triple_result {A} (r : result error A) (Pre : Guard → S → Prop) (Post : A → Guard → S → Prop) :
  (∀ a g s, r = Ok a → Pre g s → Post a g s) → (∀ e g s, Pre g s → stops (Failed e) g s) →
  triple Pre (of_result r) Post.
Proof. intros H1 H2. destruct r; [apply triple_ret; auto|apply triple_throw; auto]. Qed.

Lemma triple_get (Pre : Guard → S → Prop) : triple Pre get (λ a g s, Pre g s ∧ a = g).
Proof. intros g s Hg. by split. Qed.

Lemma triple_modify f (Pre : Guard → S → Prop) (Post : unit → Guard → S → Prop) :
  (∀ g s, Pre g s → Post () (f g) s) → triple Pre (modify f) Post.
Proof. intros H g s Hg. by apply H. Qed.

Lemma triple_asking {A} (p : P A) (Pre : Guard → S → Prop) Post :
  (∀ g s, Pre g s → wlp served s p (λ a s', Post a g s')) → triple Pre (asking p) Post.
Proof. intros H g s Hg. apply wlp_bind. by eapply wlp_mono; [by apply H|]. Qed.

Lemma triple_trying {A} (p : P (result error A)) (Pre : Guard → S → Prop) (Post : A → Guard → S → Prop) :
  (∀ g s, Pre g s → wlp served s p (λ r s', match r with Ok a => Post a g s' | Err e => stops (Failed e) g s' end)) →
  triple Pre (trying p) Post.
Proof.
  intros H. eapply triple_bind; [apply triple_asking, H|]. intros [a|e]; [by apply triple_ret|by apply triple_throw].
Qed.

Lemma triple_catch {A} (m : op A) Pre (Post : result error A → Guard → S → Prop) :
  triple Pre m (λ a, Post (Ok a)) → (∀ e g s, stops (Failed e) g s → Post (Err e) g s) →
  triple Pre (catch m) Post.
Proof.
  intros Hm He g s Hg. apply wlp_bind. eapply wlp_mono; [by apply Hm|].
  intros [[a|[e|]] g'] s' H; [exact H|by apply He|exact H].
Qed.
End triple.

(** ** Names that fold alike *)

Definition makes (c : call) : option string :=
  match c with
  | RootMkdirAll name | RootCreate name | RootSymlink _ name | RootLink _ name => Some name
  | _ => None
  end.

Definition made (l : list (event answer)) : list string := omap (λ e, makes (projT1 e)) l.

(** What is claimed for the components of a name *)
Fixpoint claim_prefixes (prefix : string) (parts : list string) : list string :=
  match parts with
  | [] => []
  | part :: parts' => Join [prefix; part] :: claim_prefixes (Join [prefix; part]) parts'
  end.

Definition claims (name : string) : list string := claim_prefixes "" (path_fields name).

Lemma claimFolded_grows prefix parts m k v :
  m !! k = Some v → (claimFolded prefix parts m).2 !! k = Some v.
Proof.
  revert prefix m. induction parts as [|part parts IH]; intros prefix m Hm; [done|]. cbn [claimFolded].
  destruct (match m !! _ with Some _ => _ | None => _ end) eqn:Ht; [done|]. apply IH.
  destruct (decide (k = to_lower (Join [prefix; part]))) as [->|Hk]; [|by rewrite lookup_insert_ne].
  rewrite Hm in Ht. apply negb_false_iff, String.eqb_eq in Ht as ->. by rewrite lookup_insert_eq.
Qed.

Lemma claimFolded_claims prefix parts m m' :
  claimFolded prefix parts m = (None, m') → Forall (λ p, m' !! to_lower p = Some p) (claim_prefixes prefix parts).
Proof.
  revert prefix m. induction parts as [|part parts IH]; intros prefix m; cbn [claimFolded]; [by constructor|].
  destruct (match m !! _ with Some _ => _ | None => _ end) eqn:Ht; [done|]. intros H. constructor; [|by eapply IH].
  assert (m' = (claimFolded (Join [prefix; part]) parts
    (<[to_lower (Join [prefix; part]) := Join [prefix; part]]> m)).2) as -> by by rewrite H.
  apply claimFolded_grows. by rewrite lookup_insert_eq.
Qed.

Lemma path_fields_nonempty c s : is_slash c = false → path_fields (String c s) ≠ [].
Proof. simpl. intros ->. destruct s as [|d s]; [done|]. destruct (is_slash d); [done|]. by case_match. Qed.

Lemma path_fields_app a b : path_fields (a +:+ String "/" b) = path_fields a ++ path_fields b.
Proof.
  induction a as [|c a IH]; [done|]. change (String c a +:+ String "/" b) with (String c (a +:+ String "/" b)).
  cbn [path_fields]. destruct (is_slash c) eqn:Hc; [exact IH|]. destruct a as [|d a]; [done|].
  change (String d a +:+ String "/" b) with (String d (a +:+ String "/" b)) in IH |- *.
  cbv iota beta. destruct (is_slash d) eqn:Hd; [by rewrite IH|]. rewrite IH.
  pose proof (path_fields_nonempty d a Hd). by destruct (path_fields (String d a)).
Qed.

Lemma path_fields_plain p : p ≠ "" → exists_byte is_slash p = false → path_fields p = [p].
Proof.
  induction p as [|c p IH]; [done|]. intros _. cbn [exists_byte path_fields]. intros [-> Hp]%orb_false_iff.
  destruct p as [|d p]; [done|]. pose proof Hp as Hp'. cbn [exists_byte] in Hp'.
  apply orb_false_iff in Hp' as [-> _]. by rewrite IH.
Qed.

Lemma claim_prefixes_app prefix a b : claim_prefixes prefix a `prefix_of` claim_prefixes prefix (a ++ b).
Proof.
  revert prefix. induction a as [|x a IH]; intros prefix; [apply prefix_nil|]. by apply prefix_cons.
Qed.

Lemma claims_parent name : below name → Dir name = "." ∨ claims (Dir name) `prefix_of` claims name.
Proof.
  intros (parts & Hn & Hp & ->). induction parts as [|p parts _] using rev_ind; [done|].
  apply Forall_app in Hp as [Hps Hp]. rewrite Dir_relative; [|done|by inversion Hp].
  case_decide as Hd; [by left|right]. unfold claims. rewrite join_snoc by done.
  change ("/" +:+ p) with (String "/" p). rewrite path_fields_app.
  apply claim_prefixes_app.
Qed.

(** One step that leaves [I] as it is *)
Tactic Notation "stays" uconstr(I) := eapply (triple_bind _ _ _ _ _ (λ _, I)); [|intros ?].
Tactic Notation "stays" uconstr(I) "as" simple_intropattern(p) :=
  eapply (triple_bind _ _ _ _ _ (λ _, I)); [|intros p].

Section collisions.

Definition claimed (g : Guard) (name : string) : Prop :=
  Forall (λ p, seen g !! to_lower p = Some p) (claims name).

Definition apart (g : Guard) (names : list string) : Prop :=
  FoldCase (rules g) = true ∧ Forall (claimed g) names.

Definition logs (names : list string) (c : call) (_ : answer c) (names' : list string) : Prop :=
  names' = names ++ option_list (makes c).

Abbreviation holds := (triple logs (λ _ g names, apart g names)).

(** While [name] is being made *)
Definition making (name : string) (g : Guard) (names : list string) : Prop := apart g names ∧ claimed g name.

Lemma admit_claims name : holds apart (Guard_admit name) (λ _, making name).
Proof.
  unfold Guard_admit, admitName. eapply (triple_bind _ _ _ _ _ (λ _, making name)).
  - eapply triple_bind; [apply triple_get|]. intros g. cbv zeta.
    destruct (_ && _); [by apply triple_throw; intros ? ? []|].
    destruct (FoldCase (rules g)) eqn:Hf; cycle 1.
    { intros g' s [[H1 H2] <-]. congruence. }
    cbn [negb]. destruct (claimFolded _ _ _) as [collision m] eqn:Hc.
    eapply (triple_bind _ _ _ _ _ (λ _ g' s, apart g' s ∧ (collision = None → claimed g' name))).
    + apply triple_modify. intros g' s [[H1 H2] ->].
      assert (∀ k v, seen g' !! k = Some v → m !! k = Some v) as Hgrow.
      { intros k v Hk. replace m with (claimFolded "" (path_fields name) (seen g')).2 by by rewrite Hc.
        by apply claimFolded_grows. }
      split; [split; [done|]|].
      * eapply Forall_impl; [exact H2|]. intros n Hn. eapply Forall_impl; [exact Hn|]. intros p Hp. by apply Hgrow.
      * intros ->. by eapply claimFolded_claims.
    + intros _. destruct collision; [by apply triple_throw; intros ? ? []|].
      apply triple_ret. intros g' s [H1 H2]. split; auto.
  - intros _. eapply (triple_bind _ _ _ _ _ (λ _, making name)); [by apply triple_modify|]. intros _.
    eapply triple_bind; [apply triple_get|]. intros g. destruct (_ <? _)%Z.
    + apply triple_throw. by intros ? ? [[] _].
    + apply triple_ret. by intros ? ? [].
Qed.

Lemma held_call c (name : string) :
  (∀ n, makes c = Some n → ∀ g, claimed g name → claimed g n) →
  ∀ g s, making name g s → wlp logs s (ask c) (λ _ s', making name g s').
Proof.
  intros Hc g s [[Hf Hs] Hn] r w1 ->. split; [split; [done|]|done]. apply Forall_app. split; [done|].
  destruct (makes c) as [n|] eqn:E; [|done]. apply Forall_singleton. by apply (Hc n).
Qed.

Lemma held_fields name f :
  (∀ g, rules (f g) = rules g ∧ seen (f g) = seen g) → holds (making name) (modify f) (λ _, making name).
Proof.
  intros Hf. apply triple_modify. intros g s [[H1 H2] H3]. destruct (Hf g) as [E1 E2].
  unfold making, apart, claimed. by rewrite E1, E2.
Qed.

Lemma held_asking {A} name (p : P A) :
  (∀ g s, making name g s → wlp logs s p (λ _ s', making name g s')) →
  holds (making name) (asking p) (λ _, making name).
Proof. apply triple_asking. Qed.

Lemma held_trying {A} name (p : P (result error A)) :
  (∀ g s, making name g s → wlp logs s p (λ _ s', making name g s')) →
  holds (making name) (trying p) (λ _, making name).
Proof.
  intros Hp. apply triple_trying. intros g s Hg. eapply wlp_mono; [by apply Hp|].
  intros [a|e] s' H; [done|]. by destruct H.
Qed.

(** What holds of an operation on any guard whose names are apart *)
Abbreviation keeps_apart m := (holds apart m (λ _, apart)).

Lemma apart_call c : makes c = None → ∀ g s, apart g s → wlp logs s (ask c) (λ _ s', apart g s').
Proof. intros Hc g s [H1 H2] r w1 ->. rewrite Hc. simpl. by rewrite app_nil_r. Qed.

Lemma apart_asking {A} (p : P A) :
  (∀ g s, apart g s → wlp logs s p (λ _ s', apart g s')) → keeps_apart (asking p).
Proof. apply triple_asking. Qed.

Lemma apart_trying {A} (p : P (result error A)) :
  (∀ g s, apart g s → wlp logs s p (λ _ s', apart g s')) → keeps_apart (trying p).
Proof.
  intros Hp. apply triple_trying. intros g s Hg. eapply wlp_mono; [by apply Hp|]. by intros [].
Qed.

Lemma apart_throw {A} e : holds apart (throw e) (λ _ : A, apart).
Proof. by apply triple_throw. Qed.

Lemma apart_result {A} (r : result error A) : holds apart (of_result r) (λ _, apart).
Proof. by apply triple_result. Qed.

Lemma entry_apart name : holds apart (Guard_entry name) (λ cleaned g s, below cleaned ∧ making cleaned g s).
Proof.
  eapply (triple_bind _ _ _ _ _ (λ cleaned g s, below cleaned ∧ apart g s)).
  { apply triple_result; [|done]. intros a g s Ha Hg. split; [by eapply entry_below|done]. }
  intros cleaned. intros g s [Hb Hg]. revert g s Hg.
  apply (triple_bind _ _ _ _ _ (λ _, making cleaned)); [apply admit_claims|]. intros _. by apply triple_ret.
Qed.

Lemma place_apart cleaned : below cleaned → holds (making cleaned) (Guard_place cleaned) (λ _, making cleaned).
Proof.
  intros Hb. stays (making cleaned); [by apply held_asking, (held_call (RootRemove _))|]. cbv zeta.
  destruct (String.eqb_spec (Dir cleaned) ".") as [|Hd]; [by apply triple_ret|].
  apply held_trying, (held_call (RootMkdirAll _)). intros n [= <-] g Hg.
  destruct (claims_parent cleaned Hb) as [|[rest E]]; [done|]. unfold claimed in *. rewrite E in Hg.
  by apply Forall_app in Hg as [? _].
Qed.

Lemma Copy_apart fuel : keeps_apart (Copy fuel).
Proof.
  induction fuel as [|fuel IH]; [apply apart_throw|]. cbn [Copy].
  stays apart as [e|]; [by apply apart_asking, (apart_call CtxErr)|apply apart_throw|].
  stays apart; [by intros g s Hg|].
  stays apart as [n short]; [by apply apart_asking, (apart_call (CopyN _))|].
  stays apart; [by apply triple_modify|]. stays apart; [by intros g' s Hg|].
  destruct (_ <? _)%Z; [apply apart_throw|]. destruct short as [[]|]; [by apply triple_ret|apply apart_throw|exact IH].
Qed.

Lemma recordTop_apart cleaned : keeps_apart (recordTop cleaned).
Proof. by apply triple_modify. Qed.

Lemma apart_catch {A} (m : op A) : keeps_apart m → keeps_apart (catch m).
Proof. intros Hm. by apply triple_catch. Qed.

(** An entry, then what is made under its name *)
Lemma apart_entry {A} name (f : string → op A) :
  (∀ cleaned, below cleaned → holds (making cleaned) (f cleaned) (λ _, apart)) →
  keeps_apart (Guard_entry name ≫= f).
Proof.
  intros Hf. eapply triple_bind; [apply entry_apart|]. intros cleaned g s [Hb Hm]. by apply Hf.
Qed.

Lemma held_apart {A} name (m : op A) : keeps_apart m → holds (making name) m (λ _, apart).
Proof. apply triple_pre. by intros g s []. Qed.

Lemma Guard_Dir_apart name : keeps_apart (Guard_Dir name).
Proof.
  stays apart as cleaned; [apply apart_result|]. destruct (String.eqb cleaned "."); [by apply triple_ret|].
  eapply (triple_bind _ _ _ _ _ (λ _, making cleaned)); [apply admit_claims|]. intros _.
  stays (making cleaned); [|apply held_apart, recordTop_apart]. apply held_trying, (held_call (RootMkdirAll _)).
  by intros n [= <-].
Qed.

(** The last thing made under a name *)
Lemma made_last c cleaned : makes c = Some cleaned →
  ∀ g s, making cleaned g s → wlp logs s (ask c) (λ _ s', making cleaned g s').
Proof. intros Hc. apply held_call. rewrite Hc. by intros n [= <-]. Qed.

Lemma Guard_File_apart fuel name : keeps_apart (Guard_File fuel name).
Proof.
  apply apart_entry. intros cleaned Hb. stays (making cleaned); [by apply place_apart|].
  stays (making cleaned); [by apply held_trying, (made_last (RootCreate _))|]. apply held_apart.
  stays apart; [apply apart_catch, Copy_apart|]. stays apart; [by apply apart_asking, (apart_call CloseFile)|].
  destruct (join_errors _ _).
  - stays apart; [by apply apart_trying, (apart_call (RootChmod _))|]. apply recordTop_apart.
  - stays apart; [by apply apart_asking, (apart_call (RootRemove _))|]. apply apart_throw.
Qed.

Lemma trackUntyped_apart name target : keeps_apart (trackUntyped name target).
Proof.
  stays apart as g; [by intros g s|]. destruct (negb _); [by apply triple_ret|].
  stays apart as [is_dir|e]; [by apply apart_asking, (apart_call (RootIsDir _))|by apply triple_ret|].
  by apply triple_modify.
Qed.

Lemma Guard_Symlink_apart name target : keeps_apart (Guard_Symlink name target).
Proof.
  apply apart_entry. intros cleaned Hb. stays (making cleaned) as g; [by intros g s|].
  destruct (checkLinkTarget _ _); [|apply held_apart, apart_result].
  stays (making cleaned) as t; [by apply held_asking, (held_call Tree)|].
  destruct (physical _ _ _ _) as [p|[e|]]; [|apply held_apart, apart_result|apply held_apart, apart_throw].
  stays (making cleaned); [by apply place_apart|].
  stays (making cleaned); [by apply held_trying, (made_last (RootSymlink _ _))|]. apply held_apart.
  stays apart; [by apply triple_modify|]. stays apart; [apply trackUntyped_apart|]. apply recordTop_apart.
Qed.

Lemma Guard_Hardlink_apart name target : keeps_apart (Guard_Hardlink name target).
Proof.
  apply apart_entry. intros cleaned Hb. stays (making cleaned) as source; [by apply triple_result; [|intros ? ? ? []]|].
  destruct (String.eqb source "."); [apply held_apart, apart_throw|].
  stays (making cleaned).
  { stays (making cleaned) as is_link; [by apply held_trying, (held_call (RootLstat _))|].
    destruct is_link; [apply triple_throw; by intros ? ? []|by apply triple_ret]. }
  stays (making cleaned); [by apply place_apart|].
  stays (making cleaned); [by apply held_trying, (made_last (RootLink _ _))|]. apply held_apart, recordTop_apart.
Qed.

Lemma check_ctx_apart : keeps_apart check_ctx.
Proof.
  stays apart as [e|]; [by apply apart_asking, (apart_call CtxErr)|apply apart_throw|by apply triple_ret].
Qed.

Lemma extract_apart fuel src single c : keeps_apart (extract fuel src single c).
Proof.
  destruct c as [files|opened|opened].
  - stays apart as files'; [apply apart_result|]. induction files' as [|f files' IH]; [by apply triple_ret|].
    stays apart; [|exact IH]. stays apart; [apply check_ctx_apart|]. destruct (zIsDir f); [apply Guard_Dir_apart|].
    stays apart; [by apply apart_trying, (apart_call (OpenEntry _))|]. stays apart as r.
    + apply apart_catch. destruct (zIsSymlink f); [|apply Guard_File_apart].
      stays apart; [by apply apart_trying, (apart_call ReadTarget)|]. apply Guard_Symlink_apart.
    + stays apart; [by apply apart_asking, (apart_call CloseEntry)|]. apply apart_result.
  - stays apart as [headers last]; [apply apart_result|]. induction headers as [|h headers IH];
      (stays apart; [apply check_ctx_apart|]).
    + destruct last; [apply apart_throw|by apply triple_ret].
    + stays apart; [|exact IH]. unfold tar_entry. destruct (Typeflag_ h);
        auto using Guard_Dir_apart, Guard_File_apart, Guard_Symlink_apart, Guard_Hardlink_apart, Copy_apart.
  - stays apart; [apply apart_result|]. apply Guard_File_apart.
Qed.
End collisions.

Lemma trace_logs {A} (p : P A) l a s : trace p l a → runs logs s p a (s ++ made l).
Proof.
  revert l s. induction p as [a'|c k IH]; intros l s; simpl.
  - intros [-> ->]. by rewrite app_nil_r.
  - intros (r & l' & -> & Ht). exists r, (s ++ option_list (makes c)). split; [done|].
    pose proof (IH r l' (s ++ option_list (makes c)) Ht) as H. rewrite <- app_assoc in H.
    unfold made in *. simpl. by destruct (makes c).
Qed.

Lemma made_below {A} (p : P A) l a : calls_only safe_call p → trace p l a → Forall below (made l).
Proof.
  revert l. induction p as [a'|c k IH]; intros l Hp; simpl; [by intros [-> _]; constructor|].
  destruct Hp as [Hc Hk]. intros (r & l' & -> & Ht). specialize (IH r l' (Hk r) Ht).
  unfold made. simpl. destruct (makes c) as [n|] eqn:E; [|exact IH]. constructor; [|exact IH].
  destruct c; simplify_eq/=; [done|done|by destruct Hc|by destruct Hc].
Qed.

Lemma path_fields_join parts :
  Forall normal parts → contains_byte "\" (join "/" parts) = false → path_fields (join "/" parts) = parts.
Proof.
  intros Hp. induction Hp as [|p parts (Hne & _ & _ & Hs) _ IH]; [done|].
  assert (contains_byte "\" p = false → path_fields p = [p]) as Hplain.
  { intros Hb. apply path_fields_plain; [done|]. unfold contains_byte, Separator in *. clear -Hs Hb.
    induction p as [|c p IH]; [done|]. cbn [exists_byte] in *. apply orb_false_iff in Hs as [Hs1 Hs2], Hb as [Hb1 Hb2].
    rewrite IH by done. unfold is_slash. rewrite (Ascii.eqb_sym c "/"), (Ascii.eqb_sym c "\"), Hs1, Hb1. done. }
  destruct parts as [|q parts]; [exact Hplain|]. rewrite join_cons. intros Hb.
  assert (contains_byte "\" p = false ∧ contains_byte "\" (join "/" (q :: parts)) = false) as [Hb1 Hb2].
  { unfold contains_byte in *. rewrite !exists_byte_app in Hb. by apply orb_false_iff in Hb as [? [_ ?]%orb_false_iff]. }
  change ("/" +:+ ?x) with (String "/" x). by rewrite path_fields_app, Hplain, IH.
Qed.

Lemma claim_prefixes_join kept parts p :
  Forall normal (kept ++ parts) → p ≠ [] → p `prefix_of` parts →
  join "/" (kept ++ p) ∈ claim_prefixes (join "/" kept) parts.
Proof.
  revert kept p. induction parts as [|x parts IH]; intros kept p Hf Hn [rest E].
  - by destruct p.
  - destruct p as [|y p]; [done|]. injection E as <- E.
    apply Forall_app in Hf as [Hk Hx]. apply Forall_cons in Hx as [Hx Hps].
    cbn [claim_prefixes]. rewrite Join_names by done. destruct p as [|z p]; [by left|right].
    replace (kept ++ x :: z :: p) with ((kept ++ [x]) ++ z :: p) by by rewrite <- app_assoc.
    apply IH; [|done|by exists rest]. rewrite <- app_assoc. apply Forall_app. by split; [|constructor].
Qed.

Lemma to_lower_app a b : to_lower (a +:+ b) = (to_lower a +:+ to_lower b)%string.
Proof. unfold to_lower. induction a as [|c a IH]; [done|]. simpl. by f_equal. Qed.

Lemma to_lower_join ps : to_lower (join "/" ps) = join "/" (map to_lower ps).
Proof.
  induction ps as [|p ps IH]; [done|]. destruct ps as [|q ps]; [done|].
  cbn [map]. rewrite !join_cons, !to_lower_app, IH. done.
Qed.

(** Where names fold (macOS and Windows), nothing unpacked replaces something whose
    name differs only in case: of all the names an extraction makes, whatever the archive
    and the answers, two that agree up to the case of their first components agree in
    them exactly.  (Names with a backslash, which is a separator on Windows only, are left
    out.) *)
Lemma folded_names_apart fuel src single c d maxBytes r l res g n1 n2 p1 p2 :
  FoldCase r = true →
  trace (extract fuel src single c (newGuard d maxBytes r false)) l (res, g) →
  n1 ∈ made l → n2 ∈ made l →
  contains_byte "\" n1 = false → contains_byte "\" n2 = false →
  p1 `prefix_of` split_byte "/" n1 → p2 `prefix_of` split_byte "/" n2 →
  map to_lower p1 = map to_lower p2 → p1 = p2.
Proof.
  intros Hr Ht H1 H2 Hb1 Hb2 Hp1 Hp2 E.
  destruct (decide (p1 = [])) as [->|Hn1]; [by destruct p2|]. assert (p2 ≠ []) as Hn2 by (by destruct p1, p2).
  assert (Forall below (made l)) as Hbelow.
  { eapply made_below; [|exact Ht]. eapply named_calls_only. apply (extract_keeps d). split_and!; [done|apply Forall_nil_2..]. }
  pose proof (trace_logs _ _ _ [] Ht) as Hruns. simpl app in Hruns.
  assert (apart g (made l)) as [_ Hclaims].
  { assert (apart (newGuard d maxBytes r false) []) as H0 by by split.
    pose proof (wlp_runs _ _ _ _ _ _ (extract_apart fuel src single c _ _ H0) Hruns) as H. by destruct res. }
  assert (∀ n p, n ∈ made l → contains_byte "\" n = false → p `prefix_of` split_byte "/" n → p ≠ [] →
    seen g !! to_lower (join "/" p) = Some (join "/" p) ∧ Forall normal p) as Hseen.
  { intros n p Hn Hb Hp Hnp. rewrite Forall_forall in Hbelow, Hclaims.
    destruct (Hbelow n Hn) as (parts & Hnn & Hparts & ->). specialize (Hclaims _ Hn).
    unfold claimed, claims in Hclaims. rewrite path_fields_join in Hclaims by done.
    change "/" with (String Separator "") in Hp. rewrite split_join in Hp by (done || by apply normal_no_sep).
    split.
    - rewrite Forall_forall in Hclaims. apply Hclaims. by apply (claim_prefixes_join [] parts p).
    - destruct Hp as [rest ->]. by apply Forall_app in Hparts as [? _]. }
  destruct (Hseen n1 p1) as [Hs1 Hf1], (Hseen n2 p2) as [Hs2 Hf2]; try done.
  rewrite to_lower_join, E, <- to_lower_join, Hs2 in Hs1. injection Hs1 as Hj.
  rewrite <- (split_join Separator p1), <- (split_join Separator p2) by (done || by apply normal_no_sep).
  change (String Separator "") with "/". by rewrite Hj.
Qed.

(** A directory that takes everything, and a reader with nothing to read *)
Definition willing (c : call) (_ : nat) : option (answer c) :=
  match c with
  | CtxErr => Some None
  | CopyN _ => Some (0%Z, Some ReadEOF)
  | Tree => Some (mkTree (λ _, None) (λ _, None) (λ p, Ok p))
  | RootLstat _ | RootIsDir _ => Some (Ok false)
  | RootMkdirAll _ | RootCreate _ | RootChmod _ | RootSymlink _ _ | RootLink _ _ | RootRemove _ | CloseFile => Some (Ok ())
  | _ => None
  end.

Definition two_files : contents :=
  TarContents (Ok ([mkHeader TypeReg "Docs/a" ""; mkHeader TypeReg "Docs/b" ""], None)).

Lemma folded_names_apart_witness : ∃ l res g,
  trace (extract 1 "x.tar" "" two_files (newGuard "/dest" 100 (mkHostRules false true false) false)) l (res, g) ∧
  made l = ["Docs"; "Docs/a"; "Docs"; "Docs/b"] ∧ ["Docs"] = ["Docs"].
Proof.
  destruct (run willing 0 (extract 1 "x.tar" "" two_files (newGuard "/dest" 100 (mkHostRules false true false) false)))
    as [[l [res g]]|] eqn:E; [|by vm_compute in E].
  exists l, res, g. pose proof (trace_run _ _ _ _ _ E) as Ht.
  assert (made l = ["Docs"; "Docs/a"; "Docs"; "Docs/b"]) as Hm.
  { assert ((made ∘ fst) <$> run willing 0 (extract 1 "x.tar" "" two_files
      (newGuard "/dest" 100 (mkHostRules false true false) false)) = Some ["Docs"; "Docs/a"; "Docs"; "Docs/b"]) as H
      by (vm_compute; reflexivity).
    rewrite E in H. by injection H. }
  split_and!; [exact Ht|exact Hm|].
  apply (folded_names_apart 1 "x.tar" "" two_files "/dest" 100 (mkHostRules false true false) l res g "Docs/a" "Docs/b");
    [reflexivity|exact Ht|rewrite Hm; right; left|rewrite Hm; do 3 right; left|reflexivity|reflexivity| | |reflexivity].
  - by exists ["a"].
  - by exists ["b"].
Defined.

(** ** The budget *)

(** The bytes copied so far, and the files and links made *)
Record spent := mkSpent { copied : Z; entries_made : Z }.

(** A copy moves no more than it was asked for, and stops short of it exactly when it says
    why; the root of the file system is there. *)
Definition spends (s : spent) (c : call) : answer c → spent → Prop :=
  match c with
  | CopyN n => λ '(m, short) s',
    (0 ≤ m ≤ Z.max 0 n)%Z ∧ (short = None ↔ m = Z.max 0 n) ∧ s' = mkSpent (copied s + m) (entries_made s)
  | RootCreate _ | RootSymlink _ _ | RootLink _ _ => λ _ s', s' = mkSpent (copied s) (entries_made s + 1)
  | Tree => λ t s', EvalSymlinks t "/" ≠ Err NotThere ∧ s' = s
  | _ => λ _ s', s' = s
  end.

Lemma wrap64_id z : (- 2 ^ 63 ≤ z < 2 ^ 63)%Z → wrap64 z = z.
Proof. intros H. unfold wrap64. rewrite Z.mod_small; lia. Qed.

Lemma resolveExisting_total t parts fuel missing :
  EvalSymlinks t "/" ≠ Err NotThere → Forall normal parts → length parts < fuel →
  resolveExisting fuel t missing (rooted_path parts) ≠ Err OutOfFuel.
Proof.
  intros Ht. revert fuel missing. induction parts as [|p parts IH] using rev_ind; intros fuel missing Hp Hf;
    (destruct fuel as [|fuel]; [simpl in Hf; lia|]); cbn [resolveExisting].
  { change (rooted_path []) with "/". by destruct (EvalSymlinks t "/") as [|[]]. }
  destruct (EvalSymlinks t (rooted_path (parts ++ [p]))) as [|[]]; [done| |done].
  apply Forall_app in Hp as [Hps Hp]. rewrite Dir_rooted; [|done|by inversion Hp].
  apply IH; [done|]. rewrite length_app in Hf. simpl in Hf. lia.
Qed.

Lemma physical_total t g cleaned target :
  EvalSymlinks t "/" ≠ Err NotThere → IsAbs (dest g) = true → physical t g cleaned target ≠ Err OutOfFuel.
Proof.
  intros Ht Ha. unfold physical. destruct (resolveExisting _ _ _ _) as [parent|e] eqn:E; cbn [rbind].
  - by destruct (_ || _).
  - intros [= ->]. revert E. cbn [Join].
    assert (dest g ≠ "") as Hd by by intros E; rewrite E in Ha. rewrite (proj2 (String.eqb_neq _ _) Hd).
    change (join "/" [dest g; Dir cleaned]) with (dest g +:+ "/" +:+ Dir cleaned).
    destruct (Clean_rooted (dest g +:+ "/" +:+ Dir cleaned)) as [-> Hn]; [by rewrite IsAbs_app|].
    apply resolveExisting_total; [done|done|]. pose proof (rooted_path_length _ Hn). lia.
Qed.

Section budget.
Context (d : string) (budget : Z).
Hypothesis Habs : IsAbs d = true.
Hypothesis Hbudget : (0 ≤ budget < 2 ^ 63 - 1)%Z.

(** What stops short has not gone further than a byte over. *)
Definition overdrawn (e : stop) (_ : Guard) (s : spent) : Prop :=
  e ≠ OutOfFuel ∧ (copied s ≤ budget + 1)%Z ∧ (entries_made s ≤ maxEntriesLimit)%Z.

(** With [n] entries admitted that are not made yet *)
Definition within (n : Z) (g : Guard) (s : spent) : Prop :=
  dest g = d ∧ maxBytes g = budget ∧ maxEntries g = maxEntriesLimit ∧ written g = copied s ∧
  (0 ≤ copied s ≤ budget)%Z ∧ (entries_made s + n ≤ entries g ≤ maxEntriesLimit)%Z.

Abbreviation spends_within := (triple spends overdrawn).
Abbreviation keeps_within n m := (spends_within (within n) m (λ _, within n)).

Lemma within_overdrawn n e g s : (0 ≤ n)%Z → e ≠ OutOfFuel → within n g s → overdrawn e g s.
Proof. intros Hn He (_ & _ & _ & _ & Hc & Hm). split_and!; [done|lia|lia]. Qed.

Lemma within_throw {A} n e (Post : A → Guard → spent → Prop) :
  (0 ≤ n)%Z → e ≠ OutOfFuel → spends_within (within n) (throw e) Post.
Proof. intros Hn He. apply triple_throw. intros g s. by apply within_overdrawn. Qed.

Lemma within_result {A} n (r : result error A) : (0 ≤ n)%Z → keeps_within n (of_result r).
Proof. intros Hn. apply triple_result; [done|]. intros e g s. by apply within_overdrawn. Qed.

(** A call that spends nothing *)
Lemma free_call c n :
  (∀ s r s', spends s c r s' → s' = s) →
  ∀ g s, within n g s → wlp spends s (ask c) (λ _ s', within n g s').
Proof. intros Hc g s Hg r s' Hs. by apply Hc in Hs as ->. Qed.

Lemma within_asking {A} n (p : P A) :
  (∀ g s, within n g s → wlp spends s p (λ _ s', within n g s')) → keeps_within n (asking p).
Proof. apply triple_asking. Qed.

Lemma within_trying {A} n (p : P (result error A)) :
  (0 ≤ n)%Z → (∀ g s, within n g s → wlp spends s p (λ _ s', within n g s')) → keeps_within n (trying p).
Proof.
  intros Hn Hp. apply triple_trying. intros g s Hg. eapply wlp_mono; [by apply Hp|].
  intros [a|e] s' H; [done|]. by eapply within_overdrawn.
Qed.

Lemma Copy_within fuel n : (0 ≤ n)%Z →
  spends_within (λ g s, within n g s ∧ (budget - written g < Z.of_nat fuel * copyChunk)%Z) (Copy fuel) (λ _, within n).
Proof.
  intros Hn. induction fuel as [|fuel IH].
  { intros g s [(_ & _ & _ & -> & Hc & _) Hf]. lia. }
  cbn [Copy]. set (Pre := λ g s, within n g s ∧ _).
  eapply (triple_bind _ _ _ _ _ (λ _, Pre)).
  { apply triple_asking. intros g s Hg r s' ->. exact Hg. }
  intros [e|]; [apply triple_throw; intros g s [Hg _]; by eapply within_overdrawn|].
  eapply triple_bind; [apply triple_get|]. intros g0.
  set (after := λ m (short : option read_end) g s,
    dest g = d ∧ maxBytes g = budget ∧ maxEntries g = maxEntriesLimit ∧
    (0 ≤ m)%Z ∧ (written g + m = copied s)%Z ∧ (0 ≤ copied s ≤ budget + 1)%Z ∧
    (entries_made s + n ≤ entries g ≤ maxEntriesLimit)%Z ∧
    (short = None → (copied s ≤ budget)%Z → (budget - copied s < Z.of_nat fuel * copyChunk)%Z)).
  eapply (triple_bind _ _ _ _ _ (λ '(m, short) g s, after m short g s)).
  { apply triple_asking. intros g s [[(H1 & H2 & H3 & H4 & H5 & H6) Hf] ->] [m short] s' (Hm & Hs & ->).
    assert (copy_request g = Z.min copyChunk (budget - written g + 1)) as Hr.
    { unfold copy_request. rewrite H2, H4, (wrap64_id (_ - _)), wrap64_id; lia. }
    rewrite Hr in Hm, Hs. pose proof (eq_refl : copyChunk = 1048576%Z) as Hchunk. unfold after.
    split_and!; simpl copied; simpl entries_made; try done; try lia. intros Hsh Hb. apply Hs in Hsh. lia. }
  intros [m short]. eapply (triple_bind _ _ _ _ _ (λ _ g s, after 0%Z short g s)).
  { apply triple_modify. intros g s (H1 & H2 & H3 & H4 & H5 & H6 & H7 & H8).
    unfold after. cbn [dest maxBytes maxEntries entries written set_written]. rewrite wrap64_id by lia.
    split_and!; try done; lia. }
  intros _. eapply triple_bind; [apply triple_get|]. intros g1. destruct (Z.ltb_spec (maxBytes g1) (written g1)) as [Hw|Hw].
  - apply triple_throw. intros g s [(H1 & H2 & H3 & H4 & H5 & H6 & H7 & H8) ->]. split_and!; [done|lia|lia].
  - assert (∀ g s, after 0%Z short g s ∧ g1 = g →
      within n g s ∧ (short = None → budget - written g < Z.of_nat fuel * copyChunk)%Z) as Hw'.
    { intros g s [(H1 & H2 & H3 & H4 & H5 & H6 & H7 & H8) ->]. rewrite H2 in Hw. unfold within.
      split_and!; try done; try lia. intros Hsh. specialize (H8 Hsh). lia. }
    destruct short as [[]|].
    + apply triple_ret. intros g s H. by apply Hw' in H as [? _].
    + apply triple_throw. intros g s H. apply Hw' in H as [H _]. by eapply within_overdrawn.
    + eapply triple_pre; [|exact IH]. intros g s H. apply Hw' in H as [? Hx]. auto.
Qed.

(** *** The operations, each entry admitted before it is made *)

Lemma admit_within cleaned : spends_within (within 0) (Guard_admit cleaned) (λ _, within 1).
Proof.
  unfold Guard_admit, admitName. stays (within 0).
  - stays (within 0) as g; [by intros g s|]. cbv zeta. destruct (_ && _); [by apply within_throw|].
    destruct (negb _); [by apply triple_ret|]. destruct (claimFolded _ _ _) as [collision m].
    stays (within 0); [by apply triple_modify|]. destruct collision; [by apply within_throw|by apply triple_ret].
  - eapply (triple_bind _ _ _ _ _ (λ _ g s, within 0 (set_entries g (entries g - 1)) s)).
    { apply triple_modify. intros g s (H1 & H2 & H3 & H4 & H5 & H6). unfold within. simpl.
      split_and!; try done; lia. }
    intros _. eapply triple_bind; [apply triple_get|]. intros g0.
    destruct (Z.ltb_spec (maxEntries g0) (entries g0)) as [Hm|Hm].
    + apply triple_throw. intros g s [H _]. by eapply within_overdrawn in H.
    + apply triple_ret. intros g s [(H1 & H2 & H3 & H4 & H5 & H6) ->]. simpl in *. rewrite H3 in Hm.
      unfold within. split_and!; try done; lia.
Qed.

Lemma entry_within name : spends_within (within 0) (Guard_entry name) (λ _, within 1).
Proof.
  stays (within 0) as cleaned; [by apply within_result|]. stays (within 1); [apply admit_within|]. by apply triple_ret.
Qed.

Lemma place_within cleaned : keeps_within 1 (Guard_place cleaned).
Proof.
  stays (within 1); [by apply within_asking, (free_call (RootRemove _)); intros ? ? ? ->|]. cbv zeta.
  destruct (String.eqb _ _); [by apply triple_ret|].
  by apply within_trying, (free_call (RootMkdirAll _)); [|intros ? ? ? ->].
Qed.

Lemma weaken_room {A} (m : op A) : keeps_within 0 m → spends_within (within 1) m (λ _, within 0).
Proof.
  apply triple_pre. intros g s (H1 & H2 & H3 & H4 & H5 & H6). split_and!; try done; lia.
Qed.

(** The call that makes an admitted entry *)
Lemma making_within {A} (p : P (result error A)) :
  (∀ s, wlp spends s p (λ _ s', s' = mkSpent (copied s) (entries_made s + 1))) →
  spends_within (within 1) (trying p) (λ _, within 0).
Proof.
  intros Hp. apply triple_trying. intros g s (H1 & H2 & H3 & H4 & H5 & H6). eapply wlp_mono; [apply Hp|].
  intros r s' ->. assert (within 0 g (mkSpent (copied s) (entries_made s + 1))) as H.
  { unfold within. simpl. split_and!; try done; lia. }
  destruct r; [done|]. by eapply within_overdrawn.
Qed.

Lemma recordTop_within cleaned : keeps_within 0 (recordTop cleaned).
Proof. by apply triple_modify. Qed.

Context (fuel : nat).
Hypothesis Hfuel : (budget < Z.of_nat fuel * copyChunk)%Z.

Lemma Copy_within_budget : keeps_within 0 (Copy fuel).
Proof.
  eapply triple_pre; [|by apply Copy_within]. intros g s Hg. split; [done|].
  destruct Hg as (_ & _ & _ & -> & Hc & _). lia.
Qed.

Lemma Guard_Dir_within name : keeps_within 0 (Guard_Dir name).
Proof.
  stays (within 0) as cleaned; [by apply within_result|]. destruct (String.eqb cleaned "."); [by apply triple_ret|].
  stays (within 1); [apply admit_within|]. apply weaken_room.
  stays (within 0); [|apply recordTop_within].
  by apply within_trying, (free_call (RootMkdirAll _)); [|intros ? ? ? ->].
Qed.

Lemma Guard_File_within name : keeps_within 0 (Guard_File fuel name).
Proof.
  stays (within 1) as cleaned; [apply entry_within|]. stays (within 1); [apply place_within|].
  stays (within 0); [by apply making_within; intros s r s' ->|].
  eapply (triple_bind _ _ _ _ _ (λ r g s, match r with Ok _ => within 0 g s | Err _ => ∀ e, overdrawn (Failed e) g s end)).
  { apply triple_catch; [apply Copy_within_budget|]. by intros e g s [_ H] e'. }
  intros copied. eapply (triple_bind _ _ _ _ _ (λ closed g s,
    match join_errors copied closed with Ok _ => within 0 g s | Err _ => ∀ e, overdrawn (Failed e) g s end)).
  { apply triple_asking. intros g s Hg closed s' ->. destruct copied as [[]|e], closed as [[]|e']; simpl; try done.
    intros e. by eapply within_overdrawn. }
  intros closed. destruct (join_errors copied closed).
  - stays (within 0); [|apply recordTop_within].
    by apply within_trying, (free_call (RootChmod _)); [|intros ? ? ? ->].
  - eapply (triple_bind _ _ _ _ _ (λ _ g s, ∀ e, overdrawn (Failed e) g s)).
    { apply triple_asking. intros g s Hg r s' ->. exact Hg. }
    intros _. apply triple_throw. intros g s Hg. apply Hg.
Qed.

Lemma trackUntyped_within name target : keeps_within 0 (trackUntyped name target).
Proof.
  stays (within 0) as g; [by intros g s|]. destruct (negb _); [by apply triple_ret|].
  stays (within 0) as r; [by apply within_asking, (free_call (RootIsDir _)); intros ? ? ? ->|].
  destruct r; [by apply triple_ret|by apply triple_modify].
Qed.

Lemma Guard_Symlink_within name target : keeps_within 0 (Guard_Symlink name target).
Proof.
  stays (within 1) as cleaned; [apply entry_within|].
  eapply (triple_bind _ _ _ _ _ (λ g0 g s, within 1 g s ∧ dest g0 = d)).
  { intros g s Hg. split; [done|]. by destruct Hg. }
  intros g0 g s [Hg Hd]. revert g s Hg.
  enough (spends_within (within 1) (match checkLinkTarget cleaned target with Err e => _ | Ok _ => _ end) (λ _, within 0)) as H by exact H.
  destruct (checkLinkTarget _ _); [|by apply weaken_room, within_result].
  eapply (triple_bind _ _ _ _ _ (λ t g s, within 1 g s ∧ EvalSymlinks t "/" ≠ Err NotThere)).
  { apply triple_asking. by intros g s Hg t s' [Ht ->]. }
  intros t g s [Hg Ht]. revert g s Hg. pose proof (physical_total t g0 cleaned target Ht) as Hp. rewrite Hd in Hp.
  specialize (Hp Habs).
  enough (spends_within (within 1) (match physical t g0 cleaned target with Err OutOfFuel => _ | Err (Failed e) => _ | Ok p => _ end)
    (λ _, within 0)) as H by exact H.
  destruct (physical t g0 cleaned target) as [p|[e|]]; [|by apply weaken_room, within_result|done].
  stays (within 1); [apply place_within|]. stays (within 0); [by apply making_within; intros s r s' ->|].
  stays (within 0); [by apply triple_modify|]. stays (within 0); [apply trackUntyped_within|]. apply recordTop_within.
Qed.

Lemma Guard_Hardlink_within name target : keeps_within 0 (Guard_Hardlink name target).
Proof.
  stays (within 1) as cleaned; [apply entry_within|]. stays (within 1) as source; [by apply within_result|].
  destruct (String.eqb source "."); [by apply within_throw|]. stays (within 1).
  { stays (within 1) as is_link; [by apply within_trying, (free_call (RootLstat _)); [|intros ? ? ? ->]|].
    destruct is_link; [by apply within_throw|by apply triple_ret]. }
  stays (within 1); [apply place_within|]. stays (within 0); [by apply making_within; intros s r s' ->|].
  apply recordTop_within.
Qed.

Lemma check_ctx_within : keeps_within 0 check_ctx.
Proof.
  stays (within 0) as r; [by apply within_asking, (free_call CtxErr); intros ? ? ? ->|].
  destruct r; [by apply within_throw|by apply triple_ret].
Qed.
Lemma zipEntry_within f : keeps_within 0 (zipEntry fuel f).
Proof.
  stays (within 0); [apply check_ctx_within|]. destruct (zIsDir f); [apply Guard_Dir_within|].
  stays (within 0); [by apply within_trying, (free_call (OpenEntry _)); [|intros ? ? ? ->]|].
  set (Post := λ (r : result error unit) g s, match r with Ok _ => within 0 g s | Err _ => ∀ e, overdrawn (Failed e) g s end).
  eapply (triple_bind _ _ _ _ _ Post).
  - apply triple_catch; [|by intros e g s [_ H] e']. destruct (zIsSymlink f); [|apply Guard_File_within].
    stays (within 0); [by apply within_trying, (free_call ReadTarget); [|intros ? ? ? ->]|]. apply Guard_Symlink_within.
  - intros r. eapply (triple_bind _ _ _ _ _ (λ _, Post r)); [apply triple_asking; intros g s Hg ? s' ->; exact Hg|].
    intros _. unfold Post. destruct r; [by apply triple_ret|]. apply triple_throw. intros g s Hg. apply Hg.
Qed.

Lemma extract_within src single c : keeps_within 0 (extract fuel src single c).
Proof.
  destruct c as [files|opened|opened].
  - stays (within 0) as files'; [by apply within_result|]. induction files' as [|f files' IH]; [by apply triple_ret|].
    stays (within 0); [apply zipEntry_within|]. exact IH.
  - stays (within 0) as [headers last]; [by apply within_result|]. induction headers as [|h headers IH];
      (stays (within 0); [apply check_ctx_within|]).
    + destruct last; [by apply within_throw|by apply triple_ret].
    + stays (within 0); [|exact IH]. unfold tar_entry. destruct (Typeflag_ h);
        auto using Guard_Dir_within, Guard_File_within, Guard_Symlink_within, Guard_Hardlink_within, Copy_within_budget.
  - stays (within 0); [by apply within_result|]. apply Guard_File_within.
Qed.
End budget.

(** C30. Into an absolute destination and with a budget below the largest 64-bit integer, an
    extraction ends and stays within its limits: whatever the archive holds and the calls
    answer, the copy loop needs no more than one round per megabyte of the budget, at most one
    byte more than the budget is copied and at most a million files and links are made; and
    when it succeeds it has not copied more than the budget.  (With a budget of the largest
    integer, which the configuration allows, a copy may never end, [Copy_never_ends].) *)
Theorem extraction_within_limits fuel src single c d budget r skip res g s :
  IsAbs d = true → (0 ≤ budget < 2 ^ 63 - 1)%Z → (budget < Z.of_nat fuel * copyChunk)%Z →
  runs spends (mkSpent 0 0) (extract fuel src single c (newGuard d budget r skip)) (res, g) s →
  res ≠ Err OutOfFuel ∧ (copied s ≤ budget + 1)%Z ∧ (entries_made s ≤ 1000000)%Z ∧
  (∀ a, res = Ok a → (copied s ≤ budget)%Z).
Proof.
  intros Hd Hb Hf Hr. assert (within d budget 0 (newGuard d budget r skip) (mkSpent 0 0)) as H0.
  { unfold within. simpl. unfold maxEntriesLimit. split_and!; try done; lia. }
  pose proof (wlp_runs _ _ _ _ _ _ (extract_within d budget Hd Hb fuel Hf src single c _ _ H0) Hr) as H.
  destruct res as [a|e]; [|destruct H as (H1 & H2 & H3); split_and!; [congruence|done|done|done]].
  destruct H as (_ & _ & _ & _ & Hc & Hm). unfold maxEntriesLimit in *. split_and!; [done|lia|lia|]. intros _ _. lia.
Qed.

(** With the largest budget there is, the room for one byte more wraps around, nothing is
    asked of the reader and the loop never ends. *)
Lemma Copy_never_ends d r fuel s :
  runs spends s (Copy fuel (newGuard d (2 ^ 63 - 1) r false)) (Err OutOfFuel, newGuard d (2 ^ 63 - 1) r false) s.
Proof.
  induction fuel as [|fuel IH]; [done|]. exists None, s. split; [done|].
  exists (0%Z, None), s. split.
  - assert (copy_request (newGuard d (2 ^ 63 - 1) r false) = - 2 ^ 63)%Z as E by reflexivity.
    rewrite E. destruct s. split_and!; simpl; [lia|lia|by split|by rewrite Z.add_0_r].
  - exact IH.
Qed.

(** The same directory and reader, and what they cost *)
Definition willing_world (s : spent) (c : call) : answer c * spent :=
  match c return answer c * spent with
  | CtxErr => (None, s)
  | CopyN n => (if (0 <? n)%Z then (0%Z, Some ReadEOF) else (0%Z, None), s)
  | Tree => (mkTree (λ _, None) (λ _, None) (λ p, Ok p), s)
  | EvalDest p => (Ok p, s)
  | RootReadlink _ | ReadTarget => (Err [], s)
  | RootLstat _ | RootIsDir _ => (Ok false, s)
  | LstatKind _ => (None, s)
  | ReadDir _ => (None, s)
  | RootCreate _ | RootSymlink _ _ | RootLink _ _ => (Ok (), mkSpent (copied s) (entries_made s + 1))
  | _ => (Ok (), s)
  end.

Lemma willing_spends s c : spends s c (willing_world s c).1 (willing_world s c).2.
Proof.
  destruct c; simpl; try done. destruct s. destruct (Z.ltb_spec 0 n); simpl.
  - split_and!; [lia|lia| |by rewrite Z.add_0_r]. split; [done|lia].
  - split_and!; [lia|lia| |by rewrite Z.add_0_r]. split; [lia|done].
Qed.

Lemma extraction_within_limits_witness : ∃ res g,
  runs spends (mkSpent 0 0) (extract 1 "x.tar" "" two_files (newGuard "/dest" 100 (mkHostRules false false false) false))
    (res, g) (mkSpent 0 2) ∧
  (res ≠ Err OutOfFuel ∧ (0 ≤ 101)%Z ∧ (2 ≤ 1000000)%Z ∧ (∀ a, res = Ok a → (0 ≤ 100)%Z)).
Proof.
  set (p := extract 1 "x.tar" "" two_files (newGuard "/dest" 100 (mkHostRules false false false) false)).
  pose proof (play_world_runs spends willing_world (mkSpent 0 0) p willing_spends) as Hr.
  replace (play_world willing_world (mkSpent 0 0) p).2 with (mkSpent 0 2) in Hr by (vm_compute; reflexivity).
  exists (play_world willing_world (mkSpent 0 0) p).1.1, (play_world willing_world (mkSpent 0 0) p).1.2.
  rewrite <- surjective_pairing. split; [exact Hr|]. rewrite (surjective_pairing (play_world _ _ _).1) in Hr.
  apply (extraction_within_limits 1 "x.tar" "" two_files "/dest" 100 _ false _ _ _ eq_refl) in Hr;
    [exact Hr|lia|unfold copyChunk; lia].
Defined.
