(* ===== verification/UnpackLinks.v ===== *)
(** * Where the links of an unpacked archive lead

    The way the kernel takes along a path as a step relation on a disk of directories,
    files and links; what [Unpack.resolve] accepts never leaves the destination on that
    way, and no link [Unpack.Verify] leaves does. *)

From S2P Require Import Prelude Errors GoStrings GoFilepath Prog Unpack.

(** ** The disk, and the way along a path *)

Inductive node := Dir_ | File_ | Link_ (target : string).

#[export] Instance node_eq_dec : EqDecision node.
Proof. solve_decision. Defined.

Abbreviation disk := (gmap (list string) node).

(** Where the way has got, and the components still to go.  A component that is not there
    ends it, and so does the last one. *)
Inductive follow (D : disk) : list string * list string → list string * list string → Prop :=
| follow_none cur part rest : part = "" ∨ part = "." → follow D (cur, part :: rest) (cur, rest)
| follow_up cur rest : follow D (cur, ".." :: rest) (removelast cur, rest)
| follow_down cur part rest n : normal part → D !! (cur ++ [part]) = Some n → (∀ target, n ≠ Link_ target) →
    follow D (cur, part :: rest) (cur ++ [part], rest)
| follow_link cur part rest target : normal part → D !! (cur ++ [part]) = Some (Link_ target) →
    follow D (cur, part :: rest) (if IsAbs target then [] else cur, split_byte "/" target ++ rest).

(** No link on the way to it *)
Definition straight (D : disk) (ps : list string) : Prop :=
  ∀ q target, q `prefix_of` ps → D !! q ≠ Some (Link_ target).

(** The file system answers for the disk, wherever no link is passed on the way. *)
Definition sees (t : tree) (D : disk) : Prop := ∀ ps p,
  straight D ps → Forall normal (ps ++ [p]) →
  Lstat t (rooted_path (ps ++ [p])) =
    match D !! (ps ++ [p]) with Some (Link_ _) => Some true | Some _ => Some false | None => None end ∧
  Readlink t (rooted_path (ps ++ [p])) =
    match D !! (ps ++ [p]) with Some (Link_ target) => Some target | _ => None end.

Section confined.
Context (root : list string).

(** The way never leaves [root]. *)
Definition confined (D : disk) (s : list string * list string) : Prop :=
  ∀ s', rtc (follow D) s s' → root `prefix_of` s'.1.

Lemma confined_step D s : root `prefix_of` s.1 → (∀ s', follow D s s' → confined D s') → confined D s.
Proof. intros H0 Hs s' H. destruct H as [s|s s1 s' Hf Hr]; [done|]. by apply (Hs s1 Hf). Qed.

(** With less on the disk, the way is no longer. *)
Lemma follow_subset D D' s s' : D' ⊆ D → follow D' s s' → follow D s s'.
Proof. intros HD []; econstructor; eauto using lookup_weaken. Qed.

Lemma confined_subset D D' s : D' ⊆ D → confined D s → confined D' s.
Proof.
  intros HD Hc s' Hr. apply Hc. eapply rtc_subrel; [|exact Hr]. intros x y. by apply follow_subset.
Qed.

Lemma straight_subset D D' ps : D' ⊆ D → straight D ps → straight D' ps.
Proof. intros HD Hs q target Hq Hl. apply (Hs q target Hq). by eapply lookup_weaken. Qed.
End confined.

(** ** Paths from the root *)

Lemma Inside_rooted root ps :
  Forall normal root → Forall normal ps →
  Inside (rooted_path root) (rooted_path ps) = true ↔ root `prefix_of` ps.
Proof.
  intros Hr Hp. unfold Inside, Rel.
  destruct (Clean_rooted_normal root Hr) as [-> E1], (Clean_rooted_normal ps Hp) as [-> E2].
  rewrite !IsAbs_rooted, E1, E2. destruct (String.eqb_spec (rooted_path root) (rooted_path ps)) as [E|Hne].
  - apply rooted_path_inj in E as ->; [|done|done]. by split.
  - simpl negb. cbn iota. destruct (differing root ps) as [up down] eqn:Hd.
    rewrite <- differing_below, Hd. simpl.
    apply differing_down in Hd as (shared & Hroot & Hps). destruct up as [|u up].
    + split; [done|intros _]. simpl. rewrite RelInside_join.
      * subst ps. apply Forall_app in Hp as [_ Hdown]. destruct Hdown as [|x down (_ & _ & Hx & _) _]; [done|].
        simpl. rewrite bool_decide_false; [done|]. congruence.
      * apply normal_no_sep. subst ps. by apply Forall_app in Hp as [_ ?].
    + split; [|done]. intros Hi. exfalso.
      match type of Hi with match ?x with Some _ => _ | None => _ end = true => destruct x as [rel|] eqn:E; [|done] end.
      assert (rel = join "/" (map (λ _ : string, "..") (u :: up) ++ down)) as ->.
      { clear -E. repeat case_match; congruence. } by rewrite dots_up in Hi.
Qed.

Lemma Dir_up ps : Forall normal ps → Dir (rooted_path ps) = rooted_path (removelast ps).
Proof.
  intros Hp. induction ps as [|p ps _] using rev_ind; [done|]. rewrite removelast_last.
  apply Forall_app in Hp as [Hps Hp]. apply Dir_rooted; [done|by inversion Hp].
Qed.

Lemma Forall_removelast {A} (Q : A → Prop) l : Forall Q l → Forall Q (removelast l).
Proof.
  intros H. induction l as [|x l _] using rev_ind; [done|]. rewrite removelast_last. by apply Forall_app in H as [? _].
Qed.

Lemma removelast_prefix {A} (l : list A) : removelast l `prefix_of` l.
Proof. induction l as [|x l _] using rev_ind; [done|]. rewrite removelast_last. by exists [x]. Qed.

Lemma straight_prefix D ps qs : qs `prefix_of` ps → straight D ps → straight D qs.
Proof. intros Hq Hs q target Hp. apply Hs. by etrans. Qed.

Lemma straight_snoc D ps p : straight D ps → (∀ target, D !! (ps ++ [p]) ≠ Some (Link_ target)) → straight D (ps ++ [p]).
Proof.
  intros Hs Hp q target [k E]. destruct k as [|x k _] using rev_ind.
  - rewrite app_nil_r in E. subst q. apply Hp.
  - rewrite app_assoc in E. apply app_inj_tail in E as [-> _]. apply Hs. by exists k.
Qed.

Lemma part_normal part :
  contains_byte Separator part = false → is_empty part = false → part ≠ "." → part ≠ ".." → normal part.
Proof. intros Hs He H1 H2. split_and!; [by intros ->|done|done|done]. Qed.

(** ** What is accepted never leaves the destination *)

Section resolver.
Context (root : list string) (t : tree) (D : disk).
Context (Hroot : root ≠ []) (Hnormal : Forall normal root) (Hsees : sees t D).

(** A place the way may be at *)
Definition place_ok (cur : list string) : Prop := root `prefix_of` cur ∧ Forall normal cur ∧ straight D cur.

(** What is left to do when a path has led to [cur], or to something missing *)
Definition leads (o : outcome) (cur : list string) (parts : list string) : Prop :=
  match o.1 with
  | Ok (path, true) => ∃ cur', path = rooted_path cur' ∧ place_ok cur' ∧
      ∀ rest, confined root D (cur', rest) → confined root D (cur, parts ++ rest)
  | Ok (_, false) => ∀ rest, confined root D (cur, parts ++ rest)
  | Err _ => True
  end.

Lemma place_nonempty cur : place_ok cur → cur ≠ [].
Proof. intros (Hr & _ & _) ->. by destruct root, Hr. Qed.

(** One step of the way, the only one there is *)
Lemma leads_step o cur part parts cur' parts' :
  place_ok cur →
  (∀ rest s', follow D (cur, part :: parts ++ rest) s' → s' = (cur', parts' ++ rest)) →
  leads o cur' parts' → leads o cur (part :: parts).
Proof.
  intros (Hc & _ & _) Hf. unfold leads. destruct o.1 as [[path []]|]; [| |done].
  - intros (c & -> & Hok & Hl). exists c. split_and!; [done|done|]. intros rest Hrest.
    apply confined_step; [done|]. intros s' ->%Hf. by apply Hl.
  - intros Hl rest. apply confined_step; [done|]. intros s' ->%Hf. apply Hl.
Qed.

Lemma follow_to cur part n : normal part → D !! (cur ++ [part]) = n →
  ∀ rest s', follow D (cur, part :: rest) s' →
  match n with
  | Some (Link_ target) => s' = (if IsAbs target then [] else cur, split_byte "/" target ++ rest)
  | Some _ => s' = (cur ++ [part], rest)
  | None => False
  end.
Proof.
  intros (H1 & H2 & H3 & _) <- rest s' Hf.
  inversion Hf as [? ? ? Hor|?|? ? ? m _ Hm Hl|? ? ? target _ Hm]; subst; [by destruct Hor|done| |].
  - rewrite Hm. destruct m; [done|done|by destruct (Hl target)].
  - by rewrite Hm.
Qed.

Lemma follow_none_to cur part : part = "" ∨ part = "." →
  ∀ rest s', follow D (cur, part :: rest) s' → s' = (cur, rest).
Proof. intros Hp rest s' Hf. inversion Hf as [|?|? ? ? ? (? & ? & _)|? ? ? ? (? & ? & _)]; subst; naive_solver. Qed.

Lemma follow_up_to cur : ∀ rest s', follow D (cur, ".." :: rest) s' → s' = (removelast cur, rest).
Proof. intros rest s' Hf. inversion Hf as [? ? ? [|]|?|? ? ? ? (? & ? & ? & _)|? ? ? ? (? & ? & ? & _)]; by subst. Qed.

Lemma Join_child cur part : cur ≠ [] → Forall normal cur → normal part →
  Join [rooted_path cur; part] = rooted_path (cur ++ [part]).
Proof.
  intros Hn Hc Hp. assert (split_byte Separator part = [part]) as E.
  { apply (split_join Separator [part]); [done|]. constructor; [by destruct Hp as (_ & _ & _ & ?)|done]. }
  rewrite Join_rooted_normal; rewrite ?E; [done|done|done|by constructor].
Qed.

(** What following a link is trusted with *)
Definition good_inner (inner : option (nat → string → string → outcome)) : Prop :=
  ∀ resolve hops cur target, inner = Some resolve → place_ok cur →
  leads (resolve hops (rooted_path cur) target) cur (split_byte "/" target) ∧
  (∀ a, (resolve hops (rooted_path cur) target).1 = Ok a → IsAbs target = false).

Lemma walk_leads inner parts cur hops :
  good_inner inner → place_ok cur → Forall (λ p, contains_byte Separator p = false) parts →
  leads (walk t (rooted_path root) inner (rooted_path cur) parts hops) cur parts.
Proof.
  intros Hin Hok Hp. revert cur hops Hok. induction Hp as [|part parts Hpart Hp IH]; intros cur hops Hok.
  { exists cur. by split_and!. }
  cbn [walk]. destruct (is_empty part || String.eqb part ".") eqn:Hnone.
  { apply (leads_step _ _ _ _ cur parts); [done| |by apply IH]. intros rest s'. apply follow_none_to.
    apply orb_true_iff in Hnone as [He|He]; [left; by destruct part|right; by apply String.eqb_eq]. }
  apply orb_false_iff in Hnone as [He Hdot]. apply String.eqb_neq in Hdot.
  destruct Hok as (Hroot' & Hnorm & Hst) eqn:Hok'. clear Hok'.
  destruct (String.eqb_spec part "..") as [->|Hdd].
  { unfold contain. rewrite Dir_up by done. destruct (Inside _ _) eqn:Hi; [|done].
    apply Inside_rooted in Hi; [|done|by apply Forall_removelast].
    apply (leads_step _ _ _ _ (removelast cur) parts); [done|intros rest s'; apply follow_up_to|].
    apply IH. split_and!; [done|by apply Forall_removelast|]. eapply straight_prefix; [apply removelast_prefix|done]. }
  assert (normal part) as Hn by by apply part_normal.
  assert (Forall normal (cur ++ [part])) as Hnext by by (apply Forall_app; split; [|constructor]).
  assert (cur ≠ []) as Hne by by eapply place_nonempty.
  rewrite Join_child by done. destruct (Hsees cur part Hst Hnext) as [-> ->].
  pose proof (follow_to cur part _ Hn eq_refl) as Hto.
  destruct (D !! (cur ++ [part])) as [[| |target]|] eqn:Hl.
  1,2: apply (leads_step _ _ _ _ (cur ++ [part]) parts); [done|intros rest s'; apply Hto|]; apply IH;
    split_and!; [by apply prefix_app_r|done|apply straight_snoc; [done|by rewrite Hl]].
  - destruct hops as [|hops]; [done|]. destruct inner as [resolve|] eqn:Ei; [|done].
    destruct (Hin resolve hops cur target eq_refl Hok) as [Hlead Hrel].
    destruct (resolve hops (rooted_path cur) target) as [[[path []]|e] hops'] eqn:Er; [| |done].
    + specialize (Hrel _ eq_refl). destruct Hlead as (cur' & -> & Hok' & Hlead).
      specialize (IH cur' hops' Hok'). apply (leads_step _ _ _ _ cur (split_byte "/" target ++ parts)); [done| |].
      { intros rest s' Hf%Hto. by rewrite Hrel, app_assoc in Hf. }
      unfold leads in IH |- *. destruct (walk _ _ _ _ _ _).1 as [[path []]|]; [| |done].
      * destruct IH as (c & -> & Hc & IH). exists c. split_and!; [done|done|]. intros rest Hrest.
        rewrite <- app_assoc. by apply Hlead, IH.
      * intros rest. rewrite <- app_assoc. by apply Hlead.
    + specialize (Hrel _ eq_refl). unfold contain. destruct (Inside _ _); [|done].
      intros rest. apply confined_step; [done|]. intros s' Hf%Hto. rewrite Hrel in Hf. subst s'. apply Hlead.
  - unfold contain. destruct (Inside _ _); [|done]. intros rest. apply confined_step; [done|]. by intros s' Hf%Hto.
Qed.

Lemma resolve_leads depth : good_inner (Some (resolve t (rooted_path root) depth)).
Proof.
  induction depth as [|depth IH]; intros f hops cur target [= <-] Hok; cbn [resolve];
    (destruct (IsAbsolute target) eqn:Ha; [by split|]);
    unfold IsAbsolute in Ha; apply orb_false_iff in Ha as [_ Ha]; (split; [|done]);
    apply walk_leads; try done; apply split_byte_no_sep.
Qed.

(** A link that is accepted stays in the destination, however far it is followed. *)
Lemma resolve_confined depth hops cur target a :
  place_ok cur → (resolve t (rooted_path root) depth hops (rooted_path cur) target).1 = Ok a →
  confined root D (cur, split_byte "/" target).
Proof.
  intros Hok Hr. destruct (resolve_leads depth _ hops cur target eq_refl Hok) as [Hlead _].
  unfold leads in Hlead. rewrite Hr in Hlead. rewrite <- (app_nil_r (split_byte "/" target)).
  destruct a as [path []]; [|apply Hlead]. destruct Hlead as (c & _ & Hc & Hl). apply Hl.
  apply confined_step; [by destruct Hc|]. intros s' Hf. inversion Hf.
Qed.
End resolver.

(** ** The links the code follows and the depth of the recursion *)

Lemma walk_hops t dest inner parts : ∀ cur hops,
  (∀ f h c g, inner = Some f → (f h c g).2 ≤ h) → (walk t dest inner cur parts hops).2 ≤ hops.
Proof.
  induction parts as [|part rest IH]; intros cur hops Hin; cbn [walk]; [done|].
  repeat case_match; subst; cbn; auto; try lia.
  all: match goal with H : ?f ?h ?c ?g = (_, ?h') |- _ =>
    assert (h' ≤ h) by (specialize (Hin f h c g eq_refl); by rewrite H in Hin) end;
    first [lia|etrans; [by apply IH|lia]].
Qed.

Lemma resolve_hops t dest depth : ∀ hops dir target, (resolve t dest depth hops dir target).2 ≤ hops.
Proof.
  induction depth as [|depth IH]; intros hops dir target; cbn [resolve]; case_match; try done;
    apply walk_hops; [done|]. intros f h c g [= <-]. apply IH.
Qed.

(** Two ways of following a link that agree on fewer links left than [n] *)
Definition agree_below (n : nat) (inner inner' : option (nat → string → string → outcome)) : Prop :=
  ∀ h c g, h < n → ∃ f f', inner = Some f ∧ inner' = Some f' ∧ f h c g = f' h c g ∧ (f h c g).2 ≤ h.

Lemma walk_agree t dest inner inner' parts : ∀ cur hops,
  agree_below hops inner inner' → walk t dest inner cur parts hops = walk t dest inner' cur parts hops.
Proof.
  induction parts as [|part rest IH]; intros cur hops Hag; cbn [walk]; [done|].
  assert (Hless : ∀ h c, h ≤ hops → walk t dest inner c rest h = walk t dest inner' c rest h).
  { intros h c Hh. apply IH. intros h' c' g Hlt. apply Hag. lia. }
  case_match; [by apply Hless|]. case_match.
  { repeat case_match; try done. by apply Hless. }
  destruct (Lstat t _) as [[]|]; [|by apply Hless|done].
  destruct hops as [|hops]; [done|].
  destruct (Hag hops cur ""%string ltac:(lia)) as (f & f' & -> & -> & _).
  destruct (Readlink t _) as [target'|]; [|done].
  destruct (Hag hops cur target' ltac:(lia)) as (g & g' & [= <-] & [= <-] & Heq & Hle). rewrite <- Heq.
  destruct (f hops cur target') as [[[next' []]|e] hops'']; try done. apply Hless. cbn in Hle. lia.
Qed.

(** No deeper than the links left: a greater depth changes nothing. *)
Lemma resolve_depth t dest depth : ∀ extra hops dir target, hops ≤ depth →
  resolve t dest depth hops dir target = resolve t dest (depth + extra) hops dir target.
Proof.
  induction depth as [|depth IH]; intros extra hops dir target Hle.
  - destruct extra as [|extra]; [done|]. cbn [resolve plus]. case_match; [done|].
    apply walk_agree. intros h c g Hlt. lia.
  - cbn [resolve plus]. case_match; [done|]. apply walk_agree. intros h c g Hlt.
    do 2 eexists. split_and!; [done|done|apply IH; lia|apply resolve_hops].
Qed.

(** ** Verifying *)

(** The entry that a name below [root] is of: the last component, where the others lead *)
Definition names_entry (root : list string) (D : disk) (name : string) (q : list string) : Prop :=
  ∃ ps p cur, split_byte "/" name = ps ++ [p] ∧ rtc (follow D) (root, ps) (cur, []) ∧ q = cur ++ [p].

(** What verifying meets: the disk as it is, and removals, each of which takes away the entry
    it names and no other; [refuses] says whether one may fail. *)
Definition verifies (root : list string) (refuses : bool) (D : disk) (c : call) : answer c → disk → Prop :=
  match c with
  | Tree => λ t D', sees t D ∧ D' = D
  | RootRemove name => λ (r : result error unit) D',
    match r with
    | Ok _ => ∃ q, names_entry root D name q ∧ D' = delete q D
    | Err _ => refuses = true ∧ D' = D
    end
  | _ => λ _ _, False
  end.

(** Where no link is on the way, a name is of its own entry. *)
Lemma straight_follow D root ps cur :
  straight D (root ++ ps) → Forall normal ps → rtc (follow D) (root, ps) (cur, []) → cur = root ++ ps.
Proof.
  revert root. induction ps as [|p ps IH]; intros root Hst Hn Hr.
  - rewrite app_nil_r. inversion Hr as [|s s1 s2 Hf]; subst; [done|]. inversion Hf.
  - apply Forall_cons in Hn as [Hp Hn]. inversion Hr as [|s s1 s2 Hf Hrest]; subst.
    assert ((root ++ [p]) ++ ps = root ++ p :: ps) as Happ by (by rewrite <- app_assoc).
    inversion Hf as [? ? ? Hor|?|? ? ? m _ Hm Hl|? ? ? target _ Hm]; subst.
    + destruct Hp as (H1 & H2 & _). by destruct Hor.
    + by destruct Hp as (_ & _ & ? & _).
    + rewrite <- Happ. apply IH; [by rewrite Happ|done|done].
    + exfalso. eapply (Hst (root ++ [p])); [|exact Hm]. by exists ps.
Qed.

Lemma Rel_below root rest :
  rest ≠ [] → Forall normal (root ++ rest) → Rel (rooted_path root) (rooted_path (root ++ rest)) = Some (join "/" rest).
Proof.
  intros Hn Hp. pose proof Hp as [Hr _]%Forall_app. unfold Rel.
  destruct (Clean_rooted_normal root Hr) as [-> E1], (Clean_rooted_normal _ Hp) as [-> E2].
  rewrite !IsAbs_rooted, E1, E2. destruct (String.eqb_spec (rooted_path root) (rooted_path (root ++ rest))) as [E|_].
  - apply rooted_path_inj in E; [|done|done]. exfalso. apply Hn.
    rewrite <- (app_nil_r root) in E at 1. by apply app_inv_head in E.
  - simpl negb. cbn iota. by rewrite differing_rest.
Qed.

Lemma names_entry_straight D root rest p q :
  Forall normal (rest ++ [p]) → straight D (root ++ rest) →
  names_entry root D (join "/" (rest ++ [p])) q → q = root ++ rest ++ [p].
Proof.
  intros Hn Hst (ps & p' & cur & Hs & Hr & ->). change "/" with (String Separator "") in Hs.
  rewrite split_join in Hs; [|by destruct rest|by apply normal_no_sep]. apply app_inj_tail in Hs as [<- <-].
  apply Forall_app in Hn as [Hn _]. rewrite (straight_follow D root rest cur Hst Hn Hr). by rewrite <- app_assoc.
Qed.

Section verify.
Context (root : list string) (g : Guard) (refuses : bool).
Context (Hroot : root ≠ []) (Hnormal : Forall normal root) (Hdest : dest g = rooted_path root).
Context (Hrefuses : skipEscaping g = true → refuses = false).

(** The entry [q] is taken away for a link: its name is of [q], and the link was found to
    lead out. *)
Definition lost_for (D : disk) (link : string) (q : list string) : Prop :=
  ∃ t target e, sees t D ∧ Readlink t link = Some target ∧
    (resolve t (rooted_path root) maxLinkHops maxLinkHops (Dir link) target).1 = Err e ∧
    names_entry root D (default "" (Rel (rooted_path root) link)) q.

(** The disk has only lost entries, each for one of the links. *)
Definition only_lost (D D' : disk) (ls : list string) : Prop :=
  D' ⊆ D ∧ ∀ q, D' !! q ≠ D !! q → ∃ link D1, link ∈ ls ∧ D' ⊆ D1 ∧ D1 ⊆ D ∧ lost_for D1 link q.

Lemma only_lost_none D ls : only_lost D D ls.
Proof. by split; [|intros q []]. Qed.

Lemma only_lost_trans D D1 D2 link ls :
  only_lost D D1 [link] → only_lost D1 D2 ls → only_lost D D2 (link :: ls).
Proof.
  intros [H1 L1] [H2 L2]. split; [by etrans|]. intros q Hq. destruct (decide (D2 !! q = D1 !! q)) as [E|E].
  - rewrite E in Hq. destruct (L1 q Hq) as (l & D3 & ->%list_elem_of_singleton & ? & ? & ?).
    exists link, D3. split_and!; [left|by etrans|done..].
  - destruct (L2 q E) as (l & D3 & ? & ? & ? & ?). exists l, D3. split_and!; [by right|done|by etrans|done].
Qed.

Lemma only_lost_one D link q : lost_for D link q → only_lost D (delete q D) [link].
Proof.
  intros Hl. split; [apply delete_subseteq|]. intros q' Hq. destruct (decide (q = q')) as [<-|Hne].
  - exists link, D. split_and!; [left|apply delete_subseteq|done..].
  - by rewrite lookup_delete_ne in Hq.
Qed.

(** It is no link any more, or one that stays below the destination. *)
Definition settled (D : disk) (link : string) : Prop := ∀ ps p target,
  link = rooted_path (ps ++ [p]) → Forall normal (ps ++ [p]) → D !! (ps ++ [p]) = Some (Link_ target) →
  confined root D (ps, split_byte "/" target).

Lemma settled_subset D D' link : D' ⊆ D → settled D link → settled D' link.
Proof.
  intros HD Hs ps p target E Hn Hl. eapply confined_subset; [exact HD|].
  eapply Hs; [done|done|]. by eapply lookup_weaken.
Qed.

(** A link that is where its name says: inside the destination, with no link on the way *)
Definition own_place (D : disk) (link : string) : Prop :=
  ∃ ps p, link = rooted_path (ps ++ [p]) ∧ normal p ∧ place_ok root D ps.

Lemma own_place_subset D D' link : D' ⊆ D → own_place D link → own_place D' link.
Proof.
  intros HD (ps & p & -> & Hp & H1 & H2 & H3). exists ps, p. split_and!; [done|done|].
  split_and!; [done|done|by eapply straight_subset].
Qed.

Lemma resolved_settles t D ps p :
  sees t D → normal p → place_ok root D ps →
  match Readlink t (rooted_path (ps ++ [p])) with
  | None => True
  | Some target => ∃ a, (resolve t (rooted_path root) maxLinkHops maxLinkHops (rooted_path ps) target).1 = Ok a
  end → settled D (rooted_path (ps ++ [p])).
Proof.
  intros Hsees Hp Hok Hres ps' p' target E Hn' Hl. pose proof Hok as (_ & Hps & Hst).
  assert (Forall normal (ps ++ [p])) as Hn by by (apply Forall_app; split; [|constructor]).
  apply rooted_path_inj in E; [|done|done]. apply app_inj_tail in E as [<- <-].
  destruct (Hsees ps p Hst Hn) as [_ Hread]. rewrite Hread, Hl in Hres. destruct Hres as [a Ha].
  by eapply resolve_confined.
Qed.

Lemma verifyLink_settles D link :
  wlp (verifies root refuses) D (verifyLink g link)
    (λ r D', only_lost D D' [link] ∧ (own_place D link → r = Ok () → settled D' link)).
Proof.
  unfold verifyLink. apply wlp_ask_bind. intros t D1 [Hsees ->].
  destruct (Readlink t link) as [target|] eqn:Hread.
  2: { apply wlp_ret. split; [apply only_lost_none|]. intros (ps & p & -> & Hp & Hok) _.
       apply (resolved_settles t); try done. by rewrite Hread. }
  rewrite Hdest. destruct (resolve t (rooted_path root) maxLinkHops maxLinkHops (Dir link) target).1 as [a|e] eqn:Hr.
  - apply wlp_ret. split; [apply only_lost_none|]. intros (ps & p & -> & Hp & Hok) _.
    apply (resolved_settles t); try done. rewrite Hread. destruct Hok as (_ & Hps & _).
    rewrite Dir_rooted in Hr by done. by exists a.
  - apply (wlp_ask_bind _ _ (RootRemove _)). intros [[]|e'] D2; cbn [verifies default].
    + intros (q & Hq & ->). apply wlp_ret. split; [apply only_lost_one; by exists t, target, e|].
      intros (ps & p & -> & Hp & Hok) _ ps' p' target' E Hn' Hl'. destruct Hok as (Hpre & Hps & Hst).
      assert (Forall normal (ps ++ [p])) as Hn by by (apply Forall_app; split; [|constructor]).
      apply rooted_path_inj in E; [|done|done]. apply app_inj_tail in E as [<- <-].
      destruct Hpre as [rest ->]. rewrite <- app_assoc in Hn, Hq, Hl'.
      rewrite (Rel_below root (rest ++ [p])) in Hq; [|by destruct rest|done]. cbn [default] in Hq.
      apply names_entry_straight in Hq; [|by apply Forall_app in Hn as [_ ?]|done]. subst q.
      by rewrite lookup_delete_eq in Hl'.
    + intros [Href ->]. apply wlp_ret. split; [apply only_lost_none|]. intros _ Ht. exfalso. unfold tolerateEscape in Ht.
      destruct (skipEscaping g); [|done]. by rewrite Hrefuses in Href.
Qed.

Lemma join_each_settles ls : ∀ D,
  wlp (verifies root refuses) D (join_each (verifyLink g) ls)
    (λ r D', only_lost D D' ls ∧ (r = Ok () → Forall (λ link, own_place D link → settled D' link) ls)).
Proof.
  induction ls as [|l ls IH]; intros D; [by split; [apply only_lost_none|constructor]|].
  cbn [join_each]. apply wlp_bind. eapply wlp_mono; [by apply verifyLink_settles|]. intros r D1 [H1 Hr]. apply wlp_bind.
  eapply wlp_mono; [by apply IH|]. intros rs D2 [H2 Hrs]. apply wlp_ret. split; [by eapply only_lost_trans|].
  intros E. destruct r as [[]|e], rs as [[]|e']; try done. constructor.
  - intros Hl. eapply settled_subset; [by destruct H2|]. by apply Hr.
  - eapply Forall_impl; [by apply Hrs|]. intros link Hl Hown. apply Hl. eapply own_place_subset; [|exact Hown]. by destruct H1.
Qed.
End verify.

(** C29. Once a tree is unpacked, verifying it leaves no link that leads out.  When [Verify]
    accepts, take any link that the guard recorded and that is still on the disk, at a place
    below the destination that no link was on the way to when the verifying began: it stays
    below the destination however far the kernel follows it, whatever other links are on its
    way.  The disk has only lost entries, each the one that the name of a recorded link is of,
    and only for a link that was found to lead out.  This is where the host does not type its
    links, so that none is made again, and, where escaping links are skipped rather than
    refused, where they can be removed.  (A link recorded below a name that has become a link
    is not covered: what it is read from is then elsewhere.) *)
Theorem verified_links_stay root g refuses D D' :
  root ≠ [] → Forall normal root → dest g = rooted_path root → untyped g = [] →
  (skipEscaping g = true → refuses = false) →
  runs (verifies root refuses) D (Verify g) (Ok ()) D' →
  only_lost root D D' (links g) ∧
  ∀ ps p target, rooted_path (ps ++ [p]) ∈ links g → normal p → place_ok root D ps →
    D' !! (ps ++ [p]) = Some (Link_ target) → confined root D' (ps, split_byte "/" target).
Proof.
  intros Hroot Hnormal Hdest Hu Hskip Hr.
  assert (wlp (verifies root refuses) D (Verify g) (λ r D', only_lost root D D' (links g) ∧
    (r = Ok () → Forall (λ link, own_place root D link → settled root D' link) (links g)))) as Hw.
  { unfold Verify. rewrite Hu. cbn [join_each]. apply wlp_bind, wlp_ret, wlp_bind.
    eapply wlp_mono; [by apply (join_each_settles root g refuses)|]. intros r D1 [H1 H2].
    apply wlp_ret. split; [done|]. destruct r as [[]|]; [by auto|done]. }
  destruct (wlp_runs _ _ _ _ _ _ Hw Hr) as [Hsub Hset]. split; [done|].
  specialize (Hset eq_refl). rewrite Forall_forall in Hset. intros ps p target Hin Hp Hok Hl.
  eapply (Hset _ Hin); [by exists ps, p|reflexivity| |exact Hl].
  apply Forall_app. split; [by destruct Hok as (_ & ? & _)|by constructor].
Qed.

Lemma runs_verifyLink root refuses D g link t target res :
  sees t D → Readlink t link = Some target →
  (resolve t (dest g) maxLinkHops maxLinkHops (Dir link) target).1 = res →
  match res with
  | Ok _ => runs (verifies root refuses) D (verifyLink g link) (Ok ()) D
  | Err e => refuses = true → runs (verifies root refuses) D (verifyLink g link) (tolerateEscape g e) D
  end.
Proof.
  intros Ht Hl Hr. destruct res as [a|e].
  - apply (runs_bind _ _ _ _ t D); [by exists t, D|]. by rewrite Hl, Hr.
  - intros Hf. apply (runs_bind _ _ _ _ t D); [by exists t, D|]. rewrite Hl, Hr.
    apply (runs_bind _ _ _ _ (Err []) D); [|done]. by exists (Err []), D.
Qed.

Lemma runs_Verify_one root refuses D g link :
  untyped g = [] → links g = [link] → runs (verifies root refuses) D (verifyLink g link) (Ok ()) D →
  runs (verifies root refuses) D (Verify g) (Ok ()) D.
Proof.
  intros Hu Hl Hr. unfold Verify. rewrite Hu, Hl. cbn [join_each].
  apply (runs_bind _ _ _ _ (Ok ()) D); [done|]. apply (runs_bind _ _ _ _ (Ok ()) D); [|done].
  by apply (runs_bind _ _ _ _ (Ok ()) D).
Qed.

(** The answers of a file system that is the disk, for paths no link is on the way to *)
Definition tree_of (D : disk) : tree :=
  mkTree
    (λ path, match D !! clean_parts true path with Some (Link_ _) => Some true | Some _ => Some false | None => None end)
    (λ path, match D !! clean_parts true path with Some (Link_ target) => Some target | _ => None end)
    (λ path, Ok path).

Lemma tree_of_sees D : sees (tree_of D) D.
Proof. intros ps p _ Hn. simpl. by destruct (Clean_rooted_normal _ Hn) as [_ ->]. Qed.

(** [x] leads through the link [d/up] back up, and down again. *)
Definition linked : disk :=
  list_to_map [(["dest"], Dir_); (["dest"; "d"], Dir_); (["dest"; "d"; "up"], Link_ ".."); (["dest"; "x"], Link_ "d/up/d")].

Definition linked_guard : Guard :=
  set_links (newGuard "/dest" 100 (mkHostRules false false false) true) ["/dest/x"].

Lemma dest_straight : straight linked ["dest"].
Proof.
  intros q target [k E]. destruct q as [|a [|b q]]; [done| |done]. injection E as <- _. by vm_compute.
Qed.

Lemma verified_links_stay_witness :
  runs (verifies ["dest"] false) linked (Verify linked_guard) (Ok ()) linked ∧
  confined ["dest"] linked (["dest"], ["d"; "up"; "d"]).
Proof.
  assert (Forall normal ["dest"]) as Hn by (repeat constructor; done).
  assert (runs (verifies ["dest"] false) linked (Verify linked_guard) (Ok ()) linked) as Hr.
  { apply (runs_Verify_one _ _ _ _ "/dest/x"); [reflexivity|reflexivity|].
    exact (runs_verifyLink ["dest"] false linked linked_guard "/dest/x" (tree_of linked) "d/up/d"
      (Ok ("/dest/d", true)) (tree_of_sees _) ltac:(by vm_compute) ltac:(vm_compute; reflexivity)). }
  split; [exact Hr|].
  destruct (verified_links_stay ["dest"] linked_guard false linked linked) as [_ Hall];
    [done|exact Hn|reflexivity|reflexivity|done|exact Hr|].
  apply (Hall ["dest"] "x" "d/up/d"); [left|by split_and!| |by vm_compute].
  split_and!; [done|exact Hn|exact dest_straight].
Defined.

(** An escaping link that cannot be removed is left, and nothing is said where escaping
    links are skipped. *)
Definition escaping : disk :=
  list_to_map [(["dest"], Dir_); (["dest"; "d"], Dir_); (["dest"; "d"; "up"], Link_ ".."); (["dest"; "x"], Link_ "d/up/../etc")].

Lemma refused_removal_tolerated :
  runs (verifies ["dest"] true) escaping (Verify linked_guard) (Ok ()) escaping ∧
  follow escaping (["dest"], [".."; "etc"]) ([], ["etc"]).
Proof.
  split; [|apply (follow_up _ ["dest"])].
  apply (runs_Verify_one _ _ _ _ "/dest/x"); [reflexivity|reflexivity|].
  exact (runs_verifyLink ["dest"] true escaping linked_guard "/dest/x" (tree_of escaping) "d/up/../etc"
    (Err [ErrEscape]) (tree_of_sees _) ltac:(by vm_compute) ltac:(vm_compute; reflexivity) eq_refl).
Qed.
