(* ===== verification/Auth.v ===== *)
(** * Pairing a device (internal/domain/auth, internal/app/repositories/pairingcode,
    internal/app/repositories/device, internal/app/usecases/auth.go)

    One-time codes and paired devices as aggregates behind the store of commands, the read
    model that looks a device up by the digest of its token, and the requests of the use
    case as programs of calls.  Requests run side by side: a history is what their calls
    were answered, in one order, on one world.  Times are nanoseconds. *)

From S2P Require Import Prelude Errors GoStrings Prog.

(** ** internal/domain/auth *)

Inductive DeviceState := DeviceStateActive | DeviceStateRevoked | OtherDeviceState (s : string).
Inductive PairingCodeState := PairingCodeStatePending | PairingCodeStateClaimed | OtherPairingCodeState (s : string).

#[export] Instance device_state_eq_dec : EqDecision DeviceState.
Proof. solve_decision. Defined.
#[export] Instance pairing_code_state_eq_dec : EqDecision PairingCodeState.
Proof. solve_decision. Defined.

Record Device := mkDevice {
  ID : string;
  dLabel : string;
  TokenHash : string;
  dState : DeviceState;
  PairedAt : Z;
  LastSeenAt : Z;
}.

Record PairingCode := mkPairingCode {
  pCode : string;
  pState : PairingCodeState;
  CreatedAt : Z;
  ExpiresAt : Z;
}.

Definition Device_IsActive (d : Device) : bool := bool_decide (dState d = DeviceStateActive).

Definition CanClaim (p : PairingCode) (now : Z) : bool :=
  bool_decide (pState p = PairingCodeStatePending) && Z.ltb now (ExpiresAt p).

(** ** The commands *)

Module Generate.
Definition Validate (current : option PairingCode) : bool :=
  match current with Some _ => false | None => true end.
Definition EmitEvent (code : string) (created expires : Z) : PairingCode :=
  mkPairingCode code PairingCodeStatePending created expires.
End Generate.

Module Claim.
Definition Validate (now : Z) (current : option PairingCode) : bool :=
  match current with Some p => CanClaim p now | None => false end.
Definition EmitEvent (p : PairingCode) : PairingCode :=
  mkPairingCode (pCode p) PairingCodeStateClaimed (CreatedAt p) (ExpiresAt p).
End Claim.

Inductive device_command :=
| Pair (id label token_hash : string) (now : Z)
| Touch (id : string) (now : Z)
| Revoke (id : string).

Definition device_of (c : device_command) : string :=
  match c with Pair id _ _ _ | Touch id _ | Revoke id => id end.

Definition Pair_EmitEvent (id label token_hash : string) (now : Z) : Device :=
  mkDevice id label token_hash DeviceStateActive now now.

Definition Touch_Validate (current : option Device) : bool :=
  match current with Some d => bool_decide (dState d = DeviceStateActive) | None => false end.

Definition Touch_EmitEvent (now : Z) (d : Device) : Device :=
  mkDevice (ID d) (dLabel d) (TokenHash d) (dState d) (PairedAt d) now.

Definition Revoke_Validate (current : option Device) : bool :=
  match current with Some d => bool_decide (dState d = DeviceStateActive) | None => false end.

Definition Revoke_EmitEvent (d : Device) : Device :=
  mkDevice (ID d) (dLabel d) (TokenHash d) DeviceStateRevoked (PairedAt d) (LastSeenAt d).

Definition device_Validate (c : device_command) (current : option Device) : bool :=
  match c with
  | Pair _ _ _ _ => true
  | Touch _ _ => Touch_Validate current
  | Revoke _ => Revoke_Validate current
  end.

(** [None] is the panic of a command on a device that is not there, which [Validate] rules
    out. *)
Definition device_EmitEvent (c : device_command) (current : option Device) : option Device :=
  match c, current with
  | Pair id label hash now, _ => Some (Pair_EmitEvent id label hash now)
  | Touch _ now, Some d => Some (Touch_EmitEvent now d)
  | Revoke _, Some d => Some (Revoke_EmitEvent d)
  | _, None => None
  end.

(** ** The read model: one row per device, one device per digest *)

Definition Upsert (rows : gmap string Device) (d : Device) : option (gmap string Device) :=
  if bool_decide (map_Forall (λ id d', id = ID d ∨ TokenHash d' ≠ TokenHash d) rows)
  then Some (<[ID d := d]> rows) else None.

Definition GetByTokenHash (rows : gmap string Device) (hash : string) : option Device :=
  snd <$> head (filter (λ p, TokenHash p.2 = hash) (map_to_list rows)).

(** [Find] with an order on [paired_at], newest first *)
Definition List_ (rows : gmap string Device) : list Device :=
  sort_func (λ a b, Z.compare (PairedAt b) (PairedAt a)) (map snd (map_to_list rows)).

(** ** Calls *)

Inductive call :=
| RandomCode
| RandomToken
| Now
| SendGenerate (code : string) (created expires : Z)
| SendClaim (code device label : string) (now : Z)
| SendDevice (c : device_command)
| RowByHash (hash : string)
| RowById (id : string)
| AllRows
| GoTouch (id : string).

Definition answer (c : call) : Type :=
  match c with
  | RandomCode | RandomToken => result error string
  | Now => Z
  | SendGenerate _ _ _ => result error PairingCode
  | SendClaim _ _ _ _ | SendDevice _ => result error unit
  | RowByHash _ | RowById _ => result error Device
  | AllRows => result error (list Device)
  | GoTouch _ => unit
  end.

Abbreviation P := (prog answer).

(** ** pairingcode.go *)

Definition maxGenerateAttempts : nat := 5.

Fixpoint generate_loop (attempts : nat) (now ttl : Z) : P (result error PairingCode) :=
  match attempts with
  | O => mret (Err [ErrStateViolation])
  | S attempts =>
    code ← (ask RandomCode : P (result error string));
    match code with
    | Err e => mret (Err e)
    | Ok code =>
      sent ← (ask (SendGenerate code now (now + ttl)) : P (result error PairingCode));
      match sent with
      | Ok pc => mret (Ok pc)
      | Err _ => generate_loop attempts now ttl
      end
    end
  end.

Definition PairingCode_Generate (ttl : Z) : P (result error PairingCode) :=
  now ← (ask Now : P Z);
  generate_loop maxGenerateAttempts now ttl.

Definition PairingCode_Claim (code device label : string) : P (result error unit) :=
  now ← (ask Now : P Z);
  sent ← (ask (SendClaim code device label now) : P (result error unit));
  mret (match sent with Ok _ => Ok () | Err _ => Err [ErrInvalidPairingCode] end).

(** [fmt.Sprintf("%0*d", codeDigits, n)] of the number drawn *)
Definition codeDigits : nat := 6.

Definition randomCode (n : N) : string :=
  let s := pretty n in String.concat "" (replicate (codeDigits - String.length s) "0") +:+ s.

(** ** device.go *)

Definition Device_Pair (id label hash : string) : P (result error unit) :=
  now ← (ask Now : P Z);
  sent ← (ask (SendDevice (Pair id label hash now)) : P (result error unit));
  mret (match sent with Ok _ => Ok () | Err _ => Err [ErrStateViolation] end).

Definition Device_Revoke (id : string) : P (result error unit) :=
  sent ← (ask (SendDevice (Revoke id)) : P (result error unit));
  mret (match sent with Ok _ => Ok () | Err _ => Err [ErrNotFound] end).

Definition Device_Touch (id : string) : P (result error unit) :=
  now ← (ask Now : P Z);
  sent ← (ask (SendDevice (Touch id now)) : P (result error unit));
  mret (match sent with Ok _ => Ok () | Err _ => Err [ErrNotFound] end).

Definition Device_Authenticate (hash : string) : P (result error Device) :=
  row ← (ask (RowByHash hash) : P (result error Device));
  mret (match row with
        | Ok d => if Device_IsActive d then Ok d else Err [ErrUnauthorized]
        | Err _ => Err [ErrUnauthorized]
        end).

(** ** usecases/auth.go *)

Section usecase.
(** The hexadecimal SHA-256 of a token *)
Context (hashToken : string → string).

Definition GeneratePairingCode (ttl : Z) : P (result error (string * Z)) :=
  pc ←? PairingCode_Generate ttl;
  mret (Ok (pCode pc, ExpiresAt pc)).

Definition newSessionToken : P (result error (string * string)) :=
  token ←? (ask RandomToken : P (result error string));
  mret (Ok (token, hashToken token)).

Definition Redeem (code device label : string) : P (result error string) :=
  _ ←? PairingCode_Claim code device label;
  drawn ←? newSessionToken;
  _ ←? Device_Pair device label drawn.2;
  mret (Ok drawn.1).

Definition Authenticate (rawToken : string) : P (result error Device) :=
  d ←? Device_Authenticate (hashToken rawToken);
  _ ← (ask (GoTouch (ID d)) : P unit);
  mret (Ok d).

Definition ListDevices : P (result error (list Device)) := ask AllRows.

Definition RevokeDevice (id : string) : P (result error unit) := Device_Revoke id.
End usecase.

(** ** The world the requests share *)

(** The aggregates, the events not projected yet by device, the rows, and the devices an
    event was lost for: its projection failed, and is only logged. *)
Record world := mkWorld {
  codes : gmap string PairingCode;
  devices : gmap string Device;
  queue : gmap string (list Device);
  rows : gmap string Device;
  lost : gset string;
}.

Definition empty_world : world := mkWorld ∅ ∅ ∅ ∅ ∅.

Definition set_codes (w : world) (m : gmap string PairingCode) : world :=
  mkWorld m (devices w) (queue w) (rows w) (lost w).

Definition queued (w : world) (id : string) : list Device := default [] (queue w !! id).

(** A command that is accepted stores what it emits and publishes it. *)
Definition commit (c : device_command) (w : world) : world :=
  match device_EmitEvent c (devices w !! device_of c) with
  | Some d => mkWorld (codes w) (<[device_of c := d]> (devices w))
                (<[device_of c := queued w (device_of c) ++ [d]]> (queue w)) (rows w) (lost w)
  | None => w
  end.

(** A command may be reported failed although it was committed. *)
Definition serves (w : world) (c : call) : answer c → world → Prop :=
  match c with
  | SendGenerate code created expires => λ (r : result error PairingCode) w',
    let pc := Generate.EmitEvent code created expires in
    if Generate.Validate (codes w !! code) then
      match r with
      | Ok pc' => pc' = pc ∧ w' = set_codes w (<[code := pc]> (codes w))
      | Err _ => w' = w ∨ w' = set_codes w (<[code := pc]> (codes w))
      end
    else is_ok r = false ∧ w' = w
  | SendClaim code _ _ now => λ (r : result error unit) w',
    match codes w !! code with
    | Some pc =>
      if Claim.Validate now (Some pc) then
        let w1 := set_codes w (<[code := Claim.EmitEvent pc]> (codes w)) in
        match r with Ok _ => w' = w1 | Err _ => w' = w ∨ w' = w1 end
      else is_ok r = false ∧ w' = w
    | None => is_ok r = false ∧ w' = w
    end
  | SendDevice c => λ (r : result error unit) w',
    if device_Validate c (devices w !! device_of c) then
      match r with Ok _ => w' = commit c w | Err _ => w' = w ∨ w' = commit c w end
    else is_ok r = false ∧ w' = w
  | RowByHash hash => λ (r : result error Device) w', w' = w ∧
    match r with Ok d => GetByTokenHash (rows w) hash = Some d | Err _ => True end
  | RowById id => λ (r : result error Device) w', w' = w ∧
    match r with Ok d => rows w !! id = Some d | Err _ => True end
  | AllRows => λ (r : result error (list Device)) w', w' = w ∧
    match r with Ok l => l = List_ (rows w) | Err _ => True end
  | _ => λ _ w', w' = w
  end.

(** The oldest event of a device reaches the read model, or is lost. *)
Inductive projects : world → world → Prop :=
| projected w id d q rows' : queue w !! id = Some (d :: q) → Upsert (rows w) d = Some rows' →
    projects w (mkWorld (codes w) (devices w) (<[id := q]> (queue w)) rows' (lost w))
| projection_lost w id d q : queue w !! id = Some (d :: q) →
    projects w (mkWorld (codes w) (devices w) (<[id := q]> (queue w)) (rows w) ({[id]} ∪ lost w)).

(** What was called so far, by which request, with what answer, the oldest first *)
Abbreviation log := (list (nat * event answer)).

Inductive history : log → world → Prop :=
| history_start : history [] empty_world
| history_project h w w' : history h w → projects w w' → history h w'
| history_call h w i c r w' : history h w → serves w c r w' → history (h ++ [(i, existT c r)]) w'.

(** The calls of one request *)
Definition own (i : nat) (h : log) : list (event answer) := omap (λ p, if decide (p.1 = i) then Some p.2 else None) h.

(** ** Codes *)

(** The code a request claimed, and when *)
Definition claimed_at (e : event answer) : option (string * Z) :=
  match e with
  | existT c r =>
    match c return answer c → option (string * Z) with
    | SendClaim code _ _ now => λ r : result error unit, if is_ok r then Some (code, now) else None
    | _ => λ _, None
    end r
  end.

Definition ok_claim (e : event answer) : option string := fst <$> claimed_at e.

Definition claimed_codes (h : log) : list string := omap (λ p, ok_claim p.2) h.

(** The code was issued, to expire then. *)
Definition issued (h : log) (code : string) (expires : Z) : Prop :=
  ∃ i created r, (i, existT (SendGenerate code created expires) r) ∈ h.

Lemma issued_snoc h e code expires : issued h code expires → issued (h ++ [e]) code expires.
Proof. intros (i & created & r & H). exists i, created, r. apply elem_of_app. by left. Qed.

Lemma projects_codes w w' : projects w w' → codes w' = codes w.
Proof. by intros []. Qed.

Lemma commit_codes c w : codes (commit c w) = codes w.
Proof. unfold commit. by destruct (device_EmitEvent _ _). Qed.

(** What a call does to the codes *)
Lemma serves_codes w c r w' : serves w c r w' →
  codes w' = codes w ∨
  (∃ code created expires, c = SendGenerate code created expires ∧ codes w !! code = None ∧
     codes w' = <[code := Generate.EmitEvent code created expires]> (codes w)) ∨
  (∃ code d l now pc, c = SendClaim code d l now ∧ codes w !! code = Some pc ∧ CanClaim pc now = true ∧
     codes w' = <[code := Claim.EmitEvent pc]> (codes w)).
Proof.
  destruct c; cbn [serves]; try (intros ->; by left); try (intros [-> _]; by left).
  - destruct (codes w !! code) as [pc|] eqn:E; [intros [_ ->]; by left|]. cbn [Generate.Validate].
    intros H. destruct r as [pc|e].
    + destruct H as [-> ->]. right. left. by exists code, created, expires.
    + destruct H as [->| ->]; [by left|]. right. left. by exists code, created, expires.
  - destruct (codes w !! code) as [pc|] eqn:E; [|intros [_ ->]; by left].
    cbn [Claim.Validate]. destruct (CanClaim pc now) eqn:Hc; [|intros [_ ->]; by left].
    intros H. destruct r as [[]|e].
    + subst w'. right. right. by exists code, device, label, now, pc.
    + destruct H as [->| ->]; [by left|]. right. right. by exists code, device, label, now, pc.
  - destruct (device_Validate _ _); [|intros [_ ->]; by left]. intros H. left.
    destruct r; [by subst; rewrite commit_codes|]. destruct H as [->| ->]; [done|by rewrite commit_codes].
Qed.

Lemma serves_claim_ok w code d l now w' : serves w (SendClaim code d l now) (Ok ()) w' →
  ∃ pc, codes w !! code = Some pc ∧ CanClaim pc now = true ∧ w' = set_codes w (<[code := Claim.EmitEvent pc]> (codes w)).
Proof.
  cbn [serves]. destruct (codes w !! code) as [pc|]; [|by intros [? _]]. cbn [Claim.Validate].
  destruct (CanClaim pc now) eqn:Hc; [|by intros [? _]]. intros ->. by exists pc.
Qed.

Lemma codes_issued h w : history h w → map_Forall (λ code pc, issued h code (ExpiresAt pc)) (codes w).
Proof.
  induction 1 as [|h w w' _ IH Hp|h w i c r w' _ IH Hs]; [apply map_Forall_empty|by rewrite (projects_codes _ _ Hp)|].
  assert (map_Forall (λ code pc, issued (h ++ [(i, existT c r)]) code (ExpiresAt pc)) (codes w)) as IH'.
  { intros code pc Hc. apply issued_snoc. by apply IH. }
  destruct (serves_codes _ _ _ _ Hs) as [->|[(code & created & expires & -> & Hc & ->)|(code & d & l & now & pc & -> & Hc & _ & ->)]];
    [done| |]; apply map_Forall_insert_2; try done.
  - exists i, created, r. apply elem_of_app. right. by left.
  - exact (IH' code pc Hc).
Qed.

Lemma claims_once h w : history h w →
  NoDup (claimed_codes h) ∧
  Forall (λ code, ∃ pc, codes w !! code = Some pc ∧ pState pc = PairingCodeStateClaimed) (claimed_codes h).
Proof.
  induction 1 as [|h w w' _ [IH1 IH2] Hp|h w i c r w' Hh [IH1 IH2] Hs].
  - split; constructor.
  - by rewrite (projects_codes _ _ Hp).
  - assert (∀ code, (∃ pc, codes w !! code = Some pc ∧ pState pc = PairingCodeStateClaimed) →
      ∃ pc, codes w' !! code = Some pc ∧ pState pc = PairingCodeStateClaimed) as Hkeep.
    { intros code (pc & Hc & Hst).
      destruct (serves_codes _ _ _ _ Hs) as [->|[(code' & cr & ex & _ & Hc' & ->)|(code' & d & l & now & pc' & _ & Hc' & Hcan & ->)]].
      - by exists pc.
      - exists pc. split; [|done]. rewrite lookup_insert_ne; [done|]. intros ->. congruence.
      - destruct (decide (code' = code)) as [->|Hne].
        + exists (Claim.EmitEvent pc'). by rewrite lookup_insert_eq.
        + exists pc. by rewrite lookup_insert_ne. }
    unfold claimed_codes. rewrite omap_app. cbn [omap list_omap]. fold (claimed_codes h).
    cbn [snd]. destruct (ok_claim (existT c r)) as [code|] eqn:E; cycle 1.
    { rewrite app_nil_r. split; [done|]. eapply Forall_impl; [exact IH2|]. auto. }
    destruct c; try done. destruct r as [[]|e]; [|done]. injection E as ->.
    apply serves_claim_ok in Hs as (pc & Hc & Hcan & ->). split.
    + apply NoDup_app. split_and!; [done| |apply NoDup_singleton]. intros x Hx ->%list_elem_of_singleton.
      rewrite Forall_forall in IH2. destruct (IH2 _ Hx) as (pc' & Hc' & Hst). rewrite Hc in Hc'. injection Hc' as <-.
      unfold CanClaim in Hcan. rewrite Hst in Hcan. by rewrite bool_decide_false in Hcan.
    + apply Forall_app. split; [eapply Forall_impl; [exact IH2|]; auto|]. apply Forall_singleton.
      exists (Claim.EmitEvent pc). simpl. by rewrite lookup_insert_eq.
Qed.

Lemma claim_in_time h w i e code now : history h w → (i, e) ∈ h → claimed_at e = Some (code, now) →
  ∃ expires, issued h code expires ∧ (now < expires)%Z.
Proof.
  intros Hh Hin He. induction Hh as [|h w w' _ IH _|h w j c r w' Hh IH Hs]; [by apply not_elem_of_nil in Hin|by apply IH|].
  apply elem_of_app in Hin as [Hin|Hin%list_elem_of_singleton].
  - destruct (IH Hin) as (expires & Hi & Hlt). exists expires. split; [by apply issued_snoc|done].
  - injection Hin as -> ->. destruct c; try done. destruct r as [[]|]; [|done]. injection He as -> ->.
    apply serves_claim_ok in Hs as (pc & Hc & Hcan & _). exists (ExpiresAt pc). split.
    + apply issued_snoc. by apply (codes_issued _ _ Hh _ _ Hc).
    + unfold CanClaim in Hcan. apply andb_true_iff in Hcan as [_ Hlt]. by apply Z.ltb_lt.
Qed.

Lemma elem_of_own i e h : e ∈ own i h ↔ (i, e) ∈ h.
Proof.
  unfold own. rewrite list_elem_of_omap. split.
  - intros ([j e'] & Hin & He). cbn [fst snd] in He. by case_decide; simplify_eq.
  - intros Hin. exists (i, e). split; [done|]. by rewrite decide_True.
Qed.

(** In a list that maps to distinct values, one element has each. *)
Lemma NoDup_omap_inj {A B} (f : A → option B) l x y b :
  NoDup (omap f l) → x ∈ l → y ∈ l → f x = Some b → f y = Some b → x = y.
Proof.
  induction l as [|z l IH]; intros Hnd Hx Hy Hfx Hfy; [by apply not_elem_of_nil in Hx|].
  simpl in Hnd. apply elem_of_cons in Hx as [->|Hx], Hy as [->|Hy]; [done| | |].
  - rewrite Hfx in Hnd. apply NoDup_cons in Hnd as [Hnin _]. destruct Hnin. apply list_elem_of_omap. eauto.
  - rewrite Hfy in Hnd. apply NoDup_cons in Hnd as [Hnin _]. destruct Hnin. apply list_elem_of_omap. eauto.
  - apply IH; try done. destruct (f z); [by apply NoDup_cons in Hnd as [_ ?]|done].
Qed.

Section requests.
Context (hashToken : string → string).

(** What a redemption did to have paired, or to have a token *)
Definition redeem_order (code device : string) (h : list (event answer)) (c : call) : Prop :=
  match c with
  | SendDevice (Pair id _ hash _) => id = device ∧
      (∃ e now, e ∈ h ∧ claimed_at e = Some (code, now)) ∧
      ∃ token, existT RandomToken (Ok token) ∈ h ∧ hash = hashToken token
  | SendDevice _ => False
  | _ => True
  end.

Lemma Redeem_follows code device label :
  follows (histories (redeem_order code device)) [] (Redeem hashToken code device label)
    (λ r h, is_ok r = true → ∃ e now, e ∈ h ∧ claimed_at e = Some (code, now)).
Proof.
  unfold Redeem, bind_ok, PairingCode_Claim. apply follows_bind, follows_logged; [done|]. intros now h1 _ _.
  apply (follows_logged _ (SendClaim code device label now)); [done|]. intros sent h2 _ Hsent.
  apply follows_ret. destruct sent as [[]|e]; [|by apply follows_ret].
  assert (∃ e now, e ∈ h2 ∧ claimed_at e = Some (code, now)) as Hclaim by by eexists _, now.
  apply follows_bind. unfold newSessionToken, bind_ok.
  apply (follows_logged _ RandomToken); [done|]. intros drawn h3 Hext Hdrawn.
  destruct drawn as [token|e]; apply follows_ret; [|by apply follows_ret].
  assert (∃ e now, e ∈ h3 ∧ claimed_at e = Some (code, now)) as Hclaim'.
  { destruct Hclaim as (e & t & He & Hc). exists e, t. split; [|done]. by eapply elem_of_extends. }
  apply follows_bind. unfold Device_Pair. apply (follows_logged _ Now); [done|]. intros now' h4 Hext' _.
  assert (∃ e now, e ∈ h4 ∧ claimed_at e = Some (code, now)) as Hclaim4.
  { destruct Hclaim' as (e & t & He & Hc). exists e, t. split; [|done]. by eapply elem_of_extends. }
  apply (follows_logged _ (SendDevice _)).
  { split_and!; [done|done|]. exists token. split; [by eapply elem_of_extends|done]. }
  intros paired h5 Hext5 _. apply follows_ret.
  destruct paired; apply follows_ret; [|done]. intros _.
  destruct Hclaim4 as (e & t & He & Hc). exists e, t. split; [|done]. by eapply elem_of_extends.
Qed.
(** What the daemon runs for its clients, and in the background *)
Inductive service : ∀ A, P A → Prop :=
| service_generate ttl : service _ (GeneratePairingCode ttl)
| service_redeem code device label : service _ (Redeem hashToken code device label)
| service_authenticate token : service _ (Authenticate hashToken token)
| service_list : service _ ListDevices
| service_revoke id : service _ (RevokeDevice id)
| service_touch id : service _ (Device_Touch id).

(** Each request of the history has run a part of its program. *)
Definition serving (h : log) : Prop := ∀ i, own i h ≠ [] →
  ∃ A (p : P A) rest a, service A p ∧ trace p (own i h ++ rest) a.

(** *** Devices *)

Definition pair_sent (e : event answer) : option (string * string) :=
  match projT1 e with SendDevice (Pair id _ hash _) => Some (id, hash) | _ => None end.

Definition pairing (h : log) (id hash : string) : Prop := ∃ i e, (i, e) ∈ h ∧ pair_sent e = Some (id, hash).

Lemma pairing_snoc h e id hash : pairing h id hash → pairing (h ++ [e]) id hash.
Proof. intros (i & x & Hx & Hp). exists i, x. split; [|done]. apply elem_of_app. by left. Qed.

Definition no_pairing (c : call) : Prop := match c with SendDevice (Pair _ _ _ _) => False | _ => True end.

Lemma generate_no_pairing attempts now ttl : calls_only no_pairing (generate_loop attempts now ttl).
Proof.
  induction attempts as [|attempts IH]; [done|]. split; [done|]. intros [code|e]; [|done].
  split; [done|]. intros [pc|e]; [done|exact IH].
Qed.

Lemma service_no_pairing A (p : P A) : service A p →
  calls_only no_pairing p ∨ ∃ code device label, existT A p = existT _ (Redeem hashToken code device label).
Proof.
  intros [ttl|code device label|token| |id|id].
  - left. apply calls_only_bind_ok; [|done]. split; [done|]. intros now. apply generate_no_pairing.
  - right. by eexists _, _, _.
  - left. apply calls_only_bind_ok; [split; [done|]; by intros|]. intros d. by split.
  - left. by split.
  - left. by split.
  - left. split; [done|]. intros now. by split.
Qed.

(** Only a redemption that claimed its code pairs, and what it pairs is a token it drew. *)
Lemma pairing_redeemed h id hash : serving h → pairing h id hash →
  ∃ i code label token rest a,
    trace (Redeem hashToken code id label) (own i h ++ rest) a ∧
    (∃ e now, e ∈ own i h ∧ claimed_at e = Some (code, now)) ∧
    existT RandomToken (Ok token) ∈ own i h ∧ hash = hashToken token.
Proof.
  intros Hs (i & e & Hin%elem_of_own & He).
  destruct (Hs i) as (A & p & rest & a & Hserv & Ht); [intros E; rewrite E in Hin; by apply not_elem_of_nil in Hin|].
  destruct (service_no_pairing A p Hserv) as [Hno|(code & device & label & E)].
  { apply (calls_only_trace _ _ _ _ Hno), Forall_app in Ht as [Ht _]. rewrite Forall_forall in Ht.
    specialize (Ht e Hin). unfold pair_sent in He. destruct (projT1 e) as [| | | | |[]| | | |]; try done. }
  assert (∃ a', trace (Redeem hashToken code device label) (own i h ++ rest) a') as [a' Ht'].
  { revert a Ht. change (∀ a : projT1 (existT A p), trace (projT2 (existT A p)) (own i h ++ rest) a →
      ∃ a', trace (Redeem hashToken code device label) (own i h ++ rest) a'). rewrite E. eauto. }
  destruct (follows_trace _ _ _ _ _ _ (Redeem_follows code device label) Ht') as [Hacc _].
  rewrite accepts_histories in Hacc. apply list_elem_of_split in Hin as (l1 & l2 & Hl).
  destruct e as [c r]. unfold pair_sent in He. cbn [projT1] in He.
  specialize (Hacc l1 c r (l2 ++ rest)). rewrite Hl, <- app_assoc in Hacc. specialize (Hacc eq_refl).
  destruct c as [| | | | |[id' label' hash' now'| |]| | | |]; try done. injection He as -> ->.
  destruct Hacc as (-> & (e & now & He & Hc) & token & Htok & ->).
  exists i, code, label, token, rest, a'. split_and!; [done| | |done].
  - exists e, now. split; [|done]. rewrite Hl. apply elem_of_app. by left.
  - rewrite Hl. apply elem_of_app. by left.
Qed.
End requests.

(** *** Rows *)

Definition known (h : log) (id : string) (d : Device) : Prop := ID d = id ∧ pairing h id (TokenHash d).

Lemma known_snoc h e id d : known h id d → known (h ++ [e]) id d.
Proof. intros [H1 H2]. split; [done|]. by apply pairing_snoc. Qed.

Definition all_known (h : log) (w : world) : Prop :=
  map_Forall (known h) (devices w) ∧ map_Forall (λ id q, Forall (known h id) q) (queue w) ∧
  map_Forall (known h) (rows w).

Lemma GetByTokenHash_Some m hash d : GetByTokenHash m hash = Some d → TokenHash d = hash ∧ ∃ id, m !! id = Some d.
Proof.
  unfold GetByTokenHash. destruct (head _) as [[id d']|] eqn:E; [|done]. intros [= <-].
  destruct (filter _ _) as [|x l] eqn:F; [done|]. injection E as ->.
  assert ((id, d') ∈ filter (λ p : string * Device, TokenHash p.2 = hash) (map_to_list m)) as Hin by (rewrite F; by left).
  apply list_elem_of_filter in Hin as [Hh Hin]. split; [done|]. exists id. by apply elem_of_map_to_list.
Qed.

Lemma commit_known h w i c r : all_known h w →
  all_known (h ++ [(i, existT (SendDevice c) r)]) (commit c w).
Proof.
  intros (H1 & H2 & H3). assert (all_known (h ++ [(i, existT (SendDevice c) r)]) w) as (H1' & H2' & H3').
  { split_and!; intros id x Hx; [by apply known_snoc, H1| |by apply known_snoc, H3].
    eapply Forall_impl; [by apply (H2 id x Hx)|]. intros d. apply known_snoc. }
  unfold commit. destruct (device_EmitEvent c (devices w !! device_of c)) as [d|] eqn:E; [|done].
  assert (known (h ++ [(i, existT (SendDevice c) r)]) (device_of c) d) as Hd.
  { destruct c as [id label hash now|id now|id]; cbn [device_of device_EmitEvent] in *.
    - injection E as <-. split; [done|]. exists i, (existT (SendDevice (Pair id label hash now)) r).
      split; [apply elem_of_app; right; by left|done].
    - destruct (devices w !! id) as [d0|] eqn:Hl; [|done]. injection E as <-. exact (H1' id d0 Hl).
    - destruct (devices w !! id) as [d0|] eqn:Hl; [|done]. injection E as <-. exact (H1' id d0 Hl). }
  split_and!; simpl; [by apply map_Forall_insert_2| |done]. apply map_Forall_insert_2; [|done].
  apply Forall_app. split; [|by apply Forall_singleton]. unfold queued. destruct (queue w !! device_of c) eqn:Hq; [|constructor].
  exact (H2' _ _ Hq).
Qed.

Definition same_devices (w w' : world) : Prop :=
  devices w' = devices w ∧ queue w' = queue w ∧ rows w' = rows w ∧ lost w' = lost w.

Lemma serves_devices w c r w' : serves w c r w' →
  same_devices w w' ∨
  ∃ c', c = SendDevice c' ∧ device_Validate c' (devices w !! device_of c') = true ∧ w' = commit c' w.
Proof.
  destruct c; cbn [serves]; try (by intros ->; left); try (by intros [-> _]; left).
  - destruct (Generate.Validate _); [|by intros [_ ->]; left]. destruct r; [by intros [_ ->]; left|].
    by intros [->| ->]; left.
  - destruct (codes w !! code); [|by intros [_ ->]; left]. destruct (Claim.Validate _ _); [|by intros [_ ->]; left].
    destruct r; [by intros ->; left|]. by intros [->| ->]; left.
  - destruct (device_Validate c _) eqn:Hv; [|by intros [_ ->]; left]. intros H.
    assert (w' = w ∨ w' = commit c w) as [->| ->] by (destruct r; auto); [by left|]. right. by exists c.
Qed.

Lemma all_known_same h e w w' : same_devices w w' → all_known h w → all_known (h ++ [e]) w'.
Proof.
  intros (E1 & E2 & E3 & _) (H1 & H2 & H3). unfold all_known. rewrite E1, E2, E3. split_and!; intros id x Hx.
  - by apply known_snoc, H1.
  - eapply Forall_impl; [by apply (H2 id x Hx)|]. intros d. apply known_snoc.
  - by apply known_snoc, H3.
Qed.

Lemma Upsert_Some m d m' : Upsert m d = Some m' → m' = <[ID d := d]> m.
Proof. unfold Upsert. case_bool_decide; [by intros [= <-]|done]. Qed.

Lemma history_known h w : history h w → all_known h w.
Proof.
  induction 1 as [|h w w' _ IH Hp|h w i c r w' _ IH Hs].
  - split_and!; apply map_Forall_empty.
  - destruct IH as (H1 & H2 & H3), Hp as [w id d q rows' Hq Hu|w id d q Hq]; cbn;
      pose proof (H2 id _ Hq) as [Hd Hqs]%Forall_cons; (split_and!; [done|by apply map_Forall_insert_2|]); cbn; [|done].
    apply Upsert_Some in Hu as ->. destruct Hd as [Hid Hp]. apply map_Forall_insert_2; [|done]. by rewrite Hid.
  - destruct (serves_devices _ _ _ _ Hs) as [Hsame|(c' & -> & _ & ->)]; [by eapply all_known_same|].
    by apply commit_known.
Qed.

(** What the look-up by digest was answered *)
Definition looked_up (e : event answer) : option (string * Device) :=
  match e with
  | existT c r =>
    match c return answer c → option (string * Device) with
    | RowByHash hash => λ r : result error Device, match r with Ok d => Some (hash, d) | Err _ => None end
    | _ => λ _, None
    end r
  end.

Lemma looked_up_paired h w i e hash d : history h w → (i, e) ∈ h → looked_up e = Some (hash, d) → pairing h (ID d) hash.
Proof.
  intros Hh Hin He. induction Hh as [|h w w' _ IH _|h w j c r w' Hh IH Hs]; [by apply not_elem_of_nil in Hin|by apply IH|].
  apply elem_of_app in Hin as [Hin|Hin%list_elem_of_singleton]; [by apply pairing_snoc, IH|].
  injection Hin as -> ->. destruct c; try done. destruct r as [d'|]; [|done]. injection He as -> ->.
  destruct Hs as [-> Hg]. apply GetByTokenHash_Some in Hg as [<- [id Hl]]. apply pairing_snoc.
  destruct (history_known _ _ Hh) as (_ & _ & Hr). by destruct (Hr id d Hl) as [-> ?].
Qed.

Section claims.
Context (hashToken : string → string).

Lemma Authenticate_looks token l d : trace (Authenticate hashToken token) l (Ok d) →
  ∃ e, e ∈ l ∧ looked_up e = Some (hashToken token, d) ∧ dState d = DeviceStateActive.
Proof.
  unfold Authenticate, bind_ok, Device_Authenticate. intros (r & l' & -> & Ht).
  destruct r as [d'|e]; [|by destruct Ht].
  change (trace (r ← (mret (if Device_IsActive d' then Ok d' else Err [ErrUnauthorized]) : P (result error Device));
    match r with Ok d => _ ← (ask (GoTouch (ID d)) : P unit); mret (Ok d) | Err e => mret (Err e) end) l' (Ok d)) in Ht.
  unfold Device_IsActive in Ht. case_bool_decide as Ha; [|by destruct Ht].
  destruct Ht as ([] & l'' & -> & -> & [= <-]). eexists. split_and!; [by left|done|done].
Qed.

(** C31. A pairing code is good for one redemption, whatever is asked at the same time and
    however calls interleave or fail: of all the requests of a history no two that redeem
    the same code succeed, and the one that does claimed it before it expired, as it was
    issued. *)
Theorem code_redeemed_once h w i j code device1 label1 token1 device2 label2 token2 :
  history h w →
  trace (Redeem hashToken code device1 label1) (own i h) (Ok token1) →
  trace (Redeem hashToken code device2 label2) (own j h) (Ok token2) →
  i = j ∧ ∃ expires e now, issued h code expires ∧ (i, e) ∈ h ∧ claimed_at e = Some (code, now) ∧ (now < expires)%Z.
Proof.
  intros Hh H1 H2.
  assert (∀ k device label token, trace (Redeem hashToken code device label) (own k h) (Ok token) →
    ∃ e now, (k, e) ∈ h ∧ claimed_at e = Some (code, now)) as Hclaim.
  { intros k device label token Ht.
    destruct (follows_trace _ _ _ _ _ _ (Redeem_follows hashToken code device label) Ht) as [_ Hc].
    rewrite after_histories in Hc. destruct (Hc eq_refl) as (e & now & He & Hat).
    exists e, now. split; [by apply elem_of_own|done]. }
  destruct (Hclaim _ _ _ _ H1) as (e1 & now1 & Hin1 & Hc1), (Hclaim _ _ _ _ H2) as (e2 & now2 & Hin2 & Hc2).
  destruct (claims_once h w Hh) as [Hnd _]. split.
  - assert ((i, e1) = (j, e2)) as [= -> _]; [|done].
    apply (NoDup_omap_inj (λ p, ok_claim p.2) h _ _ code); try done; unfold ok_claim; cbn [snd];
      [by rewrite Hc1|by rewrite Hc2].
  - destruct (claim_in_time h w i e1 code now1 Hh Hin1 Hc1) as (expires & Hi & Hlt). by exists expires, e1, now1.
Qed.

(** A token opens the daemon only to a device that was paired with it: when a request
    that brings a token is let in as a device, some redemption for that device claimed a
    code, and drew a token of the same digest before it paired. *)
Lemma authenticated_was_paired h w k token d :
  history h w → serving hashToken h → trace (Authenticate hashToken token) (own k h) (Ok d) →
  dState d = DeviceStateActive ∧
  ∃ i code label drawn rest a,
    trace (Redeem hashToken code (ID d) label) (own i h ++ rest) a ∧
    (∃ e now, e ∈ own i h ∧ claimed_at e = Some (code, now)) ∧
    existT RandomToken (Ok drawn) ∈ own i h ∧ hashToken token = hashToken drawn.
Proof.
  intros Hh Hs Ht. destruct (Authenticate_looks token _ d Ht) as (e & He & Hl & Ha). split; [done|].
  apply elem_of_own in He. apply (pairing_redeemed hashToken h); [done|].
  by apply (looked_up_paired h w k e).
Qed.
End claims.

(** ** Revocation *)

(** The device was revoked, and not paired again since. *)
Definition revoked_in (h : log) (id : string) : Prop := ∃ h1 i h2,
  h = h1 ++ (i, existT (SendDevice (Revoke id)) (Ok ())) :: h2 ∧
  Forall (λ e, ∀ hash, pair_sent e.2 ≠ Some (id, hash)) h2.

Definition device_ok (e : event answer) : bool :=
  match e with
  | existT c r => match c return answer c → bool with SendDevice _ => λ r : result error unit, is_ok r | _ => λ _, false end r
  end.

Lemma commit_devices c w : device_Validate c (devices w !! device_of c) = true →
  ∃ d, device_EmitEvent c (devices w !! device_of c) = Some d ∧
    commit c w = mkWorld (codes w) (<[device_of c := d]> (devices w))
                (<[device_of c := queued w (device_of c) ++ [d]]> (queue w)) (rows w) (lost w).
Proof.
  intros Hv. unfold commit. destruct (device_EmitEvent c _) as [d|] eqn:E; [by exists d|].
  destruct c; cbn [device_of device_Validate device_EmitEvent Touch_Validate Revoke_Validate] in *; [done| |];
    by destruct (devices w !! id).
Qed.

Lemma revoked_state h w id : history h w → revoked_in h id →
  ∃ d, devices w !! id = Some d ∧ dState d = DeviceStateRevoked.
Proof.
  intros Hh. induction Hh as [|h w w' _ IH Hp|h w i c r w' Hh IH Hs]; intros (h1 & j & h2 & E & Hf).
  - by destruct h1.
  - destruct IH as (d & Hd & Hst); [by exists h1, j, h2|]. exists d. by destruct Hp.
  - destruct h2 as [|e h2 _] using rev_ind.
    + apply app_inj_tail in E as [-> E]. apply (f_equal snd) in E. cbn [snd] in E.
      pose proof (f_equal (@projT1 _ _) E) as Ec. cbn [projT1] in Ec. subst c.
      pose proof (f_equal device_ok E) as Hr. cbn in Hr.
      cbn [serves] in Hs. destruct (device_Validate _ _) eqn:Hv; [|destruct Hs as [Hs _]; by rewrite Hr in Hs].
      destruct (commit_devices _ _ Hv) as (d & He & Hcommit). destruct r as [[]|]; [|done]. subst w'. rewrite Hcommit.
      exists d. cbn [devices device_of]. rewrite lookup_insert_eq. split; [done|].
      cbn [device_EmitEvent device_of] in He. destruct (devices w !! id); [|done]. by injection He as <-.
    + rewrite app_comm_cons, app_assoc in E. apply app_inj_tail in E as [-> <-].
      apply Forall_app in Hf as [Hf Hlast]. apply Forall_cons in Hlast as [Hlast _]. cbn [snd] in Hlast.
      destruct IH as (d & Hd & Hst); [by exists h1, j, h2|].
      destruct (serves_devices _ _ _ _ Hs) as [(-> & _)|(c' & -> & Hv & ->)]; [by exists d|].
      destruct (commit_devices _ _ Hv) as (d' & He & ->). cbn [devices].
      destruct (decide (device_of c' = id)) as [Hid|Hid]; [|exists d; by rewrite lookup_insert_ne].
      exfalso. rewrite Hid, Hd in Hv. destruct c' as [id' label hash now|id' now|id']; cbn [device_of] in Hid; subst id'.
      * by apply (Hlast hash).
      * unfold device_Validate, Touch_Validate, Revoke_Validate in Hv. rewrite Hst in Hv. by rewrite bool_decide_false in Hv.
      * unfold device_Validate, Touch_Validate, Revoke_Validate in Hv. rewrite Hst in Hv. by rewrite bool_decide_false in Hv.
Qed.

(** The row and the events still to come end in the aggregate, for a device that lost none. *)
Definition mirrored (w : world) : Prop := ∀ id, id ∉ lost w →
  last (option_list (rows w !! id) ++ queued w id) = devices w !! id.

Lemma history_mirrored h w : history h w → mirrored w.
Proof.
  induction 1 as [|h w w' Hh IH Hp|h w i c r w' Hh IH Hs]; intros id Hid.
  - done.
  - destruct (history_known _ _ Hh) as (_ & Hq & _).
    destruct Hp as [w id' d q rows' Hl Hu|w id' d q Hl]; unfold queued in *; cbn [rows queue devices lost] in *.
    + pose proof (Hq id' _ Hl) as [[Hid' _] _]%Forall_cons. apply Upsert_Some in Hu as ->. rewrite Hid'.
      specialize (IH id Hid). unfold queued in IH. destruct (decide (id = id')) as [->|Hne].
      * rewrite !lookup_insert_eq. rewrite Hl in IH. cbn in IH |- *. rewrite <- IH.
        destruct (rows w !! id'); cbn; [by destruct q|done].
      * by rewrite !lookup_insert_ne.
    + assert (id ≠ id') as Hne by set_solver. rewrite lookup_insert_ne by done. apply IH. set_solver.
  - destruct (serves_devices _ _ _ _ Hs) as [(E1 & E2 & E3 & E4)|(c' & -> & Hv & ->)].
    + unfold queued. rewrite E1, E2, E3. apply IH. by rewrite <- E4.
    + destruct (commit_devices _ _ Hv) as (d & _ & E). rewrite E in Hid |- *. unfold queued. cbn [rows queue devices lost] in *.
      specialize (IH id Hid). destruct (decide (id = device_of c')) as [->|Hne].
      * rewrite !lookup_insert_eq. change (default [] (Some ?x)) with x. by rewrite app_assoc, last_snoc.
      * by rewrite !lookup_insert_ne.
Qed.

(** C32. A revoked device is kept out: once the events of a device have reached the read
    model, none of them lost, and it was not paired again since it was revoked, no token
    is let in as that device; a touch that is late changes nothing. *)
Theorem revoked_is_refused hashToken h w id token d w' :
  history h w → revoked_in h id → queued w id = [] → id ∉ lost w →
  runs serves w (Authenticate hashToken token) (Ok d) w' → ID d ≠ id.
Proof.
  intros Hh Hr Hq Hl Hruns Hid. destruct (revoked_state h w id Hh Hr) as (d0 & Hd0 & Hst).
  pose proof (history_mirrored h w Hh id Hl) as Hm. rewrite Hq, app_nil_r, Hd0 in Hm.
  destruct Hruns as (r & w1 & Hs & Hruns). destruct r as [d'|e]; [|by destruct Hruns].
  destruct Hs as [-> Hg]. apply GetByTokenHash_Some in Hg as [_ [id' Hrow]].
  change (runs serves w (r ← (mret (if Device_IsActive d' then Ok d' else Err [ErrUnauthorized]) : P (result error Device));
    match r with Ok d => _ ← (ask (GoTouch (ID d)) : P unit); mret (Ok d) | Err e => mret (Err e) end) (Ok d) w') in Hruns.
  unfold Device_IsActive in Hruns. case_bool_decide as Ha; [|by destruct Hruns].
  destruct Hruns as ([] & w2 & _ & [= <-] & _). destruct (history_known _ _ Hh) as (_ & _ & Hrows).
  destruct (Hrows id' d Hrow) as [E _]. rewrite Hid in E. subst id'.
  rewrite Hrow in Hm. injection Hm as ->. congruence.
Qed.

(** ** Witnesses *)

(** One request after the other, each call answered by this world *)
Definition serve (draw : string) (w : world) (c : call) : answer c * world :=
  match c return answer c * world with
  | RandomCode | RandomToken => (Ok draw, w)
  | Now => (0%Z, w)
  | SendGenerate code created expires =>
    let pc := Generate.EmitEvent code created expires in
    if Generate.Validate (codes w !! code) then (Ok pc, set_codes w (<[code := pc]> (codes w))) else (Err [], w)
  | SendClaim code _ _ now =>
    match codes w !! code with
    | Some pc =>
      if Claim.Validate now (Some pc) then (Ok (), set_codes w (<[code := Claim.EmitEvent pc]> (codes w))) else (Err [], w)
    | None => (Err [], w)
    end
  | SendDevice c => if device_Validate c (devices w !! device_of c) then (Ok (), commit c w) else (Err [], w)
  | RowByHash hash => (match GetByTokenHash (rows w) hash with Some d => Ok d | None => Err [ErrNotFound] end, w)
  | RowById id => (match rows w !! id with Some d => Ok d | None => Err [ErrNotFound] end, w)
  | AllRows => (Ok (List_ (rows w)), w)
  | GoTouch _ => ((), w)
  end.

Lemma serve_serves draw w c : serves w c (serve draw w c).1 (serve draw w c).2.
Proof.
  destruct c; cbn [serve serves fst snd]; try done.
  - by destruct (Generate.Validate _).
  - destruct (codes w !! code); [|done]. by destruct (Claim.Validate _ _).
  - by destruct (device_Validate _ _).
  - split; [done|]. by destruct (GetByTokenHash _ _).
  - split; [done|]. by destruct (rows w !! id).
Qed.

(** The log of a request in that world *)
Fixpoint played {A} (draw : string) (i : nat) (w : world) (p : P A) : log * A * world :=
  match p with
  | Return a => ([], a, w)
  | Call c k =>
    let '(l, a, w') := played draw i (serve draw w c).2 (k (serve draw w c).1) in
    ((i, existT c (serve draw w c).1) :: l, a, w')
  end.

Lemma played_history {A} draw i h w (p : P A) : history h w →
  history (h ++ (played draw i w p).1.1) (played draw i w p).2.
Proof.
  revert h w. induction p as [a|c k IH]; intros h w Hh; simpl; [by rewrite app_nil_r|].
  specialize (IH (serve draw w c).1 (h ++ [(i, existT c (serve draw w c).1)]) (serve draw w c).2).
  destruct (played draw i (serve draw w c).2 (k (serve draw w c).1)) as [[l a] w']. simpl in *.
  rewrite <- app_assoc in IH. apply IH. eapply history_call; [exact Hh|apply serve_serves].
Qed.

Lemma played_trace {A} draw i w (p : P A) :
  trace p (map snd (played draw i w p).1.1) (played draw i w p).1.2.
Proof.
  revert w. induction p as [a|c k IH]; intros w; simpl; [done|].
  specialize (IH (serve draw w c).1 (serve draw w c).2).
  destruct (played draw i (serve draw w c).2 (k (serve draw w c).1)) as [[l a] w']. simpl in *. eauto.
Qed.

Definition deliver (id : string) (w : world) : world :=
  match queue w !! id with
  | Some (d :: q) =>
    match Upsert (rows w) d with
    | Some rows' => mkWorld (codes w) (devices w) (<[id := q]> (queue w)) rows' (lost w)
    | None => w
    end
  | _ => w
  end.

Lemma deliver_history h id w : history h w → history h (deliver id w).
Proof.
  intros Hh. unfold deliver. destruct (queue w !! id) as [[|d q]|] eqn:Hq; [done| |done].
  destruct (Upsert (rows w) d) eqn:Hu; [|done]. eapply history_project; [exact Hh|by apply (projected w id d q)].
Qed.

(** A device is paired, lets itself in, and is revoked. *)
Definition example_digest (s : string) : string := "#" +:+ s.
Definition issue := played "482913" 0 empty_world (GeneratePairingCode 300).
Definition redeem := played "tok" 1 issue.2 (Redeem example_digest "482913" "dev" "laptop").
Definition let_in := played "" 2 (deliver "dev" redeem.2) (Authenticate example_digest "tok").
Definition revoke := played "" 3 let_in.2 (RevokeDevice "dev").
Definition touched := played "" 4 (deliver "dev" revoke.2) (Device_Touch "dev").

Definition issue2 := played "111111" 5 touched.2 (GeneratePairingCode 300).
Definition redeem2 := played "tik" 6 issue2.2 (Redeem example_digest "111111" "desk" "tower").
Definition example_world : world := deliver "desk" redeem2.2.

Definition example_log : log :=
  (((((issue.1.1 ++ redeem.1.1) ++ let_in.1.1) ++ revoke.1.1) ++ touched.1.1) ++ issue2.1.1) ++ redeem2.1.1.

Lemma revoke_history : history (((issue.1.1 ++ redeem.1.1) ++ let_in.1.1) ++ revoke.1.1) revoke.2.
Proof.
  pose proof (played_history "482913" 0 [] empty_world (GeneratePairingCode 300) history_start) as H0.
  pose proof (played_history "tok" 1 _ _ (Redeem example_digest "482913" "dev" "laptop") H0) as H1.
  pose proof (played_history "" 2 _ _ (Authenticate example_digest "tok") (deliver_history _ "dev" _ H1)) as H2.
  exact (played_history "" 3 _ _ (RevokeDevice "dev") H2).
Qed.

Lemma example_history : history example_log example_world.
Proof.
  pose proof (played_history "" 4 _ _ (Device_Touch "dev") (deliver_history _ "dev" _ revoke_history)) as H4.
  pose proof (played_history "111111" 5 _ _ (GeneratePairingCode 300) H4) as H5.
  exact (deliver_history _ "desk" _ (played_history "tik" 6 _ _ (Redeem example_digest "111111" "desk" "tower") H5)).
Qed.

Lemma example_redeem : trace (Redeem example_digest "482913" "dev" "laptop") (own 1 example_log) (Ok "tok").
Proof.
  replace (own 1 example_log) with (map snd redeem.1.1) by (vm_compute; reflexivity).
  replace (Ok "tok") with redeem.1.2 by (vm_compute; reflexivity). apply played_trace.
Qed.

Definition example_device : Device := mkDevice "dev" "laptop" "#tok" DeviceStateActive 0 0.

Lemma example_enter : trace (Authenticate example_digest "tok") (own 2 example_log) (Ok example_device).
Proof.
  replace (own 2 example_log) with (map snd let_in.1.1) by (vm_compute; reflexivity).
  replace (Ok example_device) with let_in.1.2 by (vm_compute; reflexivity). apply played_trace.
Qed.

Lemma example_serving : serving example_digest example_log.
Proof.
  intros i Hi. destruct i as [|[|[|[|[|[|[|i]]]]]]].
  - eexists _, _, [], _. split; [apply (service_generate _ 300)|]. rewrite app_nil_r.
    replace (own 0 example_log) with (map snd issue.1.1) by (vm_compute; reflexivity). apply played_trace.
  - eexists _, _, [], _. split; [apply service_redeem|]. rewrite app_nil_r. exact example_redeem.
  - eexists _, _, [], _. split; [apply service_authenticate|]. rewrite app_nil_r. exact example_enter.
  - eexists _, _, [], _. split; [apply (service_revoke _ "dev")|]. rewrite app_nil_r.
    replace (own 3 example_log) with (map snd revoke.1.1) by (vm_compute; reflexivity). apply played_trace.
  - eexists _, _, [], _. split; [apply (service_touch _ "dev")|]. rewrite app_nil_r.
    replace (own 4 example_log) with (map snd touched.1.1) by (vm_compute; reflexivity). apply played_trace.
  - eexists _, _, [], _. split; [apply (service_generate _ 300)|]. rewrite app_nil_r.
    replace (own 5 example_log) with (map snd issue2.1.1) by (vm_compute; reflexivity). apply played_trace.
  - eexists _, _, [], _. split; [apply (service_redeem _ "111111" "desk" "tower")|]. rewrite app_nil_r.
    replace (own 6 example_log) with (map snd redeem2.1.1) by (vm_compute; reflexivity). apply played_trace.
  - by destruct Hi.
Qed.

Lemma code_redeemed_once_witness :
  history example_log example_world ∧
  1 = 1 ∧ ∃ expires e now, issued example_log "482913" expires ∧ (1, e) ∈ example_log ∧
    claimed_at e = Some ("482913", now) ∧ (now < expires)%Z.
Proof.
  split; [exact example_history|].
  exact (code_redeemed_once example_digest _ _ 1 1 _ _ _ _ _ _ _ example_history example_redeem example_redeem).
Defined.

Lemma authenticated_was_paired_witness :
  dState example_device = DeviceStateActive ∧
  ∃ i code label drawn rest a,
    trace (Redeem example_digest code "dev" label) (own i example_log ++ rest) a ∧
    (∃ e now, e ∈ own i example_log ∧ claimed_at e = Some (code, now)) ∧
    existT RandomToken (Ok drawn) ∈ own i example_log ∧ "#tok" = example_digest drawn.
Proof.
  exact (authenticated_was_paired example_digest _ _ 2 "tok" example_device example_history example_serving example_enter).
Defined.

(** Before its revocation the device is let in; after it, and a late touch, only the other
    one is. *)
Lemma revoked_is_refused_witness :
  is_ok let_in.1.2 = true ∧ revoked_in example_log "dev" ∧
  runs serves example_world (Authenticate example_digest "tik") (Ok (mkDevice "desk" "tower" "#tik" DeviceStateActive 0 0)) example_world ∧
  "desk" ≠ "dev".
Proof.
  assert (revoked_in example_log "dev") as Hr.
  { exists ((issue.1.1 ++ redeem.1.1) ++ let_in.1.1), 3, ((touched.1.1 ++ issue2.1.1) ++ redeem2.1.1).
    split; [vm_compute; reflexivity|]. repeat constructor; by intros ? ?. }
  assert (runs serves example_world (Authenticate example_digest "tik")
    (Ok (mkDevice "desk" "tower" "#tik" DeviceStateActive 0 0)) example_world) as Hruns.
  { exists (Ok (mkDevice "desk" "tower" "#tik" DeviceStateActive 0 0)), example_world.
    split; [split; [reflexivity|vm_compute; reflexivity]|]. exists (), example_world. split; [reflexivity|]. by split. }
  split; [vm_compute; reflexivity|]. split; [exact Hr|]. split; [exact Hruns|].
  apply (revoked_is_refused example_digest example_log example_world "dev" "tik" _ _ example_history Hr) in Hruns;
    [exact Hruns|vm_compute; reflexivity|].
  replace (lost example_world) with (∅ : gset string) by (vm_compute; reflexivity). apply not_elem_of_empty.
Defined.

(** A projection that fails is only logged: the revocation is reported done, and the device
    is let in all the same. *)
Lemma lost_revocation : ∃ h w w', history h w ∧ revoked_in h "dev" ∧ queued w "dev" = [] ∧
  runs serves w (Authenticate example_digest "tok") (Ok example_device) w'.
Proof.
  set (w := revoke.2).
  assert (∃ d, queue w !! "dev" = Some [d]) as [d Hd] by (eexists; vm_compute; reflexivity).
  exists (((issue.1.1 ++ redeem.1.1) ++ let_in.1.1) ++ revoke.1.1),
    (mkWorld (codes w) (devices w) (<["dev" := []]> (queue w)) (rows w) ({["dev"]} ∪ lost w)). eexists.
  split; [|split; [|split]].
  - eapply history_project; [exact revoke_history|by apply (projection_lost w "dev" d [])].
  - exists ((issue.1.1 ++ redeem.1.1) ++ let_in.1.1), 3, []. split; [vm_compute; reflexivity|constructor].
  - vm_compute. reflexivity.
  - eexists (Ok example_device), _. split; [split; [reflexivity|vm_compute; reflexivity]|].
    eexists (), _. split; [reflexivity|]. split; reflexivity.
Qed.
