(* ===== verification/Logring.v ===== *)
(** * The log kept for the console (internal/core/logring and the console's endpoint)

    The handler every record of the daemon goes through on its way to the output
    (handler.go), the ring that keeps the newest of them (ring_buffer.go), the streams that
    replay and follow it (open_stream.go, subscriber.go), and the session of one client
    (console/handlers/log_session.go).  Every operation of the ring runs under its mutex and
    is one step; the receive of a reader is another.  A panic is a value. *)

From S2P Require Import Prelude GoStrings GoRegexp Prog.

Definition capacity : Z := 5000.
Definition liveBuffer : nat := 256.
Definition replayLast : Z := 500.
Definition maxValue : nat := 2048.
Definition maxAttrs : nat := 32.
Definition redactedText : string := "[redacted]".

(** [uint64] *)
Definition u64 (z : Z) : Z := (z `mod` 2 ^ 64)%Z.

(** ** The keys whose values are hidden *)

Definition RBytes (bytes : list N) : re := fold_right (λ n r, RSeq (RChar (ascii_of_N n)) r) REps bytes.

(** A letter under [(?i)]: of [k] the Kelvin sign, and of [s] the long one, is another case. *)
Definition RFold (c : ascii) : re :=
  let plain := RByte (λ d, Ascii.eqb (lower_byte d) c) in
  if Ascii.eqb c "k" then RAlt plain (RBytes [226; 132; 170]%N)
  else if Ascii.eqb c "s" then RAlt plain (RBytes [197; 191]%N)
  else plain.

Fixpoint RWord (word : string) : re :=
  match word with
  | "" => REps
  | String c word' => RSeq (RFold c) (RWord word')
  end.

Definition RDash : re := ROpt (RByte (λ c, Ascii.eqb c "-" || Ascii.eqb c "_")).

(** Its alternatives but the last *)
Definition alternatives : list re :=
  [RWord "token"; RWord "secret"; RSeq (RWord "passw") (RSeq (ROpt (RWord "or")) (RWord "d"));
   RWord "authorization"; RSeq (RWord "api") (RSeq RDash (RWord "key"));
   RSeq (RWord "private") (RSeq RDash (RWord "key")); RWord "bearer"; RWord "cookie"; RWord "credential"].

Definition sensitiveKey : re := fold_right RAlt (RWord "pairing") alternatives.

(** [regexp.MatchString] *)
Fixpoint MatchString (r : re) (s : string) : bool :=
  bool_decide (is_Some (rmatch r (λ _ caps, Some caps) s ∅)) ||
  match s with
  | "" => false
  | String _ s' => MatchString r s'
  end.

(** ** Records *)

(** An attribute's value (slog.Value): a number or a boolean, kept as it is; a group; a
    [LogValuer] of a type with what it returns; anything else, as its text. *)
Inductive Value :=
| VScalar (n : Z)
| VText (text : string)
| VGroup (members : list (string * Value))
| VLogValuer (type : string) (v : Value).

Definition Attr : Type := string * Value.

(** A field of a record that is kept *)
Inductive Field := FScalar (n : Z) | FText (text : string).

#[export] Instance field_eq_dec : EqDecision Field.
Proof. solve_decision. Defined.

(** A record of the logger (slog.Record) *)
Record slogRecord := mkSlogRecord {
  sTime : Z;
  sMessage : string;
  sLevel : Z;
  sAttrs : list Attr;
}.

Record LogRecord := mkLogRecord {
  Type_ : string;
  Seq : Z;
  Time : Z;
  Level : string;
  Component : string;
  Msg : string;
  Fields : gmap string Field;
  level : Z;
}.

#[export] Instance log_record_eq_dec : EqDecision LogRecord.
Proof. solve_decision. Defined.

(** The zero value the array starts with *)
Definition zeroRecord : LogRecord := mkLogRecord "" 0 0 "" "" "" ∅ 0.

Definition LevelDebug : Z := -4.
Definition LevelInfo : Z := 0.
Definition LevelWarn : Z := 4.
Definition LevelError : Z := 8.

(** [slog.Level.String] *)
Definition Level_String (l : Z) : string :=
  let str base val :=
    if Z.eqb val 0 then base
    else base +:+ (if Z.ltb 0 val then "+" else "") +:+ pretty val in
  if Z.ltb l LevelInfo then str "DEBUG" (l - LevelDebug)%Z
  else if Z.ltb l LevelWarn then str "INFO" (l - LevelInfo)%Z
  else if Z.ltb l LevelError then str "WARN" (l - LevelWarn)%Z
  else str "ERROR" (l - LevelError)%Z.

(** [utf8.RuneStart]: not a continuation byte *)
Definition RuneStart (c : ascii) : bool := negb (N.eqb (N.land (N_of_ascii c) 192) 128).

Fixpoint rune_cut (text : string) (cut : nat) : nat :=
  match cut with
  | 0 => 0
  | S cut' => if default true (RuneStart <$> String.get cut text) then cut else rune_cut text cut'
  end.

Definition truncate (text : string) : string :=
  if String.length text <=? maxValue then text else take_bytes (rune_cut text maxValue) text.

(** ** The handler *)

Record handler := mkHandler {
  prefix : string;
  attrs : list Attr;
}.

Definition WithAttrs (h : handler) (as_ : list Attr) : handler :=
  mkHandler (prefix h) (attrs h ++ map (λ a, (prefix h +:+ a.1, a.2)) as_).

Definition WithGroup (h : handler) (name : string) : handler :=
  mkHandler (if is_empty name then prefix h else prefix h +:+ name +:+ ".") (attrs h).

Definition render (key : string) (v : Field) : Field :=
  if MatchString sensitiveKey key then FText redactedText
  else match v with
       | FScalar n => FScalar n
       | FText text => FText (truncate text)
       end.

Definition put_field (fields : gmap string Field) (pre key : string) (v : Field) : gmap string Field :=
  if is_empty key || (maxAttrs <=? size fields) then fields
  else <[pre +:+ key := render (pre +:+ key) v]> fields.

(** [Value.Resolve] asks a [LogValuer] a hundred times and then gives up. *)
Definition maxLogValues : nat := 100.

Definition too_many (type : string) : Field :=
  FText ("LogValue called too many times on Value of type " +:+ type).

Definition type_of (v : Value) : string := match v with VLogValuer t _ => t | _ => "" end.

(** [calls] are those left to resolve a value of type [orig]. *)
Fixpoint flatten_value (calls : nat) (orig : string) (fields : gmap string Field) (pre key : string) (v : Value)
  : gmap string Field :=
  match v with
  | VLogValuer _ v' =>
    match calls with
    | S (S _ as calls') => flatten_value calls' orig fields pre key v'
    | _ => put_field fields pre key (too_many orig)
    end
  | VGroup members =>
    let pre' := if is_empty key then pre else pre +:+ key +:+ "." in
    (fix flattenGroup fields members :=
       match members with
       | [] => fields
       | (k, m) :: members' => flattenGroup (flatten_value maxLogValues (type_of m) fields pre' k m) members'
       end) fields members
  | VScalar n => put_field fields pre key (FScalar n)
  | VText text => put_field fields pre key (FText text)
  end.

Definition flatten (fields : gmap string Field) (pre : string) (a : Attr) : gmap string Field :=
  flatten_value maxLogValues (type_of a.2) fields pre a.1 a.2.

Definition fieldsOf (h : handler) (rec : slogRecord) : gmap string Field :=
  foldl (λ fields a, flatten fields (prefix h) a)
    (foldl (λ fields a, flatten fields "" a) ∅ (attrs h)) (sAttrs rec).

(** The record [Handle] gives the ring *)
Definition recordOf (h : handler) (rec : slogRecord) : LogRecord :=
  let fields := fieldsOf h rec in
  mkLogRecord "log" 0 (sTime rec) (to_lower (Level_String (sLevel rec)))
    (match fields !! "component" with Some (FText c) => c | _ => "" end)
    (truncate (sMessage rec)) (delete "component" fields) (sLevel rec).

(** ** The ring *)

(** The channel is its buffer and whether it was closed. *)
Record subscriber := mkSubscriber {
  buffered : list LogRecord;
  closed : bool;
  subLevel : Z;
}.

Definition newSubscriber (level : Z) : subscriber := mkSubscriber [] false level.

Definition wants (sub : subscriber) (rec : LogRecord) : bool := Z.leb (subLevel sub) (level rec).

(** [select] over a send that must not wait: [None] where a send on a closed channel
    panics, and whether the record was taken *)
Definition offer (sub : subscriber) (rec : LogRecord) : option (bool * subscriber) :=
  if closed sub then None
  else if length (buffered sub) <? liveBuffer then
    Some (true, mkSubscriber (buffered sub ++ [rec]) false (subLevel sub))
  else Some (false, sub).

(** [heap] is every subscriber made so far, by its address. *)
Record ringBuffer := mkRing {
  records : gmap Z LogRecord;
  seq_ : Z;
  subscribers : gset nat;
  heap : gmap nat subscriber;
}.

Definition New : ringBuffer := mkRing ∅ 0 ∅ ∅.

Definition set_sub (r : ringBuffer) (id : nat) (sub : subscriber) : ringBuffer :=
  mkRing (records r) (seq_ r) (subscribers r) (<[id := sub]> (heap r)).

(** [None] where a nil subscriber or a second close panics *)
Definition remove (r : ringBuffer) (id : nat) : option ringBuffer :=
  if decide (id ∈ subscribers r) then
    sub ← heap r !! id;
    if closed sub then None
    else Some (mkRing (records r) (seq_ r) (subscribers r ∖ {[id]})
                 (<[id := mkSubscriber (buffered sub) true (subLevel sub)]> (heap r)))
  else Some r.

Definition deliver (rec : LogRecord) (r : ringBuffer) (id : nat) : option ringBuffer :=
  sub ← heap r !! id;
  if negb (wants sub rec) then Some r
  else
    '(taken, sub') ← offer sub rec;
    if taken : bool then Some (set_sub r id sub') else remove r id.

Definition with_seq (rec : LogRecord) (n : Z) : LogRecord :=
  mkLogRecord (Type_ rec) n (Time rec) (Level rec) (Component rec) (Msg rec) (Fields rec) (level rec).

Fixpoint deliver_all (rec : LogRecord) (order : list nat) (r : ringBuffer) : option ringBuffer :=
  match order with
  | [] => Some r
  | id :: order' => r' ← deliver rec r id; deliver_all rec order' r'
  end.

(** [order] is the one the subscribers are ranged over in. *)
Definition append (order : list nat) (r : ringBuffer) (rec : LogRecord) : option ringBuffer :=
  let n := u64 (seq_ r + 1) in
  let rec' := with_seq rec n in
  deliver_all rec' order (mkRing (<[(n `mod` capacity)%Z := rec']> (records r)) n (subscribers r) (heap r)).

Definition appendAtLevel (r : ringBuffer) (lvl : Z) (replay : list LogRecord) (n : Z) : list LogRecord :=
  let rec := default zeroRecord (records r !! (n `mod` capacity)%Z) in
  if Z.ltb (level rec) lvl then replay else replay ++ [rec].

(** The sequence numbers of the loop; it does not end where the newest is the largest
    there is, which the theorems exclude. *)
Definition replay (r : ringBuffer) (since lvl : Z) : list LogRecord :=
  let limit := if Z.eqb since 0 then replayLast else capacity in
  let first := Z.max (u64 (since + 1)) (u64 (seq_ r - Z.min (seq_ r) limit + 1)) in
  foldl (appendAtLevel r lvl) [] (seqZ first (seq_ r - first + 1)).

Record openStream := mkStream {
  stream_id : nat;
  Replay : list LogRecord;
  StreamSeq : Z;
  StreamReset : bool;
}.

Definition Stream (r : ringBuffer) (since lvl : Z) : openStream * ringBuffer :=
  let reset := Z.ltb (seq_ r) since in
  let since := if reset then 0%Z else since in
  let id := fresh (dom (heap r)) in
  let r' := mkRing (records r) (seq_ r) (subscribers r ∪ {[id]}) (<[id := newSubscriber lvl]> (heap r)) in
  (mkStream id (replay r' since lvl) (seq_ r) reset, r').

Definition Close (r : ringBuffer) (s : openStream) : option ringBuffer := remove r (stream_id s).

(** [rec, open := <-Live()]: [None] while it waits *)
Definition Live (r : ringBuffer) (id : nat) : option (option LogRecord * ringBuffer) :=
  sub ← heap r !! id;
  match buffered sub with
  | rec :: rest => Some (Some rec, set_sub r id (mkSubscriber rest (closed sub) (subLevel sub)))
  | [] => if closed sub then Some (None, r) else None
  end.

(** The ring keeps the record whatever the wrapped handler answers. *)
Definition Handle {E} (next : slogRecord → E) (order : list nat) (h : handler) (r : ringBuffer) (rec : slogRecord)
  : option (ringBuffer * E) :=
  r' ← append order r (recordOf h rec);
  Some (r', next rec).

(** ** One ring, its loggers and its readers *)

(** A stream, what it was asked for, and what its reader took from it *)
Record opened := mkOpened {
  stream : openStream;
  askedSince : Z;
  askedLevel : Z;
  taken : list LogRecord;
}.

(** [logged] is every record so far, the oldest first. *)
Record world := mkWorld {
  ring : ringBuffer;
  logged : list LogRecord;
  opens : gmap nat opened;
}.

Definition start : world := mkWorld New [] ∅.

Inductive step (w : world) : world → Prop :=
| step_log order rec r' :
    order ≡ₚ elements (subscribers (ring w)) → append order (ring w) rec = Some r' →
    step w (mkWorld r' (logged w ++ [with_seq rec (seq_ r')]) (opens w))
| step_open since lvl s r' :
    (0 <= since < 2 ^ 64)%Z → Stream (ring w) since lvl = (s, r') →
    step w (mkWorld r' (logged w) (<[stream_id s := mkOpened s since lvl []]> (opens w)))
| step_read id c rec r' :
    opens w !! id = Some c → Live (ring w) id = Some (Some rec, r') →
    step w (mkWorld r' (logged w) (<[id := mkOpened (stream c) (askedSince c) (askedLevel c) (taken c ++ [rec])]> (opens w)))
| step_close id c r' :
    opens w !! id = Some c → Close (ring w) (stream c) = Some r' →
    step w (mkWorld r' (logged w) (opens w)).

Definition reachable : world → Prop := rtc step start.

(** How much of the log a stream leaves out at its start *)
Definition replay_from (since newest : Z) : Z :=
  Z.max since (newest - (if Z.eqb since 0 then replayLast else capacity)).

Definition opened_from (c : opened) : nat :=
  Z.to_nat (replay_from (if StreamReset (stream c) then 0 else askedSince c)%Z (StreamSeq (stream c))).

Definition at_level (lvl : Z) (l : list LogRecord) : list LogRecord := filter (λ rec, (lvl <= level rec)%Z) l.

(** ** Delivering *)

Definition delivered (rec : LogRecord) (sub : subscriber) : subscriber :=
  if negb (wants sub rec) then sub
  else if length (buffered sub) <? liveBuffer then mkSubscriber (buffered sub ++ [rec]) false (subLevel sub)
  else mkSubscriber (buffered sub) true (subLevel sub).

Lemma delivered_level rec sub : subLevel (delivered rec sub) = subLevel sub.
Proof. unfold delivered. by repeat case_match. Qed.

Lemma deliver_open rec r id sub :
  heap r !! id = Some sub → closed sub = false → id ∈ subscribers r →
  deliver rec r id = Some (mkRing (records r) (seq_ r)
    (if closed (delivered rec sub) then subscribers r ∖ {[id]} else subscribers r)
    (<[id := delivered rec sub]> (heap r))).
Proof.
  intros Hsub Hopen Hin. unfold deliver, delivered, offer. rewrite Hsub; cbn [mbind option_bind].
  destruct (wants sub rec); cbn [negb].
  - rewrite Hopen; cbn [mbind option_bind]. destruct (_ <? _); [done|].
    unfold remove. by rewrite decide_True, Hsub; cbn; rewrite ?Hopen.
  - rewrite Hopen, insert_id by done. by destruct r.
Qed.

(** What a record does to every subscriber, in whatever order they are ranged over *)
Lemma deliver_all_spec rec order : ∀ r, NoDup order →
  (∀ id, id ∈ order → id ∈ subscribers r ∧ ∃ sub, heap r !! id = Some sub ∧ closed sub = false) →
  ∃ r', deliver_all rec order r = Some r' ∧ records r' = records r ∧ seq_ r' = seq_ r ∧
    (∀ id, heap r' !! id = if decide (id ∈ order) then delivered rec <$> heap r !! id else heap r !! id) ∧
    (∀ id, id ∈ subscribers r' ↔ id ∈ subscribers r ∧
       (id ∈ order → ∃ sub, heap r !! id = Some sub ∧ closed (delivered rec sub) = false)).
Proof.
  induction order as [|id order IH]; intros r Hnd Hin; cbn [deliver_all].
  - exists r. split_and!; try done. intros id. split; [|by intros []]. by split; [|intros ?%elem_of_nil].
  - apply NoDup_cons in Hnd as [Hid Hnd].
    destruct (Hin id ltac:(by left)) as [Hs (sub & Hsub & Hopen)].
    rewrite (deliver_open rec r id sub) by done. cbn [mbind option_bind].
    edestruct IH as (r' & -> & Hr & Hq & Hheap & Hsubs); [done| |].
    { intros id' Hid'. assert (id' ≠ id) by congruence.
      destruct (Hin id' ltac:(by right)) as [Hs' (sub' & Hsub' & ?)]. cbn.
      rewrite lookup_insert_ne by done. split; [|by exists sub']. case_match; set_solver. }
    exists r'. split_and!; [done..| |].
    + intros id'. rewrite Hheap. cbn. destruct (decide (id' = id)) as [->|Hne].
      * rewrite decide_False, decide_True, lookup_insert_eq, Hsub by (done || by left). done.
      * rewrite lookup_insert_ne by done. apply decide_ext. rewrite elem_of_cons. naive_solver.
    + intros id'. rewrite Hsubs. cbn. destruct (decide (id' = id)) as [->|Hne].
      * split.
        -- intros [Hin' _]. destruct (closed (delivered rec sub)) eqn:Hc; [set_solver|].
           split; [done|]. intros _. by exists sub.
        -- intros [_ Hc]. destruct Hc as (sub' & Hsub' & Hc); [by left|]. simplify_eq. rewrite Hc.
           by split.
      * rewrite lookup_insert_ne by done. rewrite elem_of_cons.
        assert (id' ∈ (if closed (delivered rec sub) then subscribers r ∖ {[id]} else subscribers r) ↔ id' ∈ subscribers r)
          as -> by (case_match; set_solver). naive_solver.
Qed.

(** ** What the ring keeps *)

Definition ring_ok (r : ringBuffer) (log : list LogRecord) : Prop :=
  seq_ r = Z.of_nat (length log) ∧
  (∀ i rec, log !! i = Some rec → Seq rec = (Z.of_nat i + 1)%Z) ∧
  (∀ i rec, log !! i = Some rec → (Z.of_nat (length log) - capacity <= Z.of_nat i)%Z →
     records r !! ((Z.of_nat i + 1) `mod` capacity)%Z = Some rec).

(** An open channel is a subscriber's, and the other way round. *)
Definition subs_ok (r : ringBuffer) : Prop :=
  (∀ id, id ∈ subscribers r ↔ ∃ sub, heap r !! id = Some sub ∧ closed sub = false) ∧
  (∀ id sub, heap r !! id = Some sub → length (buffered sub) ≤ liveBuffer).

Lemma u64_small n : (0 <= n < 2 ^ 64)%Z → u64 n = n.
Proof. apply Z.mod_small. Qed.

Lemma slot_apart i j : (0 <= i < j)%Z → (j - i < capacity)%Z → (i `mod` capacity ≠ j `mod` capacity)%Z.
Proof.
  intros Hij Hd Heq. unfold capacity in *.
  pose proof (Z.div_mod i 5000) as Hi. pose proof (Z.div_mod j 5000) as Hj. rewrite Heq in Hi.
  assert (j - i = 5000 * (j / 5000 - i / 5000))%Z by lia. nia.
Qed.

Lemma ring_ok_log r log rec n :
  ring_ok r log → n = (Z.of_nat (length log) + 1)%Z → (n < 2 ^ 64)%Z →
  ∀ r', records r' = <[(n `mod` capacity)%Z := with_seq rec n]> (records r) → seq_ r' = n →
  ring_ok r' (log ++ [with_seq rec n]).
Proof.
  intros (Hs & Hn & Hk) -> Hlt r' Hr' Hs'. split_and!.
  - rewrite Hs', length_app. cbn. lia.
  - intros i x Hx. apply lookup_app_Some in Hx as [Hx|[Hle Hx]]; [by apply Hn|].
    apply list_lookup_singleton_Some in Hx as [Hi <-]. cbn. lia.
  - intros i x Hx Hi. rewrite length_app in Hi. cbn in Hi. rewrite Hr'.
    apply lookup_app_Some in Hx as [Hx|[Hle Hx]].
    + pose proof (lookup_lt_Some _ _ _ Hx).
      rewrite lookup_insert_ne; [apply Hk; [done|lia]|]. apply not_eq_sym, slot_apart; lia.
    + apply list_lookup_singleton_Some in Hx as [Hil <-].
      replace (Z.of_nat i + 1)%Z with (Z.of_nat (length log) + 1)%Z by lia. by rewrite lookup_insert_eq.
Qed.

(** ** Replaying *)

Lemma replay_loop r lvl l : ∀ first acc,
  (∀ i rec, l !! i = Some rec → records r !! ((first + Z.of_nat i) `mod` capacity)%Z = Some rec) →
  foldl (appendAtLevel r lvl) acc (seqZ first (Z.of_nat (length l))) = acc ++ at_level lvl l.
Proof.
  induction l as [|rec l IH]; intros first acc Hl; cbn [length].
  - by rewrite app_nil_r.
  - rewrite seqZ_cons by lia. cbn [foldl]. rewrite Nat2Z.inj_succ, Z.pred_succ.
    rewrite IH.
    + unfold appendAtLevel at 1. pose proof (Hl 0 rec eq_refl) as H0. rewrite Z.add_0_r in H0. rewrite H0.
      unfold at_level; cbn [default from_option id]. destruct (Z.ltb_spec (level rec) lvl).
      * by rewrite filter_cons_False by lia.
      * rewrite filter_cons_True by lia. by rewrite <- app_assoc.
    + intros i x Hx. specialize (Hl (S i) x Hx). rewrite <- Hl. do 2 f_equal. lia.
Qed.

Lemma replay_spec r log since lvl :
  ring_ok r log → (0 <= since <= seq_ r)%Z → (Z.of_nat (length log) < 2 ^ 64 - 1)%Z →
  replay r since lvl = at_level lvl (drop (Z.to_nat (replay_from since (seq_ r))) log).
Proof.
  intros (Hs & Hn & Hk) Hsince Hlt. unfold replay. cbn zeta.
  set (limit := if Z.eqb since 0 then replayLast else capacity).
  assert (limit = replayLast ∨ limit = capacity) as Hlimit by (unfold limit; case_match; auto).
  unfold replay_from. fold limit. unfold replayLast, capacity in *.
  rewrite !u64_small by lia.
  set (from := Z.max since (seq_ r - limit)).
  replace (Z.max (since + 1) (seq_ r - Z.min (seq_ r) limit + 1)) with (from + 1)%Z by lia.
  replace (seq_ r - (from + 1) + 1)%Z with (Z.of_nat (length (drop (Z.to_nat from) log)))
    by (rewrite length_drop; lia).
  rewrite replay_loop; [done|]. intros i rec Hi. rewrite lookup_drop in Hi.
  replace (from + 1 + Z.of_nat i)%Z with (Z.of_nat (Z.to_nat from + i) + 1)%Z by lia.
  apply Hk; [done|]. unfold capacity. lia.
Qed.

(** ** The invariant of the machine *)

Definition stream_ok (w : world) (id : nat) (c : opened) : Prop :=
  ∃ sub missed, heap (ring w) !! id = Some sub ∧ stream_id (stream c) = id ∧ subLevel sub = askedLevel c ∧
    (0 <= askedSince c)%Z ∧ (0 <= StreamSeq (stream c) <= Z.of_nat (length (logged w)))%Z ∧
    StreamReset (stream c) = Z.ltb (StreamSeq (stream c)) (askedSince c) ∧
    opened_from c ≤ length (logged w) ∧
    Replay (stream c) ++ taken c ++ buffered sub ++ missed = at_level (askedLevel c) (drop (opened_from c) (logged w)) ∧
    (closed sub = false → missed = []).

Definition world_ok (w : world) : Prop :=
  ring_ok (ring w) (logged w) ∧ subs_ok (ring w) ∧ ∀ id c, opens w !! id = Some c → stream_ok w id c.

Definition few (w : world) : Prop := (Z.of_nat (length (logged w)) < 2 ^ 64 - 1)%Z.

Lemma start_ok : world_ok start.
Proof.
  split_and!; [by split_and!|split|done].
  - intros id. cbn. split; [by intros ?%elem_of_empty|by intros (? & ? & _)].
  - by intros id sub.
Qed.

Lemma elements_open r order id :
  subs_ok r → order ≡ₚ elements (subscribers r) → id ∈ order →
  id ∈ subscribers r ∧ ∃ sub, heap r !! id = Some sub ∧ closed sub = false.
Proof.
  intros [Hopen _] Hperm Hin. rewrite Hperm in Hin. apply elem_of_elements in Hin.
  split; [done|]. by apply Hopen.
Qed.

(** A record reaches the ring and every subscriber, without a panic. *)
Lemma append_spec r order rec :
  subs_ok r → order ≡ₚ elements (subscribers r) →
  let n := u64 (seq_ r + 1) in
  ∃ r', append order r rec = Some r' ∧
    records r' = <[(n `mod` capacity)%Z := with_seq rec n]> (records r) ∧ seq_ r' = n ∧
    (∀ id, heap r' !! id =
       if decide (id ∈ subscribers r) then delivered (with_seq rec n) <$> heap r !! id else heap r !! id) ∧
    (∀ id, id ∈ subscribers r' ↔ id ∈ subscribers r ∧
       ∃ sub, heap r !! id = Some sub ∧ closed (delivered (with_seq rec n) sub) = false).
Proof.
  intros Hok Hperm n. unfold append. fold n.
  assert (∀ id, id ∈ order ↔ id ∈ subscribers r) as Hin
    by (intros id; rewrite Hperm; apply elem_of_elements).
  edestruct (deliver_all_spec (with_seq rec n) order) as (r' & -> & Hr & Hq & Hheap & Hsubs).
  { rewrite Hperm. apply NoDup_elements. }
  { intros id Hid. by apply (elements_open r order). }
  exists r'. split_and!; [done..| |].
  - intros id. rewrite Hheap. apply decide_ext, Hin.
  - intros id. rewrite Hsubs, Hin. cbn. naive_solver.
Qed.

Lemma delivered_closed rec sub :
  closed sub = false → closed (delivered rec sub) = wants sub rec && (liveBuffer <=? length (buffered sub)).
Proof.
  intros Hc. unfold delivered. destruct (wants sub rec); [|done].
  by destruct (Nat.ltb_spec (length (buffered sub)) liveBuffer), (Nat.leb_spec liveBuffer (length (buffered sub))); try lia.
Qed.

Lemma subs_ok_append r order rec r' :
  subs_ok r → order ≡ₚ elements (subscribers r) → append order r rec = Some r' → subs_ok r'.
Proof.
  intros Hok Hperm Hr. destruct (append_spec r order rec Hok Hperm) as (r0 & Hr0 & _ & _ & Hheap & Hsubs).
  rewrite Hr in Hr0. injection Hr0 as <-. destruct Hok as [Hopen Hlen]. split.
  - intros id. rewrite Hsubs, Hheap. split.
    + intros (Hin & sub & Hsub & Hc). rewrite decide_True by done. rewrite Hsub. by eexists.
    + intros (sub & Hsub & Hc). destruct (decide (id ∈ subscribers r)) as [Hin|Hin].
      * split; [done|]. apply fmap_Some in Hsub as (sub0 & Hsub0 & ->). by exists sub0.
      * destruct Hin. apply Hopen. by exists sub.
  - intros id sub. rewrite Hheap. case_decide; [|apply Hlen].
    intros (sub0 & Hsub0 & ->)%fmap_Some. specialize (Hlen _ _ Hsub0). unfold delivered.
    repeat case_match; cbn; rewrite ?length_app; cbn; try lia. apply Nat.ltb_lt in H1; lia.
Qed.

Lemma at_level_app lvl l l' : at_level lvl (l ++ l') = at_level lvl l ++ at_level lvl l'.
Proof. apply filter_app. Qed.

Lemma at_level_one sub rec :
  at_level (subLevel sub) [rec] = if wants sub rec then [rec] else [].
Proof.
  unfold at_level, wants. destruct (Z.leb_spec (subLevel sub) (level rec)).
  - by rewrite filter_cons_True by lia.
  - by rewrite filter_cons_False by lia.
Qed.

(** What a stream has to show for one record more *)
Lemma delivered_shown rec sub missed (shown : list LogRecord) :
  closed sub = false → missed = [] →
  ∃ missed', shown ++ buffered (delivered rec sub) ++ missed' =
      (shown ++ buffered sub ++ missed) ++ at_level (subLevel sub) [rec] ∧
    (closed (delivered rec sub) = false → missed' = []).
Proof.
  intros Hc ->. rewrite at_level_one, app_nil_r. unfold delivered. destruct (wants sub rec); cbn [negb].
  - destruct (_ <? _).
    + exists []. cbn [buffered]. by simplify_list_eq.
    + exists [rec]. cbn [buffered closed]. by simplify_list_eq.
  - exists []. by simplify_list_eq.
Qed.

Lemma stream_ok_log w id c order rec r' :
  subs_ok (ring w) → order ≡ₚ elements (subscribers (ring w)) → append order (ring w) rec = Some r' →
  stream_ok w id c → stream_ok (mkWorld r' (logged w ++ [with_seq rec (seq_ r')]) (opens w)) id c.
Proof.
  intros Hok Hperm Hr (sub & missed & Hsub & Hid & Hl & Ha & Hs & Hre & Hfrom & Hshown & Hmissed).
  destruct (append_spec _ order rec Hok Hperm) as (r0 & Hr0 & _ & Hq & Hheap & _).
  rewrite Hr in Hr0. injection Hr0 as <-. specialize (Hheap id). rewrite Hsub in Hheap. cbn in Hheap.
  set (rec' := with_seq rec (seq_ r')) in *. rewrite <- Hq in Hheap. fold rec' in Hheap.
  assert (∃ sub' missed', heap r' !! id = Some sub' ∧ subLevel sub' = subLevel sub ∧
    (Replay (stream c) ++ taken c) ++ buffered sub' ++ missed' =
      ((Replay (stream c) ++ taken c) ++ buffered sub ++ missed) ++ at_level (subLevel sub) [rec'] ∧
    (closed sub' = false → missed' = [])) as (sub' & missed' & Hsub' & Hl' & Hshown' & Hmissed').
  { case_decide as Hin.
    - apply (proj1 Hok) in Hin as (sub0 & Hsub0 & Hc). rewrite Hsub in Hsub0. injection Hsub0 as <-.
      destruct (delivered_shown rec' sub missed (Replay (stream c) ++ taken c) Hc (Hmissed Hc)) as (missed' & ? & ?).
      exists (delivered rec' sub), missed'. split_and!; try done. apply delivered_level.
    - destruct (closed sub) eqn:Hc; [|destruct Hin; apply Hok; by exists sub].
      exists sub, (missed ++ at_level (subLevel sub) [rec']). split_and!; [done..| |by rewrite Hc].
      by rewrite <- !app_assoc. }
  exists sub', missed'. cbn [ring logged]. split_and!; try done; rewrite ?length_app; cbn [length]; try lia.
  rewrite app_assoc, Hshown', drop_app_le, at_level_app, <- Hshown, Hl by done. by simplify_list_eq.
Qed.

Lemma world_ok_log w order rec r' :
  world_ok w → order ≡ₚ elements (subscribers (ring w)) → append order (ring w) rec = Some r' → few w →
  world_ok (mkWorld r' (logged w ++ [with_seq rec (seq_ r')]) (opens w)).
Proof.
  intros (Hring & Hok & Hstreams) Hperm Hr Hfew. split_and!; cbn [ring logged opens].
  - destruct (append_spec _ order rec Hok Hperm) as (r0 & Hr0 & Hrec & Hq & _).
    rewrite Hr in Hr0. injection Hr0 as <-. destruct Hring as [Hseq Hring]. unfold few in Hfew.
    rewrite u64_small in * by lia. rewrite Hq. eapply ring_ok_log; [by split| | |done|done]; lia.
  - by eapply subs_ok_append.
  - intros id c Hc. by eapply stream_ok_log; [| | |apply Hstreams].
Qed.

(** A step that leaves the records, the log and the subscribers of other streams alone *)
Lemma stream_ok_frame w w' id c :
  logged w' = logged w → heap (ring w') !! id = heap (ring w) !! id → stream_ok w id c → stream_ok w' id c.
Proof. unfold stream_ok. by intros -> ->. Qed.

Lemma ring_ok_frame r r' log :
  records r' = records r → seq_ r' = seq_ r → ring_ok r log → ring_ok r' log.
Proof. unfold ring_ok. by intros -> ->. Qed.

Lemma world_ok_open w since lvl s r' :
  world_ok w → (0 <= since)%Z → Stream (ring w) since lvl = (s, r') → few w →
  world_ok (mkWorld r' (logged w) (<[stream_id s := mkOpened s since lvl []]> (opens w))).
Proof.
  intros (Hring & Hok & Hstreams) Hsince Hs Hfew. unfold Stream in Hs. injection Hs as <- <-.
  set (id := fresh (dom (heap (ring w)))). cbn [stream_id].
  assert (heap (ring w) !! id = None) as Hnew by (apply not_elem_of_dom, is_fresh).
  assert (id ∉ subscribers (ring w)) as Hnot by (intros (? & ? & _)%(proj1 Hok); congruence).
  split_and!; cbn [ring logged opens]; [done| |].
  - split; cbn [subscribers heap].
    + intros id'. rewrite elem_of_union, elem_of_singleton. destruct (decide (id' = id)) as [->|Hne].
      * rewrite lookup_insert_eq. split; [|by right]. intros _. by eexists.
      * rewrite lookup_insert_ne by done. rewrite (proj1 Hok). naive_solver.
    + intros id' sub. destruct (decide (id' = id)) as [->|Hne].
      * rewrite lookup_insert_eq. intros [= <-]. cbn. lia.
      * rewrite lookup_insert_ne by done. apply Hok.
  - intros id' c. destruct (decide (id' = id)) as [->|Hne].
    + rewrite lookup_insert_eq. intros [= <-]. pose proof Hring as [Hseq _].
      exists (newSubscriber lvl), []. cbn [ring heap stream askedSince askedLevel taken StreamSeq StreamReset logged].
      unfold opened_from; cbn [stream StreamReset StreamSeq askedSince].
      set (since' := if Z.ltb (seq_ (ring w)) since then 0%Z else since).
      assert (0 <= since' <= seq_ (ring w))%Z as Hsince' by (unfold since'; case_match; lia).
      split_and!; try done; try lia.
      * by rewrite lookup_insert_eq.
      * unfold replay_from, replayLast, capacity. case_match; lia.
      * cbn [Replay newSubscriber buffered]. rewrite !app_nil_r.
        erewrite replay_spec; [done|by eapply ring_ok_frame|done|exact Hfew].
    + rewrite lookup_insert_ne by done. intros Hc. specialize (Hstreams _ _ Hc).
      eapply stream_ok_frame; [| |exact Hstreams]; [done|]. cbn. by rewrite lookup_insert_ne.
Qed.

Lemma world_ok_read w id c rec r' :
  world_ok w → opens w !! id = Some c → Live (ring w) id = Some (Some rec, r') →
  world_ok (mkWorld r' (logged w) (<[id := mkOpened (stream c) (askedSince c) (askedLevel c) (taken c ++ [rec])]> (opens w))).
Proof.
  intros (Hring & Hok & Hstreams) Hc Hr. unfold Live in Hr.
  destruct (heap (ring w) !! id) as [sub|] eqn:Hsub; [|done]. cbn in Hr.
  destruct (buffered sub) as [|rec' rest] eqn:Hb; [by case_match|]. injection Hr as -> <-.
  split_and!; cbn [ring logged opens]; [by eapply ring_ok_frame; [| |exact Hring]| |].
  - destruct Hok as [Hopen Hlen]. split; cbn [subscribers heap set_sub].
    + intros id'. rewrite Hopen. destruct (decide (id' = id)) as [->|Hne].
      * rewrite lookup_insert_eq, Hsub. naive_solver.
      * by rewrite lookup_insert_ne.
    + intros id' sub'. destruct (decide (id' = id)) as [->|Hne].
      * rewrite lookup_insert_eq. intros [= <-]. specialize (Hlen _ _ Hsub). rewrite Hb in Hlen. cbn in *. lia.
      * rewrite lookup_insert_ne by done. apply Hlen.
  - intros id' c'. destruct (decide (id' = id)) as [->|Hne].
    + rewrite lookup_insert_eq. intros [= <-].
      destruct (Hstreams _ _ Hc) as (sub0 & missed & Hsub0 & Hid & Hl & Ha & Hs & Hre & Hfrom & Hshown & Hm).
      rewrite Hsub in Hsub0. injection Hsub0 as <-.
      exists (mkSubscriber rest (closed sub) (subLevel sub)), missed.
      cbn [ring heap set_sub stream askedSince askedLevel taken buffered closed subLevel logged].
      rewrite lookup_insert_eq. split_and!; try done; try lia.
      rewrite Hb in Hshown. rewrite <- !app_assoc. exact Hshown.
    + rewrite lookup_insert_ne by done. intros Hc'.
      eapply stream_ok_frame; [| |by apply Hstreams]; [done|]. cbn. by rewrite lookup_insert_ne.
Qed.

(** Closing closes an open channel, and does nothing the second time. *)
Lemma remove_spec r id :
  subs_ok r → ∃ r', remove r id = Some r' ∧ records r' = records r ∧ seq_ r' = seq_ r ∧ subs_ok r' ∧
    id ∉ subscribers r' ∧
    (∀ id', id' ≠ id → heap r' !! id' = heap r !! id') ∧
    (∀ sub, heap r !! id = Some sub → ∃ c, heap r' !! id = Some (mkSubscriber (buffered sub) c (subLevel sub)) ∧
       (c = false → closed sub = false)).
Proof.
  intros Hok. unfold remove. case_decide as Hin.
  - destruct (proj1 (proj1 Hok id) Hin) as (sub & Hsub & Hc). rewrite Hsub. cbn. rewrite Hc.
    eexists. split_and!; [done..| | | |]; cbn [subscribers heap].
    + split; cbn [subscribers heap].
      * intros id'. destruct (decide (id' = id)) as [->|Hne].
        -- rewrite lookup_insert_eq. split; [set_solver|]. by intros (? & [= <-] & ?).
        -- rewrite lookup_insert_ne by done. rewrite <- (proj1 Hok). set_solver.
      * intros id' sub'. destruct (decide (id' = id)) as [->|Hne].
        -- rewrite lookup_insert_eq. intros [= <-]. exact (proj2 Hok _ _ Hsub).
        -- rewrite lookup_insert_ne by done. apply Hok.
    + set_solver.
    + intros id' Hne. by rewrite lookup_insert_ne.
    + intros sub' Hsub'. assert (sub' = sub) as -> by congruence. rewrite lookup_insert_eq. by eexists.
  - exists r. split_and!; try done. intros sub Hsub. exists (closed sub). by destruct sub.
Qed.

Lemma world_ok_close w id c r' :
  world_ok w → opens w !! id = Some c → Close (ring w) (stream c) = Some r' →
  world_ok (mkWorld r' (logged w) (opens w)).
Proof.
  intros (Hring & Hok & Hstreams) Hc Hr. unfold Close in Hr.
  destruct (remove_spec (ring w) (stream_id (stream c)) Hok) as (r0 & Hr0 & Hrec & Hq & Hok' & _ & Hother & Hthis).
  rewrite Hr in Hr0. injection Hr0 as <-.
  split_and!; cbn [ring logged opens]; [by eapply ring_ok_frame|done|].
  intros id' c' Hc'. specialize (Hstreams _ _ Hc').
  destruct (decide (id' = stream_id (stream c))) as [->|Hne].
  - destruct Hstreams as (sub & missed & Hsub & Hid & Hl & Ha & Hs & Hre & Hfrom & Hshown & Hm).
    destruct (Hthis sub Hsub) as (b & Hsub' & Hb).
    exists (mkSubscriber (buffered sub) b (subLevel sub)), missed. cbn [ring logged]. split_and!; try done; try lia.
    intros Hb'. by apply Hm, Hb.
  - eapply stream_ok_frame; [| |exact Hstreams]; [done|]. by apply Hother.
Qed.

Lemma step_logged w w' : step w w' → length (logged w) ≤ length (logged w').
Proof. destruct 1; cbn; rewrite ?length_app; lia. Qed.

Lemma reachable_ok w : reachable w → few w → world_ok w.
Proof.
  revert w. apply (rtc_ind_r (λ w, few w → world_ok w) start); [intros _; apply start_ok|].
  intros w w' Hr Hstep IH Hfew.
  assert (few w) as Hfew0 by (pose proof (step_logged _ _ Hstep); unfold few in *; lia).
  specialize (IH Hfew0). destruct Hstep.
  - by eapply world_ok_log.
  - eapply world_ok_open; try done. lia.
  - by eapply world_ok_read.
  - by eapply world_ok_close.
Qed.

(** ** The theorems *)

(** No logger and no reader ever meets a closed channel: a record is always taken, and a
    stream can be closed at any time. *)
Lemma ring_never_panics w : reachable w → few w →
  (∀ order rec, order ≡ₚ elements (subscribers (ring w)) → is_Some (append order (ring w) rec)) ∧
  ∀ s, is_Some (Close (ring w) s).
Proof.
  intros Hr Hfew. destruct (reachable_ok w Hr Hfew) as (_ & Hok & _). split.
  - intros order rec Hperm. by destruct (append_spec _ order rec Hok Hperm) as (r' & -> & _).
  - intros s. unfold Close. by destruct (remove_spec (ring w) (stream_id s) Hok) as (r' & -> & _).
Qed.

(** A reader is dropped only by its own [Close], or with [liveBuffer] records waiting. *)
Lemma dropped_when_behind r order rec r' id :
  subs_ok r → order ≡ₚ elements (subscribers r) → append order r rec = Some r' →
  id ∈ subscribers r → id ∉ subscribers r' →
  ∃ sub, heap r !! id = Some sub ∧ length (buffered sub) = liveBuffer ∧ (subLevel sub <= level rec)%Z.
Proof.
  intros Hok Hperm Hr Hin Hout. destruct (append_spec r order rec Hok Hperm) as (r0 & Hr0 & _ & _ & _ & Hsubs).
  rewrite Hr in Hr0. injection Hr0 as <-. destruct (proj1 (proj1 Hok id) Hin) as (sub & Hsub & Hc).
  exists sub. split; [done|]. set (rec' := with_seq rec (u64 (seq_ r + 1))) in *.
  destruct (closed (delivered rec' sub)) eqn:Hd; [|destruct Hout; apply Hsubs; eauto].
  rewrite delivered_closed in Hd by done. apply andb_prop in Hd as [Hw Hlen%Nat.leb_le].
  pose proof (proj2 Hok _ _ Hsub). split; [lia|]. unfold wants in Hw. cbn in Hw. lia.
Qed.

(** C33. A stream has no gap: however the loggers, the other streams and their readers
    interleave, what it replayed, what its reader took from it and what waits for the
    reader are together exactly the records at its level logged since the point it replays
    from, each once and in order; while it is subscribed it misses none, and once it is
    closed it misses only the newest.  The point is the one asked for, but at most 5000
    records back, or the last 500 when none was asked for or the ring has been replaced.
    This as long as fewer records are logged than a sequence number can count. *)
Theorem stream_gap_free w id c :
  reachable w → few w → opens w !! id = Some c →
  ∃ sub missed, heap (ring w) !! id = Some sub ∧
    Replay (stream c) ++ taken c ++ buffered sub ++ missed =
      at_level (askedLevel c) (drop (opened_from c) (logged w)) ∧
    (id ∈ subscribers (ring w) → missed = []).
Proof.
  intros Hr Hfew Hc. destruct (reachable_ok w Hr Hfew) as (_ & Hok & Hstreams).
  destruct (Hstreams _ _ Hc) as (sub & missed & Hsub & _ & _ & _ & _ & _ & _ & Hshown & Hm).
  exists sub, missed. split_and!; [done..|]. intros Hin. apply Hm.
  apply Hok in Hin as (sub' & Hsub' & Hclosed). congruence.
Qed.

Lemma at_level_split lvl l : ∀ shown rec rest,
  at_level lvl l = shown ++ rec :: rest →
  ∃ l1 l2, l = l1 ++ rec :: l2 ∧ at_level lvl l1 = shown ∧ at_level lvl l2 = rest.
Proof.
  induction l as [|x l IH]; intros shown rec rest Hl; [by destruct shown|].
  unfold at_level in Hl. destruct (decide (lvl <= level x)%Z) as [Hx|Hx].
  - rewrite filter_cons_True in Hl by done. destruct shown as [|y shown]; injection Hl as -> Hl.
    + by exists [], l.
    + destruct (IH _ _ _ Hl) as (l1 & l2 & -> & Hl1 & Hl2). exists (y :: l1), l2.
      split_and!; [done| |done]. unfold at_level. rewrite filter_cons_True by done. by f_equal.
  - rewrite filter_cons_False in Hl by done.
    destruct (IH _ _ _ Hl) as (l1 & l2 & -> & Hl1 & Hl2). exists (x :: l1), l2.
    split_and!; [done| |done]. unfold at_level. by rewrite filter_cons_False.
Qed.

(** A client that comes back loses nothing: when it opens a stream with the sequence
    number of the last record it has, at the level it had, and no more than 5000 were logged
    since, what it read before and what it reads now are together the records at that level
    from where it first started, each once and in order. *)
Lemma reconnect_continues w id1 c1 id2 c2 shown rec :
  reachable w → few w → opens w !! id1 = Some c1 → opens w !! id2 = Some c2 →
  Replay (stream c1) ++ taken c1 = shown ++ [rec] →
  askedLevel c2 = askedLevel c1 → askedSince c2 = Seq rec →
  StreamReset (stream c2) = false → (StreamSeq (stream c2) - Seq rec <= capacity)%Z →
  ∃ rest, (Replay (stream c1) ++ taken c1) ++ (Replay (stream c2) ++ taken c2) ++ rest =
    at_level (askedLevel c1) (drop (opened_from c1) (logged w)).
Proof.
  intros Hr Hfew Hc1 Hc2 Hlast Hlvl Hsince Hreset Hback.
  destruct (reachable_ok w Hr Hfew) as ((_ & Hseq & _) & _ & Hstreams).
  destruct (Hstreams _ _ Hc1) as (sub1 & m1 & _ & _ & _ & _ & _ & _ & _ & Hshown1 & _).
  destruct (Hstreams _ _ Hc2) as (sub2 & m2 & _ & _ & _ & _ & _ & _ & _ & Hshown2 & _).
  rewrite app_assoc, Hlast, <- app_assoc in Hshown1. symmetry in Hshown1.
  destruct (at_level_split _ _ _ _ _ Hshown1) as (l1 & l2 & Hl & Hl1 & Hl2).
  assert (logged w !! (opened_from c1 + length l1) = Some rec) as Hrec
    by (by rewrite <- lookup_drop, Hl, list_lookup_middle).
  apply Hseq in Hrec as Hn.
  assert (opened_from c2 = S (opened_from c1 + length l1)) as Hfrom.
  { unfold opened_from at 1. rewrite Hreset. unfold replay_from, capacity in *. case_match; lia. }
  assert (drop (opened_from c2) (logged w) = l2) as Hdrop.
  { rewrite Hfrom. replace (S (opened_from c1 + length l1)) with (opened_from c1 + (length l1 + 1)) by lia.
    rewrite <- drop_drop, Hl, <- drop_drop, drop_app_length. done. }
  exists (buffered sub2 ++ m2). rewrite Hlast, Hshown1, <- app_assoc; cbn. do 2 f_equal.
  rewrite <- Hlvl in Hl2. rewrite <- Hl2 in *. rewrite Hdrop in Hshown2. rewrite <- Hshown2. by rewrite <- !app_assoc.
Qed.

(** ** The fields of a record *)

Section value_ind.
Context (P : Value → Prop) (Hscalar : ∀ n, P (VScalar n)) (Htext : ∀ t, P (VText t))
  (Hgroup : ∀ l, Forall (λ a, P a.2) l → P (VGroup l)) (Hvaluer : ∀ t v, P v → P (VLogValuer t v)).

Fixpoint Value_nested_ind (v : Value) : P v :=
  match v with
  | VScalar n => Hscalar n
  | VText t => Htext t
  | VGroup l => Hgroup l ((fix members l := match l return Forall (λ a, P a.2) l with
                           | [] => List.Forall_nil _
                           | a :: l' => List.Forall_cons _ a l' (Value_nested_ind a.2) (members l')
                           end) l)
  | VLogValuer t v' => Hvaluer t v' (Value_nested_ind v')
  end.
End value_ind.

(** A group is the fold of its members. *)
Lemma flatten_group calls orig fields pre key members :
  flatten_value calls orig fields pre key (VGroup members) =
  foldl (λ fields a, flatten fields (if is_empty key then pre else pre +:+ key +:+ ".") a) fields members.
Proof.
  cbn [flatten_value]. revert fields. induction members as [|[k m] members IH]; intros fields; [done|]. apply IH.
Qed.

Section kept.
(** What putting one field keeps, a record keeps. *)
Context (K : gmap string Field → Prop).
Hypothesis kept_put : ∀ fields pre key v, K fields → K (put_field fields pre key v).

Lemma kept_value v : ∀ calls orig fields pre key, K fields → K (flatten_value calls orig fields pre key v).
Proof using kept_put.
  induction v as [n|t|members IH|t v IH] using Value_nested_ind; intros calls orig fields pre key HK.
  - by apply kept_put.
  - by apply kept_put.
  - rewrite flatten_group. revert fields HK.
    induction IH as [|[k m] members Hm _ IHm]; intros fields HK; [done|]. cbn. by apply IHm, Hm.
  - cbn. destruct calls as [|[|calls]]; [by apply kept_put..|]. by apply IH.
Qed.

Lemma kept_attrs pre l : ∀ fields, K fields → K (foldl (λ fields a, flatten fields pre a) fields l).
Proof using kept_put. induction l as [|a l IH]; intros fields HK; [done|]. cbn. by apply IH, kept_value. Qed.

Lemma kept_fields h rec : K ∅ → K (fieldsOf h rec).
Proof using kept_put. intros HK. unfold fieldsOf. by apply kept_attrs, kept_attrs. Qed.
End kept.

Lemma rune_cut_le text cut : rune_cut text cut ≤ cut.
Proof. induction cut as [|cut IH]; cbn; [done|]. case_match; lia. Qed.

Lemma truncate_length text : String.length (truncate text) ≤ maxValue.
Proof.
  unfold truncate. destruct (Nat.leb_spec (String.length text) maxValue); [done|].
  rewrite take_bytes_length. pose proof (rune_cut_le text maxValue). lia.
Qed.

(** Few fields, no long text, and nothing under a key that is hidden *)
Definition fields_ok (fields : gmap string Field) : Prop :=
  size fields ≤ maxAttrs ∧ ∀ key v, fields !! key = Some v →
    (∀ t, v = FText t → String.length t ≤ maxValue) ∧
    (MatchString sensitiveKey key = true → v = FText redactedText).

Lemma fields_ok_put fields pre key v : fields_ok fields → fields_ok (put_field fields pre key v).
Proof.
  intros [Hsize Hf]. unfold put_field.
  destruct (is_empty key); [done|]. destruct (Nat.leb_spec maxAttrs (size fields)); [done|]. cbn [orb]. split.
  - rewrite map_size_insert. case_match; unfold id; lia.
  - intros k x [[<- <-]|[Hne Hx]]%lookup_insert_Some; [|by apply Hf].
    unfold render. destruct (MatchString sensitiveKey _).
    + split; [|done]. intros t [= <-]. vm_compute. lia.
    + split; [|done]. destruct v as [n|t]; [done|]. intros t' [= <-]. apply truncate_length.
Qed.

Lemma fieldsOf_ok h rec : fields_ok (fieldsOf h rec).
Proof. apply kept_fields; [apply fields_ok_put|]. split; [vm_compute; lia|done]. Qed.

(** ** The words that hide a value *)

Definition hidden_words : list string :=
  ["token"; "secret"; "password"; "passwd"; "authorization"; "apikey"; "api-key"; "api_key";
   "privatekey"; "private-key"; "private_key"; "bearer"; "cookie"; "credential"; "pairing"].

(** What a pattern may be given to match: a word at the start, in any case *)
Definition accepts_word (r : re) (word : string) : Prop :=
  ∀ k s caps, String.prefix word (to_lower s) = true →
    (∀ s' caps', to_lower s = word +:+ to_lower s' → is_Some (k s' caps')) → is_Some (rmatch r k s caps).

Lemma orelse_l {A} (a b : option A) : is_Some a → is_Some (orelse a b).
Proof. by intros [x ->]. Qed.

Lemma orelse_r {A} (a b : option A) : is_Some b → is_Some (orelse a b).
Proof. by intros [x ->]; destruct a. Qed.

Lemma RFold_lower c k d s caps :
  lower_byte d = c → is_Some (k s caps) → is_Some (rmatch (RFold c) k (String d s) caps).
Proof.
  intros Hd Hk. unfold RFold.
  assert (is_Some (rmatch (RByte (λ d, Ascii.eqb (lower_byte d) c)) k (String d s) caps)).
  { cbn. by rewrite (proj2 (Ascii.eqb_eq _ _) Hd). }
  destruct (Ascii.eqb c "k"); [by apply orelse_l|]. destruct (Ascii.eqb c "s"); [by apply orelse_l|done].
Qed.

Lemma RWord_accepts word : accepts_word (RWord word) word.
Proof.
  induction word as [|c word IH]; intros k s caps Hp Hk; [by apply Hk|].
  destruct s as [|d s]; [done|]. unfold to_lower in *. cbn [map_bytes String.prefix] in Hp, Hk.
  destruct (ascii_dec c (lower_byte d)) as [->|]; [|done]. cbn [RWord rmatch]. apply RFold_lower; [done|].
  apply IH; [exact Hp|]. intros s' caps' Hs. unfold to_lower in Hs. apply Hk. cbn. by rewrite <- Hs.
Qed.

Lemma prefix_cancel p q s : String.prefix (p +:+ q) (p +:+ s) = String.prefix q s.
Proof. induction p as [|c p IH]; [done|]. cbn. by destruct (ascii_dec c c). Qed.

Lemma prefix_cancel_l p q s : String.prefix (p +:+ q) s = true → String.prefix p s = true.
Proof.
  revert s. induction p as [|c p IH]; intros s; [by destruct s|]. destruct s as [|d s]; [done|]. cbn.
  destruct (ascii_dec c d); [apply IH|done].
Qed.

Lemma accepts_seq r1 r2 w1 w2 :
  accepts_word r1 w1 → accepts_word r2 w2 → accepts_word (RSeq r1 r2) (w1 +:+ w2).
Proof.
  intros H1 H2 k s caps Hp Hk. cbn [rmatch]. apply H1; [by eapply prefix_cancel_l|].
  intros s' caps' Hs. rewrite Hs, prefix_cancel in Hp. apply H2; [done|].
  intros s'' caps'' Hs'. apply Hk. rewrite Hs, Hs'. clear. induction w1 as [|c w1 IH]; cbn; congruence.
Qed.

Lemma accepts_alt_l r1 r2 w : accepts_word r1 w → accepts_word (RAlt r1 r2) w.
Proof. intros H k s caps Hp Hk. apply orelse_l. by apply H. Qed.

Lemma accepts_alt_r r1 r2 w : accepts_word r2 w → accepts_word (RAlt r1 r2) w.
Proof. intros H k s caps Hp Hk. apply orelse_r. by apply H. Qed.

Lemma accepts_opt r w : accepts_word r w → accepts_word (ROpt r) w.
Proof. intros H k s caps Hp Hk. apply orelse_l. by apply H. Qed.

Lemma accepts_opt_skip r : accepts_word (ROpt r) "".
Proof. intros k s caps _ Hk. apply orelse_r. by apply Hk. Qed.

Lemma accepts_byte f c : (∀ d, lower_byte d = c → f d = true) → accepts_word (RByte f) (String c "").
Proof.
  intros Hf k [|d s] caps Hp Hk; [done|]. unfold to_lower in *. cbn [map_bytes String.prefix] in Hp.
  destruct (ascii_dec c (lower_byte d)) as [->|]; [|done]. cbn. rewrite (Hf d eq_refl). by apply Hk.
Qed.

#[local] Hint Resolve RWord_accepts accepts_alt_l accepts_alt_r accepts_opt accepts_opt_skip : accepts.

Lemma RDash_accepts dash : dash ∈ [""; "-"; "_"] → accepts_word RDash dash.
Proof.
  intros Hd. unfold RDash. repeat (apply elem_of_cons in Hd as [->|Hd]); [auto with accepts| | |by apply elem_of_nil in Hd];
    apply accepts_opt, accepts_byte; intros [[] [] [] [] [] [] [] []]; vm_compute; congruence.
Qed.

Lemma accepts_any last rs r w :
  r = last ∨ r ∈ rs → accepts_word r w → accepts_word (fold_right RAlt last rs) w.
Proof.
  intros Hr Hw. induction rs as [|r' rs IH]; [by destruct Hr as [->|?%elem_of_nil]|].
  cbn. rewrite elem_of_cons in Hr. destruct Hr as [Hr|[->|Hr]]; auto with accepts.
Qed.

Lemma key_accepts pre dash : dash ∈ [""; "-"; "_"] →
  accepts_word (RSeq (RWord pre) (RSeq RDash (RWord "key"))) (pre +:+ dash +:+ "key").
Proof. intros Hd. apply accepts_seq; [|apply accepts_seq; [by apply RDash_accepts|]]; auto with accepts. Qed.

Lemma password_accepts mid : accepts_word (ROpt (RWord "or")) mid →
  accepts_word (RSeq (RWord "passw") (RSeq (ROpt (RWord "or")) (RWord "d"))) ("passw" +:+ mid +:+ "d").
Proof. intros Hm. apply accepts_seq; [|apply accepts_seq; [done|]]; auto with accepts. Qed.

Lemma sensitive_nth i r w : alternatives !! i = Some r → accepts_word r w → accepts_word sensitiveKey w.
Proof. intros Hr. apply (accepts_any (RWord "pairing") alternatives). right. by eapply list_elem_of_lookup_2. Qed.

Lemma sensitive_accepts : Forall (accepts_word sensitiveKey) hidden_words.
Proof.
  assert (∀ dash, dash ∈ [""; "-"; "_"] → accepts_word sensitiveKey ("api" +:+ dash +:+ "key")) as Hapi
    by (intros dash Hd; apply (sensitive_nth 4 _ _ eq_refl), key_accepts, Hd).
  assert (∀ dash, dash ∈ [""; "-"; "_"] → accepts_word sensitiveKey ("private" +:+ dash +:+ "key")) as Hprivate
    by (intros dash Hd; apply (sensitive_nth 5 _ _ eq_refl), key_accepts, Hd).
  assert (∀ mid, accepts_word (ROpt (RWord "or")) mid → accepts_word sensitiveKey ("passw" +:+ mid +:+ "d")) as Hpass
    by (intros mid Hm; apply (sensitive_nth 2 _ _ eq_refl), password_accepts, Hm).
  repeat apply Forall_cons_2; [..|by apply Forall_nil_2].
  - apply (sensitive_nth 0 _ _ eq_refl), RWord_accepts.
  - apply (sensitive_nth 1 _ _ eq_refl), RWord_accepts.
  - apply (Hpass "or"). auto with accepts.
  - apply (Hpass ""). auto with accepts.
  - apply (sensitive_nth 3 _ _ eq_refl), RWord_accepts.
  - apply (Hapi ""). by left.
  - apply (Hapi "-"). by right; left.
  - apply (Hapi "_"). by do 2 right; left.
  - apply (Hprivate ""). by left.
  - apply (Hprivate "-"). by right; left.
  - apply (Hprivate "_"). by do 2 right; left.
  - apply (sensitive_nth 6 _ _ eq_refl), RWord_accepts.
  - apply (sensitive_nth 7 _ _ eq_refl), RWord_accepts.
  - apply (sensitive_nth 8 _ _ eq_refl), RWord_accepts.
  - apply (accepts_any (RWord "pairing") alternatives (RWord "pairing")); [by left|apply RWord_accepts].
Qed.

Lemma MatchString_contains r word s :
  accepts_word r word → contains (to_lower s) word = true → MatchString r s = true.
Proof.
  intros Hr. unfold to_lower. induction s as [|c s IH]; cbn [MatchString map_bytes contains]; intros Hc.
  - rewrite orb_false_r in Hc |- *. apply bool_decide_eq_true_2, Hr; [exact Hc|by eexists].
  - apply orb_prop in Hc as [Hc|Hc]; [|by rewrite IH, orb_true_r by done].
    apply orb_true_intro. left. apply bool_decide_eq_true_2, Hr; [exact Hc|by eexists].
Qed.

(** What is kept of a record is bounded and shows no secret: at most 32 fields, no text
    over 2048 bytes, and under a key that contains one of the words, in any case and however
    deep in groups, nothing but the mark that a value was hidden. *)
Lemma recorded_safely h rec :
  size (Fields (recordOf h rec)) ≤ maxAttrs ∧ String.length (Msg (recordOf h rec)) ≤ maxValue ∧
  ∀ key v, Fields (recordOf h rec) !! key = Some v →
    (∀ t, v = FText t → String.length t ≤ maxValue) ∧
    (∀ word, word ∈ hidden_words → contains (to_lower key) word = true → v = FText redactedText).
Proof.
  destruct (fieldsOf_ok h rec) as [Hsize Hf]. cbn [recordOf Fields Msg]. split_and!.
  - rewrite map_size_delete. case_match; unfold id; lia.
  - apply truncate_length.
  - intros key v [_ Hv]%lookup_delete_Some. destruct (Hf key v Hv) as [Ht Hr]. split; [done|].
    intros word Hw Hc. eapply Hr, MatchString_contains; [|done]. by apply (proj1 (Forall_forall _ _) sensitive_accepts).
Qed.

(** ** Attributes of a logger and of a record *)

Lemma is_empty_app s t : is_empty t = false → is_empty (s +:+ t) = false.
Proof. by destruct s. Qed.

Lemma flatten_qualified pre key v : is_empty key = false → ∀ calls orig fields,
  flatten_value calls orig fields "" (pre +:+ key) v = flatten_value calls orig fields pre key v.
Proof.
  intros Hk. assert (∀ fields f, put_field fields "" (pre +:+ key) f = put_field fields pre key f) as Hput
    by (intros fields f; unfold put_field; by rewrite is_empty_app, Hk by done).
  induction v as [n|t|members _|t v IH] using Value_nested_ind; intros calls orig fields; [by apply Hput..| |].
  - rewrite !flatten_group, is_empty_app, Hk by done. cbn [append]. by rewrite string_app_assoc.
  - cbn. destruct calls as [|[|calls]]; [by apply Hput..|]. apply IH.
Qed.

(** Where an attribute is given makes no difference: attributes given to a logger
    are kept as if each record had them first, and those given under a group of the logger as
    if the record had that group.  This for attributes that have a key. *)
Lemma attributes_of_the_logger h as_ group t msg lvl l :
  Forall (λ a, is_empty a.1 = false) as_ → is_empty group = false →
  fieldsOf (WithAttrs h as_) (mkSlogRecord t msg lvl l) = fieldsOf h (mkSlogRecord t msg lvl (as_ ++ l)) ∧
  fieldsOf (WithGroup h group) (mkSlogRecord t msg lvl l) = fieldsOf h (mkSlogRecord t msg lvl [(group, VGroup l)]).
Proof.
  intros Has Hg. unfold fieldsOf. cbn [sAttrs WithAttrs WithGroup prefix attrs]. split.
  - rewrite !foldl_app. f_equal. generalize (foldl (λ fields a, flatten fields "" a) ∅ (attrs h)).
    induction Has as [|[k v] as_ Hk _ IH]; intros fields; [done|]. cbn [map foldl].
    rewrite <- IH. f_equal. by apply flatten_qualified.
  - cbn [foldl]. unfold flatten at 3. rewrite Hg. cbn [fst snd]. by rewrite flatten_group, Hg.
Qed.

(** ** Concrete runs *)

Definition log_on (w : world) (rec : LogRecord) : world :=
  let r := default New (append (elements (subscribers (ring w))) (ring w) rec) in
  mkWorld r (logged w ++ [with_seq rec (seq_ r)]) (opens w).

Definition open_on (w : world) (since lvl : Z) : world :=
  let '(s, r) := Stream (ring w) since lvl in
  mkWorld r (logged w) (<[stream_id s := mkOpened s since lvl []]> (opens w)).

Definition read_on (w : world) (id : nat) : world :=
  match opens w !! id, Live (ring w) id with
  | Some c, Some (Some rec, r) =>
    mkWorld r (logged w) (<[id := mkOpened (stream c) (askedSince c) (askedLevel c) (taken c ++ [rec])]> (opens w))
  | _, _ => w
  end.

Definition close_on (w : world) (id : nat) : world :=
  match opens w !! id with
  | Some c => mkWorld (default New (Close (ring w) (stream c))) (logged w) (opens w)
  | None => w
  end.

Lemma log_on_reachable w rec : reachable w → few w → reachable (log_on w rec).
Proof.
  intros Hr Hfew. eapply rtc_r; [exact Hr|]. unfold log_on.
  destruct (proj1 (ring_never_panics w Hr Hfew) (elements (subscribers (ring w))) rec) as [r' Hr']; [done|].
  rewrite Hr'. cbn. by eapply step_log.
Qed.

Lemma open_on_reachable w since lvl : reachable w → (0 <= since < 2 ^ 64)%Z → reachable (open_on w since lvl).
Proof. intros Hr Hs. eapply rtc_r; [exact Hr|]. by apply (step_open _ since lvl). Qed.

Lemma read_on_reachable w id : reachable w → reachable (read_on w id).
Proof.
  intros Hr. unfold read_on. destruct (opens w !! id) as [c|] eqn:Hc; [|done].
  destruct (Live (ring w) id) as [[[rec|] r']|] eqn:Hl; [|done..].
  eapply rtc_r; [exact Hr|]. by eapply step_read.
Qed.

Lemma close_on_reachable w id : reachable w → few w → reachable (close_on w id).
Proof.
  intros Hr Hfew. unfold close_on. destruct (opens w !! id) as [c|] eqn:Hc; [|done].
  destruct (proj2 (ring_never_panics w Hr Hfew) (stream c)) as [r' Hr']. rewrite Hr'.
  eapply rtc_r; [exact Hr|]. by eapply step_close.
Qed.

Definition a_record (msg : string) (lvl : Z) : LogRecord := mkLogRecord "log" 0 0 "" "" msg ∅ lvl.

(** A record before the stream, one below its level, two that its reader takes and leaves,
    and a stream that goes on where the reader was. *)
Definition example_log : world :=
  let w := open_on (log_on start (a_record "boot" LevelInfo)) 0 LevelInfo in
  let w := log_on (log_on w (a_record "detail" LevelDebug)) (a_record "ready" LevelInfo) in
  log_on (read_on w 0) (a_record "slow" LevelWarn).

Definition example_reconnect : world := read_on (log_on (open_on (close_on example_log 0) 3 LevelInfo) (a_record "late" LevelError)) 1.

Lemma example_log_reachable : reachable example_log.
Proof.
  repeat first [apply log_on_reachable; [|by vm_compute] | apply open_on_reachable; [|done] | apply read_on_reachable].
  apply rtc_refl.
Defined.

Lemma example_reconnect_reachable : reachable example_reconnect.
Proof.
  apply read_on_reachable, log_on_reachable; [|by vm_compute]. apply open_on_reachable; [|done].
  apply close_on_reachable; [apply example_log_reachable|by vm_compute].
Defined.

Definition stream_of (w : world) (id : nat) : opened := default (mkOpened (mkStream 0 [] 0 false) 0 0 []) (opens w !! id).

Lemma stream_gap_free_witness :
  (Msg <$> (Replay (stream (stream_of example_log 0)) ++ taken (stream_of example_log 0)), opened_from (stream_of example_log 0)) = (["boot"; "ready"], 0) ∧
  ∃ sub missed, heap (ring example_log) !! 0 = Some sub ∧
    Replay (stream (stream_of example_log 0)) ++ taken (stream_of example_log 0) ++ buffered sub ++ missed =
      at_level LevelInfo (logged example_log) ∧
    (0 ∈ subscribers (ring example_log) → missed = []).
Proof.
  split; [by vm_compute|].
  apply (stream_gap_free example_log 0 (stream_of example_log 0) example_log_reachable); by vm_compute.
Defined.

Lemma reconnect_continues_witness :
  ∃ rest, [a_record "boot" 0; a_record "ready" 0; a_record "slow" 4; a_record "late" 8] =
    map (λ r, with_seq r 0) (((Replay (stream (stream_of example_reconnect 0)) ++ taken (stream_of example_reconnect 0)) ++
     (Replay (stream (stream_of example_reconnect 1)) ++ taken (stream_of example_reconnect 1)) ++ rest)).
Proof.
  destruct (reconnect_continues example_reconnect 0 (stream_of example_reconnect 0) 1 (stream_of example_reconnect 1)
    [with_seq (a_record "boot" 0) 1] (with_seq (a_record "ready" 0) 3) example_reconnect_reachable) as [rest Hrest];
    [by vm_compute..|].
  exists rest. rewrite Hrest. by vm_compute.
Defined.

Lemma recorded_safely_witness :
  let rec := mkSlogRecord 0 "login" LevelInfo [("auth", VGroup [("User", VText "ana"); ("AccessToken", VText "s3cr3t")])] in
  Fields (recordOf (mkHandler "" []) rec) !! "auth.AccessToken" = Some (FText "[redacted]") ∧
  Fields (recordOf (mkHandler "" []) rec) !! "auth.User" = Some (FText "ana").
Proof.
  split; [|vm_compute; reflexivity].
  destruct (recorded_safely (mkHandler "" [])
    (mkSlogRecord 0 "login" LevelInfo [("auth", VGroup [("User", VText "ana"); ("AccessToken", VText "s3cr3t")])])) as (_ & _ & Hf).
  destruct (Fields _ !! "auth.AccessToken") as [v|] eqn:Hv; [|by vm_compute in Hv].
  f_equal. apply (Hf _ _ Hv) with "token"; [by left|by vm_compute].
Defined.

Lemma attributes_of_the_logger_witness :
  fieldsOf (WithAttrs (WithGroup (mkHandler "" []) "http") [("status", VScalar 200)]) (mkSlogRecord 0 "" 0 [("path", VText "/")]) =
  {["http.status" := FScalar 200; "http.path" := FText "/"]}.
Proof.
  rewrite (proj1 (attributes_of_the_logger (WithGroup (mkHandler "" []) "http") [("status", VScalar 200)] "g" 0 "" 0%Z
    [("path", VText "/")] ltac:(by repeat constructor) eq_refl)). vm_compute. reflexivity.
Defined.

(** A group without a key is inlined by the output's handler; given to a logger under a
    group, it leaves a second dot in the keys the ring keeps. *)
Lemma inline_group_of_the_logger :
  fieldsOf (WithAttrs (WithGroup (mkHandler "" []) "http") [("", VGroup [("status", VScalar 200)])]) (mkSlogRecord 0 "" 0 []) =
    {["http..status" := FScalar 200]} ∧
  fieldsOf (WithGroup (mkHandler "" []) "http") (mkSlogRecord 0 "" 0 [("", VGroup [("status", VScalar 200)])]) =
    {["http.status" := FScalar 200]}.
Proof. vm_compute. split; reflexivity. Qed.

(** A component that is not a text is in neither place. *)
Lemma numbered_component :
  let r := recordOf (mkHandler "" []) (mkSlogRecord 0 "" 0 [("component", VScalar 7)]) in
  Component r = "" ∧ Fields r = ∅.
Proof. vm_compute. split; reflexivity. Qed.

(** ** The session of one client (console/handlers/log_session.go) *)

Inductive frame := FRecord (rec : LogRecord) | FReady (seq : Z) (reset : bool).

Inductive session_call :=
| SendFrame (f : frame)
| NextOrGone
| CloseStream
| CloseConn
(* the fuel of the session ran out; nothing answers *)
| StillFollowing.

Inductive heard_or_gone := Heard (rec : option LogRecord) | Gone.

(** Whether a frame went out; what the live channel gave, or that the client left *)
Definition session_answer (c : session_call) : Type :=
  match c with
  | SendFrame _ => bool
  | NextOrGone => heard_or_gone
  | CloseStream | CloseConn => unit
  | StillFollowing => Empty_set
  end.

Abbreviation SP := (prog session_answer).

Definition send (f : frame) : SP bool := ask (SendFrame f).

Fixpoint sendAll (recs : list LogRecord) : SP bool :=
  match recs with
  | [] => mret true
  | rec :: recs' =>
    sent ← send (FRecord rec);
    if sent : bool then sendAll recs' else mret false
  end.

Definition session_replay (s : openStream) : SP bool :=
  sent ← sendAll (Replay s);
  if sent : bool then send (FReady (StreamSeq s) (StreamReset s)) else mret false.

Definition session_follow : SP bool :=
  next ← (ask NextOrGone : SP heard_or_gone);
  match next with
  | Heard (Some rec) => send (FRecord rec)
  | Heard None | Gone => mret false
  end.

Fixpoint follow_loop (fuel : nat) : SP unit :=
  match fuel with
  | O => Call StillFollowing (λ none : Empty_set, match none with end)
  | S fuel' =>
    more ← session_follow;
    if more : bool then follow_loop fuel' else mret ()
  end.

Definition session_release : SP unit :=
  _ ← (ask CloseStream : SP unit);
  (ask CloseConn : SP unit).

Definition session_run (fuel : nat) (s : openStream) : SP unit :=
  deferring (
    ready ← session_replay s;
    if ready : bool then follow_loop fuel else mret ()) session_release.

(** What went out, what came in, whether a frame was lost, and what is closed *)
Record session := mkSession {
  sent : list frame;
  heard : list LogRecord;
  lost : bool;
  stage : nat;
}.

Definition owed (s : openStream) (heard : list LogRecord) : list frame :=
  map FRecord (Replay s) ++ FReady (StreamSeq s) (StreamReset s) :: map FRecord heard.

(** A frame is the next one owed, none follows one that was lost, nothing more is asked of
    the stream until all of it went out, and the stream is closed, once, before the connection. *)
Definition may_do (s : openStream) (st : session) (c : session_call) : Prop :=
  match c with
  | SendFrame f => stage st = 0 ∧ lost st = false ∧ (sent st ++ [f]) `prefix_of` owed s (heard st)
  | NextOrGone => stage st = 0 ∧ lost st = false ∧ sent st = owed s (heard st)
  | CloseStream => stage st = 0
  | CloseConn => stage st = 1
  | StillFollowing => True
  end.

Definition did (st : session) (c : session_call) : session_answer c → session :=
  match c with
  | SendFrame f => λ ok : bool, mkSession (sent st ++ [f]) (heard st) (negb ok) (stage st)
  | NextOrGone => λ next : heard_or_gone,
      match next with
      | Heard (Some rec) => mkSession (sent st) (heard st ++ [rec]) (lost st) (stage st)
      | _ => st
      end
  | CloseStream => λ _, mkSession (sent st) (heard st) (lost st) 1
  | CloseConn => λ _, mkSession (sent st) (heard st) (lost st) 2
  | StillFollowing => λ _, st
  end.

Definition forwards (s : openStream) : protocol session_answer session := mkProtocol (may_do s) did.

Lemma sendAll_forwards s before recs rest :
  Replay s = before ++ recs ++ rest →
  follows (forwards s) (mkSession (map FRecord before) [] false 0) (sendAll recs)
    (λ ok st, stage st = 0 ∧ (ok = true → st = mkSession (map FRecord (before ++ recs)) [] false 0)).
Proof.
  revert before. induction recs as [|rec recs IH]; intros before Hs; cbn [sendAll].
  - apply follows_ret. split; [done|]. intros _. by rewrite app_nil_r.
  - apply (follows_ask_bind _ _ (SendFrame (FRecord rec))).
    + cbn. split_and!; try done. unfold owed. rewrite Hs, !map_app. cbn [map].
      exists (map FRecord recs ++ map FRecord rest ++ FReady (StreamSeq s) (StreamReset s) :: map FRecord []).
      by simplify_list_eq.
    + intros [|]; cbn [forwards moves did sent heard stage negb].
      * replace (map FRecord before ++ [FRecord rec]) with (map FRecord (before ++ [rec])) by (by rewrite map_app).
        specialize (IH (before ++ [rec])). rewrite <- !app_assoc in IH. by apply IH.
      * by apply follows_ret.
Qed.

Lemma follow_loop_forwards s fuel : ∀ heard,
  follows (forwards s) (mkSession (owed s heard) heard false 0) (follow_loop fuel) (λ _ st, stage st = 0).
Proof.
  induction fuel as [|fuel IH]; intros h; cbn [follow_loop]; [by split; [|intros []]|].
  unfold session_follow. apply follows_bind, (follows_ask_bind _ _ NextOrGone); [done|].
  intros [[rec|]|]; [|by apply follows_ret..].
  split.
  - cbn. split_and!; try done. unfold owed. rewrite map_app. cbn. by simplify_list_eq.
  - intros [|]; cbn [forwards moves did sent heard stage lost negb]; [|by apply follows_ret].
    replace (owed s h ++ [FRecord rec]) with (owed s (h ++ [rec])); [apply IH|].
    unfold owed. rewrite map_app. by simplify_list_eq.
Qed.

(** A client is sent the replay, one ready frame and the live records, in that order and
    without a gap; and however the session ends, the subscription is released. *)
Lemma session_forwards s fuel :
  follows (forwards s) (mkSession [] [] false 0) (session_run fuel s) (λ _ st, stage st = 2).
Proof.
  unfold session_run. apply follows_deferring. apply follows_mono with (λ _ st, stage st = 0).
  - unfold session_replay. apply follows_bind, follows_bind.
    eapply follows_mono; [apply (sendAll_forwards s [] (Replay s) []); by rewrite app_nil_r|].
    intros [|] st [Hst Hok]; [|by apply follows_ret]. rewrite (Hok eq_refl).
    split.
    + by cbn.
    + intros [|]; cbn [forwards moves did sent heard stage lost negb]; [|by apply follows_ret].
      apply (follow_loop_forwards s fuel []).
  - intros a st Hst. unfold session_release. apply (follows_ask_bind _ _ CloseStream); [done|]. intros [].
    split; [done|]. by intros [].
Qed.
