(* ===== verification/Cascade.v ===== *)
(** * The cascade of removals (internal/app/repositories/cascade)

    The arrows that were removed and whose runtime aggregate still has to be forgotten: a
    table of them (internal/store/pending.go) and the service over it (cascade.go).  Each
    operation is a program of the calls it makes on the table, on the runtime repository and
    on the gate under the mutex; any number of them run at once, a call at a time, and a
    background drain is one more goroutine. *)

From S2P Require Import Prelude Prog.

(** ** The programs *)

Inductive cascade_error :=
| EnqueueFailed (ns : string)
| ListFailed
| ForgetFailed (ns : string)
| CompleteFailed (ns : string).

Inductive call :=
| StoreEnqueue (ns : string)
| StorePending
| StoreComplete (ns : string)
| ForgetRuntime (ns : string)
| TryAddDrain
| GoDrain
| DrainDone
| CloseGate
| WaitDrains.

#[export] Instance call_eq_dec : EqDecision call.
Proof. solve_decision. Defined.

(** Whether it went well; of [WaitDrains], whether the drains ended before the context *)
Definition answer (c : call) : Type :=
  match c with
  | StorePending => option (list string)
  | GoDrain | DrainDone | CloseGate => unit
  | _ => bool
  end.

Abbreviation P := (prog answer).

Definition run (ns : string) : P (list cascade_error) :=
  forgot ← (ask (ForgetRuntime ns) : P bool);
  if negb forgot then mret [ForgetFailed ns]
  else
    completed ← (ask (StoreComplete ns) : P bool);
    mret (if completed : bool then [] else [CompleteFailed ns]).

Fixpoint run_each (pending : list string) : P (list cascade_error) :=
  match pending with
  | [] => mret []
  | ns :: rest =>
    e ← run ns;
    es ← run_each rest;
    mret (e ++ es)
  end.

Definition cascade_Drain : P (list cascade_error) :=
  pending ← (ask StorePending : P (option (list string)));
  match pending with
  | None => mret [ListFailed]
  | Some pending => run_each pending
  end.

(** The goroutine of [Enqueue]; the error is only logged. *)
Definition background : P unit := deferring (_ ← cascade_Drain; mret ()) (ask DrainDone).

Definition tryAddDrain : P bool := ask TryAddDrain.

Definition Enqueue (ns : string) : P (list cascade_error) :=
  stored ← (ask (StoreEnqueue ns) : P bool);
  if negb stored then mret [EnqueueFailed ns]
  else
    added ← tryAddDrain;
    if added : bool then _ ← (ask GoDrain : P unit); mret [] else mret [].

(** Whether every drain ended before the context did *)
Definition Shutdown : P bool :=
  _ ← (ask CloseGate : P unit);
  ask WaitDrains.

(** ** What the goroutines share *)

(** The rows, and the gate with the count of its group *)
Record service := mkService {
  pending : gset string;
  closed : bool;
  wg : nat;
}.

Definition New : service := mkService ∅ false 0.

(** A write that fails may have been made. *)
Definition serve (s : service) (c : call) : answer c → service → Prop :=
  match c with
  | StoreEnqueue ns => λ ok s',
      let stored := mkService ({[ns]} ∪ pending s) (closed s) (wg s) in
      if ok : bool then s' = stored else s' = s ∨ s' = stored
  | StorePending => λ rows s', s' = s ∧
      match rows with Some l => l ≡ₚ elements (pending s) | None => True end
  | StoreComplete ns => λ ok s',
      let cleared := mkService (pending s ∖ {[ns]}) (closed s) (wg s) in
      if ok : bool then s' = cleared else s' = s ∨ s' = cleared
  | ForgetRuntime _ => λ _ s', s' = s
  | TryAddDrain => λ added s',
      added = negb (closed s) ∧
      s' = if closed s then s else mkService (pending s) (closed s) (S (wg s))
  | GoDrain => λ _ s', s' = s
  | DrainDone => λ _ s', s' = mkService (pending s) (closed s) (pred (wg s))
  | CloseGate => λ _ s', s' = mkService (pending s) true (wg s)
  | WaitDrains => λ ended s', s' = s ∧ (ended = true → wg s = 0)
  end.

(** ** Where a goroutine is *)

Inductive stage := Caller | Slot | Background | Ended.

#[export] Instance stage_eq_dec : EqDecision stage.
Proof. solve_decision. Defined.

(** [forgot] is the namespace whose runtime it has forgotten and whose row it is to clear. *)
Record place := mkPlace {
  at_stage : stage;
  forgot : option string;
}.

Definition may_call (p : place) (c : call) : Prop :=
  match c with
  | StoreComplete ns => forgot p = Some ns
  | ForgetRuntime _ | StorePending | StoreEnqueue _ => forgot p = None ∧ at_stage p ≠ Slot
  | TryAddDrain => at_stage p = Caller
  | GoDrain => at_stage p = Slot
  | DrainDone => at_stage p = Background
  | _ => True
  end.

Definition called (p : place) (c : call) : answer c → place :=
  match c with
  | ForgetRuntime ns => λ ok : bool, if ok then mkPlace (at_stage p) (Some ns) else p
  | StoreComplete _ => λ _, mkPlace (at_stage p) None
  | TryAddDrain => λ added : bool, if added then mkPlace Slot (forgot p) else p
  | GoDrain => λ _, mkPlace Caller (forgot p)
  | DrainDone => λ _, mkPlace Ended (forgot p)
  | _ => λ _, p
  end.

Definition draining : protocol answer place := mkProtocol may_call called.

(** A slot of the group is given back by the drain it was taken for. *)
Definition at_end (p : place) : Prop := forgot p = None ∧ (at_stage p = Caller ∨ at_stage p = Ended).

Definition outside : place := mkPlace Caller None.
Definition inside : place := mkPlace Background None.

Definition still (st : stage) : list cascade_error → place → Prop := λ _ p, p = mkPlace st None.

Lemma run_follows st ns : st ≠ Slot → follows draining (mkPlace st None) (run ns) (still st).
Proof.
  intros Hst. apply (follows_ask_bind _ _ (ForgetRuntime ns)); [done|]. intros [|]; [|done].
  apply (follows_ask_bind _ _ (StoreComplete ns)); [done|]. by intros [|].
Qed.

Lemma run_each_follows st l : st ≠ Slot → follows draining (mkPlace st None) (run_each l) (still st).
Proof.
  intros Hst. induction l as [|ns l IH]; [done|]. cbn [run_each]. apply follows_bind.
  eapply follows_mono; [by apply run_follows|]. intros e p ->. apply follows_bind.
  eapply follows_mono; [exact IH|]. by intros es p ->.
Qed.

Lemma Drain_follows st : st ≠ Slot → follows draining (mkPlace st None) cascade_Drain (still st).
Proof.
  intros Hst. apply (follows_ask_bind _ _ StorePending); [done|].
  intros [l|]; [by apply run_each_follows|done].
Qed.

Lemma background_follows : follows draining inside background (λ _, at_end).
Proof.
  apply follows_deferring, follows_bind. eapply follows_mono; [by apply Drain_follows|].
  intros es p ->. apply follows_ret. apply (follows_ask _ _ DrainDone); [done|].
  intros []. split; [done|by right].
Qed.

Lemma Enqueue_follows ns : follows draining outside (Enqueue ns) (λ _, at_end).
Proof.
  assert (at_end outside) as Hend by (split; [done|by left]).
  apply (follows_ask_bind _ _ (StoreEnqueue ns)); [done|]. intros [|]; [|done].
  apply (follows_ask_bind _ _ TryAddDrain); [done|]. intros [|]; [|done].
  apply (follows_ask_bind _ _ GoDrain); [done|]. by intros [].
Qed.

Lemma Shutdown_follows : follows draining outside Shutdown (λ _, at_end).
Proof.
  apply (follows_ask_bind _ _ CloseGate); [done|]. intros []. apply (follows_ask _ _ WaitDrains); [done|].
  intros r. split; [done|by left].
Qed.

(** ** The machine *)

Record thread := mkThread { here : place; code : P unit }.

(** [owed] are the namespaces whose removal was recorded and whose runtime was not forgotten
    since; one is [overtaken] when its removal is recorded while a goroutine is between
    forgetting its runtime and clearing its row. *)
Record config := mkConfig {
  sh : service;
  threads : list thread;
  owed : gset string;
  overtaken : gset string;
}.

Definition start_config : config := mkConfig New [] ∅ ∅.

Inductive caller : P unit → Prop :=
| call_enqueue ns : caller (_ ← Enqueue ns; mret ())
| call_drain : caller (_ ← cascade_Drain; mret ())
| call_shutdown : caller (_ ← Shutdown; mret ()).

Definition spawned (c : call) : list thread :=
  match c with GoDrain => [mkThread inside background] | _ => [] end.

Definition next_owed (c : call) : answer c → gset string → gset string :=
  match c with
  | StoreEnqueue ns => λ (ok : bool) owed, if ok then {[ns]} ∪ owed else owed
  | ForgetRuntime ns => λ (ok : bool) owed, if ok then owed ∖ {[ns]} else owed
  | _ => λ _ owed, owed
  end.

Definition clearing (ns : string) (t : thread) : bool := bool_decide (forgot (here t) = Some ns).

Definition next_overtaken (ts : list thread) (c : call) (over : gset string) : gset string :=
  match c with
  | StoreEnqueue ns => if existsb (clearing ns) ts then {[ns]} ∪ over else over
  | _ => over
  end.

Inductive cstep (c : config) : config → Prop :=
| cstep_start p : caller p →
    cstep c (mkConfig (sh c) (threads c ++ [mkThread outside p]) (owed c) (overtaken c))
| cstep_call i t (ca : call) (k : answer ca → P unit) r s' :
    threads c !! i = Some t → code t = Call ca k → serve (sh c) ca r s' →
    cstep c (mkConfig s' (<[i := mkThread (called (here t) ca r) (k r)]> (threads c) ++ spawned ca)
      (next_owed ca r (owed c)) (next_overtaken (threads c) ca (overtaken c))).

Definition reachable : config → Prop := rtc cstep start_config.

(** ** The invariant *)

Definition counted (t : thread) : nat :=
  match at_stage (here t) with Slot | Background => 1 | _ => 0 end.

Definition drains (ts : list thread) : nat := sum_list_with counted ts.

Definition config_ok (c : config) : Prop :=
  Forall (λ t, follows draining (here t) (code t) (λ _, at_end)) (threads c) ∧
  wg (sh c) = drains (threads c) ∧
  (∀ ns, ns ∈ owed c → ns ∈ pending (sh c) ∨ ns ∈ overtaken c) ∧
  (∀ t ns, t ∈ threads c → forgot (here t) = Some ns → ns ∉ owed c ∨ ns ∈ overtaken c).

Lemma follows_unit s {A} (p : P A) (Q : place → Prop) :
  follows draining s p (λ _, Q) → follows draining s (_ ← p; mret ()) (λ _, Q).
Proof. intros H. apply follows_bind. eapply follows_mono; [exact H|]. done. Qed.

Lemma caller_follows p : caller p → follows draining outside p (λ _, at_end).
Proof.
  intros []; apply follows_unit; [apply Enqueue_follows| |apply Shutdown_follows].
  eapply follows_mono; [by apply Drain_follows|]. intros es q ->. split; [done|by left].
Qed.

(** The group's count after a call *)
Lemma called_counted p (ca : call) r s s' k :
  serve s ca r s' → may_call p ca →
  counted (mkThread p k) ≤ wg s →
  wg s' + counted (mkThread p k) = wg s + counted (mkThread (called p ca r) k) + drains (spawned ca).
Proof.
  unfold counted, drains. intros Hs Ha Hle. destruct ca; cbn in *; destruct_and?; subst;
    repeat case_match; destruct_or?; subst; cbn in *; try congruence; try lia.
Qed.

Lemma spawned_follows ca : Forall (λ t, follows draining (here t) (code t) (λ _, at_end)) (spawned ca).
Proof. destruct ca; cbn; try constructor; [apply background_follows|constructor]. Qed.

(** A row that was there stays, unless the call clears it. *)
Lemma pending_stays s ca r s' ns :
  serve s ca r s' → ns ∈ pending s → ca ≠ StoreComplete ns → ns ∈ pending s'.
Proof.
  intros Hs Hin Hne. destruct ca; cbn in *; destruct_and?; repeat case_match; destruct_or?; subst; cbn; try done; set_solver.
Qed.

(** What is owed after a call was recorded by it, or was owed before. *)
Lemma next_owed_inv s ca r s' owed ns :
  serve s ca r s' → ns ∈ next_owed ca r owed →
  (ca = StoreEnqueue ns ∧ ns ∈ pending s') ∨ ns ∈ owed.
Proof.
  intros Hs Hin. destruct ca; cbn in *; try (by right).
  - destruct r; [|by right]. subst. apply elem_of_union in Hin as [Hin|Hin]; [|by right].
    left. assert (ns = ns0) as -> by set_solver. split; [done|]. set_solver.
  - destruct r; [|by right]. right. set_solver.
Qed.

Lemma next_overtaken_mono ts ca over ns : ns ∈ over → ns ∈ next_overtaken ts ca over.
Proof. intros Hin. destruct ca; cbn; try done. case_match; set_solver. Qed.

Lemma next_overtaken_clearing ts over ns t :
  t ∈ ts → forgot (here t) = Some ns → ns ∈ next_overtaken ts (StoreEnqueue ns) over.
Proof.
  intros Hin Ht. cbn. replace (existsb (clearing ns) ts) with true; [set_solver|].
  symmetry. apply existsb_exists. exists t. split; [by apply list_elem_of_In|]. by apply bool_decide_eq_true_2.
Qed.

Lemma called_forgot p ca r ns : forgot (called p ca r) = Some ns →
  forgot p = Some ns ∨ ca = ForgetRuntime ns ∧ ∀ owed, ns ∉ next_owed ca r owed.
Proof.
  destruct ca; cbn; repeat case_match; cbn; intros Hx; auto; simplify_eq. right. split; [done|]. set_solver.
Qed.

Lemma config_ok_call c i t ca k r s' :
  config_ok c → threads c !! i = Some t → code t = Call ca k → serve (sh c) ca r s' →
  config_ok (mkConfig s' (<[i := mkThread (called (here t) ca r) (k r)]> (threads c) ++ spawned ca)
    (next_owed ca r (owed c)) (next_overtaken (threads c) ca (overtaken c))).
Proof.
  intros (Hf & Hwg & Howed & Hforgot) Ht Hcode Hs.
  pose proof (proj1 (Forall_lookup _ _) Hf _ _ Ht) as Hft. cbn beta in Hft. rewrite Hcode in Hft. destruct Hft as [Hmay Hk].
  pose proof (list_elem_of_lookup_2 _ _ _ Ht) as Hin.
  split_and!; cbn [sh threads owed overtaken].
  - apply Forall_app. split; [|apply spawned_follows]. apply Forall_insert; [done|]. apply Hk.
  - pose proof (sum_list_with_insert counted _ _ _ (mkThread (called (here t) ca r) (k r)) Ht).
    pose proof (called_counted _ _ _ _ _ (k r) Hs Hmay) as Hc. pose proof (sum_list_with_ge counted _ _ _ Ht) as Hge.
    unfold drains in *; rewrite sum_list_with_app. unfold counted in *; cbn [here] in *. lia.
  - intros ns Hns. destruct (next_owed_inv _ _ _ _ _ _ Hs Hns) as [[_ ?]|Hold]; [by left|].
    destruct (Howed _ Hold) as [Hp|Ho]; [|right; by apply next_overtaken_mono].
    destruct (decide (ca = StoreComplete ns)) as [->|Hne]; [|left; by eapply pending_stays].
    right. destruct (Hforgot _ _ Hin Hmay) as [|Ho]; [done|by apply next_overtaken_mono].
  - intros t' ns Ht' Hns.
    assert (ca = StoreEnqueue ns ∧ (∃ t0, t0 ∈ threads c ∧ forgot (here t0) = Some ns) ∨
      ns ∉ next_owed ca r (owed c) ∨ ns ∈ next_overtaken (threads c) ca (overtaken c)) as [[-> (t0 & ? & ?)]|?]; [| |done].
    2: { right. by eapply next_overtaken_clearing. }
    assert (∀ t0, t0 ∈ threads c → forgot (here t0) = Some ns →
      ca = StoreEnqueue ns ∧ (∃ t0, t0 ∈ threads c ∧ forgot (here t0) = Some ns) ∨
      ns ∉ next_owed ca r (owed c) ∨ ns ∈ next_overtaken (threads c) ca (overtaken c)) as Hold.
    { intros t0 Ht0 Hns0. destruct (Hforgot _ _ Ht0 Hns0) as [Hno|Ho]; [|do 2 right; by apply next_overtaken_mono].
      destruct (decide (ns ∈ next_owed ca r (owed c))) as [Hin'|]; [|by right; left].
      destruct (next_owed_inv _ _ _ _ _ _ Hs Hin') as [[-> _]|?]; [left; eauto|done]. }
    apply elem_of_app in Ht' as [Ht'|Ht'].
    + apply list_elem_of_lookup in Ht' as [j Hj]. destruct (decide (i = j)) as [<-|Hne].
      * rewrite list_lookup_insert_eq in Hj by (by eapply lookup_lt_Some). injection Hj as <-.
        cbn [here] in Hns. destruct (called_forgot _ _ _ _ Hns) as [Hf0|[_ Hno]]; [by apply (Hold t)|by right; left].
      * rewrite list_lookup_insert_ne in Hj by done. apply (Hold t'); [by eapply list_elem_of_lookup_2|done].
    + destruct ca; cbn in Ht'; try by apply elem_of_nil in Ht'. apply list_elem_of_singleton in Ht' as ->. done.
Qed.

Lemma cascade_ok c : reachable c → config_ok c.
Proof.
  revert c. apply (rtc_ind_r config_ok start_config).
  - split_and!; cbn; try done; set_solver.
  - intros c c' _ Hstep Hok. destruct Hstep as [p Hp|i t ca k r s' Ht Hcode Hs]; [|by eapply config_ok_call].
    destruct Hok as (Hf & Hwg & Howed & Hforgot). split_and!; cbn [sh threads owed overtaken]; [| |done|].
    + apply Forall_app. split; [done|]. constructor; [by apply caller_follows|done].
    + unfold drains in *; rewrite sum_list_with_app. cbn. lia.
    + intros t ns [Ht| ->%list_elem_of_singleton]%elem_of_app; [by apply Hforgot|done].
Qed.

(** ** The theorems *)

(** C34. A removal is not dropped: however enqueues, drains and failures interleave, a
    namespace whose removal was recorded, and whose runtime was not forgotten since, has its
    row, so that the next drain finds it; unless the removal was recorded while some drain was
    between forgetting an earlier one of the same namespace and clearing its row. *)
Theorem removal_not_dropped c ns :
  reachable c → ns ∈ owed c → ns ∈ pending (sh c) ∨ ns ∈ overtaken c.
Proof. intros Hr. apply (cascade_ok c Hr). Qed.

(** The gate stays closed, and nothing is counted again. *)
Lemma gate_stays c c' : closed (sh c) = true → wg (sh c) = 0 → cstep c c' → closed (sh c') = true ∧ wg (sh c') = 0.
Proof.
  intros Hc Hw Hstep. destruct Hstep as [p Hp|i t ca k r s' Ht Hcode Hs]; [done|]. cbn [sh].
  destruct ca; cbn in Hs; destruct_and?; repeat case_match; destruct_or?; subst; cbn; try done;
    try congruence; split; congruence || lia.
Qed.

(** Once the gate is closed and its group is empty, no background drain runs, and none will:
    what [Shutdown] waits for is final. *)
Lemma shutdown_is_final c c' :
  reachable c → closed (sh c) = true → wg (sh c) = 0 → rtc cstep c c' →
  ∀ t, t ∈ threads c' → at_stage (here t) ≠ Slot ∧ at_stage (here t) ≠ Background.
Proof.
  intros Hr Hc Hw Hsteps t Ht.
  assert (closed (sh c') = true ∧ wg (sh c') = 0) as [_ Hw'].
  { revert Hsteps. apply (rtc_ind_r (λ c', closed (sh c') = true ∧ wg (sh c') = 0) c); [done|].
    intros c1 c2 _ Hstep [? ?]. by eapply gate_stays. }
  destruct (cascade_ok c') as (_ & Hcount & _ & _); [by unfold reachable in *; etrans|].
  apply list_elem_of_lookup in Ht as [i Hi]. pose proof (sum_list_with_ge counted _ _ _ Hi) as Hge.
  assert (counted t = 0) as H0 by (unfold drains in *; lia).
  unfold counted in H0. by destruct (at_stage (here t)).
Qed.

(** *** One namespace after the other *)

(** What became of a namespace: whether its runtime was forgotten, and its row cleared *)
Definition outcome : Type := string * (bool * bool).

Definition calls_for (o : outcome) : list (event answer) :=
  let '(ns, (forgot, cleared)) := o in
  existT (ForgetRuntime ns) forgot :: (if forgot : bool then [existT (StoreComplete ns) cleared] else []).

Definition errors_for (o : outcome) : list cascade_error :=
  match o with
  | (ns, (false, _)) => [ForgetFailed ns]
  | (ns, (true, false)) => [CompleteFailed ns]
  | (ns, (true, true)) => []
  end.

Lemma trace_bind {A B} (p : P A) (f : A → P B) l b :
  trace (p ≫= f) l b → ∃ l1 a l2, l = l1 ++ l2 ∧ trace p l1 a ∧ trace (f a) l2 b.
Proof.
  revert l. induction p as [a|c k IH]; intros l Ht; [by exists [], a, l|].
  destruct Ht as (r & l' & -> & Ht). destruct (IH r l' Ht) as (l1 & a & l2 & -> & H1 & H2).
  exists (existT c r :: l1), a, l2. split_and!; [done| |done]. by exists r, l1.
Qed.

Lemma run_trace ns l errs : trace (run ns) l errs →
  ∃ forgot cleared, l = calls_for (ns, (forgot, cleared)) ∧ errs = errors_for (ns, (forgot, cleared)).
Proof.
  intros ([] & l' & -> & Ht); cbn in Ht.
  - destruct Ht as (cleared & l & -> & -> & ->). exists true, cleared. by destruct cleared.
  - destruct Ht as [-> ->]. by exists false, false.
Qed.

Lemma run_each_trace ps : ∀ l errs, trace (run_each ps) l errs →
  ∃ os : list outcome, map fst os = ps ∧ l = concat (map calls_for os) ∧ errs = concat (map errors_for os).
Proof.
  induction ps as [|ns ps IH]; intros l errs Ht; cbn [run_each] in Ht.
  - destruct Ht as [-> ->]. by exists [].
  - apply trace_bind in Ht as (l1 & e & l2 & -> & H1 & Ht).
    apply trace_bind in Ht as (l2' & es & l3 & -> & H2 & [-> ->]).
    destruct (run_trace _ _ _ H1) as (f & cl & -> & ->). destruct (IH _ _ H2) as (os & <- & -> & ->).
    exists ((ns, (f, cl)) :: os). by rewrite app_nil_r.
Qed.

(** What a run that starts with a read of the rows was given *)
Definition rows_read (l : list (event answer)) : option (list string) :=
  match l with
  | existT c r :: _ => match c return answer c → _ with StorePending => λ rows, rows | _ => λ _, None end r
  | [] => None
  end.

(** A drain goes through every row it read, in order, whatever happened to those
    before: each namespace's runtime is forgotten, its row is cleared exactly when that
    succeeded, and exactly the failures are reported. *)
Lemma drain_attempts_every_row rows l errs :
  trace cascade_Drain (existT StorePending (Some rows) :: l) errs →
  ∃ os : list outcome, map fst os = rows ∧ l = concat (map calls_for os) ∧ errs = concat (map errors_for os).
Proof.
  intros (r & l' & Heq & Ht). pose proof (f_equal tail Heq) as Htail. cbn in Htail. subst l'.
  apply (f_equal rows_read) in Heq. cbn in Heq. subst r. by apply run_each_trace.
Qed.

(** ** Concrete runs *)

Ltac calls i ca r :=
  eapply rtc_l; [eapply (cstep_call _ i _ ca _ r); [reflexivity|reflexivity|]|]; [|cbn].

(** A removal is recorded and its drain has begun: nothing is forgotten yet. *)
Lemma removal_not_dropped_witness :
  ∃ c, (reachable c ∧ "a" ∈ owed c) ∧ "a" ∈ pending (sh c) ∧ "a" ∉ overtaken c.
Proof.
  assert (∃ c, reachable c ∧ "a" ∈ owed c ∧ "a" ∉ overtaken c) as (c & Hr & Ho & Hn).
  { eexists. split.
    - eapply rtc_l; [apply (cstep_start _ _ (call_enqueue "a"))|]. cbn.
      calls 0 (StoreEnqueue "a") true; [reflexivity|]. calls 0 TryAddDrain true; [by split|].
      calls 0 GoDrain tt; [reflexivity|]. apply rtc_refl.
    - split; cbn; set_solver. }
  exists c. destruct (removal_not_dropped c "a" Hr Ho) as [Hp|]; [by split_and!|by destruct Hn].
Defined.

(** A namespace removed again while its row was about to be cleared: the row is gone, the
    drain of the second removal found nothing, and the runtime is not forgotten. *)
Lemma overtaken_removal :
  ∃ c, reachable c ∧ "a" ∈ owed c ∧ pending (sh c) = ∅ ∧ drains (threads c) = 0.
Proof.
  eexists. split.
  - eapply rtc_l; [apply (cstep_start _ _ (call_enqueue "a"))|]. cbn.
    calls 0 (StoreEnqueue "a") true; [reflexivity|]. calls 0 TryAddDrain true; [by split|].
    calls 0 GoDrain tt; [reflexivity|].
    calls 1 StorePending (Some ["a"]); [by split|]. calls 1 (ForgetRuntime "a") true; [reflexivity|].
    eapply rtc_l; [apply (cstep_start _ _ (call_enqueue "a"))|]. cbn.
    calls 2 (StoreEnqueue "a") true; [reflexivity|].
    calls 1 (StoreComplete "a") true; [reflexivity|]. calls 1 DrainDone tt; [reflexivity|].
    calls 2 TryAddDrain true; [by split|]. calls 2 GoDrain tt; [reflexivity|].
    calls 3 StorePending (Some (@nil string)); [by split|]. calls 3 DrainDone tt; [reflexivity|]. apply rtc_refl.
  - split_and!; cbn; [set_solver|vm_compute; reflexivity|reflexivity].
Qed.

Lemma drain_attempts_every_row_witness :
  ∃ os : list outcome, map fst os = ["bad"; "good"] ∧ concat (map errors_for os) = [ForgetFailed "bad"].
Proof.
  destruct (drain_attempts_every_row ["bad"; "good"]
    [existT (ForgetRuntime "bad") false; existT (ForgetRuntime "good") true; existT (StoreComplete "good") true]
    [ForgetFailed "bad"]) as (os & Hos & _ & Herrs); [|by exists os].
  eexists _, _. split; [reflexivity|]. eexists _, _. split; [reflexivity|].
  eexists _, _. split; [reflexivity|]. eexists _, _. split; [reflexivity|]. by cbn.
Defined.
