(* ===== verification/Shutdown.v ===== *)
(** * The order and the budgets of a shutdown (internal/core/shutdown and its callers)

    A phase is a function of the deadline of its context and of the time it is called at: it
    ends some time, or never does.  [Sequence] and [Split] run phases one after the other,
    each under a budget of its own (shutdown.go); the daemon's own shutdown
    (internal/internal.go), the application's (internal/app/container.go), the repositories'
    (internal/app/repositories/container.go) and the engines' (internal/engine/container.go)
    are such sequences.  Times are nanoseconds; what a phase starts is written down. *)

From S2P Require Import Prelude.

Open Scope Z_scope.

(** ** Phases *)

(** An error: a context's, a phase's own, or the errors of a phase under its name *)
Inductive failure :=
| DeadlineExceeded
| Own (text : string)
| Named (prefix name : string) (errs : list failure).

(** A phase that was started, when, and the deadline it was given *)
Record started := mkStarted {
  who : string;
  at_ : Z;
  deadline : option Z;
}.

(** When it ended, if it did; its error, [[]] for none; what it started *)
Record outcome := mkOutcome {
  ends : option Z;
  err : list failure;
  log : list started;
}.

Definition activity : Type := option Z → Z → outcome.

Record Phase := mkPhase {
  Name : string;
  Timeout : Z;
  Run : activity;
}.

Definition unbounded : Z := 0.
Definition expired : Z := -1.

(** [ctx.Err() != nil] of a context that is only ever ended by its deadline *)
Definition done_ (d : option Z) (now : Z) : bool :=
  match d with Some d => Z.leb d now | None => false end.

Definition phaseContext (timeout now : Z) : option Z :=
  if Z.eqb timeout unbounded then None else Some (now + timeout).

(** Of a phase that ends at its very deadline the context's error is reported. *)
Definition runPhase (timeout : Z) (fn : activity) (now : Z) : outcome :=
  let ctx := phaseContext timeout now in
  if done_ ctx now then mkOutcome (Some now) [DeadlineExceeded] []
  else
    let o := fn ctx now in
    match ctx, ends o with
    | None, _ => o
    | Some d, Some t => if Z.ltb t d then o else mkOutcome (Some d) [DeadlineExceeded] (log o)
    | Some d, None => mkOutcome (Some d) [DeadlineExceeded] (log o)
    end.

(** The phase, with a note that it was started *)
Definition noted (p : Phase) : activity := λ d now,
  let o := Run p d now in mkOutcome (ends o) (err o) (mkStarted (Name p) now d :: log o).

Fixpoint run (prefix : string) (phases : list Phase) (budget : Phase → Z) (now : Z) : outcome :=
  match phases with
  | [] => mkOutcome (Some now) [] []
  | p :: rest =>
    let o := runPhase (budget p) (noted p) now in
    match ends o with
    | None => o
    | Some t =>
      let o' := run prefix rest budget t in
      mkOutcome (ends o')
        ((match err o with [] => [] | e => [Named prefix (Name p) e] end) ++ err o')
        (log o ++ log o')
    end
  end.

Definition Sequence (prefix : string) (phases : list Phase) (now : Z) : outcome :=
  run prefix phases Timeout now.

(** Go divides towards zero. *)
Definition shareOf (d : option Z) (phases now : Z) : Z :=
  if Z.leb phases 0 then unbounded
  else if done_ d now then expired
  else
    match d with
    | None => unbounded
    | Some d =>
      let share := Z.quot (d - now) phases in
      if Z.leb share 0 then expired else share
    end.

Definition Split (prefix : string) (phases : list Phase) : activity := λ d now,
  let share := shareOf d (Z.of_nat (length phases)) now in
  run prefix phases (λ _, share) now.

(** ** The sequences of the daemon *)

Definition Second : Z := 1000000000.

(** A phase of [Split], whose own timeout is ignored *)
Definition part (name : string) (run : activity) : Phase := mkPhase name 0 run.

(** One thing after the other, the errors joined *)
Definition then_ (a b : activity) : activity := λ d now,
  let o := a d now in
  match ends o with
  | None => o
  | Some t => let o' := b d t in mkOutcome (ends o') (err o ++ err o') (log o ++ log o')
  end.

Definition skip : activity := λ d now, mkOutcome (Some now) [] [].

Section daemon.
(** What the parts do when they are shut down *)
Context (part_of : string → activity).

(** repositories/container.go *)
Definition shutdownRepos : activity :=
  Split "repositories"
    (map (λ n, part n (part_of n))
       ["recommendation shutdown"; "cascade shutdown"; "runtime shutdown"; "collection shutdown";
        "arrow shutdown"; "pairingcode shutdown"; "device shutdown"]).

(** app/container.go: the updates drain, the repositories, then the read models close; all
    of it on the one context. *)
Definition App_Shutdown : activity :=
  then_ (part_of "drain updates") (then_ shutdownRepos (then_ (part_of "close arrows db") (part_of "close device db"))).

Definition closeTimeout : Z := 5 * Second.

(** engine/container.go: the handles are released whatever the drain did with its context. *)
Definition engine_release : activity := λ _ now,
  Sequence "engine container"
    (map (λ n, mkPhase n closeTimeout (part_of n)) ["netbridge events close"; "netbridge snapshots close"; "vault close"]) now.

Definition Engines_Shutdown : activity := then_ (part_of "netbridge shutdown") engine_release.

(** internal.go *)
Definition shutdownPhases : list Phase :=
  [mkPhase "api shutdown" (2 * Second) (part_of "api shutdown");
   mkPhase "update commits drain" (30 * Second) (part_of "drain updates");
   mkPhase "app shutdown" (10 * Second) App_Shutdown;
   mkPhase "engine shutdown" (5 * Second) Engines_Shutdown;
   mkPhase "adapters close" (5 * Second) (part_of "adapters close");
   mkPhase "logger close" (2 * Second) (part_of "logger close")].

Definition Shutdown (now : Z) : outcome := Sequence "internal" shutdownPhases now.
End daemon.

(** ** Budgets *)

(** Nothing ends before it was called. *)
Definition causal (fn : activity) : Prop := ∀ d now t, ends (fn d now) = Some t → now <= t.

Definition total (phases : list Phase) (budget : Phase → Z) : Z := fold_right (λ p n, budget p + n) 0 phases.

(** The phase was started, no earlier than [now] and no later than [last], with the whole
    of its budget before it. *)
Definition in_turn (budget : Phase → Z) (now last : Z) (p : Phase) (s : started) : Prop :=
  who s = Name p ∧ deadline s = Some (at_ s + budget p) ∧ now <= at_ s <= last.

Lemma runPhase_bounded timeout p now :
  causal (Run p) → 0 < timeout →
  ∃ t rest, ends (runPhase timeout (noted p) now) = Some t ∧ now <= t <= now + timeout ∧
    log (runPhase timeout (noted p) now) = mkStarted (Name p) now (Some (now + timeout)) :: rest.
Proof.
  intros Hc Ht. unfold runPhase, phaseContext, unbounded. rewrite (proj2 (Z.eqb_neq timeout 0)) by lia.
  cbn [done_]. rewrite (proj2 (Z.leb_gt (now + timeout) now)) by lia. unfold noted; cbn [ends].
  destruct (ends (Run p (Some (now + timeout)) now)) as [t|] eqn:He.
  - apply Hc in He as Hle. destruct (Z.ltb_spec t (now + timeout)); cbn [ends err log].
    + exists t. eexists. split_and!; try done; lia.
    + eexists _, _. split_and!; try done; lia.
  - cbn. eexists _, _. split_and!; try done; lia.
Qed.

Lemma total_nonneg phases budget : Forall (λ p, 0 < budget p) phases → 0 <= total phases budget.
Proof. unfold total. induction 1; cbn in *; lia. Qed.

(** Phases with budgets all have their turn, whatever becomes of those before them. *)
Lemma run_bounded prefix budget phases : ∀ now,
  Forall (λ p, causal (Run p) ∧ 0 < budget p) phases →
  ∃ t entries, ends (run prefix phases budget now) = Some t ∧ now <= t <= now + total phases budget ∧
    entries `sublist_of` log (run prefix phases budget now) ∧
    Forall2 (in_turn budget now (now + total phases budget)) phases entries.
Proof.
  induction phases as [|p phases IH]; intros now Hp; cbn [run total fold_right].
  - exists now, []. split_and!; try done; cbn; lia.
  - apply Forall_cons in Hp as [[Hc Hb] Hp].
    destruct (runPhase_bounded (budget p) p now Hc Hb) as (t & rest & He & Ht & Hlog). rewrite He.
    destruct (IH t Hp) as (t' & entries & He' & Ht' & Hsub & Hall).
    assert (0 <= total phases budget) as Hpos by (apply total_nonneg; eapply Forall_impl; [exact Hp|naive_solver]).
    fold (total phases budget).
    exists t', (mkStarted (Name p) now (Some (now + budget p)) :: entries). cbn [ends log]. split_and!; [done|lia|lia| |].
    + rewrite Hlog. cbn. apply sublist_skip. by apply sublist_inserts_l.
    + constructor; [by split_and!; cbn; try lia|]. eapply Forall2_impl; [exact Hall|].
      intros q s (? & ? & ?). split_and!; try done; lia.
Qed.

Lemma total_const phases share : total phases (λ _, share) = Z.of_nat (length phases) * share.
Proof. induction phases as [|p phases IH]; [done|]. unfold total in *. cbn [fold_right length]. lia. Qed.

(** With a budget that has run out no phase is started, and each reports it. *)
Lemma run_expired prefix phases now :
  run prefix phases (λ _, expired) now =
  mkOutcome (Some now) (map (λ p, Named prefix (Name p) [DeadlineExceeded]) phases) [].
Proof.
  induction phases as [|p phases IH]; [done|]. cbn [run map]. unfold runPhase, phaseContext.
  change (Z.eqb expired unbounded) with false. cbn [done_].
  rewrite (proj2 (Z.leb_le (now + expired) now)) by (unfold expired; lia). cbn [ends err log]. by rewrite IH.
Qed.

Lemma shareOf_expired d n now : 0 < n → d - now < n → shareOf (Some d) n now = expired.
Proof.
  intros Hn Hd. unfold shareOf. rewrite (proj2 (Z.leb_gt n 0)) by lia. cbn [done_].
  destruct (Z.leb_spec d now); [done|]. rewrite Z.quot_small by lia. done.
Qed.

Lemma shareOf_share d n now : 0 < n → n <= d - now → shareOf (Some d) n now = (d - now) / n ∧ 0 < (d - now) / n.
Proof.
  intros Hn Hd. assert (0 < (d - now) / n) as Hpos by (apply Z.div_str_pos; lia).
  unfold shareOf. rewrite (proj2 (Z.leb_gt n 0)) by lia. cbn [done_].
  rewrite (proj2 (Z.leb_gt d now)) by lia. rewrite Z.quot_div_nonneg by lia.
  by rewrite (proj2 (Z.leb_gt _ 0)) by lia.
Qed.

(** C35. The time a context has left is split so that no phase spends another's: whatever
    the phases do, never returning included, each is started in its turn with the whole of an
    equal share before it, and the sequence ends by the caller's deadline.  Where a share would
    be less than a nanosecond no phase is started, and each reports the expiry. *)
Theorem split_in_time prefix phases d now :
  Forall (λ p, causal (Run p)) phases →
  if bool_decide (Z.of_nat (length phases) <= d - now) then
    let share := (d - now) / Z.of_nat (length phases) in
    ∃ t entries, ends (Split prefix phases (Some d) now) = Some t ∧ now <= t <= d ∧
      entries `sublist_of` log (Split prefix phases (Some d) now) ∧
      Forall2 (in_turn (λ _, share) now d) phases entries
  else
    Split prefix phases (Some d) now = mkOutcome (Some now)
      (map (λ p, Named prefix (Name p) [DeadlineExceeded]) phases) [].
Proof.
  intros Hc. destruct phases as [|p phases].
  { case_bool_decide as Hd; [|done]. exists now, []. cbn in *. split_and!; try done; lia. }
  set (ps := p :: phases) in *. set (n := Z.of_nat (length ps)). assert (0 < n) as Hn by (unfold n, ps; cbn [length]; lia).
  unfold Split. fold n. case_bool_decide as Hd.
  - destruct (shareOf_share d n now Hn Hd) as [-> Hpos].
    destruct (run_bounded prefix (λ _, (d - now) / n) ps now) as (t & entries & He & Ht & Hsub & Hall).
    { eapply Forall_impl; [exact Hc|]. by intros q Hq. }
    rewrite total_const in *. fold n in Ht, Hall.
    assert (n * ((d - now) / n) <= d - now) by (apply Z.mul_div_le; lia).
    exists t, entries. split_and!; try done; try lia. eapply Forall2_impl; [exact Hall|].
    intros q s (? & ? & ?). split_and!; try done; lia.
  - rewrite shareOf_expired by lia. apply run_expired.
Qed.

(** ** The daemon *)

Lemma runPhase_causal timeout p now t :
  causal (Run p) → ends (runPhase timeout (noted p) now) = Some t → now <= t.
Proof.
  intros Hc. unfold runPhase. destruct (done_ (phaseContext timeout now) now) eqn:Hd; [cbn; intros [= ->]; lia|].
  destruct (phaseContext timeout now) as [d|]; cbn in *; [|apply Hc].
  apply Z.leb_gt in Hd. destruct (ends (Run p (Some d) now)) as [t'|] eqn:He; [|intros [= <-]; lia].
  apply Hc in He as Hle. destruct (Z.ltb t' d); cbn; intros Ht; simplify_eq; lia.
Qed.

Lemma run_causal prefix budget phases : ∀ now t, Forall (λ p, causal (Run p)) phases →
  ends (run prefix phases budget now) = Some t → now <= t.
Proof.
  induction phases as [|p phases IH]; intros now t Hc Ht; cbn [run] in Ht; [cbn in Ht; simplify_eq; lia|].
  apply Forall_cons in Hc as [Hp Hc]. destruct (ends (runPhase _ _ now)) as [t0|] eqn:He; [|congruence].
  apply runPhase_causal in He; [|done]. apply IH in Ht; [lia|done].
Qed.

Lemma then_causal a b : causal a → causal b → causal (then_ a b).
Proof.
  intros Ha Hb d t0 t. unfold then_. destruct (ends (a d t0)) as [t1|] eqn:He; [|congruence].
  cbn. intros Ht. apply Ha in He. apply Hb in Ht. lia.
Qed.

Section causal.
Context (part_of : string → activity) (Hparts : ∀ n, causal (part_of n)).

Lemma shutdownRepos_causal : causal (shutdownRepos part_of).
Proof using Hparts. intros d now t. apply run_causal, Forall_fmap, Forall_true. intros n. apply Hparts. Qed.

Lemma shutdownPhases_causal : Forall (λ p, causal (Run p) ∧ 0 < Timeout p) (shutdownPhases part_of).
Proof using Hparts.
  assert (causal (Engines_Shutdown part_of)).
  { apply then_causal; [done|]. intros d now t. apply run_causal, Forall_fmap, Forall_true. intros n. apply Hparts. }
  assert (causal (App_Shutdown part_of)) by (repeat apply then_causal; try done; apply shutdownRepos_causal).
  repeat (apply Forall_cons; split; [split; [by cbn|done]|]). constructor.
Qed.
End causal.

(** The daemon's shutdown ends within 54 seconds whatever its parts do, never
    returning included, and each of its six phases is started in its turn with the whole of
    its own budget. *)
Lemma shutdown_ends part_of now :
  (∀ n, causal (part_of n)) →
  ∃ t entries, ends (Shutdown part_of now) = Some t ∧ now <= t <= now + 54 * Second ∧
    entries `sublist_of` log (Shutdown part_of now) ∧
    Forall2 (in_turn Timeout now (now + 54 * Second)) (shutdownPhases part_of) entries.
Proof. intros Hc. by apply run_bounded, shutdownPhases_causal. Qed.

(** The repositories get what the drain of the updates left of the application's context:
    where that is nothing, none of them is started, and the databases close. *)
Lemma updates_starve_repositories part_of d now t :
  ends (part_of "drain updates" (Some d) now) = Some t → d <= t →
  log (App_Shutdown part_of (Some d) now) =
    log (part_of "drain updates" (Some d) now) ++
    log (then_ (part_of "close arrows db") (part_of "close device db") (Some d) t).
Proof.
  intros He Ht. unfold App_Shutdown. unfold then_ at 1. rewrite He. cbn [log]. f_equal.
  assert (shutdownRepos part_of (Some d) t = mkOutcome (Some t)
    (map (λ n, Named "repositories" n [DeadlineExceeded])
       ["recommendation shutdown"; "cascade shutdown"; "runtime shutdown"; "collection shutdown";
        "arrow shutdown"; "pairingcode shutdown"; "device shutdown"]) []) as Hrepos.
  { unfold shutdownRepos, Split. rewrite shareOf_expired by (cbn; lia). apply run_expired. }
  unfold then_ at 1. by rewrite Hrepos.
Qed.

(** ** Concrete runs *)

Definition quick : activity := λ d now, mkOutcome (Some (now + 1)) [] [].
Definition stuck : activity := λ d now, mkOutcome None [] [].

(** The second of three phases never returns: the third starts when its share is over. *)
Definition three : list Phase := [part "a" quick; part "b" stuck; part "c" quick].

Lemma three_causal : Forall (λ p, causal (Run p)) three.
Proof. repeat constructor; intros d now t He; cbn in He; simplify_eq; lia. Defined.

Lemma split_in_time_witness :
  (∃ t, ends (Split "x" three (Some 30) 0) = Some t ∧ 0 <= t <= 30) ∧
  Split "x" three (Some 30) 0 = mkOutcome (Some 12) [Named "x" "b" [DeadlineExceeded]]
    [mkStarted "a" 0 (Some 10); mkStarted "b" 1 (Some 11); mkStarted "c" 11 (Some 21)] ∧
  ends (Split "x" three (Some 2) 0) = Some 0.
Proof.
  split; [|split; [by vm_compute|]].
  - destruct (split_in_time "x" three 30 0 three_causal) as (t & _ & Ht & Hle & _). by exists t.
  - by rewrite (split_in_time "x" three 2 0 three_causal : _ = _).
Defined.

Definition hung (n : string) : activity := if String.eqb n "drain updates" then stuck else quick.

Lemma hung_causal n : causal (hung n).
Proof. unfold hung. case_match; intros d now t He; cbn in He; simplify_eq; lia. Defined.

(** Updates that never end: both drains run to their deadlines, and the engines still have
    their turn. *)
Lemma shutdown_ends_witness :
  (∃ t, ends (Shutdown hung 0) = Some t ∧ t <= 54 * Second) ∧
  ends (Shutdown hung 0) = Some (40 * Second + 7).
Proof.
  split; [|by vm_compute].
  destruct (shutdown_ends hung 0 hung_causal) as (t & _ & Ht & Hle & _). exists t. split; [done|lia].
Defined.
