(* ===== verification/Wizard.v ===== *)
(** * How the wizard runs the steps of a method (internal/engine/wizard)

    One execution: the channel its events go through (internal/models/execution_impl.go), the
    loop over its steps (wizard.go), and the handlers that wait on a process, signal one or
    expose what was installed (internal/step/run, signal, expose); the handlers that download
    and unpack are answers.  A step's run is the program of its calls, on the context, the
    processes, the shelf and the channel. *)

From S2P Require Import Prelude GoStrings GoFilepath Domain Steps Manifest Runtime RuntimeDrain RuntimeRepo Assembler Prog.

(** ** The channel of an execution *)

Definition eventBuffer : nat := 16.

(** [outcome] is what [Outcome] reads, nothing before [Finish] set it. *)
Record ExecutionImpl := mkExecutionImpl {
  events : list Event;
  events_closed : bool;
  done_closed : bool;
  outcome : option ExecutionOutcome;
}.

Definition NewExecution : ExecutionImpl := mkExecutionImpl [] false false None.

(** A send that does not wait *)
Definition offer_event (e : ExecutionImpl) (ev : Event) : list Event :=
  if length (events e) <? eventBuffer then events e ++ [ev] else events e.

(** [None] is a panic: a send on a closed channel, a second close. *)
Definition Emit (e : ExecutionImpl) (ev : Event) : option ExecutionImpl :=
  if events_closed e then None else Some (mkExecutionImpl (offer_event e ev) false (done_closed e) (outcome e)).

(** The parts of [Finish], between which others run: what it does under the lock, and its two
    closes.  In between comes the send of an end, whose event carries the outcome too, which
    nothing reads. *)
Definition set_outcome (e : ExecutionImpl) (o : ExecutionOutcome) : ExecutionImpl :=
  mkExecutionImpl (events e) (events_closed e) (done_closed e) (Some o).

Definition close_events (e : ExecutionImpl) : option ExecutionImpl :=
  if events_closed e then None else Some (mkExecutionImpl (events e) true (done_closed e) (outcome e)).

Definition close_done (e : ExecutionImpl) : option ExecutionImpl :=
  if done_closed e then None else Some (mkExecutionImpl (events e) (events_closed e) true (outcome e)).

Definition ended : Event := mkEvent EventKindEnded 0 None "" 0 None.

(** ** Errors *)

Inductive step_error :=
| ErrUnknownStepType
| ErrNoWorkDir
| ErrInvalidTimeout (timeout why : string)
| ErrNoSocket
| ErrBadStaticDir (why : string)
| ErrNonZeroExit (code : Z)
| ErrNoProcess
| ErrInvalidSignal
| ErrUnknownKind (kind name : string)
| ErrRefused (kind name reason : string)
| ErrStart (why : string)
(* what a part outside this file answered, and whether it is [ErrChecksumMismatch] *)
| ErrOf (text : string) (checksum : bool)
| Joined (errs : list step_error).

(** [%q]: quoted as Go source, but for the runes over ASCII it would escape *)
Definition hex_digit (n : nat) : ascii := ascii_of_nat (if n <? 10 then 48 + n else 87 + n).

Definition quoted_byte (c : ascii) : string :=
  let escaped (c' : ascii) := String "092"%char (String c' "") in
  let n := nat_of_ascii c in
  if (n =? 34) || (n =? 92) then escaped c
  else if (7 <=? n) && (n <=? 13) then escaped (nth (n - 7) ["a"; "b"; "t"; "n"; "v"; "f"; "r"]%char c)
  else if (n <? 32) || (n =? 127) then escaped "x"%char +:+ String (hex_digit (n / 16)) (String (hex_digit (n mod 16)) "")
  else String c "".

Fixpoint quoted_bytes (s : string) : string :=
  match s with
  | "" => ""
  | String c s' => quoted_byte c +:+ quoted_bytes s'
  end.

Definition quoted (s : string) : string := String "034"%char (quoted_bytes s +:+ String "034"%char "").

Fixpoint error_text (e : step_error) : string :=
  match e with
  | ErrUnknownStepType => "wizard: unknown step type"
  | ErrNoWorkDir => "run: no workdir"
  | ErrInvalidTimeout t why => "invalid timeout " +:+ quoted t +:+ ": " +:+ why
  | ErrNoSocket => "run: ARROW_UI_LISTEN was not provisioned"
  | ErrBadStaticDir why => "run: ui static directory is not usable: " +:+ why
  | ErrNonZeroExit code => "run: process exited with non-zero code: " +:+ pretty code
  | ErrNoProcess => "signal: no process for namespace"
  | ErrInvalidSignal => "signal: invalid signal kind"
  | ErrUnknownKind kind name => kind +:+ " " +:+ name +:+ ": expose: unknown entry kind"
  | ErrRefused kind name reason => kind +:+ " " +:+ name +:+ ": " +:+ reason +:+ ": expose: entry refused"
  | ErrStart why => "start: " +:+ why
  | ErrOf text _ => text
  | Joined errs => join (String "010"%char "") (map error_text errs)
  end.

(** [errors.Is(err, ErrChecksumMismatch)] *)
Fixpoint is_checksum (e : step_error) : bool :=
  match e with
  | ErrOf _ checksum => checksum
  | Joined errs => existsb is_checksum errs
  | _ => false
  end.

Definition event_error (e : step_error) : string * bool := (error_text e, is_checksum e).

(** ** Exposing (internal/step/expose) *)

(** An expose step, as the loop hands it to the handler *)
Record expose_step := mkExposeStepOf {
  e_kind : string;
  e_entry : ExposeEntry;
  e_media : string;
}.

Fixpoint leadingExposeSteps (steps : list Step) : list expose_step :=
  match steps with
  | ExposeStep _ kind name path icon categories media :: steps' =>
    mkExposeStepOf kind (mkExposeEntry name path icon categories) media :: leadingExposeSteps steps'
  | _ => []
  end.

Record slot := mkSlot { slot_kind : string; slot_index : Z }.

#[export] Instance slot_eq_dec : EqDecision slot.
Proof. solve_decision. Defined.

(** What the shelf did: an entry by its kind and its index in the block *)
Record Refusal := mkRefusal { r_slot : slot; r_name : string; r_reason : string }.

Record Applied := mkApplied {
  Entries : list slot;
  Refused : list Refusal;
  Skipped : list Refusal;
}.

(** The block, the slot of each step or the error it is left with, the icon of the last *)
Record collected := mkCollected {
  desktop : list ExposeEntry;
  cli : list ExposeEntry;
  slots : list (slot + step_error);
  media : string;
}.

Definition collect_one (c : collected) (s : expose_step) : collected :=
  if String.eqb (e_kind s) ExposeKindDesktop then
    mkCollected (desktop c ++ [e_entry s]) (cli c)
      (slots c ++ [inl (mkSlot ExposeKindDesktop (Z.of_nat (length (desktop c))))]) (e_media s)
  else if String.eqb (e_kind s) ExposeKindCLI then
    mkCollected (desktop c) (cli c ++ [e_entry s])
      (slots c ++ [inl (mkSlot ExposeKindCLI (Z.of_nat (length (cli c))))]) (e_media s)
  else
    mkCollected (desktop c) (cli c) (slots c ++ [inr (ErrUnknownKind (e_kind s) (entry_name (e_entry s)))]) (e_media s).

Definition collect (steps : list expose_step) : collected := foldl collect_one (mkCollected [] [] [] "") steps.

Definition placed (a : Applied) (s : slot) : bool := existsb (λ s', bool_decide (s' = s)) (Entries a).

Definition slot_outcome (a : Applied) (s : slot) (applyErr : option step_error) : option step_error :=
  match filter (λ r, r_slot r = s) (Refused a) with
  | [] => match applyErr with
          | None => None
          | Some e => if placed a s then None else Some e
          end
  | rs => Some (Joined (map (λ r, ErrRefused (slot_kind s) (r_name r) (r_reason r)) rs))
  end.

Definition skipNote (a : Applied) (s : slot) : string :=
  if placed a s then ""
  else match filter (λ r, r_slot r = s) (Skipped a) with
       | [] => ""
       | r :: _ => "nothing exposed: " +:+ r_reason r
       end.

(** The error and the note of one expose step *)
Definition expose_result (a : Applied) (applyErr : option step_error) (s : slot + step_error)
  : option step_error * string :=
  match s with
  | inr e => (Some e, "")
  | inl s =>
    match slot_outcome a s applyErr with
    | Some e => (Some e, "")
    | None => (None, skipNote a s)
    end
  end.

(** ** The calls of an execution *)

Inductive call :=
(* [ctx.Err() != nil] of the execution *)
| CtxEnded
| EmitEvent (ev : Event)
| SetOutcome (o : ExecutionOutcome)
| CloseEvents
| CloseDone
(* whether a text is a duration, which then bounds the calls that follow *)
| StepContext (timeout : string)
| EvalSymlinks (path : string)
| StatIsDir (path : string)
| AppEntry (workdir : string)
| ProcStart (workdir command : string)
| ProcWait
| ProcExitCode
| KillGroup (pid : Z) (signal : string)
| RunHandler (s : Step)
| ShelfApply (ns : Namespace) (workdir : string) (block : Expose) (media : string)
(* the scratch directory of a probe, and the slots of the wizard's group *)
| MkdirTemp
| RemoveAll (path : string)
| EnterProbe
(* the section of [Start] under the lock *)
| GoExecution (counted : bool) (req : RunRequest)
| LeaveSlot
(* the shutdown: [shutdownOnce], and its wait *)
| BeginShutdown
| WaitDone.

(** An error is its text, and whether it is the sentinel its caller asks about. *)
Definition answer (c : call) : Type :=
  match c with
  | CtxEnded | EnterProbe | GoExecution _ _ | WaitDone => bool
  | EmitEvent _ | SetOutcome _ | CloseEvents | CloseDone | RemoveAll _ | LeaveSlot | BeginShutdown => unit
  | StepContext _ => result string unit
  | EvalSymlinks _ | AppEntry _ | MkdirTemp => result string string
  | StatIsDir _ => bool
  | ProcStart _ _ => result string Z
  | ProcWait => option string
  | ProcExitCode => Z
  | KillGroup _ _ => option string
  | RunHandler _ => option (string * bool)
  | ShelfApply _ _ _ _ => Applied * option string
  end.

Abbreviation P := (prog answer).

(** [ExecutionImpl.Finish]: what waits for either channel finds the outcome set. *)
Definition Finish (o : ExecutionOutcome) : P unit :=
  _ ← (ask (SetOutcome o) : P unit);
  _ ← (ask (EmitEvent ended) : P unit);
  _ ← (ask CloseEvents : P unit);
  (ask CloseDone : P unit).

(** A step that fails *)
Abbreviation op A := (P (result step_error A)).

Definition SignalKindKill : string := "kill".
Definition SignalKindInterrupt : string := "interrupt".

Section execution.
(** The platform a step is resolved against, and whether anybody hears the events *)
Context (osArch : string) (listening : bool).

Definition emit (ev : Event) : P unit :=
  if listening then (ask (EmitEvent ev) : P unit) else mret ().

Definition ExpandVars (req : RunRequest) (raw : string) : string := default "" (Expand (req_variables req) raw).

(** *** A surface (run/surface.go) *)

Definition resolveStatic (workdir rel : string) : op string :=
  if negb (IsLocal rel) then
    mret (Err (ErrBadStaticDir (quoted rel +:+ " must stay inside the install directory")))
  else
    let abs := Join [workdir; rel] in
    realWork ← (ask (EvalSymlinks workdir) : P (result string string));
    match realWork with
    | Err why => mret (Err (ErrBadStaticDir why))
    | Ok realWork =>
      realDir ← (ask (EvalSymlinks abs) : P (result string string));
      match realDir with
      | Err why => mret (Err (ErrBadStaticDir why))
      | Ok realDir =>
        let outside := Err (ErrBadStaticDir (quoted rel +:+ " resolves outside the install directory")) in
        match Rel realWork realDir with
        | None => mret outside
        | Some relToWork =>
          if negb (IsLocal relToWork) && negb (String.eqb relToWork ".") then mret outside
          else
            is_dir ← (ask (StatIsDir realDir) : P bool);
            if negb is_dir then mret (Err (ErrBadStaticDir (quoted rel +:+ " is not a directory")))
            else mret (Ok realDir)
        end
      end
    end.

Definition surfaceFor (req : RunRequest) (ui : UIOptions) : op Surface :=
  let path := if is_empty (ui_path ui) then "/" else ui_path ui in
  if Listens ui then
    if is_empty (default "" (req_variables req !! VarArrowUIListen)) then mret (Err ErrNoSocket)
    else mret (Ok (mkSurface (ui_title ui) SurfaceModeListen path "" false))
  else
    dir ←? resolveStatic (req_workdir req) (ExpandVars req (ui_static ui));
    mret (Ok (mkSurface (ui_title ui) SurfaceModeStatic path dir true)).

Definition event (k : EventKind) : Event := mkEvent k 0 None "" 0 None.

(** Whether a surface was opened, which is then closed however the run ends *)
Definition openSurface (req : RunRequest) (ui : option UIOptions) : op bool :=
  match ui with
  | None => mret (Ok false)
  | Some ui =>
    surface ←? surfaceFor req ui;
    _ ← emit (mkEvent EventKindSurface 0 None "" 0 (Some surface));
    mret (Ok true)
  end.

(** *** A process (run/handler.go) *)

Definition withTimeout (timeout : string) : op unit :=
  if is_empty timeout then mret (Ok ())
  else
    ctx ← (ask (StepContext timeout) : P (result string unit));
    mret (match ctx with Ok _ => Ok () | Err why => Err (ErrInvalidTimeout timeout why) end).

Definition run_process (workdir command : string) : op unit :=
  started ← (ask (ProcStart workdir command) : P (result string Z));
  match started with
  | Err why => mret (Err (ErrOf why false))
  | Ok pid =>
    _ ← emit (mkEvent EventKindPID 0 None "" pid None);
    waited ← (ask ProcWait : P (option string));
    match waited with
    | Some why => mret (Err (ErrOf why false))
    | None =>
      code ← (ask ProcExitCode : P Z);
      mret (if Z.eqb code 0 then Ok () else Err (ErrNonZeroExit code))
    end
  end.

Definition run_Execute (req : RunRequest) (command timeout : Overrideable string) (ui : option UIOptions) : op unit :=
  if is_empty (req_workdir req) then mret (Err ErrNoWorkDir)
  else
    _ ←? withTimeout (Resolve_over timeout osArch);
    opened ←? openSurface req ui;
    deferring (run_process (req_workdir req) (ExpandVars req (Resolve_over command osArch)))
      (if opened : bool then emit (event EventKindSurfaceClosed) else mret ()).

(** *** A signal (signal/handler.go, runtime/internal/process/unix.go) *)

Definition signal_of (sig : string) : option string :=
  if String.eqb sig SignalKindGraceful then Some "SIGTERM"
  else if String.eqb sig SignalKindKill then Some "SIGKILL"
  else if String.eqb sig SignalKindInterrupt then Some "SIGINT"
  else None.

Definition signal_Execute (req : RunRequest) (sig timeout : Overrideable string) : op unit :=
  _ ←? withTimeout (Resolve_over timeout osArch);
  if Z.leb (req_pid req) 0 then mret (Err ErrNoProcess)
  else
    match signal_of (Resolve_over sig osArch) with
    | None => mret (Err ErrInvalidSignal)
    | Some os_sig =>
      sent ← (ask (KillGroup (req_pid req) os_sig) : P (option string));
      mret (match sent with None => Ok () | Some why => Err (ErrOf why false) end)
    end.

(** *** One step *)

Definition app_ref : string := "${" +:+ VarArrowApp +:+ "}".

(** The request with the executable of the exposed app, where the command names it *)
Definition provisionApp (req : RunRequest) (s : Step) : op RunRequest :=
  match s with
  | RunStep _ command _ _ _ =>
    if contains (Resolve_over command osArch) app_ref then
      app ← (ask (AppEntry (req_workdir req)) : P (result string string));
      mret (match app with
            | Err why => Err (ErrStart why)
            | Ok app => Ok (mkRunRequest (req_namespace req) (req_method req) (req_steps req)
                              (<[VarArrowApp := app]> (req_variables req)) (req_workdir req) (req_pid req))
            end)
    else mret (Ok req)
  | _ => mret (Ok req)
  end.

(** No handler is registered for a single expose step. *)
Definition executeStep (req : RunRequest) (s : Step) : op unit :=
  match s with
  | ExposeStep _ _ _ _ _ _ _ => mret (Err ErrUnknownStepType)
  | _ =>
    req ←? provisionApp req s;
    match s with
    | RunStep _ command _ timeout ui => run_Execute req command timeout ui
    | SignalStep _ sig timeout => signal_Execute req sig timeout
    | DependenciesStep _ => mret (Ok ())
    | _ =>
      failed ← (ask (RunHandler s) : P (option (string * bool)));
      mret (match failed with None => Ok () | Some (text, checksum) => Err (ErrOf text checksum) end)
    end
  end.

Definition step_event (k : EventKind) (i : nat) (err : option step_error) (note : string) : Event :=
  mkEvent k (Z.of_nat i) (event_error <$> err) note 0 None.

(** *** A batch of expose steps *)

Fixpoint report_exposed (i : nat) (results : list (option step_error * string)) : P unit :=
  match results with
  | [] => mret ()
  | (err, note) :: results' =>
    _ ← emit (step_event EventKindStepStarted i None "");
    _ ← emit (match err with
              | Some e => step_event EventKindStepFailed i (Some e) ""
              | None => step_event EventKindStepCompleted i None note
              end);
    report_exposed (S i) results'
  end.

Definition expose (req : RunRequest) (first : nat) (batch : list expose_step) : P unit :=
  let c := collect batch in
  applied ← (ask (ShelfApply (req_namespace req) (req_workdir req)
                    (mkExpose (Some (cli c)) (Some (desktop c))) (media c)) : P (Applied * option string));
  let '(a, err) := applied in
  let err := (λ t, ErrOf t false) <$> err in
  report_exposed first (map (expose_result a err) (slots c)).

(** *** The loop *)

Definition ExitOnFailure (s : Step) : bool :=
  match s with
  | RunStep b _ _ _ _ | FetchStep b _ _ _ _ | ExtractStep b _ _ _ | PortableStep b _ _ _ _
  | SignalStep b _ _ | DependenciesStep b | ExposeStep b _ _ _ _ _ _ | UnexposeStep b => exitOnFailure b
  end.

(** [skip] is what is left of a batch that was exposed. *)
Fixpoint runSteps_from (req : RunRequest) (skip i : nat) (steps : list Step) : P ExecutionOutcome :=
  match steps with
  | [] =>
    ended ← (ask CtxEnded : P bool);
    mret (if ended : bool then OutcomeCancelled else OutcomeSuccess)
  | s :: rest =>
    match skip with
    | S skip' => runSteps_from req skip' (S i) rest
    | O =>
      ended ← (ask CtxEnded : P bool);
      if ended : bool then mret OutcomeCancelled
      else
        match leadingExposeSteps steps with
        | (_ :: batch') as batch =>
          _ ← expose req i batch;
          runSteps_from req (length batch') (S i) rest
        | [] =>
          _ ← emit (step_event EventKindStepStarted i None "");
          done ← executeStep req s;
          match done with
          | Ok _ =>
            _ ← emit (step_event EventKindStepCompleted i None "");
            runSteps_from req 0 (S i) rest
          | Err e =>
            ended ← (ask CtxEnded : P bool);
            if ended : bool then mret OutcomeCancelled
            else
              _ ← emit (step_event EventKindStepFailed i (Some e) "");
              if ExitOnFailure s then mret OutcomeFailed else runSteps_from req 0 (S i) rest
          end
        end
    end
  end.

Definition runSteps (req : RunRequest) : P ExecutionOutcome := runSteps_from req 0 0 (req_steps req).
End execution.

(** *** A run in the background, a probe, the shutdown (wizard.go) *)

Section wizard.
Context (osArch : string).

Definition opensSurface (steps : list Step) : bool :=
  existsb (λ s, match s with RunStep _ _ _ _ (Some _) => true | _ => false end) steps.

(** Whether the shutdown ends the run and waits for it *)
Definition one_shot (req : RunRequest) : bool :=
  IsOneShotMethod (req_method req) || opensSurface (req_steps req).

(** The goroutine of [Start] *)
Definition execution (counted : bool) (req : RunRequest) : P unit :=
  deferring
    (outcome ← runSteps osArch true req;
     Finish outcome)
    (if counted then (ask LeaveSlot : P unit) else mret ()).

Definition wizard_Start (req : RunRequest) : P unit :=
  admitted ← (ask (GoExecution (one_shot req) req) : P bool);
  if admitted : bool then mret () else Finish OutcomeCancelled.

Inductive probe_error :=
| ErrVacuousProbe
| ErrShuttingDown
| ErrScratch (why : string)
| ProbeContext (step : nat)
| ProbeStep (step : nat) (e : step_error).

Definition checkProbeAnswerable (req : RunRequest) : bool :=
  match req_steps req with
  | [] => false
  | steps => forallb (λ s, match s with
                           | RunStep _ command _ _ _ => negb (is_empty (Resolve_over command osArch))
                           | _ => true
                           end) steps
  end.

Fixpoint probe_steps (req : RunRequest) (i : nat) (steps : list Step) : P (result probe_error unit) :=
  match steps with
  | [] => mret (Ok ())
  | s :: rest =>
    ended ← (ask CtxEnded : P bool);
    if ended : bool then mret (Err (ProbeContext i))
    else
      done ← executeStep osArch false req s;
      match done with
      | Err e => mret (Err (ProbeStep i e))
      | Ok _ => probe_steps req (S i) rest
      end
  end.

Definition with_workdir (req : RunRequest) (dir : string) : RunRequest :=
  mkRunRequest (req_namespace req) (req_method req) (req_steps req) (req_variables req) dir (req_pid req).

Definition Probe (req : RunRequest) : P (result probe_error unit) :=
  if negb (checkProbeAnswerable req) then mret (Err ErrVacuousProbe)
  else
    entered ← (ask EnterProbe : P bool);
    if negb entered then mret (Err ErrShuttingDown)
    else
      deferring
        (if is_empty (req_workdir req) then
           scratch ← (ask MkdirTemp : P (result string string));
           match scratch with
           | Err why => mret (Err (ErrScratch why))
           | Ok dir => deferring (probe_steps (with_workdir req dir) 0 (req_steps req)) (ask (RemoveAll dir) : P unit)
           end
         else probe_steps req 0 (req_steps req))
        (ask LeaveSlot : P unit).

(** Whether everything it waits for ended before the context did *)
Definition wizard_Shutdown : P bool :=
  _ ← (ask BeginShutdown : P unit);
  (ask WaitDone : P bool).
End wizard.

(** ** The order of the steps *)

(** *** The calls a step makes *)

Definition within_kind (k : EventKind) : Prop :=
  k = EventKindPID ∨ k = EventKindSurface ∨ k = EventKindSurfaceClosed.

(** What a step does while it runs; it emits only where somebody hears it. *)
Definition within (listening : bool) (c : call) : Prop :=
  match c with
  | EmitEvent ev => listening = true ∧ within_kind (EventKindOf ev)
  | StepContext _ | EvalSymlinks _ | StatIsDir _ | AppEntry _ | ProcStart _ _ | ProcWait | ProcExitCode
  | KillGroup _ _ | RunHandler _ => True
  | _ => False
  end.

(** The parts of a program, one by one *)
Ltac in_step :=
  repeat first
  [ exact I
  | progress cbn beta iota
  | apply calls_only_bind; [|intros]
  | apply calls_only_bind_ok; [|intros]
  | match goal with
    | |- calls_only _ (match ?x with _ => _ end) => destruct x
    | |- calls_only _ (if ?b then _ else _) => destruct b
    | |- calls_only _ (ask _) => split; [try exact I|intros; exact I]
    | |- calls_only _ (Call _ _) => split; [try exact I|intros]
    | |- calls_only _ (mret _) => exact I
    end ].

Section order.
Context (osArch : string).

Lemma emit_within b ev : within_kind (EventKindOf ev) → calls_only (within b) (emit b ev).
Proof. intros Hev. unfold emit. by destruct b. Qed.

Lemma withTimeout_within b timeout : calls_only (within b) (withTimeout timeout).
Proof. unfold withTimeout. in_step. Qed.

Lemma openSurface_within b req ui : calls_only (within b) (openSurface b req ui).
Proof.
  unfold openSurface. destruct ui as [ui|]; [|done]. apply calls_only_bind_ok.
  - unfold surfaceFor, resolveStatic. in_step.
  - intros s. apply calls_only_bind; [|done]. apply emit_within. by right; left.
Qed.

Lemma run_Execute_within b req command timeout ui : calls_only (within b) (run_Execute osArch b req command timeout ui).
Proof.
  unfold run_Execute. destruct (is_empty _); [done|].
  apply calls_only_bind_ok; [apply withTimeout_within|intros _].
  apply calls_only_bind_ok; [apply openSurface_within|intros opened].
  unfold deferring. apply calls_only_bind; [|intros r; apply calls_only_bind; [|done]].
  - unfold run_process. apply calls_only_bind; [done|intros [pid|]; [|done]].
    apply calls_only_bind; [apply emit_within; by left|intros _]. in_step.
  - destruct opened; [|done]. apply emit_within. by right; right.
Qed.

Lemma provisionApp_within b req s : calls_only (within b) (provisionApp osArch req s).
Proof. unfold provisionApp. in_step. Qed.

Lemma signal_Execute_within b req sig timeout : calls_only (within b) (signal_Execute osArch req sig timeout).
Proof.
  unfold signal_Execute. apply calls_only_bind_ok; [apply withTimeout_within|intros _]. in_step.
Qed.

Lemma executeStep_within b req s : calls_only (within b) (executeStep osArch b req s).
Proof.
  destruct s; try done; (apply calls_only_bind_ok; [apply provisionApp_within|intros r]);
    first [apply run_Execute_within | apply signal_Execute_within | in_step].
Qed.
End order.

(** *** The protocol

    Where the run is, what the answers said of it, and what it may then do *)

(** The step it is at; whether the context was found alive since the last one was reported;
    whether the step has begun; the exposed app its command runs, once found; the verdict of
    the answers on it; what the shelf said of the steps that are to be reported; whether a
    step failed that ends the run; and whether the context was found to have ended. *)
Record progress := mkProgress {
  next : nat;
  live : bool;
  inside : bool;
  app : option string;
  passed : option bool;
  reports : list (option step_error * string);
  fatal : bool;
  stopped : bool;
}.

(** A failed expose step never ends the run. *)
Definition ends_the_run (s : Step) : bool :=
  match s with ExposeStep _ _ _ _ _ _ _ => false | _ => ExitOnFailure s end.

Section stepping.
Context (osArch : string) (req : RunRequest).

Definition with_app (app : option string) : gmap string string :=
  match app with Some a => <[VarArrowApp := a]> (req_variables req) | None => req_variables req end.

Definition expanded (app : option string) (raw : string) : string := default "" (Expand (with_app app) raw).

(** What a step that has begun does, before there is a verdict on it *)
Definition work (s : Step) (app : option string) (c : call) : Prop :=
  match c, s with
  | StepContext t, (RunStep _ _ _ timeout _ | SignalStep _ _ timeout) => t = Resolve_over timeout osArch
  | AppEntry dir, RunStep _ command _ _ _ =>
    app = None ∧ dir = req_workdir req ∧ contains (Resolve_over command osArch) app_ref = true
  | EvalSymlinks path, RunStep _ _ _ _ (Some ui) =>
    path = req_workdir req ∨ path = Join [req_workdir req; expanded app (ui_static ui)]
  | StatIsDir _, RunStep _ _ _ _ (Some _) => True
  | ProcStart dir line, RunStep _ command _ _ _ =>
    dir = req_workdir req ∧ line = expanded app (Resolve_over command osArch) ∧
    (contains (Resolve_over command osArch) app_ref = true → is_Some app)
  | (ProcWait | ProcExitCode), RunStep _ _ _ _ _ => True
  | KillGroup pid os_sig, SignalStep _ sig _ => pid = req_pid req ∧ signal_of (Resolve_over sig osArch) = Some os_sig
  | RunHandler s', (FetchStep _ _ _ _ _ | ExtractStep _ _ _ _ | PortableStep _ _ _ _ _ | UnexposeStep _) => s' = s
  | _, _ => False
  end.

(** The batch of expose steps a step begins *)
Definition batch_at (i : nat) : list expose_step := leadingExposeSteps (drop i (req_steps req)).

Definition may_begin (s : Step) (p : progress) : Prop :=
  match s with
  | ExposeStep _ _ _ _ _ _ _ => reports p ≠ []
  | _ => reports p = [] ∧ live p = true
  end.

(** An expose step is what the shelf said of it; a dependencies step does nothing; of any
    other the last answer was a success. *)
Definition may_complete (s : Step) (p : progress) (note : string) : Prop :=
  match s with
  | ExposeStep _ _ _ _ _ _ _ => head (reports p) = Some (None, note)
  | DependenciesStep _ => True
  | _ => passed p = Some true
  end.

Definition may_fail (s : Step) (p : progress) (err : option (string * bool)) : Prop :=
  match s with
  | ExposeStep _ _ _ _ _ _ _ => ∃ e note, head (reports p) = Some (Some e, note) ∧ err = Some (event_error e)
  | _ => passed p ≠ Some true ∧ live p = true ∧ is_Some err
  end.

Definition may_step (p : progress) (c : call) : Prop :=
  fatal p = false ∧ stopped p = false ∧
  match c with
  | CtxEnded => True
  | ShelfApply ns dir block icon =>
    let c := collect (batch_at (next p)) in
    inside p = false ∧ live p = true ∧ reports p = [] ∧ batch_at (next p) ≠ [] ∧ ns = req_namespace req ∧
    dir = req_workdir req ∧ block = mkExpose (Some (cli c)) (Some (desktop c)) ∧ icon = media c
  | EmitEvent ev =>
    ∃ s, req_steps req !! next p = Some s ∧
    match EventKindOf ev with
    | EventKindStepStarted => StepIndex ev = Z.of_nat (next p) ∧ inside p = false ∧ may_begin s p
    | EventKindStepCompleted =>
      StepIndex ev = Z.of_nat (next p) ∧ inside p = true ∧ EventErr ev = None ∧ may_complete s p (EventNote ev)
    | EventKindStepFailed => StepIndex ev = Z.of_nat (next p) ∧ inside p = true ∧ may_fail s p (EventErr ev)
    | EventKindEnded => False
    | _ => inside p = true ∧ match s with RunStep _ _ _ _ _ => True | _ => False end
    end
  | c => ∃ s, req_steps req !! next p = Some s ∧ inside p = true ∧ passed p = None ∧ work s (app p) c
  end.

(** The next step, with what is left to report *)
Definition reported (p : progress) (fatal : bool) : progress :=
  mkProgress (S (next p)) false false None None (tail (reports p)) fatal (stopped p).

Definition judged (p : progress) (ok : bool) : progress :=
  mkProgress (next p) (live p) (inside p) (app p) (Some ok) (reports p) (fatal p) (stopped p).

Definition stepped (p : progress) (c : call) : answer c → progress :=
  match c with
  | EmitEvent ev => λ _,
    match EventKindOf ev with
    | EventKindStepStarted =>
      mkProgress (next p) (live p) true (app p) (passed p) (reports p) (fatal p) (stopped p)
    | EventKindStepCompleted => reported p (fatal p)
    | EventKindStepFailed => reported p (default false (ends_the_run <$> req_steps req !! next p))
    | _ => p
    end
  | CtxEnded => λ ended : bool,
    mkProgress (next p) (negb ended) (inside p) (app p) (passed p) (reports p) (fatal p) ended
  | ShelfApply _ _ _ _ => λ '(a, err),
    mkProgress (next p) (live p) (inside p) (app p) (passed p)
      (map (expose_result a ((λ t, ErrOf t false) <$> err)) (slots (collect (batch_at (next p))))) (fatal p) (stopped p)
  | AppEntry _ => λ found : result string string,
    match found with
    | Ok a => mkProgress (next p) (live p) (inside p) (Some a) (passed p) (reports p) (fatal p) (stopped p)
    | Err _ => p
    end
  | ProcStart _ _ => λ started : result string Z, match started with Ok _ => p | Err _ => judged p false end
  | ProcWait => λ why : option string, match why with None => p | Some _ => judged p false end
  | ProcExitCode => λ code : Z, judged p (Z.eqb code 0)
  | KillGroup _ _ => λ why : option string, judged p (negb (bool_decide (is_Some why)))
  | RunHandler _ => λ why : option (string * bool), judged p (negb (bool_decide (is_Some why)))
  | _ => λ _, p
  end.

Definition stepping : protocol answer progress := mkProtocol may_step stepped.

(** Before a step, and while it runs *)
Definition at_step (i : nat) (l : bool) (rs : list (option step_error * string)) : progress :=
  mkProgress i l false None None rs false false.

Definition during (i : nat) (a : option string) (v : option bool) : progress :=
  mkProgress i true true a v [] false false.

(** What an outcome says of the run: every step was reported, none that ends it failed and
    its context had not ended; a step failed that ends it; or its context had ended. *)
Definition told (o : ExecutionOutcome) (p : progress) : Prop :=
  match o with
  | OutcomeSuccess =>
    next p = length (req_steps req) ∧ inside p = false ∧ reports p = [] ∧ fatal p = false ∧ stopped p = false
  | OutcomeFailed => fatal p = true ∧ stopped p = false
  | OutcomeCancelled => fatal p = false ∧ stopped p = true
  end.

(** *** One step *)

Lemma calls_stay {A} p (q : P A) :
  calls_only (λ c, may_step p c ∧ ∀ r, stepped p c r = p) q → follows stepping p q (λ _ p', p' = p).
Proof.
  induction q as [a|c k IH]; intros Hq; [done|]. destruct Hq as [[Hc Hs] Hk].
  split; [done|]. intros r. cbn [moves stepping]. rewrite Hs. by apply IH.
Qed.

(** The request a run step is executed for *)
Definition given (a : option string) : RunRequest :=
  mkRunRequest (req_namespace req) (req_method req) (req_steps req) (with_app a) (req_workdir req) (req_pid req).

Lemma timeout_follows i s a timeout :
  req_steps req !! i = Some s → work s a (StepContext (Resolve_over timeout osArch)) →
  follows stepping (during i a None) (withTimeout (Resolve_over timeout osArch)) (λ _ p, p = during i a None).
Proof.
  intros Hs Hw. apply calls_stay. unfold withTimeout. in_step. split; [|done]. split_and!; try done. by exists s.
Qed.

Lemma surface_follows i b command elevated timeout ui a :
  req_steps req !! i = Some (RunStep b command elevated timeout ui) →
  follows stepping (during i a None) (openSurface true (given a) ui) (λ _ p, p = during i a None).
Proof.
  intros Hs. apply calls_stay. unfold openSurface. destruct ui as [ui|]; [|done]. apply calls_only_bind_ok.
  - unfold surfaceFor, resolveStatic. in_step; (split; [|done]); (split_and!; [done..|]);
      eexists; (split; [exact Hs|]); split_and!; try done; [by left|by right].
  - intros s. split; [|done]. split; [|done]. split_and!; [done..|]. by eexists.
Qed.

Lemma process_follows i b command elevated timeout ui a :
  req_steps req !! i = Some (RunStep b command elevated timeout ui) →
  (contains (Resolve_over command osArch) app_ref = true → is_Some a) →
  follows stepping (during i a None) (run_process true (req_workdir req) (expanded a (Resolve_over command osArch)))
    (λ r p, ∃ v, p = during i a v ∧ match r with Ok _ => v = Some true | Err _ => v ≠ Some true end).
Proof.
  intros Hs Ha. unfold run_process. assert (∀ c, work (RunStep b command elevated timeout ui) a c →
    ∃ s, req_steps req !! i = Some s ∧ true = true ∧ (None : option bool) = None ∧ work s a c) as Hw by (intros c Hc; by eexists).
  apply (follows_ask_bind _ _ (ProcStart _ _)); [split_and!; [done..|apply Hw; by split_and!]|]. intros [pid|why].
  2: { apply follows_ret. by exists (Some false). }
  apply (follows_ask_bind _ _ (EmitEvent _)); [split_and!; [done..|by eexists]|]. intros [].
  apply (follows_ask_bind _ _ ProcWait); [split_and!; [done..|by apply Hw]|]. intros [why|].
  { apply follows_ret. by exists (Some false). }
  apply (follows_ask_bind _ _ ProcExitCode); [split_and!; [done..|by apply Hw]|]. intros code.
  apply follows_ret. exists (Some (Z.eqb code 0)). split; [done|]. by destruct (Z.eqb code 0).
Qed.

Definition done_with (i : nat) (r : result step_error unit) (p : progress) : Prop :=
  ∃ a v, p = during i a v ∧ match r with Ok _ => v = Some true | Err _ => v ≠ Some true end.

Lemma run_handler_follows i b command elevated timeout ui a :
  req_steps req !! i = Some (RunStep b command elevated timeout ui) →
  (contains (Resolve_over command osArch) app_ref = true → is_Some a) →
  follows stepping (during i a None) (run_Execute osArch true (given a) command timeout ui) (done_with i).
Proof.
  intros Hs Ha. unfold run_Execute. destruct (is_empty _); [by exists a, None|].
  apply follows_bind_ok. eapply follows_mono; [by eapply timeout_follows|]. cbn beta.
  intros [u|e] p ->; [|by exists a, None].
  apply follows_bind_ok. eapply follows_mono; [by eapply surface_follows|]. cbn beta.
  intros [opened|e] p ->; [|by exists a, None].
  apply follows_deferring. eapply follows_mono; [by eapply process_follows|]. intros r p (v & -> & Hv).
  destruct opened; [|by exists a, v]. split; [split_and!; [done..|by eexists]|]. intros []. by exists a, v.
Qed.

Lemma signal_follows i b sig timeout :
  req_steps req !! i = Some (SignalStep b sig timeout) →
  follows stepping (during i None None) (signal_Execute osArch req sig timeout) (done_with i).
Proof.
  intros Hs. unfold signal_Execute.
  apply follows_bind_ok. eapply follows_mono; [by eapply timeout_follows|]. cbn beta.
  intros [u|e] p ->; [|by exists None, None]. destruct (Z.leb _ _); [by exists None, None|].
  destruct (signal_of _) as [os_sig|] eqn:Hsig; [|by exists None, None].
  apply (follows_ask_bind _ _ (KillGroup _ _)); [split_and!; [done..|by eexists]|].
  intros [why|]; apply follows_ret; [by exists None, (Some false)|by exists None, (Some true)].
Qed.

Lemma handler_follows i s :
  req_steps req !! i = Some s → work s None (RunHandler s) →
  follows stepping (during i None None)
    (failed ← (ask (RunHandler s) : P (option (string * bool)));
     mret (match failed with None => Ok () | Some (text, checksum) => Err (ErrOf text checksum) end)) (done_with i).
Proof.
  intros Hs Hw. apply (follows_ask_bind _ _ (RunHandler _)); [split_and!; [done..|by eexists]|].
  intros [[text checksum]|]; apply follows_ret; [by exists None, (Some false)|by exists None, (Some true)].
Qed.

(** What a step that is not exposed leaves *)
Lemma executeStep_follows i s :
  req_steps req !! i = Some s → leadingExposeSteps [s] = [] →
  follows stepping (during i None None) (executeStep osArch true req s)
    (λ r p, ∃ a v, p = during i a v ∧
      match r with Ok u => may_complete s (during i a v) "" | Err _ => v ≠ Some true end).
Proof.
  intros Hs He.
  assert (∀ r p, done_with i r p → (∀ a v, v = Some true → may_complete s (during i a v) "") →
    ∃ a v, p = during i a v ∧ match r with Ok u => may_complete s (during i a v) "" | Err _ => v ≠ Some true end) as Hdone.
  { intros r p (a & v & -> & Hv) Hok. exists a, v. split; [done|]. destruct r; [by apply Hok|done]. }
  destruct s as [b command elevated timeout ui| | | |b sig timeout| | |]; try done.
  - unfold executeStep, provisionApp. destruct (contains _ _) eqn:Hc.
    + apply follows_bind_ok, (follows_ask_bind _ _ (AppEntry _)); [split_and!; [done..|by eexists]|].
      intros [a|why]; apply follows_ret; [|by exists None, None].
      eapply follows_mono; [apply (run_handler_follows i b command elevated timeout ui (Some a) Hs); by eexists|].
      intros r p Hr. by apply Hdone.
    + apply follows_bind_ok, follows_ret.
      assert (given None = req) as Hreq by (unfold given, with_app; by destruct req).
      pose proof (run_handler_follows i b command elevated timeout ui None Hs) as Hrun. rewrite Hreq in Hrun.
      eapply follows_mono; [apply Hrun; by rewrite Hc|].
      intros r p Hr. by apply Hdone.
  - eapply follows_mono; [by apply handler_follows|]. intros r p Hr. by apply Hdone.
  - eapply follows_mono; [by apply handler_follows|]. intros r p Hr. by apply Hdone.
  - eapply follows_mono; [by apply handler_follows|]. intros r p Hr. by apply Hdone.
  - eapply follows_mono; [by eapply signal_follows|]. intros r p Hr. by apply Hdone.
  - apply follows_ret. by exists None, None.
  - eapply follows_mono; [by apply handler_follows|]. intros r p Hr. by apply Hdone.
Qed.
End stepping.

Lemma collect_slots batch : length (slots (collect batch)) = length batch.
Proof.
  assert (∀ c, length (slots (foldl collect_one c batch)) = length (slots c) + length batch) as Hc; [|apply Hc].
  induction batch as [|s batch IH]; intros c; cbn [foldl length]; [lia|]. rewrite IH.
  unfold collect_one. repeat case_match; cbn [slots]; rewrite length_app; cbn; lia.
Qed.

Lemma leading_expose steps : ∀ k, k < length (leadingExposeSteps steps) →
  ∃ s, steps !! k = Some s ∧ leadingExposeSteps [s] ≠ [].
Proof.
  induction steps as [|s steps IH]; intros k Hk; [cbn in Hk; lia|].
  destruct s; cbn in Hk; try lia. destruct k as [|k]; [by eexists|]. apply IH. lia.
Qed.

Lemma leading_length steps : length (leadingExposeSteps steps) ≤ length steps.
Proof. induction steps as [|[] steps IH]; cbn; lia. Qed.

Lemma drop_lookup {A} (l : list A) i x rest : drop i l = x :: rest → l !! i = Some x ∧ drop (S i) l = rest.
Proof.
  intros Hd. assert (l !! i = Some x) as Hx by (by rewrite <- (Nat.add_0_r i), <- lookup_drop, Hd).
  split; [done|]. rewrite (drop_S _ x i Hx) in Hd. by injection Hd.
Qed.

Section ordered.
Context (osArch : string) (req : RunRequest).

(** The results of a batch, each reported for its step *)
Lemma report_exposed_follows results : ∀ i l,
  (∀ k, k < length results → ∃ s, req_steps req !! (i + k) = Some s ∧ leadingExposeSteps [s] ≠ []) →
  follows (stepping osArch req) (at_step i l results) (report_exposed true i results)
    (λ _ p, ∃ l', p = at_step (i + length results) l' []).
Proof.
  induction results as [|[err note] results IH]; intros i l Hall; cbn [report_exposed length].
  { rewrite Nat.add_0_r. by exists l. }
  destruct (Hall 0 ltac:(cbn; lia)) as (s & Hs & Hexp). rewrite Nat.add_0_r in Hs. cbn [emit].
  assert (follows (stepping osArch req) (at_step (S i) false results) (report_exposed true (S i) results)
    (λ _ p, ∃ l', p = at_step (i + S (length results)) l' [])) as Hrest.
  { rewrite <- Nat.add_succ_comm. apply IH. intros k Hk. rewrite Nat.add_succ_comm. apply Hall. cbn. lia. }
  destruct s; try done.
  apply (follows_ask_bind _ _ (EmitEvent _)).
  { split_and!; [done..|]. by eexists. }
  intros []. apply (follows_ask_bind _ _ (EmitEvent _)).
  { split_and!; [done..|]. eexists. split; [exact Hs|]. destruct err as [e|]; split_and!; try done. by exists e, note. }
  intros []. destruct err as [e|]; cbn [moves stepping stepped step_event EventKindOf]; [|exact Hrest].
  cbn [at_step next]. rewrite Hs. exact Hrest.
Qed.

Lemma expose_follows i rest :
  drop i (req_steps req) = rest → leadingExposeSteps rest ≠ [] →
  follows (stepping osArch req) (at_step i true []) (expose true req i (leadingExposeSteps rest))
    (λ _ p, ∃ l, p = at_step (i + length (leadingExposeSteps rest)) l []).
Proof.
  intros Hdrop Hne. assert (batch_at req i = leadingExposeSteps rest) as Hb by (unfold batch_at; by rewrite Hdrop).
  unfold expose. apply (follows_ask_bind _ _ (ShelfApply _ _ _ _)).
  { split; [done|]. split; [done|]. cbn [at_step next]. rewrite Hb. by split_and!. }
  intros [a err]. cbn [moves stepping stepped at_step next]. rewrite Hb.
  eapply follows_mono; [apply report_exposed_follows|].
  - intros k Hk. rewrite length_map, collect_slots in Hk. rewrite <- lookup_drop, Hdrop. by apply leading_expose.
  - cbn beta. intros [] p [l ->]. rewrite length_map, collect_slots. by exists l.
Qed.

Lemma runSteps_from_follows rest : ∀ skip i l,
  drop i (req_steps req) = rest → i ≤ length (req_steps req) → skip ≤ length rest →
  follows (stepping osArch req) (at_step (i + skip) l []) (runSteps_from osArch true req skip i rest) (told req).
Proof.
  induction rest as [|s rest IH]; intros skip i l Hdrop Hi Hskip; cbn [runSteps_from].
  - assert (length (drop i (req_steps req)) = 0) as Hlen by (by rewrite Hdrop). rewrite length_drop in Hlen.
    cbn [length] in Hskip. assert (i + skip = length (req_steps req)) as -> by lia.
    apply (follows_ask_bind _ _ CtxEnded); [done|]. by intros [|].
  - destruct (drop_lookup _ _ _ _ Hdrop) as [Hs Hdrop'].
    pose proof (lookup_lt_Some _ _ _ Hs) as Hlt. cbn [length] in Hskip.
    destruct skip as [|skip]; [|rewrite <- Nat.add_succ_comm; apply IH; [done|lia|lia]].
    rewrite Nat.add_0_r. apply (follows_ask_bind _ _ CtxEnded); [done|]. intros [|]; [done|].
    change (moves (stepping osArch req) (at_step i l []) CtxEnded false) with (at_step i true []).
    destruct (leadingExposeSteps (s :: rest)) as [|e batch] eqn:Hlead.
    + assert (leadingExposeSteps [s] = []) as Hs' by (by destruct s).
      assert (∀ l, follows (stepping osArch req) (at_step (S i) l []) (runSteps_from osArch true req 0 (S i) rest) (told req)) as Hrest.
      { intros l'. specialize (IH 0 (S i) l'). rewrite Nat.add_0_r in IH. apply IH; [done|lia|lia]. }
      apply (follows_ask_bind _ _ (EmitEvent _)).
      { split_and!; [done..|]. exists s. split; [done|]. split_and!; try done. by destruct s. }
      intros []. change (moves (stepping osArch req) (at_step i true []) (EmitEvent (step_event EventKindStepStarted i None "")) ())
        with (during i None None).
      apply follows_bind. eapply follows_mono; [by apply executeStep_follows|].
      intros r p (a & v & -> & Hr). destruct r as [u|err].
      * apply (follows_ask_bind _ _ (EmitEvent _)); [|intros []; apply Hrest].
        split_and!; [done..|]. by exists s.
      * apply (follows_ask_bind _ _ CtxEnded); [done|]. intros [|]; [done|].
        apply (follows_ask_bind _ _ (EmitEvent _)).
        { split_and!; [done..|]. exists s. split; [done|]. split_and!; try done. by destruct s. }
        intros []. cbn [moves stepping stepped step_event EventKindOf next during]. rewrite Hs.
        cbn [fmap option_fmap option_map default]. assert (ends_the_run s = ExitOnFailure s) as -> by (by destruct s).
        destruct (ExitOnFailure s); [done|apply Hrest].
    + apply follows_bind. rewrite <- Hlead.
      eapply follows_mono; [apply expose_follows; [done|by rewrite Hlead]|].
      cbn beta. intros [] p [l' ->]. rewrite Hlead. cbn [length]. rewrite <- Nat.add_succ_comm. apply IH; [done|lia|].
      pose proof (leading_length (s :: rest)) as Hle. rewrite Hlead in Hle. cbn in Hle. lia.
Qed.
End ordered.


(** ** Concrete runs *)

Definition quiet_step : Step := DependenciesStep (mkBasicStep "wait" true).
Definition shell_step (exit : bool) : Step :=
  RunStep (mkBasicStep "serve" exit) (flat "serve") (flat false) (flat "") None.

Definition request_of (steps : list Step) : RunRequest := mkRunRequest "a" "_execute" steps ∅ "/srv" 0.

(** The context lasts, and every process ends with [code]. *)
Definition answers (code : Z) (c : call) (n : nat) : option (answer c) :=
  match c with
  | CtxEnded => Some false
  | EmitEvent _ => Some tt
  | ProcStart _ _ => Some (Ok 42%Z)
  | ProcWait => Some None
  | ProcExitCode => Some code
  | _ => None
  end.


(** The channel of an execution whose events nobody reads *)
Fixpoint unread (e : ExecutionImpl) (l : list (Prog.event answer)) : ExecutionImpl :=
  match l with
  | [] => e
  | existT c _ :: l' =>
    unread (match c with EmitEvent ev => default e (Emit e ev) | _ => e end) l'
  end.

Definition is_pid (ev : Event) : bool :=
  match EventKindOf ev with EventKindPID => true | _ => false end.

Definition sends_pid (e : Prog.event answer) : bool :=
  let '(existT c _) := e in match c with EmitEvent ev => is_pid ev | _ => false end.

(** Eight steps done before the reader looks fill the channel, and the pid of the process
    that starts next is sent and dropped. *)
Lemma pid_lost :
  ∃ l, trace (runSteps "linux/amd64" true (request_of (replicate 8 quiet_step ++ [shell_step true]))) l OutcomeSuccess ∧
    existsb sends_pid l = true ∧ existsb is_pid (events (unread NewExecution l)) = false.
Proof.
  assert (match run (answers 0) 0 (runSteps "linux/amd64" true (request_of (replicate 8 quiet_step ++ [shell_step true]))) with
          | Some (l, OutcomeSuccess) => existsb sends_pid l && negb (existsb is_pid (events (unread NewExecution l)))
          | _ => false
          end = true) as Hb by (vm_compute; reflexivity).
  destruct (run _ _ _) as [[l []]|] eqn:Hrun; try done.
  exists l. apply andb_prop in Hb as [Hs Hn]. split; [by eapply trace_run|]. split; [done|]. by apply negb_true_iff in Hn.
Qed.
