(* ===== verification/WizardRuns.v ===== *)
(** * The wizard's goroutines, interleaved

    Any number of the programs of [Wizard] run at once: executions begun by [Start], probes,
    shutdowns, and the readers of the executions' events.  A step is one call of one of them.
    The wizard's own state, the flag of the shutdown and the count of its group, answers the
    calls that are on it; anything answers the others.  Each goroutine carries whether it
    holds a slot of the group and whether it has a channel to finish, which the code does
    not have; each execution remembers what was emitted and what was read. *)

From S2P Require Import Prelude GoStrings Domain Steps Runtime RuntimeDrain Wizard Prog.

(** ** The state *)

Record wizard := mkWizard {
  shutting : bool;
  wg : nat;
}.

(** What the wizard itself answers, and the state it leaves *)
Definition serve (w : wizard) (c : call) : answer c → wizard → Prop :=
  match c with
  | GoExecution counted _ => λ admitted w',
      admitted = negb (shutting w) ∧
      w' = if negb (shutting w) && counted then mkWizard false (S (wg w)) else w
  | EnterProbe => λ entered w',
      entered = negb (shutting w) ∧ w' = if shutting w then w else mkWizard false (S (wg w))
  | LeaveSlot => λ _ w', w' = mkWizard (shutting w) (pred (wg w))
  | BeginShutdown => λ _ w', w' = mkWizard true (wg w)
  | WaitDone => λ ended w', w' = w ∧ (ended = true → shutting w = true ∧ wg w = 0)
  | _ => λ _ w', w' = w
  end.

(** An execution, with what was emitted and what its reader took *)
Record started_run := mkStartedRun {
  chan : ExecutionImpl;
  emitted : list Event;
  taken : list Event;
}.

(** What a read leaves in the channel *)
Definition read_from (e : ExecutionImpl) (rest : list Event) : ExecutionImpl :=
  mkExecutionImpl rest (events_closed e) (done_closed e) (outcome e).

Definition new_run : started_run := mkStartedRun NewExecution [] [].

(** What a call does to the execution it is made for; [None] is a panic. *)
Definition on_channel (x : started_run) (c : call) : option started_run :=
  match c with
  | EmitEvent ev => (λ ch, mkStartedRun ch (emitted x ++ [ev]) (taken x)) <$> Emit (chan x) ev
  | SetOutcome o => Some (mkStartedRun (set_outcome (chan x) o) (emitted x) (taken x))
  | CloseEvents => (λ ch, mkStartedRun ch (emitted x) (taken x)) <$> close_events (chan x)
  | CloseDone => (λ ch, mkStartedRun ch (emitted x) (taken x)) <$> close_done (chan x)
  | _ => Some x
  end.

(** The same where its execution is kept; one that has none touches no channel. *)
Definition on_runs (runs : gmap nat started_run) (id : nat) (c : call) : option (gmap nat started_run) :=
  match runs !! id with
  | Some x => x' ← on_channel x c; Some (<[id := x']> runs)
  | None => Some runs
  end.

(** ** Goroutines *)

(** How far a goroutine that owns an execution is with its end *)
Inductive ending := NotMine | Going | OutcomeSet | EventsClosed.

#[export] Instance ending_eq_dec : EqDecision ending.
Proof. solve_decision. Defined.

(** Whether it holds a slot, and the execution that is its own to finish *)
Record place := mkPlace { slot_held : bool; owner : ending }.

(** The outcome is set before a channel is closed, and the channel of the events first. *)
Definition may_call (p : place) (c : call) : Prop :=
  match c with
  | EmitEvent _ => owner p = Going ∨ owner p = OutcomeSet
  | SetOutcome _ => owner p = Going
  | CloseEvents => owner p = OutcomeSet
  | CloseDone => owner p = EventsClosed
  | GoExecution _ _ => owner p = Going ∧ slot_held p = false
  | EnterProbe => slot_held p = false
  | LeaveSlot => slot_held p = true
  | _ => True
  end.

Definition called (p : place) (c : call) : answer c → place :=
  match c with
  | SetOutcome _ => λ _, mkPlace (slot_held p) OutcomeSet
  | CloseEvents => λ _, mkPlace (slot_held p) EventsClosed
  | CloseDone => λ _, mkPlace (slot_held p) NotMine
  | GoExecution _ _ => λ admitted : bool, mkPlace (slot_held p) (if admitted then NotMine else owner p)
  | EnterProbe => λ entered : bool, mkPlace entered (owner p)
  | LeaveSlot => λ _, mkPlace false (owner p)
  | _ => λ _, p
  end.

Definition slots : protocol answer place := mkProtocol may_call called.

Definition at_end (p : place) : Prop := p = mkPlace false NotMine.

(** The calls that touch neither *)
Definition plain (c : call) : Prop :=
  match c with
  | EmitEvent _ | SetOutcome _ | CloseEvents | CloseDone | GoExecution _ _ | EnterProbe | LeaveSlot => False
  | _ => True
  end.

(** Those of a run of steps, which emits *)
Definition running (c : call) : Prop :=
  match c with EmitEvent _ => True | c => plain c end.

Lemma within_running c : within true c → running c.
Proof. by destruct c. Qed.

Lemma within_plain c : within false c → plain c.
Proof. destruct c; try done. by intros []. Qed.

Lemma calls_only_weaken {A} (ok ok' : call → Prop) (p : P A) :
  (∀ c, ok c → ok' c) → calls_only ok p → calls_only ok' p.
Proof. intros Hok. induction p as [a|c k IH]; [done|]. intros [Hc Hk]. split; [by apply Hok|]. intros r. by apply IH. Qed.

Lemma report_running b results : ∀ i, calls_only running (report_exposed b i results).
Proof.
  induction results as [|[err note] results IH]; intros i; cbn [report_exposed]; [done|].
  apply calls_only_bind; [unfold emit; by destruct b|intros _].
  apply calls_only_bind; [unfold emit; by destruct b|intros _]. apply IH.
Qed.

Lemma runSteps_running osArch req steps : ∀ skip i, calls_only running (runSteps_from osArch true req skip i steps).
Proof.
  induction steps as [|s steps IH]; intros skip i; cbn [runSteps_from]; [by split; [|intros []]|].
  destruct skip as [|skip]; [|apply IH]. split; [done|]. intros [|]; [done|].
  destruct (leadingExposeSteps _) as [|e batch].
  - split; [done|]. intros []. apply calls_only_bind.
    { eapply calls_only_weaken; [exact within_running|apply executeStep_within]. }
    intros [u|err]; [split; [done|intros []; apply IH]|].
    split; [done|]. intros [|]; [done|]. split; [done|]. intros []. destruct (ExitOnFailure s); [done|apply IH].
  - apply calls_only_bind; [|intros _; apply IH]. split; [done|]. intros [a err]. apply report_running.
Qed.

(** A probe's steps emit nothing. *)
Lemma probe_plain osArch req steps : ∀ i, calls_only plain (probe_steps osArch req i steps).
Proof.
  induction steps as [|s steps IH]; intros i; cbn [probe_steps]; [done|].
  split; [done|]. intros [|]; [done|]. apply calls_only_bind; [|intros [u|e]; [apply IH|done]].
  eapply calls_only_weaken; [exact within_plain|apply executeStep_within].
Qed.

(** A program that touches neither stays where it is. *)
Lemma plain_follows p {A} (q : P A) : calls_only plain q → follows slots p q (λ _ p', p' = p).
Proof.
  induction q as [a|c k IH]; intros Hq; [done|]. destruct Hq as [Hc Hk].
  split; [by destruct c|]. intros r. replace (moves slots p c r) with p by (by destruct c). by apply IH.
Qed.

Lemma running_follows b {A} (q : P A) :
  calls_only running q → follows slots (mkPlace b Going) q (λ _ p', p' = mkPlace b Going).
Proof.
  induction q as [a|c k IH]; intros Hq; [done|]. destruct Hq as [Hc Hk].
  split; [destruct c; try done; by left|]. intros r. replace (moves slots (mkPlace b Going) c r) with (mkPlace b Going) by (by destruct c).
  by apply IH.
Qed.

(** *** Each program ends with nothing held. *)

Lemma Finish_follows b o : follows slots (mkPlace b Going) (Finish o) (λ _ p, p = mkPlace b NotMine).
Proof.
  unfold Finish. apply (follows_ask_bind _ _ (SetOutcome _)); [done|]. intros [].
  apply (follows_ask_bind _ _ (EmitEvent _)); [by right|]. intros [].
  apply (follows_ask_bind _ _ CloseEvents); [done|]. intros []. split; [done|]. by intros [].
Qed.

Lemma execution_follows osArch counted req :
  follows slots (mkPlace counted Going) (execution osArch counted req) (λ _, at_end).
Proof.
  unfold execution. apply follows_deferring, follows_bind.
  eapply follows_mono; [apply running_follows, runSteps_running|]. cbn beta. intros o p ->.
  eapply follows_mono; [apply Finish_follows|]. cbn beta. intros [] p ->.
  destruct counted; [|done]. by split.
Qed.

Lemma Start_follows req : follows slots (mkPlace false Going) (wizard_Start req) (λ _, at_end).
Proof.
  unfold wizard_Start. apply (follows_ask_bind _ _ (GoExecution _ _)); [done|]. intros [|]; [done|].
  eapply follows_mono; [apply Finish_follows|done].
Qed.

Lemma Probe_follows osArch req : follows slots (mkPlace false NotMine) (Probe osArch req) (λ _, at_end).
Proof.
  unfold Probe. destruct (negb _); [done|]. apply (follows_ask_bind _ _ EnterProbe); [done|]. intros [|]; [|done].
  cbn [negb]. apply follows_deferring. eapply follows_mono.
  - apply plain_follows. destruct (is_empty _); [|apply probe_plain].
    split; [done|]. intros [dir|why]; [|done]. apply calls_only_bind; [apply probe_plain|by intros].
  - cbn beta. intros r p ->. by split.
Qed.

Lemma wizard_Shutdown_follows : follows slots (mkPlace false NotMine) wizard_Shutdown (λ _, at_end).
Proof. by apply plain_follows. Qed.

(** ** The machine *)

(** [mine] is the execution a goroutine calls for. *)
Record thread := mkThread { here : place; mine : nat; code : P unit }.

Record config := mkConfig {
  wiz : wizard;
  runs_ : gmap nat started_run;
  threads : list thread;
}.

Definition start_config : config := mkConfig (mkWizard false 0) ∅ [].

Definition unit_of {A} (p : P A) : P unit := _ ← p; mret ().

Section machine.
Context (osArch : string).

(** An admitted [Start] leaves its execution to a goroutine. *)
Definition spawned (id : nat) (c : call) : answer c → list thread :=
  match c with
  | GoExecution counted req => λ admitted : bool,
      if admitted then [mkThread (mkPlace counted Going) id (execution osArch counted req)] else []
  | _ => λ _, []
  end.

Inductive wstep (c : config) : config → Prop :=
| wstep_start id req :
    runs_ c !! id = None →
    wstep c (mkConfig (wiz c) (<[id := new_run]> (runs_ c))
      (threads c ++ [mkThread (mkPlace false Going) id (wizard_Start req)]))
| wstep_probe id req :
    wstep c (mkConfig (wiz c) (runs_ c)
      (threads c ++ [mkThread (mkPlace false NotMine) id (unit_of (Probe osArch req))]))
| wstep_shutdown id :
    wstep c (mkConfig (wiz c) (runs_ c)
      (threads c ++ [mkThread (mkPlace false NotMine) id (unit_of wizard_Shutdown)]))
| wstep_call i t (ca : call) (k : answer ca → P unit) r w' runs' :
    threads c !! i = Some t → code t = Call ca k → serve (wiz c) ca r w' →
    on_runs (runs_ c) (mine t) ca = Some runs' →
    wstep c (mkConfig w' runs'
      (<[i := mkThread (called (here t) ca r) (mine t) (k r)]> (threads c) ++ spawned (mine t) ca r))
| wstep_read id x ev rest :
    runs_ c !! id = Some x → events (chan x) = ev :: rest →
    wstep c (mkConfig (wiz c)
      (<[id := mkStartedRun (read_from (chan x) rest) (emitted x) (taken x ++ [ev])]> (runs_ c))
      (threads c)).

Definition reachable : config → Prop := rtc wstep start_config.

(** ** The invariant *)

Definition counted (t : thread) : nat := if slot_held (here t) then 1 else 0.
Definition held (ts : list thread) : nat := sum_list_with counted ts.

(** What an execution's channel may have lost *)
Definition run_ok (x : started_run) : Prop :=
  (taken x ++ events (chan x)) `sublist_of` emitted x ∧
  length (events (chan x)) ≤ eventBuffer ∧
  (length (emitted x) ≤ eventBuffer → taken x ++ events (chan x) = emitted x) ∧
  (events_closed (chan x) = true → is_Some (outcome (chan x))) ∧
  (done_closed (chan x) = true → events_closed (chan x) = true).

(** How far the end of an execution is *)
Definition stage_of (e : ExecutionImpl) : option ending :=
  match outcome e, events_closed e, done_closed e with
  | None, false, false => Some Going
  | Some _, false, false => Some OutcomeSet
  | Some _, true, false => Some EventsClosed
  | Some _, true, true => Some NotMine
  | _, _, _ => None
  end.

Definition config_ok (c : config) : Prop :=
  Forall (λ t, follows slots (here t) (code t) (λ _, at_end)) (threads c) ∧
  wg (wiz c) = held (threads c) ∧
  map_Forall (λ _, run_ok) (runs_ c) ∧
  (∀ i t, threads c !! i = Some t → owner (here t) ≠ NotMine →
     ∃ x, runs_ c !! mine t = Some x ∧ stage_of (chan x) = Some (owner (here t))) ∧
  (∀ i j t t', threads c !! i = Some t → threads c !! j = Some t' →
     owner (here t) ≠ NotMine → owner (here t') ≠ NotMine → mine t = mine t' → i = j).

Lemma run_ok_offer x ev :
  run_ok x → run_ok (mkStartedRun (mkExecutionImpl (offer_event (chan x) ev) (events_closed (chan x)) (done_closed (chan x))
    (outcome (chan x))) (emitted x ++ [ev]) (taken x)).
Proof.
  intros (Hsub & Hlen & Hall & Hout & Hdone). unfold run_ok, offer_event; cbn [chan events events_closed done_closed outcome emitted taken].
  destruct (Nat.ltb_spec (length (events (chan x))) eventBuffer).
  - split_and!; [| |intros Hfew|done|done].
    + rewrite app_assoc. by apply sublist_app.
    + rewrite length_app. cbn. lia.
    + rewrite app_assoc, Hall; [done|]. rewrite length_app in Hfew. lia.
  - split_and!; [by apply sublist_inserts_r|done| |done|done].
    intros Hfew. rewrite length_app in Hfew. cbn in Hfew.
    pose proof (f_equal length (Hall ltac:(lia))) as Heq. rewrite length_app in Heq. lia.
Qed.

(** What a call of its owner does to an execution: it is done, it keeps the channel as it
    must be, and the owner is then where the execution is. *)
Lemma on_channel_owner x c p r :
  run_ok x → stage_of (chan x) = Some (owner p) → owner p ≠ NotMine → may_call p c →
  ∃ x', on_channel x c = Some x' ∧ run_ok x' ∧
    (owner (called p c r) ≠ NotMine → stage_of (chan x') = Some (owner (called p c r))).
Proof.
  intros Hx Hst Hown Hmay. unfold on_channel, Emit, close_events, close_done.
  destruct x as [[evs ec dc out] em tk]. destruct p as [sh ow]. cbn [chan owner] in *.
  destruct c; cbn [may_call called owner slot_held] in *; cbn [events_closed done_closed];
    try (by eexists).
  - assert (ec = false) as ->.
    { destruct Hmay as [-> | ->], out, ec, dc; done. }
    eexists. split; [reflexivity|]. split; [exact (run_ok_offer _ ev Hx)|]. intros _. exact Hst.
  - subst ow. destruct out, ec, dc; try done. eexists. split; [reflexivity|]. split; [|done].
    destruct Hx as (? & ? & ? & _ & _). by split_and!.
  - subst ow. destruct out as [o|], ec, dc; try done. eexists. split; [reflexivity|]. split; [|done].
    destruct Hx as (? & ? & ? & _ & _). split_and!; try done; by intros _; eexists.
  - subst ow. destruct out as [o|], ec, dc; try done. eexists. split; [reflexivity|]. split; [|done].
    destruct Hx as (? & ? & ? & _ & _). split_and!; try done; by intros _; eexists.
  - destruct Hmay as [-> ->]. eexists. split; [reflexivity|]. split; [done|]. by destruct r.
Qed.

(** A call of another leaves it. *)
Lemma on_channel_other x c p r :
  owner p = NotMine → may_call p c → on_channel x c = Some x ∧ owner (called p c r) = NotMine.
Proof.
  destruct p as [sh ow]. cbn. intros -> Hmay. destruct c; cbn in *; try done; try (by destruct Hmay).
Qed.

(** The group's count after a call *)
Lemma called_slots p w ca r w' id k :
  serve w ca r w' → may_call p ca → counted (mkThread p id k) ≤ wg w →
  wg w' + counted (mkThread p id k) = wg w + counted (mkThread (called p ca r) id k) + held (spawned id ca r).
Proof.
  unfold counted, held. intros Hs Ha Hle. destruct ca; cbn in *; destruct_and?; subst;
    repeat case_match; subst; cbn in *; simplify_eq; try done; try lia.
  all: rewrite ?andb_false_iff, ?andb_true_iff in *; destruct_and?; destruct_or?; subst; cbn in *; simplify_eq; try lia.
Qed.

Lemma execution_spawned id ca r :
  Forall (λ t, follows slots (here t) (code t) (λ _, at_end)) (spawned id ca r).
Proof.
  destruct ca; try by constructor. destruct r; [|by constructor]. constructor; [apply execution_follows|by constructor].
Qed.

(** The owner of an execution after a call was its owner before, or is the goroutine that
    the owner's call began. *)
Lemma owner_origin ts i t ca r (k : P unit) j t' :
  ts !! i = Some t → may_call (here t) ca →
  (<[i := mkThread (called (here t) ca r) (mine t) k]> ts ++ spawned (mine t) ca r) !! j = Some t' →
  owner (here t') ≠ NotMine →
  (j ≠ i ∧ ts !! j = Some t') ∨
  (mine t' = mine t ∧ owner (here t) ≠ NotMine ∧
   (j = i ∧ here t' = called (here t) ca r ∨
    j = length ts ∧ owner (called (here t) ca r) = NotMine ∧ owner (here t) = Going ∧ owner (here t') = Going ∧
      (∃ counted req, ca = GoExecution counted req))).
Proof.
  intros Hi Hmay Hj Ho. apply lookup_app_Some in Hj as [Hj|[Hlen Hj]].
  - destruct (decide (i = j)) as [<-|Hne].
    + rewrite list_lookup_insert_eq in Hj by (by eapply lookup_lt_Some). injection Hj as <-. cbn in Ho.
      right. split_and!; [done| |by left]. intros Hn. by destruct (on_channel_other new_run _ _ r Hn Hmay) as [_ ?].
    + rewrite list_lookup_insert_ne in Hj by done. by left.
  - rewrite length_insert in *. destruct ca; cbn in Hj; try done. destruct r; [|done].
    apply list_lookup_singleton_Some in Hj as [Hz <-]. cbn in Ho, Hmay. destruct Hmay as [Hown _].
    right. cbn [mine here]. split_and!; [done|congruence|]. right. split_and!; [lia|done..|by eexists _, _].
Qed.

(** The calls of a goroutine leave every execution as it must be, those of others as they
    were, and its own at the owner's place. *)
Lemma on_runs_call runs id p c r :
  map_Forall (λ _, run_ok) runs → may_call p c →
  (owner p ≠ NotMine → ∃ x, runs !! id = Some x ∧ stage_of (chan x) = Some (owner p)) →
  ∃ runs', on_runs runs id c = Some runs' ∧ map_Forall (λ _, run_ok) runs' ∧
    (∀ id', id' ≠ id ∨ owner p = NotMine → runs' !! id' = runs !! id') ∧
    (owner p ≠ NotMine → ∃ x, runs' !! id = Some x ∧
      (owner (called p c r) ≠ NotMine → stage_of (chan x) = Some (owner (called p c r)))).
Proof.
  intros Hok Hmay Hmine. unfold on_runs. destruct (decide (owner p = NotMine)) as [Hn|Hown].
  - exists runs. split_and!; [|done..]. destruct (runs !! id) as [x|] eqn:Hx; [|done].
    destruct (on_channel_other x c p r Hn Hmay) as [-> _]. cbn. by rewrite insert_id.
  - destruct (Hmine Hown) as (x & Hx & Hst). rewrite Hx.
    destruct (on_channel_owner x c p r (Hok _ _ Hx) Hst Hown Hmay) as (x' & -> & Hok' & Hst').
    exists (<[id := x']> runs). split_and!; [done|by apply map_Forall_insert_2| |].
    + intros id' [Hne|Hn]; [by rewrite lookup_insert_ne|done].
    + intros _. exists x'. by rewrite lookup_insert_eq.
Qed.

Lemma config_ok_next c i t ca k r w' runs' :
  config_ok c → threads c !! i = Some t → code t = Call ca k → serve (wiz c) ca r w' →
  on_runs (runs_ c) (mine t) ca = Some runs' →
  config_ok (mkConfig w' runs' (<[i := mkThread (called (here t) ca r) (mine t) (k r)]> (threads c) ++ spawned (mine t) ca r)).
Proof.
  intros (Hf & Hwg & Hruns & Howner & Huniq) Ht Hcode Hs Hcall.
  pose proof (proj1 (Forall_lookup _ _) Hf _ _ Ht) as Hft. cbn beta in Hft. rewrite Hcode in Hft. destruct Hft as [Hmay Hk].
  destruct (on_runs_call (runs_ c) (mine t) (here t) ca r Hruns Hmay (Howner _ _ Ht)) as (runs1 & Hcall' & Hruns' & Hothers & Hmine).
  rewrite Hcall in Hcall'. injection Hcall' as <-.
  split_and!; cbn [wiz runs_ threads].
  - apply Forall_app. split; [|apply execution_spawned]. apply Forall_insert; [done|]. apply Hk.
  - pose proof (sum_list_with_insert counted _ _ _ (mkThread (called (here t) ca r) (mine t) (k r)) Ht) as Hins.
    pose proof (sum_list_with_ge counted _ _ _ Ht) as Hge.
    pose proof (called_slots _ _ _ _ _ (mine t) (k r) Hs Hmay) as Hc.
    unfold held in *. rewrite sum_list_with_app.
    change (counted (mkThread (here t) (mine t) (k r))) with (counted t) in Hc. lia.
  - done.
  - intros j t' Hj Ho. destruct (owner_origin _ _ _ _ _ _ _ _ Ht Hmay Hj Ho) as [[Hne Hj']|(Hm & Hown & Hcase)].
    + destruct (Howner _ _ Hj' Ho) as (x & Hx & Hst). exists x. rewrite Hothers; [done|].
      destruct (decide (owner (here t) = NotMine)) as [Hn|Hown]; [by right|left].
      intros Hm. destruct Hne. by eapply (Huniq j i t' t).
    + rewrite Hm. destruct Hcase as [[-> Hh]|(-> & _ & Hgo & Hgo' & counted & req & ->)].
      * destruct (Hmine Hown) as (x & Hx & Hst). exists x. split; [done|]. rewrite Hh in *. by apply Hst.
      * destruct (Howner _ _ Ht Hown) as (x & Hx & Hst). rewrite Hgo', <- Hgo. exists x. split; [|done].
        unfold on_runs in Hcall. rewrite Hx in Hcall. cbn in Hcall. injection Hcall as <-. by rewrite lookup_insert_eq.
  - intros j1 j2 t1 t2 H1 H2 Ho1 Ho2 Hm.
    destruct (owner_origin _ _ _ _ _ _ _ _ Ht Hmay H1 Ho1) as [[Hn1 H1']|(Hm1 & Hown & Hc1)],
      (owner_origin _ _ _ _ _ _ _ _ Ht Hmay H2 Ho2) as [[Hn2 H2']|(Hm2 & Hown' & Hc2)].
    + by eapply (Huniq j1 j2 t1 t2).
    + destruct Hn1. eapply (Huniq j1 i t1 t); congruence.
    + destruct Hn2. eapply (Huniq j2 i t2 t); congruence.
    + destruct Hc1 as [[-> Hh1]|(-> & Hna & _)], Hc2 as [[-> Hh2]|(-> & Hnb & _)]; congruence.
Qed.

Lemma config_ok_thread c p id q :
  config_ok c → follows slots p q (λ _, at_end) → slot_held p = false → owner p = NotMine →
  config_ok (mkConfig (wiz c) (runs_ c) (threads c ++ [mkThread p id q])).
Proof.
  intros (Hf & Hwg & Hruns & Howner & Huniq) Hq Hslot Hown.
  assert (∀ j t, (threads c ++ [mkThread p id q]) !! j = Some t → owner (here t) ≠ NotMine → threads c !! j = Some t) as Hold.
  { intros j t [Hj|[_ Hj]]%lookup_app_Some Ho; [done|]. apply list_lookup_singleton_Some in Hj as [_ <-]. cbn in Ho. congruence. }
  split_and!; cbn [wiz runs_ threads]; [| |done| |].
  - apply Forall_app. split; [done|]. by constructor.
  - unfold held in *. rewrite sum_list_with_app. cbn. unfold counted at 2; cbn. rewrite Hslot. lia.
  - intros j t Hj Ho. eapply Howner; [by apply Hold|done].
  - intros j1 j2 t1 t2 H1 H2 Ho1 Ho2. eapply Huniq; [by apply Hold..|done|done].
Qed.

Lemma config_ok_start c id req :
  config_ok c → runs_ c !! id = None →
  config_ok (mkConfig (wiz c) (<[id := new_run]> (runs_ c))
    (threads c ++ [mkThread (mkPlace false Going) id (wizard_Start req)])).
Proof.
  intros (Hf & Hwg & Hruns & Howner & Huniq) Hid.
  assert (∀ j t, (threads c ++ [mkThread (mkPlace false Going) id (wizard_Start req)]) !! j = Some t → owner (here t) ≠ NotMine →
    (threads c !! j = Some t ∧ mine t ≠ id) ∨ (j = length (threads c) ∧ mine t = id ∧ here t = mkPlace false Going)) as Hold.
  { intros j t [Hj|[Hle Hj]]%lookup_app_Some Ho.
    - left. split; [done|]. destruct (Howner _ _ Hj Ho) as (x & Hx & _). congruence.
    - apply list_lookup_singleton_Some in Hj as [Hz <-]. right. cbn. split_and!; [lia|done..]. }
  split_and!; cbn [wiz runs_ threads].
  - apply Forall_app. split; [done|]. constructor; [apply Start_follows|done].
  - unfold held in *. rewrite sum_list_with_app. cbn. lia.
  - apply map_Forall_insert_2; [|done]. unfold run_ok, eventBuffer. split_and!; cbn; [done|lia|done..].
  - intros j t Hj Ho. destruct (Hold _ _ Hj Ho) as [[Hj' Hne]|(_ & -> & Hh)].
    + rewrite lookup_insert_ne by done. by eapply Howner.
    + rewrite lookup_insert_eq, Hh. by eexists.
  - intros j1 j2 t1 t2 H1 H2 Ho1 Ho2 Hm.
    destruct (Hold _ _ H1 Ho1) as [[H1' ?]|(-> & ? & _)], (Hold _ _ H2 Ho2) as [[H2' ?]|(-> & ? & _)]; try congruence.
    by eapply (Huniq j1 j2 t1 t2).
Qed.

Lemma config_ok_read c id x ev rest :
  config_ok c → runs_ c !! id = Some x → events (chan x) = ev :: rest →
  config_ok (mkConfig (wiz c)
    (<[id := mkStartedRun (read_from (chan x) rest) (emitted x) (taken x ++ [ev])]> (runs_ c))
    (threads c)).
Proof.
  intros (Hf & Hwg & Hruns & Howner & Huniq) Hx Hev. split_and!; cbn [wiz runs_ threads]; try done.
  - apply map_Forall_insert_2; [|done]. destruct (Hruns _ _ Hx) as (Hsub & Hlen & Hall & Hout & Hdone).
    rewrite Hev in *. unfold run_ok, read_from; cbn [chan events events_closed done_closed outcome emitted taken].
    assert ((taken x ++ [ev]) ++ rest = taken x ++ ev :: rest) as -> by (by rewrite <- app_assoc).
    split_and!; [done|cbn in Hlen; lia|done..].
  - intros j t Hj Ho. destruct (Howner _ _ Hj Ho) as (y & Hy & Hopen). destruct (decide (mine t = id)) as [Heq|Hne].
    + rewrite Heq, lookup_insert_eq. eexists. split; [done|]. simplify_eq. exact Hopen.
    + rewrite lookup_insert_ne by done. by exists y.
Qed.

Lemma wizard_ok c : reachable c → config_ok c.
Proof.
  revert c. apply (rtc_ind_r config_ok start_config).
  - by split_and!.
  - intros c c' _ Hstep Hok. destruct Hstep.
    + by apply config_ok_start.
    + apply config_ok_thread; [done| |done|done]. unfold unit_of. apply follows_bind.
      eapply follows_mono; [apply Probe_follows|done].
    + apply config_ok_thread; [done| |done|done]. unfold unit_of. apply follows_bind.
      eapply follows_mono; [apply wizard_Shutdown_follows|done].
    + by eapply config_ok_next.
    + by apply config_ok_read.
Qed.

(** ** The theorems *)

Lemma outcome_call x c x' o : on_channel x c = Some x' → outcome (chan x) = Some o →
  (∀ o', c ≠ SetOutcome o') → outcome (chan x') = Some o.
Proof.
  unfold on_channel, Emit, close_events, close_done. intros Hc Ho Hne.
  destruct c; try (by injection Hc as <-); try (by destruct (Hne o0));
    repeat (case_match; try done); cbn in Hc; by injection Hc as <-.
Qed.

(** An outcome that is set is never set again. *)
Lemma outcome_step c c' id x o :
  config_ok c → wstep c c' → runs_ c !! id = Some x → outcome (chan x) = Some o →
  ∃ x', runs_ c' !! id = Some x' ∧ outcome (chan x') = Some o.
Proof.
  intros (Hf & _ & Hruns & Howner & _) Hstep Hx Ho.
  destruct Hstep as [id' req Hid'| | |i t ca k r w' runs' Ht Hcode Hs Hcall|id' y ev rest Hy Hev]; cbn [runs_]; try by exists x.
  - exists x. rewrite lookup_insert_ne; [done|]. by intros ->; simplify_eq.
  - pose proof (proj1 (Forall_lookup _ _) Hf _ _ Ht) as Hft. cbn beta in Hft. rewrite Hcode in Hft. destruct Hft as [Hmay _].
    unfold on_runs in Hcall. destruct (decide (id = mine t)) as [->|Hne].
    + rewrite Hx in Hcall. destruct (on_channel x ca) as [x'|] eqn:Hx'; [|done]. injection Hcall as <-.
      exists x'. rewrite lookup_insert_eq. split; [done|]. eapply outcome_call; [done..|].
      intros o' ->. cbn in Hmay. destruct (Howner _ _ Ht) as (y & Hy & Hst); [by rewrite Hmay|].
      simplify_eq. rewrite Hmay in Hst. unfold stage_of in Hst. rewrite Ho in Hst. by repeat case_match.
    + destruct (runs_ c !! mine t) as [y|]; [|injection Hcall as <-; by exists x].
      destruct (on_channel y ca) as [y'|]; [|done]. injection Hcall as <-. exists x. by rewrite lookup_insert_ne.
  - destruct (decide (id = id')) as [->|Hne].
    + simplify_eq. eexists. rewrite lookup_insert_eq. split; [done|]. exact Ho.
    + exists x. by rewrite lookup_insert_ne.
Qed.

(** C37. What the reader of an execution's events takes, and what waits for it, is part of
    what was emitted, each event once and in order; all of it, where no more than sixteen were
    emitted.  Whoever finds the channel of the events closed, and so whoever finds the one
    that tells the end, can read the outcome, and it is final: it is the same from then on.
    This however the executions, the probes, a shutdown and the readers interleave, between
    any two calls of an execution's end too. *)
Theorem events_in_order c c' id x :
  reachable c → runs_ c !! id = Some x → rtc wstep c c' →
  (taken x ++ events (chan x)) `sublist_of` emitted x ∧
  (length (emitted x) ≤ eventBuffer → taken x ++ events (chan x) = emitted x) ∧
  (done_closed (chan x) = true → events_closed (chan x) = true) ∧
  (events_closed (chan x) = true → ∃ o, outcome (chan x) = Some o ∧
     ∃ x', runs_ c' !! id = Some x' ∧ outcome (chan x') = Some o).
Proof.
  intros Hr Hx Hsteps. destruct (wizard_ok c Hr) as (_ & _ & Hruns & _).
  destruct (Hruns _ _ Hx) as (? & _ & ? & Hout & ?). split_and!; [done..|]. intros [o Ho]%Hout.
  exists o. split; [done|]. clear -Hr Hx Hsteps Ho. induction Hsteps as [c|c c1 c2 Hstep _ IH] in x, Hr, Hx, Ho |- *; [by exists x|].
  destruct (outcome_step _ _ _ _ _ (wizard_ok c Hr) Hstep Hx Ho) as (x' & Hx' & Ho').
  eapply IH; [|exact Hx'|exact Ho']. unfold reachable in *. by eapply rtc_r.
Qed.

(** No goroutine sends on a closed channel or closes one twice. *)
Lemma wizard_never_panics c i t ca k :
  reachable c → threads c !! i = Some t → code t = Call ca k → is_Some (on_runs (runs_ c) (mine t) ca).
Proof.
  intros Hr Ht Hcode. destruct (wizard_ok c Hr) as (Hf & _ & Hruns & Howner & _).
  pose proof (proj1 (Forall_lookup _ _) Hf _ _ Ht) as Hft. cbn beta in Hft. rewrite Hcode in Hft. destruct Hft as [Hmay _].
  assert (inhabited (answer ca)) as [r].
  { destruct ca; cbn; try (by repeat constructor); exact (inhabits (mkApplied [] [] [], None)). }
  destruct (on_runs_call (runs_ c) (mine t) (here t) ca r Hruns Hmay (Howner _ _ Ht)) as (runs' & -> & _). done.
Qed.

Lemma shutdown_stays c c' :
  shutting (wiz c) = true → wg (wiz c) = 0 → wstep c c' → shutting (wiz c') = true ∧ wg (wiz c') = 0.
Proof.
  intros Hc Hw Hstep. destruct Hstep as [| | |i t ca k r w' runs' Ht Hcode Hs Hruns|]; try done. cbn [wiz].
  destruct ca; cbn in Hs; rewrite ?Hc in Hs; destruct_and?; subst; cbn; rewrite ?Hc, ?Hw; done.
Qed.

(** What a shutdown waited for is final: once the flag is set and the group is empty, no
    one-shot execution and no probe runs, and none ever will. *)
Lemma wizard_shutdown_is_final c c' :
  reachable c → shutting (wiz c) = true → wg (wiz c) = 0 → rtc wstep c c' →
  Forall (λ t, slot_held (here t) = false) (threads c').
Proof.
  intros Hr Hc Hw Hsteps.
  assert (shutting (wiz c') = true ∧ wg (wiz c') = 0) as [_ Hw'].
  { revert Hsteps. apply (rtc_ind_r (λ c', shutting (wiz c') = true ∧ wg (wiz c') = 0) c); [done|].
    intros c1 c2 _ Hstep [? ?]. by eapply shutdown_stays. }
  destruct (wizard_ok c') as (_ & Hcount & _); [by unfold reachable in *; etrans|].
  apply Forall_lookup. intros i t Hi. pose proof (sum_list_with_ge counted _ _ _ Hi) as Hge.
  assert (counted t = 0) as H0 by (unfold held in *; lia). unfold counted in H0. by destruct (slot_held (here t)).
Qed.
End machine.

(** ** A concrete run *)

Ltac call_of i ca r :=
  eapply rtc_l;
    [ eapply (wstep_call _ _ i _ ca _ r); [reflexivity|reflexivity|cbn; try done|reflexivity] | cbn ].

Lemma events_in_order_witness :
  ∃ c x, (reachable "linux/amd64" c ∧ runs_ c !! 0 = Some x ∧ length (emitted x) = 3 ∧ length (taken x) = 1 ∧
          events_closed (chan x) = true ∧ done_closed (chan x) = false) ∧
    taken x ++ events (chan x) = emitted x.
Proof.
  assert (∃ c x, reachable "linux/amd64" c ∧ runs_ c !! 0 = Some x ∧ length (emitted x) = 3 ∧ length (taken x) = 1 ∧
          events_closed (chan x) = true ∧ done_closed (chan x) = false) as (c & x & Hr & Hx & Hlen & Hread & Hclosed).
  { eexists _, _. split.
    - eapply rtc_l; [apply (wstep_start _ _ 0 (request_of [quiet_step])); reflexivity|]. cbn.
      call_of 0 (GoExecution false (request_of [quiet_step])) true.
      call_of 1 CtxEnded false. call_of 1 (EmitEvent (step_event EventKindStepStarted 0 None "")) tt.
      call_of 1 (EmitEvent (step_event EventKindStepCompleted 0 None "")) tt.
      eapply rtc_l; [eapply (wstep_read _ _ 0); reflexivity|]. cbn.
      call_of 1 CtxEnded false. call_of 1 (SetOutcome OutcomeSuccess) tt. call_of 1 (EmitEvent ended) tt.
      call_of 1 CloseEvents tt. apply rtc_refl.
    - by split_and!. }
  exists c, x. split; [done|]. apply (events_in_order "linux/amd64" c c 0 x Hr Hx (rtc_refl _ _)).
  rewrite Hlen. unfold eventBuffer. lia.
Defined.
