(* ===== verification/WizardProbes.v ===== *)
(** * What a probe's yes means, and what is exposed

    [Probe] runs the steps of a question where it is called and answers with the first that
    fails (internal/engine/wizard/wizard.go); its yes is a decision not to install anything.
    The batch of expose steps that [Plan] appended is gathered back into the block it was
    written from (internal/engine/wizard/internal/step/expose). *)

From S2P Require Import Prelude GoStrings Domain Steps Manifest Runtime RuntimeDrain RuntimeRepo Assembler Prog Wizard.

(** ** The verdicts of a run *)

(** What an answer says of the step that asked, where it decides it *)
Definition verdict (e : Prog.event answer) : option bool :=
  let '(existT c r) := e in
  match c return answer c → option bool with
  | ProcExitCode => λ code : Z, Some (Z.eqb code 0)
  | RunHandler _ | KillGroup _ _ => λ failed, Some (negb (bool_decide (is_Some failed)))
  | _ => λ _, None
  end r.

Definition verdicts : protocol answer (list bool) :=
  mkProtocol (λ _ _, True) (λ h c r, h ++ option_list (verdict (existT c r))).

Lemma after_verdicts l : ∀ h, after verdicts h l = h ++ omap verdict l.
Proof.
  induction l as [|[c r] l IH]; intros h; cbn [after]; [by rewrite app_nil_r|].
  rewrite IH. cbn [moves verdicts]. rewrite <- app_assoc. f_equal.
  change (omap verdict (existT c r :: l)) with (match verdict (existT c r) with Some y => y :: omap verdict l | None => omap verdict l end).
  by destruct (verdict _).
Qed.

(** A call that decides nothing *)
Definition undecided (c : call) : Prop :=
  match c with ProcExitCode | RunHandler _ | KillGroup _ _ => False | _ => True end.

Lemma undecided_follows {A} (p : P A) : ∀ h, calls_only undecided p → follows verdicts h p (λ _ h', h' = h).
Proof.
  induction p as [a|c k IH]; intros h Hp; [done|]. destruct Hp as [Hc Hk]. split; [done|]. intros r.
  replace (moves verdicts h c r) with h; [by apply IH|].
  destruct c; try done; cbn; by rewrite app_nil_r.
Qed.

(** The steps that are decided by one answer *)
Definition decided (s : Step) : bool := match s with DependenciesStep _ => false | _ => true end.

Definition yes_for (s : Step) : list bool := if decided s then [true] else [].

Section probe.
Context (osArch : string).

(** What a successful step adds *)
Definition adds {A E} (h : list bool) (more : list bool) (r : result E A) (h' : list bool) : Prop :=
  match r with Ok _ => h' = h ++ more | Err _ => True end.

Lemma withTimeout_undecided t : calls_only undecided (withTimeout t).
Proof. unfold withTimeout. in_step. Qed.

Lemma openSurface_undecided req ui : calls_only undecided (openSurface false req ui).
Proof.
  unfold openSurface. destruct ui as [ui|]; [|done]. apply calls_only_bind_ok; [|done].
  unfold surfaceFor, resolveStatic. in_step.
Qed.

Lemma run_process_adds h workdir command : follows verdicts h (run_process false workdir command) (adds h [true]).
Proof.
  unfold run_process. apply (follows_ask_bind _ _ (ProcStart _ _)); [done|]. intros [pid|why]; [|done].
  apply (follows_ask_bind _ _ ProcWait); [done|]. intros [why|]; [done|].
  apply (follows_ask_bind _ _ ProcExitCode); [done|]. intros code. apply follows_ret. cbn.
  rewrite !app_nil_r. by destruct (Z.eqb code 0).
Qed.

Lemma run_Execute_adds h req command timeout ui :
  follows verdicts h (run_Execute osArch false req command timeout ui) (adds h [true]).
Proof.
  unfold run_Execute. destruct (is_empty _); [done|].
  apply follows_bind_ok. eapply follows_mono; [apply undecided_follows, withTimeout_undecided|]. cbn beta. intros [u|e] h' ->; [|done].
  apply follows_bind_ok. eapply follows_mono; [apply undecided_follows, openSurface_undecided|]. cbn beta. intros [b|e] h' ->; [|done].
  apply follows_deferring. eapply follows_mono; [apply run_process_adds|]. intros r h' Hr. by destruct b.
Qed.

Lemma signal_Execute_adds h req sig timeout :
  follows verdicts h (signal_Execute osArch req sig timeout) (adds h [true]).
Proof.
  unfold signal_Execute. apply follows_bind_ok.
  eapply follows_mono; [apply undecided_follows, withTimeout_undecided|]. cbn beta. intros [u|e] h' ->; [|done].
  destruct (Z.leb _ _); [done|]. destruct (signal_of _); [|done]. split; [done|]. by intros [why|].
Qed.

Lemma executeStep_adds h req s : follows verdicts h (executeStep osArch false req s) (adds h (yes_for s)).
Proof.
  assert (follows verdicts h (provisionApp osArch req s) (λ _ h', h' = h)) as Happ.
  { apply undecided_follows. unfold provisionApp. destruct s; try done. by destruct (contains _ _). }
  destruct s; try done;
    (apply follows_bind_ok; eapply follows_mono; [exact Happ|]; cbn beta; intros [r|e] h' ->; [|done]);
    [apply run_Execute_adds| | |
     |apply signal_Execute_adds|apply follows_ret; by cbn; rewrite app_nil_r|];
    (split; [done|]; by intros [[text checksum]|]).
Qed.

Lemma probe_steps_adds req steps : ∀ i h,
  follows verdicts h (probe_steps osArch req i steps) (adds h (concat (map yes_for steps))).
Proof.
  induction steps as [|s steps IH]; intros i h; cbn [probe_steps].
  - apply follows_ret. cbn. by rewrite app_nil_r.
  - apply (follows_ask_bind _ _ CtxEnded); [done|]. intros [|]; [done|].
    apply follows_bind. eapply follows_mono; [apply executeStep_adds|]. cbn [moves verdicts verdict option_list].
    rewrite app_nil_r. intros [u|e] h'; cbn [adds]; [intros ->|done].
    eapply follows_mono; [apply IH|]. intros [v|e] h''; cbn; [|done]. intros ->. by rewrite <- app_assoc.
Qed.

Lemma yes_for_all steps : concat (map yes_for steps) = replicate (length (filter (λ s, decided s = true) steps)) true.
Proof.
  induction steps as [|s steps IH]; [done|]. cbn [map concat]. rewrite IH, filter_cons.
  unfold yes_for. destruct (decided s) eqn:Hs; by case_decide.
Qed.

(** C38. A probe says yes only when all it can ask said yes, whatever the parts of the wizard
    answer: it has steps, no run step of it has an empty command on this platform, and every
    step but a dependencies step, which asks nothing, had its one answer (the exit of its
    process, the signal sent, the handler done), which was a success. *)
Theorem yes_is_answered req l :
  trace (Probe osArch req) l (Ok tt) →
  req_steps req ≠ [] ∧
  (∀ b command elevated timeout ui, RunStep b command elevated timeout ui ∈ req_steps req →
     Resolve_over command osArch ≠ "") ∧
  omap verdict l = replicate (length (filter (λ s, decided s = true) (req_steps req))) true.
Proof.
  intros Ht. rewrite <- yes_for_all, <- (app_nil_l (omap verdict l)), <- after_verdicts.
  destruct (checkProbeAnswerable osArch req) eqn:Hcheck.
  2: { unfold Probe in Ht. rewrite Hcheck in Ht. by destruct Ht as [_ ?]. }
  assert (follows verdicts [] (Probe osArch req) (adds [] (concat (map yes_for (req_steps req))))) as Hf.
  { unfold Probe. rewrite Hcheck. split; [done|]. intros [|]; [|done]. cbn [negb].
    apply follows_deferring. destruct (is_empty _).
    - split; [done|]. intros [dir|why]; [|by split].
      apply follows_deferring. eapply follows_mono; [apply probe_steps_adds|].
      intros r h' Hr. split; [done|]. intros u. split; [done|]. intros u'. cbn. by rewrite !app_nil_r.
    - eapply follows_mono; [apply probe_steps_adds|]. intros r h' Hr. split; [done|]. intros u. cbn. by rewrite app_nil_r. }
  destruct (follows_trace _ _ _ _ _ _ Hf Ht) as [_ Hadds]. unfold checkProbeAnswerable in Hcheck.
  split_and!; [by intros Hnil; rewrite Hnil in Hcheck| |exact Hadds].
  intros b command elevated timeout ui Hin Hempty.
  destruct (req_steps req) as [|s steps]; [done|]. rewrite forallb_forall in Hcheck.
  apply list_elem_of_In in Hin. specialize (Hcheck _ Hin). cbn in Hcheck. by rewrite Hempty in Hcheck.
Qed.
End probe.

(** A slot of the group is free, and the processes answer as in an execution. *)
Definition probe_answers (code : Z) (c : call) (n : nat) : option (answer c) :=
  match c with
  | EnterProbe => Some true
  | LeaveSlot => Some tt
  | c => answers code c n
  end.

(** A check that finds what it asks for *)
Lemma yes_is_answered_witness :
  ∃ l, trace (Probe "linux/amd64" (request_of [shell_step true; quiet_step])) l (Ok tt) ∧ omap verdict l = [true].
Proof.
  destruct (run (probe_answers 0) 0 (Probe "linux/amd64" (request_of [shell_step true; quiet_step]))) as [[l o]|] eqn:Hrun;
    [|by vm_compute in Hrun].
  assert (o = Ok tt) as -> by (vm_compute in Hrun; congruence).
  apply trace_run in Hrun. exists l. split; [exact Hrun|].
  by destruct (yes_is_answered "linux/amd64" (request_of [shell_step true; quiet_step]) l Hrun) as (_ & _ & Hl).
Defined.

(** ** The block comes back from its steps *)

Definition planned (kind icon : string) (e : ExposeEntry) : expose_step := mkExposeStepOf kind e icon.

Lemma leading_appended kind entries icon steps :
  leadingExposeSteps (appendExposeSteps [] kind entries icon ++ steps) =
  map (planned kind icon) (default [] entries) ++ leadingExposeSteps steps.
Proof.
  unfold appendExposeSteps. induction (default [] entries) as [|e es IH]; [done|]. cbn in *. rewrite IH. by destruct e.
Qed.

Lemma collect_desktop icon entries : ∀ c,
  foldl collect_one c (map (planned ExposeKindDesktop icon) entries) =
  mkCollected (desktop c ++ entries) (cli c)
    (slots c ++ map (λ k, inl (mkSlot ExposeKindDesktop (Z.of_nat k))) (seq (length (desktop c)) (length entries)))
    (if entries is [] then media c else icon).
Proof.
  induction entries as [|e es IH]; intros c; cbn [map foldl]; [by destruct c; cbn; rewrite !app_nil_r|].
  rewrite IH. cbn [collect_one planned e_kind e_entry e_media String.eqb desktop cli slots media].
  cbn. rewrite <- !app_assoc, length_app, Nat.add_1_r. by destruct es.
Qed.

Lemma collect_cli icon entries : ∀ c,
  foldl collect_one c (map (planned ExposeKindCLI icon) entries) =
  mkCollected (desktop c) (cli c ++ entries)
    (slots c ++ map (λ k, inl (mkSlot ExposeKindCLI (Z.of_nat k))) (seq (length (cli c)) (length entries)))
    (if entries is [] then media c else icon).
Proof.
  induction entries as [|e es IH]; intros c; cbn [map foldl]; [by destruct c; cbn; rewrite !app_nil_r|].
  rewrite IH. cbn. rewrite <- !app_assoc, length_app, Nat.add_1_r. by destruct es.
Qed.

(** What [Plan] appends to an install without steps is gathered back whole: the two lists in
    their order, each step in the slot of its entry, and the icon. *)
Lemma planned_collected method e icon :
  method = MethodInstall ∨ method = MethodUpdate → IsEmpty e = false →
  collect (leadingExposeSteps (expose_Plan method e icon [])) =
  let slots_of kind entries := map (λ k, inl (mkSlot kind (Z.of_nat k))) (seq 0 (length entries)) in
  mkCollected (default [] (Desktop e)) (default [] (CLI e))
    (slots_of ExposeKindDesktop (default [] (Desktop e)) ++ slots_of ExposeKindCLI (default [] (CLI e))) icon.
Proof.
  intros Hm He. unfold expose_Plan. rewrite He.
  assert (String.eqb method MethodInstall || String.eqb method MethodUpdate = true) as ->
    by (destruct Hm as [-> | ->]; reflexivity).
  assert (∀ steps kind entries, appendExposeSteps steps kind entries icon = steps ++ appendExposeSteps [] kind entries icon) as Happ
    by done.
  rewrite (Happ (appendExposeSteps [] _ _ _)), leading_appended.
  rewrite <- (app_nil_r (appendExposeSteps [] ExposeKindCLI _ _)), leading_appended, app_nil_r.
  unfold collect. rewrite foldl_app, collect_desktop, collect_cli. cbn. f_equal.
  unfold IsEmpty in He. by destruct (default [] (CLI e)), (default [] (Desktop e)).
Qed.
