(* ===== verification/Translator.v ===== *)
(** * Reading a manifest (internal/engine/manifold/translator)

    The fenced block of an ARROW.md and the prose around it (markdown.go), the schema a
    manifest names (parse.go), the mapper from what the YAML library decoded to the targets
    that are compiled (arrow/v0), and [ParseArrow] of manifold.go over all of it.  The library
    that decodes YAML and the one that checks a JSON schema are arguments. *)

From S2P Require Import Prelude GoStrings Domain Steps Manifest Targets Ruleset.

(** ** The fenced block (markdown.go) *)

Definition fence_end : string := "```".

Definition LF : ascii := "010".
Definition CR : ascii := "013".

Definition trim_cr : string → string := trim_right (Ascii.eqb CR).

Fixpoint block_of (fence : string) (inBlock : bool) (result lines : list string) : option (list string) :=
  match lines with
  | [] => None
  | line :: lines' =>
    let trimmed := trim_cr line in
    if negb inBlock then block_of fence (String.eqb trimmed fence) result lines'
    else if String.prefix fence_end trimmed then Some result
    else block_of fence true (result ++ [trimmed]) lines'
  end.

Definition extractFencedCodeblock (data fence : string) : option string :=
  join (String LF "") <$> block_of fence false [] (split_byte LF data).

(** The lines outside, and whether a block was closed *)
Fixpoint prose_of (fence : string) (inBlock closed : bool) (result lines : list string) : list string * bool :=
  match lines with
  | [] => (result, closed)
  | line :: lines' =>
    let trimmed := trim_cr line in
    if inBlock && String.prefix fence_end trimmed then prose_of fence false true result lines'
    else if inBlock then prose_of fence true closed result lines'
    else if String.eqb trimmed fence then prose_of fence true closed result lines'
    else prose_of fence false closed (result ++ [trimmed]) lines'
  end.

Definition extractReadme (data fence : string) : option string :=
  let '(result, closed) := prose_of fence false false [] (split_byte LF data) in
  if negb closed then None
  else
    let readme := trim_space (join (String LF "") result) in
    if is_empty readme then None else Some readme.

Definition extractArrowCodeblock (data : string) : option string := extractFencedCodeblock data "```arrow".
Definition extractArrowReadme (data : string) : option string := extractReadme data "```arrow".

(** ** The schema a manifest names (parse.go) *)

Record ManifestInfo := mkManifestInfo {
  SchemaType : string;
  Version : string;
  ManifestKey : string;
}.

Inductive translate_error :=
| ErrYAML
| ErrNoSchema
| ErrSchemaFormat (manifest : string)
| ErrSchemaEmpty
| ErrSchemaMismatch (got : string)
| ErrUnsupportedVersion (key : string)
| ErrValidation (key why : string)
| ErrPreRefactor
| ErrUnknownStep (type : string)
| ErrSyntheticStep
| InPhase (name : string) (e : translate_error)
| InTarget (name : string) (e : translate_error)
| InMethodSteps (name : string) (e : translate_error).

Definition is_quote (c : ascii) : bool := Ascii.eqb c "034" || Ascii.eqb c "039".

Definition parseManifestString (manifestStr : string) : result translate_error ManifestInfo :=
  let s := trim_right is_quote (trim_left is_quote (trim_space manifestStr)) in
  match split_byte "@" s with
  | [schema; version] =>
    let schemaType := trim_space schema in
    let version := trim_space version in
    if is_empty schemaType || is_empty version then Err ErrSchemaEmpty
    else Ok (mkManifestInfo schemaType version (schemaType +:+ "@" +:+ version))
  | _ => Err (ErrSchemaFormat s)
  end.

(** ** What the YAML library decoded (arrow/v0/types.go) *)

Record overrideableV0 (T : Type) := mkOverrideableV0 { raw_default : T; raw_osarch : gmap string T }.
Arguments mkOverrideableV0 {T} _ _.
Arguments raw_default {T} _.
Arguments raw_osarch {T} _.

(** A node, with what the library makes of it as a [T] or as a map to it *)
Inductive node (T : Type) :=
| ScalarNode (decoded : option T)
| MappingNode (decoded : option (gmap string T))
| OtherNode.
Arguments ScalarNode {T} _.
Arguments MappingNode {T} _.
Arguments OtherNode {T}.

(** [zero] is the zero value of the Go type; [None] is an error. *)
Definition UnmarshalYAML {T} (zero : T) (value : node T) : option (overrideableV0 T) :=
  match value with
  | ScalarNode d => (λ v, mkOverrideableV0 v ∅) <$> d
  | MappingNode d => (λ m, mkOverrideableV0 (default zero (m !! "default")) (delete "default" m)) <$> d
  | OtherNode => None
  end.

Record uiV0 := mkUiV0 { u_title : string; u_path : string; u_listen : list string; u_static : string }.

Record stepV0 := mkStepV0 {
  s_type : string;
  s_title : string;
  s_command : overrideableV0 string;
  s_url : overrideableV0 string;
  s_from : overrideableV0 string;
  s_to : overrideableV0 string;
  s_signal : overrideableV0 string;
  s_elevated : overrideableV0 bool;
  s_checksum : overrideableV0 string;
  s_timeout : overrideableV0 string;
  s_name : string;
  s_ui : option uiV0;
  s_exit : option bool;
}.

Record methodV0 := mkMethodV0 { m_available : list string; m_steps : option (list stepV0) }.

Record lifecycleV0 := mkLifecycleV0 {
  l_install : option (list stepV0);
  l_update : option (list stepV0);
  l_execute : option (list stepV0);
  l_stop : option (list stepV0);
  l_uninstall : option (list stepV0);
  l_preinstalled : option (list stepV0);
}.

Record exposeEntryV0 := mkExposeEntryV0 { x_name : string; x_path : string; x_icon : string; x_categories : list string }.
Record exposeV0 := mkExposeV0 { x_cli : option (list exposeEntryV0); x_desktop : option (list exposeEntryV0) }.
Record requirementsV0 := mkRequirementsV0 { q_cpu : option Z; q_ram : option Z; q_disk : option Z }.

Record targetV0 := mkTargetV0 {
  t_base : string;
  t_requirements : requirementsV0;
  t_tools : option (list string);
  t_services : option (list string);
  t_exports : gmap string (overrideableV0 string);
  t_lifecycle : lifecycleV0;
  t_methods : gmap string methodV0;
  t_expose : exposeV0;
}.

Record creditV0 := mkCreditV0 { c_name : string; c_email : string; c_url : string }.
Record mediaV0 := mkMediaV0 { d_icon : string; d_banner : string }.
Record generatorV0 := mkGeneratorV0 { g_name : string; g_confidence : string; g_warnings : list string }.

Record metadataV0 := mkMetadataV0 {
  a_name : string;
  a_description : string;
  a_license : string;
  a_url : string;
  a_quiver : string;
  a_maintainers : list creditV0;
  a_credits : list creditV0;
  a_media : mediaV0;
  a_tags : list string;
  a_generator : generatorV0;
}.

Record variableV0 := mkVariableV0 {
  v_name : string;
  v_description : string;
  v_default : string;
  v_sensitive : bool;
  v_values : list string;
  v_min : Z;
  v_max : Z;
  v_type : string;
}.

Record portV0 := mkPortV0 { p_name : string; p_protocol : string; p_default : Z; p_required : bool }.

Record arrowV0 := mkArrowV0 {
  raw_schema : string;
  raw_metadata : metadataV0;
  raw_variables : list variableV0;
  raw_netbridge : list portV0;
  raw_targets : gmap string targetV0;
}.

(** ** The mapper (arrow/v0/mapper.go) *)

(** The conversions from text; a text that is none of the constants stays as it is. *)
Definition VariableType_of (s : string) : VariableType :=
  if String.eqb s "string" then VariableTypeString
  else if String.eqb s "number" then VariableTypeNumber
  else if String.eqb s "boolean" then VariableTypeBoolean
  else if String.eqb s "select" then VariableTypeSelect
  else VariableTypeOther s.

Definition Protocol_of (s : string) : Protocol :=
  if String.eqb s "tcp" then ProtocolTCP
  else if String.eqb s "udp" then ProtocolUDP
  else if String.eqb s "tcp/udp" then ProtocolTCPUDP
  else ProtocolOther s.

Definition states : list (string * ArrowState) :=
  [("absent", ArrowStateAbsent); ("installing", ArrowStateInstalling); ("updating", ArrowStateUpdating);
   ("ready", ArrowStateReady); ("running", ArrowStateRunning); ("stopping", ArrowStateStopping);
   ("draining", ArrowStateDraining); ("detached", ArrowStateDetached); ("uninstalling", ArrowStateUninstalling);
   ("removed", ArrowStateRemoved); ("outdated", ArrowStateOutdated)].

Definition ArrowState_of (s : string) : ArrowState :=
  match filter (λ p, p.1 = s) states with
  | p :: _ => p.2
  | [] => ArrowStateOther s
  end.

Definition toStepOverrideable {T} (o : overrideableV0 T) : Overrideable T := mkOverrideable (raw_default o) (raw_osarch o).

Definition resolveExitOnFailure (v : option bool) : bool := default true v.

Definition toUIOptions (u : uiV0) : UIOptions := mkUIOptions (u_title u) (u_path u) (u_listen u) (u_static u).

Definition toFromToTimeout (s : stepV0) : Overrideable string * Overrideable string * Overrideable string :=
  (toStepOverrideable (s_from s), toStepOverrideable (s_to s), toStepOverrideable (s_timeout s)).

Definition toStep (s : stepV0) : result translate_error Step :=
  let b := mkBasicStep (s_title s) (resolveExitOnFailure (s_exit s)) in
  let '(from, to, timeout) := toFromToTimeout s in
  if String.eqb (s_type s) "run" then
    Ok (RunStep b (toStepOverrideable (s_command s)) (toStepOverrideable (s_elevated s)) timeout (toUIOptions <$> s_ui s))
  else if String.eqb (s_type s) "fetch" then
    Ok (FetchStep b (toStepOverrideable (s_url s)) to (toStepOverrideable (s_checksum s)) timeout)
  else if String.eqb (s_type s) "extract" then Ok (ExtractStep b from to timeout)
  else if String.eqb (s_type s) "portable" then Ok (PortableStep b from to timeout (s_name s))
  else if String.eqb (s_type s) "signal" then Ok (SignalStep b (toStepOverrideable (s_signal s)) timeout)
  else if String.eqb (s_type s) "dependencies" then Err ErrSyntheticStep
  else Err (ErrUnknownStep (s_type s)).

Fixpoint toSteps (steps : list stepV0) : result translate_error (list Step) :=
  match steps with
  | [] => Ok []
  | s :: steps' =>
    let? st := toStep s in
    let? rest := toSteps steps' in
    Ok (st :: rest)
  end.

Definition toStepList (steps : option (list stepV0)) : result translate_error StepList :=
  match steps with
  | None => Ok None
  | Some steps => let? l := toSteps steps in Ok (Some l)
  end.

Definition toLifecycle (lc : lifecycleV0) : result translate_error TargetLifecycle :=
  let? install := rmap_err (InPhase "install") (toStepList (l_install lc)) in
  let? update := rmap_err (InPhase "update") (toStepList (l_update lc)) in
  let? execute := rmap_err (InPhase "execute") (toStepList (l_execute lc)) in
  let? stop := rmap_err (InPhase "stop") (toStepList (l_stop lc)) in
  let? uninstall := rmap_err (InPhase "uninstall") (toStepList (l_uninstall lc)) in
  let? preinstalled := rmap_err (InPhase "preinstalled") (toStepList (l_preinstalled lc)) in
  Ok (mkTargetLifecycle install update execute stop uninstall preinstalled).

(** The entries of a map, in some order; an error is the first that order meets. *)
Fixpoint each_entry {A B} (f : string → A → result translate_error B) (l : list (string * A))
  : result translate_error (gmap string B) :=
  match l with
  | [] => Ok ∅
  | (k, a) :: l' =>
    let? b := f k a in
    let? rest := each_entry f l' in
    Ok (<[k := b]> rest)
  end.

Definition toMethod (name : string) (m : methodV0) : result translate_error Method :=
  let? steps := rmap_err (InMethodSteps name) (toStepList (m_steps m)) in
  Ok (mkMethod (map ArrowState_of (m_available m)) steps).

Definition toMethods (methods : gmap string methodV0) : result translate_error (gmap string Method) :=
  each_entry toMethod (map_to_list methods).

Definition toRequirement (q : requirementsV0) : Requirement :=
  mkRequirement (default 0%Z (q_cpu q)) (default 0%Z (q_ram q)) (default 0%Z (q_disk q)).

Definition toNamespaces (refs : option (list string)) : option (list Namespace) := refs.

Definition toExports (exports : gmap string (overrideableV0 string)) : gmap string (Overrideable string) :=
  toStepOverrideable <$> exports.

Definition toExposeEntries (entries : option (list exposeEntryV0)) : option (list ExposeEntry) :=
  map (λ e, mkExposeEntry (x_name e) (x_path e) (x_icon e) (x_categories e)) <$> entries.

Definition toExpose (e : exposeV0) : Expose := mkExpose (toExposeEntries (x_cli e)) (toExposeEntries (x_desktop e)).

Definition toTarget (t : targetV0) : result translate_error PrecompiledTarget :=
  let? lifecycle := rmap_err (InPhase "lifecycle") (toLifecycle (t_lifecycle t)) in
  let? methods := rmap_err (InPhase "methods") (toMethods (t_methods t)) in
  Ok (mkPrecompiled (t_base t) (toRequirement (t_requirements t)) (toNamespaces (t_tools t)) (toNamespaces (t_services t))
        (toExports (t_exports t)) lifecycle methods (toExpose (t_expose t))).

Definition toTargets (rawTargets : gmap string targetV0) : result translate_error targets :=
  each_entry (λ name t, rmap_err (InTarget name) (toTarget t)) (map_to_list rawTargets).

Definition toCredits (credits : list creditV0) : list Credit :=
  map (λ c, mkCredit (c_name c) (c_email c) (c_url c)) credits.

Definition toMedia (m : mediaV0) : ArrowMedia := mkArrowMedia (d_icon m) (d_banner m).

Definition toGenerator (g : generatorV0) : option ArrowGenerator :=
  if is_empty (g_name g) then None else Some (mkArrowGenerator (g_name g) (g_confidence g) (g_warnings g)).

Definition toVariables (vars : list variableV0) : list DeclaredVariable :=
  map (λ v, mkVariable (v_name v) (v_description v) (v_default v) (v_values v) (v_min v) (v_max v) (v_sensitive v)
              (VariableType_of (v_type v))) vars.

Definition toPorts (ports : list portV0) : list PortDef :=
  map (λ p, mkPortDef (p_name p) (Protocol_of (p_protocol p)) (p_default p) (p_required p)) ports.

Definition toMeta (m : metadataV0) : ArrowMeta :=
  mkArrowMeta (a_name m) (a_description m) (a_license m) (a_url m) (toCredits (a_maintainers m)) (toCredits (a_credits m))
    (a_tags m) (toMedia (a_media m)) (toGenerator (a_generator m)).

(** The arrow with every field but those of the manifest at its zero value *)
Definition toAggregate (raw : arrowV0) : result translate_error (Arrow * targets) :=
  if bool_decide (raw_targets raw = ∅) then Err ErrPreRefactor
  else
    let? precompiled := rmap_err (InPhase "targets") (toTargets (raw_targets raw)) in
    Ok (mkArrow "" (toMeta (raw_metadata raw)) (toVariables (raw_variables raw)) (toPorts (raw_netbridge raw)) [] ""
          None false None (SelectorUnknown "") (mkResolved "" "" "") None, precompiled).

(** ** The reader (reader.go) and [ParseArrow] (manifold.go) *)

Inductive parse_error :=
| ParseTranslate (e : translate_error)
| ParsePrecompile (errs : RuleErrors)
| ParseCompile (e : compile_error)
| ParseCompiled (errs : RuleErrors).

Definition with_readme (a : Arrow) (readme : string) : Arrow :=
  mkArrow (arrow_namespace a) (arrow_meta a) (arrow_variables a) (arrow_netbridge a) (arrow_targets a) readme
    (InstalledAt a) (UserInstalled a) (LastUsedAt a) (arrow_kind a) (arrow_resolved a) (arrow_available a).

Definition with_targets (a : Arrow) (ts : list (OS * Target)) : Arrow :=
  mkArrow (arrow_namespace a) (arrow_meta a) (arrow_variables a) (arrow_netbridge a) ts (arrow_readme a)
    (InstalledAt a) (UserInstalled a) (LastUsedAt a) (arrow_kind a) (arrow_resolved a) (arrow_available a).

Section reader.
(** What the YAML library decodes of a text: its fields [schema] and [manifest], and all of
    it; and what the schema of v0 finds wrong with it *)
Context (decode_schema : string → option (string * string)).
Context (decode_arrow : string → option arrowV0).
Context (validateYAML : string → option string).

Definition extractSchemaField (yamlData : string) : result translate_error string :=
  match decode_schema yamlData with
  | None => Err ErrYAML
  | Some (schema, manifest) => Ok (if is_empty schema then manifest else schema)
  end.

Definition extractManifestFromYAML (yamlData : string) : result translate_error ManifestInfo :=
  let? manifestStr := extractSchemaField yamlData in
  if is_empty manifestStr then Err ErrNoSchema else parseManifestString manifestStr.

Definition Map (data : string) : result translate_error (Arrow * targets) :=
  match decode_arrow data with
  | None => Err ErrYAML
  | Some raw => toAggregate raw
  end.

Definition translate (data : string) : result translate_error (Arrow * targets) :=
  let yaml := default data (extractArrowCodeblock data) in
  let? manifest := extractManifestFromYAML yaml in
  if negb (String.eqb (SchemaType manifest) "arrow") then Err (ErrSchemaMismatch (SchemaType manifest))
  else if negb (String.eqb (Version manifest) "v0") then Err (ErrUnsupportedVersion (ManifestKey manifest))
  else
    match validateYAML yaml with
    | Some why => Err (ErrValidation (ManifestKey manifest) why)
    | None => Map yaml
    end.

(** [None] is out of fuel, which [Targets.compile_targets] excludes. *)
Definition ParseArrow (data : string) : option (result parse_error Arrow) :=
  match translate data with
  | Err e => Some (Err (ParseTranslate e))
  | Ok (manifest, precompiled) =>
    let manifest := match extractArrowReadme data with Some readme => with_readme manifest readme | None => manifest end in
    match ValidatePrecompile manifest precompiled with
    | _ :: _ as errs => Some (Err (ParsePrecompile errs))
    | [] =>
      match Compile precompiled with
      | None => None
      | Some (Err e) => Some (Err (ParseCompile e))
      | Some (Ok ts) =>
        let manifest := with_targets manifest ts in
        match ValidateCompiled manifest ts with
        | _ :: _ as errs => Some (Err (ParseCompiled errs))
        | [] => Some (Ok manifest)
        end
      end
    end
  end.
End reader.

(** ** What is read between the fences *)

(** A line as the split leaves it, and one as the loop sees it *)
Definition plain_line (l : string) : Prop := contains_byte LF l = false ∧ trim_cr l = l.

Lemma block_before fence pre lines result :
  Forall (λ l, trim_cr l ≠ fence) pre → block_of fence false result (pre ++ lines) = block_of fence false result lines.
Proof.
  induction 1 as [|l pre Hl Hpre IH]; [done|]. cbn [app block_of].
  assert (String.eqb (trim_cr l) fence = false) as -> by (by apply String.eqb_neq). done.
Qed.

Lemma block_inside fence body stop post : ∀ result,
  Forall (λ l, String.prefix fence_end (trim_cr l) = false) body → String.prefix fence_end (trim_cr stop) = true →
  block_of fence true result (body ++ stop :: post) = Some (result ++ map trim_cr body).
Proof.
  induction body as [|l body IH]; intros result Hbody Hstop; cbn [app block_of].
  - rewrite Hstop. by rewrite app_nil_r.
  - inversion_clear Hbody as [|? ? Hl Hb]. rewrite Hl. cbn [negb]. rewrite IH by done. by rewrite <- app_assoc.
Qed.

Lemma prose_outside fence lines rest : ∀ closed result,
  Forall (λ l, trim_cr l ≠ fence) lines →
  prose_of fence false closed result (lines ++ rest) = prose_of fence false closed (result ++ map trim_cr lines) rest.
Proof.
  induction lines as [|l lines IH]; intros closed result Hl; [by rewrite app_nil_r|].
  inversion_clear Hl as [|? ? H Hr]. cbn [app prose_of andb].
  assert (String.eqb (trim_cr l) fence = false) as -> by (by apply String.eqb_neq).
  rewrite IH by done. by rewrite <- app_assoc.
Qed.

Lemma prose_inside fence body rest : ∀ closed result,
  Forall (λ l, String.prefix fence_end (trim_cr l) = false) body →
  prose_of fence true closed result (body ++ rest) = prose_of fence true closed result rest.
Proof.
  induction body as [|l body IH]; intros closed result Hl; [done|].
  inversion_clear Hl as [|? ? H Hr]. cbn [app prose_of andb]. rewrite H. by apply IH.
Qed.

Lemma trimmed_lines ls : Forall plain_line ls → map trim_cr ls = ls.
Proof. induction 1 as [|l ls [_ Hl] _ IH]; [done|]. cbn. by rewrite Hl, IH. Qed.

Lemma plain_forall (Q : string → Prop) ls : Forall plain_line ls → Forall Q ls → Forall (λ l, Q (trim_cr l)) ls.
Proof. induction 1 as [|l ls [_ Hl] _ IH]; inversion_clear 1; constructor; [by rewrite Hl|by apply IH]. Qed.

(** The manifest written between the fences of an ARROW.md is read back byte for byte,
    and the readme is the prose before and after it, trimmed: for all lines without a line
    feed or a carriage return at their end, of which none outside opens a block and none
    inside closes it. *)
Lemma document_read_back pre body stop post :
  Forall plain_line (pre ++ body ++ stop :: post) →
  Forall (λ l, l ≠ "```arrow") (pre ++ post) →
  Forall (λ l, String.prefix fence_end l = false) body → String.prefix fence_end stop = true →
  let document := join (String LF "") (pre ++ "```arrow" :: body ++ stop :: post) in
  extractArrowCodeblock document = Some (join (String LF "") body) ∧
  extractArrowReadme document =
    (let prose := trim_space (join (String LF "") (pre ++ post)) in if is_empty prose then None else Some prose).
Proof.
  intros Hplain Hout Hbody Hstop document.
  apply Forall_app in Hplain as [Hpre Hplain]. apply Forall_app in Hplain as [Hpb Hplain].
  inversion_clear Hplain as [|? ? Hps Hpost]. apply Forall_app in Hout as [Hout1 Hout2].
  assert (plain_line "```arrow") as Hfence by done.
  assert (split_byte LF document = pre ++ "```arrow" :: body ++ stop :: post) as Hsplit.
  { apply split_join; [by destruct pre|]. rewrite Forall_app, Forall_cons, Forall_app, Forall_cons.
    assert (∀ ls, Forall plain_line ls → Forall (λ p, contains_byte LF p = false) ls) as Hlf
      by (intros ls Hls; eapply Forall_impl; [exact Hls|]; by intros l []).
    split_and!; auto; by destruct Hps. }
  pose proof (plain_forall _ _ Hpre Hout1) as Hp1. pose proof (plain_forall _ _ Hpost Hout2) as Hp2.
  pose proof (plain_forall _ _ Hpb Hbody) as Hb. cbn beta in Hp1, Hp2, Hb.
  assert (String.prefix fence_end (trim_cr stop) = true) as Hs by (destruct Hps as [_ ->]; done).
  split.
  - unfold extractArrowCodeblock, extractFencedCodeblock. rewrite Hsplit, block_before by done.
    cbn [block_of]. change (String.eqb (trim_cr "```arrow") "```arrow") with true. cbn [negb].
    rewrite block_inside by done. by rewrite trimmed_lines.
  - unfold extractArrowReadme, extractReadme. rewrite Hsplit, prose_outside by done.
    cbn [prose_of andb]. change (String.eqb (trim_cr "```arrow") "```arrow") with true. cbn iota.
    rewrite prose_inside by done. cbn [prose_of andb]. rewrite Hs.
    pose proof (prose_outside "```arrow" post [] true ([] ++ map trim_cr pre) Hp2) as Hpp.
    rewrite app_nil_r in Hpp. rewrite Hpp. cbn [prose_of negb app]. by rewrite !trimmed_lines.
Qed.

Definition example_document : list string := ["# An app"; ""; "```arrow"; "schema: arrow@v0"; "```"; "Enjoy."].

Lemma document_read_back_witness :
  extractArrowCodeblock (join (String LF "") example_document) = Some "schema: arrow@v0" ∧
  extractArrowReadme (join (String LF "") example_document) =
    Some (join (String LF "") ["# An app"; ""; "Enjoy."]).
Proof.
  destruct (document_read_back ["# An app"; ""] ["schema: arrow@v0"] "```" ["Enjoy."]) as [Hb Hr];
    [by repeat constructor|by repeat constructor|by repeat constructor|done|].
  split; [exact Hb|]. etrans; [exact Hr|]. vm_compute. reflexivity.
Defined.

(** A block whose end is missing hides all that follows it, from the readme too. *)
Lemma unclosed_block :
  extractArrowReadme (join (String LF "") (example_document ++ ["```arrow"; "More."])) =
    Some (join (String LF "") ["# An app"; ""; "Enjoy."]).
Proof. vm_compute. reflexivity. Qed.

(** ** What is mapped *)

Definition authored_types : list string := ["run"; "fetch"; "extract"; "portable"; "signal"].

(** The steps of a target as they were written *)
Definition raw_lifecycle_steps (lc : lifecycleV0) : list stepV0 :=
  concat (map (default []) [l_install lc; l_update lc; l_execute lc; l_stop lc; l_uninstall lc; l_preinstalled lc]).

Definition raw_steps (t : targetV0) : list stepV0 :=
  raw_lifecycle_steps (t_lifecycle t) ++ concat (map (λ p, default [] (m_steps p.2)) (map_to_list (t_methods t))).

Lemma rmap_err_Ok {E F A} (f : E → F) (r : result E A) a : rmap_err f r = Ok a ↔ r = Ok a.
Proof. destruct r; naive_solver. Qed.

Lemma is_ok_rmap {E F A} (f : E → F) (r : result E A) : is_ok (rmap_err f r) = is_ok r.
Proof. by destruct r. Qed.

Lemma is_ok_bind {E A B} (r : result E A) (k : A → result E B) (b : bool) :
  (∀ a, r = Ok a → is_ok (k a) = b) → is_ok (rbind r k) = is_ok r && b.
Proof. destruct r; cbn; [|done]. intros H. by apply H. Qed.

Lemma toStep_ok s : is_ok (toStep s) = true ↔ s_type s ∈ authored_types.
Proof.
  unfold toStep, authored_types. cbn. rewrite !elem_of_cons, elem_of_nil.
  repeat match goal with
  | |- context [String.eqb (s_type s) ?x] =>
    destruct (String.eqb_spec (s_type s) x) as [E|?]; [rewrite E; cbn; first [by split; auto 10 | by split; [|intros H; destruct_or?]]|]
  end.
  cbn. split; [done|]. intros H. by destruct_or?.
Qed.

Lemma toSteps_ok l : is_ok (toSteps l) = forallb (λ s, is_ok (toStep s)) l.
Proof. induction l as [|s l IH]; [done|]. cbn [toSteps forallb]. rewrite <- IH. destruct (toStep s); cbn; [|done]. by destruct (toSteps l). Qed.

Lemma toStepList_ok l : is_ok (toStepList l) = forallb (λ s, is_ok (toStep s)) (default [] l).
Proof. destruct l as [l|]; cbn; [|done]. rewrite <- toSteps_ok. by destruct (toSteps l). Qed.

Lemma toLifecycle_ok lc : is_ok (toLifecycle lc) = forallb (λ s, is_ok (toStep s)) (raw_lifecycle_steps lc).
Proof.
  unfold raw_lifecycle_steps. cbn [map concat]. rewrite !forallb_app, <- !toStepList_ok. unfold toLifecycle.
  repeat match goal with |- context [rmap_err _ (toStepList ?l)] => destruct (toStepList l); [cbn|done] end. done.
Qed.

Lemma each_entry_ok {A B} (f : string → A → result translate_error B) l :
  is_ok (each_entry f l) = forallb (λ p, is_ok (f p.1 p.2)) l.
Proof.
  induction l as [|[k a] l IH]; [done|]. cbn [each_entry forallb fst snd]. rewrite <- IH.
  destruct (f k a); cbn; [|done]. by destruct (each_entry f l).
Qed.

Lemma forallb_concat_map {A B} (g : B → bool) (f : A → list B) l :
  forallb g (concat (map f l)) = forallb (λ a, forallb g (f a)) l.
Proof. induction l as [|a l IH]; [done|]. cbn. by rewrite forallb_app, IH. Qed.

Lemma forallb_same {A} (f g : A → bool) l : (∀ a, f a = g a) → forallb f l = forallb g l.
Proof. intros Hfg. induction l as [|a l IH]; [done|]. cbn. by rewrite Hfg, IH. Qed.

Lemma toMethods_ok ms :
  is_ok (toMethods ms) = forallb (λ s, is_ok (toStep s)) (concat (map (λ p, default [] (m_steps p.2)) (map_to_list ms))).
Proof.
  unfold toMethods. rewrite each_entry_ok, forallb_concat_map. apply forallb_same. intros [name m].
  cbn [fst snd]. rewrite <- toStepList_ok. unfold toMethod. by destruct (toStepList (m_steps m)).
Qed.

Lemma toTarget_ok t : is_ok (toTarget t) = forallb (λ s, is_ok (toStep s)) (raw_steps t).
Proof.
  unfold toTarget, raw_steps. rewrite forallb_app, <- toLifecycle_ok, <- toMethods_ok.
  destruct (toLifecycle (t_lifecycle t)); [cbn|done]. by destruct (toMethods (t_methods t)).
Qed.

(** A decoded manifest is mapped exactly when it has targets and every step of every
    target, in its lifecycle and its methods, is of one of the five types a manifest may
    write; the types the daemon makes up itself are refused. *)
Lemma mapped_exactly raw :
  is_ok (toAggregate raw) = true ↔
  raw_targets raw ≠ ∅ ∧
  ∀ name t s, raw_targets raw !! name = Some t → s ∈ raw_steps t → s_type s ∈ authored_types.
Proof.
  unfold toAggregate. case_bool_decide as Hempty; [by split; [|intros [? _]]|].
  assert (is_ok (toTargets (raw_targets raw)) = true ↔
    ∀ name t s, raw_targets raw !! name = Some t → s ∈ raw_steps t → s_type s ∈ authored_types) as <-.
  { unfold toTargets. rewrite each_entry_ok, forallb_forall. setoid_rewrite <- list_elem_of_In.
    setoid_rewrite is_ok_rmap. setoid_rewrite toTarget_ok. setoid_rewrite forallb_forall.
    setoid_rewrite <- list_elem_of_In. setoid_rewrite toStep_ok. split.
    - intros H name t s Ht. apply (H (name, t)). by apply elem_of_map_to_list.
    - intros H [name t] Ht%elem_of_map_to_list s. by apply (H name t s). }
  destruct (toTargets (raw_targets raw)); cbn; naive_solver.
Qed.

(** ** Where the steps of a parsed arrow come from *)

Lemma toSteps_from l l' s : toSteps l = Ok l' → s ∈ l' → ∃ r, r ∈ l ∧ toStep r = Ok s.
Proof.
  revert l'. induction l as [|r l IH]; intros l' H Hs; cbn in H; [simplify_eq; by apply elem_of_nil in Hs|].
  apply rbind_ok in H as (st & Hst & H). apply rbind_ok in H as (rest & Hrest & H). simplify_eq.
  apply elem_of_cons in Hs as [->|Hs]; [exists r; split; [left|done]|].
  destruct (IH _ Hrest Hs) as (r' & ? & ?). exists r'. split; [by right|done].
Qed.

Lemma toStepList_from l l' s : toStepList l = Ok l' → s ∈ steps_of l' → ∃ r, r ∈ default [] l ∧ toStep r = Ok s.
Proof.
  destruct l as [l|]; cbn; [|intros [= <-] Hs; by apply elem_of_nil in Hs].
  intros H Hs. apply rbind_ok in H as (l0 & Hl & H). simplify_eq. by eapply toSteps_from.
Qed.

Lemma toLifecycle_from lc lc' s :
  toLifecycle lc = Ok lc' → s ∈ lifecycle_steps lc' → ∃ r, r ∈ raw_lifecycle_steps lc ∧ toStep r = Ok s.
Proof.
  unfold toLifecycle, raw_lifecycle_steps. intros H Hs.
  apply rbind_ok in H as (? & H1%rmap_err_Ok & H). apply rbind_ok in H as (? & H2%rmap_err_Ok & H).
  apply rbind_ok in H as (? & H3%rmap_err_Ok & H). apply rbind_ok in H as (? & H4%rmap_err_Ok & H).
  apply rbind_ok in H as (? & H5%rmap_err_Ok & H). apply rbind_ok in H as (? & H6%rmap_err_Ok & H). simplify_eq.
  unfold lifecycle_steps, phases in Hs. cbn [map concat snd Install Update Execute Stop Uninstall Preinstalled] in *.
  setoid_rewrite elem_of_app. rewrite !elem_of_app in Hs.
  setoid_rewrite elem_of_app. setoid_rewrite elem_of_app. setoid_rewrite elem_of_app. setoid_rewrite elem_of_app. setoid_rewrite elem_of_app.
  destruct Hs as [Hs|[Hs|[Hs|[Hs|[Hs|[Hs|Hs]]]]]]; [| | | | | |by apply elem_of_nil in Hs];
    (eapply toStepList_from in Hs as (r & ? & ?); [|eassumption]; exists r; split; [|done]); auto 10.
Qed.

Lemma each_entry_from {A B} (f : string → A → result translate_error B) l m k b :
  each_entry f l = Ok m → m !! k = Some b → ∃ a, (k, a) ∈ l ∧ f k a = Ok b.
Proof.
  revert m. induction l as [|[k' a] l IH]; intros m H Hk; cbn in H; [simplify_eq; by rewrite lookup_empty in Hk|].
  apply rbind_ok in H as (b' & Hb & H). apply rbind_ok in H as (rest & Hrest & H). simplify_eq.
  rewrite lookup_insert in Hk. case_decide; simplify_eq.
  - exists a. split; [left|done].
  - destruct (IH _ Hrest Hk) as (a' & ? & ?). exists a'. split; [by right|done].
Qed.

Lemma toTarget_from t p s : toTarget t = Ok p → s ∈ pre_steps p → ∃ r, r ∈ raw_steps t ∧ toStep r = Ok s.
Proof.
  unfold toTarget, raw_steps, pre_steps. intros H.
  apply rbind_ok in H as (lc & Hl%rmap_err_Ok & H). apply rbind_ok in H as (ms & Hm%rmap_err_Ok & H). simplify_eq.
  cbn [pre_lifecycle pre_methods]. setoid_rewrite elem_of_app. intros [Hs|Hs].
  - destruct (toLifecycle_from _ _ _ Hl Hs) as (r & ? & ?). eauto.
  - apply elem_of_method_steps_of in Hs as (k & m & Hk & Hs).
    destruct (each_entry_from _ _ _ _ _ Hm Hk) as (m0 & Hin & H0).
    unfold toMethod in H0. apply rbind_ok in H0 as (steps & Hsteps%rmap_err_Ok & H0). simplify_eq.
    destruct (toStepList_from _ _ _ Hsteps Hs) as (r & Hr & ?). exists r. split; [|done]. right.
    apply elem_of_concat_map. by exists (k, m0).
Qed.

Lemma toTargets_from raw ts k p : toTargets raw = Ok ts → ts !! k = Some p → ∃ t, raw !! k = Some t ∧ toTarget t = Ok p.
Proof.
  intros H Hk. destruct (each_entry_from _ _ _ _ _ H Hk) as (t & Hin%elem_of_map_to_list & Ht%rmap_err_Ok). eauto.
Qed.

(** A step written in the manifest, with its values for a platform *)
Definition authored (raw : arrowV0) (os : OS) (s : Step) : Prop :=
  ∃ name t r s0, raw_targets raw !! name = Some t ∧ r ∈ raw_steps t ∧ toStep r = Ok s0 ∧ resolveStep s0 os = Ok s.

(** One of the two that start and stop an app that is only exposed *)
Definition starts_or_stops (os : OS) (s : Step) : Prop :=
  s = NewRunStep "Start" (start_command os) false "" true ∨ s = NewSignalStep "Stop" SignalKindGraceful "10s" false.

Lemma selected_steps ts os t s :
  SelectTarget ts os = Some (Ok t) → s ∈ target_steps t →
  ∃ k p s0, ts !! k = Some p ∧ s0 ∈ pre_steps p ∧ resolveStep s0 os = Ok s.
Proof.
  intros (key & l & pre & _ & Hchain & Hbuild)%SelectTarget_ok Hs.
  destruct (buildResolvedTarget_from _ _ _ _ Hbuild Hs) as (s0 & Hs0 & Hr).
  destruct (base_chain_steps _ _ _ _ _ Hchain Hs0) as (k & p & _ & Hk & Hin). by exists k, p, s0.
Qed.

Lemma with_start_stop_steps os t s :
  s ∈ target_steps (with_start_stop os t) → s ∈ target_steps t ∨ starts_or_stops os s.
Proof.
  unfold target_steps, with_start_stop, lifecycle_steps, phases, starts_or_stops. cbn [Lifecycle Methods].
  cbn [map concat snd Install Update Execute Stop Uninstall Preinstalled steps_of default]. set_solver.
Qed.

Section parsing.
Context (decode_schema : string → option (string * string)).
Context (decode_arrow : string → option arrowV0).
Context (validateYAML : string → option string).

Lemma translate_decoded data m ts :
  translate decode_schema decode_arrow validateYAML data = Ok (m, ts) →
  ∃ raw, decode_arrow (default data (extractArrowCodeblock data)) = Some raw ∧ toTargets (raw_targets raw) = Ok ts ∧
    arrow_meta m = toMeta (raw_metadata raw).
Proof.
  unfold translate. intros H. apply rbind_ok in H as (info & _ & H).
  destruct (negb _); [done|]. destruct (negb _); [done|]. destruct (validateYAML _); [done|].
  unfold Map in H. destruct (decode_arrow _) as [raw|]; [|done]. exists raw. split; [done|].
  unfold toAggregate in H. case_bool_decide; [done|]. apply rbind_ok in H as (ts' & Hts%rmap_err_Ok & H). by simplify_eq.
Qed.

(** Parsing a manifest always ends.  Where it gives an arrow, the arrow satisfies every
    rule on compiled manifests, carries the metadata that was decoded, and each step of each
    platform is a step the manifest wrote, of one of the five types it may write, with its
    values for that platform, or the start or stop of an app that is only exposed: the steps
    the daemon makes up itself cannot be smuggled in. *)
Lemma parsed_steps_were_written data :
  is_Some (ParseArrow decode_schema decode_arrow validateYAML data) ∧
  ∀ arrow, ParseArrow decode_schema decode_arrow validateYAML data = Some (Ok arrow) →
  ∃ raw, decode_arrow (default data (extractArrowCodeblock data)) = Some raw ∧
    arrow_meta arrow = toMeta (raw_metadata raw) ∧
    ValidateCompiled arrow (arrow_targets arrow) = [] ∧
    ∀ os t s, (os, t) ∈ arrow_targets arrow → s ∈ target_steps t → authored raw os s ∨ starts_or_stops os s.
Proof.
  unfold ParseArrow. destruct (translate _ _ _ data) as [[m ts]|e] eqn:Ht; [|split; [by eexists|done]].
  destruct (translate_decoded _ _ _ Ht) as (raw & Hraw & Hts & Hmeta).
  set (m' := match extractArrowReadme data with Some readme => with_readme m readme | None => m end).
  assert (arrow_meta m' = toMeta (raw_metadata raw)) as Hm' by (unfold m'; destruct (extractArrowReadme data); done).
  clearbody m'. destruct (ValidatePrecompile m' ts); [|split; [by eexists|done]].
  destruct (compile_targets ts) as [[r Hr] Hok]. rewrite Hr. destruct r as [res|e]; [|split; [by eexists|done]].
  destruct (Hok res Hr) as (_ & _ & Hfrom & _).
  destruct (ValidateCompiled (with_targets m' res) res) eqn:Hrules; [|split; [by eexists|done]].
  split; [by eexists|]. intros arrow [= <-]. exists raw. split_and!; [done..|]. intros os t s Hin Hs.
  destruct (Hfrom os t Hin) as (_ & t0 & Hsel & Ht0).
  assert (s ∈ target_steps t0 ∨ starts_or_stops os s) as [Hs0|?]; [|left|by right].
  { destruct Ht0 as [->|[-> _]]; [by left|by apply with_start_stop_steps]. }
  destruct (selected_steps _ _ _ _ Hsel Hs0) as (k & p & s0 & Hk & Hp & Hres).
  destruct (toTargets_from _ _ _ _ Hts Hk) as (rt & Hrt & Htt).
  destruct (toTarget_from _ _ _ Htt Hp) as (r & Hr' & Hstep). by exists k, rt, r, s0.
Qed.
End parsing.

(** A value keeps its meaning from the text to the wizard: on a platform it names, what is
    written for it, and elsewhere the default. *)
Lemma value_kept {T} (zero : T) m o os :
  UnmarshalYAML zero (MappingNode (Some m)) = Some o → os ≠ "default" →
  Resolve_over (toStepOverrideable o) os = default (default zero (m !! "default")) (m !! os).
Proof.
  intros [= <-] Hos. unfold Resolve_over. cbn. rewrite lookup_delete_ne by done. by destruct (m !! os).
Qed.

(** ** A manifest *)

Definition no_value : overrideableV0 string := mkOverrideableV0 "" ∅.

Definition raw_run (type command : string) : stepV0 :=
  mkStepV0 type "" (mkOverrideableV0 command ∅) no_value no_value no_value no_value (mkOverrideableV0 false ∅)
    no_value no_value "" None None.

Definition raw_example (type : string) : arrowV0 :=
  mkArrowV0 "arrow@v0"
    (mkMetadataV0 "tool" "A tool" "MIT" "" "" [] [] (mkMediaV0 "" "") [] (mkGeneratorV0 "" "" []))
    [] []
    {[ "*" := mkTargetV0 "" (mkRequirementsV0 (Some 1%Z) (Some 1%Z) (Some 1%Z)) None None ∅
                (mkLifecycleV0 (Some [raw_run type "make install"]) None None None (Some [raw_run "run" "make remove"]) None)
                ∅ (mkExposeV0 None None) ]}.

Definition parse_example (type : string) : option (result parse_error Arrow) :=
  ParseArrow (λ _, Some ("arrow@v0", "")) (λ _, Some (raw_example type)) (λ _, None) "schema: arrow@v0".

Lemma mapped_exactly_witness :
  is_ok (toAggregate (raw_example "run")) = true ∧ is_ok (toAggregate (raw_example "expose")) = false.
Proof.
  split.
  - apply mapped_exactly. split; [done|]. intros name t s Ht Hs. cbn [raw_targets raw_example] in Ht. apply lookup_singleton_Some in Ht as [_ <-].
    change (raw_steps _) with [raw_run "run" "make install"; raw_run "run" "make remove"] in Hs.
    apply list_elem_of_In in Hs. by destruct Hs as [<-|[<-|[]]]; left.
  - vm_compute. reflexivity.
Defined.

Lemma parsed_steps_were_written_witness :
  ∃ arrow, parse_example "run" = Some (Ok arrow) ∧ length (arrow_targets arrow) = 6 ∧
    ValidateCompiled arrow (arrow_targets arrow) = [].
Proof.
  assert (match parse_example "run" with Some (Ok a) => length (arrow_targets a) =? 6 | _ => false end = true) as Hex
    by (vm_compute; reflexivity).
  destruct (parse_example "run") as [[arrow|]|] eqn:Hp; try done.
  exists arrow. split; [done|]. split; [by apply Nat.eqb_eq|].
  by destruct (proj2 (parsed_steps_were_written _ _ _ _) arrow Hp) as (raw & _ & _ & Hrules & _).
Defined.
